(* ===== verification/_CoqProject ===== *)
-Q . S2P
Prelude.v
TreeMath.v
Rfc6962.v
Inclusion.v
Consistency.v
KvStore.v
TreeStore.v
Instances.v
TreeInv.v
TreeReads.v
TreePush.v
TreeTiles.v
TreeBatch.v
TreeSingle.v
TreeHistory.v
Shared.v
Types.v
TreeHead.v
Tiles.v
MerkleStorage.v
CtStorage.v
CtInv.v
CtFlush.v
CtReads.v
DataTiles.v
CtWorker.v
Metrics.v
X509.v
TbsExtraction.v
Validator.v
ValidatorProofs.v
Ccadb.v
CcadbProofs.v
Startup.v
Api.v
Router.v
ApiReads.v
SharedApi.v
SharedReads.v
SharedWorker.v
SharedSystem.v
Submit.v
SubmitProofs.v
Main.v
MainProofs.v
GenCerts.v
TestUtils.v
WitnessTree.v
LogInstances.v
WitnessLog.v
WitnessShared.v
WitnessSystem.v
WitnessRoots.v
WitnessMain.v
