(* ===== verification/Prelude.v ===== *)
(** * CompactLog: a verification library

    CompactLog is a Certificate Transparency log (RFC 6962, with the static-ct
    tiles and a binary page format) on top of the key-value store SlateDB.  This
    library models its server, src/src/, as executable functions and proves what
    makes it a log: it is append-only, everything that it serves is what was
    logged, what it promises in an SCT is kept, and what it accepts has been
    validated.

    ** The program

    A submission (api/handlers.rs) is decoded, validated (validation/) against
    the trusted roots (ccadb.rs), reduced to its TBS certificate if it is a
    precertificate, looked up among the certificates logged before, and put into
    the queue of the storage.  The batch worker (storage/mod.rs) takes entries
    out of the queue, gives each its index and its SCT (types/), and appends the
    batch to the stored tree (merkle_storage.rs, merkle_tree/) in one write
    together with the records that reads need; then it answers the callers.  The
    read endpoints (api/) serve tree heads, proofs, entries, tiles and pages from
    the same store, while the worker appends to it.  A second worker fetches new
    roots and replaces the validator, a third reports what the others do
    (metrics.rs).  main.rs puts these parts together.

    ** The files and the sources they model (under src/src/, but [GenCerts])

    - [Prelude]: outcomes, wrapping arithmetic, big-endian bytes, strings,
      the state monad [stM], tactics and hint databases.
    - [TreeMath], [Rfc6962], [Inclusion], [Consistency]:
      merkle_tree/ct_merkle_vendored.rs and merkle_tree/consistency.rs: indices
      of the array-based tree, the functions MTH, PATH and PROOF of RFC 6962 as
      the specification, the proofs and both verifiers.
    - [KvStore]: storage/rate_limited_db.rs, rate_limiter.rs (module [Limiter],
      a transition system of readers) and the class of the database.
    - [TreeStore]: merkle_tree/slatedb_backed_tree.rs; the record
      [SlateDbBackedTree] is the database with the node and tile caches.  Its
      invariant is in [TreeInv], its theorems in [TreeReads], [TreePush],
      [TreeTiles], [TreeBatch] and [TreeHistory].  [TreeSingle] holds the
      operations that only the tests use: the single append with its own walk to
      the root and the reads of the latest tree.
    - [Shared], [SharedApi], [SharedReads]: the reads of the tree and of all
      handlers again, with the appends of other tasks between the reads of a
      request; [SharedWorker] shows that the executions of [CtWorker] are such
      appends, and [SharedSystem] puts both together.
    - [Types], [TreeHead], [Tiles]: types/mod.rs, sct.rs, sct_extensions.rs,
      tree_head.rs, signed_note.rs, tiles.rs, pages.rs.
    - [MerkleStorage]: merkle_storage.rs.
    - [CtStorage]: storage/mod.rs, the flush of a batch and the reads; invariant
      in [CtInv], theorems in [CtFlush] and [CtReads].  [DataTiles] specifies the
      TileLeaf structure of a data tile by a parser, as a client has one.
    - [CtWorker]: add_entry_batched and batch_worker of storage/mod.rs, as a step
      function of the worker interleaved with its callers.
    - [Metrics]: metrics.rs and metrics_worker of storage/mod.rs.
    - [X509]: what is used of a certificate, and oids.rs.
    - [TbsExtraction]: validation/tbs_extractor.rs (module [Extractor]).
    - [Validator], [ValidatorProofs]: validation/rfc6962_validator.rs.
    - [Ccadb], [CcadbProofs]: ccadb.rs, over a model of the directory of roots.
    - [Startup]: the parts of main.rs that build the validator and its worker.
    - [Main], [MainProofs]: the rest of main.rs: configuration, keys and the
      composition of all parts, up to the state that is served.
    - [Api], [ApiReads]: the read endpoints of api/handlers.rs,
      api/static_handlers.rs, api/pages_handlers.rs and the state of api/mod.rs.
    - [Router]: the routes, the health check and the middleware of api/mod.rs.
    - [Submit], [SubmitProofs]: add_chain and add_pre_chain, get_roots and
      inclusion_request of api/handlers.rs, validation/issuer_key_hash.rs.
    - [GenCerts]: src/benchmark/src/gen_certs.rs, the certificates of a load test.
    - [TestUtils]: test_utils.rs, the certificates of the unit tests.
    - [Instances], [LogInstances]: concrete instances of all parameters with
      their laws; [WitnessTree], [WitnessLog], [WitnessShared], [WitnessSystem],
      [WitnessRoots], [WitnessMain]: the theorems applied to concrete data.

    ** What the theorems show

    - Proofs of RFC 6962 ([Inclusion], [Consistency]): the index functions give
      exactly PATH and PROOF, the verifiers accept them, and what the verifiers
      accept is true as long as the digest does not collide on the strings hashed.
    - The stored tree: a store holding the leaves [D], with published sizes [B],
      is taken by an append to a store holding [D ++ items], or left as it was,
      or, if the database failed after the write, left with the whole batch
      ([TreeBatch]); so every reachable store holds a list of leaves that only
      grows, a store determines its list ([TreeHistory]), and roots, proofs and
      tiles are those of the list.
      A single append writes the very store of a batch of one leaf ([TreeSingle]).
    - Concurrent reads: an append takes the snapshot that readers see to a later
      one and to nothing between ([Shared]), so the stores in an execution of the
      worker are snapshots, in order, of one growing log ([SharedWorker]); relying
      on that, roots and proofs put together from several snapshots are those of
      the size asked for, tree heads fetched one after the other have a consistency
      proof that verifies, a logged leaf gets an inclusion proof for the head a
      client holds, and get-entries serves logged entries in order
      ([SharedApi]).  A tile, a data tile or a page is that of one moment of the
      request, the same at every moment once it is complete, and its parser gives
      the entries of the log back ([SharedReads]).  For a monitor and an auditor
      this is stated of whole executions of callers and worker ([SharedSystem]).
    - Encodings ([Types], [TreeHead], [Tiles], [ApiReads]): leaves, extensions,
      pages, tile paths and extra data can be read back, SCTs sign the leaf that
      is logged, STH and checkpoint sign the same bytes, everything is made of
      bytes.
    - The storage: a flush is atomic, its answers are true of the log, entries are
      read back as submitted ([CtFlush], [CtReads]); the worker loses, reorders
      and duplicates nothing, keeps its bounds and drains its queue ([CtWorker]).
    - Validation: the extractor computes the TBS certificate of the final
      certificate or says which of its conditions fails ([TbsExtraction]); the
      validator accepts the chains of an explicit specification, [chain_accepted],
      and only those, and its cache is unobservable ([ValidatorProofs]).
    - Roots: an update only adds roots whose fingerprint is the published one, on
      every error path; what is persisted is loaded again; after an update the
      validator trusts exactly the roots of the store ([CcadbProofs],
      [Startup]).
    - The API: every answer of an endpoint is that of the log, every status has
      its reason ([ApiReads]); an accepted submission was validated and is in the
      log under the index its SCT names ([SubmitProofs]), which is proved against
      the class [Batcher] that the worker of [CtWorker] implements.  The path of a
      tile reaches its handler with the level, index and width it was made of,
      and the middleware changes no answer ([Router]).
    - Metrics: all registrations succeed, the averages reported are averages of the
      flushes since the last report, the intervals add up, and the thresholds of the
      queue are those of its depth in spite of the floating-point quotient
      ([Metrics]).
    - The start: on the database of a log [main] establishes what these theorems
      ask for, and a restart keeps configuration, log ID and keys ([MainProofs]).
    - The load test: the tool leaves a certificate of its authority for each index,
      in order, spread evenly over ten files, or reports an error ([GenCerts]).
    - The unit tests of the issuer key hash hold for every key and serial number
      ([TestUtils]).

    ** Conventions

    Code that can fail returns [res E A]: [Ok], [Err] with the error of the
    source, [Panic], or [Fuel] when the model of a loop was cut off.  Theorems on
    the result exclude [Panic] and [Fuel], so they include termination.  The fuel
    is 64 for the loops over the bits of an index and the climbs in a tree (a u64
    has 64 bits), 7 for the groups of three digits of a tile path (10^21 > 2^64),
    and the length of the data for the others (decoders, trimming).  Integers are
    [Z]; u64 arithmetic wraps, as in a release build, by [+!], [-!] and [*!], and
    by [u64].  Asynchronous code runs under the lock that the source takes;
    reads that the source issues together are modelled one after the other, in
    [Shared], [SharedApi] and [SharedReads] with appends between any two of them.  An [f64] is
    a [spec_float] of the Standard Library with 53 and 1024.

    Third-party code is a parameter: classes [SlateDb], [Cache], [Digest],
    [Postcard], [HashOrder] and [StoreOrder] (the iteration order of hash maps),
    [Signer], [Base64], [X509Types] and [X509] (crates x509_cert and der),
    [OpenSsl], [TimeFormat], [RootFormats] (csv, PEM, hex), [P256] (keys),
    [ConfigFormat] (the configuration file), [Registry] (of metrics),
    [AxumRouter] (matching of paths against routes), [CertBuilder] (openssl and
    rand in the load test), [TestMaterial] (p256 and der in the tests), [DebugDb] and [DisplayDb] (the texts of database
    errors), and the records [Io] and [FileIo] and the type [HttpResponse] for what
    the file system and the network answer; classes
    named [...Laws] hold what their documentation promises.  A write to the
    database may fail with or without having taken effect; a cache may forget
    anything at any time.  [SharedDbLaws] and [SharedCacheLaws]
    are what a task may rely on beside a writer; [Shared] derives them for every
    lawful database to which others append ([racing_SlateDb]) and every lawful
    cache.

    ** Not modelled

    The HTTP framework (JSON, compression and headers beyond the ones a theorem
    needs, the text of the metrics endpoint); the increments of counters inside the
    handlers and logging, which nothing reads back; the randomness of keys and the
    fixed options of the database in main.rs; the test modules, which call what is
    modelled; the load script of the benchmark; time-outs and the random delay of a full queue.  The two reads of a join! are in sequence, which differs only in
    which of two errors is reported. *)

From stdpp Require Export prelude gmap list strings pretty sorting.

#[global] Open Scope Z_scope.
#[export] Set Warnings "-clear-no-such-hyp".

(** ** Bytes and outcomes *)

(** A byte is a [Z] in [0, 256); a byte string is a list of them. *)
Abbreviation bytes := (list Z).

(** The outcome of a piece of Rust code: [Ok a] and [Err e] are the two
    constructors of [Result], [Panic] is a panic ([assert!], [panic!],
    [expect], an index out of range) and [Fuel] says that a loop was cut off
    by the fuel of its model. *)
Inductive res (E A : Type) : Type :=
  | Ok (a : A)
  | Err (e : E)
  | Panic
  | Fuel.
Arguments Ok {E A} a.
Arguments Err {E A} e.
Arguments Panic {E A}.
Arguments Fuel {E A}.

#[global] Instance res_ret {E} : MRet (res E) := λ A a, Ok a.
#[global] Instance res_bind {E} : MBind (res E) := λ A B k m,
  match m with
  | Ok a => k a
  | Err e => Err e
  | Panic => Panic
  | Fuel => Fuel
  end.
#[global] Instance res_fmap {E} : FMap (res E) := λ A B f m,
  match m with
  | Ok a => Ok (f a)
  | Err e => Err e
  | Panic => Panic
  | Fuel => Fuel
  end.

(** [Result::map_err]. *)
Definition map_err {E E' A} (f : E → E') (m : res E A) : res E' A :=
  match m with
  | Ok a => Ok a
  | Err e => Err (f e)
  | Panic => Panic
  | Fuel => Fuel
  end.

(** [Option::ok_or_else] and [Option::expect]. *)
Definition ok_or {E A} (o : option A) (e : E) : res E A :=
  match o with Some a => Ok a | None => Err e end.
Definition expect {E A} (o : option A) : res E A :=
  match o with Some a => Ok a | None => Panic end.

(** [assert!]. *)
Definition assert_that {E} (b : bool) : res E unit :=
  if b then Ok tt else Panic.

(** Computations over a state that survives errors (a cache filled before a
    failed read stays filled). *)
Definition stM (S E A : Type) : Type := S → res E A * S.

#[global] Instance stM_ret {S E} : MRet (stM S E) := λ A a s, (Ok a, s).
#[global] Instance stM_bind {S E} : MBind (stM S E) := λ A B k m s,
  match m s with
  | (Ok a, s') => k a s'
  | (Err e, s') => (Err e, s')
  | (Panic, s') => (Panic, s')
  | (Fuel, s') => (Fuel, s')
  end.

Definition lift {S E A} (m : res E A) : stM S E A := λ s, (m, s).
Definition fail {S E A} (e : E) : stM S E A := λ s, (Err e, s).
Definition gets {S E A} (f : S → A) : stM S E A := λ s, (Ok (f s), s).
Definition modify {S E} (f : S → S) : stM S E unit := λ s, (Ok tt, f s).
Definition st_map_err {S E E' A} (f : E → E') (m : stM S E A) : stM S E' A :=
  λ s, let (r, s') := m s in (map_err f r, s').

(** A [Result] that the caller inspects instead of propagating. *)
Definition attempt {S E E' A} (m : stM S E A) : stM S E' (E + A) := λ s,
  match m s with
  | (Ok a, s') => (Ok (inr a), s')
  | (Err e, s') => (Ok (inl e), s')
  | (Panic, s') => (Panic, s')
  | (Fuel, s') => (Fuel, s')
  end.

(** A [Result] of code that neither panics nor runs out of fuel. *)
Definition total {E A} (r : res E A) : Prop :=
  match r with Ok _ | Err _ => True | _ => False end.

(** Total correctness of a computation: it neither panics nor runs out of
    fuel, [Q] holds of its result and final state, [R] of its error. *)
Definition spec {S E A} (m : stM S E A) (s : S) (Q : A → S → Prop) (R : E → S → Prop) : Prop :=
  match m s with
  | (Ok a, s') => Q a s'
  | (Err e, s') => R e s'
  | (Panic, _) | (Fuel, _) => False
  end.

(** ** Unsigned machine integers

    The release profile has no overflow checks, so [+], [-] and [*] wrap; a
    shift amount is taken modulo the width.  Every file proves that no
    operation wraps in the range the code is meant for, where the debug and
    the release builds agree. *)
Definition u8 (x : Z) : Z := x mod 2 ^ 8.
Definition u16 (x : Z) : Z := x mod 2 ^ 16.
Definition u32 (x : Z) : Z := x mod 2 ^ 32.
Definition u64 (x : Z) : Z := x mod 2 ^ 64.

Definition U64_MAX : Z := 2 ^ 64 - 1.

Declare Scope u64_scope.
Delimit Scope u64_scope with u64.
Notation "x +! y" := (u64 (x + y)) (at level 50, left associativity) : Z_scope.
Notation "x -! y" := (u64 (x - y)) (at level 50, left associativity) : Z_scope.
Notation "x *! y" := (u64 (x * y)) (at level 40, left associativity) : Z_scope.

Definition shl64 (x k : Z) : Z := u64 (Z.shiftl x (k mod 64)).
Definition shr64 (x k : Z) : Z := Z.shiftr x (k mod 64).

(** [u64::pow]: repeated wrapping multiplication. *)
Definition pow64 (b : Z) (k : Z) : Z := u64 (b ^ k).

(** [uN::to_be_bytes] for a width of [w] bytes and [uN::from_be_bytes]. *)
Fixpoint be_bytes (w : nat) (x : Z) : bytes :=
  match w with
  | O => []
  | S w' => u8 (Z.shiftr x (8 * Z.of_nat w')) :: be_bytes w' x
  end.
Definition from_be (l : bytes) : Z := fold_left (λ acc b, acc * 256 + b) l 0.

(** Length of a list as a [usize] and sub-slices with [Z] positions. *)
Abbreviation zlen l := (Z.of_nat (length l)).
Definition zslice {A} (a b : Z) (l : list A) : list A :=
  take (Z.to_nat (b - a)) (drop (Z.to_nat a) l).
Definition bytes_ok (l : bytes) : Prop := Forall (λ b, 0 ≤ b < 256) l.

(** The bytes of a byte-string literal. *)
Definition str_bytes (s : string) : bytes :=
  map (λ a, Z.of_nat (Ascii.nat_of_ascii a)) (String.list_ascii_of_string s).

(** [u64::from_be_bytes] after [try_into] an array of eight bytes. *)
Definition u64_from_bytes {E} (l : bytes) (e : E) : res E Z :=
  if bool_decide (length l = 8%nat) then Ok (from_be l) else Err e.

(** [str::starts_with] and [str::contains]. *)
Fixpoint str_prefix (p s : string) : bool :=
  match p, s with
  | EmptyString, _ => true
  | String a p', String b s' => bool_decide (a = b) && str_prefix p' s'
  | _, _ => false
  end.
Fixpoint str_contains (p s : string) : bool :=
  str_prefix p s || match s with EmptyString => false | String _ s' => str_contains p s' end.

(** [Path::join] with a file name. *)
Fixpoint last_char (s : string) : option Ascii.ascii :=
  match s with
  | EmptyString => None
  | String a EmptyString => Some a
  | String _ s' => last_char s'
  end.
Definition path_join (dir name : string) : string :=
  if bool_decide (dir = EmptyString ∨ last_char dir = Some (Ascii.ascii_of_nat 47))
  then dir +:+ name else dir +:+ "/" +:+ name.

(** Iteration over a [BTreeSet<u64>] and a [BTreeMap<u64, _>]: by key. *)
Definition bt_set_iter (X : gset Z) : list Z := merge_sort Z.le (elements X).
Definition bt_iter {A} (m : gmap Z A) : list (Z * A) :=
  omap (λ k, pair k <$> m !! k) (merge_sort Z.le (elements (dom m))).

(** [slice::chunks(w)]. *)
Fixpoint chunks_fuel {A} (fuel w : nat) (l : list A) : list (list A) :=
  match fuel, l with
  | _, [] => []
  | O, _ => []
  | S f, _ => take w l :: chunks_fuel f w (drop w l)
  end.
Definition chunks {A} (w : nat) (l : list A) : list (list A) :=
  chunks_fuel (length l) w l.

(** A range [a..b] as a list. *)
Definition zrange (a b : Z) : list Z := seqZ a (b - a).

(** ** Powers of two *)
Definition pow2 (k : nat) : Z := 2 ^ Z.of_nat k.

(** ** Tactics *)

Create HintDb ct.

(** Destruct the boolean comparisons of the goal into propositions. *)
Ltac zbool :=
  repeat match goal with
  | |- context [(?a =? ?b)] => destruct (Z.eqb_spec a b)
  | |- context [(?a <? ?b)] => destruct (Z.ltb_spec a b)
  | |- context [(?a <=? ?b)] => destruct (Z.leb_spec a b)
  end.

(** Rewrite a boolean comparison whose value [lia] decides. *)
Ltac zdecide :=
  repeat match goal with
  | |- context [(?a =? ?b)] =>
      first [ rewrite (proj2 (Z.eqb_eq a b)) by lia
            | rewrite (proj2 (Z.eqb_neq a b)) by lia ]
  | |- context [(?a <? ?b)] =>
      first [ rewrite (proj2 (Z.ltb_lt a b)) by lia
            | rewrite (proj2 (Z.ltb_ge a b)) by lia ]
  | |- context [(?a <=? ?b)] =>
      first [ rewrite (proj2 (Z.leb_le a b)) by lia
            | rewrite (proj2 (Z.leb_gt a b)) by lia ]
  end.

(** ** Shared lemmas *)

Lemma u64_small x : 0 ≤ x < 2 ^ 64 → u64 x = x.
Proof. apply Z.mod_small. Qed.

(** Drop a wrap whose argument [lia] bounds. *)
Ltac unwrap :=
  repeat match goal with
  | |- context [u64 ?x] => rewrite (u64_small x) by lia
  end.

Lemma u64_range x : 0 ≤ u64 x < 2 ^ 64.
Proof. apply Z.mod_pos_bound. lia. Qed.

Lemma u8_range x : 0 ≤ u8 x < 256.
Proof. apply (Z.mod_pos_bound x (2 ^ 8)). lia. Qed.

Lemma pow2_0 : pow2 0 = 1.
Proof. done. Qed.

Lemma pow2_S k : pow2 (S k) = 2 * pow2 k.
Proof. unfold pow2. rewrite Nat2Z.inj_succ, Z.pow_succ_r by lia. done. Qed.

Lemma pow2_pos k : 1 ≤ pow2 k.
Proof. unfold pow2. lia. Qed.

Lemma pow2_add a b : pow2 (a + b) = pow2 a * pow2 b.
Proof. unfold pow2. by rewrite Nat2Z.inj_add, Z.pow_add_r by lia. Qed.

Lemma pow2_mono a b : (a ≤ b)%nat → pow2 a ≤ pow2 b.
Proof. intros. apply Z.pow_le_mono_r; lia. Qed.

Lemma pow2_lt_inv a b : pow2 a < pow2 b → (a < b)%nat.
Proof.
  intros H. destruct (decide (a < b)%nat); [done|].
  pose proof (pow2_mono b a ltac:(lia)). lia.
Qed.

Lemma pow2_63 k : pow2 k < 2 ^ 64 → (k < 64)%nat.
Proof. intros. apply pow2_lt_inv. change (pow2 64) with (2 ^ 64). lia. Qed.

#[global] Opaque pow2.

Lemma length_be_bytes w x : length (be_bytes w x) = w.
Proof. induction w; simpl; congruence. Qed.

Lemma be_bytes_ok w x : bytes_ok (be_bytes w x).
Proof. induction w; constructor; [apply u8_range|done]. Qed.

Lemma from_be_app a b :
  from_be (a ++ b) = from_be a * 256 ^ zlen b + from_be b.
Proof.
  unfold from_be.
  assert (∀ l acc, fold_left (λ acc b, acc * 256 + b) l acc
                   = acc * 256 ^ zlen l + fold_left (λ acc b, acc * 256 + b) l 0) as H.
  { induction l as [|x l IH]; intros acc; [simpl; lia|].
    cbn [fold_left length]. rewrite (IH (acc * 256 + x)), (IH (0 * 256 + x)).
    rewrite Nat2Z.inj_succ, Z.pow_succ_r by lia. ring. }
  by rewrite fold_left_app, H.
Qed.

Lemma from_be_be_bytes w x : 0 ≤ x → from_be (be_bytes w x) = x mod 256 ^ Z.of_nat w.
Proof.
  intros Hx. induction w as [|w IH]; [by rewrite Z.mod_1_r|].
  change (be_bytes (S w) x) with ([u8 (Z.shiftr x (8 * Z.of_nat w))] ++ be_bytes w x).
  rewrite from_be_app, IH, length_be_bytes.
  unfold from_be, u8; cbn [fold_left].
  rewrite Z.shiftr_div_pow2, Z.pow_mul_r by lia.
  change (2 ^ 8) with 256. rewrite Nat2Z.inj_succ, Z.pow_succ_r by lia.
  assert (0 < 256 ^ Z.of_nat w) by lia.
  rewrite (Z.mul_comm 256), Z.rem_mul_r by lia. lia.
Qed.

Lemma be_bytes_inj w x y :
  0 ≤ x < 256 ^ Z.of_nat w → 0 ≤ y < 256 ^ Z.of_nat w →
  be_bytes w x = be_bytes w y → x = y.
Proof.
  intros Hx Hy H. apply (f_equal from_be) in H.
  rewrite !from_be_be_bytes, !Z.mod_small in H; lia.
Qed.

Lemma from_be_be_64 x : 0 ≤ x < 2 ^ 64 → from_be (be_bytes 8 x) = x.
Proof. intros. rewrite from_be_be_bytes by lia. by apply Z.mod_small. Qed.

(** Slices. *)
Lemma zslice_length {A} a b (l : list A) :
  0 ≤ a ≤ b → b ≤ zlen l → zlen (zslice a b l) = b - a.
Proof. intros. unfold zslice. rewrite length_take, length_drop. lia. Qed.

Lemma zslice_full {A} (l : list A) : zslice 0 (zlen l) l = l.
Proof. unfold zslice. rewrite drop_0, Z.sub_0_r, Nat2Z.id. by rewrite firstn_all. Qed.

Lemma zslice_split {A} a m b (l : list A) :
  0 ≤ a ≤ m → m ≤ b → zslice a b l = zslice a m l ++ zslice m b l.
Proof.
  intros. unfold zslice.
  replace (Z.to_nat (b - a)) with (Z.to_nat (m - a) + Z.to_nat (b - m))%nat by lia.
  rewrite <- take_take_drop, drop_drop. by replace (Z.to_nat a + Z.to_nat (m - a))%nat
    with (Z.to_nat m) by lia.
Qed.

Lemma zslice_take {A} a m b (l : list A) :
  0 ≤ a ≤ m → m ≤ b → b ≤ zlen l →
  take (Z.to_nat (m - a)) (zslice a b l) = zslice a m l.
Proof.
  intros. rewrite (zslice_split a m b) by lia.
  rewrite take_app_length'; [done|].
  pose proof (zslice_length a m l ltac:(lia) ltac:(lia)). lia.
Qed.

Lemma zslice_drop {A} a m b (l : list A) :
  0 ≤ a ≤ m → m ≤ b → b ≤ zlen l →
  drop (Z.to_nat (m - a)) (zslice a b l) = zslice m b l.
Proof.
  intros. rewrite (zslice_split a m b) by lia.
  rewrite drop_app_length'; [done|].
  pose proof (zslice_length a m l ltac:(lia) ltac:(lia)). lia.
Qed.

Lemma zslice_app_l {A} a b (l l' : list A) :
  0 ≤ a → b ≤ zlen l → zslice a b (l ++ l') = zslice a b l.
Proof.
  intros. unfold zslice. destruct (decide (a ≤ zlen l)).
  - rewrite drop_app_le by lia. rewrite take_app_le; [done|]. rewrite length_drop. lia.
  - replace (Z.to_nat (b - a)) with O by lia. by rewrite !take_0.
Qed.

Lemma zslice_one {A} a (l : list A) x :
  0 ≤ a → l !! Z.to_nat a = Some x → zslice a (a + 1) l = [x].
Proof.
  intros Ha Hx. unfold zslice. replace (Z.to_nat (a + 1 - a)) with 1%nat by lia.
  rewrite <- (take_drop_middle l _ _ Hx), drop_app_length'; [done|].
  rewrite length_take. apply lookup_lt_Some in Hx. lia.
Qed.

(** Chunks of a concatenation of equal-length pieces. *)
Lemma chunks_fuel_concat {A} w (ls : list (list A)) fuel :
  (0 < w)%nat → Forall (λ l, length l = w) ls → (length (concat ls) ≤ fuel)%nat →
  chunks_fuel fuel w (concat ls) = ls.
Proof.
  intros Hw Hls. revert fuel. induction Hls as [|l ls Hl Hls IH]; intros fuel Hf.
  { by destruct fuel. }
  simpl in *. rewrite length_app in Hf. destruct fuel as [|fuel]; [lia|].
  destruct l as [|x l]; [simpl in Hl; lia|]. simpl.
  change (x :: l ++ concat ls) with ((x :: l) ++ concat ls).
  rewrite take_app_length', drop_app_length' by done. f_equal.
  apply IH. simpl in Hf. lia.
Qed.

Lemma chunks_concat {A} w (ls : list (list A)) :
  (0 < w)%nat → Forall (λ l, length l = w) ls → chunks w (concat ls) = ls.
Proof. intros. by apply chunks_fuel_concat. Qed.

Lemma length_chunks {A} w (l : list A) k :
  (0 < w)%nat → length l = (k * w)%nat → length (chunks w l) = k.
Proof.
  intros Hw. unfold chunks.
  assert (∀ k (l : list A) fuel, length l = (k * w)%nat → (length l ≤ fuel)%nat →
            length (chunks_fuel fuel w l) = k) as H; [|intros; by apply H].
  clear k l. induction k as [|k IH]; intros l fuel Hl Hf.
  { destruct l; [by destruct fuel|simpl in Hl; lia]. }
  destruct fuel as [|fuel]; [lia|]. destruct l as [|x l]; [simpl in Hl; lia|].
  cbn [chunks_fuel length]. rewrite (IH (drop w (x :: l))); [done|..];
    rewrite length_drop; lia.
Qed.

Lemma chunks_lengths {A} w (l : list A) k :
  (0 < w)%nat → length l = (k * w)%nat → Forall (λ c, length c = w) (chunks w l).
Proof.
  intros Hw. unfold chunks.
  assert (∀ k (l : list A) fuel, length l = (k * w)%nat →
            Forall (λ c, length c = w) (chunks_fuel fuel w l)) as Hc; [|intros; by eapply Hc].
  clear k l. induction k as [|k IH]; intros l fuel Hl.
  { destruct l; [by destruct fuel|simpl in Hl; lia]. }
  destruct fuel as [|fuel]; [destruct l; simpl; done|]. destruct l as [|x l]; [done|].
  cbn [chunks_fuel]. constructor; [rewrite length_take; lia|]. apply IH. rewrite length_drop. lia.
Qed.

Lemma length_concat_const {A} w (ls : list (list A)) :
  Forall (λ l, length l = w) ls → length (concat ls) = (length ls * w)%nat.
Proof. induction 1; simpl; [done|]. rewrite length_app. lia. Qed.

Lemma bind_Ok {E A B} (a : A) (k : A → res E B) : (Ok a ≫= k) = k a.
Proof. done. Qed.

Lemma bind_Ok_inv {E A B} (m : res E A) (k : A → res E B) b :
  (m ≫= k) = Ok b → ∃ a, m = Ok a ∧ k a = Ok b.
Proof. destruct m; naive_solver. Qed.

Lemma map_err_Err_inv {E E' A} (f : E → E') (r : res E A) e :
  map_err f r = Err e → ∃ e', r = Err e' ∧ e = f e'.
Proof. destruct r; naive_solver. Qed.

Lemma bind_Err_inv {E A B} (m : res E A) (k : A → res E B) e :
  (m ≫= k) = Err e → m = Err e ∨ ∃ a, m = Ok a ∧ k a = Err e.
Proof. destruct m; naive_solver. Qed.

Lemma total_map_err {E E' A} (f : E → E') (r : res E A) : total r → total (map_err f r).
Proof. by destruct r. Qed.

Lemma total_bind {E A C} (r : res E A) (k : A → res E C) :
  total r → (∀ a, r = Ok a → total (k a)) → total (r ≫= k).
Proof. destruct r; cbn; auto. Qed.

Lemma total_mapM {E A C} (f : A → res E C) l : (∀ x, x ∈ l → total (f x)) → total (mapM f l).
Proof.
  intros Hf. induction l as [|x l IH]; [done|]. cbn [mapM].
  apply total_bind; [apply Hf; set_solver|]. intros y _.
  apply total_bind; [apply IH; set_solver|done].
Qed.

Lemma total_if {E A} (b : bool) (r r' : res E A) : total r → total r' → total (if b then r else r').
Proof. by destruct b. Qed.

Lemma map_err_Ok_inv {E E' A} (f : E → E') (r : res E A) a : map_err f r = Ok a → r = Ok a.
Proof. destruct r; naive_solver. Qed.

(** Monadic maps that cannot fail. *)
Lemma mapM_Ok {E A B} (f : A → res E B) (g : A → B) l :
  (∀ x, x ∈ l → f x = Ok (g x)) → mapM f l = Ok (map g l).
Proof.
  induction l as [|x l IH]; intros H; [done|]. simpl.
  rewrite H by set_solver. simpl. rewrite IH by set_solver. done.
Qed.

Lemma mapM_Forall2 {E A B} (f : A → res E B) l k :
  mapM f l = Ok k ↔ Forall2 (λ x y, f x = Ok y) l k.
Proof.
  split.
  - revert k. induction l as [|x l IH]; cbn [mapM]; intros k.
    { intros [= <-]. constructor. }
    intros (y & Hy & (ys & Hys & [= <-])%bind_Ok_inv)%bind_Ok_inv. constructor; auto.
  - induction 1 as [|x y l k Hxy _ IH]; [done|]. cbn [mapM]. by rewrite Hxy, bind_Ok, IH.
Qed.

(** Rules for [spec], one per construct. *)
Section SpecRules.
  Context {S E : Type}.
  Implicit Types s : S.

Lemma spec_ret {A} (a : A) s (Q : A → S → Prop) R :
  Q a s → spec (E := E) (mret a) s Q R.
Proof. done. Qed.

Lemma spec_fail {A} (e : E) s (Q : A → S → Prop) (R : E → S → Prop) :
  R e s → spec (fail e) s Q R.
Proof. done. Qed.

Lemma spec_gets {A} (f : S → A) s (Q : A → S → Prop) (R : E → S → Prop) :
  Q (f s) s → spec (gets f) s Q R.
Proof. done. Qed.

Lemma spec_modify (f : S → S) s (Q : unit → S → Prop) (R : E → S → Prop) :
  Q tt (f s) → spec (modify f) s Q R.
Proof. done. Qed.

Lemma spec_lift_ok {A} (m : res E A) a s (Q : A → S → Prop) (R : E → S → Prop) :
  m = Ok a → Q a s → spec (lift m) s Q R.
Proof. by intros ->. Qed.

Lemma spec_bind {A B} (m : stM S E A) (k : A → stM S E B) s Q R :
  spec m s (λ a s', spec (k a) s' Q R) R → spec (m ≫= k) s Q R.
Proof. unfold spec, mbind, stM_bind. by destruct (m s) as [[]]. Qed.

Lemma spec_mono {A} (m : stM S E A) s (Q Q' : A → S → Prop) (R R' : E → S → Prop) :
  spec m s Q R → (∀ a s', Q a s' → Q' a s') → (∀ e s', R e s' → R' e s') → spec m s Q' R'.
Proof. unfold spec. destruct (m s) as [[]]; auto. Qed.

Lemma spec_map_err {E' A} (f : E → E') (m : stM S E A) s (Q : A → S → Prop) R :
  spec m s Q (λ e s', R (f e) s') → spec (st_map_err f m) s Q R.
Proof. unfold spec, st_map_err. by destruct (m s) as [[]]. Qed.

Lemma spec_attempt {E' A} (m : stM S E A) s (Q : E + A → S → Prop) (R : E' → S → Prop) :
  spec m s (λ a s', Q (inr a) s') (λ e s', Q (inl e) s') → spec (attempt m) s Q R.
Proof. unfold spec, attempt. by destruct (m s) as [[]]. Qed.

(** A loop over a list: [I done] holds between iterations. *)
Lemma spec_mapM {A B} (f : A → stM S E B) (l : list A) s (g : A → B → Prop) (I : S → Prop) R :
  I s → (∀ x s', x ∈ l → I s' → spec (f x) s' (λ b s'', g x b ∧ I s'') R) →
  spec (mapM f l) s (λ bs s', Forall2 g l bs ∧ I s') R.
Proof.
  revert s. induction l as [|x l IH]; intros s HI Hf; [by apply spec_ret|].
  apply spec_bind. eapply spec_mono; [apply Hf; [set_solver|done]| |done].
  intros b s' [Hb HI']. apply spec_bind. eapply spec_mono; [apply IH; [done|]| |done].
  { intros. apply Hf; [set_solver|done]. }
  intros bs s'' [Hbs ?]. apply spec_ret. auto.
Qed.

End SpecRules.

Lemma elem_of_zrange a b i : i ∈ zrange a b ↔ a ≤ i < b.
Proof. unfold zrange. rewrite elem_of_seqZ. lia. Qed.

Lemma elem_of_concat {A} (x : A) (ls : list (list A)) :
  x ∈ concat ls ↔ ∃ l, x ∈ l ∧ l ∈ ls.
Proof.
  induction ls as [|l ls IH]; cbn [concat]; [set_solver|].
  rewrite elem_of_app, IH. set_solver.
Qed.

Lemma elem_of_bt_set_iter X i : i ∈ bt_set_iter X ↔ i ∈ X.
Proof. unfold bt_set_iter. by rewrite merge_sort_Permutation, elem_of_elements. Qed.

Lemma elem_of_bt_iter {A} (m : gmap Z A) k v : (k, v) ∈ bt_iter m ↔ m !! k = Some v.
Proof.
  unfold bt_iter. rewrite list_elem_of_omap. split.
  - intros (k' & _ & Hk). destruct (m !! k') eqn:E; [|done]. naive_solver.
  - intros Hk. exists k. rewrite Hk. split; [|done].
    rewrite merge_sort_Permutation, elem_of_elements. by apply elem_of_dom_2 in Hk.
Qed.

Lemma u64_from_be {E} x (e : E) : 0 ≤ x < 2 ^ 64 → u64_from_bytes (be_bytes 8 x) e = Ok x.
Proof.
  intros Hx. unfold u64_from_bytes. rewrite bool_decide_eq_true_2 by apply length_be_bytes.
  by rewrite from_be_be_64.
Qed.

Lemma path_join_inj dir a b : path_join dir a = path_join dir b → a = b.
Proof.
  unfold path_join. destruct (bool_decide _); intros Heq%(inj (String.app dir)); [done|]. by injection Heq.
Qed.

#[export] Hint Resolve u8_range u64_range pow2_pos be_bytes_ok : ct.
