(* ===== verification/TreeMath.v ===== *)
(** * Array-based tree arithmetic

    The index arithmetic of src/src/merkle_tree/ct_merkle_vendored.rs
    ([LeafIdx], [InternalIdx], [num_internal_nodes], [root_idx]).  An index is
    a [u64]; the functions that panic or loop return an outcome.  The second
    half relates indices to coordinates: [node k j] is the [j]-th node of
    level [k], over the leaves [j * 2^k, (j+1) * 2^k). *)

From S2P Require Import Prelude.

(** ** Definitions *)

(** [u64::trailing_ones]. *)
Fixpoint pos_trailing_ones (p : positive) : nat :=
  match p with
  | xI p' => S (pos_trailing_ones p')
  | xO _ => O
  | xH => 1%nat
  end.
Definition trailing_ones (x : Z) : Z :=
  match x with
  | Zpos p => Z.of_nat (pos_trailing_ones p)
  | _ => 0
  end.

(** [LeafIdx::new]: the assertion bounds the index. *)
Definition LeafIdx_new {E} (idx : Z) : res E Z :=
  if idx <=? U64_MAX / 2 then Ok idx else Panic.

(** [impl From<LeafIdx> for InternalIdx]. *)
Definition InternalIdx_from (leaf : Z) : Z := 2 *! leaf.

(** [InternalIdx::level]. *)
Definition level (idx : Z) : Z := trailing_ones idx.

(** [log2], with [log2(0) := 0]. *)
Definition log2 (x : Z) : Z := if x =? 0 then 0 else Z.log2 x.

Definition num_internal_nodes (num_leaves : Z) : Z :=
  if num_leaves =? 0 then 0 else (2 *! (num_leaves -! 1)) +! 1.

Definition root_idx (num_leaves : Z) : Z :=
  let w := num_internal_nodes num_leaves in
  shl64 1 (log2 w) -! 1.

(** The local function [parent_step] of [InternalIdx::parent]. *)
Definition parent_step (idx : Z) : Z :=
  let k := level idx in
  let b := Z.land (shr64 idx (k + 1)) 1 in
  Z.lxor (Z.lor idx (shl64 1 k)) (shl64 b (k + 1)).

Fixpoint parent_loop {E} (fuel : nat) (num_leaves p : Z) : res E Z :=
  if num_internal_nodes num_leaves <=? p then
    match fuel with
    | O => Fuel
    | S f => parent_loop f num_leaves (parent_step p)
    end
  else Ok p.

(** Every iteration raises the level by one, so 64 are enough. *)
Definition parent {E} (idx num_leaves : Z) : res E Z :=
  if idx =? root_idx num_leaves then Panic
  else parent_loop 64 num_leaves (parent_step idx).

Definition left_child {E} (idx : Z) : res E Z :=
  let k := level idx in
  if k =? 0 then Panic else Ok (Z.lxor idx (shl64 1 (k - 1))).

Fixpoint right_loop {E} (fuel : nat) (num_leaves r : Z) : res E Z :=
  if num_internal_nodes num_leaves <=? r then
    match fuel with
    | O => Fuel
    | S f => r' ← left_child r; right_loop f num_leaves r'
    end
  else Ok r.

Definition right_child {E} (idx num_leaves : Z) : res E Z :=
  let k := level idx in
  if k =? 0 then Panic
  else right_loop 64 num_leaves (Z.lxor idx (shl64 3 (k - 1))).

Definition sibling {E} (idx num_leaves : Z) : res E Z :=
  p ← parent idx num_leaves;
  if idx <? p then right_child p num_leaves else left_child p.

Definition is_left {E} (idx num_leaves : Z) : res E bool :=
  p ← parent idx num_leaves; mret (idx <? p).

(** ** Coordinates *)

(** The [j]-th node of level [k]. *)
Definition node (k : nat) (j : Z) : Z := j * (2 * pow2 k) + pow2 k - 1.

(** The index is one of the [2n - 1] nodes of a tree with [n] leaves. *)
Definition valid (n i : Z) : Prop := 0 ≤ i < 2 * n - 1.

(** The tree sizes the index arithmetic supports: 1 to 2^63 leaves. *)
Definition size_ok (n : Z) : Prop := 1 ≤ n ≤ 2 ^ 63.

(** The first leaf under a node and, in a tree of [n] leaves, the end of the
    range of leaves under it. *)
Definition lo (i : Z) : Z := (i + 1 - 2 ^ level i) / 2.
Definition hi (n i : Z) : Z := Z.min n (lo i + 2 ^ level i).

(** [p] has the children [l] and [r] in the tree of [n] leaves. *)
Record children (n p l r : Z) : Prop := {
  ch_p : valid n p;
  ch_l : valid n l;
  ch_r : valid n r;
  ch_lp : l < p < r;
  ch_left : ∀ E, left_child (E := E) p = Ok l;
  ch_right : ∀ E, right_child (E := E) p n = Ok r;
  ch_parent_l : ∀ E, parent (E := E) l n = Ok p;
  ch_parent_r : ∀ E, parent (E := E) r n = Ok p;
  ch_lo : lo l = lo p;
  ch_mid : lo r = lo p + 2 ^ (level p - 1);
  ch_hi_l : lo l + 2 ^ level l = lo r;
  ch_hi_r : hi n r = hi n p;
  ch_level_l : level l = level p - 1;
  ch_level_r : 0 ≤ level r < level p;
  ch_mid_lt : lo r < n;
}.

(** ** Trailing ones and levels *)

Lemma trailing_ones_even x : 0 ≤ x → trailing_ones (2 * x) = 0.
Proof. by destruct x. Qed.

Lemma trailing_ones_odd x : 0 ≤ x → trailing_ones (2 * x + 1) = 1 + trailing_ones x.
Proof.
  destruct x as [|p|p]; [done| |lia]. intros _.
  change (2 * Z.pos p + 1) with (Z.pos p~1). cbn [trailing_ones pos_trailing_ones]. lia.
Qed.

Lemma node_0 j : node 0 j = 2 * j.
Proof. unfold node. rewrite pow2_0. lia. Qed.

Lemma node_S k j : node (S k) j = 2 * node k j + 1.
Proof. unfold node. rewrite pow2_S. lia. Qed.

Lemma node_nonneg k j : 0 ≤ j → 0 ≤ node k j.
Proof. unfold node. pose proof (pow2_pos k). nia. Qed.

Lemma level_node k j : 0 ≤ j → level (node k j) = Z.of_nat k.
Proof.
  intros Hj. unfold level. induction k as [|k IH].
  - rewrite node_0. by apply trailing_ones_even.
  - rewrite node_S, trailing_ones_odd, IH; [lia|by apply node_nonneg].
Qed.

Lemma node_surj i : 0 ≤ i → ∃ k j, 0 ≤ j ∧ i = node k j.
Proof.
  intros Hi. pattern i. apply (Zlt_0_ind _); [|done]. clear i Hi.
  intros i IH Hi. destruct (Z.Even_or_Odd i) as [[x Hx]|[x Hx]].
  - exists O, x. rewrite node_0. lia.
  - destruct (IH x) as (k & j & ? & ->); [lia|].
    exists (S k), j. rewrite node_S. lia.
Qed.

Lemma node_inj k j k' j' : 0 ≤ j → 0 ≤ j' → node k j = node k' j' → k = k' ∧ j = j'.
Proof.
  intros Hj Hj' H. pose proof (f_equal level H) as Hl.
  rewrite !level_node in Hl by done. assert (k = k') as <- by lia.
  split; [done|]. unfold node in H. pose proof (pow2_pos k). nia.
Qed.

Lemma pow2_level k : pow2 k = 2 ^ Z.of_nat k.
Proof. with_strategy transparent [pow2] done. Qed.

Lemma lo_node k j : 0 ≤ j → lo (node k j) = j * pow2 k.
Proof.
  intros. unfold lo. rewrite level_node, <- pow2_level by done. unfold node.
  replace (_ + 1 - pow2 k) with (j * pow2 k * 2) by lia. by rewrite Z.div_mul.
Qed.

Lemma hi_node n k j : 0 ≤ j → hi n (node k j) = Z.min n ((j + 1) * pow2 k).
Proof.
  intros. unfold hi. rewrite lo_node, level_node, <- pow2_level by done. f_equal. lia.
Qed.

(** Existence of a node in a tree of [n] leaves. *)
Lemma valid_node_0 n j : 0 ≤ j → valid n (node 0 j) ↔ j < n.
Proof. intros. unfold valid. rewrite node_0. lia. Qed.

Lemma valid_node_S n k j : 0 ≤ j → valid n (node (S k) j) ↔ (2 * j + 1) * pow2 k < n.
Proof.
  intros. unfold valid. pose proof (node_nonneg (S k) j). unfold node in *.
  rewrite pow2_S in *. lia.
Qed.

Lemma valid_node_lo n k j : 0 ≤ j → valid n (node k j) → j * pow2 k < n.
Proof.
  intros Hj H. destruct k as [|k].
  - apply valid_node_0 in H; [|done]. rewrite pow2_0. lia.
  - apply valid_node_S in H; [|done]. rewrite pow2_S. pose proof (pow2_pos k). lia.
Qed.

Lemma valid_node_S_ge n k j :
  0 ≤ j → 2 * n - 1 ≤ node (S k) j → n ≤ (2 * j + 1) * pow2 k.
Proof. intros. unfold node in *. rewrite pow2_S in *. lia. Qed.

(** A level-[k] node of a tree with at most [2^63] leaves has [k ≤ 63]. *)
Lemma valid_level n k j : size_ok n → 0 ≤ j → valid n (node k j) → (k < 64)%nat.
Proof.
  intros Hn Hj H. apply pow2_63. unfold valid, node, size_ok in *.
  pose proof (pow2_pos k). nia.
Qed.

Lemma valid_lt_64 n i : size_ok n → valid n i → 0 ≤ i < 2 ^ 64 - 1.
Proof. unfold size_ok, valid. lia. Qed.

(** ** Bit-level steps on coordinates *)

Ltac bitwise :=
  apply Z.bits_inj'; intros b Hb;
  destruct (Z.eq_dec b 0) as [->|];
  [ rewrite ?Z.lor_spec, ?Z.lxor_spec, ?Z.testbit_odd_0, ?Z.testbit_even_0; done
  | replace b with (Z.succ (b - 1)) by lia;
    rewrite ?Z.lor_spec, ?Z.lxor_spec, ?Z.testbit_odd_succ, ?Z.testbit_even_succ,
      ?Z.lor_spec, ?Z.lxor_spec by lia; done ].

Lemma lor_odd_even x y : Z.lor (2 * x + 1) (2 * y) = 2 * Z.lor x y + 1.
Proof. bitwise. Qed.
Lemma lxor_odd_even x y : Z.lxor (2 * x + 1) (2 * y) = 2 * Z.lxor x y + 1.
Proof. bitwise. Qed.
Lemma lxor_odd_odd x y : Z.lxor (2 * x + 1) (2 * y + 1) = 2 * Z.lxor x y.
Proof. bitwise. Qed.

Lemma shl64_one k : (k < 64)%nat → shl64 1 (Z.of_nat k) = pow2 k.
Proof.
  intros. unfold shl64. rewrite Z.mod_small by lia.
  rewrite Z.shiftl_mul_pow2, Z.mul_1_l, <- pow2_level by lia.
  apply u64_small. pose proof (pow2_pos k). pose proof (pow2_mono k 63 ltac:(lia)).
  change (pow2 63) with (2 ^ 63) in *. lia.
Qed.

Lemma shl64_small x k :
  (k < 64)%nat → 0 ≤ x → x * pow2 k < 2 ^ 64 → shl64 x (Z.of_nat k) = x * pow2 k.
Proof.
  intros. unfold shl64. rewrite Z.mod_small by lia.
  rewrite Z.shiftl_mul_pow2, <- pow2_level by lia.
  apply u64_small. pose proof (pow2_pos k). lia.
Qed.

Lemma node_bit k j : (k < 63)%nat → 0 ≤ j →
  Z.land (shr64 (node k j) (Z.of_nat k + 1)) 1 = j mod 2.
Proof.
  intros Hk Hj. unfold shr64. rewrite Z.mod_small by lia.
  rewrite Z.shiftr_div_pow2 by lia.
  replace (Z.of_nat k + 1) with (Z.of_nat (S k)) by lia.
  rewrite <- pow2_level, pow2_S. unfold node. pose proof (pow2_pos k).
  replace (j * (2 * pow2 k) + pow2 k - 1) with (pow2 k - 1 + j * (2 * pow2 k)) by lia.
  rewrite Z.div_add, Z.div_small, Z.add_0_l by lia.
  change 1 with (Z.ones 1). by rewrite Z.land_ones.
Qed.

Lemma node_up k j : 0 ≤ j →
  Z.lxor (Z.lor (node k j) (pow2 k)) ((j mod 2) * pow2 (S k)) = node (S k) (j / 2).
Proof.
  intros Hj. induction k as [|k IH].
  - rewrite node_0, node_S, node_0, pow2_S, pow2_0.
    replace (Z.lor (2 * j) 1) with (2 * j + 1); last first.
    { rewrite Z.lor_comm. change 1 with (2 * 0 + 1) at 2. by rewrite lor_odd_even. }
    replace (j mod 2 * (2 * 1)) with (2 * (j mod 2)) by lia.
    rewrite lxor_odd_even. do 2 f_equal.
    rewrite (Z.div_mod j 2) at 1 by lia.
    destruct (Z.mod_pos_bound j 2) as [? ?]; [lia|].
    destruct (decide (j mod 2 = 0)) as [->|]; [by rewrite Z.add_0_r, Z.lxor_0_r|].
    replace (j mod 2) with 1 by lia.
    change 1 with (2 * 0 + 1) at 2. by rewrite lxor_odd_odd, Z.lxor_0_r.
  - rewrite node_S, (pow2_S k), lor_odd_even, (pow2_S (S k)).
    replace (j mod 2 * (2 * pow2 (S k))) with (2 * (j mod 2 * pow2 (S k))) by lia.
    by rewrite lxor_odd_even, IH, (node_S (S k)).
Qed.

Lemma parent_step_node k j : (k < 63)%nat → 0 ≤ j →
  parent_step (node k j) = node (S k) (j / 2).
Proof.
  intros Hk Hj. unfold parent_step. rewrite level_node, node_bit by done.
  rewrite shl64_one by lia. replace (Z.of_nat k + 1) with (Z.of_nat (S k)) by lia.
  pose proof (Z.mod_pos_bound j 2 ltac:(lia)).
  pose proof (pow2_mono (S k) 63 ltac:(lia)). change (pow2 63) with (2 ^ 63) in *.
  rewrite shl64_small; [by apply node_up|lia|lia|]. pose proof (pow2_pos (S k)). nia.
Qed.

Lemma node_left_xor k j : 0 ≤ j → Z.lxor (node (S k) j) (pow2 k) = node k (2 * j).
Proof.
  intros Hj. induction k as [|k IH].
  - rewrite pow2_0, node_S, !node_0. change 1 with (2 * 0 + 1) at 2.
    by rewrite lxor_odd_odd, Z.lxor_0_r.
  - rewrite node_S, pow2_S, lxor_odd_even, IH. by rewrite (node_S k).
Qed.

Lemma node_right_xor k j :
  0 ≤ j → Z.lxor (node (S k) j) (3 * pow2 k) = node k (2 * j + 1).
Proof.
  intros Hj. induction k as [|k IH].
  - rewrite pow2_0, node_S, !node_0. change (3 * 1) with (2 * 1 + 1).
    rewrite lxor_odd_odd. f_equal. change 1 with (2 * 0 + 1) at 1.
    rewrite Z.lxor_comm, lxor_odd_even. by rewrite Z.lxor_0_l.
  - rewrite node_S, pow2_S. replace (3 * (2 * pow2 k)) with (2 * (3 * pow2 k)) by lia.
    rewrite lxor_odd_even, IH. by rewrite (node_S k).
Qed.

Lemma left_child_node {E} k j : (k < 63)%nat → 0 ≤ j →
  left_child (E := E) (node (S k) j) = Ok (node k (2 * j)).
Proof.
  intros. unfold left_child. rewrite level_node by done. zdecide.
  replace (Z.of_nat (S k) - 1) with (Z.of_nat k) by lia.
  rewrite shl64_one by lia. by rewrite node_left_xor.
Qed.

Lemma num_internal_nodes_eq n : size_ok n → num_internal_nodes n = 2 * n - 1.
Proof. intros Hn. unfold num_internal_nodes, size_ok in *. zdecide. unwrap. lia. Qed.

(** ** Root *)

Definition root_level (n : Z) : nat := Z.to_nat (Z.log2 (2 * n - 1)).

Lemma root_level_spec n : 1 ≤ n → pow2 (root_level n) ≤ 2 * n - 1 < 2 * pow2 (root_level n).
Proof.
  intros Hn. pose proof (Z.log2_spec (2 * n - 1)). pose proof (Z.log2_nonneg (2 * n - 1)).
  unfold root_level. rewrite pow2_level, Z2Nat.id by lia. rewrite Z.pow_succ_r in * by lia. lia.
Qed.

Lemma root_level_lt n : size_ok n → (root_level n < 64)%nat.
Proof.
  intros Hn. unfold size_ok in Hn. apply pow2_63. pose proof (root_level_spec n). lia.
Qed.

Lemma root_idx_node n : size_ok n → root_idx n = node (root_level n) 0.
Proof.
  intros Hn. unfold root_idx. rewrite num_internal_nodes_eq by done.
  pose proof (root_level_lt n Hn). unfold size_ok in Hn. unfold log2. zdecide.
  replace (Z.log2 (2 * n - 1)) with (Z.of_nat (root_level n)); last first.
  { unfold root_level. rewrite Z2Nat.id; [done|apply Z.log2_nonneg]. }
  rewrite shl64_one by lia. pose proof (root_level_spec n). pose proof (pow2_pos (root_level n)).
  unfold node. unwrap. lia.
Qed.

Lemma valid_root n : size_ok n → valid n (root_idx n).
Proof.
  intros Hn. rewrite root_idx_node by done. unfold size_ok in Hn.
  pose proof (root_level_spec n). pose proof (pow2_pos (root_level n)).
  unfold valid, node. lia.
Qed.

Lemma root_range n : size_ok n → lo (root_idx n) = 0 ∧ hi n (root_idx n) = n.
Proof.
  intros Hn. rewrite root_idx_node by done. rewrite lo_node, hi_node by done.
  unfold size_ok in Hn. pose proof (root_level_spec n). lia.
Qed.

(** Every node below the top level is not the root. *)
Lemma valid_level_root n k j : size_ok n → 0 ≤ j → valid n (node k j) →
  (k ≤ root_level n)%nat ∧ (k = root_level n → j = 0).
Proof.
  intros Hn Hj H. unfold size_ok in Hn. pose proof (root_level_spec n ltac:(lia)).
  unfold valid, node in H. pose proof (pow2_pos k). split.
  - destruct (decide (k ≤ root_level n)%nat); [done|].
    pose proof (pow2_mono (S (root_level n)) k ltac:(lia)). rewrite pow2_S in *. nia.
  - intros ->. nia.
Qed.

(** ** Children *)

(** The descent of [right_child]: the first existing node on the left spine
    below level [k], position [q]. *)
Fixpoint rdesc (n : Z) (k : nat) (q : Z) : nat * Z :=
  match k with
  | O => (O, q)
  | S k' => if node k q <? 2 * n - 1 then (k, q) else rdesc n k' (2 * q)
  end.

Lemma rdesc_spec n k q :
  0 ≤ q → q * pow2 k < n →
  (fst (rdesc n k q) ≤ k)%nat ∧ 0 ≤ snd (rdesc n k q) ∧
  snd (rdesc n k q) * pow2 (fst (rdesc n k q)) = q * pow2 k ∧
  valid n (node (fst (rdesc n k q)) (snd (rdesc n k q))) ∧
  Z.min n ((snd (rdesc n k q) + 1) * pow2 (fst (rdesc n k q))) = Z.min n ((q + 1) * pow2 k).
Proof.
  revert q. induction k as [|k IH]; intros q Hq Hn.
  - cbn [rdesc fst snd]. rewrite pow2_0 in Hn. split_and!; try done; try lia.
    apply valid_node_0; lia.
  - cbn [rdesc]. destruct (Z.ltb_spec (node (S k) q) (2 * n - 1)) as [Hv|Hv].
    + cbn [fst snd]. split_and!; try done; try lia. split; [by apply node_nonneg|done].
    + pose proof (pow2_pos k). rewrite pow2_S in Hn.
      destruct (IH (2 * q)) as (? & ? & Hs & ? & Hm); [lia|lia|].
      split_and!; try done; try lia.
      * rewrite Hs, pow2_S. lia.
      * apply valid_node_S_ge in Hv; [|done].
        rewrite Hm, pow2_S, !Z.min_l by lia. done.
Qed.

Lemma right_loop_node {E} f n k q :
  size_ok n → (k < 64)%nat → (k ≤ f)%nat → 0 ≤ q → q * pow2 k < n →
  right_loop (E := E) f n (node k q) =
    Ok (node (fst (rdesc n k q)) (snd (rdesc n k q))).
Proof.
  intros Hn. revert f q. induction k as [|k IH]; intros f q Hk Hf Hq Hlt.
  - assert (valid n (node 0 q)) as [_ Hv].
    { apply valid_node_0; [done|]. rewrite pow2_0 in Hlt. lia. }
    destruct f; cbn [right_loop rdesc]; rewrite num_internal_nodes_eq by done; zdecide; done.
  - destruct f as [|f]; [lia|]. cbn [right_loop rdesc]. rewrite num_internal_nodes_eq by done.
    destruct (Z.ltb_spec (node (S k) q) (2 * n - 1)); zdecide; [done|].
    rewrite left_child_node by lia. cbn [mbind res_bind]. apply IH; try lia.
    rewrite pow2_S in Hlt. lia.
Qed.

(** Climbing back from the end of the descent leads to where it started. *)
Lemma parent_loop_rdesc {E} f n k q :
  size_ok n → (k < 63)%nat → (k ≤ f)%nat → 0 ≤ q → q * pow2 k < n →
  parent_loop (E := E) f n
    (parent_step (node (fst (rdesc n k q)) (snd (rdesc n k q)))) =
  parent_loop (f - (k - fst (rdesc n k q))) n (parent_step (node k q)).
Proof.
  intros Hn. revert f q. induction k as [|k IH]; intros f q Hk Hf Hq Hlt.
  - cbn [rdesc fst snd]. by rewrite Nat.sub_0_r.
  - cbn [rdesc]. destruct (Z.ltb_spec (node (S k) q) (2 * n - 1)).
    { cbn [fst snd]. by rewrite Nat.sub_diag, Nat.sub_0_r. }
    rewrite pow2_S in Hlt. destruct (rdesc_spec n k (2 * q)) as (Hle & _); [lia|lia|].
    rewrite IH by lia. rewrite (parent_step_node k (2 * q)) by lia.
    replace (2 * q / 2) with q by (rewrite Z.mul_comm, Z.div_mul; lia).
    set (r := fst (rdesc n k (2 * q))) in *.
    replace (f - (k - r))%nat with (S (f - (S k - r)))%nat by lia.
    cbn [parent_loop]. rewrite num_internal_nodes_eq by done. by zdecide.
Qed.

Lemma parent_loop_valid {E} f n i :
  size_ok n → valid n i → parent_loop (E := E) f n i = Ok i.
Proof.
  intros Hn [_ Hv]. destruct f; cbn [parent_loop];
    rewrite num_internal_nodes_eq by done; by zdecide.
Qed.

Lemma not_root n k j k' j' :
  size_ok n → 0 ≤ j → 0 ≤ j' → valid n (node k j) → (k' < k)%nat →
  (node k' j' =? root_idx n) = false.
Proof.
  intros Hn Hj Hj' Hv Hk. apply Z.eqb_neq. rewrite root_idx_node by done.
  intros [-> _]%node_inj; [|done|done]. apply valid_level_root in Hv; [lia|done|done].
Qed.

Lemma parent_of_left {E} n k j :
  size_ok n → 0 ≤ j → valid n (node (S k) j) →
  parent (E := E) (node k (2 * j)) n = Ok (node (S k) j).
Proof.
  intros Hn Hj Hv. pose proof (valid_level n (S k) j Hn Hj Hv). unfold parent.
  rewrite (not_root n (S k) j) by (done || lia). rewrite parent_step_node by lia.
  replace (2 * j / 2) with j by (rewrite Z.mul_comm, Z.div_mul; lia).
  by apply parent_loop_valid.
Qed.

Lemma parent_of_right {E} n k j :
  size_ok n → 0 ≤ j → valid n (node (S k) j) →
  parent (E := E) (node (fst (rdesc n k (2 * j + 1))) (snd (rdesc n k (2 * j + 1)))) n
  = Ok (node (S k) j).
Proof.
  intros Hn Hj Hv. pose proof (valid_level n (S k) j Hn Hj Hv).
  pose proof Hv as Hlt. apply valid_node_S in Hlt; [|done].
  destruct (rdesc_spec n k (2 * j + 1)) as (Hle & Hs & _); [lia|lia|].
  unfold parent. rewrite (not_root n (S k) j) by (done || lia).
  rewrite parent_loop_rdesc by (done || lia). rewrite parent_step_node by lia.
  replace ((2 * j + 1) / 2) with j by (apply (Z.div_unique _ _ _ 1); lia).
  by apply parent_loop_valid.
Qed.

Lemma right_child_node {E} n k j :
  size_ok n → 0 ≤ j → valid n (node (S k) j) →
  right_child (E := E) (node (S k) j) n =
    Ok (node (fst (rdesc n k (2 * j + 1))) (snd (rdesc n k (2 * j + 1)))).
Proof.
  intros Hn Hj Hv. pose proof (valid_level n (S k) j Hn Hj Hv).
  pose proof Hv as Hlt. apply valid_node_S in Hlt; [|done].
  unfold right_child. rewrite level_node by done. zdecide.
  replace (Z.of_nat (S k) - 1) with (Z.of_nat k) by lia.
  pose proof (pow2_mono k 62 ltac:(lia)). change (pow2 62) with (2 ^ 62) in *.
  rewrite shl64_small, node_right_xor by lia.
  apply right_loop_node; done || lia.
Qed.

Lemma node_lt_right k j r s :
  0 ≤ s → s * pow2 r = (2 * j + 1) * pow2 k → node k (2 * j) < node (S k) j < node r s.
Proof.
  intros Hs H. unfold node. rewrite pow2_S. pose proof (pow2_pos k). pose proof (pow2_pos r). nia.
Qed.

Lemma children_node n k j :
  size_ok n → 0 ≤ j → valid n (node (S k) j) →
  children n (node (S k) j) (node k (2 * j))
    (node (fst (rdesc n k (2 * j + 1))) (snd (rdesc n k (2 * j + 1)))).
Proof.
  intros Hn Hj Hv. pose proof (valid_level n (S k) j Hn Hj Hv).
  pose proof Hv as Hlt. apply valid_node_S in Hlt; [|done].
  destruct (rdesc_spec n k (2 * j + 1)) as (Hle & Hs & Hlo & Hr & Hm); [lia|lia|].
  pose proof (pow2_pos k).
  pose proof (node_lt_right k j _ _ Hs Hlo) as Hord.
  split; try done.
  - split; [apply node_nonneg; lia|]. destruct Hv. lia.
  - intros E. apply left_child_node; lia.
  - intros E. by apply right_child_node.
  - intros E. by apply parent_of_left.
  - intros E. by apply parent_of_right.
  - rewrite !lo_node, pow2_S by lia. lia.
  - rewrite !lo_node, level_node, Hlo by lia.
    replace (Z.of_nat (S k) - 1) with (Z.of_nat k) by lia. rewrite <- pow2_level, pow2_S. lia.
  - rewrite !lo_node, level_node, Hlo, <- pow2_level by lia. lia.
  - rewrite !hi_node, Hm, pow2_S by lia. f_equal. lia.
  - rewrite !level_node by lia. lia.
  - rewrite !level_node by lia. lia.
  - rewrite !lo_node, Hlo by lia. lia.
Qed.

(** Every node is a leaf or has two children: the case analysis and the
    induction principle that the proofs on trees use. *)
Lemma valid_cases n i :
  size_ok n → valid n i →
  (level i = 0 ∧ i = 2 * lo i ∧ hi n i = lo i + 1 ∧ 0 ≤ lo i < n)
  ∨ ∃ l r, children n i l r.
Proof.
  intros Hn Hv. destruct (node_surj i) as (k & j & Hj & ->); [by destruct Hv|].
  destruct k as [|k]; [left|right; eauto using children_node].
  apply valid_node_0 in Hv as Hlt; [|done].
  rewrite level_node, lo_node, hi_node, node_0, pow2_0 by done. lia.
Qed.

Lemma valid_ind n (P : Z → Prop) :
  size_ok n →
  (∀ i, valid n i → level i = 0 → i = 2 * lo i → hi n i = lo i + 1 → 0 ≤ lo i < n → P i) →
  (∀ i l r, children n i l r → P l → P r → P i) →
  ∀ i, valid n i → P i.
Proof.
  intros Hn Hleaf Hnode.
  assert (∀ m i, level i < m → valid n i → P i) as H; [|eauto using Z.lt_succ_diag_r].
  intros m. destruct (decide (0 ≤ m)) as [Hm|Hm]; last first.
  { intros i Hi Hv. destruct (node_surj i) as (k & j & Hj & ->); [by destruct Hv|].
    rewrite level_node in Hi; lia. }
  pattern m. apply natlike_ind; [| |done].
  - intros i Hi Hv. destruct (node_surj i) as (k & j & Hj & ->); [by destruct Hv|].
    rewrite level_node in Hi; lia.
  - intros m' _ IH i Hi Hv. destruct (valid_cases n i Hn Hv) as [(? & ? & ? & ?)|(l & r & Hc)].
    { by apply Hleaf. }
    pose proof (ch_level_l _ _ _ _ Hc). pose proof (ch_level_r _ _ _ _ Hc).
    apply (Hnode i l r Hc); apply IH; try lia; apply Hc.
Qed.

(** ** Consequences for siblings *)

Section Children.
  Context {n p l r : Z} (Hc : children n p l r).

Lemma sibling_left {E} : sibling (E := E) l n = Ok r.
Proof.
  unfold sibling. rewrite (ch_parent_l _ _ _ _ Hc). cbn [mbind res_bind].
  pose proof (ch_lp _ _ _ _ Hc). zdecide. apply (ch_right _ _ _ _ Hc).
Qed.

Lemma sibling_right {E} : sibling (E := E) r n = Ok l.
Proof.
  unfold sibling. rewrite (ch_parent_r _ _ _ _ Hc). cbn [mbind res_bind].
  pose proof (ch_lp _ _ _ _ Hc). zdecide. apply (ch_left _ _ _ _ Hc).
Qed.

Lemma is_left_left {E} : is_left (E := E) l n = Ok true.
Proof.
  unfold is_left. rewrite (ch_parent_l _ _ _ _ Hc). cbn [mbind res_bind].
  pose proof (ch_lp _ _ _ _ Hc). by zdecide.
Qed.

Lemma is_left_right {E} : is_left (E := E) r n = Ok false.
Proof.
  unfold is_left. rewrite (ch_parent_r _ _ _ _ Hc). cbn [mbind res_bind].
  pose proof (ch_lp _ _ _ _ Hc). by zdecide.
Qed.

Lemma children_hi_l : hi n l = lo r.
Proof.
  unfold hi. rewrite (ch_hi_l _ _ _ _ Hc). pose proof (ch_mid_lt _ _ _ _ Hc). lia.
Qed.

Lemma children_lt : lo p < lo r < hi n p.
Proof.
  pose proof (ch_mid _ _ _ _ Hc). pose proof (ch_level_r _ _ _ _ Hc).
  pose proof (ch_mid_lt _ _ _ _ Hc).
  assert (2 ^ level p = 2 * 2 ^ (level p - 1)) as Hp.
  { rewrite <- Z.pow_succ_r by lia. f_equal. lia. }
  assert (0 < 2 ^ (level p - 1)) by lia. unfold hi. lia.
Qed.

(** The split point of RFC 6962 is where the children meet. *)
Lemma children_size :
  2 ^ (level p - 1) < hi n p - lo p ≤ 2 * 2 ^ (level p - 1).
Proof.
  pose proof children_lt. pose proof (ch_mid _ _ _ _ Hc). pose proof (ch_level_r _ _ _ _ Hc).
  assert (2 ^ level p = 2 * 2 ^ (level p - 1)) as Hp.
  { rewrite <- Z.pow_succ_r by lia. f_equal. lia. }
  unfold hi in *. lia.
Qed.
End Children.

Lemma valid_lo_nonneg i : 0 ≤ i → 0 ≤ lo i.
Proof.
  intros Hi. destruct (node_surj i Hi) as (k & j & Hj & ->). rewrite lo_node by done.
  pose proof (pow2_pos k). nia.
Qed.

Lemma valid_lo_hi n i : valid n i → 0 ≤ lo i < hi n i ∧ hi n i ≤ n.
Proof.
  intros Hv. destruct (node_surj i) as (k & j & Hj & ->); [by destruct Hv|].
  pose proof (valid_node_lo n k j Hj Hv). pose proof (pow2_pos k).
  rewrite lo_node, hi_node by done. nia.
Qed.

(** ** Leaves and non-leaves *)
Lemma leaf_level m : 0 ≤ m → level (2 * m) = 0.
Proof. intros. rewrite <- node_0. by rewrite level_node. Qed.

Lemma leaf_lo m : 0 ≤ m → lo (2 * m) = m.
Proof. intros. rewrite <- node_0, lo_node, pow2_0 by done. lia. Qed.

Lemma leaf_valid n m : 0 ≤ m < n → valid n (2 * m).
Proof. unfold valid. lia. Qed.

Lemma leaf_hi n m : 0 ≤ m < n → hi n (2 * m) = m + 1.
Proof. intros. rewrite <- node_0, hi_node, pow2_0 by lia. lia. Qed.

Lemma InternalIdx_from_eq m : 0 ≤ m < 2 ^ 63 → InternalIdx_from m = 2 * m.
Proof. intros. unfold InternalIdx_from. by unwrap. Qed.

Lemma LeafIdx_new_ok {E} m : m < 2 ^ 63 → LeafIdx_new (E := E) m = Ok m.
Proof.
  intros. unfold LeafIdx_new, U64_MAX. change ((2 ^ 64 - 1) / 2) with (2 ^ 63 - 1). by zdecide.
Qed.

Lemma root_idx_1 : root_idx 1 = 0.
Proof. done. Qed.

Lemma root_not_leaf n m : size_ok n → 2 ≤ n → 0 ≤ m → 2 * m ≠ root_idx n.
Proof.
  intros Hn H2 Hm H. rewrite root_idx_node, <- node_0 in H by done.
  apply node_inj in H as [H _]; [|done|done]. pose proof (root_level_spec n ltac:(lia)).
  rewrite <- H, pow2_0 in *. lia.
Qed.

#[export] Hint Resolve valid_root leaf_valid ch_p ch_l ch_r : ct.

(** ** The parent is the first existing ancestor *)

Lemma parent_loop_first {E} f n k j :
  size_ok n → 0 ≤ j → j * pow2 k < n → (k ≤ root_level n)%nat → (root_level n - k ≤ f)%nat →
  ∃ d, parent_loop (E := E) f n (node k j) = Ok (node (k + d) (j / pow2 d)) ∧
    valid n (node (k + d) (j / pow2 d)) ∧ (k + d ≤ root_level n)%nat ∧
    ∀ d', (d' < d)%nat → ¬ valid n (node (k + d') (j / pow2 d')).
Proof.
  intros Hn. pose proof Hn as Hn'. unfold size_ok in Hn'.
  pose proof (root_level_spec n ltac:(lia)) as HK. pose proof (root_level_lt n Hn).
  assert (∀ k j, 0 ≤ j → j * pow2 k < n → ¬ valid n (node k j) → k ≠ root_level n) as Hne.
  { intros k' j' Hj' Hlt' Hv ->. apply Hv. assert (j' = 0) as -> by nia.
    rewrite <- root_idx_node by done. by apply valid_root. }
  revert k j. induction f as [|f IH]; intros k j Hj Hlt Hk Hf;
    destruct (decide (valid n (node k j))) as [Hv|Hv].
  1, 3: exists O; rewrite Nat.add_0_r, pow2_0, Z.div_1_r;
    split_and!; [by apply parent_loop_valid|done|lia|lia].
  { pose proof (Hne k j Hj Hlt Hv). lia. }
  pose proof (Hne k j Hj Hlt Hv).
  assert ((parent_loop (E := E) (S f) n (node k j)) = parent_loop f n (node (S k) (j / 2))) as ->.
  { cbn [parent_loop]. rewrite num_internal_nodes_eq, parent_step_node by (done || lia).
    pose proof (node_nonneg k j Hj). unfold valid in Hv. by zdecide. }
  destruct (IH (S k) (j / 2)) as (d & Hd & Hvd & Hle & Hfirst);
    [apply Z.div_pos; lia| |lia|lia|].
  { rewrite pow2_S. pose proof (pow2_pos k). pose proof (Z.mul_div_le j 2). nia. }
  exists (S d). assert (∀ d', j / 2 / pow2 d' = j / pow2 (S d')) as Hdiv.
  { intros d'. rewrite pow2_S, Z.div_div; [done|lia|pose proof (pow2_pos d'); lia]. }
  rewrite Nat.add_succ_r, <- Hdiv. split_and!; [done|done|lia|].
  intros [|d'] Hd'; [by rewrite Nat.add_0_r, pow2_0, Z.div_1_r|].
  rewrite Nat.add_succ_r, <- Hdiv. apply Hfirst. lia.
Qed.

Lemma valid_not_root_level n k j :
  size_ok n → 0 ≤ j → valid n (node k j) → node k j ≠ root_idx n → (k < root_level n)%nat.
Proof.
  intros Hn Hj Hv Hr. destruct (valid_level_root n k j) as [Hle Heq]; [done..|].
  destruct (decide (k = root_level n)); [|lia]. destruct Hr.
  rewrite root_idx_node by done. subst. by rewrite Heq.
Qed.

Lemma parent_first {E} n k j :
  size_ok n → 0 ≤ j → valid n (node k j) → node k j ≠ root_idx n →
  ∃ d, parent (E := E) (node k j) n = Ok (node (k + S d) (j / pow2 (S d))) ∧
    valid n (node (k + S d) (j / pow2 (S d))) ∧
    ∀ d', (d' < d)%nat → ¬ valid n (node (k + S d') (j / pow2 (S d'))).
Proof.
  intros Hn Hj Hv Hr. pose proof (valid_not_root_level n k j Hn Hj Hv Hr).
  pose proof (root_level_lt n Hn). pose proof (valid_node_lo n k j Hj Hv).
  unfold parent. rewrite (proj2 (Z.eqb_neq _ _)) by done. rewrite parent_step_node by lia.
  destruct (parent_loop_first (E := E) 64 n (S k) (j / 2)) as (d & Hd & Hvd & _ & Hfirst);
    [done|apply Z.div_pos; lia| |lia|lia|].
  { rewrite pow2_S. pose proof (pow2_pos k). pose proof (Z.mul_div_le j 2). nia. }
  assert (∀ d', j / 2 / pow2 d' = j / pow2 (S d')) as Hdiv.
  { intros d'. rewrite pow2_S, Z.div_div; [done|lia|pose proof (pow2_pos d'); lia]. }
  exists d. rewrite Nat.add_succ_r, <- Hdiv. split_and!; [done|done|].
  intros d' Hd'. rewrite Nat.add_succ_r, <- Hdiv. by apply Hfirst.
Qed.

(** A node that is not the root has a parent and a sibling in the tree. *)
Lemma parent_sibling_valid {E} n i :
  size_ok n → valid n i → i ≠ root_idx n →
  ∃ p s, parent (E := E) i n = Ok p ∧ sibling (E := E) i n = Ok s ∧ valid n p ∧ valid n s.
Proof.
  intros Hn Hv Hr. destruct (node_surj i) as (k & j & Hj & ->); [apply Hv|].
  destruct (parent_first (E := E) n k j) as (d & Hp & Hvp & _); [done..|].
  rewrite Nat.add_succ_r in *. set (p := node (S (k + d)) _) in *.
  assert (0 ≤ j / pow2 (S d)) by (apply Z.div_pos; [done|pose proof (pow2_pos (S d)); lia]).
  pose proof (children_node n (k + d) (j / pow2 (S d)) Hn ltac:(done) Hvp) as Hc.
  exists p. unfold sibling. rewrite Hp. cbn [mbind res_bind].
  destruct (node k j <? p).
  - eexists. split_and!; [done|apply (ch_right _ _ _ _ Hc)|done|apply Hc].
  - eexists. split_and!; [done|apply (ch_left _ _ _ _ Hc)|done|apply Hc].
Qed.

(** ** Nodes that are complete in a smaller tree *)

Lemma rdesc_valid n k q : valid n (node k q) → rdesc n k q = (k, q).
Proof.
  intros [_ Hv]. destruct k; [done|]. cbn [rdesc]. by zdecide.
Qed.

Lemma valid_complete n k j : 0 ≤ j → (j + 1) * pow2 k ≤ n → valid n (node k j).
Proof.
  intros Hj Hn. destruct k as [|k].
  - apply valid_node_0; [done|]. rewrite pow2_0 in Hn. lia.
  - apply valid_node_S; [done|]. rewrite pow2_S in Hn. pose proof (pow2_pos k). lia.
Qed.

Lemma children_old n m p l r :
  size_ok n → size_ok m → children n p l r → lo p + 2 ^ level p ≤ m → m ≤ n → children m p l r.
Proof.
  intros Hn Hm Hc Hp Hmn. destruct (node_surj p) as (k & j & Hj & ->); [apply (ch_p _ _ _ _ Hc)|].
  destruct k as [|k].
  { pose proof (ch_level_r _ _ _ _ Hc). rewrite level_node in *; lia. }
  rewrite lo_node, level_node, <- pow2_level in Hp by done.
  pose proof (valid_complete m (S k) j Hj ltac:(lia)) as Hv.
  pose proof (children_node m k j Hm Hj Hv) as Hc'.
  pose proof (children_node n k j Hn Hj (ch_p _ _ _ _ Hc)) as Hcn.
  rewrite pow2_S in Hp.
  rewrite rdesc_valid in Hc' by (apply valid_complete; lia).
  rewrite rdesc_valid in Hcn by (apply valid_complete; lia).
  pose proof (ch_left _ _ _ _ Hcn unit) as Hl. rewrite (ch_left _ _ _ _ Hc) in Hl.
  pose proof (ch_right _ _ _ _ Hcn unit) as Hr. rewrite (ch_right _ _ _ _ Hc) in Hr.
  congruence.
Qed.

(** A node whose range strictly contains the split of [t] contains [t]. *)
Lemma nested_split n t l r i :
  children n t l r → valid n i → lo i < lo r < hi n i → hi n t ≤ hi n i ∧ level t ≤ level i.
Proof.
  intros Hc Hi [H1 H2]. destruct (node_surj t) as (k & j & Hj & ->); [apply (ch_p _ _ _ _ Hc)|].
  destruct k as [|k].
  { pose proof (ch_level_r _ _ _ _ Hc). rewrite level_node in *; lia. }
  pose proof (ch_mid _ _ _ _ Hc) as Hm. rewrite lo_node, level_node in Hm by done.
  replace (Z.of_nat (S k) - 1) with (Z.of_nat k) in Hm by lia. rewrite <- pow2_level, pow2_S in Hm.
  destruct (node_surj i) as (k' & j' & Hj' & ->); [apply Hi|].
  rewrite lo_node in H1 by done. rewrite hi_node in H2 by done. rewrite !hi_node, !level_node by done.
  pose proof (pow2_pos k). pose proof (pow2_pos k').
  destruct (decide (k' ≤ k)%nat) as [Hk|Hk].
  - replace k with (k' + (k - k'))%nat in Hm by lia. rewrite pow2_add in Hm.
    assert (j' < (2 * j + 1) * pow2 (k - k') < j' + 1) by nia. lia.
  - replace k' with (S k + (k' - S k))%nat in * by lia. rewrite pow2_add, pow2_S in *.
    set (d := pow2 (k' - S k)) in *. pose proof (pow2_pos (k' - S k)).
    assert (2 * (j' * d) < 2 * j + 1) by nia. assert (2 * j + 1 < 2 * ((j' + 1) * d)) by nia.
    split; [nia|lia].
Qed.
