(* ===== verification/Rfc6962.v ===== *)
(** * RFC 6962 section 2.1: hashes, audit paths, consistency proofs

    The hash functions of src/src/merkle_tree/ct_merkle_vendored.rs, over an
    arbitrary digest algorithm, and the Merkle Tree Hash, PATH and SUBPROOF
    functions of RFC 6962, which are the specification of the tree code.
    [subtree_hash] says which hash a node of the array-based tree stands
    for. *)

From S2P Require Import Prelude TreeMath.

(** ** The digest algorithm (crate [digest], a parameter) *)

Class Digest := {
  output_size : nat;
  digest : bytes → bytes;
  digest_length : ∀ x, length (digest x) = output_size;
  output_size_pos : (0 < output_size)%nat;
}.

(** Trait [HashableLeaf] for [T : AsRef<[u8]>]: the bytes fed to the hasher. *)
Class HashableLeaf (T : Type) := as_ref : T → bytes.

Definition LEAF_HASH_PREFIX : bytes := [0].
Definition PARENT_HASH_PREFIX : bytes := [1].

Definition leaf_hash `{Digest} `{HashableLeaf T} (leaf : T) : bytes :=
  digest (LEAF_HASH_PREFIX ++ as_ref leaf).

Definition parent_hash `{Digest} (left right : bytes) : bytes :=
  digest (PARENT_HASH_PREFIX ++ left ++ right).

(** [digest::Output::<H>::default()]: all zeroes. *)
Definition default_hash `{Digest} : bytes := replicate output_size 0.

(** ** Specification *)

(** The largest power of two smaller than [n], for [n ≥ 2]. *)
Definition split_point (n : Z) : Z := 2 ^ Z.log2 (n - 1).

Section Spec.
  Context `{Digest} `{HashableLeaf T}.
  Implicit Types D : list T.

Fixpoint mth_fuel (fuel : nat) (D : list T) : bytes :=
  match D with
  | [] => digest []
  | [d] => leaf_hash d
  | _ =>
      match fuel with
      | O => digest []
      | S f =>
          let k := Z.to_nat (split_point (zlen D)) in
          parent_hash (mth_fuel f (take k D)) (mth_fuel f (drop k D))
      end
  end.

(** MTH(D[n]). *)
Definition mth (D : list T) : bytes := mth_fuel (length D) D.

Fixpoint path_fuel (fuel : nat) (m : Z) (D : list T) : list bytes :=
  match fuel with
  | O => []
  | S f =>
      if zlen D <=? 1 then []
      else
        let k := split_point (zlen D) in
        let L := take (Z.to_nat k) D in
        let R := drop (Z.to_nat k) D in
        if m <? k then path_fuel f m L ++ [mth R]
        else path_fuel f (m - k) R ++ [mth L]
  end.

(** PATH(m, D[n]). *)
Definition path (m : Z) (D : list T) : list bytes := path_fuel (length D) m D.

Fixpoint subproof_fuel (fuel : nat) (m : Z) (D : list T) (b : bool) : list bytes :=
  match fuel with
  | O => []
  | S f =>
      if m =? zlen D then if b then [] else [mth D]
      else
        let k := split_point (zlen D) in
        let L := take (Z.to_nat k) D in
        let R := drop (Z.to_nat k) D in
        if m <=? k then subproof_fuel f m L b ++ [mth R]
        else subproof_fuel f (m - k) R false ++ [mth L]
  end.

(** SUBPROOF(m, D[n], b) and PROOF(m, D[n]). *)
Definition rfc_subproof (m : Z) (D : list T) (b : bool) : list bytes :=
  subproof_fuel (length D) m D b.
Definition rfc_proof (m : Z) (D : list T) : list bytes := rfc_subproof m D true.

(** The hash a node stands for in the tree over the first [n] leaves. *)
Definition subtree_hash (D : list T) (n i : Z) : bytes :=
  mth (zslice (lo i) (hi n i) D).

(** ** Lemmas *)

Lemma split_point_spec n : 2 ≤ n → 1 ≤ split_point n < n ∧ n ≤ 2 * split_point n.
Proof.
  intros Hn. unfold split_point. pose proof (Z.log2_spec (n - 1) ltac:(lia)).
  pose proof (Z.log2_nonneg (n - 1)). rewrite Z.pow_succ_r in * by lia. lia.
Qed.

Lemma split_point_unique n k : 0 ≤ k → 2 ^ k < n ≤ 2 * 2 ^ k → split_point n = 2 ^ k.
Proof.
  intros Hk Hn. unfold split_point. f_equal. apply Z.log2_unique; [done|].
  rewrite Z.pow_succ_r by lia. lia.
Qed.

Lemma mth_fuel_enough f1 f2 D :
  (length D ≤ f1)%nat → (length D ≤ f2)%nat → mth_fuel f1 D = mth_fuel f2 D.
Proof.
  revert f2 D. induction f1 as [|f1 IH]; intros f2 D H1 H2.
  { destruct D; [by destruct f2|simpl in *; lia]. }
  destruct D as [|d [|d' D]]; [by destruct f2..|].
  destruct f2 as [|f2]; [simpl in *; lia|]. cbn [mth_fuel].
  pose proof (split_point_spec (zlen (d :: d' :: D)) ltac:(simpl; lia)).
  set (k := Z.to_nat _). set (D' := d :: d' :: D) in *.
  f_equal; apply IH; rewrite ?length_take, ?length_drop; lia.
Qed.

Lemma mth_nil : mth [] = digest [].
Proof. done. Qed.

Lemma mth_one d : mth [d] = leaf_hash d.
Proof. done. Qed.

Lemma mth_fuel_S f D :
  2 ≤ zlen D →
  mth_fuel (S f) D = parent_hash (mth_fuel f (take (Z.to_nat (split_point (zlen D))) D))
                                 (mth_fuel f (drop (Z.to_nat (split_point (zlen D))) D)).
Proof. intros. by destruct D as [|d [|d' D]]; [simpl in *; lia..|]. Qed.

(** The recursive equation of RFC 6962. *)
Lemma mth_split D :
  2 ≤ zlen D →
  mth D = parent_hash (mth (take (Z.to_nat (split_point (zlen D))) D))
                      (mth (drop (Z.to_nat (split_point (zlen D))) D)).
Proof.
  intros HD. pose proof (split_point_spec (zlen D) HD).
  unfold mth at 1. rewrite (mth_fuel_enough _ (S (length D))) by lia.
  rewrite mth_fuel_S by done. unfold mth.
  f_equal; apply mth_fuel_enough; rewrite ?length_take, ?length_drop; lia.
Qed.

Lemma mth_length D : length (mth D) = output_size.
Proof.
  unfold mth. destruct D as [|d [|d' D]]; apply digest_length.
Qed.

Lemma path_fuel_enough f1 f2 m D :
  (length D ≤ f1)%nat → (length D ≤ f2)%nat → path_fuel f1 m D = path_fuel f2 m D.
Proof.
  revert f2 m D. induction f1 as [|f1 IH]; intros f2 m D H1 H2.
  { destruct D; [by destruct f2|simpl in *; lia]. }
  destruct f2 as [|f2]; [destruct D; [done|simpl in *; lia]|]. cbn [path_fuel].
  destruct (Z.leb_spec (zlen D) 1); [done|].
  pose proof (split_point_spec (zlen D) ltac:(lia)). cbv zeta.
  destruct (m <? split_point (zlen D)); f_equal; apply IH;
    rewrite ?length_take, ?length_drop; lia.
Qed.

Lemma path_small m D : zlen D ≤ 1 → path m D = [].
Proof.
  intros. unfold path. destruct (length D) eqn:E; [done|]. cbn [path_fuel]. by zdecide.
Qed.

Lemma path_split m D :
  2 ≤ zlen D →
  path m D =
    let k := split_point (zlen D) in
    let L := take (Z.to_nat k) D in
    let R := drop (Z.to_nat k) D in
    if m <? k then path m L ++ [mth R] else path (m - k) R ++ [mth L].
Proof.
  intros HD. pose proof (split_point_spec (zlen D) HD). cbv zeta. unfold path at 1.
  destruct (length D) as [|f] eqn:E; [lia|]. cbn [path_fuel].
  rewrite <- E in *. zdecide. cbv zeta. unfold path.
  destruct (m <? split_point (zlen D)); f_equal; apply path_fuel_enough;
    rewrite ?length_take, ?length_drop; lia.
Qed.

Lemma subproof_fuel_enough f1 f2 m D b :
  (0 < m ≤ zlen D) → (length D ≤ f1)%nat → (length D ≤ f2)%nat →
  subproof_fuel f1 m D b = subproof_fuel f2 m D b.
Proof.
  revert f2 m D b. induction f1 as [|f1 IH]; intros f2 m D b Hm H1 H2; [lia|].
  destruct f2 as [|f2]; [lia|]. cbn [subproof_fuel].
  destruct (Z.eqb_spec m (zlen D)); [done|].
  pose proof (split_point_spec (zlen D) ltac:(lia)). cbv zeta.
  destruct (Z.leb_spec m (split_point (zlen D))); f_equal; apply IH;
    rewrite ?length_take, ?length_drop; lia.
Qed.

Lemma rfc_subproof_eq D b : 1 ≤ zlen D → rfc_subproof (zlen D) D b = if b then [] else [mth D].
Proof.
  intros. unfold rfc_subproof. destruct (length D) eqn:E; [lia|].
  cbn [subproof_fuel]. rewrite E. by zdecide.
Qed.

Lemma rfc_subproof_split m D b :
  0 < m < zlen D →
  rfc_subproof m D b =
    let k := split_point (zlen D) in
    let L := take (Z.to_nat k) D in
    let R := drop (Z.to_nat k) D in
    if m <=? k then rfc_subproof m L b ++ [mth R]
    else rfc_subproof (m - k) R false ++ [mth L].
Proof.
  intros Hm. pose proof (split_point_spec (zlen D) ltac:(lia)). cbv zeta.
  unfold rfc_subproof at 1. destruct (length D) as [|f] eqn:E; [lia|]. cbn [subproof_fuel].
  rewrite <- E in *. zdecide. cbv zeta. unfold rfc_subproof.
  destruct (Z.leb_spec m (split_point (zlen D))); f_equal; apply subproof_fuel_enough;
    rewrite ?length_take, ?length_drop; lia.
Qed.

Lemma subtree_hash_length D n i : length (subtree_hash D n i) = output_size.
Proof. apply mth_length. Qed.

Lemma children_split {n p l r} (Hc : children n p l r) :
  split_point (hi n p - lo p) = lo r - lo p.
Proof.
  pose proof (children_size Hc). rewrite (ch_mid _ _ _ _ Hc).
  pose proof (ch_level_r _ _ _ _ Hc).
  rewrite (split_point_unique _ (level p - 1)); lia.
Qed.

(** The two halves of the leaves under a node. *)
Lemma children_slices {n p l r} (Hc : children n p l r) D :
  n ≤ zlen D →
  let S := zslice (lo p) (hi n p) D in
  zlen S = hi n p - lo p ∧
  take (Z.to_nat (split_point (zlen S))) S = zslice (lo l) (hi n l) D ∧
  drop (Z.to_nat (split_point (zlen S))) S = zslice (lo r) (hi n r) D.
Proof.
  intros Hn S. destruct (valid_lo_hi n p (ch_p _ _ _ _ Hc)) as [? ?].
  pose proof (children_lt Hc).
  assert (zlen S = hi n p - lo p) as HS by (apply zslice_length; lia).
  rewrite HS, (children_split Hc), (ch_lo _ _ _ _ Hc), (children_hi_l Hc), (ch_hi_r _ _ _ _ Hc).
  split; [done|]. split; [apply zslice_take|apply zslice_drop]; lia.
Qed.

Lemma subtree_hash_children {n p l r} (Hc : children n p l r) D :
  n ≤ zlen D →
  subtree_hash D n p = parent_hash (subtree_hash D n l) (subtree_hash D n r).
Proof.
  intros Hn. destruct (children_slices Hc D Hn) as (HS & HL & HR).
  pose proof (children_lt Hc). unfold subtree_hash.
  rewrite mth_split by lia. by rewrite HL, HR.
Qed.

Lemma subtree_hash_leaf D n m x :
  0 ≤ m < n → n ≤ zlen D → D !! Z.to_nat m = Some x → subtree_hash D n (2 * m) = leaf_hash x.
Proof.
  intros Hm Hn Hx. unfold subtree_hash. rewrite leaf_lo, leaf_hi by lia.
  by rewrite (zslice_one _ _ x) by (done || lia).
Qed.

Lemma subtree_hash_root D n :
  size_ok n → subtree_hash D n (root_idx n) = mth (zslice 0 n D).
Proof. intros Hn. unfold subtree_hash. by destruct (root_range n Hn) as [-> ->]. Qed.

End Spec.
