(* ===== verification/Inclusion.v ===== *)
(** * Inclusion proofs

    [InclusionProof], [RootHash] and [indices_for_inclusion_proof] of
    src/src/merkle_tree/ct_merkle_vendored.rs.  The indices a proof is built
    from stand for PATH(m, D[n]) of RFC 6962, a proof built from them
    verifies, and a proof that verifies can only be for the leaf of the
    tree, as long as the digest has no collision among the strings hashed. *)

From S2P Require Import Prelude TreeMath Rfc6962.

(** ** Definitions *)

Record RootHash := RootHash_new { root_hash : bytes; num_leaves : Z }.

Record InclusionProof := { proof : bytes }.

(** [InclusionProof::from_digests]: the concatenation of the hashes. *)
Definition from_digests (digests : list bytes) : InclusionProof :=
  {| proof := concat digests |}.

Fixpoint inclusion_loop {E} (fuel : nat) (n root parent_idx : Z) (out : list Z) :
    res E (list Z) :=
  if parent_idx =? root then Ok out
  else
    match fuel with
    | O => Fuel
    | S f =>
        sibling_idx ← sibling parent_idx n;
        parent_idx' ← parent parent_idx n;
        inclusion_loop f n root parent_idx' (out ++ [sibling_idx])
    end.

(** Each iteration moves to a higher level: 64 iterations are enough. *)
Definition indices_for_inclusion_proof {E} (n idx : Z) : res E (list Z) :=
  if n =? 0 then Panic
  else if n <=? idx then Panic
  else if U64_MAX / 2 <? idx then Panic
  else
    let root := root_idx n in
    if n =? 1 then Ok []
    else
      leaf ← LeafIdx_new idx;
      let start_idx := InternalIdx_from leaf in
      sibling_idx ← sibling start_idx n;
      parent_idx ← parent start_idx n;
      inclusion_loop 64 n root parent_idx [sibling_idx].

Section Verify.
  Context `{Digest} `{HashableLeaf T}.
  Implicit Types D : list T.

(** The loop of [InclusionProof::verify] over the sibling hashes. *)
Fixpoint verify_loop (n cur_idx : Z) (cur_hash : bytes) (siblings : list bytes) :
    res string bytes :=
  match siblings with
  | [] => Ok cur_hash
  | s :: rest =>
      assert_that (bool_decide (length s = output_size));;
      is_l ← is_left cur_idx n;
      let cur_hash' := if is_l : bool then parent_hash cur_hash s else parent_hash s cur_hash in
      cur_idx' ← parent cur_idx n;
      verify_loop n cur_idx' cur_hash' rest
  end.

Definition verify (self : InclusionProof) (leaf_val : T) (leaf_idx : Z) (root : RootHash) :
    res string unit :=
  let n := num_leaves root in
  if n <=? leaf_idx then Err "leaf index out of bounds"
  else if n =? 0 then Err "cannot verify inclusion in empty tree"
  else
    idxs ← indices_for_inclusion_proof n leaf_idx;
    if negb (bool_decide (length (proof self) = (length idxs * output_size)%nat))
    then Err "invalid proof length"
    else
      let leaf_hash_value := leaf_hash leaf_val in
      if bool_decide (proof self = []) then
        if bool_decide (leaf_hash_value = root_hash root) then Ok tt
        else Err "root hash mismatch for single leaf"
      else
        leaf ← LeafIdx_new leaf_idx;
        cur_hash ← verify_loop n (InternalIdx_from leaf) leaf_hash_value
                     (chunks output_size (proof self));
        if bool_decide (cur_hash = root_hash root) then Ok tt
        else Err "computed root does not match".

(** The strings hashed by the loop of [verify], and by the computation of
    MTH(D): what collision freedom is asked of. *)
Fixpoint verify_inputs (n cur_idx : Z) (cur_hash : bytes) (siblings : list bytes) : list bytes :=
  match siblings with
  | [] => []
  | s :: rest =>
      match is_left (E := string) cur_idx n, parent (E := string) cur_idx n with
      | Ok is_l, Ok p =>
          let x := PARENT_HASH_PREFIX ++ if is_l : bool then cur_hash ++ s else s ++ cur_hash in
          x :: verify_inputs n p (digest x) rest
      | _, _ => []
      end
  end.

Fixpoint mth_inputs_fuel (fuel : nat) (D : list T) : list bytes :=
  match D with
  | [] => [[]]
  | [d] => [LEAF_HASH_PREFIX ++ as_ref d]
  | _ =>
      match fuel with
      | O => []
      | S f =>
          let k := Z.to_nat (split_point (zlen D)) in
          (PARENT_HASH_PREFIX ++ mth (take k D) ++ mth (drop k D))
            :: mth_inputs_fuel f (take k D) ++ mth_inputs_fuel f (drop k D)
      end
  end.
Definition mth_inputs (D : list T) : list bytes := mth_inputs_fuel (length D) D.

Definition collision_free (l : list bytes) : Prop :=
  Forall (λ x, Forall (λ y, digest x = digest y → x = y) l) l.

End Verify.

(** ** Climbing paths *)

(** [up n i t out]: climbing from [i] to its ancestor [t] in the tree of [n]
    leaves passes the siblings [out]. *)
Inductive up (n : Z) : Z → Z → list Z → Prop :=
  | up_refl i : valid n i → up n i i []
  | up_left p l r t out : children n p l r → up n p t out → up n l t (r :: out)
  | up_right p l r t out : children n p l r → up n p t out → up n r t (l :: out).

Lemma up_snoc_left n i l p r out :
  up n i l out → children n p l r → up n i p (out ++ [r]).
Proof.
  intros Hup Hc. induction Hup as [|q l' r' t out Hq Hup IH|q l' r' t out Hq Hup IH]; cbn.
  - eapply up_left; [done|]. apply up_refl, Hc.
  - eapply up_left; eauto.
  - eapply up_right; eauto.
Qed.

Lemma up_snoc_right n i l p r out :
  up n i r out → children n p l r → up n i p (out ++ [l]).
Proof.
  intros Hup Hc. induction Hup as [|q l' r' t out Hq Hup IH|q l' r' t out Hq Hup IH]; cbn.
  - eapply up_right; [done|]. apply up_refl, Hc.
  - eapply up_left; eauto.
  - eapply up_right; eauto.
Qed.

Lemma up_valid n i t out : up n i t out → valid n i ∧ valid n t ∧ Forall (valid n) out.
Proof.
  induction 1 as [|p l r t out Hc ? (? & ? & ?)|p l r t out Hc ? (? & ? & ?)];
    split_and!; eauto with ct; constructor; eauto with ct.
Qed.

Lemma up_length n i t out : up n i t out → zlen out ≤ level t - level i.
Proof.
  induction 1 as [|p l r t out Hc ? IH|p l r t out Hc ? IH]; [simpl; lia|..]; cbn [length];
    pose proof (ch_level_l _ _ _ _ Hc); pose proof (ch_level_r _ _ _ _ Hc); lia.
Qed.

Lemma parent_not_root {E} n i p : parent (E := E) i n = Ok p → (i =? root_idx n) = false.
Proof. unfold parent. by destruct (i =? root_idx n). Qed.

Lemma up_loop {E} n i out fuel acc :
  up n i (root_idx n) out → (length out ≤ fuel)%nat →
  inclusion_loop (E := E) fuel n (root_idx n) i acc = Ok (acc ++ out).
Proof.
  intros Hup. remember (root_idx n) as t eqn:Ht. revert fuel acc.
  induction Hup as [i|p l r t out Hc Hup IH|p l r t out Hc Hup IH]; intros fuel acc Hf.
  - destruct fuel; cbn [inclusion_loop]; rewrite Z.eqb_refl; by rewrite app_nil_r.
  - destruct fuel as [|fuel]; [simpl in Hf; lia|]. cbn [inclusion_loop].
    rewrite Ht, (parent_not_root (E := E) n l p) by apply Hc.
    rewrite (sibling_left Hc), (ch_parent_l _ _ _ _ Hc). cbn [mbind res_bind].
    rewrite <- Ht, IH; [by rewrite <- app_assoc|done|simpl in Hf; lia].
  - destruct fuel as [|fuel]; [simpl in Hf; lia|]. cbn [inclusion_loop].
    rewrite Ht, (parent_not_root (E := E) n r p) by apply Hc.
    rewrite (sibling_right Hc), (ch_parent_r _ _ _ _ Hc). cbn [mbind res_bind].
    rewrite <- Ht, IH; [by rewrite <- app_assoc|done|simpl in Hf; lia].
Qed.

Lemma root_level_63 n : size_ok n → level (root_idx n) ≤ 63.
Proof.
  intros Hn. rewrite root_idx_node, level_node by done. pose proof (root_level_lt n Hn). lia.
Qed.

(** The code's result, for any climbing path from the leaf to the root. *)
Lemma indices_up {E} n m out :
  size_ok n → 0 ≤ m < n → up n (2 * m) (root_idx n) out →
  indices_for_inclusion_proof (E := E) n m = Ok out.
Proof.
  intros Hn Hm Hup. pose proof Hn as Hn'. unfold size_ok in Hn'.
  pose proof (up_length _ _ _ _ Hup) as Hlen. rewrite leaf_level in Hlen by lia.
  pose proof (root_level_63 n Hn).
  unfold indices_for_inclusion_proof. change (U64_MAX / 2) with (2 ^ 63 - 1). zdecide.
  cbv zeta. destruct (Z.eqb_spec n 1) as [->|Hn1].
  { assert (m = 0) as -> by lia. rewrite root_idx_1 in *. change (level 0) with 0 in *.
    destruct out; [done|simpl in *; lia]. }
  rewrite LeafIdx_new_ok by lia. cbn [mbind res_bind]. rewrite InternalIdx_from_eq by lia.
  inversion Hup as [i Hv Hi|p l r t out' Hc Hup'|p l r t out' Hc Hup']; subst; cbn [length] in *.
  - by destruct (root_not_leaf n m Hn ltac:(lia) ltac:(lia)).
  - rewrite (sibling_left Hc), (ch_parent_l _ _ _ _ Hc). cbn [mbind res_bind].
    by rewrite (up_loop n p out') by (done || lia).
  - rewrite (sibling_right Hc), (ch_parent_r _ _ _ _ Hc). cbn [mbind res_bind].
    by rewrite (up_loop n p out') by (done || lia).
Qed.

(** ** Paths and hashes *)

Section Proofs.
  Context `{Digest} `{HashableLeaf T}.
  Implicit Types D : list T.

Lemma leaf_up D n t m :
  size_ok n → n ≤ zlen D → valid n t → lo t ≤ m < hi n t →
  ∃ out, up n (2 * m) t out ∧
    map (subtree_hash D n) out = path (m - lo t) (zslice (lo t) (hi n t) D).
Proof.
  intros Hn HD Hv. revert m. pattern t. apply (valid_ind n); [done| | |done]; clear t Hv.
  - intros i Hv Hl Hi Hhi Hlo m Hm. assert (m = lo i) as -> by lia. exists [].
    split; [rewrite <- Hi; by apply up_refl|].
    rewrite path_small; [done|]. rewrite zslice_length; lia.
  - intros p l r Hc IHl IHr m Hm. pose proof (children_lt Hc) as Hlt.
    destruct (children_slices Hc D HD) as (HS & HL & HR).
    rewrite path_split by lia. cbv zeta. rewrite HL, HR, HS, (children_split Hc).
    rewrite (ch_lo _ _ _ _ Hc), (children_hi_l Hc) in IHl.
    rewrite (ch_hi_r _ _ _ _ Hc) in IHr.
    destruct (Z.ltb_spec (m - lo p) (lo r - lo p)).
    + destruct (IHl m) as (out & Hup & Hmap); [lia|]. exists (out ++ [r]).
      split; [by eapply up_snoc_left|]. rewrite map_app, Hmap.
      by rewrite (ch_lo _ _ _ _ Hc), (children_hi_l Hc).
    + destruct (IHr m) as (out & Hup & Hmap); [lia|]. exists (out ++ [l]).
      split; [by eapply up_snoc_right|]. rewrite map_app, Hmap.
      replace (m - lo p - (lo r - lo p)) with (m - lo r) by lia.
      by rewrite (ch_hi_r _ _ _ _ Hc).
Qed.

Lemma inclusion_up D n m :
  size_ok n → n ≤ zlen D → 0 ≤ m < n →
  ∃ out, up n (2 * m) (root_idx n) out ∧
    indices_for_inclusion_proof (E := string) n m = Ok out ∧
    map (subtree_hash D n) out = path m (zslice 0 n D).
Proof.
  intros Hn HD Hm. destruct (root_range n Hn) as [Hlo Hhi].
  destruct (leaf_up D n (root_idx n) m) as (out & Hup & Hmap); auto with ct; [lia|].
  exists out. split; [done|]. split; [by apply indices_up|].
  by rewrite Hmap, Hlo, Hhi, Z.sub_0_r.
Qed.

Lemma verify_loop_up D n i t out :
  n ≤ zlen D → up n i t out →
  verify_loop n i (subtree_hash D n i) (map (subtree_hash D n) out) = Ok (subtree_hash D n t).
Proof.
  intros HD. induction 1 as [i|p l r t out Hc Hup IH|p l r t out Hc Hup IH]; [done|..].
  - cbn [map verify_loop]. rewrite bool_decide_eq_true_2 by apply subtree_hash_length.
    rewrite (is_left_left Hc), (ch_parent_l _ _ _ _ Hc). cbn [mbind res_bind assert_that].
    by rewrite <- (subtree_hash_children Hc) by done.
  - cbn [map verify_loop]. rewrite bool_decide_eq_true_2 by apply subtree_hash_length.
    rewrite (is_left_right Hc), (ch_parent_r _ _ _ _ Hc). cbn [mbind res_bind assert_that].
    by rewrite <- (subtree_hash_children Hc) by done.
Qed.

Lemma Forall_subtree_length D n out :
  Forall (λ l, length l = output_size) (map (subtree_hash D n) out).
Proof. apply Forall_fmap, Forall_true. intros. apply subtree_hash_length. Qed.

Lemma proof_nil (ls : list bytes) :
  Forall (λ l, length l = output_size) ls → concat ls = [] → ls = [].
Proof.
  intros Hl Hc. apply (f_equal length) in Hc. rewrite (length_concat_const output_size) in Hc by done.
  pose proof output_size_pos. destruct ls; [done|simpl in Hc; lia].
Qed.

(** ** Strings hashed *)

Lemma mth_inputs_fuel_enough f1 f2 D :
  (length D ≤ f1)%nat → (length D ≤ f2)%nat → mth_inputs_fuel f1 D = mth_inputs_fuel f2 D.
Proof.
  revert f2 D. induction f1 as [|f1 IH]; intros f2 D H1 H2.
  { destruct D; [by destruct f2|simpl in *; lia]. }
  destruct D as [|d [|d' D]]; [by destruct f2..|].
  destruct f2 as [|f2]; [simpl in *; lia|]. cbn [mth_inputs_fuel].
  pose proof (split_point_spec (zlen (d :: d' :: D)) ltac:(simpl; lia)).
  set (k := Z.to_nat _). set (D' := d :: d' :: D) in *. f_equal.
  f_equal; apply IH; rewrite ?length_take, ?length_drop; lia.
Qed.

Lemma mth_inputs_split D :
  2 ≤ zlen D →
  let k := Z.to_nat (split_point (zlen D)) in
  mth_inputs D = (PARENT_HASH_PREFIX ++ mth (take k D) ++ mth (drop k D))
                 :: mth_inputs (take k D) ++ mth_inputs (drop k D).
Proof.
  intros HD k. pose proof (split_point_spec (zlen D) HD).
  unfold mth_inputs at 1. rewrite (mth_inputs_fuel_enough _ (S (length D))) by lia.
  transitivity ((PARENT_HASH_PREFIX ++ mth (take k D) ++ mth (drop k D))
    :: mth_inputs_fuel (length D) (take k D) ++ mth_inputs_fuel (length D) (drop k D)).
  { by destruct D as [|d [|d' D]]; [simpl in HD; lia..|]. }
  f_equal. unfold mth_inputs.
  f_equal; apply mth_inputs_fuel_enough; rewrite ?length_take, ?length_drop; lia.
Qed.

Lemma children_inputs {n p l r} (Hc : children n p l r) D :
  n ≤ zlen D →
  mth_inputs (zslice (lo p) (hi n p) D) =
    (PARENT_HASH_PREFIX ++ subtree_hash D n l ++ subtree_hash D n r)
    :: mth_inputs (zslice (lo l) (hi n l) D) ++ mth_inputs (zslice (lo r) (hi n r) D).
Proof.
  intros Hn. destruct (children_slices Hc D Hn) as (HS & HL & HR).
  pose proof (children_lt Hc). rewrite mth_inputs_split by lia. by rewrite HL, HR.
Qed.

Lemma up_inputs D n i t out :
  n ≤ zlen D → up n i t out →
  mth_inputs (zslice (lo i) (hi n i) D) ⊆ mth_inputs (zslice (lo t) (hi n t) D).
Proof.
  intros HD. induction 1 as [i|p l r t out Hc Hup IH|p l r t out Hc Hup IH]; [done|..];
    rewrite (children_inputs Hc) in IH by done; set_solver.
Qed.

Lemma collision_free_eq l x y :
  collision_free l → x ∈ l → y ∈ l → digest x = digest y → x = y.
Proof.
  unfold collision_free. rewrite Forall_forall. intros Hl Hx Hy.
  pose proof (Hl x Hx) as Hxl. rewrite Forall_forall in Hxl. by apply Hxl.
Qed.

(** Going back down a climbing path: hashes that lead to the hash of the top
    are the hashes of the tree. *)
Lemma verify_loop_down D n i t out h sibs S :
  n ≤ zlen D → up n i t out → collision_free S →
  mth_inputs (zslice (lo t) (hi n t) D) ⊆ S → verify_inputs n i h sibs ⊆ S →
  length h = output_size → length sibs = length out →
  verify_loop n i h sibs = Ok (subtree_hash D n t) →
  h = subtree_hash D n i ∧ sibs = map (subtree_hash D n) out.
Proof.
  intros HD Hup HS. revert h sibs.
  induction Hup as [i|p l r t out Hc Hup IH|p l r t out Hc Hup IH];
    intros h sibs Ht Hin Hh Hlen Hv.
  { destruct sibs; [|done]. by injection Hv. }
  all: destruct sibs as [|s sibs]; [done|]; cbn [verify_loop] in Hv;
    destruct (decide (length s = output_size)) as [Hs|Hs];
    [rewrite bool_decide_eq_true_2 in Hv by done|by rewrite bool_decide_eq_false_2 in Hv];
    pose proof (up_inputs D n p t out HD Hup) as Hinp;
    rewrite (children_inputs Hc) in Hinp by done;
    cbn [verify_inputs length] in *.
  - rewrite (is_left_left Hc), (ch_parent_l _ _ _ _ Hc) in Hin, Hv.
    cbn [mbind res_bind assert_that] in Hv.
    destruct (IH (parent_hash h s) sibs) as [Hp Hs'];
      [done|set_solver|apply digest_length|lia|done|].
    rewrite (subtree_hash_children Hc) in Hp by done.
    apply (collision_free_eq S) in Hp; [|done|set_solver..].
    apply app_inv_head, app_inj_1 in Hp as [-> ->]; [by rewrite Hs'|].
    by rewrite Hh, subtree_hash_length.
  - rewrite (is_left_right Hc), (ch_parent_r _ _ _ _ Hc) in Hin, Hv.
    cbn [mbind res_bind assert_that] in Hv.
    destruct (IH (parent_hash s h) sibs) as [Hp Hs'];
      [done|set_solver|apply digest_length|lia|done|].
    rewrite (subtree_hash_children Hc) in Hp by done.
    apply (collision_free_eq S) in Hp; [|done|set_solver..].
    apply app_inv_head, app_inj_1 in Hp as [-> ->]; [by rewrite Hs'|].
    by rewrite Hs, subtree_hash_length.
Qed.

(** A proof made of PATH(m, D[n]) verifies. *)
Lemma verify_path D n m x :
  size_ok n → n ≤ zlen D → 0 ≤ m < n → D !! Z.to_nat m = Some x →
  verify (from_digests (path m (zslice 0 n D))) x m (RootHash_new (mth (zslice 0 n D)) n) = Ok tt.
Proof.
  intros Hn HD Hm Hx. destruct (inclusion_up D n m) as (out & Hup & Hok & Hmap); [done..|].
  pose proof (Forall_subtree_length D n out) as Hlen.
  pose proof Hn as Hn'. unfold size_ok in Hn'.
  unfold verify, from_digests. cbn [num_leaves proof root_hash]. zdecide.
  rewrite Hok. cbn [mbind res_bind]. rewrite <- Hmap.
  rewrite (length_concat_const output_size), length_map by done.
  rewrite bool_decide_eq_true_2 by done. cbn [negb].
  rewrite chunks_concat by (done || apply output_size_pos).
  rewrite <- (subtree_hash_leaf D n m x), <- (subtree_hash_root D n) by (done || lia).
  rewrite LeafIdx_new_ok by lia. cbn [mbind res_bind]. rewrite InternalIdx_from_eq by lia.
  rewrite (verify_loop_up D n _ (root_idx n)) by done. cbn [mbind res_bind].
  case_bool_decide as Hnil; [|by rewrite bool_decide_eq_true_2].
  apply proof_nil in Hnil; [|done]. destruct out; [|done].
  inversion Hup as [i Hi Heq| |]. by rewrite bool_decide_eq_true_2.
Qed.

(** ** Properties *)

(** C1: for a tree of [n] leaves (1 to 2^63) and a leaf [m] of it,
    [indices_for_inclusion_proof] terminates without panicking and the hashes
    of the nodes it names are, in order, PATH(m, D[n]) of RFC 6962. *)
Theorem indices_for_inclusion_proof_path D n m :
  size_ok n → n ≤ zlen D → 0 ≤ m < n →
  ∃ out, indices_for_inclusion_proof (E := string) n m = Ok out ∧ Forall (valid n) out ∧
    map (subtree_hash D n) out = path m (zslice 0 n D).
Proof.
  intros Hn HD Hm. destruct (inclusion_up D n m) as (out & Hup & Hok & Hmap); [done..|].
  exists out. split_and!; [done|by eapply up_valid|done].
Qed.

(** C2: completeness of the verifier: the proof made of the hashes
    PATH(m, D[n]) verifies for the leaf [m] against MTH(D[n]). *)
Theorem verify_complete D n m x :
  size_ok n → n ≤ zlen D → 0 ≤ m < n → D !! Z.to_nat m = Some x →
  verify (from_digests (path m (zslice 0 n D))) x m (RootHash_new (mth (zslice 0 n D)) n) = Ok tt.
Proof. apply verify_path. Qed.

(** C3: soundness of the verifier: a proof accepted for a leaf value at
    position [m] against the root of a tree is for the leaf the tree has
    there, if the digest has no collision among the strings hashed for the
    tree and by the verifier. *)
Theorem verify_sound D n m x leaf pf :
  size_ok n → n ≤ zlen D → 0 ≤ m < n → D !! Z.to_nat m = Some x →
  collision_free ((LEAF_HASH_PREFIX ++ as_ref leaf) :: mth_inputs (zslice 0 n D) ++
    verify_inputs n (2 * m) (leaf_hash leaf) (chunks output_size (proof pf))) →
  verify pf leaf m (RootHash_new (mth (zslice 0 n D)) n) = Ok tt →
  as_ref leaf = as_ref x.
Proof.
  intros Hn HD Hm Hx HS Hv. destruct (inclusion_up D n m) as (out & Hup & Hok & Hmap); [done..|].
  pose proof Hn as Hn'. unfold size_ok in Hn'. destruct (root_range n Hn) as [Hlo Hhi].
  pose proof (up_inputs D n _ _ _ HD Hup) as Hin.
  assert (leaf_hash leaf = subtree_hash D n (2 * m)) as Hleaf.
  { revert Hv. unfold verify. cbn [num_leaves root_hash]. zdecide. rewrite Hok.
    cbn [mbind res_bind]. case_bool_decide as Hlen; [cbn [negb]|done].
    case_bool_decide as Hnil.
    - rewrite Hnil in Hlen. pose proof output_size_pos. destruct out; [|simpl in Hlen; lia].
      case_bool_decide as Heq; [|done]. intros _. inversion Hup as [i Hi Ht| |].
      rewrite Heq, <- (subtree_hash_root D n) by done. congruence.
    - rewrite LeafIdx_new_ok by lia. cbn [mbind res_bind]. rewrite InternalIdx_from_eq by lia.
      destruct (verify_loop _ _ _ _) as [h| | |] eqn:Hloop; [|done..]. cbn [mbind res_bind].
      case_bool_decide as Heq; [|done]. intros _. subst h.
      rewrite <- (subtree_hash_root D n) in Hloop by done.
      eapply (verify_loop_down D n); [done|done|exact HS| | |apply digest_length| |exact Hloop].
      + rewrite Hlo, Hhi. set_solver.
      + set_solver.
      + apply length_chunks; [apply output_size_pos|done]. }
  rewrite (subtree_hash_leaf D n m x) in Hleaf by (done || lia).
  rewrite leaf_lo, leaf_hi, (zslice_one _ _ x), Hlo, Hhi in Hin by (done || lia).
  apply (collision_free_eq _ _ _ HS) in Hleaf; [by apply app_inv_head in Hleaf|set_solver|].
  apply elem_of_cons. right. apply elem_of_app. left. apply Hin.
  change (mth_inputs [x]) with [LEAF_HASH_PREFIX ++ as_ref x]. set_solver.
Qed.

End Proofs.
