(* ===== verification/Consistency.v ===== *)
(** * Consistency proofs

    src/src/merkle_tree/consistency.rs ([indices_for_consistency_proof],
    [subproof_with_offset], [compute_subtree_root],
    [largest_power_of_two_less_than]) and [ConsistencyProof] with
    [first_node_with_diverging_parents] of
    src/src/merkle_tree/ct_merkle_vendored.rs.  The indices stand for
    PROOF(m, D[n]) of RFC 6962 and the proof built from them verifies. *)

From S2P Require Import Prelude TreeMath Rfc6962 Inclusion.

(** ** Definitions *)

Fixpoint power_loop {E} (fuel : nat) (power n : Z) : res E Z :=
  if power *! 2 <? n then
    match fuel with
    | O => Fuel
    | S f => power_loop f (power *! 2) n
    end
  else Ok power.

Definition largest_power_of_two_less_than {E} (n : Z) : res E Z :=
  if n <=? 1 then Panic else power_loop 64 1 n.

(** Both halves are computed; the release build does not compare them. *)
Fixpoint compute_subtree_root {E} (fuel : nat) (start end_ : Z) : res E Z :=
  let size := end_ -! start in
  if size =? 1 then leaf ← LeafIdx_new start; mret (InternalIdx_from leaf)
  else
    match fuel with
    | O => Fuel
    | S f =>
        k ← largest_power_of_two_less_than size;
        left_root ← compute_subtree_root f start (start +! k);
        right_root ← compute_subtree_root f (start +! k) end_;
        parent left_root end_
    end.

Fixpoint subproof_with_offset {E} (fuel : nat) (m n : Z) (b : bool) (offset : Z) :
    res E (list Z) :=
  if m =? n then
    if b then Ok []
    else i ← compute_subtree_root 64 offset (offset +! m); mret [i]
  else
    match fuel with
    | O => Fuel
    | S f =>
        k ← largest_power_of_two_less_than n;
        if m <=? k then
          result ← subproof_with_offset f m k b offset;
          subtree_root ← compute_subtree_root 64 (offset +! k) (offset +! n);
          mret (result ++ [subtree_root])
        else
          result ← subproof_with_offset f (m -! k) (n -! k) false (offset +! k);
          subtree_root ← compute_subtree_root 64 offset (offset +! k);
          mret (result ++ [subtree_root])
    end.

Definition subproof {E} (m n : Z) (b : bool) : res E (list Z) :=
  subproof_with_offset 64 m n b 0.

Definition indices_for_consistency_proof {E} (num_oldtree_leaves num_additions : Z) :
    res E (list Z) :=
  if num_oldtree_leaves =? 0 then Panic
  else
    (* [checked_add(..).is_some_and(|s| s > u64::MAX / 2 + 1)] *)
    let s := num_oldtree_leaves + num_additions in
    if (s <? 2 ^ 64) && (U64_MAX / 2 + 1 <? s) then Panic
    else
      let num_newtree_leaves := num_oldtree_leaves +! num_additions in
      if num_oldtree_leaves =? num_newtree_leaves then Ok []
      else subproof num_oldtree_leaves num_newtree_leaves true.

Fixpoint diverging_loop {E} (fuel : nat) (n1 n2 idx : Z) : res E Z :=
  p1 ← parent idx n1;
  p2 ← parent idx n2;
  if p1 =? p2 then
    match fuel with
    | O => Fuel
    | S f => diverging_loop f n1 n2 p1
    end
  else Ok idx.

Definition first_node_with_diverging_parents {E} (n1 n2 : Z) : res E Z :=
  assert_that (n2 <? n1);;
  assert_that (negb (n2 =? 0));;
  assert_that (n1 <=? U64_MAX / 2 + 1);;
  leaf ← LeafIdx_new (n2 -! 1);
  diverging_loop 64 n1 n2 (InternalIdx_from leaf).

(** [u64::is_power_of_two]. *)
Definition is_power_of_two (x : Z) : bool := (0 <? x) && (x =? 2 ^ Z.log2 x).

Record ConsistencyProof := { cproof : bytes }.

Definition consistency_from_digests (digests : list bytes) : ConsistencyProof :=
  {| cproof := concat digests |}.

Section Verify.
  Context `{Digest}.

(** The running indices and hashes of [ConsistencyProof::verify]. *)
Record running := {
  oldtree_idx : Z;
  oldtree_hash : bytes;
  newtree_idx : Z;
  newtree_hash : bytes;
}.

(** One iteration of the loop over the remaining digests. *)
Definition cverify_step {E} (n m : Z) (st : running) (sibling_hash : bytes) : res E running :=
  let oldtree_root_idx := root_idx m in
  sibling_idx ← sibling (newtree_idx st) n;
  new_left ← is_left (newtree_idx st) n;
  let new_hash := if new_left : bool then parent_hash (newtree_hash st) sibling_hash
                  else parent_hash sibling_hash (newtree_hash st) in
  new_idx ← parent (newtree_idx st) n;
  let skip := Ok {| oldtree_idx := oldtree_idx st; oldtree_hash := oldtree_hash st;
                    newtree_idx := new_idx; newtree_hash := new_hash |} in
  if oldtree_idx st =? oldtree_root_idx then skip
  else
    old_sibling ← sibling (oldtree_idx st) m;
    if sibling_idx =? old_sibling then
      old_left ← is_left (oldtree_idx st) m;
      old_idx ← parent (oldtree_idx st) m;
      mret {| oldtree_idx := old_idx;
              oldtree_hash := if old_left : bool then parent_hash (oldtree_hash st) sibling_hash
                              else parent_hash sibling_hash (oldtree_hash st);
              newtree_idx := new_idx; newtree_hash := new_hash |}
    else skip.

Fixpoint cverify_loop {E} (n m : Z) (st : running) (digests : list bytes) : res E running :=
  match digests with
  | [] => Ok st
  | d :: rest => st' ← cverify_step n m st d; cverify_loop n m st' rest
  end.

(** The index and hash the climb starts from, and the remaining digests. *)
Definition cverify_start (n m : Z) (old_root : RootHash) (digests : list bytes) :
    res string (Z * bytes * list bytes) :=
  if is_power_of_two m || (m =? n) then Ok (root_idx m, root_hash old_root, digests)
  else
    match digests with
    | [] => Panic
    | first_hash :: rest =>
        starting_idx ← first_node_with_diverging_parents n m;
        mret (starting_idx, first_hash, rest)
    end.

Definition cverify (self : ConsistencyProof) (old_root new_root : RootHash) : res string unit :=
  let n := num_leaves new_root in
  let m := num_leaves old_root in
  if m =? 0 then Err "cannot verify consistency from empty tree"
  else if n <? m then Err "old tree size cannot be larger than new tree size"
  else if U64_MAX / 2 + 1 <? n then Err "new tree too big"
  else
    idxs ← indices_for_consistency_proof m (n -! m);
    if negb (bool_decide ((output_size * length idxs)%nat = length (cproof self)))
    then Err "malformed proof"
    else
      '(idx, h, digests) ← cverify_start n m old_root (chunks output_size (cproof self));
      st ← cverify_loop n m {| oldtree_idx := idx; oldtree_hash := h;
                               newtree_idx := idx; newtree_hash := h |} digests;
      if bool_decide (oldtree_hash st = root_hash old_root)
         && bool_decide (newtree_hash st = root_hash new_root)
      then Ok tt else Err "verification failure".

End Verify.

(** ** Splitting a range *)

Lemma power_loop_pow2 {E} f n k c :
  (k ≤ c)%nat → (c - k ≤ f)%nat → pow2 c < n ≤ 2 * pow2 c → n ≤ 2 ^ 63 →
  power_loop (E := E) f (pow2 k) n = Ok (pow2 c).
Proof.
  revert k. induction f as [|f IH]; intros k Hk Hf Hc Hn.
  - assert (k = c) as -> by lia. cbn [power_loop]. pose proof (pow2_pos c). unwrap. by zdecide.
  - cbn [power_loop]. pose proof (pow2_mono k c Hk). pose proof (pow2_pos k). unwrap.
    destruct (Z.ltb_spec (pow2 k * 2) n).
    + replace (pow2 k * 2) with (pow2 (S k)) by (rewrite pow2_S; lia). apply IH; try done; try lia.
      destruct (decide (k = c)) as [->|]; lia.
    + f_equal. destruct (decide (k = c)) as [->|]; [done|].
      pose proof (pow2_mono (S k) c ltac:(lia)). rewrite pow2_S in *. lia.
Qed.

Lemma split_point_pow2 n : 2 ≤ n → ∃ c, split_point n = pow2 c ∧ pow2 c < n ≤ 2 * pow2 c.
Proof.
  intros Hn. exists (Z.to_nat (Z.log2 (n - 1))).
  assert (split_point n = pow2 (Z.to_nat (Z.log2 (n - 1)))) as Heq.
  { unfold split_point. rewrite pow2_level, Z2Nat.id; [done|apply Z.log2_nonneg]. }
  rewrite <- Heq. pose proof (split_point_spec n Hn). lia.
Qed.

Lemma largest_power_spec {E} n :
  2 ≤ n ≤ 2 ^ 63 → largest_power_of_two_less_than (E := E) n = Ok (split_point n).
Proof.
  intros Hn. unfold largest_power_of_two_less_than. zdecide.
  destruct (split_point_pow2 n) as (c & -> & Hc); [lia|].
  change 1 with (pow2 0). apply power_loop_pow2; try lia.
  assert (c < 64)%nat; [|lia]. apply pow2_63. lia.
Qed.

Lemma power_loop_zero {E} f n : 0 < n → power_loop (E := E) f 0 n = Fuel.
Proof. intros Hn. induction f; cbn [power_loop]; change (0 *! 2) with 0; by zdecide. Qed.

Lemma power_loop_diverges {E} f n k :
  2 ^ 63 < n ≤ U64_MAX → (k ≤ 63)%nat → power_loop (E := E) f (pow2 k) n = Fuel.
Proof.
  unfold U64_MAX. intros Hn. revert k. induction f as [|f IH]; intros k Hk; cbn [power_loop].
  - destruct (decide (k = 63)%nat) as [->|].
    + change (pow2 63 *! 2) with 0. by zdecide.
    + pose proof (pow2_mono k 62 ltac:(lia)). change (pow2 62) with (2 ^ 62) in *.
      pose proof (pow2_pos k). unwrap. by zdecide.
  - destruct (decide (k = 63)%nat) as [->|].
    + change (pow2 63 *! 2) with 0. zdecide. apply power_loop_zero. lia.
    + pose proof (pow2_mono k 62 ltac:(lia)). change (pow2 62) with (2 ^ 62) in *.
      pose proof (pow2_pos k). unwrap. zdecide.
      replace (pow2 k * 2) with (pow2 (S k)) by (rewrite pow2_S; lia). apply IH. lia.
Qed.

(** ** Subtree roots *)

Lemma valid_shrink n p l r : children n p l r → valid (hi n p) p.
Proof.
  intros Hc. pose proof (children_lt Hc) as Hlt. destruct (ch_p _ _ _ _ Hc) as [Hp _].
  destruct (node_surj p Hp) as (k & j & Hj & ->).
  destruct k as [|k].
  { pose proof (ch_level_r _ _ _ _ Hc). rewrite level_node in *; lia. }
  apply valid_node_S; [done|]. pose proof (ch_mid _ _ _ _ Hc) as Hm.
  rewrite lo_node, level_node in * by done.
  replace (Z.of_nat (S k) - 1) with (Z.of_nat k) in Hm by lia.
  rewrite <- pow2_level in Hm. rewrite pow2_S in Hm. lia.
Qed.

Lemma parent_shrink {E} n p l r :
  size_ok n → children n p l r → parent (E := E) l (hi n p) = Ok p.
Proof.
  intros Hn Hc. pose proof (valid_shrink _ _ _ _ Hc) as Hv.
  destruct (ch_p _ _ _ _ Hc) as [Hp _]. destruct (node_surj p Hp) as (k & j & Hj & ->).
  assert (size_ok (hi n (node k j))).
  { destruct (valid_lo_hi _ _ Hv). unfold size_ok, hi in *. lia. }
  destruct k as [|k].
  { pose proof (ch_level_r _ _ _ _ Hc). rewrite level_node in *; lia. }
  pose proof (valid_level _ (S k) j Hn Hj (ch_p _ _ _ _ Hc)) as Hk.
  pose proof (ch_left _ _ _ _ Hc E) as Hl. rewrite left_child_node in Hl by lia.
  injection Hl as <-. by apply parent_of_left.
Qed.

Lemma compute_subtree_root_node {E} n i f :
  size_ok n → valid n i → level i ≤ Z.of_nat f →
  compute_subtree_root (E := E) f (lo i) (hi n i) = Ok i.
Proof.
  intros Hn Hv. revert f. pattern i. apply (valid_ind n); [done| | |done]; clear i Hv.
  - intros i Hv Hl Hi Hhi Hlo f Hf. unfold size_ok in Hn. destruct f; cbn [compute_subtree_root];
      rewrite Hhi; unwrap; zdecide; rewrite LeafIdx_new_ok by lia; cbn [mbind res_bind];
      rewrite InternalIdx_from_eq by lia; by rewrite <- Hi.
  - intros p l r Hc IHl IHr f Hf. pose proof (children_lt Hc) as Hlt.
    pose proof (valid_lo_hi n p (ch_p _ _ _ _ Hc)) as Hp.
    pose proof (ch_level_l _ _ _ _ Hc). pose proof (ch_level_r _ _ _ _ Hc).
    pose proof Hn as Hn'. unfold size_ok in Hn'.
    destruct f as [|f]; [lia|]. cbn [compute_subtree_root].
    rewrite (u64_small (hi n p - lo p)) by lia. zdecide.
    rewrite largest_power_spec, (children_split Hc) by lia. cbn [mbind res_bind].
    replace (lo p + (lo r - lo p)) with (lo r) by lia. unwrap.
    rewrite <- (ch_lo _ _ _ _ Hc), <- (children_hi_l Hc), IHl by lia. cbn [mbind res_bind].
    rewrite (children_hi_l Hc), <- (ch_hi_r _ _ _ _ Hc), IHr by lia. cbn [mbind res_bind].
    rewrite (ch_hi_r _ _ _ _ Hc). by apply (parent_shrink n p l r).
Qed.

(** A node is determined by the leaves under it. *)
Lemma node_unique n i i' :
  size_ok n → valid n i → valid n i' → lo i = lo i' → hi n i = hi n i' → i = i'.
Proof.
  intros Hn Hi Hi' Hlo Hhi.
  pose proof (compute_subtree_root_node (E := unit) n i (Z.to_nat (level i + level i')) Hn Hi) as H1.
  pose proof (compute_subtree_root_node (E := unit) n i' (Z.to_nat (level i + level i')) Hn Hi') as H2.
  destruct (node_surj i) as (k & j & Hj & ->); [apply Hi|].
  destruct (node_surj i') as (k' & j' & Hj' & ->); [apply Hi'|].
  rewrite !level_node in * by done. rewrite Hlo, Hhi, H2 in H1 by lia. injection H1; [done|lia].
Qed.


(** ** The start of the climb *)

Lemma valid_range_level n i : size_ok n → valid n i → level i < 64.
Proof.
  intros Hn Hi. destruct (node_surj i) as (k & j & Hj & ->); [apply Hi|].
  pose proof (valid_level n k j Hn Hj Hi). rewrite level_node; lia.
Qed.

(** [stem n m p0]: [p0] is the largest subtree of the tree of [n] leaves that
    ends at the leaf [m - 1]. *)
Record stem (n m t p0 : Z) : Prop := {
  stem_hi : hi n p0 = m;
  stem_lo : lo t ≤ lo p0;
  stem_max : ∀ i, valid n i → lo t ≤ lo i → hi n i = m → lo p0 ≤ lo i;
}.

Lemma up_range n i t out : up n i t out → lo t ≤ lo i ∧ hi n i ≤ hi n t.
Proof.
  induction 1 as [|p l r t out Hc ? IH|p l r t out Hc ? IH]; [lia|..];
    pose proof (children_lt Hc); pose proof (ch_lo _ _ _ _ Hc); pose proof (children_hi_l Hc);
    pose proof (ch_hi_r _ _ _ _ Hc); lia.
Qed.

Lemma up_perfect n i t out : up n i t out → lo i + 2 ^ level i ≤ lo t + 2 ^ level t.
Proof.
  induction 1 as [|p l r t out Hc ? IH|p l r t out Hc ? IH]; [lia|..]; etrans; [|done| |done];
    pose proof (ch_mid _ _ _ _ Hc); pose proof (ch_lo _ _ _ _ Hc);
    pose proof (ch_level_r _ _ _ _ Hc); pose proof (ch_level_l _ _ _ _ Hc);
    (assert (2 ^ level p = 2 * 2 ^ (level p - 1)) by
      (rewrite <- Z.pow_succ_r by lia; f_equal; lia)).
  - assert (2 ^ level l ≤ 2 ^ level p) by (apply Z.pow_le_mono_r; lia). lia.
  - assert (2 ^ level r ≤ 2 ^ (level p - 1)) by (apply Z.pow_le_mono_r; lia). lia.
Qed.

Lemma stem_here n t : stem n (hi n t) t t.
Proof. split; [done|lia|]. auto. Qed.

Lemma stem_left n m t l r p0 :
  children n t l r → m ≤ lo r → stem n m l p0 → stem n m t p0.
Proof.
  intros Hc Hm [H1 H2 H3]. rewrite (ch_lo _ _ _ _ Hc) in *. by split.
Qed.

Lemma stem_right n m t l r p0 :
  children n t l r → lo r < m < hi n t → stem n m r p0 → stem n m t p0.
Proof.
  intros Hc Hm [H1 H2 H3]. pose proof (children_lt Hc). split; [done|lia|].
  intros i Hi Hlo Hhi. destruct (decide (lo r ≤ lo i)); [by apply H3|].
  destruct (nested_split n t l r i Hc Hi); lia.
Qed.

Lemma subproof_whole {E} f m b offset :
  subproof_with_offset (E := E) f m m b offset =
    if b then Ok [] else i ← compute_subtree_root 64 offset (offset +! m); mret [i].
Proof. destruct f; cbn [subproof_with_offset]; by rewrite Z.eqb_refl. Qed.

Lemma subproof_step {E} f m n b offset k :
  m ≠ n → largest_power_of_two_less_than (E := E) n = Ok k →
  subproof_with_offset (E := E) (S f) m n b offset =
    if m <=? k then
      result ← subproof_with_offset f m k b offset;
      subtree_root ← compute_subtree_root 64 (offset +! k) (offset +! n);
      mret (result ++ [subtree_root])
    else
      result ← subproof_with_offset f (m -! k) (n -! k) false (offset +! k);
      subtree_root ← compute_subtree_root 64 offset (offset +! k);
      mret (result ++ [subtree_root]).
Proof.
  intros Hm Hk. cbn [subproof_with_offset]. rewrite (proj2 (Z.eqb_neq m n) Hm), Hk. apply bind_Ok.
Qed.

Section Subproof.
  Context `{Digest} `{HashableLeaf T}.
  Implicit Types D : list T.

Lemma subproof_up {E} D n t m b f :
  size_ok n → n ≤ zlen D → valid n t → lo t < m ≤ hi n t → level t ≤ Z.of_nat f →
  ∃ p0 out, up n p0 t out ∧ stem n m t p0 ∧
    let idxs := (if b && (lo p0 =? lo t) then [] else [p0]) ++ out in
    subproof_with_offset (E := E) f (m - lo t) (hi n t - lo t) b (lo t) = Ok idxs ∧
    map (subtree_hash D n) idxs = rfc_subproof (m - lo t) (zslice (lo t) (hi n t) D) b.
Proof.
  intros Hn HD Hv. pose proof Hn as Hn'. unfold size_ok in Hn'.
  assert (∀ t b f, valid n t → m = hi n t → ∃ p0 out, up n p0 t out ∧ stem n m t p0 ∧
    let idxs := (if b && (lo p0 =? lo t) then [] else [p0]) ++ out in
    subproof_with_offset (E := E) f (m - lo t) (hi n t - lo t) b (lo t) = Ok idxs ∧
    map (subtree_hash D n) idxs = rfc_subproof (m - lo t) (zslice (lo t) (hi n t) D) b) as Hwhole.
  { clear t b f Hv. intros t b f Hv ->. exists t, [].
    split; [by apply up_refl|]. split; [apply stem_here|]. cbv zeta.
    pose proof (valid_lo_hi n t Hv).
    rewrite Z.eqb_refl, <- (zslice_length (lo t) (hi n t) D), rfc_subproof_eq
      by (rewrite ?zslice_length; lia).
    rewrite zslice_length, subproof_whole by lia. destruct b; [done|].
    replace (lo t + (hi n t - lo t)) with (hi n t) by lia. unwrap.
    pose proof (valid_range_level n t Hn Hv).
    by rewrite (compute_subtree_root_node n t), bind_Ok by (done || lia). }
  revert b f. pattern t. apply (valid_ind n); [done| | |done]; clear t Hv.
  - intros i Hv Hl Hi Hhi Hlo b f Hm Hf. apply Hwhole; [done|lia].
  - intros t l r Hc IHl IHr b f Hm Hf.
    destruct (decide (m = hi n t)); [apply Hwhole; [apply Hc|done]|].
    pose proof (ch_level_l _ _ _ _ Hc) as Hll. pose proof (ch_level_r _ _ _ _ Hc) as Hlr.
    pose proof (children_lt Hc). destruct (children_slices Hc D HD) as (HS & HL & HR).
    pose proof (valid_lo_hi n t (ch_p _ _ _ _ Hc)).
    rewrite rfc_subproof_split by lia. cbv zeta. rewrite HL, HR, HS, (children_split Hc).
    pose proof (valid_range_level n l Hn (ch_l _ _ _ _ Hc)).
    pose proof (valid_range_level n r Hn (ch_r _ _ _ _ Hc)).
    destruct f as [|f]; [lia|].
    rewrite (subproof_step _ _ _ _ _ (lo r - lo t))
      by (lia || rewrite largest_power_spec, (children_split Hc) by lia; done).
    replace (lo t + (lo r - lo t)) with (lo r) by lia.
    replace (lo t + (hi n t - lo t)) with (hi n t) by lia.
    replace (m - lo t - (lo r - lo t)) with (m - lo r) by lia.
    replace (hi n t - lo t - (lo r - lo t)) with (hi n t - lo r) by lia. unwrap.
    rewrite (children_hi_l Hc), (ch_lo _ _ _ _ Hc) in IHl. rewrite (ch_hi_r _ _ _ _ Hc) in IHr.
    destruct (Z.leb_spec (m - lo t) (lo r - lo t)).
    + destruct (IHl b f) as (p0 & out & Hup & Hst & Hok & Hmap); [lia|lia|].
      exists p0, (out ++ [r]). split; [by eapply up_snoc_left|].
      split; [eapply stem_left; [done|lia|done]|]. rewrite app_assoc.
      rewrite Hok, bind_Ok.
      rewrite <- (ch_hi_r _ _ _ _ Hc), (compute_subtree_root_node n r), bind_Ok by (eauto with ct || lia).
      split; [done|]. rewrite map_app, Hmap.
      by rewrite (ch_lo _ _ _ _ Hc), (children_hi_l Hc).
    + destruct (IHr false f) as (p0 & out & Hup & Hst & Hok & Hmap); [lia|lia|].
      exists p0, (out ++ [l]). split; [by eapply up_snoc_right|].
      split; [eapply stem_right; [done|lia|done]|].
      pose proof (stem_lo _ _ _ _ Hst). rewrite (proj2 (Z.eqb_neq (lo p0) (lo t))) by lia.
      rewrite andb_false_r. rewrite app_assoc.
      cbn [andb] in Hok, Hmap. unwrap. rewrite Hok, bind_Ok.
      rewrite <- (children_hi_l Hc), <- (ch_lo _ _ _ _ Hc).
      rewrite (compute_subtree_root_node n l), bind_Ok by (eauto with ct || lia).
      split; [done|]. rewrite map_app, Hmap.
      unfold subtree_hash. cbn [map]. by rewrite (ch_hi_r _ _ _ _ Hc), (children_hi_l Hc).
Qed.

End Subproof.

(** ** Diverging parents *)

Lemma stem_perfect n m p0 : hi n p0 = m → m < n → lo p0 + 2 ^ level p0 = m.
Proof. unfold hi. lia. Qed.

(** A node exists in a smaller tree as soon as its right half is not empty. *)
Lemma children_shrink n m p l r :
  size_ok n → size_ok m → m ≤ n → children n p l r → lo r < m →
  ∃ r', children m p l r' ∧ lo r' = lo r.
Proof.
  intros Hn Hm Hmn Hc Hlt. destruct (node_surj p) as (k & j & Hj & ->); [apply (ch_p _ _ _ _ Hc)|].
  destruct k as [|k].
  { pose proof (ch_level_r _ _ _ _ Hc). rewrite level_node in *; lia. }
  pose proof (ch_mid _ _ _ _ Hc) as Hmid. rewrite Hmid, lo_node, level_node in Hlt by done.
  replace (Z.of_nat (S k) - 1) with (Z.of_nat k) in Hlt by lia. rewrite <- pow2_level, pow2_S in Hlt.
  assert (valid m (node (S k) j)) as Hv by (apply valid_node_S; [done|lia]).
  pose proof (children_node m k j Hm Hj Hv) as Hc'.
  pose proof (ch_left _ _ _ _ Hc' unit) as Hl. rewrite (ch_left _ _ _ _ Hc) in Hl.
  injection Hl as ->. eexists. split; [done|]. by rewrite Hmid, (ch_mid _ _ _ _ Hc').
Qed.

Lemma children_of_parent n p l r m p' l' r' :
  children n p l r → children m p' l' r' → p = p' → l = l'.
Proof.
  intros Hc Hc' ->. pose proof (ch_left _ _ _ _ Hc unit) as Hl.
  rewrite (ch_left _ _ _ _ Hc') in Hl. congruence.
Qed.

(** The largest subtree ending at [m] is a left child, and its sibling starts
    at [m]. *)
Lemma stem_is_left n m t p0 out :
  up n p0 t out → stem n m t p0 → m < hi n t →
  ∃ p r out', children n p p0 r ∧ up n p t out' ∧ out = r :: out' ∧ lo r = m.
Proof.
  intros Hup Hst Hm. destruct Hup as [i Hi|p l r t out Hc Hup|p l r t out Hc Hup].
  - pose proof (stem_hi _ _ _ _ Hst). lia.
  - exists p, r, out. pose proof (stem_hi _ _ _ _ Hst). rewrite (children_hi_l Hc) in *. done.
  - pose proof (stem_max _ _ _ _ Hst p (ch_p _ _ _ _ Hc)) as Hmax.
    pose proof (up_range _ _ _ _ Hup). pose proof (stem_hi _ _ _ _ Hst).
    rewrite (ch_hi_r _ _ _ _ Hc) in *. pose proof (children_lt Hc). lia.
Qed.

Lemma diverging_up {E} n m i p0 out f :
  size_ok n → size_ok m → m < n → up n i p0 out → lo p0 + 2 ^ level p0 ≤ m →
  (length out ≤ f)%nat →
  diverging_loop (E := E) f n m i = diverging_loop (E := E) (f - length out) n m p0.
Proof.
  intros Hn Hm Hmn Hup Hp. revert f.
  induction Hup as [i|p l r t out Hc Hup IH|p l r t out Hc Hup IH]; intros f Hf;
    [by rewrite Nat.sub_0_r|..]; destruct f as [|f]; cbn [length] in *; try lia;
    pose proof (up_perfect _ _ _ _ Hup);
    pose proof (children_old n m p l r Hn Hm Hc ltac:(lia) ltac:(lia)) as Hc';
    cbn [diverging_loop].
  - rewrite (ch_parent_l _ _ _ _ Hc), (ch_parent_l _ _ _ _ Hc'). cbn [mbind res_bind].
    rewrite Z.eqb_refl. apply IH; [done|lia].
  - rewrite (ch_parent_r _ _ _ _ Hc), (ch_parent_r _ _ _ _ Hc'). cbn [mbind res_bind].
    rewrite Z.eqb_refl. apply IH; [done|lia].
Qed.

Lemma diverging_stop {E} n m p p0 r f :
  size_ok n → size_ok m → m < n → children n p p0 r → lo r = m →
  valid m p0 → p0 ≠ root_idx m →
  diverging_loop (E := E) f n m p0 = Ok p0.
Proof.
  intros Hn Hm Hmn Hc Hr Hv Hroot.
  destruct (parent_sibling_valid (E := E) m p0) as (q & s & Hq & _ & Hvq & _); [done..|].
  assert (p ≠ q) as Hne.
  { intros <-. destruct (valid_cases m p Hm Hvq) as [(Hl & _)|(l' & r' & Hc')].
    - pose proof (ch_level_l _ _ _ _ Hc). pose proof (ch_level_r _ _ _ _ Hc). lia.
    - pose proof (children_lt Hc'). rewrite (ch_mid _ _ _ _ Hc') in *.
      rewrite (ch_mid _ _ _ _ Hc) in Hr. pose proof (valid_lo_hi _ _ Hvq). lia. }
  destruct f; cbn [diverging_loop]; rewrite (ch_parent_l _ _ _ _ Hc), Hq; cbn [mbind res_bind];
    by rewrite (proj2 (Z.eqb_neq _ _)).
Qed.

(** [m] is a power of two exactly when the largest subtree ending at [m] is
    the whole old tree. *)
Lemma root_idx_pow2 m k : size_ok m → m = pow2 k → root_idx m = node k 0.
Proof.
  intros Hm ->. rewrite root_idx_node by done. f_equal. pose proof (pow2_pos k).
  pose proof (root_level_spec (pow2 k) ltac:(lia)) as Hr.
  assert (¬ (root_level (pow2 k) < k)%nat) as H1.
  { intros Hlt. pose proof (pow2_mono (S (root_level (pow2 k))) k ltac:(lia)).
    rewrite pow2_S in *. lia. }
  assert (¬ (k < root_level (pow2 k))%nat) as H2.
  { intros Hlt. pose proof (pow2_mono (S k) (root_level (pow2 k)) ltac:(lia)).
    rewrite pow2_S in *. lia. }
  lia.
Qed.

Lemma is_power_of_two_spec m : is_power_of_two m = true ↔ ∃ k, m = pow2 k.
Proof.
  unfold is_power_of_two. rewrite andb_true_iff, Z.ltb_lt, Z.eqb_eq. split.
  - intros [Hm Heq]. exists (Z.to_nat (Z.log2 m)).
    rewrite pow2_level, Z2Nat.id; [done|apply Z.log2_nonneg].
  - intros [k ->]. pose proof (pow2_pos k). split; [lia|].
    by rewrite pow2_level, Z.log2_pow2 by lia.
Qed.

Lemma stem_root n m p0 out :
  size_ok n → 0 < m < n → up n p0 (root_idx n) out → stem n m (root_idx n) p0 →
  valid m p0 ∧ hi m p0 = m ∧ (lo p0 = 0 ↔ p0 = root_idx m) ∧
  is_power_of_two m = (lo p0 =? 0).
Proof.
  intros Hn Hm Hup Hst. pose proof Hn as Hn'. unfold size_ok in Hn'.
  assert (size_ok m) as Hsm by (unfold size_ok; lia).
  destruct (root_range n Hn) as [Hlo Hhi]. destruct (root_range m Hsm) as [Hlo' Hhi'].
  pose proof (stem_hi _ _ _ _ Hst) as Hp.
  pose proof (stem_perfect n m p0 Hp ltac:(lia)) as Hpf.
  destruct (up_valid _ _ _ _ Hup) as (Hv & _ & _).
  destruct (node_surj p0) as (k & j & Hj & Hkj); [apply Hv|].
  assert (lo p0 = j * pow2 k ∧ 2 ^ level p0 = pow2 k) as [Hl Hlv].
  { by rewrite Hkj, lo_node, level_node, <- pow2_level by done. }
  pose proof (pow2_pos k).
  assert (valid m p0) as Hvm by (rewrite Hkj; apply valid_complete; lia).
  assert (hi m p0 = m) as Him by (unfold hi; lia).
  assert (lo p0 = 0 ↔ p0 = root_idx m) as Hroot.
  { split; [|by intros ->]. intros H0. apply (node_unique m); auto with ct; congruence. }
  split; [done|]. split; [done|]. split; [done|].
  apply eq_true_iff_eq. rewrite is_power_of_two_spec, Z.eqb_eq. split.
  - intros [k' Hk']. assert (0 ≤ lo p0) by (by apply valid_lo_nonneg, Hv).
    assert (lo (node k' 0) = 0 ∧ hi n (node k' 0) = m) as [H1 H2].
    { rewrite lo_node, hi_node by done. lia. }
    pose proof (stem_max _ _ _ _ Hst (node k' 0)
      (valid_complete n k' 0 ltac:(done) ltac:(lia)) ltac:(lia) H2). lia.
  - intros H0. exists k. lia.
Qed.

Section Climb.
  Context `{Digest} `{HashableLeaf T}.
  Implicit Types D : list T.

Lemma first_node_stem {E} D n m p0 out :
  size_ok n → n ≤ zlen D → 0 < m < n → up n p0 (root_idx n) out → stem n m (root_idx n) p0 →
  is_power_of_two m = false →
  first_node_with_diverging_parents (E := E) n m = Ok p0.
Proof.
  intros Hn HD Hm Hup Hst Hpow. pose proof Hn as Hn'. unfold size_ok in Hn'.
  assert (size_ok m) as Hsm by (unfold size_ok; lia).
  destruct (stem_root n m p0 out) as (Hvm & Him & Hroot & Hlo); [done..|].
  rewrite Hpow in Hlo. symmetry in Hlo. apply Z.eqb_neq in Hlo.
  destruct (root_range n Hn) as [_ Hhi]. pose proof (stem_hi _ _ _ _ Hst) as Hp0.
  destruct (stem_is_left n m (root_idx n) p0 out) as (p & r & out' & Hc & _ & _ & Hr); [done|done|lia|].
  destruct (up_valid _ _ _ _ Hup) as (Hv & _ & _).
  pose proof (valid_lo_hi n p0 Hv) as Hlh.
  destruct (leaf_up D n p0 (m - 1)) as (out0 & Hup0 & _); [done|done|done|lia|].
  pose proof (up_length _ _ _ _ Hup0) as Hlen. rewrite leaf_level in Hlen by lia.
  pose proof (valid_range_level n p0 Hn Hv).
  unfold first_node_with_diverging_parents. change (U64_MAX / 2 + 1) with (2 ^ 63). zdecide.
  cbn [assert_that negb]. rewrite !bind_Ok. unwrap.
  rewrite LeafIdx_new_ok, bind_Ok, InternalIdx_from_eq by lia.
  rewrite (diverging_up n m _ p0 out0) by (done || pose proof (stem_perfect n m p0); lia).
  eapply diverging_stop; try done; [lia|]. intros ?%Hroot. done.
Qed.

(** The climb keeps the hash of [newtree_idx] in the new tree and that of
    [oldtree_idx] in the old one. *)
Definition climbing D (n m x o : Z) : running :=
  {| oldtree_idx := o; oldtree_hash := subtree_hash D m o;
     newtree_idx := x; newtree_hash := subtree_hash D n x |}.

Lemma cverify_step_left {E} D n m p l r o :
  size_ok m → m ≤ n → n ≤ zlen D → children n p l r → valid m o → m ≤ hi n l →
  cverify_step (E := E) n m (climbing D n m l o) (subtree_hash D n r) = Ok (climbing D n m p o).
Proof.
  intros Hm Hmn HD Hc Ho Hlt. unfold cverify_step. cbn [newtree_idx oldtree_idx climbing].
  rewrite (sibling_left Hc), (is_left_left Hc), (ch_parent_l _ _ _ _ Hc), !bind_Ok.
  unfold climbing. cbn [newtree_hash oldtree_hash].
  rewrite (subtree_hash_children Hc) by done.
  destruct (Z.eqb_spec o (root_idx m)) as [|Hr]; [done|].
  destruct (parent_sibling_valid (E := E) m o) as (q & s & _ & Hs & _ & Hvs); [done..|].
  rewrite Hs, bind_Ok. destruct (Z.eqb_spec r s) as [<-|]; [|done].
  pose proof (valid_lo_hi _ _ Hvs). rewrite (children_hi_l Hc) in Hlt. lia.
Qed.

Lemma cverify_step_right {E} D n m p l r o :
  size_ok n → size_ok m → m ≤ n → n ≤ zlen D → children n p l r →
  valid m o → lo o = lo r → hi m o = m → m ≤ hi n r →
  cverify_step (E := E) n m (climbing D n m r o) (subtree_hash D n l) = Ok (climbing D n m p p)
  ∧ valid m p ∧ hi m p = m.
Proof.
  intros Hn Hm Hmn HD Hc Ho Hlo Hhi Hlt. pose proof (valid_lo_hi _ _ Ho).
  destruct (children_shrink n m p l r) as (r' & Hc' & Hr'); [done..|lia|].
  assert (hi m p = m) as Hhp.
  { rewrite (ch_hi_r _ _ _ _ Hc) in Hlt. unfold hi in *. lia. }
  assert (r' = o) as ->.
  { apply (node_unique m); [done|apply Hc'|done|congruence|].
    rewrite (ch_hi_r _ _ _ _ Hc'). congruence. }
  split; [|split; [apply Hc'|done]].
  unfold cverify_step. cbn [newtree_idx oldtree_idx climbing].
  rewrite (sibling_right Hc), (is_left_right Hc), (ch_parent_r _ _ _ _ Hc), !bind_Ok.
  rewrite (parent_not_root (E := unit) m o p) by apply Hc'.
  rewrite (sibling_right Hc'), bind_Ok, Z.eqb_refl, (is_left_right Hc'),
    (ch_parent_r _ _ _ _ Hc'), !bind_Ok.
  unfold climbing. cbn [newtree_hash oldtree_hash].
  rewrite (subtree_hash_children Hc), (subtree_hash_children Hc') by lia.
  assert (subtree_hash D m l = subtree_hash D n l) as ->; [|done].
  unfold subtree_hash. by rewrite (children_hi_l Hc), (children_hi_l Hc'), Hr'.
Qed.

Lemma cverify_loop_up {E} D n m x o out :
  size_ok n → size_ok m → m ≤ n → n ≤ zlen D → up n x (root_idx n) out →
  valid m o → lo o = lo x → hi m o = m → m ≤ hi n x →
  cverify_loop (E := E) n m (climbing D n m x o) (map (subtree_hash D n) out)
  = Ok (climbing D n m (root_idx n) (root_idx m)).
Proof.
  intros Hn Hm Hmn HD Hup. remember (root_idx n) as t eqn:Ht. revert o.
  induction Hup as [x|p l r t out Hc Hup IH|p l r t out Hc Hup IH]; intros o Ho Hlo Hhi Hx.
  - cbn [map cverify_loop]. do 2 f_equal. destruct (root_range n Hn) as [Hln _].
    destruct (root_range m Hm) as [Hlm Hhm].
    apply (node_unique m); auto with ct; congruence.
  - cbn [map cverify_loop]. rewrite (cverify_step_left D n m p l r) by done. rewrite bind_Ok.
    apply IH; [done|done| |done|].
    + by rewrite Hlo, (ch_lo _ _ _ _ Hc).
    + rewrite (children_hi_l Hc) in Hx. pose proof (children_lt Hc). lia.
  - cbn [map cverify_loop]. destruct (cverify_step_right (E := E) D n m p l r o) as (-> & Hv & Hh);
      [done..|]. rewrite bind_Ok. apply IH; try done. by rewrite <- (ch_hi_r _ _ _ _ Hc).
Qed.

(** What the indices, the start and the climb are, in one place. *)
Lemma consistency_up {E} D n m :
  size_ok n → n ≤ zlen D → 0 < m < n →
  ∃ p0 out idxs, up n p0 (root_idx n) out ∧ stem n m (root_idx n) p0 ∧
    indices_for_consistency_proof (E := E) m (n - m) = Ok idxs ∧
    map (subtree_hash D n) idxs = rfc_proof m (zslice 0 n D) ∧
    idxs = (if is_power_of_two m then [] else [p0]) ++ out.
Proof.
  intros Hn HD Hm. pose proof Hn as Hn'. unfold size_ok in Hn'.
  destruct (root_range n Hn) as [Hlo Hhi].
  pose proof (valid_range_level n (root_idx n) Hn (valid_root n Hn)).
  destruct (subproof_up (E := E) D n (root_idx n) m true 64)
    as (p0 & out & Hup & Hst & Hok & Hmap); auto with ct; [lia|lia|].
  destruct (stem_root n m p0 out) as (_ & _ & _ & Hpow); [done..|].
  rewrite Hlo in Hok, Hmap. rewrite Hhi, !Z.sub_0_r in Hok, Hmap.
  exists p0, out, ((if lo p0 =? 0 then [] else [p0]) ++ out). cbn [andb] in *.
  split; [done|]. split; [done|]. split; [|by rewrite Hpow].
  unfold indices_for_consistency_proof. change (U64_MAX / 2 + 1) with (2 ^ 63).
  replace (m + (n - m)) with n by lia. unwrap. zdecide. rewrite andb_false_r, <- (Z.sub_0_r n). exact Hok.
Qed.

Lemma hash_shrink D n m p0 : hi n p0 = m → hi m p0 = m → subtree_hash D n p0 = subtree_hash D m p0.
Proof. intros H1 H2. unfold subtree_hash. by rewrite H1, H2. Qed.

(** The climb of [cverify] on the digests of the tree. *)
Lemma cverify_climb {E} D n m p0 out :
  size_ok n → n ≤ zlen D → 0 < m < n → up n p0 (root_idx n) out → stem n m (root_idx n) p0 →
  let h := subtree_hash D n p0 in
  cverify_loop (E := E) n m {| oldtree_idx := p0; oldtree_hash := h;
                               newtree_idx := p0; newtree_hash := h |} (map (subtree_hash D n) out)
  = Ok (climbing D n m (root_idx n) (root_idx m)).
Proof.
  intros Hn HD Hm Hup Hst h. pose proof Hn as Hn'. unfold size_ok in Hn'.
  assert (size_ok m) as Hsm by (unfold size_ok; lia).
  destruct (stem_root n m p0 out) as (Hv & Him & _); [done..|].
  pose proof (stem_hi _ _ _ _ Hst) as Hp.
  pose proof (hash_shrink D n m p0 Hp Him) as Hh.
  rewrite <- (cverify_loop_up D n m p0 p0 out) by (done || lia).
  unfold climbing, h. by rewrite Hh.
Qed.

Lemma cverify_start_stem D n m p0 out old_root digests :
  size_ok n → n ≤ zlen D → 0 < m < n → up n p0 (root_idx n) out → stem n m (root_idx n) p0 →
  cverify_start n m old_root digests =
    if is_power_of_two m then Ok (p0, root_hash old_root, digests)
    else match digests with [] => Panic | h :: rest => Ok (p0, h, rest) end.
Proof.
  intros Hn HD Hm Hup Hst. unfold cverify_start. zdecide. rewrite orb_false_r.
  destruct (stem_root n m p0 out) as (_ & _ & Hroot & Hpow); [done..|].
  destruct (is_power_of_two m) eqn:Hm2.
  - symmetry in Hpow. by apply Z.eqb_eq, Hroot in Hpow as ->.
  - destruct digests; [done|]. by rewrite (first_node_stem D n m p0 out), bind_Ok by done.
Qed.

Lemma rfc_proof_same D n : 1 ≤ n ≤ zlen D → rfc_proof n (zslice 0 n D) = [].
Proof.
  intros Hn. assert (n = zlen (zslice 0 n D)) as Hl by (rewrite zslice_length; lia).
  unfold rfc_proof. rewrite Hl at 1. apply rfc_subproof_eq. lia.
Qed.

(** A proof made of PROOF(m, D[n]) verifies. *)
Lemma cverify_proof D n m :
  size_ok n → n ≤ zlen D → 0 < m ≤ n →
  cverify (consistency_from_digests (rfc_proof m (zslice 0 n D)))
    (RootHash_new (mth (zslice 0 m D)) m) (RootHash_new (mth (zslice 0 n D)) n) = Ok tt.
Proof.
  intros Hn HD Hm. pose proof Hn as Hn'. unfold size_ok in Hn'.
  assert (size_ok m) as Hsm by (unfold size_ok; lia).
  unfold cverify, consistency_from_digests. cbn [num_leaves root_hash cproof].
  change (U64_MAX / 2 + 1) with (2 ^ 63). zdecide. unwrap.
  destruct (decide (m = n)) as [->|].
  - rewrite rfc_proof_same by lia. unfold indices_for_consistency_proof. change (U64_MAX / 2 + 1) with (2 ^ 63).
    rewrite Z.sub_diag, Z.add_0_r, andb_false_intro2 by (by zdecide). unwrap. zdecide.
    rewrite bind_Ok, Nat.mul_0_r. cbn [length concat]. rewrite bool_decide_eq_true_2 by done.
    unfold cverify_start. rewrite Z.eqb_refl, orb_true_r. cbn [negb mbind res_bind chunks chunks_fuel length cverify_loop oldtree_hash newtree_hash root_hash].
    by rewrite bool_decide_eq_true_2.
  - destruct (consistency_up (E := string) D n m) as (p0 & out & idxs & Hup & Hst & Hok & Hmap & Hidxs); [done|done|lia|].
    rewrite Hok, bind_Ok, <- Hmap.
    pose proof (Forall_subtree_length D n idxs) as Hlen.
    rewrite (length_concat_const output_size), length_map by done.
    rewrite bool_decide_eq_true_2 by lia. cbn [negb].
    rewrite chunks_concat by (done || apply output_size_pos).
    rewrite (cverify_start_stem D n m p0 out) by (done || lia).
    destruct (stem_root n m p0 out) as (_ & Him & Hroot & Hpow); [done|lia|done|done|].
    rewrite <- !(subtree_hash_root D) by done.
    pose proof (cverify_climb (E := string) D n m p0 out Hn HD ltac:(lia) Hup Hst) as Hclimb.
    destruct (is_power_of_two m); subst idxs; cbn [app map].
    + symmetry in Hpow. apply Z.eqb_eq, Hroot in Hpow.
      rewrite bind_Ok. cbn [root_hash]. rewrite <- Hpow, <- (hash_shrink D n m p0), Hclimb, bind_Ok
        by (done || apply (stem_hi _ _ _ _ Hst)).
      cbn [climbing oldtree_hash newtree_hash]. rewrite <- Hpow.
      rewrite (hash_shrink D n m p0) by (done || apply (stem_hi _ _ _ _ Hst)).
      by rewrite !bool_decide_eq_true_2.
    + rewrite bind_Ok, Hclimb, bind_Ok. cbn [climbing oldtree_hash newtree_hash root_hash].
      by rewrite !bool_decide_eq_true_2.
Qed.


(** C5: completeness: the consistency proof made of the hashes PROOF(m, D[n])
    verifies against the roots MTH(D[m]) and MTH(D[n]). *)
Theorem cverify_complete D n m :
  size_ok n → n ≤ zlen D → 0 < m ≤ n →
  cverify (consistency_from_digests (rfc_proof m (zslice 0 n D)))
    (RootHash_new (mth (zslice 0 m D)) m) (RootHash_new (mth (zslice 0 n D)) n) = Ok tt.
Proof. apply cverify_proof. Qed.

(** The new-tree half of the climb is the climb of an inclusion proof. *)
Lemma cverify_step_new n m st d st' :
  cverify_step (E := string) n m st d = Ok st' →
  ∃ is_l, is_left (E := string) (newtree_idx st) n = Ok is_l ∧
    parent (E := string) (newtree_idx st) n = Ok (newtree_idx st') ∧
    newtree_hash st' = if is_l : bool then parent_hash (newtree_hash st) d
                       else parent_hash d (newtree_hash st).
Proof.
  unfold cverify_step. intros (sib & _ & Hs)%bind_Ok_inv.
  apply bind_Ok_inv in Hs as (is_l & Hl & Hs). apply bind_Ok_inv in Hs as (p & Hp & Hs).
  exists is_l. split; [done|]. rewrite Hp. destruct (_ =? _).
  { by injection Hs as <-. }
  apply bind_Ok_inv in Hs as (os & _ & Hs). destruct (_ =? _); [|by injection Hs as <-].
  apply bind_Ok_inv in Hs as (ol & _ & Hs). apply bind_Ok_inv in Hs as (op & _ & Hs).
  by injection Hs as <-.
Qed.

Lemma cverify_loop_new n m st st' digests :
  Forall (λ d, length d = output_size) digests →
  cverify_loop (E := string) n m st digests = Ok st' →
  verify_loop n (newtree_idx st) (newtree_hash st) digests = Ok (newtree_hash st').
Proof.
  intros Hd. revert st. induction Hd as [|d digests Hlen Hd IH]; intros st; [by intros [= ->]|].
  cbn [cverify_loop verify_loop]. intros (st1 & Hst & Hloop)%bind_Ok_inv.
  destruct (cverify_step_new _ _ _ _ _ Hst) as (is_l & -> & -> & Hh).
  rewrite bool_decide_eq_true_2 by done. cbn [assert_that]. rewrite !bind_Ok, <- Hh. by apply IH.
Qed.

(** The strings hashed for the new root when a proof is checked. *)
Definition cverify_inputs (n m : Z) (old_root : RootHash) (pf : ConsistencyProof) : list bytes :=
  match cverify_start n m old_root (chunks output_size (cproof pf)) with
  | Ok (idx, h, digests) => verify_inputs n idx h digests
  | _ => []
  end.

(** A climb that ends in the root of the new tree started from its hashes. *)
Lemma cverify_down D n m p0 out h digests st S :
  size_ok n → n ≤ zlen D → 0 < m < n → up n p0 (root_idx n) out → stem n m (root_idx n) p0 →
  collision_free S → mth_inputs (zslice 0 n D) ⊆ S → verify_inputs n p0 h digests ⊆ S →
  length h = output_size → Forall (λ d, length d = output_size) digests →
  length digests = length out →
  cverify_loop (E := string) n m {| oldtree_idx := p0; oldtree_hash := h;
                                    newtree_idx := p0; newtree_hash := h |} digests = Ok st →
  newtree_hash st = mth (zslice 0 n D) →
  oldtree_hash st = mth (zslice 0 m D).
Proof.
  intros Hn HD Hm Hup Hst HS Hin Hvi Hh Hd Hlen Hloop Hnew. unfold size_ok in Hn.
  pose proof (cverify_loop_new _ _ _ _ _ Hd Hloop) as Hv. cbn [newtree_idx newtree_hash] in Hv.
  rewrite Hnew, <- (subtree_hash_root D n) in Hv by done.
  destruct (root_range n Hn) as [Hlo Hhi].
  destruct (verify_loop_down D n p0 (root_idx n) out h digests S) as [-> ->];
    [done|done|done|by rewrite Hlo, Hhi|done|done|done|done|].
  rewrite (cverify_climb D n m p0 out) in Hloop by done. injection Hloop as <-.
  cbn [climbing oldtree_hash]. apply subtree_hash_root. unfold size_ok. lia.
Qed.

(** C6: soundness: a consistency proof that is accepted against the root of a
    tree shows that the old root is the root of a prefix of it, if the digest
    has no collision among the strings hashed for the tree and the new root. *)
Theorem cverify_sound D n m pf h :
  size_ok n → n ≤ zlen D → 0 < m ≤ n → length h = output_size →
  collision_free (mth_inputs (zslice 0 n D) ++ cverify_inputs n m (RootHash_new h m) pf) →
  cverify pf (RootHash_new h m) (RootHash_new (mth (zslice 0 n D)) n) = Ok tt →
  h = mth (zslice 0 m D).
Proof.
  intros Hn HD Hm Hh HS. pose proof Hn as Hn'. unfold size_ok in Hn'.
  unfold cverify. cbn [num_leaves root_hash]. change (U64_MAX / 2 + 1) with (2 ^ 63). zdecide. unwrap.
  destruct (decide (m = n)) as [->|].
  - unfold indices_for_consistency_proof. change (U64_MAX / 2 + 1) with (2 ^ 63).
    rewrite Z.sub_diag, Z.add_0_r, andb_false_intro2 by (by zdecide). unwrap. zdecide.
    rewrite bind_Ok, Nat.mul_0_r. case_bool_decide as Hl; [cbn [negb]|done].
    destruct (cproof pf); [|done]. unfold cverify_start. rewrite Z.eqb_refl, orb_true_r.
    cbn [mbind res_bind chunks chunks_fuel length cverify_loop oldtree_hash newtree_hash root_hash].
    case_bool_decide; [|done]. by case_bool_decide.
  - destruct (consistency_up (E := string) D n m) as (p0 & out & idxs & Hup & Hst & Hok & _ & Hidxs);
      [done|done|lia|].
    rewrite Hok, bind_Ok. case_bool_decide as Hl; [cbn [negb]|done]. symmetry in Hl.
    rewrite Nat.mul_comm in Hl. pose proof output_size_pos as Hw.
    pose proof (chunks_lengths _ _ _ Hw Hl) as Hd. pose proof (length_chunks _ _ _ Hw Hl) as Hlen.
    unfold cverify_inputs in HS.
    rewrite (cverify_start_stem D n m p0 out) in * by (done || lia). cbn [root_hash] in *.
    intros (((idx & h0) & digests) & Hstart & Hv)%bind_Ok_inv. rewrite Hstart in HS.
    apply bind_Ok_inv in Hv as (st & Hloop & Hv). case_bool_decide as Hold; [|done].
    case_bool_decide as Hnew; [|done]. rewrite <- Hold.
    destruct (is_power_of_two m).
    + injection Hstart as <- <- <-. subst idxs.
      eapply (cverify_down D n m p0 out); try done; [lia|set_solver..].
    + destruct (chunks output_size (cproof pf)) as [|c rest]; [done|].
      injection Hstart as <- <- <-. subst idxs. apply Forall_cons in Hd as [Hc Hd].
      eapply (cverify_down D n m p0 out); try done; [lia|set_solver|set_solver|].
      cbn [length app] in Hlen. lia.
Qed.

End Climb.
