(* ===== verification/KvStore.v ===== *)
(** * The key-value store under the log

    SlateDB (crate [slatedb]) and the in-memory caches (crate [foyer]) are
    third-party code: the classes [SlateDb] and [Cache] hold the operations
    the log calls, [SlateDbLaws] and [CacheLaws] what their documentation
    promises.  [RateLimitedDb] is the wrapper of
    src/src/storage/rate_limited_db.rs, [ReadRateLimiter] the semaphore of
    src/src/rate_limiter.rs as a transition system. *)

From S2P Require Import Prelude.

(** ** SlateDB *)

(** A [WriteBatch]: the puts in the order they were made. *)
Abbreviation WriteBatch := (list (bytes * bytes)).

Definition apply_batch (b : WriteBatch) (m : gmap bytes bytes) : gmap bytes bytes :=
  fold_left (λ m kv, <[kv.1 := kv.2]> m) b m.

Class SlateDb := {
  Db : Type;
  SlateDBError : Type;
  db_get : bytes → stM Db SlateDBError (option bytes);
  db_put : bytes → bytes → stM Db SlateDBError unit;
  db_write_with_options : WriteBatch → stM Db SlateDBError unit;
  db_flush : stM Db SlateDBError unit;
}.

(** A read returns the current value or fails; a batch is written atomically;
    a failed write may or may not have taken place. *)
Class SlateDbLaws `{SlateDb} := {
  db_view : Db → gmap bytes bytes;
  db_get_law k d :
    spec (db_get k) d (λ v d', v = db_view d !! k ∧ db_view d' = db_view d)
      (λ _ d', db_view d' = db_view d);
  db_put_law k v d :
    spec (db_put k v) d (λ _ d', db_view d' = <[k := v]> (db_view d))
      (λ _ d', db_view d' = db_view d ∨ db_view d' = <[k := v]> (db_view d));
  db_write_law b d :
    spec (db_write_with_options b) d (λ _ d', db_view d' = apply_batch b (db_view d))
      (λ _ d', db_view d' = db_view d ∨ db_view d' = apply_batch b (db_view d));
  db_flush_law d :
    spec db_flush d (λ _ d', db_view d' = db_view d) (λ _ d', db_view d' = db_view d);
}.

(** ** Caches *)

Class Cache (K V : Type) := {
  cache : Type;
  cache_new : cache;
  cache_get : K → cache → option V * cache;
  cache_insert : K → V → cache → cache;
}.
Arguments cache K V {_}.

(** A hit returns a value that was inserted for the key and not replaced
    since; entries can be evicted at any time. *)
Class CacheLaws (K V : Type) `{Countable K} `{Cache K V} := {
  cache_view : cache K V → gmap K V;
  cache_new_law : cache_view cache_new = ∅;
  cache_get_law k c :
    cache_view (cache_get k c).2 ⊆ cache_view c ∧
    match (cache_get k c).1 with Some v => cache_view c !! k = Some v | None => True end;
  cache_insert_law k v c : cache_view (cache_insert k v c) ⊆ <[k := v]> (cache_view c);
}.

(** ** [RateLimitedDb]

    The permit of the rate limiter is held for the duration of the read and
    only delays it; the counters are updated as the code does. *)
Record RateLimitedDb `{SlateDb} := {
  rl_db : Db;
  read_ops : Z;
  bytes_read : Z;
}.

Section RateLimited.
  Context `{SlateDb}.
  Abbreviation M := (stM RateLimitedDb SlateDBError).

Definition with_rl_db (d : Db) (s : RateLimitedDb) : RateLimitedDb :=
  {| rl_db := d; read_ops := read_ops s; bytes_read := bytes_read s |}.
Definition on_rl_db {A} (m : stM Db SlateDBError A) : M A :=
  λ s, let (r, d) := m (rl_db s) in (r, with_rl_db d s).

Definition RateLimitedDb_new (db : Db) : RateLimitedDb :=
  {| rl_db := db; read_ops := 0; bytes_read := 0 |}.

Definition rl_get (key : bytes) : M (option bytes) :=
  _ ← modify (λ s, {| rl_db := rl_db s; read_ops := read_ops s +! 1;
                      bytes_read := bytes_read s |});
  result ← on_rl_db (db_get key);
  _ ← match result with
      | Some value => modify (λ s, {| rl_db := rl_db s; read_ops := read_ops s;
                                      bytes_read := bytes_read s +! zlen value |})
      | None => mret tt
      end;
  mret result.

Definition rl_put (key value : bytes) : M unit := on_rl_db (db_put key value).

Definition rl_write_batch (batch : WriteBatch) : M unit :=
  _ ← on_rl_db (db_write_with_options batch);
  on_rl_db db_flush.

Definition get_read_stats (s : RateLimitedDb) : Z * Z := (read_ops s, bytes_read s).

End RateLimited.

(** ** [ReadRateLimiter]

    The state shared by the readers: the free permits of the semaphore, the
    readers that hold one and the readers let through without. *)
Module Limiter.

Record ReadRateLimiter := {
  semaphore : Z;
  warmup_start : Z;
  warmup_end : Z;
  last_log : Z;
}.

(** Times in seconds. *)
Definition new (max_concurrent_reads warmup_duration_secs now : Z) : ReadRateLimiter :=
  {| semaphore := max_concurrent_reads; warmup_start := now;
     warmup_end := now + warmup_duration_secs; last_log := 0 |}.

(** What a call of [acquire] at time [now] comes to: [Some None] returns
    without a permit, [Some (Some tt)] with one, [None] waits. *)
Definition acquire (now : Z) (self : ReadRateLimiter) : option (option unit) * ReadRateLimiter :=
  if warmup_end self <=? now then
    (Some None, {| semaphore := semaphore self; warmup_start := warmup_start self;
                   warmup_end := warmup_end self; last_log := U64_MAX |})
  else
    let elapsed_secs := now - warmup_start self in
    let last_log' := if last_log self +! 10 <=? elapsed_secs then elapsed_secs
                     else last_log self in
    let granted := 0 <? semaphore self in
    (if granted then Some (Some tt) else None,
     {| semaphore := if granted then semaphore self - 1 else semaphore self;
        warmup_start := warmup_start self; warmup_end := warmup_end self;
        last_log := last_log' |}).

(** Dropping a [ReadPermit]. *)
Definition release (self : ReadRateLimiter) : ReadRateLimiter :=
  {| semaphore := semaphore self + 1; warmup_start := warmup_start self;
     warmup_end := warmup_end self; last_log := last_log self |}.

(** Readers interleave: [held] of them hold a permit, [free] were let through
    after the warm-up. *)
Record readers := { limiter : ReadRateLimiter; held : Z; free : Z }.

Inductive step : Z → readers → readers → Prop :=
  | step_acquire now s l : acquire now (limiter s) = (Some (Some tt), l) →
      step now s {| limiter := l; held := held s + 1; free := free s |}
  | step_pass now s l : acquire now (limiter s) = (Some None, l) →
      step now s {| limiter := l; held := held s; free := free s + 1 |}
  | step_wait now s l : acquire now (limiter s) = (None, l) →
      step now s {| limiter := l; held := held s; free := free s |}
  | step_release now s : 0 < held s →
      step now s {| limiter := release (limiter s); held := held s - 1; free := free s |}
  | step_done now s : 0 < free s →
      step now s {| limiter := limiter s; held := held s; free := free s - 1 |}.

(** Runs at non-decreasing times. *)
Inductive run (max : Z) (dur t0 : Z) : Z → readers → Prop :=
  | run_new : run max dur t0 t0 {| limiter := new max dur t0; held := 0; free := 0 |}
  | run_step t t' s s' : run max dur t0 t s → t ≤ t' → step t' s s' → run max dur t0 t' s'.

Lemma run_inv max dur t0 t s :
  0 ≤ max → run max dur t0 t s →
  held s + semaphore (limiter s) = max ∧ 0 ≤ held s ∧ 0 ≤ semaphore (limiter s) ∧ 0 ≤ free s ∧
  warmup_end (limiter s) = t0 + dur ∧ (t < t0 + dur → free s = 0).
Proof.
  intros Hmax. induction 1 as [|t t' s s' Hrun IH Ht Hstep]; [simpl; lia|].
  destruct Hstep as [now s l Ha|now s l Ha|now s l Ha|now s Hh|now s Hf];
    cbn [limiter held free release semaphore warmup_end] in *; try lia;
    revert Ha; unfold acquire;
    destruct (Z.leb_spec (warmup_end (limiter s)) now), (Z.ltb_spec 0 (semaphore (limiter s)));
    intros [= <-]; cbn [semaphore warmup_end]; lia.
Qed.

(** During the warm-up no more reads than configured are in flight, and at
    any time no more than that hold a permit: readers that come after the warm-up
    are let through without one. *)
Theorem reads_bounded max dur t0 t s :
  0 ≤ max → run max dur t0 t s →
  0 ≤ held s ≤ max ∧ (t < t0 + dur → held s + free s ≤ max).
Proof. intros Hmax Hr. pose proof (run_inv _ _ _ _ _ Hmax Hr). lia. Qed.

(** Two readers and one permit: the second waits. *)
Lemma reads_bounded_witness :
  ∃ s, run 1 30 100 112 s ∧ held s = 1 ∧ (0 ≤ held s ≤ 1 ∧ (112 < 100 + 30 → held s + free s ≤ 1)).
Proof.
  pose proof (run_new 1 30 100) as R0.
  pose proof (step_acquire 100 {| limiter := new 1 30 100; held := 0; free := 0 |}
    {| semaphore := 0; warmup_start := 100; warmup_end := 130; last_log := 0 |} eq_refl) as S1.
  pose proof (run_step _ _ _ 100 100 _ _ R0 (Z.le_refl _) S1) as R1.
  pose proof (step_wait 112 {| limiter := {| semaphore := 0; warmup_start := 100; warmup_end := 130;
                                            last_log := 0 |}; held := 1; free := 0 |}
    {| semaphore := 0; warmup_start := 100; warmup_end := 130; last_log := 12 |} eq_refl) as S2.
  pose proof (run_step _ _ _ 100 112 _ _ R1 ltac:(lia) S2) as R2.
  eexists. split; [exact R2|]. split; [reflexivity|]. exact (reads_bounded 1 30 100 112 _ ltac:(lia) R2).
Defined.

End Limiter.

(** ** Lemmas *)

Lemma apply_batch_app b b' m : apply_batch (b ++ b') m = apply_batch b' (apply_batch b m).
Proof. apply fold_left_app. Qed.

Lemma apply_batch_notin b m k : k ∉ b.*1 → apply_batch b m !! k = m !! k.
Proof.
  revert m. induction b as [|[k' v] b IH]; intros m; [done|]. rewrite fmap_cons.
  intros [Hne Hb]%not_elem_of_cons. cbn [apply_batch fold_left fst snd].
  change (apply_batch b (<[k' := v]> m) !! k = m !! k).
  rewrite IH by done. by rewrite lookup_insert_ne.
Qed.

Lemma apply_batch_in b m k :
  k ∈ b.*1 → ∃ v, (k, v) ∈ b ∧ apply_batch b m !! k = Some v.
Proof.
  revert m. induction b as [|[k' v] b IH]; intros m; [set_solver|]. rewrite fmap_cons.
  intros Hk. cbn [apply_batch fold_left fst snd].
  change (∃ v0, (k, v0) ∈ (k', v) :: b ∧ apply_batch b (<[k' := v]> m) !! k = Some v0).
  destruct (decide (k ∈ b.*1)) as [Hin|Hnin].
  - destruct (IH (<[k' := v]> m) Hin) as (v' & ? & ?). exists v'. set_solver.
  - assert (k = k') as -> by set_solver. exists v.
    rewrite apply_batch_notin, lookup_insert_eq by done. set_solver.
Qed.

Lemma apply_batch_local b m m' k :
  m !! k = m' !! k → apply_batch b m !! k = apply_batch b m' !! k.
Proof.
  revert m m'. induction b as [|[k' v] b IH]; intros m m' Hk; [done|].
  apply (IH (<[k' := v]> m) (<[k' := v]> m')).
  destruct (decide (k = k')) as [->|]; [by rewrite !lookup_insert_eq|by rewrite !lookup_insert_ne].
Qed.

(** A key that a batch binds to one value only. *)
Lemma apply_batch_lookup b m k v :
  (k, v) ∈ b → (∀ v', (k, v') ∈ b → v' = v) → apply_batch b m !! k = Some v.
Proof.
  intros Hin Huniq. destruct (apply_batch_in b m k) as (v' & Hv' & ->).
  { apply list_elem_of_fmap. by exists (k, v). }
  by rewrite (Huniq v').
Qed.

(** Batches with the same puts, one value per key, have the same effect. *)
Lemma apply_batch_same b b' m :
  (∀ kv, kv ∈ b ↔ kv ∈ b') → (∀ k v v', (k, v) ∈ b → (k, v') ∈ b → v = v') →
  apply_batch b m = apply_batch b' m.
Proof.
  intros Hb Hfun. apply map_eq. intros k. destruct (decide (k ∈ b.*1)) as [Hin|Hnin].
  - destruct (apply_batch_in b m k Hin) as (v & Hv & ->). symmetry.
    apply apply_batch_lookup; [by apply Hb|]. intros v' Hv'%Hb. by eapply Hfun.
  - rewrite !apply_batch_notin; [done| |done]. intros ((k' & v) & -> & Hv%Hb)%list_elem_of_fmap.
    apply Hnin, list_elem_of_fmap. by exists (k', v).
Qed.

Lemma map_Forall_sub `{Countable K} {A} (P : K → A → Prop) (m m' : gmap K A) :
  m ⊆ m' → map_Forall P m' → map_Forall P m.
Proof. intros Hsub HP k x Hk. apply HP. by eapply lookup_weaken. Qed.

Section Laws.
  Context `{SlateDbLaws}.

Definition rl_view (s : RateLimitedDb) : gmap bytes bytes := db_view (rl_db s).

Lemma spec_on_rl_db {A} (m : stM Db SlateDBError A) s (Q : A → RateLimitedDb → Prop)
    (R : SlateDBError → RateLimitedDb → Prop) :
  spec m (rl_db s) (λ a d, Q a (with_rl_db d s)) (λ e d, R e (with_rl_db d s)) →
  spec (on_rl_db m) s Q R.
Proof. unfold spec, on_rl_db. by destruct (m (rl_db s)) as [[]]. Qed.

Lemma rl_get_spec k s :
  spec (rl_get k) s (λ v s', v = rl_view s !! k ∧ rl_view s' = rl_view s)
    (λ _ s', rl_view s' = rl_view s).
Proof.
  apply spec_bind, spec_modify, spec_bind, spec_on_rl_db.
  eapply spec_mono; [apply db_get_law| |done]. intros v d [-> Hd]. apply spec_bind.
  destruct (_ !! k); [apply spec_modify|apply spec_ret]; by apply spec_ret.
Qed.

Lemma rl_put_spec k v s :
  spec (rl_put k v) s (λ _ s', rl_view s' = <[k := v]> (rl_view s))
    (λ _ s', rl_view s' = rl_view s ∨ rl_view s' = <[k := v]> (rl_view s)).
Proof. apply spec_on_rl_db, db_put_law. Qed.

(** A batch that was written but not flushed is reported as an error. *)
Lemma rl_write_batch_spec b s :
  spec (rl_write_batch b) s (λ _ s', rl_view s' = apply_batch b (rl_view s))
    (λ _ s', rl_view s' = rl_view s ∨ rl_view s' = apply_batch b (rl_view s)).
Proof.
  apply spec_bind, spec_on_rl_db. eapply spec_mono; [apply db_write_law| |done].
  intros [] d Hd. apply spec_on_rl_db. unfold rl_view.
  eapply spec_mono; [apply db_flush_law|..]; cbn; intros ? d' Hd'; rewrite Hd'; auto.
Qed.

End Laws.
