(* ===== verification/TreeStore.v ===== *)
(** * The stored Merkle tree

    [SlateDbBackedTree] of src/src/merkle_tree/slatedb_backed_tree.rs over the
    key-value store: keys, metadata, node lookups by version, appends with
    the tiles precomputed in the same batch, roots and proofs. *)

From S2P Require Import Prelude TreeMath Rfc6962 Inclusion Consistency KvStore.

(** ** Keys *)

Definition LEAF_PREFIX : bytes := str_bytes "leaf:".
Definition META_KEY : bytes := str_bytes "meta".
Definition VERSIONED_NODE_PREFIX : bytes := str_bytes "vnode:".
Definition COMMITTED_SIZE_KEY : bytes := str_bytes "committed_size".
Definition NODE_LATEST_VERSION_PREFIX : bytes := str_bytes "nver:".
Definition TILE_PREFIX : bytes := str_bytes "tile:".
Definition LAST_PRECOMPUTED_SIZE_KEY : bytes := str_bytes "last_precomputed_size".

Definition leaf_key (index : Z) : bytes := LEAF_PREFIX ++ be_bytes 8 index.
Definition versioned_node_key (index version : Z) : bytes :=
  VERSIONED_NODE_PREFIX ++ be_bytes 8 index ++ str_bytes "@" ++ be_bytes 8 version.
Definition node_latest_version_key (index : Z) : bytes :=
  NODE_LATEST_VERSION_PREFIX ++ be_bytes 8 index.
Definition tile_key (level index : Z) : bytes :=
  TILE_PREFIX ++ [level] ++ str_bytes ":" ++ be_bytes 8 index.

(** ** State and errors *)

Inductive SlateDbTreeError `{SlateDb} :=
  | DbError (e : SlateDBError)
  | EncodingError (s : string)
  | InconsistentState (s : string).

(** [postcard::to_stdvec] and [postcard::from_bytes] (a third-party crate). *)
Class Postcard (T : Type) := {
  to_stdvec : T → res string bytes;
  from_bytes : bytes → res string T;
}.
Class PostcardLaws (T : Type) `{Postcard T} := {
  postcard_round x b : to_stdvec x = Ok b → from_bytes b = Ok x;
  postcard_total x : match to_stdvec x with Ok _ | Err _ => True | _ => False end;
  postcard_parse b : match from_bytes b with Ok _ | Err _ => True | _ => False end;
}.

Record SlateDbBackedTree `{SlateDb} `{Cache (Z * Z) bytes} `{Cache (Z * Z) bool} := {
  tree_db : RateLimitedDb;
  node_cache : option (cache (Z * Z) bytes);
  tile_cache : option (cache (Z * Z) bool);
}.

(** [Tile::new] and [Tile::to_bytes] of src/src/types/tiles.rs. *)
Record Tile := { hashes : list bytes }.
Definition Tile_new {E} (hs : list bytes) : res E Tile :=
  let width := u16 (zlen hs) in
  assert_that ((0 <? width) && (width <=? 256));; mret {| hashes := hs |}.
Definition tile_to_bytes (self : Tile) : bytes := concat (hashes self).

Section Tree.
  Context `{SlateDb} `{!Cache (Z * Z) bytes} `{!Cache (Z * Z) bool}.
  Context `{Digest} `{HashableLeaf T} `{Postcard T}.
  Abbreviation M := (stM SlateDbBackedTree SlateDbTreeError).

Definition with_db (d : RateLimitedDb) (s : SlateDbBackedTree) : SlateDbBackedTree :=
  {| tree_db := d; node_cache := node_cache s; tile_cache := tile_cache s |}.

(** A call on [self.db], with [?] converting the error. *)
Definition on_db {A} (m : stM RateLimitedDb SlateDBError A) : M A :=
  λ s, let (r, d) := m (tree_db s) in (map_err DbError r, with_db d s).

Definition get (key : bytes) : M (option bytes) := on_db (rl_get key).

(** [if let Some(ref cache) = self.node_cache] with a lookup or an insert. *)
Definition node_cache_get (k : Z * Z) : M (option bytes) := λ s,
  match node_cache s with
  | Some c => let (r, c') := cache_get k c in
              (Ok r, {| tree_db := tree_db s; node_cache := Some c';
                        tile_cache := tile_cache s |})
  | None => (Ok None, s)
  end.
Definition node_cache_insert (k : Z * Z) (v : bytes) : M unit :=
  modify (λ s, {| tree_db := tree_db s; node_cache := cache_insert k v <$> node_cache s;
                  tile_cache := tile_cache s |}).
Definition tile_cache_insert (k : Z * Z) (v : bool) : M unit :=
  modify (λ s, {| tree_db := tree_db s; node_cache := node_cache s;
                  tile_cache := cache_insert k v <$> tile_cache s |}).

(** ** Metadata *)

Definition check_keys_exist (keys : list bytes) : M (list bool) :=
  mapM (λ key, v ← get key; mret (match v with Some _ => true | None => false end)) keys.

Definition get_num_leaves : M (option Z) :=
  v ← get META_KEY;
  match v with
  | Some b => num_leaves ← lift (u64_from_bytes b (EncodingError "Invalid metadata"));
              mret (Some num_leaves)
  | None => mret None
  end.

Definition set_num_leaves (num_leaves : Z) : M unit :=
  on_db (rl_put META_KEY (be_bytes 8 num_leaves)).

Definition len : M Z := n ← get_num_leaves; mret (default 0 n).

Definition get_committed_size : M Z :=
  v ← get COMMITTED_SIZE_KEY;
  match v with
  | Some b => lift (u64_from_bytes b (EncodingError "Invalid committed size"))
  | None => mret 0
  end.

Definition get_last_precomputed_size : M Z :=
  v ← get LAST_PRECOMPUTED_SIZE_KEY;
  match v with
  | Some b => lift (u64_from_bytes b (EncodingError "Invalid last precomputed size"))
  | None => mret 0
  end.

Definition get_tile (level index : Z) : M (option bytes) := get (tile_key level index).

(** [SlateDbBackedTree::new]: the sizes are initialized if there are none; the
    result is the tree, or the error. *)
Definition new_init : M unit :=
  existing_leaves ← get_num_leaves;
  match existing_leaves with
  | None => set_num_leaves 0;; on_db (rl_put COMMITTED_SIZE_KEY (be_bytes 8 0))
  | Some _ => mret tt
  end.

Definition new (db : RateLimitedDb) : res SlateDbTreeError SlateDbBackedTree :=
  let tree := {| tree_db := db; node_cache := Some cache_new; tile_cache := Some cache_new |} in
  let (r, tree') := new_init tree in
  (λ _, tree') <$> r.

(** ** Node lookups *)

(** The part of [get_node_hash_at_version] after a cache miss. *)
Definition read_node_hash (idx version : Z) : M bytes :=
  exact ← get (versioned_node_key idx version);
  match exact with
  | Some b =>
      if bool_decide (length b = output_size) then
        node_cache_insert (idx, version) b;; mret b
      else fail (EncodingError "Invalid hash size")
  | None =>
      latest ← get (node_latest_version_key idx);
      match latest with
      | Some latest_version_bytes =>
          latest_version ← lift (u64_from_bytes latest_version_bytes
                                   (EncodingError "Invalid version format"));
          if version <? latest_version then
            node_cache_insert (idx, version) default_hash;; mret default_hash
          else
            v ← get (versioned_node_key idx latest_version);
            match v with
            | Some b =>
                if bool_decide (length b = output_size) then
                  node_cache_insert (idx, version) b;; mret b
                else fail (EncodingError "Invalid hash size")
            | None =>
                fail (InconsistentState ("Node " +:+ pretty idx +:+ " has latest version " +:+
                                         pretty latest_version +:+ " but no data"))
            end
      | None => node_cache_insert (idx, version) default_hash;; mret default_hash
      end
  end.

Definition get_node_hash_at_version (idx version : Z) : M bytes :=
  entry ← node_cache_get (idx, version);
  match entry with
  | Some cached_hash =>
      if bool_decide (length cached_hash = output_size) then mret cached_hash
      else read_node_hash idx version
  | None => read_node_hash idx version
  end.

Definition get_node_hash (idx : Z) : M bytes :=
  v ← get (node_latest_version_key idx);
  match v with
  | Some version_bytes =>
      latest_version ← lift (u64_from_bytes version_bytes (EncodingError "Invalid version format"));
      get_node_hash_at_version idx latest_version
  | None => mret default_hash
  end.

(** ** Tiles *)

Definition is_tile_full_at_size (level tile_index tree_size : Z) : bool :=
  let subtree_size := pow64 256 level in
  let entries_per_tile := 256 in
  let start_position := tile_index *! entries_per_tile in
  let end_position := start_position +! entries_per_tile in
  let last_position_end := end_position *! subtree_size in
  last_position_end <=? tree_size.

(** The loop that fills [tiles_to_process]. *)
Fixpoint tiles_to_process (level total_positions last_precomputed_size : Z) (tiles : list Z) :
    list (Z * Z * Z) :=
  match tiles with
  | [] => []
  | tile_index :: rest =>
      let start_position := tile_index *! 256 in
      let end_position := Z.min (start_position +! 256) total_positions in
      if total_positions <=? start_position then []
      else
        let tile_size := end_position -! start_position in
        if tile_size <? 256 then tiles_to_process level total_positions last_precomputed_size rest
        else if is_tile_full_at_size level tile_index last_precomputed_size
        then tiles_to_process level total_positions last_precomputed_size rest
        else (tile_index, start_position, end_position)
               :: tiles_to_process level total_positions last_precomputed_size rest
  end.

(** The roots of the subtrees at the positions of a tile. *)
Fixpoint tile_roots (subtree_size tree_size : Z) (positions : list Z) :
    res SlateDbTreeError (list Z) :=
  match positions with
  | [] => Ok []
  | position :: rest =>
      let start_leaf := position *! subtree_size in
      if tree_size <=? start_leaf then Ok []
      else
        let end_leaf := Z.min (start_leaf +! subtree_size) tree_size in
        subtree_root_idx ← compute_subtree_root 64 start_leaf end_leaf;
        roots ← tile_roots subtree_size tree_size rest;
        mret (subtree_root_idx :: roots)
  end.

(** The second pass: hashes computed in the batch, or the next of those
    fetched, in order. *)
Definition tile_next (computed_hashes : gmap Z bytes) (i : Z) (fetched : list bytes) :
    res SlateDbTreeError (bytes * list bytes) :=
  match computed_hashes !! i, fetched with
  | Some hash, _ => Ok (hash, fetched)
  | None, hash :: fetched' => Ok (hash, fetched')
  | None, [] => Panic
  end.

Fixpoint tile_hashes (computed_hashes : gmap Z bytes) (roots : list Z) (fetched : list bytes) :
    res SlateDbTreeError (list bytes) :=
  match roots with
  | [] => Ok []
  | i :: rest =>
      '(hash, fetched') ← tile_next computed_hashes i fetched;
      assert_that (bool_decide (length hash = 32%nat));;
      hs ← tile_hashes computed_hashes rest fetched';
      mret (hash :: hs)
  end.

(** One iteration of the loop over [tiles_to_process]: the puts it adds. *)
Definition precompute_tile (level subtree_size tree_size : Z) (computed_hashes : gmap Z bytes)
    (t : Z * Z * Z) : M WriteBatch :=
  let '(tile_index, start_position, end_position) := t in
  existing ← get (tile_key level tile_index);
  match existing with
  | Some _ => tile_cache_insert (level, tile_index) true;; mret []
  | None =>
      roots ← lift (tile_roots subtree_size tree_size (zrange start_position end_position));
      fetched ← mapM (λ i, get_node_hash_at_version i tree_size)
                  (filter (λ i, computed_hashes !! i = None) roots);
      hs ← lift (tile_hashes computed_hashes roots fetched);
      if bool_decide (length hs = 256%nat) then
        let all_children_full :=
          if level =? 0 then true
          else is_tile_full_at_size (level - 1) (((tile_index +! 1) *! 256) -! 1) tree_size in
        if all_children_full : bool then
          tile ← lift (Tile_new hs);
          tile_cache_insert (level, tile_index) true;;
          mret [(tile_key level tile_index, tile_to_bytes tile)]
        else mret []
      else mret []
  end.

(** One iteration of the loop over the levels. *)
Definition precompute_level (starting_index tree_size last_precomputed_size : Z)
    (computed_hashes : gmap Z bytes) (level : Z) : M WriteBatch :=
  let subtree_size := pow64 256 level in
  let full_subtrees := tree_size / subtree_size in
  let has_partial := 0 <? tree_size mod subtree_size in
  let total_positions := full_subtrees +! (if has_partial then 1 else 0) in
  let first_new_position := starting_index / subtree_size in
  let last_new_position := if 0 <? tree_size then (tree_size -! 1) / subtree_size else 0 in
  let first_affected_tile := first_new_position / 256 in
  let last_affected_tile := last_new_position / 256 in
  puts ← mapM (precompute_tile level subtree_size tree_size computed_hashes)
           (tiles_to_process level total_positions last_precomputed_size
              (zrange first_affected_tile (last_affected_tile + 1)));
  mret (concat puts).

Definition precompute_tiles_batch (starting_index tree_size : Z) (computed_hashes : gmap Z bytes) :
    M WriteBatch :=
  last_precomputed_size ← get_last_precomputed_size;
  puts ← mapM (precompute_level starting_index tree_size last_precomputed_size computed_hashes)
           [0; 1; 2; 3; 4; 5];
  mret (concat puts ++ [(LAST_PRECOMPUTED_SIZE_KEY, be_bytes 8 tree_size)]).

(** ** Appending *)

(** The siblings on the way from a new leaf that exist in the original tree. *)
Fixpoint prefetch_loop (fuel : nat) (starting_index size root cur_idx : Z) (acc : gset Z) :
    res SlateDbTreeError (gset Z) :=
  if cur_idx =? root then Ok acc
  else
    match fuel with
    | O => Fuel
    | S f =>
        sibling_idx ← sibling cur_idx size;
        let acc' := if sibling_idx <? starting_index *! 2 then {[ sibling_idx ]} ∪ acc else acc in
        parent_idx ← parent cur_idx size;
        prefetch_loop f starting_index size root parent_idx acc'
    end.

Fixpoint nodes_to_prefetch (starting_index : Z) (positions : list Z) (acc : gset Z) :
    res SlateDbTreeError (gset Z) :=
  match positions with
  | [] => Ok acc
  | i :: rest =>
      let leaf_position := starting_index +! i in
      new_leaf_idx ← LeafIdx_new leaf_position;
      let size := leaf_position +! 1 in
      acc' ← prefetch_loop 64 starting_index size (root_idx size)
               (InternalIdx_from new_leaf_idx) acc;
      nodes_to_prefetch starting_index rest acc'
  end.

(** The climb from a new leaf to the root of the tree of [new_num_leaves]. *)
Fixpoint climb (fuel : nat) (starting_index current_num_leaves new_num_leaves : Z)
    (prefetched_nodes : gmap Z bytes) (cur_idx : Z) (cur_hash : bytes)
    (computed_hashes : gmap Z bytes) : M (gmap Z bytes) :=
  if cur_idx =? root_idx new_num_leaves then mret computed_hashes
  else
    match fuel with
    | O => lift Fuel
    | S f =>
        parent_idx ← lift (parent cur_idx new_num_leaves);
        sibling_idx ← lift (sibling cur_idx new_num_leaves);
        sibling_hash ←
          match computed_hashes !! sibling_idx with
          | Some hash => mret hash
          | None =>
              if current_num_leaves *! 2 <=? sibling_idx then mret default_hash
              else
                match prefetched_nodes !! sibling_idx with
                | Some hash => mret hash
                | None => get_node_hash_at_version sibling_idx starting_index
                end
          end;
        is_l ← lift (is_left cur_idx new_num_leaves);
        let parent_h := if is_l : bool then parent_hash cur_hash sibling_hash
                        else parent_hash sibling_hash cur_hash in
        climb f starting_index current_num_leaves new_num_leaves prefetched_nodes
          parent_idx parent_h (<[parent_idx := parent_h]> computed_hashes)
    end.

(** The loop over the items: the puts of the leaves, the hashes computed and
    the final number of leaves. *)
Fixpoint push_items (starting_index : Z) (prefetched_nodes : gmap Z bytes) (items : list T)
    (batch : WriteBatch) (current_num_leaves : Z) (computed_hashes : gmap Z bytes) :
    M (WriteBatch * Z * gmap Z bytes) :=
  match items with
  | [] => mret (batch, current_num_leaves, computed_hashes)
  | item :: rest =>
      leaf_bytes ← lift (map_err EncodingError (to_stdvec item));
      let batch' := batch ++ [(leaf_key current_num_leaves, leaf_bytes)] in
      new_leaf_idx ← lift (LeafIdx_new current_num_leaves);
      let new_num_leaves := current_num_leaves +! 1 in
      let cur_idx := InternalIdx_from new_leaf_idx in
      let h := leaf_hash item in
      computed_hashes' ← climb 64 starting_index current_num_leaves new_num_leaves
                           prefetched_nodes cur_idx h (<[cur_idx := h]> computed_hashes);
      push_items starting_index prefetched_nodes rest batch' new_num_leaves computed_hashes'
  end.

Definition versioned_nodes (computed_hashes : gmap Z bytes) (final_tree_size : Z) : WriteBatch :=
  concat (map (λ '(node_idx, node_hash),
                 [(versioned_node_key node_idx final_tree_size, node_hash);
                  (node_latest_version_key node_idx, be_bytes 8 final_tree_size)])
              (bt_iter computed_hashes)).

Definition prefetch_nodes (X : gset Z) : M (gmap Z bytes) :=
  results ← mapM get_node_hash (bt_set_iter X);
  mret (list_to_map (zip (bt_set_iter X) results)).

Definition batch_push_with_data (items : list T) (additional_data : list (bytes * bytes)) : M Z :=
  starting_index ← len;
  if bool_decide (items = []) && bool_decide (additional_data = []) then mret starting_index
  else
    to_prefetch ← lift (nodes_to_prefetch starting_index (zrange 0 (zlen items)) ∅);
    prefetched_nodes ← prefetch_nodes to_prefetch;
    '(batch, final_tree_size, computed_hashes) ←
      push_items starting_index prefetched_nodes items [] starting_index ∅;
    let batch := batch ++ versioned_nodes computed_hashes final_tree_size
                   ++ [(META_KEY, be_bytes 8 final_tree_size);
                       (COMMITTED_SIZE_KEY, be_bytes 8 final_tree_size)]
                   ++ additional_data in
    tiles ← precompute_tiles_batch starting_index final_tree_size computed_hashes;
    on_db (rl_write_batch (batch ++ tiles));;
    mret starting_index.

(** ** Roots and proofs *)

Definition exceeds (what : string) (size current : Z) : SlateDbTreeError :=
  InconsistentState (what +:+ pretty size +:+ " exceeds current committed tree size " +:+
                     pretty current).
Definition not_boundary (what : string) (size : Z) : SlateDbTreeError :=
  InconsistentState (what +:+ pretty size +:+ " is not a published STH boundary").

Definition root_at_size (tree_size : Z) : M RootHash :=
  if tree_size =? 0 then mret (RootHash_new (digest []) 0)
  else
    current_size ← get_committed_size;
    if current_size <? tree_size then fail (exceeds "Requested tree size " tree_size current_size)
    else
      let root_idx := root_idx tree_size in
      v ← get (versioned_node_key root_idx tree_size);
      match v with
      | None => fail (not_boundary "Tree size " tree_size)
      | Some _ =>
          root_hash ← get_node_hash_at_version root_idx tree_size;
          mret (RootHash_new root_hash tree_size)
      end.

Definition prove_inclusion_at_size (idx tree_size : Z) : M InclusionProof :=
  current_leaves ← get_committed_size;
  if current_leaves <? tree_size then
    fail (exceeds "Requested tree size " tree_size current_leaves)
  else if tree_size <=? idx then
    fail (InconsistentState ("Index " +:+ pretty idx +:+ " out of bounds for requested tree size "
                             +:+ pretty tree_size))
  else
    v ← get (versioned_node_key (root_idx tree_size) tree_size);
    match v with
    | Some _ =>
        idxs ← lift (indices_for_inclusion_proof tree_size idx);
        sibling_hashes ← mapM (λ i, get_node_hash_at_version i tree_size) idxs;
        mret (from_digests sibling_hashes)
    | None => fail (not_boundary "Tree size " tree_size)
    end.

Definition prove_consistency_between (old_size new_size : Z) : M ConsistencyProof :=
  if old_size =? 0 then
    fail (InconsistentState "Cannot create consistency proof from empty tree")
  else if new_size <? old_size then
    fail (InconsistentState ("Old size " +:+ pretty old_size +:+
                             " must be less than or equal to new size " +:+ pretty new_size))
  else if old_size =? new_size then mret (consistency_from_digests [])
  else
    current_size ← get_committed_size;
    if current_size <? new_size then fail (exceeds "New size " new_size current_size)
    else
      old_exists ← get (versioned_node_key (root_idx old_size) old_size);
      new_exists ← get (versioned_node_key (root_idx new_size) new_size);
      match old_exists, new_exists with
      | Some _, Some _ =>
          idxs ← lift (indices_for_consistency_proof old_size (new_size -! old_size));
          proof_hashes ← mapM (λ i, get_node_hash_at_version i new_size) idxs;
          mret (consistency_from_digests proof_hashes)
      | None, _ => fail (not_boundary "Old tree size " old_size)
      | _, None => fail (not_boundary "New tree size " new_size)
      end.

End Tree.
