(* ===== verification/Instances.v ===== *)
(** * Concrete instances of the parameters

    A digest, an in-memory store, unbounded caches and a serialization, for
    evaluating the definitions on concrete inputs.  Every interface the
    theorems assume is inhabited here together with its laws. *)

From S2P Require Import Prelude Rfc6962 KvStore TreeStore.

(** A 32-byte polynomial digest. *)
Definition toy_digest (x : bytes) : bytes :=
  be_bytes 32 ((1 + 2 ^ 192) * fold_left (λ acc b, (acc * 65599 + b + 1) mod (2 ^ 61 - 1)) x 7).

Lemma toy_digest_length x : length (toy_digest x) = 32%nat.
Proof. apply length_be_bytes. Qed.

#[export] Instance toy_Digest : Digest :=
  {| output_size := 32; digest := toy_digest; digest_length := toy_digest_length;
     output_size_pos := ltac:(lia) |}.

#[export] Instance bytes_leaf : HashableLeaf bytes := λ b, b.

(** The store is a finite map; no operation fails. *)
#[export] Instance mem_SlateDb : SlateDb :=
  {| Db := gmap bytes bytes; SlateDBError := string;
     db_get := λ k d, (Ok (d !! k), d);
     db_put := λ k v d, (Ok tt, <[k := v]> d);
     db_write_with_options := λ b d, (Ok tt, apply_batch b d);
     db_flush := λ d, (Ok tt, d) |}.

#[export, refine] Instance mem_SlateDbLaws : SlateDbLaws := {| db_view := λ d, d |}.
Proof. all: done. Defined.

(** Caches that never evict. *)
#[export] Instance map_Cache K V `{Countable K} : Cache K V :=
  {| cache := gmap K V; cache_new := ∅;
     cache_get := λ k c, (c !! k, c); cache_insert := λ k v c, <[k := v]> c |}.

#[export, refine] Instance map_CacheLaws K V `{Countable K} :
    @CacheLaws K V _ _ (map_Cache K V) :=
  @Build_CacheLaws K V _ _ (map_Cache K V) (λ c, c) _ _ _.
Proof.
  - done.
  - intros k c. cbn in *. split; [done|]. by destruct (c !! k) eqn:E.
  - done.
Defined.

(** Byte strings serialized with a four-byte length. *)
#[export] Instance bytes_Postcard : Postcard bytes :=
  {| to_stdvec := λ b, Ok b; from_bytes := λ b, Ok b |}.

#[export, refine] Instance bytes_PostcardLaws : PostcardLaws bytes := Build_PostcardLaws bytes _ _ _ _.
Proof. all: naive_solver. Defined.

Definition mem_tree : SlateDbBackedTree :=
  {| tree_db := RateLimitedDb_new ∅; node_cache := Some ∅; tile_cache := Some ∅ |}.
Definition run_st {S E A} (m : stM S E A) (s : S) : S := (m s).2.
