(* ===== verification/TreeInv.v ===== *)
(** * What the stored tree means

    The invariant that ties the contents of the store to the list [D] of the
    leaves appended so far and to the set [B] of the tree sizes reached at the
    end of a batch (the published boundaries): which versioned nodes, latest
    version pointers, sizes and tiles are present, and with which values.  The
    lookups of [SlateDbBackedTree] are proved against it. *)

From S2P Require Import Prelude TreeMath Rfc6962 Inclusion Consistency KvStore TreeStore.

(** ** Keys *)

(** The keys the tree writes. *)
Inductive tkey :=
  | KLeaf (i : Z)
  | KMeta
  | KNode (i v : Z)
  | KCommitted
  | KLatest (i : Z)
  | KTile (level i : Z)
  | KLast.

Definition enc (k : tkey) : bytes :=
  match k with
  | KLeaf i => leaf_key i
  | KMeta => META_KEY
  | KNode i v => versioned_node_key i v
  | KCommitted => COMMITTED_SIZE_KEY
  | KLatest i => node_latest_version_key i
  | KTile l i => tile_key l i
  | KLast => LAST_PRECOMPUTED_SIZE_KEY
  end.

Definition is_u64 (x : Z) : Prop := 0 ≤ x < 2 ^ 64.
Definition tkey_ok (k : tkey) : Prop :=
  match k with
  | KLeaf i | KLatest i | KTile _ i => is_u64 i
  | KNode i v => is_u64 i ∧ is_u64 v
  | _ => True
  end.

(** A byte string that could be taken for a key of the tree. *)
Definition has_prefix (p k : bytes) : bool := bool_decide (take (length p) k = p).
Definition tree_key (k : bytes) : bool :=
  existsb (λ p, has_prefix p k)
    [LEAF_PREFIX; META_KEY; VERSIONED_NODE_PREFIX; COMMITTED_SIZE_KEY;
     NODE_LATEST_VERSION_PREFIX; TILE_PREFIX; LAST_PRECOMPUTED_SIZE_KEY].

Lemma be_8_inj x y : is_u64 x → is_u64 y → be_bytes 8 x = be_bytes 8 y → x = y.
Proof.
  unfold is_u64. intros Hx Hy. apply (be_bytes_inj 8);
    by change (256 ^ Z.of_nat 8) with (2 ^ 64).
Qed.

Lemma enc_inj k k' : tkey_ok k → tkey_ok k' → enc k = enc k' → k = k'.
Proof.
  destruct k, k'; intros H1 H2 He; try done; cbn [enc tkey_ok] in *.
  - apply app_inv_head in He. f_equal. by apply be_8_inj.
  - apply app_inv_head in He. destruct H1, H2.
    apply app_inj_1 in He as [Hi He]; [|by rewrite !length_be_bytes].
    apply app_inv_head in He. f_equal; by apply be_8_inj.
  - apply app_inv_head in He. f_equal. by apply be_8_inj.
  - apply app_inv_head, app_inj_1 in He as [[= ->] He]; [|done].
    apply app_inv_head in He. f_equal. by apply be_8_inj.
Qed.

Lemma tree_key_enc k : tree_key (enc k) = true.
Proof. by destruct k. Qed.

Lemma not_tree_key k t : tree_key k = false → enc t ≠ k.
Proof. intros Hk <-. by rewrite tree_key_enc in Hk. Qed.

(** ** The invariant *)

Section Inv.
  Context `{SlateDb} `{!Cache (Z * Z) bytes} `{!Cache (Z * Z) bool}.
  Context `{!SlateDbLaws} `{!CacheLaws (Z * Z) bytes} `{!CacheLaws (Z * Z) bool}.
  Context `{Digest} `{HashableLeaf T} `{Postcard T}.
  Implicit Types (D : list T) (B : gset Z) (m : gmap bytes bytes).

(** One past the last leaf under a node once it is complete. *)
Definition top (i : Z) : Z := lo i + 2 ^ level i.

(** A size stored as eight bytes; absent stands for 0. *)
Definition size_at m (k : tkey) (n : Z) : Prop :=
  match m !! enc k with
  | Some b => b = be_bytes 8 n
  | None => n = 0
  end.

(** The hashes of the complete tile [index] of [level]. *)
Definition tile_width (level : Z) : Z := 256 ^ level.
Definition tile_bytes D (level index : Z) : bytes :=
  concat (map (λ p, mth (zslice (p * tile_width level) ((p + 1) * tile_width level) D))
              (zrange (index * 256) (index * 256 + 256))).
Definition tile_full (n level index : Z) : Prop := (index + 1) * 256 * tile_width level ≤ n.
#[global] Instance tile_full_dec n level index : Decision (tile_full n level index).
Proof. unfold tile_full. apply _. Defined.

Record tree_inv m D B : Prop := {
  ti_size : zlen D ≤ 2 ^ 63;
  ti_meta : size_at m KMeta (zlen D);
  ti_committed : size_at m KCommitted (zlen D);
  ti_last : size_at m KLast (zlen D);
  ti_bound v : v ∈ B → 0 < v ≤ zlen D;
  ti_top : 0 < zlen D → zlen D ∈ B;
  ti_leaf i x : D !! Z.to_nat i = Some x → 0 ≤ i →
    ∃ b, to_stdvec x = Ok b ∧ m !! enc (KLeaf i) = Some b;
  ti_node i v h : is_u64 i → is_u64 v → m !! enc (KNode i v) = Some h →
    v ∈ B ∧ valid v i ∧ h = subtree_hash D v i;
  ti_last_leaf i v : v ∈ B → valid v i → hi v i = v →
    m !! enc (KNode i v) = Some (subtree_hash D v i);
  ti_latest i : is_u64 i →
    match m !! enc (KLatest i) with
    | Some b => ∃ l, b = be_bytes 8 l ∧ l ∈ B ∧ valid (zlen D) i ∧ hi l i = hi (zlen D) i ∧
        m !! enc (KNode i l) = Some (subtree_hash D (zlen D) i) ∧ ∀ v, v ∈ B → top i ≤ v → l ≤ v
    | None => ¬ valid (zlen D) i
    end;
  ti_tile l i : 0 ≤ l ≤ 5 → is_u64 i →
    (tile_full (zlen D) l i → m !! enc (KTile l i) = Some (tile_bytes D l i)) ∧
    (¬ tile_full (zlen D) l i → m !! enc (KTile l i) = None);
}.

(** What a cached hash may be: right for the boundaries, and right for a
    size still to come only if the node is already complete. *)
Definition cached_ok D B (i v : Z) (h : bytes) : Prop :=
  (v ∈ B → valid v i → h = subtree_hash D v i) ∧
  (zlen D < v → 0 ≤ i ∧ top i ≤ zlen D ∧ h = subtree_hash D (zlen D) i).
Definition cache_inv (s : SlateDbBackedTree) D B : Prop :=
  ∀ c, node_cache s = Some c → map_Forall (λ k h, cached_ok D B k.1 k.2 h) (cache_view c).

Definition view (s : SlateDbBackedTree) : gmap bytes bytes := rl_view (tree_db s).
Definition inv (s : SlateDbBackedTree) D B : Prop :=
  tree_inv (view s) D B ∧ cache_inv s D B.

(** ** Arithmetic of versions *)

Lemma hi_top n i : hi n i = Z.min n (top i).
Proof. done. Qed.

Lemma subtree_hash_top D n n' i : top i ≤ n → top i ≤ n' → subtree_hash D n i = subtree_hash D n' i.
Proof. intros. unfold subtree_hash. rewrite !hi_top. by do 2 f_equal; lia. Qed.

Lemma subtree_hash_hi D n n' i : hi n i = hi n' i → subtree_hash D n i = subtree_hash D n' i.
Proof. intros Hhi. unfold subtree_hash. by rewrite Hhi. Qed.

Lemma subtree_hash_app D D' n i : 0 ≤ i → n ≤ zlen D →
  subtree_hash (D ++ D') n i = subtree_hash D n i.
Proof.
  intros Hi Hn. unfold subtree_hash. rewrite zslice_app_l; [done|by apply valid_lo_nonneg|].
  rewrite hi_top. lia.
Qed.

Lemma valid_top n i : 0 ≤ i → top i ≤ n → valid n i.
Proof.
  intros Hi Ht. destruct (node_surj i Hi) as (k & j & Hj & ->). apply valid_complete; [done|].
  unfold top in Ht. rewrite lo_node, level_node, <- pow2_level in Ht by done. lia.
Qed.

Lemma valid_u64 n i : size_ok n → valid n i → is_u64 i.
Proof. intros Hn Hv. pose proof (valid_lt_64 n i Hn Hv). unfold is_u64. lia. Qed.

Lemma bound_size_ok m D B v : tree_inv m D B → v ∈ B → size_ok v.
Proof. intros Hi Hv. pose proof (ti_bound _ _ _ Hi v Hv). pose proof (ti_size _ _ _ Hi). unfold size_ok. lia. Qed.

Lemma bound_u64 m D B v : tree_inv m D B → v ∈ B → is_u64 v.
Proof. intros Hi Hv. pose proof (bound_size_ok _ _ _ _ Hi Hv). unfold size_ok, is_u64 in *. lia. Qed.

(** ** Reads *)

(** A read leaves the store as it is and the cache in order; it can only fail
    with an error of the database. *)
Definition keeps m D B (s : SlateDbBackedTree) : Prop := view s = m ∧ cache_inv s D B.
Definition db_failure m D B (e : SlateDbTreeError) (s : SlateDbBackedTree) : Prop :=
  (∃ d, e = DbError d) ∧ keeps m D B s.

Lemma spec_on_db {A} (c : stM RateLimitedDb SlateDBError A) s (Q : A → SlateDbBackedTree → Prop)
    (R : SlateDbTreeError → SlateDbBackedTree → Prop) :
  spec c (tree_db s) (λ a d, Q a (with_db d s)) (λ e d, R (DbError e) (with_db d s)) →
  spec (on_db c) s Q R.
Proof. unfold spec, on_db. by destruct (c (tree_db s)) as [[]]. Qed.

Lemma get_spec m D B k s :
  keeps m D B s →
  spec (get k) s (λ v s', v = m !! k ∧ keeps m D B s') (db_failure m D B).
Proof.
  intros [Hm Hc]. apply spec_on_db. eapply spec_mono; [apply rl_get_spec|..]; cbn.
  - intros v d [-> Hd]. unfold view in Hm. rewrite <- Hm. split; [done|]. by split.
  - intros e d Hd. split; [by eexists|]. unfold view in Hm. rewrite <- Hm. by split.
Qed.

Lemma get_size_spec m D B k n (e : SlateDbTreeError) s :
  is_u64 n → size_at m k n → keeps m D B s →
  spec (v ← get (enc k);
        match v with Some b => lift (u64_from_bytes b e) | None => mret 0 end) s
    (λ r s', r = n ∧ keeps m D B s') (db_failure m D B).
Proof.
  intros Hn Hs Hk. apply spec_bind. eapply spec_mono; [by apply get_spec| |done].
  intros v s' [-> Hk']. unfold size_at in Hs. destruct (m !! enc k) as [b|].
  - subst b. by eapply spec_lift_ok; [apply u64_from_be|].
  - subst n. by apply spec_ret.
Qed.

Lemma zlen_u64 m D B : tree_inv m D B → is_u64 (zlen D).
Proof. intros Hi. pose proof (ti_size _ _ _ Hi). unfold is_u64. lia. Qed.

Lemma get_committed_size_spec m D B s :
  tree_inv m D B → keeps m D B s →
  spec get_committed_size s (λ r s', r = zlen D ∧ keeps m D B s') (db_failure m D B).
Proof.
  intros Hi. apply (get_size_spec m D B KCommitted); [by eapply zlen_u64|apply Hi].
Qed.

Lemma get_last_precomputed_size_spec m D B s :
  tree_inv m D B → keeps m D B s →
  spec get_last_precomputed_size s (λ r s', r = zlen D ∧ keeps m D B s') (db_failure m D B).
Proof. intros Hi. apply (get_size_spec m D B KLast); [by eapply zlen_u64|apply Hi]. Qed.

Lemma len_spec m D B s :
  tree_inv m D B → keeps m D B s →
  spec len s (λ r s', r = zlen D ∧ keeps m D B s') (db_failure m D B).
Proof.
  intros Hi Hk. unfold len, get_num_leaves. apply spec_bind, spec_bind.
  eapply spec_mono; [by apply get_spec| |done]. intros v s' [-> Hk'].
  pose proof (ti_meta _ _ _ Hi) as Hs. unfold size_at in Hs. cbn [enc] in Hs.
  destruct (m !! META_KEY) as [b|].
  - subst b. apply spec_bind. eapply spec_lift_ok; [by apply u64_from_be, (zlen_u64 m D B)|].
    by apply spec_ret, spec_ret.
  - by apply spec_ret, spec_ret.
Qed.

(** ** Node lookups *)

(** The hash that a lookup of node [i] at version [v] must return, where it
    is determined: at a boundary, or for a node complete by now. *)
Definition lookup_ok D B (i v : Z) (h : bytes) : Prop :=
  (v ∈ B → valid v i → h = subtree_hash D v i) ∧
  (zlen D < v → h = subtree_hash D (zlen D) i).

(** The versions that may be asked for. *)
Definition lookup_pre D (i v : Z) : Prop :=
  is_u64 i ∧ is_u64 v ∧ (v ≤ zlen D ∨ top i ≤ zlen D).

Lemma lookup_ok_cached D B i v h :
  lookup_pre D i v → lookup_ok D B i v h → cached_ok D B i v h.
Proof. unfold lookup_pre, lookup_ok, cached_ok, is_u64. intros (? & _ & Hv) [Ha Hb]. split; [done|]. naive_solver lia. Qed.

Lemma node_cache_get_spec m D B k s :
  keeps m D B s →
  spec (node_cache_get k) s
    (λ r s', (∀ h, r = Some h → cached_ok D B k.1 k.2 h) ∧ keeps m D B s') (db_failure m D B).
Proof.
  intros [Hm Hc]. unfold spec, node_cache_get. destruct (node_cache s) as [c|] eqn:Hs; last first.
  { split; [done|]. split; [done|]. unfold cache_inv in *. by rewrite Hs. }
  pose proof (cache_get_law k c) as [Hsub Hget].
  destruct (cache_get k c) as [r c'] eqn:Heq. cbn [fst snd] in *.
  specialize (Hc c Hs). split.
  - intros h ->. by apply (Hc k h).
  - split; [done|]. intros c0 [= <-]. by eapply map_Forall_sub.
Qed.

Lemma node_cache_insert_spec m D B i v h s :
  cached_ok D B i v h → keeps m D B s →
  spec (node_cache_insert (i, v) h) s (λ _ s', keeps m D B s') (db_failure m D B).
Proof.
  intros Hh [Hm Hc]. apply spec_modify. split; [done|]. intros c. cbn [node_cache].
  destruct (node_cache s) as [c0|] eqn:Hs; [|done]. intros [= <-].
  eapply map_Forall_sub; [apply cache_insert_law|].
  apply map_Forall_insert_2; [done|]. by apply Hc.
Qed.

(** The hash found, or the default, is the right one; it is cached. *)
Lemma cache_and_return m D B i v h s :
  lookup_pre D i v → lookup_ok D B i v h → keeps m D B s →
  spec (node_cache_insert (i, v) h;; mret h) s
    (λ r s', lookup_ok D B i v r ∧ keeps m D B s') (db_failure m D B).
Proof.
  intros Hp Hh Hk. apply spec_bind. eapply spec_mono;
    [by apply node_cache_insert_spec; [apply lookup_ok_cached|]| |done].
  intros ? s' ?. by apply spec_ret.
Qed.

Section Lookup.
  Context (m : gmap bytes bytes) (D : list T) (B : gset Z) (Hinv : tree_inv m D B).

Lemma exact_ok i v h :
  lookup_pre D i v → m !! enc (KNode i v) = Some h →
  length h = output_size ∧ lookup_ok D B i v h.
Proof.
  intros (Hi & Hv & _) Hh. destruct (ti_node _ _ _ Hinv i v h Hi Hv Hh) as (HB & Hval & ->).
  split; [apply subtree_hash_length|]. split; [done|].
  intros Hlt. pose proof (ti_bound _ _ _ Hinv v HB). lia.
Qed.

(** A boundary at which the node was not written with the batch had it
    complete. *)
Lemma absent_complete i v :
  v ∈ B → valid v i → m !! enc (KNode i v) = None → top i < v.
Proof.
  intros HB Hv Hno. destruct (decide (hi v i = v)) as [Heq|Hne].
  - by rewrite (ti_last_leaf _ _ _ Hinv i v HB Hv Heq) in Hno.
  - rewrite hi_top in Hne. lia.
Qed.

Lemma latest_ok i v b l h :
  lookup_pre D i v → m !! enc (KNode i v) = None →
  m !! enc (KLatest i) = Some b → b = be_bytes 8 l → is_u64 l → l ≤ v →
  m !! enc (KNode i l) = Some h → lookup_ok D B i v h.
Proof.
  intros (Hi & Hu & Hv) Hno Hb -> Hl Hlv Hh. pose proof (ti_latest _ _ _ Hinv i Hi) as Hlat.
  rewrite Hb in Hlat. destruct Hlat as (l' & Heq & HB & Hval & Hhi & Hnode & _).
  apply be_8_inj in Heq as <-; [|done|by eapply bound_u64].
  rewrite Hnode in Hh. injection Hh as <-. split; [|done].
  intros HvB Hvv. pose proof (absent_complete i v HvB Hvv Hno).
  pose proof (ti_bound _ _ _ Hinv v HvB). apply subtree_hash_top; lia.
Qed.

(** The default hash stands for nodes that the version does not have. *)
Lemma default_ok i v :
  lookup_pre D i v → m !! enc (KNode i v) = None →
  (∀ b, m !! enc (KLatest i) = Some b → ∃ l, b = be_bytes 8 l ∧ is_u64 l ∧ v < l) →
  lookup_ok D B i v default_hash.
Proof.
  intros (Hi & Hu & Hv) Hno Hb. pose proof (ti_latest _ _ _ Hinv i Hi) as Hlat.
  destruct (m !! enc (KLatest i)) as [b|].
  - destruct (Hb b eq_refl) as (l & -> & Hl & Hlt).
    destruct Hlat as (l' & Heq & HB & Hval & Hhi & Hnode & Hmin).
    apply be_8_inj in Heq as <-; [|done|by eapply bound_u64].
    pose proof (ti_bound _ _ _ Hinv l HB). split; [|lia].
    intros HvB Hvv. pose proof (absent_complete i v HvB Hvv Hno).
    pose proof (Hmin v HvB ltac:(lia)). lia.
  - split.
    + intros HvB Hvv. destruct Hlat. pose proof (absent_complete i v HvB Hvv Hno).
      pose proof (ti_bound _ _ _ Hinv v HvB). apply valid_top; [apply Hi|lia].
    + intros Hlt. destruct Hlat. apply valid_top; [apply Hi|lia].
Qed.

Lemma read_node_hash_spec i v s :
  lookup_pre D i v → keeps m D B s →
  spec (read_node_hash i v) s (λ r s', lookup_ok D B i v r ∧ keeps m D B s') (db_failure m D B).
Proof.
  intros Hp Hk. unfold read_node_hash. apply spec_bind.
  eapply spec_mono; [by apply get_spec| |done]. intros r s1 [-> Hk1].
  change (versioned_node_key i v) with (enc (KNode i v)).
  destruct (m !! enc (KNode i v)) as [h|] eqn:Hno.
  { destruct (exact_ok i v h Hp Hno). rewrite bool_decide_eq_true_2 by done.
    by apply cache_and_return. }
  apply spec_bind. eapply spec_mono; [by apply get_spec| |done]. intros r s2 [-> Hk2].
  change (node_latest_version_key i) with (enc (KLatest i)).
  pose proof Hp as (Hi & Hv & _).
  destruct (m !! enc (KLatest i)) as [b|] eqn:Hb; last first.
  { apply cache_and_return; [done|apply default_ok; [done|done|by rewrite Hb]|done]. }
  pose proof (ti_latest _ _ _ Hinv i Hi) as Hlat. rewrite Hb in Hlat.
  destruct Hlat as (l & Heq & HB & _ & _ & Hnode & _). pose proof (bound_u64 _ _ _ _ Hinv HB) as Hl.
  rewrite Heq. apply spec_bind. eapply spec_lift_ok; [by apply u64_from_be|].
  destruct (Z.ltb_spec v l).
  { apply cache_and_return; [done|apply default_ok; [done|done|naive_solver]|done]. }
  apply spec_bind. eapply spec_mono; [by apply get_spec| |done]. intros r s3 [-> Hk3].
  change (versioned_node_key i l) with (enc (KNode i l)). rewrite Hnode.
  rewrite bool_decide_eq_true_2 by apply subtree_hash_length.
  apply cache_and_return; [done| |done]. by eapply latest_ok.
Qed.

Lemma get_node_hash_at_version_spec i v s :
  lookup_pre D i v → keeps m D B s →
  spec (get_node_hash_at_version i v) s (λ r s', lookup_ok D B i v r ∧ keeps m D B s')
    (db_failure m D B).
Proof.
  intros Hp Hk. unfold get_node_hash_at_version. apply spec_bind.
  eapply spec_mono; [by apply node_cache_get_spec| |done]. intros [h|] s1 [Hh Hk1];
    [|by apply read_node_hash_spec].
  case_bool_decide; [|by apply read_node_hash_spec]. apply spec_ret. split; [|done].
  destruct (Hh h eq_refl) as [H1' H2']. split; [done|]. naive_solver.
Qed.

(** The latest hash of a node of the current tree. *)
Lemma get_node_hash_spec i s :
  is_u64 i → valid (zlen D) i → keeps m D B s →
  spec (get_node_hash i) s (λ r s', r = subtree_hash D (zlen D) i ∧ keeps m D B s')
    (db_failure m D B).
Proof.
  intros Hi Hv Hk. unfold get_node_hash. apply spec_bind.
  eapply spec_mono; [by apply get_spec| |done]. intros r s1 [-> Hk1].
  change (node_latest_version_key i) with (enc (KLatest i)).
  pose proof (ti_latest _ _ _ Hinv i Hi) as Hlat. destruct (m !! enc (KLatest i)) as [b|]; [|done].
  destruct Hlat as (l & -> & HB & _ & Hhi & Hnode & _). pose proof (bound_u64 _ _ _ _ Hinv HB) as Hl.
  destruct (ti_node _ _ _ Hinv _ _ _ Hi Hl Hnode) as (_ & Hvl & _).
  pose proof (ti_bound _ _ _ Hinv l HB).
  apply spec_bind. eapply spec_lift_ok; [by apply u64_from_be|].
  eapply spec_mono; [apply get_node_hash_at_version_spec; [|done]| |done].
  - split; [done|]. split; [done|]. lia.
  - intros r s' [[Hr _] ?]. split; [|done]. rewrite Hr by done. by apply subtree_hash_hi.
Qed.

End Lookup.

End Inv.
