(* ===== verification/TreeReads.v ===== *)
(** * Roots and proofs served from the stored tree

    Under the invariant of [TreeInv], [root_at_size],
    [prove_inclusion_at_size] and [prove_consistency_between] answer for
    exactly the published boundaries, with the roots and proofs of RFC 6962
    for the leaves appended so far, and the proofs verify. *)

From S2P Require Import Prelude TreeMath Rfc6962 Inclusion Consistency KvStore TreeStore TreeInv.

Section Reads.
  Context `{SlateDb} `{!Cache (Z * Z) bytes} `{!Cache (Z * Z) bool}.
  Context `{!SlateDbLaws} `{!CacheLaws (Z * Z) bytes} `{!CacheLaws (Z * Z) bool}.
  Context `{Digest} `{HashableLeaf T} `{Postcard T}.
  Implicit Types (D : list T) (B : gset Z) (m : gmap bytes bytes).

Lemma keeps_inv s s' D B : inv s D B → keeps (view s) D B s' → inv s' D B.
Proof. intros [Hi Hc] [Hv Hc']. split; [by rewrite Hv|done]. Qed.

Lemma inv_keeps s D B : inv s D B → keeps (view s) D B s.
Proof. intros [Hi Hc]. by split. Qed.

Lemma hashes_spec m D B v idxs s :
  tree_inv m D B → v ∈ B → Forall (valid v) idxs → keeps m D B s →
  spec (mapM (λ i, get_node_hash_at_version i v) idxs) s
    (λ r s', r = map (subtree_hash D v) idxs ∧ keeps m D B s') (db_failure m D B).
Proof.
  intros Hi HB Hv Hk. pose proof (bound_size_ok _ _ _ _ Hi HB) as Hok.
  pose proof (ti_bound _ _ _ Hi v HB). rewrite Forall_forall in Hv.
  eapply spec_mono; [apply (spec_mapM _ _ _ (λ i h, h = subtree_hash D v i) (keeps m D B))| |done].
  - done.
  - intros i s' Hin Hk'. pose proof (Hv i Hin) as Hval.
    eapply spec_mono; [apply (get_node_hash_at_version_spec m D B Hi)| |done]; [|done|].
    + split; [by eapply valid_u64|]. split; [by eapply bound_u64|lia].
    + intros r s'' [[Hr _] ?]. auto.
  - intros r s' [Hr Hk']. split; [|done]. clear Hv. induction Hr; simpl; congruence.
Qed.

(** The root of a size is stored exactly for the boundaries. *)
Lemma boundary_stored m D B v :
  tree_inv m D B → 0 < v ≤ zlen D →
  m !! versioned_node_key (root_idx v) v = if decide (v ∈ B) then Some (mth (zslice 0 v D)) else None.
Proof.
  intros Hi Hv. pose proof (ti_size _ _ _ Hi) as Hsz.
  assert (size_ok v) as Hok by (unfold size_ok; lia).
  destruct (root_range v Hok) as [Hlo Hhi]. change (versioned_node_key (root_idx v) v)
    with (enc (KNode (root_idx v) v)). destruct (decide (v ∈ B)) as [HB|HB].
  - rewrite (ti_last_leaf _ _ _ Hi); auto using valid_root. by rewrite subtree_hash_root.
  - destruct (m !! _) as [h|] eqn:Hh; [|done]. apply (ti_node _ _ _ Hi) in Hh as (? & _); [done| |].
    + eapply valid_u64, valid_root; done.
    + unfold is_u64. lia.
Qed.

(** The errors a read can answer with. *)
Definition read_error s D B (refusal : SlateDbTreeError → Prop) (e : SlateDbTreeError)
    (s' : SlateDbBackedTree) : Prop :=
  inv s' D B ∧ view s' = view s ∧ ((∃ d, e = DbError d) ∨ refusal e).

Lemma read_error_db s D B P e s' :
  inv s D B → db_failure (view s) D B e s' → read_error s D B P e s'.
Proof.
  intros Hi [Hd Hk]. split; [by eapply keeps_inv|]. split; [apply Hk|by left].
Qed.

Lemma root_at_size_spec D B s v :
  inv s D B → is_u64 v →
  spec (root_at_size v) s
    (λ r s', inv s' D B ∧ view s' = view s ∧ (v = 0 ∨ v ∈ B) ∧ r = RootHash_new (mth (zslice 0 v D)) v)
    (read_error s D B (λ e, (zlen D < v ∧ e = exceeds "Requested tree size " v (zlen D)) ∨
       (v ≠ 0 ∧ v ≤ zlen D ∧ (v ∉ B) ∧ e = not_boundary "Tree size " v))).
Proof.
  intros Hinv Hv. pose proof Hinv as [Hi _]. pose proof (inv_keeps _ _ _ Hinv) as Hk.
  unfold root_at_size. destruct (Z.eqb_spec v 0) as [->|Hv0].
  { apply spec_ret. auto. }
  apply spec_bind. eapply spec_mono; [by eapply get_committed_size_spec| |eauto using read_error_db].
  intros r s1 [-> Hk1]. unfold is_u64 in Hv. destruct (Z.ltb_spec (zlen D) v).
  { apply spec_fail. split; [by eapply keeps_inv|]. split; [apply Hk1|]. auto. }
  apply spec_bind. eapply spec_mono; [by eapply get_spec| |eauto using read_error_db].
  intros r s2 [-> Hk2]. rewrite (boundary_stored (view s) D B v) by (done || lia).
  destruct (decide (v ∈ B)) as [HB|HB]; last first.
  { apply spec_fail. split; [by eapply keeps_inv|]. split; [apply Hk2|]. right. right. auto with lia. }
  pose proof (bound_size_ok _ _ _ _ Hi HB) as Hok.
  apply spec_bind. eapply spec_mono; [eapply (get_node_hash_at_version_spec _ D B Hi); [|done]|
    |eauto using read_error_db].
  { split; [eapply valid_u64, valid_root; done|]. split; [done|lia]. }
  intros h s3 [[Hh _] Hk3]. apply spec_ret. split; [by eapply keeps_inv|]. split; [apply Hk3|].
  split; [by right|]. rewrite Hh by auto using valid_root. by rewrite subtree_hash_root.
Qed.

(** [root_at_size] on a tree of the leaves [D] with the boundaries [B]:
    size 0 and every boundary [v] get the Merkle Tree Hash of the first [v]
    leaves; every other size is refused, with the error of the code; the store
    is not changed. *)
Theorem root_at_size_correct D B s v :
  inv s D B → is_u64 v →
  spec (root_at_size v) s
    (λ r s', inv s' D B ∧ view s' = view s ∧ (v = 0 ∨ v ∈ B) ∧ r = RootHash_new (mth (zslice 0 v D)) v)
    (read_error s D B (λ e, (zlen D < v ∧ e = exceeds "Requested tree size " v (zlen D)) ∨
       (v ≠ 0 ∧ v ≤ zlen D ∧ (v ∉ B) ∧ e = not_boundary "Tree size " v))).
Proof. apply root_at_size_spec. Qed.

Lemma prove_inclusion_at_size_spec D B s idx v :
  inv s D B → is_u64 idx → is_u64 v →
  spec (prove_inclusion_at_size idx v) s
    (λ pf s', inv s' D B ∧ view s' = view s ∧ v ∈ B ∧ idx < v ∧
       pf = from_digests (path idx (zslice 0 v D)) ∧
       ∀ x, D !! Z.to_nat idx = Some x →
         verify pf x idx (RootHash_new (mth (zslice 0 v D)) v) = Ok tt)
    (read_error s D B (λ e, (zlen D < v ∧ e = exceeds "Requested tree size " v (zlen D)) ∨
       (v ≤ idx ∧ e = InconsistentState ("Index " +:+ pretty idx +:+
                        " out of bounds for requested tree size " +:+ pretty v)) ∨
       ((v ∉ B) ∧ e = not_boundary "Tree size " v))).
Proof.
  intros Hinv Hidx Hv. pose proof Hinv as [Hi _]. pose proof (inv_keeps _ _ _ Hinv) as Hk.
  unfold prove_inclusion_at_size. apply spec_bind.
  eapply spec_mono; [by eapply get_committed_size_spec| |eauto using read_error_db].
  intros r s1 [-> Hk1]. unfold is_u64 in *. destruct (Z.ltb_spec (zlen D) v).
  { apply spec_fail. split; [by eapply keeps_inv|]. split; [apply Hk1|]. auto. }
  destruct (Z.leb_spec v idx).
  { apply spec_fail. split; [by eapply keeps_inv|]. split; [apply Hk1|]. auto. }
  apply spec_bind. eapply spec_mono; [by eapply get_spec| |eauto using read_error_db].
  intros r s2 [-> Hk2]. rewrite (boundary_stored (view s) D B v) by (done || lia).
  destruct (decide (v ∈ B)) as [HB|HB]; last first.
  { apply spec_fail. split; [by eapply keeps_inv|]. split; [apply Hk2|]. auto. }
  pose proof (bound_size_ok _ _ _ _ Hi HB) as Hok.
  destruct (inclusion_up D v idx) as (out & Hup & Hidxs & Hmap); [done|lia|lia|].
  apply spec_bind. eapply spec_lift_ok; [by apply indices_up; [|lia|]|].
  apply spec_bind. eapply spec_mono; [eapply (hashes_spec _ D B); try done; by eapply up_valid| |eauto using read_error_db].
  intros hs s3 [-> Hk3]. apply spec_ret. split; [by eapply keeps_inv|]. split; [apply Hk3|].
  split; [done|]. split; [lia|]. rewrite Hmap. split; [done|]. intros x. by apply verify_path; [|lia..].
Qed.

(** [prove_inclusion_at_size] answers for every boundary [v] and leaf
    [idx] below it, with a proof that [InclusionProof::verify] accepts for the
    leaf and the root at [v]; other requests are refused with the error of
    the code; the store is not changed. *)
Theorem prove_inclusion_at_size_correct D B s idx v :
  inv s D B → is_u64 idx → is_u64 v →
  spec (prove_inclusion_at_size idx v) s
    (λ pf s', inv s' D B ∧ view s' = view s ∧ v ∈ B ∧ idx < v ∧
       pf = from_digests (path idx (zslice 0 v D)) ∧
       ∀ x, D !! Z.to_nat idx = Some x →
         verify pf x idx (RootHash_new (mth (zslice 0 v D)) v) = Ok tt)
    (read_error s D B (λ e, (zlen D < v ∧ e = exceeds "Requested tree size " v (zlen D)) ∨
       (v ≤ idx ∧ e = InconsistentState ("Index " +:+ pretty idx +:+
                        " out of bounds for requested tree size " +:+ pretty v)) ∨
       ((v ∉ B) ∧ e = not_boundary "Tree size " v))).
Proof. apply prove_inclusion_at_size_spec. Qed.

Lemma prove_consistency_between_spec D B s v w :
  inv s D B → is_u64 v → is_u64 w →
  spec (prove_consistency_between v w) s
    (λ pf s', inv s' D B ∧ view s' = view s ∧ 0 < v ≤ w ∧ (v = w ∨ (v ∈ B ∧ w ∈ B)) ∧
       (w ≤ zlen D →
         cverify pf (RootHash_new (mth (zslice 0 v D)) v) (RootHash_new (mth (zslice 0 w D)) w) = Ok tt))
    (read_error s D B (λ e,
       (v = 0 ∧ e = InconsistentState "Cannot create consistency proof from empty tree") ∨
       (w < v ∧ e = InconsistentState ("Old size " +:+ pretty v +:+
                      " must be less than or equal to new size " +:+ pretty w)) ∨
       (zlen D < w ∧ e = exceeds "New size " w (zlen D)) ∨
       ((v ∉ B) ∧ e = not_boundary "Old tree size " v) ∨
       ((w ∉ B) ∧ e = not_boundary "New tree size " w))).
Proof.
  intros Hinv Hv Hw. pose proof Hinv as [Hi _]. pose proof (inv_keeps _ _ _ Hinv) as Hk.
  unfold prove_consistency_between. unfold is_u64 in *.
  pose proof (ti_size _ _ _ Hi) as Hsz.
  destruct (Z.eqb_spec v 0).
  { apply spec_fail. split; [done|]. split; [done|]. auto. }
  destruct (Z.ltb_spec w v).
  { apply spec_fail. split; [done|]. split; [done|]. auto. }
  destruct (Z.eqb_spec v w) as [<-|].
  { apply spec_ret. split; [done|]. split; [done|]. split; [lia|]. split; [by left|]. intros Hle.
    rewrite <- (rfc_proof_same D v) by lia. apply cverify_proof; [unfold size_ok; lia|lia|lia]. }
  apply spec_bind. eapply spec_mono; [by eapply get_committed_size_spec| |eauto using read_error_db].
  intros r s1 [-> Hk1]. destruct (Z.ltb_spec (zlen D) w).
  { apply spec_fail. split; [by eapply keeps_inv|]. split; [apply Hk1|]. auto 10. }
  apply spec_bind. eapply spec_mono; [by eapply get_spec| |eauto using read_error_db].
  intros r s2 [-> Hk2]. rewrite (boundary_stored (view s) D B v) by (done || lia).
  apply spec_bind. eapply spec_mono; [by eapply get_spec| |eauto using read_error_db].
  intros r s3 [-> Hk3]. rewrite (boundary_stored (view s) D B w) by (done || lia).
  destruct (decide (v ∈ B)) as [HB|HB]; last first.
  { apply spec_fail. split; [by eapply keeps_inv|]. split; [apply Hk3|]. auto 10. }
  destruct (decide (w ∈ B)) as [HB'|HB']; last first.
  { apply spec_fail. split; [by eapply keeps_inv|]. split; [apply Hk3|]. auto 10. }
  pose proof (bound_size_ok _ _ _ _ Hi HB') as Hok.
  destruct (consistency_up (E := SlateDbTreeError) D w v)
    as (p0 & out & idxs & Hup & Hst & Hidxs & Hmap & Heq); [done|lia|lia|].
  rewrite u64_small by lia. apply spec_bind. eapply spec_lift_ok; [done|].
  apply spec_bind. eapply spec_mono; [eapply (hashes_spec _ D B); try done| |eauto using read_error_db].
  { destruct (up_valid _ _ _ _ Hup) as (Hval & _ & ?). subst idxs.
    apply Forall_app. split; [|done]. destruct (is_power_of_two v); repeat constructor; apply Hval. }
  intros hs s4 [-> Hk4]. apply spec_ret. split; [by eapply keeps_inv|]. split; [apply Hk4|].
  split; [lia|]. split; [by right|]. intros _. rewrite Hmap. apply cverify_proof; [done|lia|lia].
Qed.

(** [prove_consistency_between] answers for two boundaries [v < w] (and
    trivially for equal sizes) with a proof that [ConsistencyProof::verify]
    accepts for the roots at [v] and [w]; other requests are refused with the
    error of the code; the store is not changed. *)
Theorem prove_consistency_between_correct D B s v w :
  inv s D B → is_u64 v → is_u64 w →
  spec (prove_consistency_between v w) s
    (λ pf s', inv s' D B ∧ view s' = view s ∧ 0 < v ≤ w ∧ (v = w ∨ (v ∈ B ∧ w ∈ B)) ∧
       (w ≤ zlen D →
         cverify pf (RootHash_new (mth (zslice 0 v D)) v) (RootHash_new (mth (zslice 0 w D)) w) = Ok tt))
    (read_error s D B (λ e,
       (v = 0 ∧ e = InconsistentState "Cannot create consistency proof from empty tree") ∨
       (w < v ∧ e = InconsistentState ("Old size " +:+ pretty v +:+
                      " must be less than or equal to new size " +:+ pretty w)) ∨
       (zlen D < w ∧ e = exceeds "New size " w (zlen D)) ∨
       ((v ∉ B) ∧ e = not_boundary "Old tree size " v) ∨
       ((w ∉ B) ∧ e = not_boundary "New tree size " w))).
Proof. apply prove_consistency_between_spec. Qed.

End Reads.
