(* ===== verification/TreePush.v ===== *)
(** * Appending to the stored tree

    [batch_push_with_data] of src/src/merkle_tree/slatedb_backed_tree.rs: the
    hashes computed for the new leaves are those of the final tree, the batch
    written takes the invariant of [TreeInv] from the old list of leaves to
    the new one, and an append that fails leaves the store either as it was
    or with the whole batch applied. *)

From S2P Require Import Prelude TreeMath Rfc6962 Inclusion Consistency KvStore TreeStore TreeInv.
From S2P Require Import TreeReads.

(** ** Nodes over the last leaf *)

Lemma nested_lo c i j :
  0 ≤ i → 0 ≤ j → lo i ≤ c < lo i + 2 ^ level i → lo j ≤ c < lo j + 2 ^ level j →
  level i ≤ level j → lo j ≤ lo i.
Proof.
  intros Hi Hj. destruct (node_surj i Hi) as (k & a & Ha & ->).
  destruct (node_surj j Hj) as (k' & b & Hb & ->).
  rewrite !lo_node, !level_node, <- !pow2_level by done. intros Hci Hcj Hk.
  replace k' with (k + (k' - k))%nat in * by lia. rewrite pow2_add in *.
  pose proof (pow2_pos k). pose proof (pow2_pos (k' - k)).
  set (d := pow2 (k' - k)) in *.
  assert (b * d < a + 1) by nia. nia.
Qed.

Lemma last_leaf_range n i : valid n i → hi n i = n → lo i ≤ n - 1 < lo i + 2 ^ level i.
Proof. intros Hv Hh. pose proof (valid_lo_hi n i Hv). unfold hi in Hh. lia. Qed.

Lemma last_leaf_unique n i j :
  size_ok n → valid n i → valid n j → hi n i = n → hi n j = n → level i = level j → i = j.
Proof.
  intros Hn Hi Hj Hhi Hhj Hl. apply (node_unique n); [done..| |congruence].
  pose proof (nested_lo (n - 1) i j). pose proof (nested_lo (n - 1) j i).
  pose proof (last_leaf_range n i). pose proof (last_leaf_range n j).
  unfold valid in *. apply Z.le_antisymm; auto with lia.
Qed.

(** No node over the last leaf lies between a node over it and its parent. *)
Lemma last_leaf_between n p l r j :
  size_ok n → children n p l r → hi n r = n → valid n j → hi n j = n →
  level r < level j → level p ≤ level j.
Proof.
  intros Hn Hc Hr Hj Hhj Hlt. pose proof (ch_r _ _ _ _ Hc) as Hvr.
  pose proof (last_leaf_range n r Hvr Hr). pose proof (last_leaf_range n j Hj Hhj).
  assert (lo j ≤ lo r) by (apply (nested_lo (n - 1)); unfold valid in *; lia).
  assert (lo j ≠ lo r).
  { intros Heq. rewrite (node_unique n j r) in Hlt; [lia|done..|congruence]. }
  apply (nested_split n p l r j Hc Hj). lia.
Qed.

Section Push.
  Context `{SlateDb} `{!Cache (Z * Z) bytes} `{!Cache (Z * Z) bool}.
  Context `{!SlateDbLaws} `{!CacheLaws (Z * Z) bytes} `{!CacheLaws (Z * Z) bool}.
  Context `{Digest} `{HashableLeaf T} `{Postcard T}.
  Implicit Types (D : list T) (B : gset Z) (m : gmap bytes bytes).

(** ** Prefetching *)

Lemma prefetch_loop_ok N c i out f acc :
  size_ok c → up c i (root_idx c) out → (length out ≤ f)%nat →
  ∃ X, prefetch_loop f N c (root_idx c) i acc = Ok X ∧ ∀ x, x ∈ X → x ∈ acc ∨ is_u64 x.
Proof.
  intros Hc Hup. remember (root_idx c) as t eqn:Ht. revert f acc.
  induction Hup as [i Hi|p l r t out Hch Hup IH|p l r t out Hch Hup IH]; intros f acc Hf.
  - exists acc. destruct f; cbn [prefetch_loop]; rewrite Z.eqb_refl; auto.
  - destruct f as [|f]; cbn [length] in Hf; [lia|]. cbn [prefetch_loop].
    rewrite Ht, (parent_not_root (E := unit) c l p) by apply Hch.
    rewrite (sibling_left Hch), bind_Ok, (ch_parent_l _ _ _ _ Hch), bind_Ok. rewrite <- Ht.
    destruct (IH Ht f (if r <? N *! 2 then {[r]} ∪ acc else acc)) as (X & HX & Hin); [lia|].
    exists X. split; [done|]. intros x Hx. destruct (Hin x Hx) as [Hacc|]; [|by right].
    destruct (r <? N *! 2); [|by left]. apply elem_of_union in Hacc as [->%elem_of_singleton|];
      [right; eapply valid_u64; [done|apply Hch]|by left].
  - destruct f as [|f]; cbn [length] in Hf; [lia|]. cbn [prefetch_loop].
    rewrite Ht, (parent_not_root (E := unit) c r p) by apply Hch.
    rewrite (sibling_right Hch), bind_Ok, (ch_parent_r _ _ _ _ Hch), bind_Ok. rewrite <- Ht.
    destruct (IH Ht f (if l <? N *! 2 then {[l]} ∪ acc else acc)) as (X & HX & Hin); [lia|].
    exists X. split; [done|]. intros x Hx. destruct (Hin x Hx) as [Hacc|]; [|by right].
    destruct (l <? N *! 2); [|by left]. apply elem_of_union in Hacc as [->%elem_of_singleton|];
      [right; eapply valid_u64; [done|apply Hch]|by left].
Qed.

Lemma leaf_root_up D n i :
  size_ok n → n ≤ zlen D → 0 ≤ i < n →
  ∃ out, up n (2 * i) (root_idx n) out ∧ (length out ≤ 64)%nat.
Proof.
  intros Hn HD Hi. destruct (inclusion_up D n i) as (out & Hup & _); [done..|].
  exists out. split; [done|]. pose proof (up_length _ _ _ _ Hup). rewrite leaf_level in * by lia.
  pose proof (root_level_63 n Hn). lia.
Qed.

Lemma nodes_to_prefetch_ok D N ps acc :
  0 ≤ N → zlen D ≤ 2 ^ 63 → Forall (λ i, 0 ≤ i ∧ N + i < zlen D) ps →
  ∃ X, nodes_to_prefetch N ps acc = Ok X ∧ ∀ x, x ∈ X → x ∈ acc ∨ is_u64 x.
Proof.
  intros HN HD Hps. revert acc. induction Hps as [|i ps Hi Hps IH]; intros acc; [eauto|].
  cbn [nodes_to_prefetch]. rewrite (u64_small (N + i)) by lia.
  rewrite LeafIdx_new_ok, bind_Ok, u64_small, InternalIdx_from_eq by lia.
  assert (size_ok (N + i + 1)) as Hok by (unfold size_ok; lia).
  destruct (leaf_root_up D (N + i + 1) (N + i)) as (out & Hup & Hlen); [done|lia|lia|].
  destruct (prefetch_loop_ok N _ _ _ 64 acc Hok Hup Hlen) as (X & HX & Hin).
  rewrite HX, bind_Ok. destruct (IH X) as (X' & HX' & Hin'). exists X'. split; [done|].
  intros x Hx. destruct (Hin' x Hx) as [Hx'|]; [by apply Hin|by right].
Qed.

(** What the prefetched hashes are. *)
Definition prefetched_ok D (P : gmap Z bytes) : Prop :=
  ∀ i h, P !! i = Some h → valid (zlen D) i → h = subtree_hash D (zlen D) i.

Lemma get_node_hash_any m D B i s :
  tree_inv m D B → is_u64 i → keeps m D B s →
  spec (get_node_hash i) s
    (λ r s', (valid (zlen D) i → r = subtree_hash D (zlen D) i) ∧ keeps m D B s')
    (db_failure m D B).
Proof.
  intros Hi Hu Hk. destruct (decide (valid (zlen D) i)) as [Hv|Hv].
  { eapply spec_mono; [by apply (get_node_hash_spec m D B Hi)| |done]. naive_solver. }
  unfold get_node_hash. apply spec_bind. eapply spec_mono; [by apply get_spec| |done].
  intros r s' [-> Hk']. pose proof (ti_latest _ _ _ Hi i Hu) as Hlat. cbn [enc] in Hlat.
  destruct (m !! node_latest_version_key i); [naive_solver|]. by apply spec_ret.
Qed.

Lemma prefetch_nodes_spec m D B X s :
  tree_inv m D B → (∀ x, x ∈ X → is_u64 x) → keeps m D B s →
  spec (prefetch_nodes X) s (λ P s', prefetched_ok D P ∧ keeps m D B s') (db_failure m D B).
Proof.
  intros Hi HX Hk. unfold prefetch_nodes. apply spec_bind.
  eapply spec_mono; [eapply (spec_mapM _ _ _
    (λ i r, valid (zlen D) i → r = subtree_hash D (zlen D) i) (keeps m D B)); [done|]| |done].
  - intros i s' Hin Hk'. apply get_node_hash_any; [done| |done]. by apply HX, elem_of_bt_set_iter.
  - intros rs s' [Hrs Hk']. apply spec_ret. split; [|done].
    intros i h Hh%elem_of_list_to_map_2. clear -Hrs Hh.
    induction Hrs as [|x y xs ys Hxy Hrs IH]; [by apply elem_of_nil in Hh|].
    cbn in Hh. apply elem_of_cons in Hh as [[= -> ->]|Hh]; auto.
Qed.

(** ** The climb *)

(** The hashes kept while the leaf [c] is added: nodes over the new leaf up to
    a level have their hash in the tree of [c + 1] leaves, the others their
    hash in the tree of [c], if they changed since the batch began. *)
Definition climb_inv D' (N c lvl : Z) (ch : gmap Z bytes) : Prop :=
  ∀ i, ch !! i =
    if decide ((valid (c + 1) i ∧ hi (c + 1) i = c + 1) ∧ level i ≤ lvl)
    then Some (subtree_hash D' (c + 1) i)
    else if decide (valid c i ∧ N < hi c i) then Some (subtree_hash D' c i) else None.

(** The hashes between two items. *)
Definition computed_ok D' (N c : Z) (ch : gmap Z bytes) : Prop :=
  ∀ i, ch !! i = if decide (valid c i ∧ N < hi c i) then Some (subtree_hash D' c i) else None.

Lemma climb_start D' N c ch x :
  size_ok (c + 1) → 0 ≤ c → c + 1 ≤ zlen D' → D' !! Z.to_nat c = Some x →
  computed_ok D' N c ch → climb_inv D' N c 0 (<[2 * c := leaf_hash x]> ch).
Proof.
  intros Hok Hc HD Hx Hch i.
  assert (valid (c + 1) (2 * c)) as Hv by (apply leaf_valid; lia).
  assert (hi (c + 1) (2 * c) = c + 1) as Hh by (apply leaf_hi; lia).
  destruct (decide (i = 2 * c)) as [->|Hne].
  - rewrite lookup_insert_eq, decide_True by (rewrite leaf_level by lia; auto with lia).
    by rewrite (subtree_hash_leaf D' (c + 1) c x) by (done || lia).
  - rewrite lookup_insert_ne, Hch by done. rewrite (decide_False (P := _ ∧ _ ≤ 0)); [done|].
    intros [[Hvi Hhi] Hl]. destruct Hne. apply (last_leaf_unique (c + 1)); try done.
    rewrite leaf_level by lia. destruct (node_surj i) as (k & j & Hj & ->); [apply Hvi|].
    rewrite level_node in * by done. lia.
Qed.

Lemma climb_finish D' N c ch :
  size_ok (c + 1) → 0 ≤ N ≤ c → climb_inv D' N c (level (root_idx (c + 1))) ch →
  computed_ok D' N (c + 1) ch.
Proof.
  intros Hok HN Hch i. rewrite (Hch i).
  destruct (decide (valid (c + 1) i ∧ hi (c + 1) i = c + 1)) as [[Hv Hh]|Hno].
  - rewrite decide_True; [rewrite decide_True; [done|split; [done|lia]]|].
    split; [done|]. destruct (node_surj i) as (k & j & Hj & ->); [apply Hv|].
    destruct (valid_level_root (c + 1) k j Hok Hj Hv) as [Hle _].
    rewrite root_idx_node, !level_node by done. lia.
  - rewrite decide_False by naive_solver.
    destruct (decide (valid c i ∧ N < hi c i)) as [[Hv Hh]|Hno'].
    + assert (valid (c + 1) i) as Hv' by (unfold valid in *; lia).
      assert (top i ≤ c) as Ht. { destruct (decide (top i ≤ c)); [done|].
        destruct Hno. split; [done|]. rewrite hi_top. lia. }
      rewrite decide_True by (split; [done|]; rewrite hi_top; rewrite hi_top in Hh; lia).
      f_equal. apply subtree_hash_top; lia.
    + rewrite decide_False; [done|]. intros [Hv Hh]. destruct Hno'.
      assert (top i ≤ c) as Ht. { destruct (decide (top i ≤ c)); [done|].
        destruct Hno. split; [done|]. rewrite hi_top. lia. }
      split; [apply valid_top; [apply Hv|done]|]. rewrite hi_top; rewrite hi_top in Hh. lia.
Qed.

Lemma climb_step D' N c ch p l r :
  size_ok (c + 1) → children (c + 1) p l r → hi (c + 1) r = c + 1 →
  climb_inv D' N c (level r) ch →
  climb_inv D' N c (level p) (<[p := subtree_hash D' (c + 1) p]> ch).
Proof.
  intros Hok Hc Hr Hch i. pose proof (ch_level_r _ _ _ _ Hc) as Hlr.
  pose proof (ch_hi_r _ _ _ _ Hc) as Hpr. pose proof (ch_p _ _ _ _ Hc) as Hvp.
  destruct (decide (i = p)) as [->|Hne].
  - rewrite lookup_insert_eq, decide_True; [done|]. split; [split; [done|congruence]|lia].
  - rewrite lookup_insert_ne, (Hch i) by done.
    destruct (decide (valid (c + 1) i ∧ hi (c + 1) i = c + 1)) as [[Hv Hh]|Hno]; last first.
    { rewrite (decide_False (P := _ ∧ level i ≤ level r)) by naive_solver.
      by rewrite (decide_False (P := _ ∧ level i ≤ level p)) by naive_solver. }
    destruct (decide (level i ≤ level r)) as [Hle|Hgt].
    { rewrite (decide_True (P := _ ∧ level i ≤ level r)) by done.
      by rewrite (decide_True (P := _ ∧ level i ≤ level p)) by (split; [done|lia]). }
    rewrite (decide_False (P := _ ∧ level i ≤ level r)) by naive_solver.
    rewrite (decide_False (P := _ ∧ level i ≤ level p)); [done|]. intros [_ Hle].
    pose proof (last_leaf_between (c + 1) p l r i Hok Hc Hr Hv Hh ltac:(lia)).
    destruct Hne. apply (last_leaf_unique (c + 1)); try done; [congruence|lia].
Qed.

Section Climb.
  Context (m : gmap bytes bytes) (D : list T) (B : gset Z) (Hinv : tree_inv m D B).
  Context (items : list T) (Hsize : zlen (D ++ items) ≤ 2 ^ 63).
  Context (P : gmap Z bytes) (HP : prefetched_ok D P).
  Abbreviation N := (zlen D).
  Abbreviation D' := (D ++ items).

(** The sibling on the way up is a complete node to the left; wherever it is
    taken from, its hash is right. *)
Lemma sibling_hash_spec c p l r ch s :
  N ≤ c → c + 1 ≤ zlen D' → children (c + 1) p l r → hi (c + 1) r = c + 1 →
  climb_inv D' N c (level r) ch → keeps m D B s →
  spec (match ch !! l with
        | Some hash => mret hash
        | None =>
            if c *! 2 <=? l then mret default_hash
            else
              match P !! l with
              | Some hash => mret hash
              | None => get_node_hash_at_version l N
              end
        end) s
    (λ h s', h = subtree_hash D' (c + 1) l ∧ keeps m D B s') (db_failure m D B).
Proof.
  intros HNc Hc1 Hc Hr Hch Hk. pose proof (children_lt Hc) as Hlt.
  pose proof (ch_hi_l _ _ _ _ Hc) as Htop. fold (top l) in Htop.
  pose proof (ch_hi_r _ _ _ _ Hc) as Hpr. rewrite Hr in Hpr.
  assert (0 ≤ l) as Hl0 by apply (ch_l _ _ _ _ Hc).
  assert (valid c l) as Hvl by (apply valid_top; [done|lia]).
  assert (0 ≤ lo p) by (apply valid_lo_nonneg, (ch_p _ _ _ _ Hc)).
  rewrite (Hch l), decide_False.
  2: { intros [[_ Hhl] _]. rewrite (children_hi_l Hc) in Hhl. lia. }
  destruct (decide (valid c l ∧ N < hi c l)) as [[_ Hh]|Hno].
  { apply spec_ret. split; [|done]. apply subtree_hash_top; lia. }
  assert (top l ≤ N) as HlN.
  { destruct (decide (top l ≤ N)); [done|]. destruct Hno. split; [done|]. rewrite hi_top. lia. }
  pose proof (valid_top N l Hl0 HlN) as HvN.
  assert (subtree_hash D N l = subtree_hash D' (c + 1) l) as Heq.
  { rewrite <- (subtree_hash_app D items) by (done || lia). apply subtree_hash_top; lia. }
  unfold valid in Hvl. rewrite u64_small by lia. zdecide.
  destruct (P !! l) as [h|] eqn:HPl.
  { apply spec_ret. split; [|done]. by rewrite (HP l h HPl HvN). }
  pose proof (ti_top _ _ _ Hinv ltac:(lia)) as HB.
  eapply spec_mono; [apply (get_node_hash_at_version_spec m D B Hinv); [|done]| |done].
  - split; [|split; [by eapply bound_u64|lia]].
    apply (valid_u64 N); [by eapply bound_size_ok|done].
  - intros h s' [[Hh _] Hk']. split; [|done]. by rewrite Hh.
Qed.

Lemma climb_spec c cur out ch f s :
  N ≤ c → c + 1 ≤ zlen D' → up (c + 1) cur (root_idx (c + 1)) out → hi (c + 1) cur = c + 1 →
  (length out ≤ f)%nat → climb_inv D' N c (level cur) ch → keeps m D B s →
  spec (climb f N c (c + 1) P cur (subtree_hash D' (c + 1) cur) ch) s
    (λ ch' s', computed_ok D' N (c + 1) ch' ∧ keeps m D B s') (db_failure m D B).
Proof.
  intros HNc Hc1 Hup. assert (size_ok (c + 1)) as Hok by (unfold size_ok; lia).
  remember (root_idx (c + 1)) as t eqn:Ht. revert f ch s.
  induction Hup as [i Hi|p l r t out Hc Hup IH|p l r t out Hc Hup IH]; intros f ch s Hh Hf Hch Hk.
  - destruct f; cbn [climb]; rewrite <- Ht, Z.eqb_refl; apply spec_ret; (split; [|done]);
      (apply climb_finish; [done|lia|by rewrite <- Ht]).
  - rewrite (children_hi_l Hc) in Hh. pose proof (children_lt Hc).
    pose proof (valid_lo_hi _ _ (ch_p _ _ _ _ Hc)). lia.
  - destruct f as [|f]; cbn [length] in Hf; [lia|]. cbn [climb].
    rewrite (parent_not_root (E := unit) (c + 1) r p) by apply Hc.
    apply spec_bind. eapply spec_lift_ok; [apply (ch_parent_r _ _ _ _ Hc)|].
    apply spec_bind. eapply spec_lift_ok; [apply (sibling_right Hc)|].
    apply spec_bind. eapply spec_mono; [by eapply sibling_hash_spec| |done].
    intros h s' [-> Hk']. apply spec_bind. eapply spec_lift_ok; [apply (is_left_right Hc)|].
    cbv zeta. rewrite <- (subtree_hash_children Hc) by done.
    apply IH; try done; [by rewrite <- (ch_hi_r _ _ _ _ Hc)|lia|]. by eapply climb_step.
Qed.

(** The puts of the leaves from position [c] on. *)
Inductive leaf_puts : Z → list T → WriteBatch → Prop :=
  | leaf_puts_nil c : leaf_puts c [] []
  | leaf_puts_cons c x xs b puts : to_stdvec x = Ok b → leaf_puts (c + 1) xs puts →
      leaf_puts c (x :: xs) ((enc (KLeaf c), b) :: puts).

Definition push_error (e : SlateDbTreeError) (s : SlateDbBackedTree) : Prop :=
  ((∃ d, e = DbError d) ∨ (∃ msg, e = EncodingError msg)) ∧ keeps m D B s.

Lemma db_push_error e s : db_failure m D B e s → push_error e s.
Proof. intros [? ?]. split; [by left|done]. Qed.

Lemma push_items_spec `{!PostcardLaws T} rest batch c ch s :
  N ≤ c → c ≤ zlen D' → drop (Z.to_nat c) D' = rest → computed_ok D' N c ch → keeps m D B s →
  spec (push_items N P rest batch c ch) s
    (λ r s', keeps m D B s' ∧ ∃ b, r.1.1 = batch ++ b ∧ leaf_puts c rest b ∧
       r.1.2 = zlen D' ∧ computed_ok D' N (zlen D') r.2) push_error.
Proof.
  revert batch c ch s. induction rest as [|x rest IH]; intros batch c ch s HNc HcD Hrest Hch Hk;
    cbn [push_items].
  { assert (c = zlen D') as Hc.
    { apply (f_equal length) in Hrest. rewrite length_drop in Hrest. simpl in Hrest. lia. }
    apply spec_ret. split; [done|]. exists []. rewrite app_nil_r. cbn [fst snd]. rewrite <- Hc.
    split_and!; [done|constructor|done|done]. }
  assert (D' !! Z.to_nat c = Some x) as Hx.
  { rewrite <- (Nat.add_0_r (Z.to_nat c)), <- lookup_drop. by rewrite Hrest. }
  pose proof (lookup_lt_Some _ _ _ Hx) as Hlt.
  assert (size_ok (c + 1)) as Hok by (unfold size_ok; lia).
  apply spec_bind. pose proof (postcard_total x) as Htot.
  destruct (to_stdvec x) as [b|e| |] eqn:Hb; cbn [map_err]; try done; last first.
  { split; [right; by eexists|done]. }
  eapply spec_lift_ok; [done|]. apply spec_bind. eapply spec_lift_ok; [apply LeafIdx_new_ok; lia|].
  cbv zeta. rewrite InternalIdx_from_eq, u64_small by lia.
  destruct (leaf_root_up D' (c + 1) c) as (out & Hup & Hlen); [done|lia|lia|].
  rewrite <- (subtree_hash_leaf D' (c + 1) c x) by (done || lia).
  apply spec_bind. eapply spec_mono; [eapply climb_spec; try done| |apply db_push_error].
  - lia.
  - apply leaf_hi. lia.
  - rewrite leaf_level, (subtree_hash_leaf D' (c + 1) c x) by (done || lia).
    apply climb_start; (done || lia).
  - intros ch' s' [Hch' Hk']. eapply spec_mono; [apply IH; try done; [lia|lia|]| |done].
    + replace (Z.to_nat (c + 1)) with (Z.to_nat c + 1)%nat by lia.
      by rewrite <- drop_drop, Hrest.
    + intros r s'' (Hk'' & puts & Hr & Hp & ? & ?). split; [done|].
      exists ((enc (KLeaf c), b) :: puts). rewrite Hr, <- app_assoc.
      split_and!; [done|by constructor|done|done].
Qed.

End Climb.

End Push.
