(* ===== verification/TreeTiles.v ===== *)
(** * Precomputed tiles

    [precompute_tiles_batch] of src/src/merkle_tree/slatedb_backed_tree.rs
    adds exactly the tiles that become full with a batch, each with the
    hashes of its 256 complete subtrees. *)

From S2P Require Import Prelude TreeMath Rfc6962 Inclusion Consistency KvStore TreeStore TreeInv.
From S2P Require Import TreeReads TreePush.

(** ** Arithmetic of tiles *)

Lemma tile_width_pow2 l : 0 ≤ l → tile_width l = pow2 (Z.to_nat (8 * l)).
Proof.
  intros Hl. unfold tile_width. rewrite pow2_level, Z2Nat.id by lia.
  by rewrite Z.pow_mul_r by lia.
Qed.

Lemma tile_width_bound l : 0 ≤ l ≤ 5 → 1 ≤ tile_width l ≤ 2 ^ 40.
Proof.
  intros Hl. rewrite tile_width_pow2 by lia. split; [apply pow2_pos|].
  change (2 ^ 40) with (2 ^ Z.of_nat 40). rewrite <- pow2_level. apply pow2_mono. lia.
Qed.

Lemma pow64_width l : 0 ≤ l ≤ 5 → pow64 256 l = tile_width l.
Proof.
  intros Hl. pose proof (tile_width_bound l Hl). unfold pow64. apply u64_small.
  unfold tile_width in *. lia.
Qed.

Lemma is_tile_full_spec l i n :
  0 ≤ l ≤ 5 → 0 ≤ i → (i + 1) * 256 * tile_width l < 2 ^ 64 →
  is_tile_full_at_size l i n = true ↔ tile_full n l i.
Proof.
  intros Hl Hi Hb. pose proof (tile_width_bound l Hl). unfold is_tile_full_at_size, tile_full.
  rewrite pow64_width by done. cbv zeta.
  rewrite (u64_small (i * 256)) by nia. rewrite (u64_small (i * 256 + 256)) by nia.
  replace (i * 256 + 256) with ((i + 1) * 256) by lia.
  rewrite u64_small by nia. apply Z.leb_le.
Qed.

(** The node over the leaves of a position of a tile. *)
Definition tile_node (n l p : Z) : Z :=
  let r := rdesc n (Z.to_nat (8 * l)) p in node r.1 r.2.

Lemma tile_node_spec n l p :
  0 ≤ l → 0 ≤ p → p * tile_width l < n →
  valid n (tile_node n l p) ∧ lo (tile_node n l p) = p * tile_width l ∧
  hi n (tile_node n l p) = Z.min n ((p + 1) * tile_width l).
Proof.
  intros Hl Hp Hlt. rewrite tile_width_pow2 in * by done. unfold tile_node.
  destruct (rdesc_spec n (Z.to_nat (8 * l)) p) as (Hle & Hs & Hlo & Hr & Hm); [done..|].
  cbv zeta. rewrite lo_node, hi_node by done. auto.
Qed.

Lemma tile_total n w : 0 < n → 1 ≤ w →
  n / w + (if 0 <? n mod w then 1 else 0) = (n - 1) / w + 1.
Proof.
  intros Hn Hw. pose proof (Z.div_mod n w ltac:(lia)). pose proof (Z.mod_pos_bound n w ltac:(lia)).
  destruct (Z.ltb_spec 0 (n mod w)).
  - f_equal. apply (Z.div_unique _ _ _ (n mod w - 1)); lia.
  - assert ((n - 1) / w = n / w - 1); [|lia]. symmetry.
    apply (Z.div_unique _ _ _ (w - 1)); lia.
Qed.

Section Tiles.
  Context `{SlateDb} `{!Cache (Z * Z) bytes} `{!Cache (Z * Z) bool}.
  Context `{!SlateDbLaws} `{!CacheLaws (Z * Z) bytes} `{!CacheLaws (Z * Z) bool}.
  Context `{Digest} `{HashableLeaf T} `{Postcard T}.
  Context (Hash32 : output_size = 32%nat).
  Context (m : gmap bytes bytes) (D : list T) (B : gset Z) (Hinv : tree_inv m D B).
  Context (items : list T) (Hsize : zlen (D ++ items) ≤ 2 ^ 63).
  Context (ch : gmap Z bytes).
  Abbreviation N := (zlen D).
  Abbreviation D' := (D ++ items).
  Abbreviation n := (zlen (D ++ items)).
  Context (Hch : computed_ok D' N n ch).

(** ** The tiles chosen *)

(** Tiles whose bounds cannot overflow and whose first position exists. *)
Definition near (l i : Z) : Prop := 0 ≤ i ∧ i * 256 * tile_width l < n.

Lemma near_bounds l i :
  0 ≤ l ≤ 5 → near l i → (i + 1) * 256 * tile_width l < 2 ^ 64 ∧ i * 256 + 256 < 2 ^ 64.
Proof.
  intros Hl [Hi Hn]. pose proof (tile_width_bound l Hl).
  assert ((i + 1) * 256 * tile_width l = i * 256 * tile_width l + 256 * tile_width l) by lia.
  split; [lia|]. nia.
Qed.

Lemma tiles_to_process_spec l total tiles t :
  0 ≤ l ≤ 5 → Forall (λ i, near l i ∧ i * 256 < total) tiles →
  t ∈ tiles_to_process l total N tiles ↔
  ∃ i, i ∈ tiles ∧ t = (i, i * 256, i * 256 + 256) ∧ i * 256 + 256 ≤ total ∧ ¬ tile_full N l i.
Proof.
  intros Hl Ht. induction Ht as [|i tiles [Hi Hlt] Ht IH]; [set_solver|].
  cbn [tiles_to_process]. destruct (near_bounds l i Hl Hi) as [Hb1 Hb2].
  pose proof (is_tile_full_spec l i N Hl (proj1 Hi) Hb1) as Hfull. destruct Hi as [Hi0 _].
  rewrite (u64_small (i * 256)), (u64_small (i * 256 + 256)) by lia.
  rewrite (proj2 (Z.leb_gt total (i * 256))) by lia. rewrite (u64_small (Z.min _ _ - _)) by lia.
  setoid_rewrite elem_of_cons.
  destruct (Z.ltb_spec (Z.min (i * 256 + 256) total - i * 256) 256) as [Hp|Hp].
  { rewrite IH. split; [naive_solver|]. intros (j & [->|Hj] & ?); [lia|naive_solver]. }
  destruct (is_tile_full_at_size l i N) eqn:E.
  { rewrite IH. split; [naive_solver|]. intros (j & [->|Hj] & ?); naive_solver. }
  rewrite elem_of_cons, IH. assert (Z.min (i * 256 + 256) total = i * 256 + 256) as -> by lia.
  assert (¬ tile_full N l i) by (intros ?%Hfull; done). split.
  - intros [->|(j & ? & ?)]; [|naive_solver]. exists i. auto with lia.
  - intros (j & [->|Hj] & -> & ?); [by left|]. right. naive_solver.
Qed.

(** ** The hashes of a tile *)

Lemma tile_roots_ok l ps :
  0 ≤ l ≤ 5 → Forall (λ p, 0 ≤ p ∧ p * tile_width l < n) ps →
  tile_roots (tile_width l) n ps = Ok (map (tile_node n l) ps).
Proof.
  intros Hl Hps. pose proof (tile_width_bound l Hl).
  induction Hps as [|p ps [Hp Hlt] Hps IH]; [done|]. cbn [tile_roots map].
  assert (size_ok n) as Hok by (unfold size_ok; nia).
  destruct (tile_node_spec n l p) as (Hv & Hlo & Hhi); [lia|done|done|].
  rewrite (u64_small (p * tile_width l)) by nia. rewrite (proj2 (Z.leb_gt _ _)) by lia.
  rewrite u64_small by nia.
  replace (Z.min (p * tile_width l + tile_width l) n) with (hi n (tile_node n l p)) by lia.
  rewrite <- Hlo, compute_subtree_root_node, bind_Ok; [|done|done|].
  - by rewrite IH, bind_Ok.
  - pose proof (valid_range_level n _ Hok Hv). lia.
Qed.

(** A node that the batch has not touched is read back with its final hash. *)
Lemma untouched_spec i s :
  valid n i → ch !! i = None → keeps m D B s →
  spec (get_node_hash_at_version i n) s
    (λ h s', h = subtree_hash D' n i ∧ keeps m D B s') (db_failure m D B).
Proof.
  intros Hv Hno Hk. rewrite (Hch i) in Hno. destruct (decide _) as [|Hn]; [done|].
  assert (hi n i ≤ N) as Hh by (destruct (decide (hi n i ≤ N)); [done|]; destruct Hn; split; [done|lia]).
  assert (size_ok n) as Hok.
  { unfold size_ok. unfold valid in Hv. lia. }
  assert (0 ≤ i) by apply Hv. rewrite length_app in *.
  destruct (decide (top i ≤ N)) as [Ht|Ht].
  - eapply spec_mono; [apply (get_node_hash_at_version_spec m D B Hinv); [|done]| |done].
    + split; [by eapply valid_u64|]. split; [unfold size_ok, is_u64 in *; lia|by right].
    + intros h s' [[Hh1 Hh2] Hk']. split; [|done].
      destruct (decide (Z.of_nat (length D + length items) ∈ B)) as [HB|HB].
      * pose proof (ti_bound _ _ _ Hinv _ HB).
        rewrite Hh1 by done. by rewrite subtree_hash_app by lia.
      * destruct (decide (length items = 0%nat)) as [Hz|Hz].
        { destruct HB. rewrite Hz, Nat.add_0_r. apply (ti_top _ _ _ Hinv).
          pose proof (valid_lo_hi _ _ Hv). unfold top in Ht. lia. }
        rewrite Hh2 by lia. rewrite <- (subtree_hash_app D items) by lia.
        apply subtree_hash_top; lia.
  - rewrite hi_top in Hh. assert (length items = 0%nat) as Hz by lia.
    rewrite Hz, Nat.add_0_r in *. assert (items = []) as -> by (by apply nil_length_inv).
    rewrite app_nil_r in *.
    assert (N ∈ B) as HB by (apply (ti_top _ _ _ Hinv); unfold size_ok in Hok; lia).
    eapply spec_mono; [apply (get_node_hash_at_version_spec m D B Hinv); [|done]| |done].
    + split; [by eapply valid_u64|]. split; [by eapply bound_u64|by left].
    + intros h s' [[Hh1 _] Hk']. split; [|done]. by apply Hh1.
Qed.

Lemma fetch_spec roots s :
  Forall (valid n) roots → keeps m D B s →
  spec (mapM (λ i, get_node_hash_at_version i n) (filter (λ i, ch !! i = None) roots)) s
    (λ r s', r = map (subtree_hash D' n) (filter (λ i, ch !! i = None) roots) ∧ keeps m D B s')
    (db_failure m D B).
Proof.
  intros Hv Hk. rewrite Forall_forall in Hv.
  eapply spec_mono; [apply (spec_mapM _ _ _ (λ i h, h = subtree_hash D' n i) (keeps m D B))| |done].
  - done.
  - intros i s' [Hno Hin]%list_elem_of_filter Hk'. apply untouched_spec; auto.
  - intros r s' [Hr Hk']. split; [|done]. clear Hv. induction Hr; simpl; congruence.
Qed.

Lemma tile_hashes_ok roots :
  Forall (valid n) roots →
  tile_hashes ch roots (map (subtree_hash D' n) (filter (λ i, ch !! i = None) roots)) =
    Ok (map (subtree_hash D' n) roots).
Proof.
  induction 1 as [|i roots Hv Hroots IH]; [done|]. cbn [tile_hashes map].
  assert (length (subtree_hash D' n i) = 32%nat) as Hlen by (by rewrite subtree_hash_length).
  unfold tile_next. destruct (ch !! i) as [h|] eqn:Hi.
  - rewrite filter_cons_False by (by rewrite Hi).
    pose proof (Hch i) as Hci. rewrite Hi in Hci. destruct (decide _); [|done]. injection Hci as ->.
    rewrite bind_Ok, bool_decide_eq_true_2 by done. cbn [assert_that]. by rewrite bind_Ok, IH.
  - rewrite filter_cons_True by done. cbn [map].
    rewrite bind_Ok, bool_decide_eq_true_2 by done. cbn [assert_that]. by rewrite bind_Ok, IH.
Qed.

Lemma tile_bytes_nodes l i :
  0 ≤ l ≤ 5 → 0 ≤ i → tile_full n l i →
  concat (map (subtree_hash D' n) (map (tile_node n l) (zrange (i * 256) (i * 256 + 256)))) =
    tile_bytes D' l i.
Proof.
  intros Hl Hi Hfull. pose proof (tile_width_bound l Hl). unfold tile_bytes. rewrite map_map. f_equal.
  apply map_ext_in. intros p Hp%list_elem_of_In%elem_of_zrange. unfold tile_full in Hfull.
  assert ((p + 1) * tile_width l ≤ n) by nia.
  destruct (tile_node_spec n l p) as (_ & Hlo & Hhi); [lia|lia|nia|].
  unfold subtree_hash. rewrite Hlo, Hhi. do 2 f_equal. lia.
Qed.

Lemma child_full l i :
  0 < l ≤ 5 → near l i →
  is_tile_full_at_size (l - 1) (((i +! 1) *! 256) -! 1) n = true ↔ tile_full n l i.
Proof.
  intros Hl Hi. destruct (near_bounds l i ltac:(lia) Hi) as [Hb1 Hb2]. destruct Hi as [Hi0 _].
  assert (tile_width l = 256 * tile_width (l - 1)) as Hw.
  { unfold tile_width. rewrite <- Z.pow_succ_r by lia. f_equal. lia. }
  rewrite (u64_small (i + 1)), (u64_small ((i + 1) * 256)), u64_small by lia.
  rewrite is_tile_full_spec; [|lia|lia|].
  - unfold tile_full. rewrite Hw. replace ((i + 1) * 256 - 1 + 1) with ((i + 1) * 256) by lia.
    by rewrite Z.mul_assoc.
  - replace ((i + 1) * 256 - 1 + 1) with ((i + 1) * 256) by lia. by rewrite <- Z.mul_assoc, <- Hw.
Qed.

Definition tile_put (l i : Z) : WriteBatch :=
  if decide (tile_full n l i) then [(enc (KTile l i), tile_bytes D' l i)] else [].

Lemma tile_cache_insert_spec k b s :
  keeps m D B s →
  spec (tile_cache_insert k b) s (λ _ s', keeps m D B s') (db_failure m D B).
Proof. intros [? ?]. apply spec_modify. by split. Qed.

Lemma length_zrange a b : length (zrange a b) = Z.to_nat (b - a).
Proof. apply length_seqZ. Qed.

Lemma precompute_tile_spec l i s :
  0 ≤ l ≤ 5 → near l i → (i * 256 + 255) * tile_width l < n → ¬ tile_full N l i →
  keeps m D B s →
  spec (precompute_tile l (tile_width l) n ch (i, i * 256, i * 256 + 256)) s
    (λ puts s', puts = tile_put l i ∧ keeps m D B s') (db_failure m D B).
Proof.
  intros Hl Hi Hlast Hnew Hk. pose proof (tile_width_bound l Hl) as Hw.
  destruct (near_bounds l i Hl Hi) as [Hb1 Hb2]. pose proof Hi as [Hi0 _].
  unfold precompute_tile. apply spec_bind. eapply spec_mono; [by apply get_spec| |done].
  intros r s1 [-> Hk1].
  assert (m !! tile_key l i = None) as -> by (apply (ti_tile _ _ _ Hinv l i); unfold is_u64; [lia|lia|done]).
  apply spec_bind. eapply spec_lift_ok; [apply tile_roots_ok; [done|]|].
  { apply Forall_forall. intros p Hp%elem_of_zrange. nia. }
  set (roots := map _ _).
  assert (Forall (valid n) roots) as Hv.
  { apply Forall_fmap, Forall_forall. intros p Hp%elem_of_zrange.
    apply tile_node_spec; [lia|lia|nia]. }
  apply spec_bind. eapply spec_mono; [by apply fetch_spec| |done]. intros r s2 [-> Hk2].
  apply spec_bind. eapply spec_lift_ok; [by apply tile_hashes_ok|].
  rewrite bool_decide_eq_true_2 by (unfold roots; rewrite !length_map, length_zrange; lia).
  unfold tile_put.
  assert ((if l =? 0 then true else is_tile_full_at_size (l - 1) (((i +! 1) *! 256) -! 1) n) = true
          ↔ tile_full n l i) as Hfull.
  { destruct (Z.eqb_spec l 0) as [->|]; [|apply child_full; [lia|done]]. split; [|done].
    intros _. unfold tile_full. change (tile_width 0) with 1 in *. lia. }
  cbv zeta. destruct (if l =? 0 then true else _), (decide (tile_full n l i)) as [Ht|Ht].
  - apply spec_bind. eapply spec_lift_ok.
    { unfold Tile_new, roots. rewrite !length_map, length_zrange.
      replace (i * 256 + 256 - i * 256) with 256 by lia. done. }
    apply spec_bind. eapply spec_mono; [by apply tile_cache_insert_spec| |done].
    intros [] s3 Hk3. apply spec_ret. split; [|done]. cbn [tile_to_bytes hashes enc].
    unfold tile_to_bytes. cbn [hashes]. unfold roots. by rewrite tile_bytes_nodes.
  - destruct Ht. by apply Hfull.
  - by apply Hfull in Ht.
  - by apply spec_ret.
Qed.

(** ** A level, and all levels *)

Lemma concat_tile_puts (ts : list (Z * Z * Z)) (rs : list WriteBatch) l :
  Forall2 (λ t r, r = tile_put l t.1.1) ts rs → concat rs = concat (map (λ t, tile_put l t.1.1) ts).
Proof. induction 1; simpl; congruence. Qed.

Lemma elem_of_tile_put l i kv :
  kv ∈ tile_put l i ↔ tile_full n l i ∧ kv = (enc (KTile l i), tile_bytes D' l i).
Proof. unfold tile_put. destruct (decide _); set_solver. Qed.

(** The puts for the tiles of a level that become full with the batch. *)
Definition level_puts (l : Z) (puts : WriteBatch) : Prop :=
  ∀ kv, kv ∈ puts ↔ ∃ i, 0 ≤ i ∧ tile_full n l i ∧ ¬ tile_full N l i ∧
                         kv = (enc (KTile l i), tile_bytes D' l i).

Lemma precompute_level_spec l s :
  0 ≤ l ≤ 5 → keeps m D B s →
  spec (precompute_level N n N ch l) s (λ puts s', level_puts l puts ∧ keeps m D B s')
    (db_failure m D B).
Proof.
  intros Hl Hk. pose proof (tile_width_bound l Hl) as Hw. unfold precompute_level.
  rewrite pow64_width by done. cbv zeta.
  destruct (Z.ltb_spec 0 n) as [Hn|Hn]; last first.
  { assert (n = 0) as -> by lia. rewrite Z.div_0_l, Z.mod_0_l by lia.
    apply spec_bind. assert (N = 0) as HN by (rewrite length_app in Hn; lia).
    rewrite HN, Z.div_0_l by lia. change (tiles_to_process _ _ _ _) with (@nil (Z * Z * Z)).
    apply spec_ret, spec_ret. split; [|done]. intros kv. cbn [concat]. split; [set_solver|].
    intros (i & Hi & Hf & _). unfold tile_full in Hf. nia. }
  rewrite (u64_small (n - 1)) by lia.
  pose proof (Z.div_pos (n - 1) (tile_width l) ltac:(lia) ltac:(lia)).
  assert ((n - 1) / tile_width l ≤ n - 1) by (apply Z.div_le_upper_bound; nia).
  rewrite tile_total, u64_small by lia.
  set (tiles := zrange _ _).
  assert (Forall (λ i, near l i ∧ i * 256 < (n - 1) / tile_width l + 1) tiles) as Htiles.
  { apply Forall_forall. intros i [Hi1 Hi2]%elem_of_zrange.
    assert (0 ≤ N / tile_width l / 256) by (do 2 (apply Z.div_pos; try lia)).
    assert (i * 256 ≤ (n - 1) / tile_width l).
    { pose proof (Z.mul_div_le ((n - 1) / tile_width l) 256 ltac:(lia)). lia. }
    pose proof (Z.mul_div_le (n - 1) (tile_width l) ltac:(lia)). split; [|lia]. split; [lia|]. nia. }
  pose proof (λ t, tiles_to_process_spec l _ tiles t Hl Htiles) as Hspec.
  apply spec_bind.
  eapply spec_mono; [apply (spec_mapM _ _ _ (λ t r, r = tile_put l t.1.1) (keeps m D B)); [done|]| |done].
  - intros t s' Ht Hk'. apply Hspec in Ht as (i & Hin & -> & Htot & Hnew).
    rewrite Forall_forall in Htiles. destruct (Htiles i Hin) as [Hnear _].
    apply precompute_tile_spec; try done.
    cbn [fst]. pose proof (Z.mul_div_le (n - 1) (tile_width l) ltac:(lia)). nia.
  - intros rs s' [Hrs Hk']. apply spec_ret. split; [|done]. intros kv.
    rewrite (concat_tile_puts _ _ _ Hrs), elem_of_concat. setoid_rewrite list_elem_of_fmap. split.
    + intros (puts & Hkv & t & -> & Ht). apply Hspec in Ht as (i & Hin & -> & Htot & Hnew).
      apply elem_of_tile_put in Hkv as [Hf ->]. rewrite Forall_forall in Htiles.
      destruct (Htiles i Hin) as [[Hi0 _] _]. by exists i.
    + intros (i & Hi0 & Hf & Hnew & ->). exists (tile_put l i).
      split; [by apply elem_of_tile_put|]. exists (i, i * 256, i * 256 + 256). split; [done|].
      apply Hspec. exists i. unfold tile_full in Hf, Hnew. split; [|split; [done|split; [|done]]].
      * apply elem_of_zrange. rewrite !Z.div_div by lia. split.
        -- assert (N / (tile_width l * 256) < i + 1); [|lia]. apply Z.div_lt_upper_bound; nia.
        -- assert (i ≤ (n - 1) / (tile_width l * 256)); [|lia]. apply Z.div_le_lower_bound; nia.
      * assert (i * 256 + 255 ≤ (n - 1) / tile_width l); [|lia]. apply Z.div_le_lower_bound; nia.
Qed.

Lemma precompute_tiles_batch_spec s :
  keeps m D B s →
  spec (precompute_tiles_batch N n ch) s
    (λ puts s', keeps m D B s' ∧ ∃ tiles, puts = tiles ++ [(enc KLast, be_bytes 8 n)] ∧
       ∀ kv, kv ∈ tiles ↔ ∃ l i, 0 ≤ l ≤ 5 ∧ 0 ≤ i ∧ tile_full n l i ∧ ¬ tile_full N l i ∧
                            kv = (enc (KTile l i), tile_bytes D' l i))
    (db_failure m D B).
Proof.
  intros Hk. unfold precompute_tiles_batch. apply spec_bind.
  eapply spec_mono; [by eapply get_last_precomputed_size_spec| |done]. intros r s1 [-> Hk1].
  apply spec_bind. eapply spec_mono; [apply (spec_mapM _ _ _ level_puts (keeps m D B)); [done|]| |done].
  - intros l s' Hin Hk'. apply precompute_level_spec; [|done].
    repeat (apply elem_of_cons in Hin as [->|Hin]; [lia|]). by apply elem_of_nil in Hin.
  - intros rs s' [Hrs Hk']. apply spec_ret. split; [done|]. exists (concat rs). split; [done|].
    intros kv. rewrite elem_of_concat. split.
    + intros (puts & Hkv & Hin). apply list_elem_of_lookup in Hin as [j Hj].
      destruct (Forall2_lookup_r _ _ _ _ _ Hrs Hj) as (l & Hl & Hp). apply Hp in Hkv as (i & Hi & ?).
      exists l, i. split; [|done]. apply list_elem_of_lookup_2 in Hl.
      repeat (apply elem_of_cons in Hl as [->|Hl]; [lia|]). by apply elem_of_nil in Hl.
    + intros (l & i & Hl & Hi & Hf). 
      assert ([0; 1; 2; 3; 4; 5] !! Z.to_nat l = Some l) as Hlook.
      { assert (l = 0 ∨ l = 1 ∨ l = 2 ∨ l = 3 ∨ l = 4 ∨ l = 5) as Hcases by lia. naive_solver. }
      destruct (Forall2_lookup_l _ _ _ _ _ Hrs Hlook) as (puts & Hj & Hp).
      exists puts. split; [|by eapply list_elem_of_lookup_2]. apply Hp. by exists i.
Qed.

End Tiles.
