(* ===== verification/TreeBatch.v ===== *)
(** * The batch of an append, and the life of a tree

    The writes of [batch_push_with_data] take the invariant of [TreeInv] from
    the leaves [D] to [D ++ items]; with it, the specification of the append
    and of [SlateDbBackedTree::new], and the invariant of every tree that a
    sequence of operations, failed ones included, can lead to. *)

From S2P Require Import Prelude TreeMath Rfc6962 Inclusion Consistency KvStore TreeStore TreeInv.
From S2P Require Import TreeReads TreePush TreeTiles.

(** The boundaries after a batch that ends at size [n]. *)
Definition new_bounds (B : gset Z) (n : Z) : gset Z := if decide (n = 0) then B else {[ n ]} ∪ B.

Lemma elem_of_new_bounds B n v : v ∈ new_bounds B n ↔ v ∈ B ∨ (v = n ∧ n ≠ 0).
Proof. unfold new_bounds. destruct (decide (n = 0)); set_solver. Qed.

Section Batch.
  Context `{SlateDb} `{!Cache (Z * Z) bytes} `{!Cache (Z * Z) bool}.
  Context `{!SlateDbLaws} `{!CacheLaws (Z * Z) bytes} `{!CacheLaws (Z * Z) bool}.
  Context `{Digest} `{HashableLeaf T} `{Postcard T} `{!PostcardLaws T}.
  Implicit Types (D : list T) (B : gset Z) (m : gmap bytes bytes).

Lemma leaf_puts_elem c xs b kv :
  leaf_puts c xs b →
  kv ∈ b ↔ ∃ j x v, xs !! j = Some x ∧ to_stdvec x = Ok v ∧ kv = (enc (KLeaf (c + Z.of_nat j)), v).
Proof.
  induction 1 as [c|c x xs b puts Hb Hp IH]; [set_solver|].
  rewrite elem_of_cons, IH. split.
  - intros [->|(j & y & v & ? & ? & ->)].
    + exists 0%nat, x, b. rewrite Z.add_0_r. done.
    + exists (S j), y, v. split_and!; [done|done|]. do 3 f_equal. lia.
  - intros ([|j] & y & v & Hy & Hv & ->).
    + injection Hy as <-. rewrite Hb in Hv. injection Hv as <-. left. by rewrite Z.add_0_r.
    + right. exists j, y, v. split_and!; [done|done|]. do 3 f_equal. lia.
Qed.

Lemma leaf_puts_serial c xs b j x :
  leaf_puts c xs b → xs !! j = Some x → ∃ v, to_stdvec x = Ok v.
Proof.
  intros Hp. revert j. induction Hp as [c|c y xs b puts Hb Hp IH]; intros j Hj; [done|].
  destruct j; [|by eapply IH]. injection Hj as <-. by exists b.
Qed.

(** ** The writes of one append *)

Section Writes.
  Context (m : gmap bytes bytes) (D : list T) (B : gset Z) (Hinv : tree_inv m D B).
  Context (items : list T) (Hsize : zlen (D ++ items) ≤ 2 ^ 63).
  Abbreviation N := (zlen D).
  Abbreviation D' := (D ++ items).
  Abbreviation n := (zlen (D ++ items)).
  Context (ch : gmap Z bytes) (Hch : computed_ok D' N n ch).
  Context (leaves tiles : WriteBatch) (Hleaves : leaf_puts N items leaves).
  Context (Htiles : ∀ kv, kv ∈ tiles ↔ ∃ l i, 0 ≤ l ≤ 5 ∧ 0 ≤ i ∧ tile_full n l i ∧
                            ¬ tile_full N l i ∧ kv = (enc (KTile l i), tile_bytes D' l i)).
  Context (additional : list (bytes * bytes)).
  Context (Hadd : Forall (λ kv, tree_key kv.1 = false) additional).

Definition full_batch : WriteBatch :=
  (leaves ++ versioned_nodes ch n
     ++ [(META_KEY, be_bytes 8 n); (COMMITTED_SIZE_KEY, be_bytes 8 n)] ++ additional)
  ++ tiles ++ [(enc KLast, be_bytes 8 n)].

(** What the batch binds the keys of the tree to. *)
Inductive put : tkey → bytes → Prop :=
  | put_leaf j x b : items !! j = Some x → to_stdvec x = Ok b → put (KLeaf (N + Z.of_nat j)) b
  | put_meta : put KMeta (be_bytes 8 n)
  | put_committed : put KCommitted (be_bytes 8 n)
  | put_last : put KLast (be_bytes 8 n)
  | put_node i h : ch !! i = Some h → put (KNode i n) h
  | put_latest i h : ch !! i = Some h → put (KLatest i) (be_bytes 8 n)
  | put_tile l i : 0 ≤ l ≤ 5 → 0 ≤ i → tile_full n l i → ¬ tile_full N l i →
      put (KTile l i) (tile_bytes D' l i).

Lemma put_fun k v v' : put k v → put k v' → v = v'.
Proof.
  destruct 1 as [j x b Hj Hb| | | |i h Hh|i h Hh|l i Hl Hi Hf Hn]; inversion 1; subst; try congruence.
  assert (j0 = j) as -> by lia. congruence.
Qed.

Lemma computed_valid i h : ch !! i = Some h → valid n i ∧ N < hi n i ∧ h = subtree_hash D' n i.
Proof. rewrite (Hch i). destruct (decide _) as [[? ?]|]; [|done]. by intros [= <-]. Qed.

Lemma touched i : valid n i → N < hi n i → ch !! i = Some (subtree_hash D' n i).
Proof. intros. rewrite (Hch i). by rewrite decide_True. Qed.

Lemma untouched i : valid n i → ch !! i = None → hi n i = hi N i ∧ valid N i.
Proof.
  intros Hv Hno. rewrite (Hch i) in Hno. destruct (decide _) as [|Hn]; [done|].
  assert (¬ N < hi n i) as Hh by naive_solver. rewrite !hi_top in *.
  assert (N ≤ n) as HNn by (rewrite length_app; lia). split; [lia|].
  destruct (decide (top i ≤ N)) as [|Ht]; [apply valid_top; [apply Hv|done]|].
  assert (n = N) as <- by lia. done.
Qed.

Lemma size_ok_n i : valid n i → size_ok n.
Proof. unfold valid, size_ok. lia. Qed.

Lemma tile_u64 l i : 0 ≤ l ≤ 5 → 0 ≤ i → tile_full n l i → is_u64 i.
Proof.
  intros Hl Hi Hf. pose proof (tile_width_bound l Hl). unfold tile_full, is_u64 in *. nia.
Qed.

Lemma put_ok k v : put k v → tkey_ok k.
Proof.
  destruct 1 as [j x b Hj Hb| | | |i h Hh|i h Hh|l i Hl Hi Hf Hn]; cbn [tkey_ok]; try done.
  - apply lookup_lt_Some in Hj. rewrite length_app in Hsize. unfold is_u64. lia.
  - destruct (computed_valid i h Hh) as (Hv & _).
    split; [by eapply valid_u64; [eapply size_ok_n|]|]. unfold is_u64. lia.
  - destruct (computed_valid i h Hh) as (Hv & _). by eapply valid_u64; [eapply size_ok_n|].
  - by eapply tile_u64.
Qed.

Lemma elem_of_versioned kv :
  kv ∈ versioned_nodes ch n ↔
  ∃ i h, ch !! i = Some h ∧ (kv = (enc (KNode i n), h) ∨ kv = (enc (KLatest i), be_bytes 8 n)).
Proof.
  unfold versioned_nodes. rewrite elem_of_concat. setoid_rewrite list_elem_of_fmap. split.
  - intros (l & Hkv & [i h] & -> & Hin%elem_of_bt_iter). exists i, h. split; [done|].
    cbn [enc]. set_solver.
  - intros (i & h & Hi & Hkv). eexists. split; [|exists (i, h); split; [done|by apply elem_of_bt_iter]].
    cbn [enc] in Hkv. set_solver.
Qed.

Lemma enc_put k v : put k v → ∃ t w, put t w ∧ (enc k, v) = (enc t, w).
Proof. eauto. Qed.

Ltac put_case :=
  first [ solve [apply (enc_put KMeta); constructor]
        | solve [apply (enc_put KCommitted); constructor]
        | solve [apply (enc_put KLast); constructor]
        | solve [eapply enc_put; by econstructor] ].

Lemma batch_elem kv :
  kv ∈ full_batch ↔ kv ∈ additional ∨ ∃ k v, put k v ∧ kv = (enc k, v).
Proof.
  unfold full_batch. rewrite !elem_of_app, (leaf_puts_elem N items) by done.
  rewrite elem_of_versioned, Htiles, !elem_of_cons, elem_of_nil. split.
  - intros [[(j & x & v & Hj & Hv & ->)|[(i & h & Hh & [-> | ->])|[[->|[->|[]]]|?]]]|
            [(l & i & ? & ? & ? & ? & ->)|[->|[]]]]; try (by left); right; put_case.
  - intros [?|(k & v & Hput & ->)]; [by auto 10|].
    destruct Hput as [j x b Hj Hb| | | |i h Hh|i h Hh|l i Hl Hi Hf Hn].
    + left. left. by exists j, x, b.
    + left. right. right. left. by left.
    + left. right. right. left. right. by left.
    + right. right. by left.
    + left. right. left. exists i, h. auto.
    + left. right. left. exists i, h. auto.
    + right. left. by exists l, i.
Qed.

Lemma additional_not_tree k v : (enc k, v) ∉ additional.
Proof.
  intros Hin. rewrite Forall_forall in Hadd. specialize (Hadd _ Hin). cbn [fst] in Hadd.
  by rewrite tree_key_enc in Hadd.
Qed.

Lemma batch_put k v : put k v → apply_batch full_batch m !! enc k = Some v.
Proof.
  intros Hput. apply apply_batch_lookup; [apply batch_elem; eauto|].
  intros v' [Hin|(k' & v0 & Hput' & [= Hk ->])]%batch_elem; [by apply additional_not_tree in Hin|].
  apply enc_inj in Hk as <-; [|by eapply put_ok..]. by eapply put_fun.
Qed.

Lemma batch_keep k : tkey_ok k → (∀ v, ¬ put k v) → apply_batch full_batch m !! enc k = m !! enc k.
Proof.
  intros Hk Hno. apply apply_batch_notin. intros ((k' & v) & Heq & Hin)%list_elem_of_fmap.
  cbn in Heq. subst k'. apply batch_elem in Hin as [Hin|(k' & v0 & Hput' & [= Hkk ->])].
  { by apply additional_not_tree in Hin. }
  apply enc_inj in Hkk as <-; [by eapply Hno|done|by eapply put_ok].
Qed.

(** Keys that are not the tree's see the additional data only. *)
Lemma batch_other k :
  tree_key k = false → apply_batch full_batch m !! k = apply_batch additional m !! k.
Proof.
  intros Hk.
  assert (∀ b, (∀ kv, kv ∈ b → ∃ t v, put t v ∧ kv = (enc t, v)) → k ∉ b.*1) as Hnot.
  { intros b Hb ((k' & v) & -> & Hin)%list_elem_of_fmap.
    destruct (Hb _ Hin) as (t & w & _ & [= -> _]). cbn [fst] in Hk. by rewrite tree_key_enc in Hk. }
  assert (∀ kv, kv ∈ full_batch → kv ∉ additional → ∃ t v, put t v ∧ kv = (enc t, v)) as Hfull.
  { intros kv [?|?]%batch_elem Hna; done. }
  unfold full_batch in *. rewrite (apply_batch_app _ (tiles ++ _)), apply_batch_notin.
  - rewrite !app_assoc, apply_batch_app. apply apply_batch_local, apply_batch_notin, Hnot.
    intros kv Hin. rewrite !elem_of_app, (leaf_puts_elem N items) in Hin by done.
    rewrite elem_of_versioned, !elem_of_cons, elem_of_nil in Hin.
    destruct Hin as [[(j & x & v & Hj & Hv & ->)|(i & h & Hh & [-> | ->])]|[->|[->|[]]]];
      put_case.
  - apply Hnot. intros kv Hin. rewrite elem_of_app, Htiles, elem_of_cons, elem_of_nil in Hin.
    destruct Hin as [(l & i & ? & ? & ? & ? & ->)|[->|[]]];
      put_case.
Qed.

(** ** The invariant after the append *)

Abbreviation B' := (new_bounds B n).
Abbreviation m' := (apply_batch full_batch m).

Lemma N_le_n : N ≤ n.
Proof. rewrite length_app. lia. Qed.

Lemma old_bound v : v ∈ B → 0 < v ≤ N.
Proof. apply (ti_bound _ _ _ Hinv). Qed.

(** A hash of the old tree is a hash of the new one. *)
Lemma old_hash v i : 0 ≤ i → v ≤ N → subtree_hash D v i = subtree_hash D' v i.
Proof. intros. by rewrite subtree_hash_app. Qed.

Lemma new_size k : put k (be_bytes 8 n) → size_at m' k n.
Proof. intros Hp. unfold size_at. by rewrite (batch_put k _ Hp). Qed.

Lemma new_leaf i x :
  D' !! Z.to_nat i = Some x → 0 ≤ i → ∃ b, to_stdvec x = Ok b ∧ m' !! enc (KLeaf i) = Some b.
Proof.
  intros Hx Hi. destruct (decide (i < N)) as [Hlt|Hge].
  - rewrite lookup_app_l in Hx by lia. destruct (ti_leaf _ _ _ Hinv i x Hx Hi) as (b & Hb & Hm).
    exists b. split; [done|]. rewrite batch_keep; [done|cbn; unfold is_u64; pose proof N_le_n; lia|].
    intros v Hp. inversion Hp; subst. lia.
  - rewrite lookup_app_r in Hx by lia. destruct (leaf_puts_serial _ _ _ _ _ Hleaves Hx) as [b Hb].
    exists b. split; [done|].
    replace i with (N + Z.of_nat (Z.to_nat i - length D)) by lia. by eapply batch_put, put_leaf.
Qed.

Lemma new_node i v h :
  is_u64 i → is_u64 v → m' !! enc (KNode i v) = Some h →
  v ∈ B' ∧ valid v i ∧ h = subtree_hash D' v i.
Proof.
  intros Hi Hv Hh. rewrite elem_of_new_bounds.
  destruct (decide (v = n ∧ is_Some (ch !! i))) as [[-> [h' Hh']]|Hno].
  - rewrite (batch_put _ _ (put_node i h' Hh')) in Hh. injection Hh as <-.
    destruct (computed_valid i h' Hh') as (Hval & _ & ->). split_and!; [|done|done].
    right. split; [done|]. unfold valid in Hval. lia.
  - rewrite batch_keep in Hh; [|done|].
    + destruct (ti_node _ _ _ Hinv i v h Hi Hv Hh) as (HB & Hval & ->).
      pose proof (old_bound v HB). split_and!; [by left|done|]. apply old_hash; [apply Hi|lia].
    + intros w Hp. inversion Hp; subst. destruct Hno. split; [done|by eexists].
Qed.

Lemma keep_node i v : is_u64 i → is_u64 v → (v = n → ch !! i = None) →
  m' !! enc (KNode i v) = m !! enc (KNode i v).
Proof.
  intros Hi Hv Hno. apply batch_keep; [done|]. intros w Hp. inversion Hp; subst.
  rewrite Hno in *; done.
Qed.

Lemma new_last_leaf i v :
  v ∈ B' → valid v i → hi v i = v → m' !! enc (KNode i v) = Some (subtree_hash D' v i).
Proof.
  intros HB Hv Hh. pose proof N_le_n as HNn.
  assert (v ∈ B → (v = n → ch !! i = None) → m' !! enc (KNode i v) = Some (subtree_hash D' v i)) as Hold.
  { intros HvB Hno. pose proof (old_bound v HvB). rewrite keep_node; [|..|done].
    - rewrite (ti_last_leaf _ _ _ Hinv i v HvB Hv Hh). f_equal. apply old_hash; [apply Hv|lia].
    - eapply valid_u64; [by eapply bound_size_ok|done].
    - by eapply bound_u64. }
  apply elem_of_new_bounds in HB as [HB|[-> Hn0]].
  - apply Hold; [done|]. intros ->. rewrite (Hch i), decide_False; [done|].
    intros [_ ?]. pose proof (old_bound n HB). lia.
  - destruct (ch !! i) as [h|] eqn:Hi.
    + destruct (computed_valid i h Hi) as (_ & _ & ->). by apply batch_put, put_node.
    + destruct (untouched i Hv Hi) as [Heq _]. apply Hold; [|done].
      assert (n = N) as Hnn by (rewrite Hh, hi_top in Heq; lia). rewrite Hnn in *.
      apply (ti_top _ _ _ Hinv). lia.
Qed.

Lemma new_latest i :
  is_u64 i →
  match m' !! enc (KLatest i) with
  | Some b => ∃ l, b = be_bytes 8 l ∧ l ∈ B' ∧ valid n i ∧ hi l i = hi n i ∧
      m' !! enc (KNode i l) = Some (subtree_hash D' n i) ∧ ∀ v, v ∈ B' → top i ≤ v → l ≤ v
  | None => ¬ valid n i
  end.
Proof.
  intros Hi. pose proof N_le_n as HNn.
  destruct (ch !! i) as [h|] eqn:Hci.
  - rewrite (batch_put _ _ (put_latest i h Hci)).
    destruct (computed_valid i h Hci) as (Hv & Hh & ->). exists n. split_and!; try done.
    + apply elem_of_new_bounds. right. unfold valid in Hv. lia.
    + by apply batch_put, put_node.
    + intros v [HB|[-> _]]%elem_of_new_bounds Ht; [|done]. pose proof (old_bound v HB). rewrite hi_top in Hh. lia.
  - rewrite batch_keep; [|done|intros v Hp; inversion Hp; congruence].
    pose proof (ti_latest _ _ _ Hinv i Hi) as Hlat. destruct (m !! enc (KLatest i)) as [b|]; last first.
    { intros Hv. by destruct (untouched i Hv Hci). }
    destruct Hlat as (l & -> & HB & Hv & Hhi & Hnode & Hmin). pose proof (old_bound l HB).
    assert (valid n i) as Hvn by (unfold valid in *; lia).
    destruct (untouched i Hvn Hci) as [Heq _]. exists l. split_and!; try done.
    + apply elem_of_new_bounds. by left.
    + congruence.
    + rewrite keep_node; [|done|by eapply bound_u64|done]. rewrite Hnode. f_equal.
      rewrite old_hash by (apply Hi || lia). by apply subtree_hash_hi.
    + intros v [HvB|[-> _]]%elem_of_new_bounds Ht; [by apply Hmin|lia].
Qed.

Lemma new_tile l i :
  0 ≤ l ≤ 5 → is_u64 i →
  (tile_full n l i → m' !! enc (KTile l i) = Some (tile_bytes D' l i)) ∧
  (¬ tile_full n l i → m' !! enc (KTile l i) = None).
Proof.
  intros Hl Hi. pose proof N_le_n as HNn. destruct (ti_tile _ _ _ Hinv l i Hl Hi) as [Hold1 Hold2].
  destruct (decide (tile_full N l i)) as [Hf|Hf].
  - assert (tile_full n l i) by (unfold tile_full in *; lia). split; [|done]. intros _.
    rewrite batch_keep, Hold1; [|done|done|intros v Hp; inversion Hp; done].
    f_equal. unfold tile_bytes. f_equal. apply map_ext_in. intros p Hp%list_elem_of_In%elem_of_zrange.
    unfold is_u64, tile_full in *. pose proof (tile_width_bound l Hl).
    rewrite zslice_app_l; [done|nia|nia].
  - split.
    + intros Hn. apply batch_put, put_tile; try done. apply Hi.
    + intros Hn. rewrite batch_keep; [by apply Hold2|done|]. intros v Hp. inversion Hp; done.
Qed.

Lemma tree_inv_append : tree_inv m' D' B'.
Proof.
  pose proof N_le_n as HNn. split.
  - done.
  - apply new_size. constructor.
  - apply new_size. constructor.
  - apply new_size. constructor.
  - intros v [HB|[-> ?]]%elem_of_new_bounds; [pose proof (old_bound v HB)|]; lia.
  - intros Hn. apply elem_of_new_bounds. right. lia.
  - apply new_leaf.
  - apply new_node.
  - apply new_last_leaf.
  - apply new_latest.
  - apply new_tile.
Qed.

End Writes.

(** ** Appends *)

Lemma cached_ok_append m D B items i v h :
  tree_inv m D B → cached_ok D B i v h →
  cached_ok (D ++ items) (new_bounds B (zlen (D ++ items))) i v h.
Proof.
  intros Hinv [H1' H2']. pose proof (ti_bound _ _ _ Hinv) as Hbound.
  assert (zlen D ≤ zlen (D ++ items)) as HNn by (rewrite length_app; lia). split.
  - intros [HB|[-> Hn0]]%elem_of_new_bounds Hv.
    + rewrite (H1' HB Hv). pose proof (Hbound v HB). rewrite subtree_hash_app; [done|apply Hv|lia].
    + destruct (decide (zlen (D ++ items) = zlen D)) as [Heq|Hne].
      * assert (zlen D ∈ B) as HB by (apply (ti_top _ _ _ Hinv); lia).
        rewrite Heq in *. rewrite (H1' HB Hv). rewrite subtree_hash_app; [done|apply Hv|lia].
      * destruct (H2' ltac:(lia)) as (Hi & Ht & ->).
        rewrite <- (subtree_hash_app D items) by lia. apply subtree_hash_top; lia.
  - intros Hlt. destruct (H2' ltac:(lia)) as (Hi & Ht & ->). split_and!; [done|lia|].
    rewrite <- (subtree_hash_app D items) by lia. apply subtree_hash_top; lia.
Qed.

Lemma cache_inv_append m D B items s :
  tree_inv m D B → cache_inv s D B →
  cache_inv s (D ++ items) (new_bounds B (zlen (D ++ items))).
Proof.
  intros Hinv Hc c Hs k h Hk. eapply cached_ok_append; [done|]. by apply (Hc c Hs k h).
Qed.

Lemma inv_nothing s D B : inv s D B → inv s (D ++ []) (new_bounds B (zlen (D ++ []))).
Proof.
  intros [Hi Hc]. rewrite app_nil_r. assert (new_bounds B (zlen D) = B) as ->; [|done].
  apply set_eq. intros v. rewrite elem_of_new_bounds. split; [|by left].
  intros [?|[-> ?]]; [done|]. apply (ti_top _ _ _ Hi). lia.
Qed.

(** The state an append leads to. *)
Definition appended s D B (items : list T) (additional : list (bytes * bytes))
    (s' : SlateDbBackedTree) : Prop :=
  inv s' (D ++ items) (new_bounds B (zlen (D ++ items))) ∧
  ∀ k, tree_key k = false → view s' !! k = apply_batch additional (view s) !! k.

Lemma write_batch_spec b m D B s :
  keeps m D B s →
  spec (on_db (rl_write_batch b)) s
    (λ _ s', view s' = apply_batch b m ∧ cache_inv s' D B)
    (λ e s', (∃ d, e = DbError d) ∧ cache_inv s' D B ∧ (view s' = m ∨ view s' = apply_batch b m)).
Proof.
  intros [Hm Hc]. unfold view in Hm. apply spec_on_db.
  eapply spec_mono; [apply rl_write_batch_spec|..]; cbn.
  - intros [] d Hd. split; [by rewrite <- Hm|done].
  - intros e d Hd. split; [by eexists|]. split; [done|]. by rewrite <- Hm.
Qed.

(** What an append writes. *)
Definition wrote m D (items : list T) (additional : list (bytes * bytes)) (m' : gmap bytes bytes) : Prop :=
  ∃ ch leaves tiles,
    computed_ok (D ++ items) (zlen D) (zlen (D ++ items)) ch ∧ leaf_puts (zlen D) items leaves ∧
    (∀ kv, kv ∈ tiles ↔ ∃ l i, 0 ≤ l ≤ 5 ∧ 0 ≤ i ∧ tile_full (zlen (D ++ items)) l i ∧
       ¬ tile_full (zlen D) l i ∧ kv = (enc (KTile l i), tile_bytes (D ++ items) l i)) ∧
    m' = apply_batch (full_batch D items ch leaves tiles additional) m.

Lemma wrote_appended D B s items additional s' :
  inv s D B → zlen (D ++ items) ≤ 2 ^ 63 → Forall (λ kv, tree_key kv.1 = false) additional →
  wrote (view s) D items additional (view s') → cache_inv s' D B → appended s D B items additional s'.
Proof.
  intros [Hi _] Hsz Hadd (ch & leaves & tiles & Hch & Hleaves & Htiles & Hv) Hc. split; [split|].
  - rewrite Hv. by apply tree_inv_append.
  - by eapply cache_inv_append.
  - intros k Hkey. rewrite Hv. by eapply batch_other.
Qed.

Lemma computed_ok_fun D' N c ch ch' : computed_ok D' N c ch → computed_ok D' N c ch' → ch = ch'.
Proof. intros Hch Hch'. apply map_eq. intros i. by rewrite (Hch i), (Hch' i). Qed.

Lemma leaf_puts_fun c xs b b' : leaf_puts c xs b → leaf_puts c xs b' → b = b'.
Proof.
  intros Hp. revert b'. induction Hp as [c|c x xs v puts Hv Hp IH]; intros b' Hp'; inversion Hp'; subst; [done|].
  rewrite (IH _ H9). congruence.
Qed.

(** The store after an append without additional data is determined. *)
Lemma wrote_fun m D B items m1 m2 :
  tree_inv m D B → zlen (D ++ items) ≤ 2 ^ 63 →
  wrote m D items [] m1 → wrote m D items [] m2 → m1 = m2.
Proof.
  intros Hi Hsz (ch & leaves & tiles & Hch & Hl & Ht & ->) (ch' & leaves' & tiles' & Hch' & Hl' & Ht' & ->).
  rewrite (computed_ok_fun _ _ _ _ _ Hch' Hch) in *. rewrite (leaf_puts_fun _ _ _ _ Hl' Hl) in *.
  apply apply_batch_same.
  - intros kv. unfold full_batch. rewrite !elem_of_app, Ht, Ht'. done.
  - intros k v v'. rewrite !(batch_elem m D B Hi items Hsz ch Hch leaves tiles Hl Ht [] (Forall_nil_2 _)).
    intros [[]%not_elem_of_nil|(t & w & Hp & [= -> ->])] [[]%not_elem_of_nil|(t' & w' & Hp' & [= Ht0 ->])].
    apply enc_inj in Ht0 as <-; [by eapply put_fun|by eapply (put_ok D items Hsz ch Hch)..].
Qed.

(** Before the write nothing changes; the write is atomic. *)
Lemma batch_push_writes D B s items additional :
  output_size = 32%nat → inv s D B → zlen (D ++ items) ≤ 2 ^ 63 →
  items ≠ [] ∨ additional ≠ [] →
  spec (batch_push_with_data items additional) s
    (λ r s', r = zlen D ∧ wrote (view s) D items additional (view s') ∧ cache_inv s' D B)
    (λ e s', push_error (view s) D B e s' ∨
       ((∃ d, e = DbError d) ∧ wrote (view s) D items additional (view s') ∧ cache_inv s' D B)).
Proof.
  intros Hash32 Hinv Hsz Hne. pose proof Hinv as [Hi _]. pose proof (inv_keeps _ _ _ Hinv) as Hk.
  assert (∀ e s', db_failure (view s) D B e s' → push_error (view s) D B e s') as Hdb
    by apply db_push_error.
  unfold batch_push_with_data. apply spec_bind.
  eapply spec_mono; [by eapply len_spec| |auto]. intros r s1 [-> Hk1].
  assert (bool_decide (items = []) && bool_decide (additional = []) = false) as ->.
  { apply andb_false_iff. rewrite !bool_decide_eq_false. done. }
  destruct (nodes_to_prefetch_ok (D ++ items) (zlen D) (zrange 0 (zlen items)) ∅)
    as (X & HX & HXu); [lia|done| |].
  { apply Forall_forall. intros i Hin%elem_of_zrange. rewrite length_app. lia. }
  apply spec_bind. eapply spec_lift_ok; [exact HX|]. apply spec_bind.
  eapply spec_mono; [eapply prefetch_nodes_spec; [done| |done]| |auto].
  { intros x Hx. destruct (HXu x Hx) as [Hx'|]; [by apply not_elem_of_empty in Hx'|done]. }
  intros P s2 [HP Hk2]. apply spec_bind.
  eapply spec_mono; [eapply (push_items_spec (view s) D B Hi items Hsz P HP items [] (zlen D) ∅)| |auto].
  { lia. }
  { rewrite length_app. lia. }
  { by rewrite Nat2Z.id, drop_app_length. }
  { intros i. rewrite lookup_empty, decide_False; [done|]. intros [_ Hh]. rewrite hi_top in Hh. lia. }
  { done. }
  intros [[batch final] ch] s3 (Hk3 & leaves & Hb & Hleaves & Hfin & Hch). cbn [fst snd app] in *.
  subst batch final. apply spec_bind.
  eapply spec_mono; [eapply (precompute_tiles_batch_spec Hash32 (view s) D B Hi items Hsz ch Hch)| |auto];
    [done|]. intros puts s4 (Hk4 & tiles & -> & Htiles). apply spec_bind.
  set (b := _ ++ tiles ++ _). change b with (full_batch D items ch leaves tiles additional).
  eapply spec_mono; [by apply write_batch_spec|..]; cbv beta.
  - intros [] s5 [Hv Hc]. apply spec_ret. split; [done|]. split; [|done]. by exists ch, leaves, tiles.
  - intros e s5 (He & Hc & [Hv|Hv]); [left|right].
    + split; [by left|]. by split.
    + split; [done|]. split; [|done]. by exists ch, leaves, tiles.
Qed.

Lemma batch_push_spec D B s items additional :
  output_size = 32%nat → inv s D B → zlen (D ++ items) ≤ 2 ^ 63 → Forall (λ kv, tree_key kv.1 = false) additional →
  spec (batch_push_with_data items additional) s
    (λ r s', r = zlen D ∧ appended s D B items additional s')
    (λ e s', ((∃ d, e = DbError d) ∨ (∃ msg, e = EncodingError msg)) ∧
       ((inv s' D B ∧ view s' = view s) ∨ appended s D B items additional s')).
Proof.
  intros Hash32 Hinv Hsz Hadd. destruct (decide (items = [] ∧ additional = [])) as [[-> ->]|Hne].
  { unfold batch_push_with_data. apply spec_bind.
    eapply spec_mono; [eapply len_spec; [apply Hinv|by apply inv_keeps]|..].
    - intros r s1 [-> Hk1]. apply spec_ret. split; [done|].
      split; [|intros k _; by rewrite (proj1 Hk1)]. by eapply inv_nothing, keeps_inv.
    - intros e s1 [? Hk1]. split; [by left|]. left. split; [by eapply keeps_inv|apply Hk1]. }
  eapply spec_mono; [apply (batch_push_writes D B); try done; destruct (decide (items = [])); naive_solver|..].
  - intros r s' (-> & Hw & Hc). split; [done|]. by apply wrote_appended.
  - intros e s' [[He Hk]|(He & Hw & Hc)].
    + split; [done|]. left. split; [by eapply keeps_inv|apply Hk].
    + split; [by left|]. right. by apply wrote_appended.
Qed.

(** C7: [batch_push_with_data] on a tree of the leaves [D]: it returns the
    number of leaves before the append, the tree is then that of
    [D ++ items] with the new size as a boundary (nodes, versions, sizes,
    leaves and tiles), and the additional data is written with it.  When it
    fails, with an error of the database or of the serialization, the store
    is either unchanged or has taken the whole batch.  It neither panics nor
    loops up to 2^63 leaves. *)
Theorem batch_push_with_data_correct D B s items additional :
  output_size = 32%nat → inv s D B → zlen (D ++ items) ≤ 2 ^ 63 →
  Forall (λ kv, tree_key kv.1 = false) additional →
  spec (batch_push_with_data items additional) s
    (λ r s', r = zlen D ∧ appended s D B items additional s')
    (λ e s', ((∃ d, e = DbError d) ∨ (∃ msg, e = EncodingError msg)) ∧
       ((inv s' D B ∧ view s' = view s) ∨ appended s D B items additional s')).
Proof. apply batch_push_spec. Qed.

(** ** Opening a tree *)

(** Writing a size that the store stands for already changes nothing. *)
Lemma tree_inv_size m D B k :
  k = KMeta ∨ k = KCommitted → tree_inv m D B →
  tree_inv (<[enc k := be_bytes 8 (zlen D)]> m) D B.
Proof.
  intros Hk Hi.
  assert (∀ k', tkey_ok k' → k' ≠ k → <[enc k := be_bytes 8 (zlen D)]> m !! enc k' = m !! enc k') as Hother.
  { intros k' Hok Hne. apply lookup_insert_ne. intros Heq. destruct Hne.
    symmetry. apply enc_inj; [by destruct Hk as [-> | ->]|done|done]. }
  assert (∀ k', tkey_ok k' → size_at m k' (zlen D) →
    size_at (<[enc k := be_bytes 8 (zlen D)]> m) k' (zlen D)) as Hsz.
  { intros k' Hok Hs. unfold size_at in *. destruct (decide (enc k' = enc k)) as [Heq|Hne].
    - by rewrite Heq, lookup_insert_eq.
    - by rewrite lookup_insert_ne. }
  assert (∀ i, KLeaf i ≠ k ∧ KLatest i ≠ k) as Hn1 by (by destruct Hk as [-> | ->]).
  assert (∀ i j, KNode i j ≠ k ∧ KTile i j ≠ k) as Hn2 by (by destruct Hk as [-> | ->]).
  pose proof (ti_size _ _ _ Hi). split.
  - done.
  - apply Hsz; [done|by apply ti_meta with B].
  - apply Hsz; [done|by apply ti_committed with B].
  - apply Hsz; [done|by apply ti_last with B].
  - by eapply ti_bound.
  - by eapply ti_top.
  - intros i x Hx Hi0. rewrite Hother; [by eapply ti_leaf| |apply Hn1].
    apply lookup_lt_Some in Hx. cbn. unfold is_u64. lia.
  - intros i v h Hi0 Hv. rewrite Hother; [by eapply ti_node|done|apply Hn2].
  - intros i v HB Hv Hh. rewrite Hother; [by eapply ti_last_leaf| |apply Hn2].
    split; [eapply valid_u64; [by eapply bound_size_ok|done]|by eapply bound_u64].
  - intros i Hi0. rewrite Hother; [|done|apply Hn1].
    pose proof (ti_latest _ _ _ Hi i Hi0) as Hlat. destruct (m !! enc (KLatest i)) as [b|]; [|done].
    destruct Hlat as (l & ? & HB & ? & ? & ? & ?). exists l. split_and!; try done.
    rewrite Hother; [done|split; [done|by eapply bound_u64]|apply Hn2].
  - intros l i Hl Hi0. rewrite Hother; [by eapply ti_tile|done|apply Hn2].
Qed.

(** A store without keys of the tree is an empty tree. *)
Lemma tree_inv_empty m : (∀ k, m !! enc k = None) → tree_inv m [] ∅.
Proof.
  intros Hm. split.
  - cbn. lia.
  - unfold size_at. by rewrite Hm.
  - unfold size_at. by rewrite Hm.
  - unfold size_at. by rewrite Hm.
  - intros v []%not_elem_of_empty.
  - cbn. lia.
  - done.
  - intros i v h _ _. by rewrite Hm.
  - intros i v []%not_elem_of_empty.
  - intros i _. rewrite Hm. unfold valid. cbn. lia.
  - intros l i Hl Hi. rewrite Hm. split; [|done]. pose proof (tile_width_bound l Hl).
    unfold tile_full, is_u64 in *. cbn. nia.
Qed.

Lemma put_size_spec m D B k s :
  k = KMeta ∨ k = KCommitted → tree_inv m D B → keeps m D B s →
  spec (on_db (rl_put (enc k) (be_bytes 8 (zlen D)))) s
    (λ _ s', ∃ m', tree_inv m' D B ∧ keeps m' D B s') (λ e s', True).
Proof.
  intros Hk Hi [Hm Hc]. unfold view in Hm. apply spec_on_db.
  eapply spec_mono; [apply rl_put_spec| |done]. cbn. intros [] d Hd.
  eexists. split; [by apply tree_inv_size|]. split; [by rewrite <- Hm|done].
Qed.

Lemma new_spec db D B :
  tree_inv (rl_view db) D B →
  match new db with Ok tree => inv tree D B | Err _ => True | Panic | Fuel => False end.
Proof.
  intros Hi. unfold new. set (tree := {| tree_db := db |}).
  assert (keeps (rl_view db) D B tree) as Hk.
  { split; [done|]. intros c [= <-]. rewrite cache_new_law. apply map_Forall_empty. }
  assert (spec new_init tree (λ _ s', ∃ m', tree_inv m' D B ∧ keeps m' D B s') (λ e s', True)) as Hspec.
  { unfold new_init, get_num_leaves. apply spec_bind, spec_bind.
    eapply spec_mono; [by apply get_spec| |done]. intros v s1 [-> Hk1].
    pose proof (ti_meta _ _ _ Hi) as Hm. unfold size_at in Hm. cbn [enc] in Hm.
    destruct (rl_view db !! META_KEY) as [b|] eqn:Hb.
    - subst b. apply spec_bind. eapply spec_lift_ok; [by apply u64_from_be; eapply zlen_u64|].
      apply spec_ret, spec_ret. eauto.
    - apply spec_ret, spec_bind. rewrite <- Hm.
      eapply spec_mono; [eapply (put_size_spec _ D B KMeta); eauto| |done].
      intros [] s2 (m2 & Hi2 & Hk2). rewrite Hm in *. rewrite <- Hm.
      eapply (put_size_spec _ D B KCommitted); eauto. }
  unfold spec in Hspec. destruct (new_init tree) as [[]]; try done.
  destruct Hspec as (m' & Hi' & Hv & Hc). split; [by rewrite Hv|done].
Qed.

End Batch.
