(* ===== verification/TreeSingle.v ===== *)
(** * Appending one leaf, and the reads of the latest tree

    The second half of the interface of src/src/merkle_tree/slatedb_backed_tree.rs,
    which the tests of the repository use: [push] appends a single leaf by its
    own walk to the root, [root], [get], [prove_inclusion] and
    [prove_consistency] read the latest tree.  [push] is shown to write what a
    batch of one leaf writes. *)

From S2P Require Import Prelude TreeMath Rfc6962 Inclusion Consistency KvStore TreeStore TreeInv.
From S2P Require Import TreeReads TreePush TreeTiles TreeBatch.

Section Single.
  Context `{SlateDb} `{!Cache (Z * Z) bytes} `{!Cache (Z * Z) bool}.
  Context `{Digest} `{HashableLeaf T} `{Postcard T}.
  Abbreviation M := (stM SlateDbBackedTree SlateDbTreeError).

Definition is_empty : M bool := n ← len; mret (n =? 0).

(** The loop of [recalculate_path_batch]. *)
Fixpoint path_loop (fuel : nat) (num_leaves cur_idx : Z) (computed_hashes : gmap Z bytes) :
    M (gmap Z bytes) :=
  if cur_idx =? root_idx num_leaves then mret computed_hashes
  else
    match fuel with
    | O => lift Fuel
    | S f =>
        parent_idx ← lift (parent cur_idx num_leaves);
        sibling_idx ← lift (sibling cur_idx num_leaves);
        cur_node ← lift (ok_or (computed_hashes !! cur_idx)
                           (InconsistentState ("Missing computed hash for node " +:+ pretty cur_idx)));
        sibling ← match computed_hashes !! sibling_idx with
                  | Some hash => mret hash
                  | None => get_node_hash_at_version sibling_idx (num_leaves -! 1)
                  end;
        is_l ← lift (is_left cur_idx num_leaves);
        let parent_h := if is_l : bool then parent_hash cur_node sibling
                        else parent_hash sibling cur_node in
        path_loop f num_leaves parent_idx (<[parent_idx := parent_h]> computed_hashes)
    end.

(** The hashes, and the puts added to the batch. *)
Definition recalculate_path_batch (leaf_idx : Z) (leaf_val : T) (num_leaves : Z) :
    M (gmap Z bytes * WriteBatch) :=
  let cur_idx := InternalIdx_from leaf_idx in
  computed_hashes ← path_loop 64 num_leaves cur_idx {[ cur_idx := leaf_hash leaf_val ]};
  mret (computed_hashes, versioned_nodes computed_hashes num_leaves).

Definition push (new_val : T) : M unit :=
  num_leaves ← len;
  if U64_MAX / 2 <=? num_leaves then fail (InconsistentState "Tree is full")
  else
    leaf_bytes ← lift (map_err EncodingError (to_stdvec new_val));
    new_leaf_idx ← lift (LeafIdx_new num_leaves);
    '(computed_hashes, nodes) ← recalculate_path_batch new_leaf_idx new_val (num_leaves +! 1);
    let batch := [(leaf_key num_leaves, leaf_bytes)] ++ nodes
                   ++ [(META_KEY, be_bytes 8 (num_leaves +! 1));
                       (COMMITTED_SIZE_KEY, be_bytes 8 (num_leaves +! 1))] in
    tiles ← precompute_tiles_batch num_leaves (num_leaves +! 1) computed_hashes;
    on_db (rl_write_batch (batch ++ tiles)).

Definition root : M RootHash :=
  num_leaves ← get_committed_size;
  root_hash ← (if num_leaves =? 0 then mret (digest [])
               else get_node_hash_at_version (root_idx num_leaves) num_leaves);
  mret (RootHash_new root_hash num_leaves).

Definition get_leaf (idx : Z) : M (option T) :=
  v ← get (leaf_key idx);
  match v with
  | Some b => leaf ← lift (map_err EncodingError (from_bytes b)); mret (Some leaf)
  | None => mret None
  end.

Definition prove_inclusion (idx : Z) : M InclusionProof :=
  num_leaves ← get_committed_size;
  if num_leaves <=? idx then
    fail (InconsistentState ("Index " +:+ pretty idx +:+ " out of bounds (tree has " +:+
                             pretty num_leaves +:+ " leaves)"))
  else prove_inclusion_at_size idx num_leaves.

Definition prove_consistency (old_size : Z) : M ConsistencyProof :=
  new_size ← get_committed_size;
  if old_size =? 0 then
    fail (InconsistentState "Cannot create consistency proof from empty tree")
  else prove_consistency_between old_size new_size.

End Single.

(** ** Properties *)

Section Correct.
  Context `{SlateDb} `{!Cache (Z * Z) bytes} `{!Cache (Z * Z) bool}.
  Context `{!SlateDbLaws} `{!CacheLaws (Z * Z) bytes} `{!CacheLaws (Z * Z) bool}.
  Context `{Digest} `{HashableLeaf T} `{Postcard T} `{!PostcardLaws T}.
  Implicit Types (D : list T) (B : gset Z).

Section Path.
  Context (m : gmap bytes bytes) (D : list T) (B : gset Z) (Hinv : tree_inv m D B).
  Context (x : T) (Hsize : zlen D + 1 ≤ 2 ^ 63).
  Abbreviation N := (zlen D).
  Abbreviation D' := (D ++ [x]).

Lemma length_snoc : zlen D' = N + 1.
Proof. rewrite length_app. cbn [length]. lia. Qed.

(** The sibling of a node over the new leaf was complete before. *)
Lemma path_sibling_spec p l r ch s :
  children (N + 1) p l r → hi (N + 1) r = N + 1 → climb_inv D' N N (level r) ch → keeps m D B s →
  spec (match ch !! l with
        | Some hash => mret hash
        | None => get_node_hash_at_version l (N +! 1 -! 1)
        end) s
    (λ h s', h = subtree_hash D' (N + 1) l ∧ keeps m D B s') (db_failure m D B).
Proof.
  intros Hc Hr Hch Hk. rewrite (u64_small (N + 1)), u64_small by lia.
  replace (N + 1 - 1) with N by lia.
  pose proof (sibling_hash_spec m D B Hinv [x] ltac:(by rewrite length_snoc) ∅) as Hs.
  specialize (Hs ltac:(intros i h Hh; by rewrite lookup_empty in Hh) N p l r ch s).
  rewrite length_snoc in Hs. specialize (Hs ltac:(lia) ltac:(lia) Hc Hr Hch Hk).
  destruct (ch !! l); [done|]. rewrite lookup_empty in Hs.
  assert (l < N * 2) as Hlt.
  { pose proof (ch_hi_l _ _ _ _ Hc) as Htop. fold (top l) in Htop.
    pose proof (children_lt Hc). pose proof (ch_hi_r _ _ _ _ Hc). pose proof (valid_lo_hi _ _ (ch_r _ _ _ _ Hc)).
    pose proof (ch_l _ _ _ _ Hc) as Hvl. assert (valid N l) as Hv by (apply valid_top; [apply Hvl|lia]).
    unfold valid in Hv. lia. }
  rewrite u64_small in Hs by lia. by rewrite (proj2 (Z.leb_gt _ _)) in Hs by lia.
Qed.

Lemma path_loop_spec cur out ch f s :
  up (N + 1) cur (root_idx (N + 1)) out → hi (N + 1) cur = N + 1 → (length out ≤ f)%nat →
  ch !! cur = Some (subtree_hash D' (N + 1) cur) → climb_inv D' N N (level cur) ch → keeps m D B s →
  spec (path_loop f (N +! 1) cur ch) s
    (λ ch' s', computed_ok D' N (N + 1) ch' ∧ keeps m D B s') (db_failure m D B).
Proof.
  intros Hup. assert (size_ok (N + 1)) as Hok by (unfold size_ok; lia).
  rewrite (u64_small (N + 1)) by lia.
  remember (root_idx (N + 1)) as t eqn:Ht. revert f ch s.
  induction Hup as [i Hi|p l r t out Hc Hup IH|p l r t out Hc Hup IH]; intros f ch s Hh Hf Hcur Hch Hk.
  - destruct f; cbn [path_loop]; rewrite <- Ht, Z.eqb_refl; apply spec_ret; (split; [|done]);
      (apply climb_finish; [done|lia|by rewrite <- Ht]).
  - rewrite (children_hi_l Hc) in Hh. pose proof (children_lt Hc).
    pose proof (valid_lo_hi _ _ (ch_p _ _ _ _ Hc)). lia.
  - destruct f as [|f]; cbn [length] in Hf; [lia|]. cbn [path_loop].
    rewrite (parent_not_root (E := unit) (N + 1) r p) by apply Hc.
    apply spec_bind. eapply spec_lift_ok; [apply (ch_parent_r _ _ _ _ Hc)|].
    apply spec_bind. eapply spec_lift_ok; [apply (sibling_right Hc)|].
    rewrite Hcur. apply spec_bind. eapply spec_lift_ok; [done|]. apply spec_bind.
    pose proof (path_sibling_spec p l r ch s Hc Hh Hch Hk) as Hsib. rewrite (u64_small (N + 1)) in Hsib by lia.
    eapply spec_mono; [exact Hsib| |done]. intros h s' [-> Hk']. apply spec_bind.
    eapply spec_lift_ok; [apply (is_left_right Hc)|].
    cbv zeta. rewrite <- (subtree_hash_children Hc) by (rewrite ?length_snoc; lia || done).
    apply IH; try done; [by rewrite <- (ch_hi_r _ _ _ _ Hc)|lia|by rewrite lookup_insert_eq|].
    by eapply climb_step.
Qed.

End Path.

(** What [push] does to the store of a tree of the leaves [D]. *)
Lemma push_spec D B s x :
  output_size = 32%nat → inv s D B → zlen D < 2 ^ 63 - 1 →
  spec (push x) s (λ _ s', wrote (view s) D [x] [] (view s') ∧ cache_inv s' D B)
    (λ e s', push_error (view s) D B e s' ∨
       ((∃ d, e = DbError d) ∧ wrote (view s) D [x] [] (view s') ∧ cache_inv s' D B)).
Proof.
  intros Hash32 Hinv Hsz. pose proof Hinv as [Hi _]. pose proof (inv_keeps _ _ _ Hinv) as Hk.
  pose proof (db_push_error (view s) D B) as Hdb.
  pose proof (length_snoc D x) as Hlen. unfold push. apply spec_bind.
  eapply spec_mono; [by eapply len_spec| |auto]. intros r s1 [-> Hk1].
  unfold U64_MAX. change ((2 ^ 64 - 1) / 2) with (2 ^ 63 - 1). zdecide.
  apply spec_bind. pose proof (postcard_total x) as Htot.
  destruct (to_stdvec x) as [b|e| |] eqn:Hb; cbn [map_err]; try done; last first.
  { left. split; [right; by eexists|done]. }
  eapply spec_lift_ok; [done|]. apply spec_bind. eapply spec_lift_ok; [apply LeafIdx_new_ok; lia|].
  unfold recalculate_path_batch. rewrite InternalIdx_from_eq by lia. apply spec_bind, spec_bind.
  assert (size_ok (zlen D + 1)) as Hok by (unfold size_ok; lia).
  assert ((D ++ [x]) !! Z.to_nat (zlen D) = Some x) as Hx by (rewrite Nat2Z.id; by apply list_lookup_middle).
  assert (subtree_hash (D ++ [x]) (zlen D + 1) (2 * zlen D) = leaf_hash x) as Hleaf
    by (by apply subtree_hash_leaf; [lia|lia|]).
  destruct (leaf_root_up (D ++ [x]) (zlen D + 1) (zlen D)) as (out & Hup & Hout); [done|lia|lia|].
  eapply spec_mono; [eapply (path_loop_spec (view s) D B Hi x); try done; try lia| |auto].
  { apply leaf_hi. lia. }
  { by rewrite lookup_singleton_eq, Hleaf. }
  { rewrite leaf_level by lia. rewrite <- insert_empty.
    apply climb_start; [done|lia|lia|done|]. intros i. rewrite lookup_empty, decide_False; [done|].
    intros [_ Hh]. rewrite hi_top in Hh. lia. }
  intros ch s2 [Hch Hk2]. apply spec_ret. apply spec_bind. rewrite (u64_small (zlen D + 1)) by lia.
  rewrite <- Hlen in Hch |- *.
  assert (zlen (D ++ [x]) ≤ 2 ^ 63) as Hsz' by lia.
  eapply spec_mono; [eapply (precompute_tiles_batch_spec Hash32 (view s) D B Hi [x] Hsz' ch Hch)| |auto]; [done|].
  intros puts s3 (Hk3 & tiles & -> & Htiles).
  assert (leaf_puts (zlen D) [x] [(leaf_key (zlen D), b)]) as Hleaves by (constructor; [done|constructor]).
  set (w := (_ ++ _) ++ tiles ++ _).
  assert (w = full_batch D [x] ch [(leaf_key (zlen D), b)] tiles []) as ->.
  { unfold w, full_batch. by rewrite app_nil_r. }
  eapply spec_mono; [by apply write_batch_spec|..]; cbv beta.
  - intros [] s5 [Hv Hc]. split; [|done]. by exists ch, [(leaf_key (zlen D), b)], tiles.
  - intros e s5 (He & Hc & [Hv|Hv]); [left|right].
    + split; [by left|]. by split.
    + split; [done|]. split; [|done]. by exists ch, [(leaf_key (zlen D), b)], tiles.
Qed.

(** [push], which walks from the new leaf to the root by itself, writes the
    very store that a batch of this one leaf writes, whenever both succeed. *)
Theorem push_is_batch D B s x s1 s2 n :
  output_size = 32%nat → inv s D B → zlen D < 2 ^ 63 - 1 →
  push x s = (Ok tt, s1) → batch_push_with_data [x] [] s = (Ok n, s2) →
  n = zlen D ∧ view s1 = view s2 ∧ appended s D B [x] [] s1.
Proof.
  intros Hash Hi Hsz Hp Hb. assert (zlen (D ++ [x]) ≤ 2 ^ 63) as Hsz' by (rewrite length_snoc; lia).
  pose proof (push_spec D B s x Hash Hi Hsz) as H1'. unfold spec in H1'. rewrite Hp in H1'.
  assert ([x] ≠ [] ∨ ([] : list (bytes * bytes)) ≠ []) as Hne by (by left).
  pose proof (batch_push_writes D B s [x] [] Hash Hi Hsz' Hne) as H2'.
  unfold spec in H2'. rewrite Hb in H2'. destruct H1' as [Hw1 Hc1], H2' as (-> & Hw2 & Hc2).
  split; [done|]. split; [|by apply wrote_appended]. eapply wrote_fun; [apply Hi|done..].
Qed.

(** [push] appends its leaf, or refuses a full tree, or reports an error of the
    database or of the serialization. *)
Theorem push_correct D B s x :
  output_size = 32%nat → inv s D B → zlen D ≤ 2 ^ 63 →
  spec (push x) s (λ _ s', zlen D < 2 ^ 63 - 1 ∧ appended s D B [x] [] s')
    (λ e s', ((inv s' D B ∧ view s' = view s) ∨ appended s D B [x] [] s') ∧
       ((∃ d, e = DbError d) ∨ (∃ msg, e = EncodingError msg) ∨
        (2 ^ 63 - 1 ≤ zlen D ∧ e = InconsistentState "Tree is full"))).
Proof.
  intros Hash Hi Hle. destruct (decide (zlen D < 2 ^ 63 - 1)) as [Hsz|Hsz].
  - assert (zlen (D ++ [x]) ≤ 2 ^ 63) as Hsz' by (rewrite length_snoc; lia).
    eapply spec_mono; [by apply (push_spec D B)|..].
    + intros _ s' [Hw Hc]. split; [done|]. by apply wrote_appended.
    + intros e s' [[He Hk]|(He & Hw & Hc)].
      * split; [left; split; [by eapply keeps_inv|apply Hk]|naive_solver].
      * split; [right; by apply wrote_appended|by left].
  - unfold push. apply spec_bind. eapply spec_mono; [eapply len_spec; [apply Hi|by apply inv_keeps]|..].
    + intros r s1 [-> Hk]. unfold U64_MAX. change ((2 ^ 64 - 1) / 2) with (2 ^ 63 - 1). zdecide.
      apply spec_fail. split; [left; split; [by eapply keeps_inv|apply Hk]|].
      right. right. split; [lia|done].
    + intros e s1 [He Hk]. split; [left; split; [by eapply keeps_inv|apply Hk]|by left].
Qed.

(** [root] is the Merkle Tree Hash of all leaves. *)
Theorem root_correct D B s :
  inv s D B →
  spec root s (λ r s', inv s' D B ∧ view s' = view s ∧ r = RootHash_new (mth D) (zlen D))
    (λ e s', inv s' D B ∧ view s' = view s ∧ ∃ d, e = DbError d).
Proof.
  intros Hinv. pose proof Hinv as [Hi _]. pose proof (inv_keeps _ _ _ Hinv) as Hk.
  assert (∀ e s', db_failure (view s) D B e s' → inv s' D B ∧ view s' = view s ∧ ∃ d, e = DbError d) as Hdb.
  { intros e s' [Hd Hk']. split; [by eapply keeps_inv|]. split; [apply Hk'|done]. }
  unfold root. apply spec_bind. eapply spec_mono; [by eapply get_committed_size_spec| |auto].
  intros r s1 [-> Hk1]. apply spec_bind. destruct (Z.eqb_spec (zlen D) 0) as [H0'|H0'].
  { apply spec_ret, spec_ret. split; [by eapply keeps_inv|]. split; [apply Hk1|].
    destruct D; [done|]. cbn in H0'. lia. }
  pose proof (ti_top _ _ _ Hi ltac:(lia)) as HB. pose proof (bound_size_ok _ _ _ _ Hi HB) as Hok.
  eapply spec_mono; [apply (get_node_hash_at_version_spec _ D B Hi); [|done]| |auto].
  { split; [by eapply valid_u64, valid_root|]. split; [by eapply zlen_u64|lia]. }
  intros h s2 [[Hh _] Hk2]. apply spec_ret. split; [by eapply keeps_inv|]. split; [apply Hk2|].
  rewrite Hh by auto using valid_root. by rewrite subtree_hash_root, zslice_full.
Qed.

(** [get] returns the leaf of an index. *)
Theorem get_leaf_correct D B s i x :
  inv s D B → 0 ≤ i → D !! Z.to_nat i = Some x →
  spec (get_leaf i) s (λ r s', inv s' D B ∧ view s' = view s ∧ r = Some x)
    (λ e s', inv s' D B ∧ view s' = view s ∧ ∃ d, e = DbError d).
Proof.
  intros Hinv Hi Hx. pose proof Hinv as [Ht _]. unfold get_leaf. apply spec_bind.
  eapply spec_mono; [by eapply (get_spec (view s)), inv_keeps|..].
  - intros r s1 [-> Hk1]. destruct (ti_leaf _ _ _ Ht i x Hx Hi) as (b & Hb & Hm). cbn [enc] in Hm.
    rewrite Hm. apply spec_bind. eapply spec_lift_ok; [by rewrite (postcard_round _ _ Hb)|].
    apply spec_ret. split; [by eapply keeps_inv|]. split; [apply Hk1|done].
  - intros e s1 [Hd Hk1]. split; [by eapply keeps_inv|]. split; [apply Hk1|done].
Qed.

(** [prove_inclusion] proves a leaf against the latest root. *)
Theorem prove_inclusion_correct D B s i :
  inv s D B → is_u64 i →
  spec (prove_inclusion i) s
    (λ pf s', inv s' D B ∧ view s' = view s ∧ i < zlen D ∧ ∀ x, D !! Z.to_nat i = Some x →
       verify pf x i (RootHash_new (mth D) (zlen D)) = Ok tt)
    (λ e s', inv s' D B ∧ view s' = view s ∧ ((∃ d, e = DbError d) ∨ zlen D ≤ i)).
Proof.
  intros Hinv Hi. pose proof Hinv as [Ht _]. pose proof (inv_keeps _ _ _ Hinv) as Hk.
  unfold prove_inclusion. apply spec_bind. eapply spec_mono; [by eapply get_committed_size_spec|..].
  - intros r s1 [-> Hk1]. destruct (Z.leb_spec (zlen D) i).
    { apply spec_fail. split; [by eapply keeps_inv|]. split; [apply Hk1|by right]. }
    assert (inv s1 D B) as Hinv1 by (by eapply keeps_inv).
    pose proof (ti_top _ _ _ Ht ltac:(unfold is_u64 in *; lia)) as HB.
    eapply spec_mono; [apply (prove_inclusion_at_size_spec D B); [done|done|by eapply zlen_u64]|..].
    + intros pf s2 (Hi2 & Hv2 & _ & _ & _ & Hx). rewrite zslice_full in Hx.
      split; [done|]. split; [by rewrite Hv2, (proj1 Hk1)|done].
    + intros e s2 (Hi2 & Hv2 & He). split; [done|]. split; [by rewrite Hv2, (proj1 Hk1)|].
      destruct He as [?|[[? _]|[[? _]|[? _]]]]; [by left|lia|lia|done].
  - intros e s1 [Hd Hk1]. split; [by eapply keeps_inv|]. split; [apply Hk1|by left].
Qed.

(** [prove_consistency] proves the latest root consistent with a published one. *)
Theorem prove_consistency_correct D B s v :
  inv s D B → is_u64 v →
  spec (prove_consistency v) s
    (λ pf s', inv s' D B ∧ view s' = view s ∧ 0 < v ≤ zlen D ∧
       cverify pf (RootHash_new (mth (zslice 0 v D)) v) (RootHash_new (mth D) (zlen D)) = Ok tt)
    (λ e s', inv s' D B ∧ view s' = view s ∧ ((∃ d, e = DbError d) ∨ v = 0 ∨ zlen D < v ∨ v ∉ B)).
Proof.
  intros Hinv Hv. pose proof Hinv as [Ht _]. pose proof (inv_keeps _ _ _ Hinv) as Hk.
  unfold prove_consistency. apply spec_bind. eapply spec_mono; [by eapply get_committed_size_spec|..].
  - intros r s1 [-> Hk1]. assert (inv s1 D B) as Hinv1 by (by eapply keeps_inv).
    destruct (Z.eqb_spec v 0).
    { apply spec_fail. split; [done|]. split; [apply Hk1|by right; left]. }
    eapply spec_mono; [apply (prove_consistency_between_spec D B); [done|done|by eapply zlen_u64]|..].
    + intros pf s2 (Hi2 & Hv2 & Hle & _ & Hx). rewrite zslice_full in Hx. split; [done|].
      split; [by rewrite Hv2, (proj1 Hk1)|]. split; [done|]. by apply Hx.
    + intros e s2 (Hi2 & Hv2 & He). split; [done|]. split; [by rewrite Hv2, (proj1 Hk1)|].
      destruct He as [?|[[? _]|[[? _]|[[? _]|[[? _]|[HB _]]]]]]; [by left|lia| |lia|auto|].
      * right. right. left. lia.
      * unfold is_u64 in Hv. destruct (decide (zlen D = 0)) as [Hz|Hz]; [right; right; left; lia|].
        destruct HB. apply (ti_top _ _ _ Ht). lia.
  - intros e s1 [Hd Hk1]. split; [by eapply keeps_inv|]. split; [apply Hk1|by left].
Qed.

End Correct.
