(* ===== verification/TreeHistory.v ===== *)
(** * Histories of a stored tree

    Every tree that a sequence of operations leads to - openings of a store,
    appends that succeed or fail, reads, reopenings - satisfies the invariant
    for the leaves of the appends that took effect: all those reported as
    successful, in order, and some of those reported as failed. *)

From S2P Require Import Prelude TreeMath Rfc6962 Inclusion Consistency KvStore TreeStore TreeInv.
From S2P Require Import TreeReads TreePush TreeTiles TreeBatch.

Section History.
  Context `{SlateDb} `{!Cache (Z * Z) bytes} `{!Cache (Z * Z) bool}.
  Context `{!SlateDbLaws} `{!CacheLaws (Z * Z) bytes} `{!CacheLaws (Z * Z) bool}.
  Context `{Digest} `{HashableLeaf T} `{Postcard T} `{!PostcardLaws T}.
  Implicit Types (D : list T) (B : gset Z).

(** The reads of the tree, with their [u64] arguments. *)
Inductive read_op :=
  | ReadLen
  | ReadCommittedSize
  | ReadRoot (tree_size : Z)
  | ReadInclusion (idx tree_size : Z)
  | ReadConsistency (old_size new_size : Z)
  | ReadTile (level index : Z).

Definition read_op_ok (op : read_op) : Prop :=
  match op with
  | ReadLen | ReadCommittedSize => True
  | ReadRoot v => is_u64 v
  | ReadInclusion i v => is_u64 i ∧ is_u64 v
  | ReadConsistency v w => is_u64 v ∧ is_u64 w
  | ReadTile _ i => is_u64 i
  end.

Definition read_state (op : read_op) (s : SlateDbBackedTree) : SlateDbBackedTree :=
  match op with
  | ReadLen => (len s).2
  | ReadCommittedSize => (get_committed_size s).2
  | ReadRoot v => (root_at_size v s).2
  | ReadInclusion i v => (prove_inclusion_at_size i v s).2
  | ReadConsistency v w => (prove_consistency_between v w s).2
  | ReadTile l i => (get_tile l i s).2
  end.

Definition is_ok {E A} (r : res E A) : bool := match r with Ok _ => true | _ => false end.

(** The batches appended so far, each with what its caller was told. *)
Abbreviation history := (list (list T * bool)).

Inductive reach : SlateDbBackedTree → history → Prop :=
  | reach_new db tree :
      (∀ k, rl_view db !! enc k = None) → new db = Ok tree → reach tree []
  | reach_reopen s h tree : reach s h → new (tree_db s) = Ok tree → reach tree h
  | reach_read s h op : reach s h → read_op_ok op → reach (read_state op s) h
  | reach_push s h items additional r s' :
      reach s h → zlen (concat h.*1) + zlen items ≤ 2 ^ 63 →
      Forall (λ kv, tree_key kv.1 = false) additional →
      batch_push_with_data items additional s = (r, s') →
      reach s' (h ++ [(items, is_ok r)]).

(** The leaves a history may have left. *)
Inductive committed : history → list T → Prop :=
  | committed_nil : committed [] []
  | committed_ok h D items b : committed h D → committed (h ++ [(items, b)]) (D ++ items)
  | committed_failed h D items : committed h D → committed (h ++ [(items, false)]) D.

Lemma committed_length h D : committed h D → zlen D ≤ zlen (concat h.*1).
Proof.
  induction 1 as [|h D items b Hc IH|h D items Hc IH]; [done|..];
    rewrite fmap_app, concat_app, length_app; cbn; rewrite ?length_app; cbn; lia.
Qed.

Lemma spec_state {A E S} (c : stM S E A) s (Q : A → S → Prop) (R : E → S → Prop) (I : S → Prop) :
  spec c s Q R → (∀ a s', Q a s' → I s') → (∀ e s', R e s' → I s') → I (c s).2.
Proof. unfold spec. destruct (c s) as [[]]; cbn; naive_solver. Qed.

Lemma read_preserves op s D B : inv s D B → read_op_ok op → inv (read_state op s) D B.
Proof.
  intros Hi Hop. pose proof Hi as [Hti _]. pose proof (inv_keeps _ _ _ Hi) as Hk.
  assert (∀ e s', db_failure (view s) D B e s' → inv s' D B) as Hf.
  { intros e s' [_ Hk']. by eapply keeps_inv. }
  assert (∀ P e s', read_error s D B P e s' → inv s' D B) as Hr by (intros P e s' [? _]; done).
  assert (∀ s', keeps (view s) D B s' → inv s' D B) as Hki by (intros; by eapply keeps_inv).
  destruct op as [| |v|i v|v w|l i]; cbn [read_state read_op_ok] in *.
  - eapply spec_state; [by eapply len_spec|naive_solver|done].
  - eapply spec_state; [by eapply get_committed_size_spec|naive_solver|done].
  - eapply spec_state; [by apply root_at_size_spec|naive_solver|apply Hr].
  - destruct Hop. eapply spec_state; [by apply prove_inclusion_at_size_spec|naive_solver|apply Hr].
  - destruct Hop. eapply spec_state; [by apply prove_consistency_between_spec|naive_solver|apply Hr].
  - eapply spec_state; [by eapply (get_spec (view s))|naive_solver|done].
Qed.

Lemma reach_inv_spec s h :
  output_size = 32%nat → reach s h → ∃ D B, committed h D ∧ inv s D B.
Proof.
  intros Hash32. induction 1 as [db tree Hfresh Hnew|s h tree Hr (D & B & Hc & Hi) Hnew
    |s h op Hr (D & B & Hc & Hi) Hop|s h items additional r s' Hr (D & B & Hc & Hi) Hsz Hadd Hpush].
  - exists [], ∅. split; [constructor|].
    pose proof (new_spec db [] ∅ (tree_inv_empty _ Hfresh)) as Hspec. by rewrite Hnew in Hspec.
  - exists D, B. split; [done|].
    pose proof (new_spec (tree_db s) D B (proj1 Hi)) as Hspec. by rewrite Hnew in Hspec.
  - exists D, B. split; [done|]. by apply read_preserves.
  - pose proof (committed_length _ _ Hc) as Hlen.
    pose proof (batch_push_spec D B s items additional Hash32 Hi) as Hspec.
    rewrite length_app in Hspec. specialize (Hspec ltac:(lia) Hadd).
    unfold spec in Hspec. rewrite Hpush in Hspec. destruct r as [r|e| |]; try done; cbn [is_ok].
    + destruct Hspec as [_ [Hi' _]]. eexists _, _. split; [by apply committed_ok|done].
    + destruct Hspec as [_ [[Hi' _]|[Hi' _]]]; eexists _, _; (split; [|done]).
      * by apply committed_failed.
      * by apply committed_ok.
Qed.

(** A store holds the tree of one list of leaves only. *)
Lemma tree_inv_determines m D B D' B' : tree_inv m D B → tree_inv m D' B' → D = D'.
Proof.
  intros Hi Hi'. pose proof (ti_size _ _ _ Hi). pose proof (ti_size _ _ _ Hi').
  assert (zlen D = zlen D') as Hlen.
  { pose proof (ti_meta _ _ _ Hi) as Hm. pose proof (ti_meta _ _ _ Hi') as Hm'. unfold size_at in *.
    destruct (m !! enc KMeta) as [b|]; [|lia]. subst b. apply (be_bytes_inj 8) in Hm'; lia. }
  apply list_eq. intros i. destruct (D !! i) as [x|] eqn:Hx; last first.
  { symmetry. apply lookup_ge_None. apply lookup_ge_None in Hx. lia. }
  destruct (lookup_lt_is_Some_2 D' i) as [x' Hx']; [apply lookup_lt_Some in Hx; lia|]. rewrite Hx'.
  rewrite <- (Nat2Z.id i) in Hx, Hx'.
  destruct (ti_leaf _ _ _ Hi _ _ Hx) as (b & Hb & Hl); [lia|].
  destruct (ti_leaf _ _ _ Hi' _ _ Hx') as (b' & Hb' & Hl'); [lia|].
  assert (b' = b) as -> by congruence. apply postcard_round in Hb, Hb'. congruence.
Qed.


(** Opening a store that holds the tree of the leaves [D], after a restart
    for instance, gives a tree of the leaves [D]; opening never panics. *)
Theorem new_correct db D B :
  tree_inv (rl_view db) D B →
  match new db with Ok tree => inv tree D B | Err _ => True | Panic | Fuel => False end.
Proof. apply new_spec. Qed.

(** A tile is served by [get_tile] exactly when its 256 subtrees are
    complete, and it then holds the hashes of these subtrees, in order. *)
Theorem get_tile_correct s D B l i :
  inv s D B → 0 ≤ l ≤ 5 → is_u64 i →
  spec (get_tile l i) s
    (λ r s', view s' = view s ∧
       r = if decide (tile_full (zlen D) l i) then Some (tile_bytes D l i) else None)
    (λ e s', view s' = view s ∧ ∃ d, e = DbError d).
Proof.
  intros Hi Hl Hu. pose proof Hi as [Hti _]. unfold get_tile.
  eapply spec_mono; [eapply (get_spec (view s)), inv_keeps; done|..].
  - intros r s' [-> [Hv _]]. split; [done|].
    destruct (ti_tile _ _ _ Hti l i Hl Hu) as [H1' H2']. cbn [enc] in *.
    destruct (decide _); auto.
  - intros e s' [Hd [Hv _]]. auto.
Qed.

End History.
