(* ===== verification/Shared.v ===== *)
(** * Reads of the tree while others append

    The handlers share the database and the node cache with the batch worker:
    between any two reads of a request, batches of other tasks can become
    visible.  An execution is described by what it has logged in the end, [D],
    and by all the sizes that it publishes, [B]; the store at a moment at which
    [n] leaves are committed is a [snapshot].  [SharedDbLaws] and
    [SharedCacheLaws] state what a task may rely on: each read sees some
    snapshot, not older than what was known to be committed, and the cache
    returns right hashes.  Under these the lookups, roots and proofs of
    [SlateDbBackedTree] are still those of the size asked for. *)

From S2P Require Import Prelude TreeMath Rfc6962 Inclusion Consistency KvStore TreeStore TreeInv.
From S2P Require Import TreeReads TreeBatch.

(** ** What a task may rely on *)

(** [db_at d n]: at least the first [n] leaves are committed.  A read takes
    place at some later moment. *)
Class SharedDbLaws `{SlateDb} (snap : Z → gmap bytes bytes → Prop) := {
  db_at : Db → Z → Prop;
  shared_get_law k d n :
    db_at d n →
    spec (db_get k) d (λ v d', ∃ n' m, n ≤ n' ∧ snap n' m ∧ v = m !! k ∧ db_at d' n')
      (λ _ d', db_at d' n);
}.

(** Every task inserts only values that are right for their key. *)
Class SharedCacheLaws (K V : Type) `{Cache K V} (right : K → V → Prop) := {
  cache_at : cache K V → Prop;
  shared_cache_get_law k c :
    cache_at c → cache_at (cache_get k c).2 ∧
    match (cache_get k c).1 with Some v => right k v | None => True end;
  shared_cache_insert_law k v c : right k v → cache_at c → cache_at (cache_insert k v c);
}.

(** ** A store that others write to

    Any database together with the appends of other tasks that take place
    before each of the next reads. *)
Section Racing.
  Context `{SlateDb}.

Definition racing_step {A} (c : stM Db SlateDBError A) : stM (Db * list (Db → Db)) SlateDBError A :=
  λ d, let '(db, acts) := d in
       let '(db, acts) := match acts with [] => (db, []) | f :: acts' => (f db, acts') end in
       let (r, db') := c db in (r, (db', acts)).

Definition racing_SlateDb : SlateDb :=
  {| Db := Db * list (Db → Db); SlateDBError := SlateDBError;
     db_get := λ k, racing_step (db_get k);
     db_put := λ k v, racing_step (db_put k v);
     db_write_with_options := λ b, racing_step (db_write_with_options b);
     db_flush := racing_step db_flush |}.

Context `{!SlateDbLaws} (snap : Z → gmap bytes bytes → Prop).

(** Each action takes a snapshot to a later one. *)
Fixpoint acts_ok (n : Z) (d : gmap bytes bytes) (acts : list (Db → Db)) : Prop :=
  match acts with
  | [] => snap n d
  | f :: acts' => snap n d ∧ ∃ n' d', n ≤ n' ∧ (∀ db, db_view db = d → db_view (f db) = d') ∧ acts_ok n' d' acts'
  end.

Lemma acts_ok_snap n d acts : acts_ok n d acts → snap n d.
Proof. destruct acts; [done|by intros [? _]]. Qed.

Definition racing_laws : @SharedDbLaws racing_SlateDb snap.
Proof.
  refine (@Build_SharedDbLaws racing_SlateDb snap
    (λ d n, ∃ n', n ≤ n' ∧ acts_ok n' (db_view d.1) d.2) _).
  intros k [db acts] n (n0 & Hn0 & Hacts). cbn [fst snd] in Hacts.
  assert (∃ n1 db1 acts1, match acts with [] => (db, []) | f :: acts' => (f db, acts') end = (db1, acts1) ∧
    n ≤ n1 ∧ acts_ok n1 (db_view db1) acts1) as (n1 & db1 & acts1 & Heq & Hle & Hok).
  { destruct acts as [|f acts].
    - exists n0, db, []. split; [done|]. split; [lia|done].
    - destruct Hacts as [_ (n' & d' & Hn' & Hf & Hok)]. exists n', (f db), acts.
      split; [done|]. split; [lia|]. by rewrite (Hf db eq_refl). }
  unfold spec. cbn [db_get racing_SlateDb]. unfold racing_step. rewrite Heq.
  pose proof (db_get_law k db1) as Hg. unfold spec in Hg.
  destruct (db_get k db1) as [[v|e| |] db2]; try done.
  - destruct Hg as [-> Hv]. exists n1, (db_view db1). split; [done|]. split; [by eapply acts_ok_snap|].
    split; [done|]. exists n1. split; [lia|]. cbn [fst snd]. by rewrite Hv.
  - exists n1. split; [lia|]. cbn [fst snd]. by rewrite Hg.
Defined.

End Racing.

(** A lawful cache is one that can be shared. *)
Definition shared_cache_laws {K V} `{CacheLaws K V} (right : K → V → Prop) :
  SharedCacheLaws K V right.
Proof.
  refine {| cache_at := λ c, map_Forall right (cache_view c) |}.
  - intros k c Hc. pose proof (cache_get_law k c) as [Hsub Hget]. split; [by eapply map_Forall_sub|].
    destruct (cache_get k c).1; [|done]. by apply (Hc k).
  - intros k v c Hr Hc. eapply map_Forall_sub; [apply cache_insert_law|]. by apply map_Forall_insert_2.
Defined.

(** ** Snapshots *)

Section Snapshots.
  Context `{Digest} `{HashableLeaf T} `{Postcard T}.
  Context (D : list T) (B : gset Z).

Definition upto (n : Z) : list T := take (Z.to_nat n) D.
Definition bounds_upto (n : Z) : gset Z := filter (λ v, v ≤ n) B.

Record snapshot (n : Z) (m : gmap bytes bytes) : Prop := {
  sn_range : 0 ≤ n ≤ zlen D;
  sn_tree : tree_inv m (upto n) (bounds_upto n);
}.

(** A cached hash is right. *)
Definition node_right (k : Z * Z) (h : bytes) : Prop :=
  k.2 ∈ B → valid k.2 k.1 → h = subtree_hash D k.2 k.1.

Lemma length_upto n : 0 ≤ n ≤ zlen D → zlen (upto n) = n.
Proof. intros. unfold upto. rewrite length_take. lia. Qed.

Lemma elem_of_bounds_upto n v : v ∈ bounds_upto n ↔ v ∈ B ∧ v ≤ n.
Proof. unfold bounds_upto. rewrite elem_of_filter. tauto. Qed.

Lemma subtree_hash_upto n v i :
  0 ≤ n ≤ zlen D → 0 ≤ i → v ≤ n → subtree_hash (upto n) v i = subtree_hash D v i.
Proof.
  intros Hn Hi Hv. rewrite <- (take_drop (Z.to_nat n) D). symmetry.
  apply subtree_hash_app; [done|]. fold (upto n). rewrite length_upto; lia.
Qed.

Lemma zslice_upto n v : 0 ≤ n ≤ zlen D → v ≤ n → zslice 0 v (upto n) = zslice 0 v D.
Proof.
  intros Hn Hv. rewrite <- (take_drop (Z.to_nat n) D). symmetry.
  apply zslice_app_l; [done|]. fold (upto n). rewrite length_upto; lia.
Qed.

(** The contents of a tree of a prefix of [D] are a snapshot, if the sizes
    published later are larger. *)
Lemma snapshot_of_inv m D0 B0 :
  D0 `prefix_of` D → B0 = bounds_upto (zlen D0) → tree_inv m D0 B0 → snapshot (zlen D0) m.
Proof.
  intros [D1 HD] -> Hi. split; [rewrite HD, length_app; lia|].
  unfold upto. rewrite Nat2Z.id, HD, take_app_length. exact Hi.
Qed.

(** What the writer caches is right for the whole execution, also what it
    caches before its batch is written. *)
Lemma cached_right n i v h :
  0 ≤ n ≤ zlen D → (∀ w, w ∈ B → w ≤ zlen D) → 0 ≤ i →
  cached_ok (upto n) (bounds_upto n) i v h → node_right (i, v) h.
Proof.
  intros Hn HB Hi [Hb Ha] HvB Hv. cbn [fst snd] in *. rewrite length_upto in Ha by done.
  destruct (decide (v ≤ n)).
  - rewrite (Hb ltac:(by apply elem_of_bounds_upto) Hv). by apply subtree_hash_upto.
  - destruct (Ha ltac:(lia)) as (_ & Ht & ->). rewrite subtree_hash_upto by lia.
    by apply subtree_hash_top; lia.
Qed.

(** What a reader caches, a hash of a published size, does not disturb the
    writer. *)
Lemma right_cached n i v :
  0 ≤ n ≤ zlen D → 0 ≤ i → v ∈ B → v ≤ n →
  cached_ok (upto n) (bounds_upto n) i v (subtree_hash D v i).
Proof.
  intros Hn Hi HvB Hv. split.
  - intros _ _. symmetry. by apply subtree_hash_upto.
  - rewrite length_upto by done. lia.
Qed.

End Snapshots.

(** ** Lookups beside a writer *)

Section Reads.
  Context `{SlateDb} `{!Cache (Z * Z) bytes} `{!Cache (Z * Z) bool}.
  Context `{Digest} `{HashableLeaf T} `{Postcard T}.
  Context (D : list T) (B : gset Z).
  Context (snap : Z → gmap bytes bytes → Prop) (Hsnap : ∀ n m, snap n m → snapshot D B n m).
  Context `{!SharedDbLaws snap} `{!SharedCacheLaws (Z * Z) bytes (node_right D B)}.

(** At least the first [n] leaves are committed, and the cache is right. *)
Definition since (n : Z) (s : SlateDbBackedTree) : Prop :=
  (∃ n', n ≤ n' ∧ db_at (rl_db (tree_db s)) n') ∧ ∀ c, node_cache s = Some c → cache_at c.
Definition shared_failure (n : Z) (e : SlateDbTreeError) (s : SlateDbBackedTree) : Prop :=
  (∃ d, e = DbError d) ∧ since n s.

Lemma since_mono n n' s : n ≤ n' → since n' s → since n s.
Proof. intros Hn [(n0 & ? & ?) Hc]. split; [|done]. exists n0. split; [lia|done]. Qed.

Lemma shared_failure_mono n n' e s : n ≤ n' → shared_failure n' e s → shared_failure n e s.
Proof. intros Hn [? ?]. split; [done|]. by eapply since_mono. Qed.

Lemma shared_get_spec n k s :
  since n s →
  spec (get k) s (λ v s', ∃ n' m, n ≤ n' ∧ snap n' m ∧ v = m !! k ∧ since n' s') (shared_failure n).
Proof.
  intros [(n0 & Hn0 & Hdb) Hc]. apply spec_on_db. unfold rl_get.
  apply spec_bind, spec_modify, spec_bind, spec_on_rl_db.
  eapply spec_mono; [by apply shared_get_law|..]; cbn.
  - intros v d (n1 & m & Hn1 & Hm & -> & Hd). apply spec_bind.
    assert (∀ r, rl_db r = d → ∃ n' m', n ≤ n' ∧ snap n' m' ∧ m !! k = m' !! k ∧ since n' (with_db r s)) as Hr.
    { intros r Hr. exists n1, m. split; [lia|]. split; [done|]. split; [done|]. split; [|done].
      exists n1. cbn. rewrite Hr. split; [lia|done]. }
    destruct (m !! k); [apply spec_modify|apply spec_ret]; apply spec_ret; by apply Hr.
  - intros e d Hd. split; [by eexists|]. split; [|done]. by exists n0.
Qed.

Lemma shared_node_cache_get_spec n k s :
  since n s →
  spec (node_cache_get k) s
    (λ r s', (∀ h, r = Some h → node_right D B k h) ∧ since n s') (shared_failure n).
Proof.
  intros [Hdb Hc]. unfold spec, node_cache_get. destruct (node_cache s) as [c|] eqn:Hs.
  - pose proof (shared_cache_get_law k c (Hc c eq_refl)) as [Hc' Hget].
    destruct (cache_get k c) as [r c']. cbn [fst snd] in *. split.
    + intros h ->. exact Hget.
    + split; [done|]. by intros c0 [= <-].
  - split; [done|]. split; [done|]. by rewrite Hs.
Qed.

Lemma shared_node_cache_insert_spec n k h s :
  node_right D B k h → since n s →
  spec (node_cache_insert k h;; mret h) s (λ r s', r = h ∧ since n s') (shared_failure n).
Proof.
  intros Hh [Hdb Hc]. apply spec_bind, spec_modify, spec_ret. split; [done|]. split; [done|].
  intros c. cbn [node_cache]. destruct (node_cache s) as [c0|]; [|done]. intros [= <-].
  by apply shared_cache_insert_law; [|apply Hc].
Qed.

(** A size read from one of the size records. *)
Lemma shared_size_spec k n (e : SlateDbTreeError) s :
  k = KMeta ∨ k = KCommitted → since n s →
  spec (v ← get (enc k);
        match v with Some b => lift (u64_from_bytes b e) | None => mret 0 end) s
    (λ r s', n ≤ r ≤ zlen D ∧ (r = 0 ∨ r ∈ B) ∧ r ≤ 2 ^ 63 ∧ since r s') (shared_failure n).
Proof.
  intros Hk Hs. apply spec_bind. eapply spec_mono; [by apply shared_get_spec| |done].
  intros v s1 (n1 & m & Hn1 & Hm & -> & Hs1). destruct (Hsnap _ _ Hm) as [Hr Hi].
  pose proof (ti_size _ _ _ Hi) as Hsz. pose proof (ti_top _ _ _ Hi) as Htop.
  assert (size_at m k n1) as Hat.
  { rewrite <- (length_upto D n1 Hr). destruct Hk as [-> | ->]; [apply (ti_meta _ _ _ Hi)|apply (ti_committed _ _ _ Hi)]. }
  rewrite length_upto in Hsz, Htop by done.
  assert (n1 = 0 ∨ n1 ∈ B) as HB.
  { destruct (decide (n1 = 0)); [by left|right]. by apply (elem_of_bounds_upto B n1), Htop; lia. }
  unfold size_at in Hat. destruct (m !! enc k) as [b|].
  - subst b. eapply spec_lift_ok; [apply u64_from_be; lia|]. split; [lia|done].
  - apply spec_ret. subst n1. split; [lia|]. done.
Qed.

Lemma shared_committed_size_spec n s :
  since n s →
  spec get_committed_size s (λ r s', n ≤ r ≤ zlen D ∧ (r = 0 ∨ r ∈ B) ∧ r ≤ 2 ^ 63 ∧ since r s')
    (shared_failure n).
Proof. apply (shared_size_spec KCommitted). by right. Qed.

Lemma shared_len_spec n s :
  since n s →
  spec len s (λ r s', n ≤ r ≤ zlen D ∧ (r = 0 ∨ r ∈ B) ∧ r ≤ 2 ^ 63 ∧ since r s') (shared_failure n).
Proof.
  intros Hs. pose proof (shared_size_spec KMeta n (EncodingError "Invalid metadata") s (or_introl eq_refl) Hs) as Hz.
  unfold len, get_num_leaves. unfold spec in *. cbn [enc] in Hz.
  unfold mbind, stM_bind in *. destruct (get META_KEY s) as [[[b|]|e| |] s']; try done.
  unfold lift in *. by destruct (u64_from_bytes b (EncodingError "Invalid metadata")).
Qed.

(** *** The three reads of a node lookup see different snapshots *)

Section Node.
  Context (i v : Z) (HvB : v ∈ B) (Hval : valid v i) (Hiu : is_u64 i).

(** The node of that version, if it was written with its batch. *)
Lemma shared_exact n m h :
  snap n m → is_u64 v → m !! enc (KNode i v) = Some h →
  length h = output_size ∧ h = subtree_hash D v i.
Proof.
  intros Hm Hvu Hh. destruct (Hsnap _ _ Hm) as [Hr Hi].
  destruct (ti_node _ _ _ Hi i v h Hiu Hvu Hh) as ((_ & Hvn)%elem_of_bounds_upto & _ & ->).
  split; [apply subtree_hash_length|]. apply subtree_hash_upto; [done|apply Hiu|done].
Qed.

(** If it was not, the node was complete before. *)
Lemma shared_absent n m :
  snap n m → v ≤ n → m !! enc (KNode i v) = None → top i < v.
Proof.
  intros Hm Hvn Hno. destruct (Hsnap _ _ Hm) as [Hr Hi].
  eapply (absent_complete m (upto D n) (bounds_upto B n) Hi); [|done|done].
  by apply elem_of_bounds_upto.
Qed.

(** The latest version of a complete node is the first size at which it was
    complete, whenever it is read. *)
Lemma shared_latest n m w :
  snap n m → w ∈ B → w ≤ n → top i ≤ w →
  ∃ l, m !! enc (KLatest i) = Some (be_bytes 8 l) ∧ is_u64 l ∧ l ∈ B ∧ top i ≤ l ≤ w ∧
    (∀ u, u ∈ B → top i ≤ u → l ≤ u) ∧ m !! enc (KNode i l) = Some (subtree_hash D w i).
Proof.
  intros Hm HwB Hwn Htop. destruct (Hsnap _ _ Hm) as [Hr Hi].
  pose proof (ti_latest _ _ _ Hi i Hiu) as Hlat. rewrite length_upto in Hlat by done.
  assert (0 ≤ i) as Hi0 by apply Hiu.
  destruct (m !! enc (KLatest i)) as [b|]; last first.
  { destruct Hlat. apply valid_top; [done|lia]. }
  destruct Hlat as (l & -> & HlB & Hvl & Hhi & Hnode & Hmin).
  pose proof (bound_u64 _ _ _ _ Hi HlB) as Hlu. apply elem_of_bounds_upto in HlB as [HlB Hln].
  rewrite !hi_top in Hhi.
  assert (∀ u, u ∈ B → top i ≤ u → l ≤ u) as Hmin'.
  { intros u Hu Htu. destruct (decide (u ≤ n)); [|lia]. apply Hmin; [by apply elem_of_bounds_upto|done]. }
  exists l. split; [done|]. split; [done|]. split; [done|]. split; [split; [lia|by apply Hmin']|].
  split; [done|]. rewrite Hnode. f_equal. rewrite subtree_hash_upto by lia. by apply subtree_hash_top; lia.
Qed.

Lemma shared_right h : h = subtree_hash D v i → node_right D B (i, v) h.
Proof. by intros ->. Qed.

Lemma shared_read_node_spec n s :
  v ≤ n → since n s →
  spec (read_node_hash i v) s (λ r s', r = subtree_hash D v i ∧ since n s') (shared_failure n).
Proof.
  intros Hvn Hs. unfold read_node_hash. apply spec_bind.
  eapply spec_mono; [by apply shared_get_spec| |done].
  intros r s1 (n1 & m1 & Hn1 & Hm1 & -> & Hs1). apply (since_mono n) in Hs1; [|done].
  change (versioned_node_key i v) with (enc (KNode i v)).
  pose proof (Hsnap _ _ Hm1) as [Hr1 Hi1].
  assert (is_u64 v) as Hvu.
  { eapply (bound_u64 m1 (upto D n1) (bounds_upto B n1)); [done|]. apply elem_of_bounds_upto. split; [done|lia]. }
  destruct (m1 !! enc (KNode i v)) as [h|] eqn:Hex.
  { destruct (shared_exact n1 m1 h Hm1 Hvu Hex) as [Hlen Hh]. rewrite bool_decide_eq_true_2 by done.
    rewrite <- Hh. apply shared_node_cache_insert_spec; [by apply shared_right|done]. }
  pose proof (shared_absent n1 m1 Hm1 ltac:(lia) Hex) as Htop.
  apply spec_bind. eapply spec_mono; [by apply shared_get_spec| |done].
  intros r s2 (n2 & m2 & Hn2 & Hm2 & -> & Hs2). apply (since_mono n) in Hs2; [|done].
  change (node_latest_version_key i) with (enc (KLatest i)).
  destruct (shared_latest n2 m2 v Hm2 HvB ltac:(lia) ltac:(lia)) as (l & -> & Hlu & HlB & Hlv & Hmin & _).
  apply spec_bind. eapply spec_lift_ok; [by apply u64_from_be|]. zdecide.
  apply spec_bind. eapply spec_mono; [by apply shared_get_spec| |done].
  intros r s3 (n3 & m3 & Hn3 & Hm3 & -> & Hs3). apply (since_mono n) in Hs3; [|done].
  change (versioned_node_key i l) with (enc (KNode i l)).
  destruct (shared_latest n3 m3 v Hm3 HvB ltac:(lia) ltac:(lia)) as (l' & _ & _ & HlB' & Hlv' & Hmin' & Hnode).
  assert (l' = l) as ->.
  { pose proof (Hmin l' HlB' ltac:(lia)). pose proof (Hmin' l HlB ltac:(lia)). lia. }
  rewrite Hnode. rewrite bool_decide_eq_true_2 by apply subtree_hash_length.
  apply shared_node_cache_insert_spec; [by apply shared_right|done].
Qed.

Lemma shared_node_spec n s :
  v ≤ n → since n s →
  spec (get_node_hash_at_version i v) s (λ r s', r = subtree_hash D v i ∧ since n s') (shared_failure n).
Proof.
  intros Hvn Hs. unfold get_node_hash_at_version. apply spec_bind.
  eapply spec_mono; [by apply shared_node_cache_get_spec| |done]. intros [h|] s1 [Hh Hs1];
    [|by apply shared_read_node_spec].
  case_bool_decide; [|by apply shared_read_node_spec]. apply spec_ret. split; [|done].
  by apply (Hh h eq_refl).
Qed.

End Node.

(** *** Roots and proofs *)

(** A request is refused for the committed size [n'] of some moment during it. *)
Definition shared_error (n : Z) (refusal : Z → SlateDbTreeError → Prop) (e : SlateDbTreeError)
    (s : SlateDbBackedTree) : Prop :=
  ∃ n', n ≤ n' ∧ since n' s ∧ ((∃ d, e = DbError d) ∨ refusal n' e).

Lemma shared_error_db n n' P e s : n ≤ n' → shared_failure n' e s → shared_error n P e s.
Proof. intros Hn [He Hs]. exists n'. auto. Qed.

Lemma shared_hashes_spec v idxs n s :
  v ∈ B → size_ok v → Forall (valid v) idxs → v ≤ n → since n s →
  spec (mapM (λ i, get_node_hash_at_version i v) idxs) s
    (λ r s', r = map (subtree_hash D v) idxs ∧ since n s') (shared_failure n).
Proof.
  intros HB Hok Hv Hvn Hs. rewrite Forall_forall in Hv.
  eapply spec_mono; [apply (spec_mapM _ _ _ (λ i h, h = subtree_hash D v i) (since n))| |done].
  - done.
  - intros i s' Hin Hs'. pose proof (Hv i Hin) as Hval.
    apply shared_node_spec; [done|done|by eapply valid_u64|done|done].
  - intros r s' [Hr Hs']. split; [|done]. clear Hv. induction Hr; simpl; congruence.
Qed.

(** The root record of a committed size is there exactly for the published
    sizes, at any moment. *)
Lemma shared_boundary_spec v n s :
  0 < v ≤ n → since n s →
  spec (get (versioned_node_key (root_idx v) v)) s
    (λ r s', match r with Some _ => v ∈ B | None => v ∉ B end ∧ since n s') (shared_failure n).
Proof.
  intros Hv Hs. eapply spec_mono; [by apply shared_get_spec| |done].
  intros r s1 (n1 & m & Hn1 & Hm & -> & Hs1). split; [|by eapply since_mono].
  destruct (Hsnap _ _ Hm) as [Hr Hi].
  rewrite (boundary_stored m _ _ v Hi) by (rewrite length_upto by done; lia).
  case_decide as Hb; rewrite elem_of_bounds_upto in Hb; [by destruct Hb|].
  intros ?. destruct Hb. split; [done|lia].
Qed.

Lemma boundary_size_ok v n : v ∈ B → 0 < v ≤ n → n ≤ 2 ^ 63 → size_ok v.
Proof. unfold size_ok. lia. Qed.

Lemma shared_root_spec v n s :
  is_u64 v → 0 ≤ n → since n s →
  spec (root_at_size v) s
    (λ r s', r = RootHash_new (mth (zslice 0 v D)) v ∧ (v = 0 ∨ v ∈ B) ∧ v ≤ zlen D ∧
       since (Z.max n v) s')
    (shared_error n (λ n' e, (n' < v ∧ e = exceeds "Requested tree size " v n') ∨
       (v ≠ 0 ∧ v ≤ n' ∧ (v ∉ B) ∧ e = not_boundary "Tree size " v))).
Proof.
  intros Hv Hn Hs. unfold root_at_size. destruct (Z.eqb_spec v 0) as [->|Hv0].
  { apply spec_ret. split; [done|]. split; [by left|]. split; [lia|]. by rewrite Z.max_l by lia. }
  unfold is_u64 in Hv. apply spec_bind.
  eapply spec_mono; [by apply shared_committed_size_spec| |intros; by eapply shared_error_db].
  intros c s1 (Hc & HcB & Hc63 & Hs1). destruct (Z.ltb_spec c v).
  { apply spec_fail. exists c. split; [lia|]. auto 10. }
  apply spec_bind. eapply spec_mono; [by apply (shared_boundary_spec v c); [lia|]|
    |intros; eapply shared_error_db; [|done]; lia].
  intros [b|] s2 [HB Hs2]; last first.
  { apply spec_fail. exists c. split; [lia|]. split; [done|]. right. right. auto with lia. }
  pose proof (boundary_size_ok v c HB ltac:(lia) Hc63) as Hok. apply spec_bind.
  eapply spec_mono; [apply (shared_node_spec (root_idx v) v HB (valid_root v Hok)); [|done|done]|
    |intros; eapply shared_error_db; [|done]; lia].
  { eapply valid_u64, valid_root; done. }
  intros h s3 [-> Hs3]. rewrite subtree_hash_root by done. apply spec_ret. split; [done|].
  split; [by right|]. split; [lia|]. eapply since_mono; [|done]. lia.
Qed.

Lemma shared_inclusion_spec idx v n s :
  is_u64 idx → is_u64 v → since n s →
  spec (prove_inclusion_at_size idx v) s
    (λ pf s', v ∈ B ∧ size_ok v ∧ idx < v ≤ zlen D ∧ pf = from_digests (path idx (zslice 0 v D)) ∧
       (∀ x, D !! Z.to_nat idx = Some x →
         verify pf x idx (RootHash_new (mth (zslice 0 v D)) v) = Ok tt) ∧ since (Z.max n v) s')
    (shared_error n (λ n' e, (n' < v ∧ e = exceeds "Requested tree size " v n') ∨
       (v ≤ idx ∧ e = InconsistentState ("Index " +:+ pretty idx +:+
                        " out of bounds for requested tree size " +:+ pretty v)) ∨
       ((v ∉ B) ∧ e = not_boundary "Tree size " v))).
Proof.
  intros Hidx Hv Hs. unfold prove_inclusion_at_size, is_u64 in *. apply spec_bind.
  eapply spec_mono; [by apply shared_committed_size_spec| |intros; by eapply shared_error_db].
  intros c s1 (Hc & HcB & Hc63 & Hs1). destruct (Z.ltb_spec c v).
  { apply spec_fail. exists c. split; [lia|]. auto 10. }
  destruct (Z.leb_spec v idx).
  { apply spec_fail. exists c. split; [lia|]. auto 10. }
  apply spec_bind. eapply spec_mono; [by apply (shared_boundary_spec v c); [lia|]|
    |intros; eapply shared_error_db; [|done]; lia].
  intros [b|] s2 [HB Hs2]; last first.
  { apply spec_fail. exists c. split; [lia|]. auto 10. }
  pose proof (boundary_size_ok v c HB ltac:(lia) Hc63) as Hok.
  destruct (inclusion_up D v idx) as (out & Hup & Hidxs & Hmap); [done|lia|lia|].
  apply spec_bind. eapply spec_lift_ok; [by apply indices_up; [|lia|]|].
  apply spec_bind. eapply spec_mono; [apply (shared_hashes_spec v _ c _ HB Hok); [by eapply up_valid|lia|done]|
    |intros; eapply shared_error_db; [|done]; lia].
  intros hs s3 [-> Hs3]. apply spec_ret. split; [done|]. split; [done|]. split; [lia|]. rewrite Hmap. split; [done|].
  split; [intros x; by apply verify_path; [|lia..]|]. eapply since_mono; [|done]. lia.
Qed.

Lemma shared_consistency_spec v w n s :
  is_u64 v → is_u64 w → v < w → v ≠ 0 → since n s →
  spec (prove_consistency_between v w) s
    (λ pf s', v ∈ B ∧ w ∈ B ∧ w ≤ zlen D ∧
       cverify pf (RootHash_new (mth (zslice 0 v D)) v) (RootHash_new (mth (zslice 0 w D)) w) = Ok tt ∧
       since (Z.max n w) s')
    (shared_error n (λ n' e, (n' < w ∧ e = exceeds "New size " w n') ∨
       ((v ∉ B) ∧ e = not_boundary "Old tree size " v) ∨
       ((w ∉ B) ∧ e = not_boundary "New tree size " w))).
Proof.
  intros Hv Hw Hvw Hv0 Hs. unfold prove_consistency_between, is_u64 in *. zdecide. apply spec_bind.
  eapply spec_mono; [by apply shared_committed_size_spec| |intros; by eapply shared_error_db].
  intros c s1 (Hc & HcB & Hc63 & Hs1). destruct (Z.ltb_spec c w).
  { apply spec_fail. exists c. split; [lia|]. auto 10. }
  apply spec_bind. eapply spec_mono; [by apply (shared_boundary_spec v c); [lia|]|
    |intros; eapply shared_error_db; [|done]; lia].
  intros o1 s2 [HB1 Hs2]. apply spec_bind.
  eapply spec_mono; [by apply (shared_boundary_spec w c); [lia|]|
    |intros; eapply shared_error_db; [|done]; lia].
  intros o2 s3 [HB2 Hs3]. destruct o1; last first.
  { apply spec_fail. exists c. split; [lia|]. auto 10. }
  destruct o2; last first.
  { apply spec_fail. exists c. split; [lia|]. auto 10. }
  pose proof (boundary_size_ok w c HB2 ltac:(lia) Hc63) as Hok.
  destruct (consistency_up (E := SlateDbTreeError) D w v)
    as (p0 & out & idxs & Hup & Hst & Hidxs & Hmap & Heq); [done|lia|lia|].
  rewrite u64_small by lia. apply spec_bind. eapply spec_lift_ok; [done|].
  apply spec_bind. eapply spec_mono; [apply (shared_hashes_spec w _ c _ HB2 Hok); [|lia|done]|
    |intros; eapply shared_error_db; [|done]; lia].
  { destruct (up_valid _ _ _ _ Hup) as (Hval & _ & ?). subst idxs.
    apply Forall_app. split; [|done]. destruct (is_power_of_two v); repeat constructor; apply Hval. }
  intros hs s4 [-> Hs4]. apply spec_ret. split; [done|]. split; [done|]. split; [lia|]. split.
  - rewrite Hmap. apply cverify_proof; [done|lia|lia].
  - eapply since_mono; [|done]. lia.
Qed.

(** ** Properties *)

(** A root that is read while other tasks append is the root of the size
    asked for, whatever batches become visible between the reads of the
    request; a published size that was committed when the request began is
    not refused, and a refusal is right for a moment during the request. *)
Theorem root_at_size_shared v n s :
  is_u64 v → 0 ≤ n → since n s →
  spec (root_at_size v) s
    (λ r s', r = RootHash_new (mth (zslice 0 v D)) v ∧ (v = 0 ∨ v ∈ B) ∧ v ≤ zlen D ∧
       since (Z.max n v) s')
    (shared_error n (λ n' e, (n' < v ∧ e = exceeds "Requested tree size " v n') ∨
       (v ≠ 0 ∧ v ≤ n' ∧ (v ∉ B) ∧ e = not_boundary "Tree size " v))).
Proof. apply shared_root_spec. Qed.

(** An inclusion proof that is read while other tasks append is that of
    the size asked for, although its hashes come from different snapshots, and
    verifies against the root of that size. *)
Theorem prove_inclusion_shared idx v n s :
  is_u64 idx → is_u64 v → since n s →
  spec (prove_inclusion_at_size idx v) s
    (λ pf s', v ∈ B ∧ size_ok v ∧ idx < v ≤ zlen D ∧ pf = from_digests (path idx (zslice 0 v D)) ∧
       (∀ x, D !! Z.to_nat idx = Some x →
         verify pf x idx (RootHash_new (mth (zslice 0 v D)) v) = Ok tt) ∧ since (Z.max n v) s')
    (shared_error n (λ n' e, (n' < v ∧ e = exceeds "Requested tree size " v n') ∨
       (v ≤ idx ∧ e = InconsistentState ("Index " +:+ pretty idx +:+
                        " out of bounds for requested tree size " +:+ pretty v)) ∨
       ((v ∉ B) ∧ e = not_boundary "Tree size " v))).
Proof. apply shared_inclusion_spec. Qed.

End Reads.

(** ** What the writer guarantees *)

Section Writer.
  Context `{SlateDb} `{!Cache (Z * Z) bytes} `{!Cache (Z * Z) bool}.
  Context `{!SlateDbLaws} `{!CacheLaws (Z * Z) bytes} `{!CacheLaws (Z * Z) bool}.
  Context `{Digest} `{HashableLeaf T} `{Postcard T} `{!PostcardLaws T}.
  Context (D : list T) (B : gset Z).

(** An append takes the snapshot of [n] leaves to that of [n'] leaves, or
    leaves it, also when it reports an error: whatever it returns, no reader can
    see anything between the two; and what it caches meanwhile is right. *)
Theorem append_snapshots n n' s items additional :
  output_size = 32%nat → 0 ≤ n ≤ zlen D → inv s (upto D n) (bounds_upto B n) →
  n' = n + zlen items → n' ≤ zlen D → upto D n' = upto D n ++ items →
  bounds_upto B n' = new_bounds (bounds_upto B n) n' →
  (∀ v, v ∈ B → v ≤ zlen D) → Forall (λ kv, tree_key kv.1 = false) additional → zlen D ≤ 2 ^ 63 →
  let caches_right (s' : SlateDbBackedTree) := ∀ c i v h, node_cache s' = Some c →
    cache_view c !! (i, v) = Some h → 0 ≤ i → node_right D B (i, v) h in
  spec (batch_push_with_data items additional) s
    (λ r s', r = n ∧ snapshot D B n' (view s') ∧ caches_right s')
    (λ e s', (snapshot D B n (view s') ∨ snapshot D B n' (view s')) ∧ caches_right s').
Proof.
  intros Hash Hn Hi -> Hn' Hup Hb HB Hadd Hsz caches_right.
  assert (∀ k s', 0 ≤ k ≤ zlen D → inv s' (upto D k) (bounds_upto B k) → snapshot D B k (view s') ∧ caches_right s') as Hsn.
  { intros k s' Hk [Ht Hc]. split; [by split|]. intros c i v h Hsc Hl Hi0.
    eapply (cached_right D B k); [done|done|done|]. by apply (Hc c Hsc (i, v) h). }
  assert (∀ s', appended s (upto D n) (bounds_upto B n) items additional s' →
    snapshot D B (n + zlen items) (view s') ∧ caches_right s') as Happ.
  { intros s' [Hi' _]. apply Hsn; [lia|]. rewrite <- Hup, length_upto, <- Hb in Hi' by lia. exact Hi'. }
  eapply spec_mono; [apply (batch_push_spec (upto D n) (bounds_upto B n) s items additional Hash Hi); [|done]|..].
  - rewrite <- Hup, length_upto by lia. lia.
  - intros r s' [-> Ha]. rewrite length_upto by done. split; [done|by apply Happ].
  - intros e s' [_ [[Hi' Hv]|Ha]].
    + destruct (Hsn n s' Hn Hi'). auto.
    + destruct (Happ s' Ha). auto.
Qed.

End Writer.
