(* ===== verification/Types.v ===== *)
(** * Log entries, SCTs and their encodings

    The data of src/src/types/mod.rs, the extensions of
    src/src/types/sct_extensions.rs and the SCTs of src/src/types/sct.rs.  A
    leaf can be parsed back, and what an SCT signs is the leaf that is
    logged. *)

From S2P Require Import Prelude Rfc6962.

(** ** Parameters: signatures and base64 *)

(** [SigningKey] of crate [p256]: [from_slice] and [sign], with the DER bytes
    of the signature. *)
Class Signer := {
  SigningKey : Type;
  key_from_slice : bytes → option SigningKey;
  sign : SigningKey → bytes → bytes;
}.

(** The standard alphabet of crate [base64]. *)
Class Base64 := {
  b64_encode : bytes → string;
  b64_decode : string → res string bytes;
}.

(** ** Data *)

Inductive LogEntryType := X509Entry | PrecertEntry.
#[global] Instance LogEntryType_eq_dec : EqDecision LogEntryType.
Proof. solve_decision. Defined.

(** A [DateTime<Utc>] is its number of milliseconds since the epoch. *)
Record LogEntry := {
  index : Z;
  timestamp : Z;
  entry_type : LogEntryType;
  certificate : bytes;
  chain : option (list bytes);
  issuer_key_hash : option bytes;
  original_precert : option bytes;
  leaf_data : bytes;
}.

Record DeduplicatedLogEntry := {
  d_index : Z;
  d_timestamp : Z;
  d_entry_type : LogEntryType;
  certificate_hash : bytes;
  chain_hashes : option (list bytes);
  d_issuer_key_hash : option bytes;
  original_precert_hash : option bytes;
  d_leaf_data : bytes;
}.

Inductive StorageError (DbErr : Type) :=
  | SlateDbErr (e : DbErr)
  | InvalidFormat (s : string)
  | QueueFull.
Arguments SlateDbErr {_} e.
Arguments InvalidFormat {_} s.
Arguments QueueFull {_}.

Inductive CtError (DbErr : Type) :=
  | InvalidCertificate (s : string)
  | Storage (e : StorageError DbErr)
  | BadRequest (s : string)
  | Internal (s : string).
Arguments InvalidCertificate {_} s.
Arguments Storage {_} e.
Arguments BadRequest {_} s.
Arguments Internal {_} s.

(** ** Extensions *)

Inductive ExtensionType := ExtLeafIndex.
Definition ext_code (t : ExtensionType) : Z := match t with ExtLeafIndex => 0 end.

Record Extension := { extension_type : ExtensionType; extension_data : bytes }.

(** [LeafIndex::new]: 40 bits. *)
Definition LeafIndex_new (i : Z) : res string Z :=
  if 1099511627775 <? i then Err "Index exceeds 40-bit range" else Ok i.

Definition leaf_index_as_bytes (i : Z) : bytes :=
  [u8 (Z.land (shr64 i 32) 255); u8 (Z.land (shr64 i 24) 255); u8 (Z.land (shr64 i 16) 255);
   u8 (Z.land (shr64 i 8) 255); u8 (Z.land i 255)].

Definition leaf_index_from_bytes (b : bytes) : res string Z :=
  match b with
  | [b0; b1; b2; b3; b4] =>
      LeafIndex_new (Z.lor (Z.lor (Z.lor (Z.lor (shl64 b0 32) (shl64 b1 24)) (shl64 b2 16))
                                  (shl64 b3 8)) b4)
  | _ => Err "LeafIndex must be exactly 5 bytes"
  end.

(** [Extension::leaf_index], [Extension::encode] and [Extension::decode]. *)
Definition ext_leaf_index (i : Z) : res string Extension :=
  leaf_index ← LeafIndex_new i;
  mret {| extension_type := ExtLeafIndex; extension_data := leaf_index_as_bytes leaf_index |}.

Definition ext_encode (self : Extension) : bytes :=
  [ext_code (extension_type self)] ++ be_bytes 2 (u16 (zlen (extension_data self)))
    ++ extension_data self.

Definition ext_decode (b : bytes) : res string (Extension * nat) :=
  match b with
  | ext_type :: b1 :: b2 :: rest =>
      let data_len := Z.to_nat (from_be [b1; b2]) in
      if (length rest <? data_len)%nat then Err "Extension data truncated"
      else if ext_type =? 0
      then Ok ({| extension_type := ExtLeafIndex; extension_data := take data_len rest |},
               (3 + data_len)%nat)
      else Err "Unknown extension type"
  | _ => Err "Extension too short"
  end.

(** [CtExtensions]. *)
Definition ct_extensions_encode (extensions : list Extension) : bytes :=
  let total_len := u16 (zlen (concat (map ext_encode extensions))) in
  be_bytes 2 total_len ++ concat (map ext_encode extensions).

Definition with_leaf_index (i : Z) : res string bytes :=
  leaf_ext ← ext_leaf_index i; mret (ct_extensions_encode [leaf_ext]).

Fixpoint ct_decode_loop (fuel : nat) (b : bytes) : res string (list Extension) :=
  match b, fuel with
  | [], _ => Ok []
  | _, O => Fuel
  | _, S f =>
      '(ext, consumed) ← ext_decode b;
      rest ← ct_decode_loop f (drop consumed b);
      mret (ext :: rest)
  end.

Definition ct_extensions_decode (b : bytes) : res string (list Extension) :=
  match b with
  | b0 :: b1 :: rest =>
      if bool_decide (zlen rest = from_be [b0; b1]) then ct_decode_loop (length rest) rest
      else Err "CtExtensions length mismatch"
  | _ => Err "CtExtensions too short"
  end.

(** ** Leaves *)

(** Three-byte lengths: [(len >> 16) as u8, (len >> 8) as u8, len as u8] of a
    [u32]. *)
Definition len3 (l : bytes) : bytes :=
  let n := u32 (zlen l) in [u8 (Z.shiftr n 16); u8 (Z.shiftr n 8); u8 n].

(** The [match entry_type] shared by the leaf and the SCT. *)
Definition entry_bytes (certificate : bytes) (entry_type : LogEntryType)
    (issuer_key_hash : option bytes) : bytes :=
  match entry_type with
  | X509Entry => [0; 0] ++ len3 certificate ++ certificate
  | PrecertEntry =>
      [0; 1] ++ match issuer_key_hash with Some key_hash => key_hash | None => replicate 32 0 end
        ++ len3 certificate ++ certificate
  end.

Definition serialize_merkle_tree_leaf {E} (certificate : bytes) (entry_type : LogEntryType)
    (issuer_key_hash : option bytes) (timestamp : Z) (index : option Z) : res E bytes :=
  let data := [0] ++ [0] ++ be_bytes 8 (u64 timestamp)
                ++ entry_bytes certificate entry_type issuer_key_hash in
  match index with
  | Some idx =>
      match ext_leaf_index idx with
      | Ok leaf_ext =>
          let ext_data := ext_encode leaf_ext in
          Ok (data ++ be_bytes 2 (u16 (zlen ext_data)) ++ ext_data)
      | Err _ | Panic => Panic
      | Fuel => Fuel
      end
  | None => Ok (data ++ [0; 0])
  end.

Definition compute_leaf_data {E} (certificate : bytes) (entry_type : LogEntryType)
    (issuer_key_hash : option bytes) (timestamp : Z) : res E bytes :=
  serialize_merkle_tree_leaf certificate entry_type issuer_key_hash timestamp None.

Definition compute_leaf_data_with_index {E} (certificate : bytes) (entry_type : LogEntryType)
    (issuer_key_hash : option bytes) (timestamp index : Z) : res E bytes :=
  serialize_merkle_tree_leaf certificate entry_type issuer_key_hash timestamp (Some index).

Definition new_with_timestamp {E} (index : Z) (certificate : bytes) (chain : option (list bytes))
    (timestamp : Z) : res E LogEntry :=
  let entry_type := X509Entry in
  leaf_data ← compute_leaf_data certificate entry_type None timestamp;
  mret {| index := index; timestamp := timestamp; entry_type := entry_type;
          certificate := certificate; chain := chain; issuer_key_hash := None;
          original_precert := None; leaf_data := leaf_data |}.

Definition new_precert_with_timestamp {E} (index : Z) (certificate : bytes)
    (chain : option (list bytes)) (issuer_key_hash original_precert : bytes) (timestamp : Z) :
    res E LogEntry :=
  let entry_type := PrecertEntry in
  leaf_data ← compute_leaf_data certificate entry_type (Some issuer_key_hash) timestamp;
  mret {| index := index; timestamp := timestamp; entry_type := entry_type;
          certificate := certificate; chain := chain; issuer_key_hash := Some issuer_key_hash;
          original_precert := Some original_precert; leaf_data := leaf_data |}.

(** [LogEntry::serialize]. *)
Definition serialize {DbErr} (self : LogEntry) : res (CtError DbErr) bytes :=
  issuer_key_hash ←
    match entry_type self with
    | X509Entry => Ok None
    | PrecertEntry =>
        match issuer_key_hash self with
        | Some key_hash => Ok (Some key_hash)
        | None => Err (InvalidCertificate "Pre-certificate entry missing issuer key hash")
        end
    end;
  serialize_merkle_tree_leaf (certificate self) (entry_type self) issuer_key_hash
    (timestamp self) (Some (index self)).

(** ** Deduplicated entries *)

Section Dedup.
  Context `{Digest}.

Definition hash_certificate (certificate : bytes) : bytes := digest certificate.

(** [DeduplicatedLogEntry::from_log_entry]; [&hash[..32]] panics on a shorter
    hash. *)
Definition from_log_entry {E} (entry : LogEntry) : res E DeduplicatedLogEntry :=
  '(certificate_hash, original_precert_hash) ←
    match entry_type entry with
    | PrecertEntry =>
        precert_hash ← expect (digest <$> original_precert entry);
        mret (precert_hash, Some precert_hash)
    | X509Entry => Ok (digest (certificate entry), None)
    end;
  let chain_hashes := map digest <$> chain entry in
  issuer_key_hash ←
    match issuer_key_hash entry with
    | Some hash => assert_that (32 <=? zlen hash);; mret (Some (take 32 hash))
    | None => Ok None
    end;
  mret {| d_index := index entry; d_timestamp := timestamp entry;
          d_entry_type := entry_type entry; certificate_hash := certificate_hash;
          chain_hashes := chain_hashes; d_issuer_key_hash := issuer_key_hash;
          original_precert_hash := original_precert_hash; d_leaf_data := leaf_data entry |}.

End Dedup.

(** ** SCTs *)

(** [LogId::new]: the digest of the public key. *)
Definition LogId_new `{Digest} (public_key_der : bytes) : bytes := digest public_key_der.

Inductive SctVersion := V1.
Definition sct_version_code (v : SctVersion) : Z := match v with V1 => 0 end.

Record SignedCertificateTimestamp := {
  version : SctVersion;
  log_id : bytes;
  sct_timestamp : Z;
  extensions : bytes;
  signature : bytes;
}.

Definition sct_new (log_id : bytes) (timestamp : Z) : SignedCertificateTimestamp :=
  {| version := V1; log_id := log_id; sct_timestamp := timestamp; extensions := [];
     signature := [] |}.

Definition get_signature_input (self : SignedCertificateTimestamp) (certificate : bytes)
    (entry_type : LogEntryType) (issuer_key_hash : option bytes) : bytes :=
  [sct_version_code (version self)] ++ [0] ++ be_bytes 8 (sct_timestamp self)
    ++ entry_bytes certificate entry_type issuer_key_hash
    ++ be_bytes 2 (u16 (zlen (extensions self))) ++ extensions self.

(** The TLS encoding of a signature: SHA-256, ECDSA, length, bytes. *)
Definition digitally_signed (sig : bytes) : bytes :=
  [4] ++ [3] ++ be_bytes 2 (u16 (zlen sig)) ++ sig.

Section Signed.
  Context `{Signer} {DbErr : Type}.

Record SctBuilder := { sct_log_id : bytes; sct_key : SigningKey }.

Definition from_private_key_bytes (log_id private_key_bytes : bytes) :
    res (CtError DbErr) SctBuilder :=
  match key_from_slice private_key_bytes with
  | Some k => Ok {| sct_log_id := log_id; sct_key := k |}
  | None => Err (InvalidCertificate "Invalid private key")
  end.

Definition create_sct_with_timestamp_and_index (self : SctBuilder) (certificate : bytes)
    (entry_type : LogEntryType) (issuer_key_hash : option bytes) (timestamp : Z)
    (index : option Z) : res (CtError DbErr) SignedCertificateTimestamp :=
  let sct := sct_new (sct_log_id self) timestamp in
  ext ← match index with
        | Some idx =>
            full_extensions ← map_err (λ e, Internal ("Failed to create leaf_index extension: " +:+ e))
                                (with_leaf_index idx);
            mret (drop 2 full_extensions)
        | None => Ok (extensions sct)
        end;
  let sct := {| version := version sct; log_id := log_id sct; sct_timestamp := sct_timestamp sct;
                extensions := ext; signature := [] |} in
  let signature_input := get_signature_input sct certificate entry_type issuer_key_hash in
  mret {| version := version sct; log_id := log_id sct; sct_timestamp := sct_timestamp sct;
          extensions := ext;
          signature := digitally_signed (sign (sct_key self) signature_input) |}.

End Signed.

(** ** Lemmas on encodings *)

Lemma land_255 x : Z.land x 255 = x mod 256.
Proof. change 255 with (Z.ones 8). by rewrite Z.land_ones. Qed.

Lemma u8_mod x : u8 (x mod 256) = u8 x.
Proof. apply (Z.mod_mod x 256). lia. Qed.

Lemma leaf_index_as_bytes_be i : leaf_index_as_bytes i = be_bytes 5 i.
Proof. unfold leaf_index_as_bytes, shr64. by rewrite !land_255, !u8_mod. Qed.

Lemma lor_shift a b k : 0 ≤ k → 0 ≤ b < 2 ^ k → Z.lor (a * 2 ^ k) b = a * 2 ^ k + b.
Proof.
  intros Hk Hb. symmetry. apply Z.add_nocarry_lor. apply Z.bits_inj'. intros n Hn.
  rewrite Z.land_spec, Z.bits_0. destruct (decide (n < k)).
  - by rewrite Z.mul_pow2_bits_low by lia.
  - assert (Z.testbit b n = false) as ->; [|apply andb_false_r].
    destruct (decide (b = 0)) as [->|]; [apply Z.bits_0|]. apply Z.bits_above_log2; [lia|].
    apply Z.lt_le_trans with k; [apply Z.log2_lt_pow2; lia|lia].
Qed.

Lemma shl64_byte b k : 0 ≤ b < 256 → 0 ≤ k ≤ 56 → shl64 b k = b * 2 ^ k.
Proof.
  intros Hb Hk. unfold shl64. rewrite Z.mod_small, Z.shiftl_mul_pow2 by lia. apply u64_small.
  split; [lia|]. assert (2 ^ k ≤ 2 ^ 56) by (apply Z.pow_le_mono_r; lia).
  change (2 ^ 64) with (256 * 2 ^ 56). nia.
Qed.

Lemma leaf_index_from_be b :
  bytes_ok b → length b = 5%nat → leaf_index_from_bytes b = Ok (from_be b).
Proof.
  intros Hb Hl. destruct b as [|b0 [|b1 [|b2 [|b3 [|b4 []]]]]]; try done.
  unfold bytes_ok in Hb. rewrite !Forall_cons in Hb. destruct Hb as (H0 & H1 & H2 & H3 & H4 & _).
  unfold leaf_index_from_bytes. rewrite !shl64_byte by lia.
  rewrite (lor_shift b0 (b1 * 2 ^ 24)) by lia.
  replace (b0 * 2 ^ 32 + b1 * 2 ^ 24) with ((b0 * 2 ^ 8 + b1) * 2 ^ 24) by lia.
  rewrite lor_shift by lia.
  replace ((b0 * 2 ^ 8 + b1) * 2 ^ 24 + b2 * 2 ^ 16) with (((b0 * 2 ^ 8 + b1) * 2 ^ 8 + b2) * 2 ^ 16) by lia.
  rewrite lor_shift by lia.
  replace (((b0 * 2 ^ 8 + b1) * 2 ^ 8 + b2) * 2 ^ 16 + b3 * 2 ^ 8)
    with ((((b0 * 2 ^ 8 + b1) * 2 ^ 8 + b2) * 2 ^ 8 + b3) * 2 ^ 8) by lia.
  rewrite lor_shift by lia. unfold LeafIndex_new, from_be. cbn [fold_left]. zdecide. f_equal; lia.
Qed.

Lemma from_be_2 n : 0 ≤ n < 2 ^ 16 → from_be (be_bytes 2 n) = n.
Proof. intros. rewrite from_be_be_bytes by lia. by apply Z.mod_small. Qed.

Lemma be_bytes_2 n : be_bytes 2 n = [u8 (Z.shiftr n 8); u8 n].
Proof. cbn. by rewrite Z.shiftr_0_r. Qed.

Lemma ext_encode_length e : length (ext_encode e) = (3 + length (extension_data e))%nat.
Proof. unfold ext_encode. by rewrite !length_app, length_be_bytes. Qed.

Lemma ext_decode_encode e rest :
  zlen (extension_data e) < 2 ^ 16 →
  ext_decode (ext_encode e ++ rest) = Ok (e, length (ext_encode e)).
Proof.
  intros Hl. rewrite ext_encode_length. unfold ext_encode. rewrite be_bytes_2.
  rewrite <- !app_assoc. cbn [app ext_decode].
  rewrite <- be_bytes_2. unfold u16. rewrite (Z.mod_small (zlen _)) by lia. rewrite from_be_2 by lia.
  rewrite Nat2Z.id, take_app_length. rewrite (proj2 (Nat.ltb_ge _ _)) by (rewrite length_app; lia).
  by destruct e as [[] d].
Qed.

Lemma ct_decode_loop_encode exts fuel :
  Forall (λ e, zlen (extension_data e) < 2 ^ 16) exts →
  (length (concat (map ext_encode exts)) ≤ fuel)%nat →
  ct_decode_loop fuel (concat (map ext_encode exts)) = Ok exts.
Proof.
  intros He. revert fuel. induction He as [|e exts He Hes IH]; intros fuel Hf; [by destruct fuel|].
  cbn [map concat] in *. rewrite length_app, ext_encode_length in Hf.
  destruct fuel as [|fuel]; [lia|].
  assert (∃ x xs, ext_encode e ++ concat (map ext_encode exts) = x :: xs) as (x & xs & Hx).
  { unfold ext_encode. cbn. eauto. }
  rewrite Hx. cbn [ct_decode_loop]. rewrite <- Hx, ext_decode_encode, bind_Ok by done.
  rewrite drop_app_length, IH, bind_Ok by lia. done.
Qed.

Lemma len3_be l : zlen l < 2 ^ 24 → len3 l = be_bytes 3 (zlen l).
Proof.
  intros Hl. unfold len3, u32. cbv zeta. rewrite Z.mod_small by lia. cbn [be_bytes].
  by rewrite Z.shiftr_0_r.
Qed.

(** ** Reading a leaf back: the MerkleTreeLeaf structure of RFC 6962 *)

Record parsed_leaf := {
  p_timestamp : Z;
  p_entry_type : LogEntryType;
  p_issuer_key_hash : option bytes;
  p_certificate : bytes;
  p_index : option Z;
}.

Definition parse_extensions (b : bytes) : option (option Z) :=
  match ct_extensions_decode b with
  | Ok [] => Some None
  | Ok [e] => match leaf_index_from_bytes (extension_data e) with
              | Ok i => Some (Some i)
              | _ => None
              end
  | _ => None
  end.

(** A three-byte length and as many bytes. *)
Definition parse_vec3 (b : bytes) : option (bytes * bytes) :=
  let n := Z.to_nat (from_be (take 3 b)) in
  let rest := drop 3 b in
  if (n <=? length rest)%nat then Some (take n rest, drop n rest) else None.

Definition parse_leaf (b : bytes) : option parsed_leaf :=
  match b with
  | 0 :: 0 :: b1 =>
      let ts := from_be (take 8 b1) in
      match drop 8 b1 with
      | 0 :: 0 :: b2 =>
          '(cert, b3) ← parse_vec3 b2; idx ← parse_extensions b3;
          mret {| p_timestamp := ts; p_entry_type := X509Entry; p_issuer_key_hash := None;
                  p_certificate := cert; p_index := idx |}
      | 0 :: 1 :: b2 =>
          '(cert, b3) ← parse_vec3 (drop 32 b2); idx ← parse_extensions b3;
          mret {| p_timestamp := ts; p_entry_type := PrecertEntry;
                  p_issuer_key_hash := Some (take 32 b2); p_certificate := cert; p_index := idx |}
      | _ => None
      end
  | _ => None
  end.

Lemma parse_vec3_ok cert rest :
  zlen cert < 2 ^ 24 → parse_vec3 (len3 cert ++ cert ++ rest) = Some (cert, rest).
Proof.
  intros Hl. rewrite len3_be by done. unfold parse_vec3.
  rewrite take_app_length', drop_app_length' by (by rewrite length_be_bytes).
  rewrite from_be_be_bytes, Z.mod_small by lia. rewrite Nat2Z.id.
  rewrite (proj2 (Nat.leb_le _ _)) by (rewrite length_app; lia).
  by rewrite take_app_length, drop_app_length.
Qed.

Lemma ext_leaf_index_ok i :
  0 ≤ i < 2 ^ 40 → ext_leaf_index i =
    Ok {| extension_type := ExtLeafIndex; extension_data := be_bytes 5 i |}.
Proof.
  intros Hi. unfold ext_leaf_index, LeafIndex_new. zdecide. cbn [mbind res_bind].
  by rewrite leaf_index_as_bytes_be.
Qed.

Lemma parse_extensions_index i e :
  0 ≤ i < 2 ^ 40 → ext_leaf_index i = Ok e →
  parse_extensions (be_bytes 2 (u16 (zlen (ext_encode e))) ++ ext_encode e) = Some (Some i).
Proof.
  intros Hi. rewrite ext_leaf_index_ok by done. set (e0 := {| extension_type := _ |}).
  intros He. assert (e0 = e) as Heq by congruence. clear He. subst e. rename e0 into e.
  assert (length (ext_encode e) = 8%nat) as Hlen
    by (rewrite ext_encode_length; by change (extension_data e) with (be_bytes 5 i)).
  unfold parse_extensions, ct_extensions_decode. rewrite be_bytes_2. cbn [app].
  rewrite <- be_bytes_2, Hlen. change (from_be (be_bytes 2 (u16 (Z.of_nat 8)))) with 8.
  rewrite bool_decide_eq_true_2 by done.
  assert (ct_decode_loop 8 (ext_encode e) = Ok [e]) as ->.
  { rewrite <- (app_nil_r (ext_encode e)). apply (ct_decode_loop_encode [e]).
    - by repeat constructor.
    - cbn [map concat]. rewrite app_nil_r. lia. }
  change (extension_data e) with (be_bytes 5 i).
  rewrite leaf_index_from_be by (apply be_bytes_ok || apply length_be_bytes).
  rewrite from_be_be_bytes, Z.mod_small by lia. done.
Qed.

Lemma entry_bytes_x509 cert rest :
  entry_bytes cert X509Entry None ++ rest = 0 :: 0 :: len3 cert ++ cert ++ rest.
Proof. cbn [entry_bytes]. by rewrite <- !app_assoc. Qed.

Lemma entry_bytes_precert cert h rest :
  entry_bytes cert PrecertEntry (Some h) ++ rest = 0 :: 1 :: h ++ len3 cert ++ cert ++ rest.
Proof. cbn [entry_bytes]. by rewrite <- !app_assoc. Qed.

(** The fields a leaf is made of. *)
Definition leaf_fields_ok (cert : bytes) (ty : LogEntryType) (ikh : option bytes) (ts : Z)
    (idx : option Z) : Prop :=
  zlen cert < 2 ^ 24 ∧ 0 ≤ ts < 2 ^ 64 ∧
  match ty, ikh with
  | X509Entry, None => True
  | PrecertEntry, Some h => length h = 32%nat
  | _, _ => False
  end ∧
  match idx with Some i => 0 ≤ i < 2 ^ 40 | None => True end.

Lemma parse_body ts cert ty ikh ext idx :
  leaf_fields_ok cert ty ikh ts idx → parse_extensions ext = Some idx →
  parse_leaf ([0] ++ [0] ++ be_bytes 8 (u64 ts) ++ entry_bytes cert ty ikh ++ ext) =
    Some {| p_timestamp := ts; p_entry_type := ty; p_issuer_key_hash := ikh;
            p_certificate := cert; p_index := idx |}.
Proof.
  intros (Hl & Hts & Hty & _) Hext. rewrite (u64_small ts) by done. cbn [app parse_leaf].
  rewrite take_app_length', drop_app_length' by (by rewrite length_be_bytes).
  rewrite from_be_be_64 by done. destruct ty, ikh as [h|]; try done.
  - rewrite entry_bytes_x509. cbv iota beta zeta. rewrite parse_vec3_ok by done. cbn [mbind option_bind].
    by rewrite Hext.
  - rewrite entry_bytes_precert. cbv iota beta zeta.
    rewrite take_app_length', drop_app_length' by done.
    rewrite parse_vec3_ok by done. cbn [mbind option_bind]. by rewrite Hext.
Qed.

(** C9: a MerkleTreeLeaf can be read back: the parser of the RFC 6962
    structure returns the timestamp, entry type, issuer key hash, certificate
    and leaf index that [serialize_merkle_tree_leaf] was given, so two entries
    that differ in any of them have different leaves. *)
Theorem merkle_tree_leaf_roundtrip {E} cert ty ikh ts idx :
  leaf_fields_ok cert ty ikh ts idx →
  ∃ b, serialize_merkle_tree_leaf (E := E) cert ty ikh ts idx = Ok b ∧
    parse_leaf b = Some {| p_timestamp := ts; p_entry_type := ty; p_issuer_key_hash := ikh;
                           p_certificate := cert; p_index := idx |}.
Proof.
  intros Hf. pose proof Hf as (_ & _ & _ & Hidx). unfold serialize_merkle_tree_leaf.
  destruct idx as [i|].
  - rewrite ext_leaf_index_ok by done. cbv zeta. eexists. split; [done|].
    rewrite <- !app_assoc. apply parse_body; [done|].
    apply parse_extensions_index; [done|]. by apply ext_leaf_index_ok.
  - eexists. split; [done|]. rewrite <- !app_assoc. by apply parse_body.
Qed.

(** A decoded extension consumes at least its header. *)
Lemma ext_decode_consumes b ext n : ext_decode b = Ok (ext, n) → (3 ≤ n)%nat.
Proof.
  unfold ext_decode. destruct b as [|b0 [|b1 [|b2 rest]]]; try done. destruct (_ <? _)%nat; [done|].
  destruct (b0 =? 0); [|done]. intros [= _ <-]. lia.
Qed.

Lemma ct_decode_loop_total fuel b : (length b ≤ fuel)%nat → total (ct_decode_loop fuel b).
Proof.
  revert b. induction fuel as [|fuel IH]; intros b Hb; destruct b as [|x b]; try done; [cbn in Hb; lia|].
  cbn [ct_decode_loop]. apply total_bind.
  - unfold ext_decode. destruct b as [|b1 [|b2 rest]]; try done. by repeat apply total_if.
  - intros [ext n] Hn%ext_decode_consumes. apply total_bind; [|done]. apply IH.
    rewrite length_drop. cbn in *. lia.
Qed.


(** The extensions of an SCT and of a leaf survive encoding and decoding;
    a leaf index of up to 40 bits is recovered from its five bytes, a larger
    one is refused. *)
Theorem extensions_roundtrip :
  (∀ exts, Forall (λ e, zlen (extension_data e) < 2 ^ 16) exts →
     zlen (concat (map ext_encode exts)) < 2 ^ 16 →
     ct_extensions_decode (ct_extensions_encode exts) = Ok exts) ∧
  (∀ i, 0 ≤ i < 2 ^ 40 → leaf_index_from_bytes (leaf_index_as_bytes i) = Ok i) ∧
  (∀ i, 2 ^ 40 ≤ i → with_leaf_index i = Err "Index exceeds 40-bit range").
Proof.
  split; [|split].
  - intros exts He Ht. unfold ct_extensions_encode, u16. rewrite Z.mod_small by lia. cbv zeta.
    rewrite be_bytes_2. cbn [app ct_extensions_decode]. rewrite <- be_bytes_2, from_be_2 by lia.
    rewrite bool_decide_eq_true_2 by done. by apply ct_decode_loop_encode.
  - intros i Hi. rewrite leaf_index_as_bytes_be.
    rewrite leaf_index_from_be by (apply be_bytes_ok || apply length_be_bytes).
    by rewrite from_be_be_bytes, Z.mod_small by lia.
  - intros i Hi. unfold with_leaf_index, ext_leaf_index, LeafIndex_new. by zdecide.
Qed.

(** C10: what an SCT signs is the leaf that is logged: the signature of the SCT
    created for an entry and an index below 2^40 is over exactly the bytes of
    the MerkleTreeLeaf that [compute_leaf_data_with_index] gives for them. *)
Theorem sct_signs_leaf `{Signer} {DbErr} (b : SctBuilder) cert ty ikh ts i :
  0 ≤ ts < 2 ^ 64 → 0 ≤ i < 2 ^ 40 →
  ∃ sct leaf,
    create_sct_with_timestamp_and_index (DbErr := DbErr) b cert ty ikh ts (Some i) = Ok sct ∧
    compute_leaf_data_with_index (E := CtError DbErr) cert ty ikh ts i = Ok leaf ∧
    get_signature_input sct cert ty ikh = leaf ∧
    log_id sct = sct_log_id b ∧ sct_timestamp sct = ts ∧
    signature sct = digitally_signed (sign (sct_key b) leaf).
Proof.
  intros Hts Hi. unfold create_sct_with_timestamp_and_index, with_leaf_index.
  unfold compute_leaf_data_with_index, serialize_merkle_tree_leaf.
  rewrite ext_leaf_index_ok by done. set (e := {| extension_type := _ |}).
  cbn [mbind res_bind map_err mret res_ret].
  unfold ct_extensions_encode. cbn [map concat].
  rewrite drop_app_length' by (by rewrite length_be_bytes). rewrite app_nil_r.
  eexists _, _. split; [done|]. split; [done|].
  rewrite (u64_small ts) by done. unfold get_signature_input.
  cbn [version log_id sct_timestamp extensions signature sct_new sct_version_code].
  rewrite <- !app_assoc. done.
Qed.
