(* ===== verification/TreeHead.v ===== *)
(** * Signed tree heads and checkpoints

    [SignedTreeHead] and [SthBuilder] of src/src/types/tree_head.rs, the
    signed notes of src/src/types/signed_note.rs.  Both sign the same bytes
    for a tree, and these bytes determine the tree head. *)

From S2P Require Import Prelude Rfc6962 Types.

(** ** Tree heads *)

Record SignedTreeHead := {
  tree_size : Z;
  sth_timestamp : Z;
  sth_root_hash : bytes;
  sth_signature : bytes;
}.

Definition sth_new (tree_size timestamp : Z) (root_hash : bytes) : SignedTreeHead :=
  {| tree_size := tree_size; sth_timestamp := timestamp; sth_root_hash := root_hash;
     sth_signature := [] |}.

Definition sth_signature_input (self : SignedTreeHead) : bytes :=
  [0] ++ [1] ++ be_bytes 8 (sth_timestamp self) ++ be_bytes 8 (tree_size self)
    ++ sth_root_hash self.

Record SthResponse := {
  resp_tree_size : Z;
  resp_timestamp : Z;
  sha256_root_hash : string;
  tree_head_signature : string;
}.

Definition to_api_response `{Base64} (self : SignedTreeHead) : SthResponse :=
  {| resp_tree_size := tree_size self;
     resp_timestamp := sth_timestamp self;
     sha256_root_hash := b64_encode (sth_root_hash self);
     tree_head_signature := b64_encode (digitally_signed (sth_signature self)) |}.

(** ** Signed notes *)

Definition newline : string := String (Ascii.ascii_of_nat 10) EmptyString.

(** [str::ends_with] a newline. *)
Fixpoint ends_with_newline (s : string) : bool :=
  match s with
  | EmptyString => false
  | String c EmptyString => bool_decide (c = Ascii.ascii_of_nat 10)
  | String _ s' => ends_with_newline s'
  end.

Record NoteSignature := { key_name : string; key_id : bytes; note_signature : bytes }.
Record SignedNote := { text : string; signatures : list NoteSignature }.

Definition note_new (text : string) : SignedNote := {| text := text; signatures := [] |}.

Definition add_signature (self : SignedNote) (signature : NoteSignature) : SignedNote :=
  {| text := text self; signatures := signatures self ++ [signature] |}.

Section Notes.
  Context `{Base64}.

Definition note_signature_format (self : NoteSignature) : string :=
  let sig_bytes := key_id self ++ note_signature self in
  "— " +:+ key_name self +:+ " " +:+ b64_encode sig_bytes.

Definition note_format (self : SignedNote) : string :=
  let output := text self in
  let output := if ends_with_newline output then output else output +:+ newline in
  let output := output +:+ newline in
  fold_left (λ output sig, output +:+ note_signature_format sig +:+ newline)
    (signatures self) output.

End Notes.

(** [RFC6962NoteSignature::encode]. *)
Definition rfc6962_note_signature_encode (timestamp : Z) (signature : bytes) : bytes :=
  be_bytes 8 timestamp ++ [4] ++ [3] ++ be_bytes 2 (u16 (zlen signature)) ++ signature.

Section Builders.
  Context `{Signer} `{Base64} `{Digest} {DbErr : Type}.

(** [SthBuilder] and [CheckpointBuilder] hold the same fields. *)
Record SthBuilder := { sth_key : SigningKey; origin : string; sth_log_id : bytes }.

Definition SthBuilder_new (private_key_bytes : bytes) (origin : string) (log_id : bytes) :
    res (CtError DbErr) SthBuilder :=
  match key_from_slice private_key_bytes with
  | Some k => Ok {| sth_key := k; origin := origin; sth_log_id := log_id |}
  | None => Err (InvalidCertificate "Invalid private key")
  end.

(** [now] is the clock, read when no timestamp is given. *)
Definition create_sth (self : SthBuilder) (now tree_size : Z) (root_hash : bytes)
    (checkpoint_timestamp : option Z) : SignedTreeHead :=
  let timestamp := default (u64 now) checkpoint_timestamp in
  let sth := sth_new tree_size timestamp root_hash in
  {| tree_size := tree_size; sth_timestamp := timestamp; sth_root_hash := root_hash;
     sth_signature := sign (sth_key self) (sth_signature_input sth) |}.

Definition calculate_key_id (self : SthBuilder) : bytes :=
  take 4 (digest (str_bytes (origin self) ++ [10] ++ [5] ++ sth_log_id self)).

Definition build_signature_input (timestamp tree_size : Z) (root_hash : bytes) : bytes :=
  [0] ++ [1] ++ be_bytes 8 timestamp ++ be_bytes 8 tree_size ++ root_hash.

(** [CheckpointBuilder::create_checkpoint]. *)
Definition checkpoint_note (self : SthBuilder) (tree_size : Z) (root_hash : bytes) (timestamp : Z) :
    SignedNote :=
  let checkpoint_text := origin self +:+ newline +:+ pretty tree_size +:+ newline
                           +:+ b64_encode root_hash in
  let note := note_new checkpoint_text in
  let signature_bytes := sign (sth_key self) (build_signature_input timestamp tree_size root_hash) in
  add_signature note
    {| key_name := origin self; key_id := calculate_key_id self;
       note_signature := rfc6962_note_signature_encode timestamp signature_bytes |}.

(** [SthBuilder::create_checkpoint]. *)
Definition create_checkpoint (self : SthBuilder) (now tree_size : Z) (root_hash : bytes)
    (checkpoint_timestamp : option Z) : SignedNote :=
  let timestamp := default (u64 now) checkpoint_timestamp in
  checkpoint_note self tree_size root_hash timestamp.

(** ** Properties *)

(** C12: the STH and the checkpoint created for a tree and a time carry a
    signature over the same bytes, which determine the size, the time and the
    root hash: no signature can be taken for another tree head. *)
Theorem tree_head_signatures (b : SthBuilder) now size root ts :
  sth_signature (create_sth b now size root (Some ts)) =
    sign (sth_key b) (build_signature_input ts size root) ∧
  note_signature <$> signatures (create_checkpoint b now size root (Some ts)) =
    [rfc6962_note_signature_encode ts (sign (sth_key b) (build_signature_input ts size root))] ∧
  ∀ size' root' ts', 0 ≤ ts < 2 ^ 64 → 0 ≤ size < 2 ^ 64 → 0 ≤ ts' < 2 ^ 64 → 0 ≤ size' < 2 ^ 64 →
    build_signature_input ts size root = build_signature_input ts' size' root' →
    ts = ts' ∧ size = size' ∧ root = root'.
Proof.
  split; [done|]. split; [done|]. intros size' root' ts' Hts Hs Hts' Hs' Heq.
  unfold build_signature_input in Heq. apply app_inv_head, app_inv_head in Heq.
  apply app_inj_1 in Heq as [H1' Heq]; [|by rewrite !length_be_bytes].
  apply app_inj_1 in Heq as [H2' Heq]; [|by rewrite !length_be_bytes].
  apply (be_bytes_inj 8) in H1'; [|done..]. apply (be_bytes_inj 8) in H2'; done.
Qed.

End Builders.
