(* ===== verification/Tiles.v ===== *)
(** * Tile paths, data tiles and pages

    [parse_tile_index], [format_tile_index] and [TileLeaf] of
    src/src/types/tiles.rs, [EntriesPage] of src/src/types/pages.rs. *)

From S2P Require Import Prelude Rfc6962 Types.

(** ** Tile paths *)

(** [str::split] on a character. *)
Fixpoint split_on (c : Ascii.ascii) (s : string) : list string :=
  match s with
  | EmptyString => [EmptyString]
  | String a s' =>
      if bool_decide (a = c) then EmptyString :: split_on c s'
      else match split_on c s' with
           | p :: ps => String a p :: ps
           | [] => [String a EmptyString]
           end
  end.

Definition slash : Ascii.ascii := Ascii.ascii_of_nat 47.
Definition char_x : Ascii.ascii := Ascii.ascii_of_nat 120.
Definition char_plus : Ascii.ascii := Ascii.ascii_of_nat 43.

(** [str::parse::<u64>]: an optional [+], then decimal digits, checked. *)
Definition digit_value (a : Ascii.ascii) : option Z :=
  let n := Z.of_nat (Ascii.nat_of_ascii a) in
  if (48 <=? n) && (n <=? 57) then Some (n - 48) else None.

Fixpoint parse_digits (s : string) (acc : Z) : option Z :=
  match s with
  | EmptyString => Some acc
  | String a s' =>
      d ← digit_value a;
      if U64_MAX <? acc * 10 + d then None else parse_digits s' (acc * 10 + d)
  end.

Definition parse_u64 (s : string) : option Z :=
  match s with
  | EmptyString => None
  | String a s' =>
      if bool_decide (a = char_plus)
      then match s' with EmptyString => None | _ => parse_digits s' 0 end
      else parse_digits s 0
  end.

Definition starts_with_x (s : string) : bool :=
  match s with String a _ => bool_decide (a = char_x) | EmptyString => false end.
Definition string_tail (s : string) : string :=
  match s with String _ s' => s' | EmptyString => EmptyString end.

(** The loop over the parts of the path. *)
Fixpoint parse_parts {DbErr} (parts : list string) (index : Z) : res (CtError DbErr) Z :=
  match parts with
  | [] => Ok index
  | part :: rest =>
      let is_last := bool_decide (rest = []) in
      let num_str := if negb is_last && starts_with_x part then string_tail part else part in
      if negb (bool_decide (String.length num_str = 3%nat)) then
        Err (BadRequest "Each path element must be exactly 3 digits")
      else
        match parse_u64 num_str with
        | None => Err (BadRequest "Invalid number in tile path")
        | Some num =>
            if 999 <? num then Err (BadRequest "Path element must be 000-999")
            else parse_parts rest ((index *! 1000) +! num)
        end
  end.

Definition parse_tile_index {DbErr} (path : string) : res (CtError DbErr) Z :=
  let parts := split_on slash path in
  if bool_decide (parts = []) || (64 <? zlen parts) then
    Err (BadRequest "Invalid tile index path")
  else parse_parts parts 0.

(** [format!("{:03}", n)] for [n < 1000]. *)
Definition digit_char (d : Z) : Ascii.ascii := Ascii.ascii_of_nat (Z.to_nat (48 + d)).
Definition format_03 (n : Z) : string :=
  String (digit_char (n / 100)) (String (digit_char (n / 10 mod 10))
    (String (digit_char (n mod 10)) EmptyString)).

Fixpoint tile_parts (fuel : nat) (index : Z) (parts : list string) : list string :=
  match fuel with
  | O => parts
  | S f => if 0 <? index then tile_parts f (index / 1000) (format_03 (index mod 1000) :: parts)
           else parts
  end.

(** All parts but the last get an [x]. *)
Fixpoint mark_parts (parts : list string) : list string :=
  match parts with
  | [] => []
  | [p] => [p]
  | p :: rest => String char_x p :: mark_parts rest
  end.

Fixpoint join_slash (parts : list string) : string :=
  match parts with
  | [] => EmptyString
  | [p] => p
  | p :: rest => p +:+ String slash (join_slash rest)
  end.

(** A [u64] has at most seven groups of three digits. *)
Definition format_tile_index (index : Z) : string :=
  if index =? 0 then "000" else join_slash (mark_parts (tile_parts 7 index [])).

(** ** Data tiles *)

Record TileLeaf := {
  timestamped_entry_raw : bytes;
  pre_certificate : option bytes;
  certificate_chain : list bytes;
}.

(** [&entry.leaf_data[2..]] panics on a shorter leaf. *)
Definition tile_leaf_from_entry {E} (entry : DeduplicatedLogEntry) (pre_certificate : option bytes) :
    res E TileLeaf :=
  assert_that (2 <=? zlen (d_leaf_data entry));;
  mret {| timestamped_entry_raw := drop 2 (d_leaf_data entry);
          pre_certificate := match d_entry_type entry with
                             | PrecertEntry => pre_certificate
                             | X509Entry => None
                             end;
          certificate_chain := default [] (chain_hashes entry) |}.

Definition tile_leaf_to_bytes (self : TileLeaf) : bytes :=
  timestamped_entry_raw self
    ++ match pre_certificate self with Some precert => len3 precert ++ precert | None => [] end
    ++ be_bytes 2 (u16 (zlen (certificate_chain self) * 32))
    ++ concat (certificate_chain self).

(** ** Pages *)

Record PageEntry := { timestamped_entry : bytes; issuer_hashes : list bytes }.
Record EntriesPage := { entry_count : Z; first_entry_index : Z; entries : list PageEntry }.

Definition page_new (first_entry_index : Z) : EntriesPage :=
  {| entry_count := 0; first_entry_index := first_entry_index; entries := [] |}.

Definition page_add_entry (self : EntriesPage) (timestamped_entry : bytes)
    (issuer_hashes : list bytes) : EntriesPage :=
  {| entry_count := entry_count self +! 1; first_entry_index := first_entry_index self;
     entries := entries self ++ [{| timestamped_entry := timestamped_entry;
                                    issuer_hashes := issuer_hashes |}] |}.

Definition page_entry_bytes (entry : PageEntry) : bytes :=
  be_bytes 4 (u32 (zlen (timestamped_entry entry))) ++ timestamped_entry entry
    ++ be_bytes 2 (u16 (zlen (issuer_hashes entry))) ++ concat (issuer_hashes entry).

Definition page_to_binary (self : EntriesPage) : bytes :=
  [0] ++ be_bytes 8 (entry_count self) ++ be_bytes 8 (first_entry_index self)
    ++ concat (map page_entry_bytes (entries self)).

(** [base64url_to_hash]: the decoder of the URL-safe alphabet is a parameter. *)
Definition base64url_to_hash (decode : string → res string bytes) (s : string) : res string bytes :=
  b ← map_err (λ e, "Invalid base64url: " +:+ e) (decode s);
  if negb (bool_decide (length b = 32%nat))
  then Err ("Invalid hash length: expected 32, got " +:+ pretty (zlen b))
  else Ok b.

(** ** Lemmas on paths *)

Fixpoint no_slash (s : string) : bool :=
  match s with
  | EmptyString => true
  | String a s' => negb (bool_decide (a = slash)) && no_slash s'
  end.

(** What the path code needs of a group of three digits. *)
Definition group_ok (d : Z) : bool :=
  no_slash (format_03 d) && bool_decide (String.length (format_03 d) = 3%nat)
    && bool_decide (parse_u64 (format_03 d) = Some d) && negb (starts_with_x (format_03 d)).

Lemma group_all : forallb group_ok (zrange 0 1000) = true.
Proof. vm_compute. done. Qed.

Lemma group_spec d : 0 ≤ d < 1000 →
  no_slash (format_03 d) = true ∧ String.length (format_03 d) = 3%nat ∧
  parse_u64 (format_03 d) = Some d.
Proof.
  intros Hd. pose proof group_all as Hall. rewrite forallb_forall in Hall.
  assert (group_ok d = true) as Hok.
  { apply Hall, list_elem_of_In. unfold zrange. apply elem_of_seqZ. lia. }
  unfold group_ok in Hok. rewrite !andb_true_iff in Hok. destruct Hok as [[[? Hl] Hp] _].
  apply bool_decide_eq_true in Hl, Hp. done.
Qed.

Lemma split_no_slash s : no_slash s = true → split_on slash s = [s].
Proof.
  induction s as [|a s IH]; [done|]. cbn [no_slash split_on]. intros [Ha Hs]%andb_true_iff.
  apply negb_true_iff in Ha. by rewrite Ha, IH.
Qed.

Lemma split_join_one p s :
  no_slash p = true → split_on slash (p +:+ String slash s) = p :: split_on slash s.
Proof.
  induction p as [|a p IH].
  - done.
  - change (String a p +:+ String slash s) with (String a (p +:+ String slash s)).
    cbn [no_slash split_on]. intros [Ha Hp]%andb_true_iff. apply negb_true_iff in Ha. by rewrite Ha, IH.
Qed.

Lemma split_join parts :
  parts ≠ [] → Forall (λ p, no_slash p = true) parts → split_on slash (join_slash parts) = parts.
Proof.
  intros Hne Hp. induction Hp as [|p parts Hp Hps IH]; [done|].
  destruct parts as [|q parts]; [by apply split_no_slash|].
  cbn [join_slash]. rewrite split_join_one by done. f_equal. by apply IH.
Qed.

(** The value of a list of groups, most significant first. *)
Definition groups_value (ds : list Z) (acc : Z) : Z := fold_left (λ acc d, acc * 1000 + d) ds acc.

Lemma groups_value_ge ds acc :
  Forall (λ d, 0 ≤ d < 1000) ds → 0 ≤ acc → acc ≤ groups_value ds acc.
Proof.
  intros Hd. revert acc. induction Hd as [|d ds Hd Hds IH]; intros acc Ha; [done|].
  cbn [groups_value fold_left]. etrans; [|apply IH; lia]. lia.
Qed.

Lemma parse_mark {DbErr} ds acc :
  Forall (λ d, 0 ≤ d < 1000) ds → 0 ≤ acc → groups_value ds acc < 2 ^ 64 →
  parse_parts (DbErr := DbErr) (mark_parts (map format_03 ds)) acc = Ok (groups_value ds acc).
Proof.
  intros Hd. revert acc. induction Hd as [|d ds Hd Hds IH]; intros acc Ha Hv; [done|].
  destruct (group_spec d Hd) as (_ & Hlen & Hparse).
  assert (acc * 1000 + d < 2 ^ 64) as Hb.
  { eapply Z.le_lt_trans; [|apply Hv]. by apply (groups_value_ge ds); [|lia]. }
  destruct ds as [|d' ds].
  - cbn [map mark_parts parse_parts]. rewrite (bool_decide_eq_true_2 ([] = [])) by done.
    cbn [negb andb]. rewrite (bool_decide_eq_true_2 (String.length (format_03 d) = 3%nat)) by done.
    cbn [negb]. rewrite Hparse. zdecide. unwrap. done.
  - change (mark_parts (map format_03 (d :: d' :: ds)))
      with (String char_x (format_03 d) :: mark_parts (map format_03 (d' :: ds))).
    cbn [parse_parts]. rewrite (bool_decide_eq_false_2 (mark_parts (map format_03 (d' :: ds)) = []))
      by (by destruct ds).
    cbn [negb andb starts_with_x string_tail].
    rewrite (bool_decide_eq_true_2 (char_x = char_x)) by done.
    rewrite (bool_decide_eq_true_2 (String.length (format_03 d) = 3%nat)) by done.
    cbn [negb]. rewrite Hparse. zdecide. unwrap.
    apply IH; [lia|done].
Qed.

Lemma tile_parts_groups fuel i ds :
  0 ≤ i < 1000 ^ Z.of_nat fuel → Forall (λ d, 0 ≤ d < 1000) ds →
  ∃ ds', tile_parts fuel i (map format_03 ds) = map format_03 ds' ∧
    Forall (λ d, 0 ≤ d < 1000) ds' ∧ groups_value ds' 0 = groups_value ds i ∧
    (length ds ≤ length ds' ≤ fuel + length ds)%nat ∧ (0 < i → (length ds < length ds')%nat).
Proof.
  revert i ds. induction fuel as [|fuel IH]; intros i ds Hi Hds.
  { exists ds. cbn in *. assert (i = 0) as -> by lia. split_and!; [done|done|done|lia|lia|lia]. }
  cbn [tile_parts]. destruct (Z.ltb_spec 0 i); last first.
  { assert (i = 0) as -> by lia. exists ds. split_and!; [done|done|done|lia|lia|lia]. }
  pose proof (Z.mod_pos_bound i 1000 ltac:(lia)). pose proof (Z.div_mod i 1000 ltac:(lia)) as Hdm.
  destruct (IH (i / 1000) (i mod 1000 :: ds)) as (ds' & Heq & Hd & Hv & Hl & _).
  - split; [apply Z.div_pos; lia|]. apply Z.div_lt_upper_bound; [lia|].
    rewrite Nat2Z.inj_succ, Z.pow_succ_r in Hi by lia. lia.
  - by constructor.
  - exists ds'. cbn [length] in Hl. split_and!; [done|done| |lia|lia|lia].
    rewrite Hv. cbn [groups_value fold_left]. f_equal. lia.
Qed.

Lemma mark_no_slash ds :
  Forall (λ d, 0 ≤ d < 1000) ds → Forall (λ p, no_slash p = true) (mark_parts (map format_03 ds)).
Proof.
  induction 1 as [|d ds Hd Hds IH]; [constructor|]. destruct (group_spec d Hd) as (Hs & _).
  destruct ds as [|d' ds]; [by repeat constructor|].
  change (mark_parts (map format_03 (d :: d' :: ds)))
    with (String char_x (format_03 d) :: mark_parts (map format_03 (d' :: ds))).
  constructor; [done|apply IH].
Qed.

Lemma length_mark ps : length (mark_parts ps) = length ps.
Proof. induction ps as [|p [|q ps] IH]; [done|done|]. cbn [mark_parts length] in *. by rewrite IH. Qed.

Lemma tile_index_round {DbErr} i :
  0 ≤ i < 2 ^ 64 → parse_tile_index (DbErr := DbErr) (format_tile_index i) = Ok i.
Proof.
  intros Hi. unfold format_tile_index. destruct (Z.eqb_spec i 0) as [->|Hi0]; [done|].
  destruct (tile_parts_groups 7 i []) as (ds & Heq & Hd & Hv & Hl & Hne);
    [change (1000 ^ Z.of_nat 7) with (10 ^ 21); lia|done|].
  cbn [map length] in *. rewrite Heq. unfold parse_tile_index.
  assert (length (mark_parts (map format_03 ds)) = length ds) as Hlen
    by (by rewrite length_mark, length_map).
  rewrite split_join; [|intros Hn; rewrite Hn in Hlen; cbn in Hlen; lia|by apply mark_no_slash].
  rewrite Hlen, bool_decide_eq_false_2 by (intros Hn; rewrite Hn in Hlen; cbn in Hlen; lia).
  zdecide. cbn [orb]. rewrite parse_mark; [by rewrite Hv|done|done|].
  rewrite Hv. cbn. lia.
Qed.

(** The characters of a path. *)
Fixpoint no_char (c : Ascii.ascii) (s : string) : bool :=
  match s with
  | EmptyString => true
  | String a s' => negb (bool_decide (a = c)) && no_char c s'
  end.
Definition dot : Ascii.ascii := Ascii.ascii_of_nat 46.

Lemma no_char_app c a b : no_char c (a +:+ b) = no_char c a && no_char c b.
Proof.
  induction a as [|x a IH]; [done|]. change (String x a +:+ b) with (String x (a +:+ b)).
  cbn [no_char]. by rewrite IH, andb_assoc.
Qed.

Lemma group_no_dot d : 0 ≤ d < 1000 → no_char dot (format_03 d) = true.
Proof.
  intros Hd. assert (forallb (λ d, no_char dot (format_03 d)) (zrange 0 1000) = true) as Hall by (by vm_compute).
  rewrite forallb_forall in Hall. apply Hall, list_elem_of_In, elem_of_zrange. lia.
Qed.

Lemma join_slash_cons p rest :
  rest ≠ [] → join_slash (p :: rest) = p +:+ String slash (join_slash rest).
Proof. by destruct rest. Qed.

Lemma join_no_dot ds :
  Forall (λ d, 0 ≤ d < 1000) ds → no_char dot (join_slash (mark_parts (map format_03 ds))) = true.
Proof.
  induction 1 as [|d ds Hd Hds IH]; [done|]. pose proof (group_no_dot d Hd) as Hg.
  destruct ds as [|d' ds]; [done|].
  change (mark_parts (map format_03 (d :: d' :: ds)))
    with (String char_x (format_03 d) :: mark_parts (map format_03 (d' :: ds))).
  rewrite join_slash_cons by (by destruct ds).
  rewrite no_char_app. cbn [no_char]. rewrite Hg, IH. done.
Qed.

Lemma format_tile_index_no_dot i : 0 ≤ i < 2 ^ 64 → no_char dot (format_tile_index i) = true.
Proof.
  intros Hi. unfold format_tile_index. destruct (Z.eqb_spec i 0); [done|].
  destruct (tile_parts_groups 7 i []) as (ds & Heq & Hd & _);
    [change (1000 ^ Z.of_nat 7) with (10 ^ 21); lia|done|].
  cbn [map] in Heq. rewrite Heq. by apply join_no_dot.
Qed.

(** The path of a tile leads back to its index: [parse_tile_index] of
    [format_tile_index] is the identity on every [u64]. *)
Theorem tile_index_roundtrip {DbErr} i :
  0 ≤ i < 2 ^ 64 → parse_tile_index (DbErr := DbErr) (format_tile_index i) = Ok i.
Proof. apply tile_index_round. Qed.

(** The index of a tile path is taken modulo 2^64: two different paths name
    the same tile. *)
Theorem tile_index_wraps :
  parse_tile_index (DbErr := unit) "x018/x446/x744/x073/x709/x551/617" = Ok 1 ∧
  parse_tile_index (DbErr := unit) "001" = Ok 1 ∧
  parse_tile_index (DbErr := unit) "+01" = Ok 1.
Proof. vm_compute. done. Qed.

(** ** Reading a page back *)

Fixpoint parse_hashes (n : nat) (b : bytes) : option (list bytes * bytes) :=
  match n with
  | O => Some ([], b)
  | S n' =>
      if (length b <? 32)%nat then None
      else '(hs, rest) ← parse_hashes n' (drop 32 b); mret (take 32 b :: hs, rest)
  end.

Definition parse_page_entry (b : bytes) : option (PageEntry * bytes) :=
  let n := Z.to_nat (from_be (take 4 b)) in
  let b1 := drop 4 b in
  let b2 := drop n b1 in
  '(hs, rest) ← parse_hashes (Z.to_nat (from_be (take 2 b2))) (drop 2 b2);
  mret ({| timestamped_entry := take n b1; issuer_hashes := hs |}, rest).

Fixpoint parse_page_entries (n : nat) (b : bytes) : option (list PageEntry) :=
  match n with
  | O => if bool_decide (b = []) then Some [] else None
  | S n' =>
      '(e, rest) ← parse_page_entry b;
      es ← parse_page_entries n' rest;
      mret (e :: es)
  end.

Definition parse_page (b : bytes) : option EntriesPage :=
  match b with
  | 0 :: b1 =>
      let count := from_be (take 8 b1) in
      es ← parse_page_entries (Z.to_nat count) (drop 16 b1);
      mret {| entry_count := count; first_entry_index := from_be (take 8 (drop 8 b1));
              entries := es |}
  | _ => None
  end.

(** A page filled with [add_entry]. *)
Definition page_of (first : Z) (es : list PageEntry) : EntriesPage :=
  fold_left (λ p e, page_add_entry p (timestamped_entry e) (issuer_hashes e)) es (page_new first).

Definition page_entry_ok (e : PageEntry) : Prop :=
  zlen (timestamped_entry e) < 2 ^ 32 ∧ zlen (issuer_hashes e) < 2 ^ 16 ∧
  Forall (λ h, length h = 32%nat) (issuer_hashes e).

Lemma parse_hashes_concat hs rest :
  Forall (λ h, length h = 32%nat) hs → parse_hashes (length hs) (concat hs ++ rest) = Some (hs, rest).
Proof.
  induction 1 as [|h hs Hh Hhs IH]; [done|]. cbn [length parse_hashes concat].
  rewrite <- app_assoc. rewrite (proj2 (Nat.ltb_ge _ _)) by (rewrite length_app; lia).
  rewrite take_app_length', drop_app_length' by done. by rewrite IH.
Qed.

Lemma parse_page_entry_ok e rest :
  page_entry_ok e → parse_page_entry (page_entry_bytes e ++ rest) = Some (e, rest).
Proof.
  intros (Ht & Hi & Hh). unfold page_entry_bytes, parse_page_entry, u32, u16.
  rewrite (Z.mod_small (zlen (timestamped_entry e))) by lia.
  rewrite (Z.mod_small (zlen (issuer_hashes e))) by lia. rewrite <- !app_assoc.
  rewrite take_app_length', drop_app_length' by (by rewrite length_be_bytes).
  rewrite from_be_be_bytes, Z.mod_small, Nat2Z.id by lia. cbv zeta.
  rewrite take_app_length, drop_app_length.
  rewrite take_app_length', drop_app_length' by (by rewrite length_be_bytes).
  rewrite from_be_2, Nat2Z.id, parse_hashes_concat by (done || lia). by destruct e.
Qed.

Lemma parse_page_entries_ok es :
  Forall page_entry_ok es → parse_page_entries (length es) (concat (map page_entry_bytes es)) = Some es.
Proof.
  induction 1 as [|e es He Hes IH]; [done|]. cbn [length parse_page_entries map concat].
  rewrite parse_page_entry_ok by done. cbn [mbind option_bind]. by rewrite IH.
Qed.

Lemma page_of_fold p es :
  fold_left (λ p e, page_add_entry p (timestamped_entry e) (issuer_hashes e)) es p =
    {| entry_count := match es with [] => entry_count p | _ => u64 (entry_count p + zlen es) end;
       first_entry_index := first_entry_index p; entries := entries p ++ es |}.
Proof.
  revert p. induction es as [|e es IH]; intros p; [by destruct p; rewrite app_nil_r|].
  cbn [fold_left]. rewrite IH. unfold page_add_entry. cbn [entry_count first_entry_index entries].
  rewrite <- app_assoc. destruct e; cbn. f_equal. destruct es as [|e' es]; [done|].
  unfold u64. rewrite Zplus_mod_idemp_l. f_equal. cbn [length]. lia.
Qed.

(** A page filled entry by entry and written with [to_binary] can be read
    back: the count is the number of entries and each entry is recovered. *)
Theorem page_roundtrip first es :
  0 ≤ first < 2 ^ 64 → zlen es < 2 ^ 64 → Forall page_entry_ok es →
  entry_count (page_of first es) = zlen es ∧ entries (page_of first es) = es ∧
  parse_page (page_to_binary (page_of first es)) = Some (page_of first es).
Proof.
  intros Hf Hn He. unfold page_of. rewrite page_of_fold. cbn [entry_count entries first_entry_index page_new app].
  assert ((match es with [] => 0 | _ => u64 (0 + zlen es) end) = zlen es) as Hc.
  { destruct es; [done|]. rewrite u64_small; lia. }
  rewrite Hc. split; [done|]. split; [done|]. unfold page_to_binary.
  cbn [entry_count first_entry_index entries app parse_page].
  rewrite take_app_length' by (by rewrite length_be_bytes). rewrite from_be_be_64 by lia.
  rewrite app_assoc, (drop_app_length' _ _ 16) by (by rewrite length_app, !length_be_bytes).
  rewrite Nat2Z.id, parse_page_entries_ok by done. cbn [mbind option_bind].
  rewrite <- app_assoc, drop_app_length', take_app_length' by (by rewrite length_be_bytes).
  by rewrite from_be_be_64.
Qed.
