(* ===== verification/MerkleStorage.v ===== *)
(** * The tree as the log uses it

    [StorageBackedMerkleTree] of src/src/merkle_storage.rs: the stored tree
    with the errors of the API, and the splitting of proofs into base64
    hashes. *)

From S2P Require Import Prelude TreeMath Rfc6962 Inclusion Consistency KvStore TreeStore TreeInv.
From S2P Require Import TreeReads TreePush TreeTiles TreeBatch Types.

(** ** Debug output *)

Definition dquote : Ascii.ascii := Ascii.ascii_of_nat 34.
Definition backslash : Ascii.ascii := Ascii.ascii_of_nat 92.

(** [{:?}] of a string: quotes, with the usual escapes. *)
Definition escape_char (a : Ascii.ascii) : string :=
  match Ascii.nat_of_ascii a with
  | 0%nat => String backslash "0"
  | 9%nat => String backslash "t"
  | 10%nat => String backslash "n"
  | 13%nat => String backslash "r"
  | 34%nat => String backslash (String dquote EmptyString)
  | 92%nat => String backslash (String backslash EmptyString)
  | _ => String a EmptyString
  end.
Fixpoint escape (s : string) : string :=
  match s with
  | EmptyString => EmptyString
  | String a s' => escape_char a +:+ escape s'
  end.
Definition debug_str (s : string) : string :=
  String dquote (escape s +:+ String dquote EmptyString).

(** [{:?}] of the errors of the database. *)
Class DebugDb `{SlateDb} := debug_db : SlateDBError → string.

(** [impl AsRef<[u8]> for Certificate] and its serialization as a byte
    vector. *)
Record Certificate := { data : bytes }.
#[global] Instance Certificate_leaf : HashableLeaf Certificate := data.
#[global] Instance Certificate_eq_dec : EqDecision Certificate.
Proof. solve_decision. Defined.
#[global] Instance Certificate_Postcard `{Postcard bytes} : Postcard Certificate :=
  {| to_stdvec c := to_stdvec (data c);
     from_bytes b := d ← from_bytes b; mret {| data := d |} |}.

#[global] Instance Certificate_PostcardLaws `{PostcardLaws bytes} : PostcardLaws Certificate.
Proof.
  split.
  - intros [d] b Hb. cbn in *. by rewrite (postcard_round d b Hb).
  - intros [d]. apply (postcard_total d).
  - intros b. cbn. pose proof (postcard_parse b). by destruct (from_bytes b).
Qed.

Section Storage.
  Context `{SlateDb} `{!DebugDb} `{!Cache (Z * Z) bytes} `{!Cache (Z * Z) bool}.
  Context `{Digest} `{!Postcard bytes}.
  Abbreviation M := (stM SlateDbBackedTree (CtError SlateDBError)).

Definition debug_tree_error (e : SlateDbTreeError) : string :=
  match e with
  | DbError d => "DbError(" +:+ debug_db d +:+ ")"
  | EncodingError s => "EncodingError(" +:+ debug_str s +:+ ")"
  | InconsistentState s => "InconsistentState(" +:+ debug_str s +:+ ")"
  end.

(** The conversion of the errors of the tree that most methods use. *)
Definition tree_err (what : string) (e : SlateDbTreeError) : CtError SlateDBError :=
  Storage (InvalidFormat (what +:+ ": " +:+ debug_tree_error e)).

Definition ms_new (db : RateLimitedDb) : res (CtError SlateDBError) SlateDbBackedTree :=
  map_err (tree_err "Failed to create SlateDbBackedTree") (new db).

Definition size : M Z := st_map_err (tree_err "Failed to get tree size") len.

Definition committed_size : M Z :=
  st_map_err (tree_err "Failed to get committed tree size") get_committed_size.

Definition ms_get_tile (level index : Z) : M (option bytes) :=
  st_map_err (tree_err "Failed to get tile") (get_tile level index).

(** The size is read again, for a metric; a failure of that read is ignored. *)
Definition ms_batch_push_with_data (cert_data_vec : list bytes)
    (additional_data : list (bytes * bytes)) : M Z :=
  let certificates := map Build_Certificate cert_data_vec in
  result ← st_map_err (tree_err "Failed to batch push with data")
             (batch_push_with_data certificates additional_data);
  attempt size;; mret result.

Definition committed_root : M RootHash :=
  committed_size ← committed_size;
  st_map_err (tree_err "Failed to get root at committed size") (root_at_size committed_size).

(** The [map_err] closures of the two proof methods. *)
Definition inclusion_err (tree_size : Z) (e : SlateDbTreeError) : CtError SlateDBError :=
  let error_str := debug_tree_error e in
  if str_contains "not a published STH boundary" error_str
  then BadRequest ("Tree size " +:+ pretty tree_size +:+ " is not a published STH boundary")
  else Storage (InvalidFormat ("Failed to prove inclusion: " +:+ debug_tree_error e)).
Definition consistency_err (e : SlateDbTreeError) : CtError SlateDBError :=
  let error_str := debug_tree_error e in
  if str_contains "not a published STH boundary" error_str then BadRequest error_str
  else Storage (InvalidFormat ("Failed to prove consistency: " +:+ debug_tree_error e)).

Definition prove_inclusion_efficient (tree_size leaf_index : Z) : M InclusionProof :=
  if tree_size <=? leaf_index then
    fail (BadRequest "Leaf index out of bounds for requested tree size")
  else
    current_tree_size ← size;
    if current_tree_size <? tree_size then
      fail (BadRequest ("Requested tree size " +:+ pretty tree_size +:+
                        " exceeds current tree size " +:+ pretty current_tree_size))
    else
      st_map_err (inclusion_err tree_size) (prove_inclusion_at_size leaf_index tree_size).

Definition consistency_proof_between_sizes (old_tree_size new_tree_size : Z) : M ConsistencyProof :=
  if new_tree_size <? old_tree_size then
    fail (BadRequest "Old tree size cannot be larger than new tree size")
  else if old_tree_size =? new_tree_size then mret (consistency_from_digests [])
  else if old_tree_size =? 0 then
    fail (BadRequest "Cannot produce consistency proof starting from empty tree")
  else
    current_tree_size ← size;
    if current_tree_size <? old_tree_size then
      fail (BadRequest ("Old tree size " +:+ pretty old_tree_size +:+
                        " exceeds current tree size " +:+ pretty current_tree_size))
    else if current_tree_size <? new_tree_size then
      fail (BadRequest ("New tree size " +:+ pretty new_tree_size +:+
                        " exceeds current tree size " +:+ pretty current_tree_size))
    else
      st_map_err consistency_err (prove_consistency_between old_tree_size new_tree_size).

Definition ms_check_keys_exist (keys : list bytes) : M (list bool) :=
  st_map_err (tree_err "Failed to check keys") (check_keys_exist keys).

Definition ms_get_node_hash_at_version (node_index version : Z) : M bytes :=
  st_map_err (tree_err "Failed to get node hash at version")
    (get_node_hash_at_version node_index version).

(** ** Proofs as lists of base64 hashes *)

Definition HASH_SIZE : nat := 32.

Definition inclusion_proof_to_audit_path `{Base64} (p : InclusionProof) : list string :=
  map b64_encode (chunks HASH_SIZE (proof p)).

Definition consistency_proof_to_path `{Base64} (p : ConsistencyProof) : list string :=
  map b64_encode (chunks HASH_SIZE (cproof p)).

End Storage.

(** ** Strings *)

Lemma append_assoc (a b c : string) : (a +:+ b) +:+ c = a +:+ (b +:+ c).
Proof.
  induction a as [|x a IH]; [done|].
  change (String x ((a +:+ b) +:+ c) = String x (a +:+ (b +:+ c))). by rewrite IH.
Qed.

Lemma str_prefix_app p s : str_prefix p (p +:+ s) = true.
Proof.
  induction p as [|a p IH]; [by destruct s|].
  change (String a p +:+ s) with (String a (p +:+ s)). cbn [str_prefix].
  by rewrite bool_decide_eq_true_2.
Qed.

Lemma str_contains_mid p a b : str_contains p (a +:+ p +:+ b) = true.
Proof.
  induction a as [|x a IH].
  - change ("" +:+ p +:+ b) with (p +:+ b). destruct (p +:+ b) eqn:E; cbn [str_contains];
      rewrite <- E, str_prefix_app; done.
  - change ((String x a) +:+ p +:+ b) with (String x (a +:+ p +:+ b)). cbn [str_contains].
    rewrite IH. apply orb_true_r.
Qed.

Lemma escape_app a b : escape (a +:+ b) = escape a +:+ escape b.
Proof.
  induction a as [|x a IH]; [done|].
  change (String x a +:+ b) with (String x (a +:+ b)). cbn [escape]. by rewrite IH, append_assoc.
Qed.

(** ** Properties *)

Section Correct.
  Context `{SlateDb} `{!DebugDb} `{!Cache (Z * Z) bytes} `{!Cache (Z * Z) bool}.
  Context `{!SlateDbLaws} `{!CacheLaws (Z * Z) bytes} `{!CacheLaws (Z * Z) bool}.
  Context `{Digest} `{!Postcard bytes} `{!PostcardLaws bytes}.
  Implicit Types (D : list Certificate) (B : gset Z).

(** The refusal of a size that is not a boundary is recognized. *)
Lemma contains_debug p a :
  escape p = p → str_contains p (debug_tree_error (InconsistentState (a +:+ p))) = true.
Proof.
  intros Hp. unfold debug_tree_error, debug_str. rewrite escape_app, Hp.
  set (q := String dquote EmptyString).
  change (String dquote ((escape a +:+ p) +:+ q)) with (q +:+ (escape a +:+ p) +:+ q).
  etrans; [|apply (str_contains_mid p ("InconsistentState(" +:+ q +:+ escape a) (q +:+ ")"))].
  by rewrite !append_assoc.
Qed.

Lemma not_boundary_contains what v :
  str_contains "not a published STH boundary" (debug_tree_error (not_boundary what v)) = true.
Proof.
  unfold not_boundary.
  change " is not a published STH boundary" with (" is " +:+ "not a published STH boundary").
  rewrite <- !append_assoc. by apply contains_debug.
Qed.

Lemma size_spec s D B :
  inv s D B →
  spec size s (λ r s', r = zlen D ∧ inv s' D B ∧ view s' = view s)
    (λ e s', inv s' D B ∧ view s' = view s ∧ ∃ d, e = tree_err "Failed to get tree size" (DbError d)).
Proof.
  intros Hi. apply spec_map_err. eapply spec_mono; [eapply len_spec; [apply Hi|by apply inv_keeps]|..].
  - intros r s' [-> Hk]. split; [done|]. split; [by eapply keeps_inv|apply Hk].
  - intros e s' [[d ->] Hk]. split; [by eapply keeps_inv|]. split; [apply Hk|by eexists].
Qed.

(** What a proof request can be answered with when it is not a proof: the
    refusals of the code, or a failure of the database. *)
Definition proof_error s D B (conv : SlateDbTreeError → CtError SlateDBError)
    (refusal : CtError SlateDBError → Prop) (e : CtError SlateDBError)
    (s' : SlateDbBackedTree) : Prop :=
  inv s' D B ∧ view s' = view s ∧
  (refusal e ∨ ∃ d, e = tree_err "Failed to get tree size" (DbError d) ∨ e = conv (DbError d)).

Lemma prove_inclusion_efficient_spec D B s v idx :
  inv s D B → is_u64 idx → is_u64 v →
  spec (prove_inclusion_efficient v idx) s
    (λ pf s', inv s' D B ∧ view s' = view s ∧ v ∈ B ∧ idx < v ∧
       pf = from_digests (path idx (zslice 0 v D)))
    (proof_error s D B (inclusion_err v) (λ e,
       (v ≤ idx ∧ e = BadRequest "Leaf index out of bounds for requested tree size") ∨
       (zlen D < v ∧ e = BadRequest ("Requested tree size " +:+ pretty v +:+
                           " exceeds current tree size " +:+ pretty (zlen D))) ∨
       ((v ∉ B) ∧ e = BadRequest ("Tree size " +:+ pretty v +:+
                           " is not a published STH boundary")))).
Proof.
  intros Hi Hidx Hv. unfold prove_inclusion_efficient.
  destruct (Z.leb_spec v idx).
  { apply spec_fail. split; [done|]. split; [done|]. auto. }
  apply spec_bind. eapply spec_mono; [by eapply size_spec|..].
  2: { intros e s' (Hi' & Hv' & d & ->). split; [done|]. split; [done|]. right. exists d. auto. }
  intros r s1 (-> & Hi1 & Hv1). destruct (Z.ltb_spec (zlen D) v).
  { apply spec_fail. split; [done|]. split; [done|]. auto. }
  apply spec_map_err. eapply spec_mono; [by apply (prove_inclusion_at_size_spec D B)|..].
  - intros pf s2 (Hi2 & Hv2 & HB & Hlt & -> & _). rewrite Hv2. auto.
  - intros e s2 (Hi2 & Hv2 & He). split; [done|]. split; [congruence|].
    destruct He as [[d ->]|[[? _]|[[? _]|[HB ->]]]]; [|lia|lia|].
    + right. by exists d; right.
    + left. unfold inclusion_err. rewrite not_boundary_contains. auto.
Qed.

(** [prove_inclusion_efficient] gives, for a boundary and a leaf below it,
    the audit path of RFC 6962; an index or a size out of range and a size that
    is not a boundary are bad requests with the messages of the code. *)
Theorem prove_inclusion_efficient_correct D B s v idx :
  inv s D B → is_u64 idx → is_u64 v →
  spec (prove_inclusion_efficient v idx) s
    (λ pf s', inv s' D B ∧ view s' = view s ∧ v ∈ B ∧ idx < v ∧
       pf = from_digests (path idx (zslice 0 v D)))
    (proof_error s D B (inclusion_err v) (λ e,
       (v ≤ idx ∧ e = BadRequest "Leaf index out of bounds for requested tree size") ∨
       (zlen D < v ∧ e = BadRequest ("Requested tree size " +:+ pretty v +:+
                           " exceeds current tree size " +:+ pretty (zlen D))) ∨
       ((v ∉ B) ∧ e = BadRequest ("Tree size " +:+ pretty v +:+
                           " is not a published STH boundary")))).
Proof. apply prove_inclusion_efficient_spec. Qed.

Lemma consistency_proof_between_sizes_spec D B s v w :
  inv s D B → is_u64 v → is_u64 w →
  spec (consistency_proof_between_sizes v w) s
    (λ pf s', inv s' D B ∧ view s' = view s ∧ (v = w ∨ (v ∈ B ∧ w ∈ B ∧ 0 < v < w)) ∧
       (0 < v → w ≤ zlen D →
         cverify pf (RootHash_new (mth (zslice 0 v D)) v) (RootHash_new (mth (zslice 0 w D)) w) = Ok tt))
    (proof_error s D B consistency_err (λ e,
       (w < v ∧ e = BadRequest "Old tree size cannot be larger than new tree size") ∨
       (v = 0 ∧ e = BadRequest "Cannot produce consistency proof starting from empty tree") ∨
       (zlen D < v ∧ e = BadRequest ("Old tree size " +:+ pretty v +:+
                           " exceeds current tree size " +:+ pretty (zlen D))) ∨
       (zlen D < w ∧ e = BadRequest ("New tree size " +:+ pretty w +:+
                           " exceeds current tree size " +:+ pretty (zlen D))) ∨
       ((v ∉ B) ∧ e = BadRequest (debug_tree_error (not_boundary "Old tree size " v))) ∨
       ((w ∉ B) ∧ e = BadRequest (debug_tree_error (not_boundary "New tree size " w))))).
Proof.
  intros Hi Hv Hw. unfold consistency_proof_between_sizes.
  pose proof (ti_size _ _ _ (proj1 Hi)) as Hsz.
  destruct (Z.ltb_spec w v).
  { apply spec_fail. split; [done|]. split; [done|]. auto. }
  destruct (Z.eqb_spec v w) as [<-|].
  { apply spec_ret. split; [done|]. split; [done|]. split; [by left|]. intros Hv0 Hle.
    rewrite <- (rfc_proof_same D v) by lia. apply cverify_proof; [unfold size_ok; lia|lia|lia]. }
  destruct (Z.eqb_spec v 0).
  { apply spec_fail. split; [done|]. split; [done|]. auto. }
  apply spec_bind. eapply spec_mono; [by eapply size_spec|..].
  2: { intros e s' (Hi' & Hv' & d & ->). split; [done|]. split; [done|]. right. exists d. auto. }
  intros r s1 (-> & Hi1 & Hv1). destruct (Z.ltb_spec (zlen D) v).
  { apply spec_fail. split; [done|]. split; [done|]. auto 10. }
  destruct (Z.ltb_spec (zlen D) w).
  { apply spec_fail. split; [done|]. split; [done|]. auto 10. }
  unfold is_u64 in *.
  apply spec_map_err. eapply spec_mono; [by apply (prove_consistency_between_spec D B)|..].
  - intros pf s2 (Hi2 & Hv2 & Hlt & HB & Hver). rewrite Hv2.
    split; [done|]. split; [done|]. split; [|auto]. destruct HB as [?|[? ?]]; [by left|right].
    split_and!; [done|done|lia|lia].
  - intros e s2 (Hi2 & Hv2 & He). split; [done|]. split; [congruence|].
    destruct He as [[d ->]|[[? _]|[[? _]|[[? _]|[[HB ->]|[HB ->]]]]]]; [|lia|lia|lia|..].
    + right. by exists d; right.
    + left. unfold consistency_err. rewrite not_boundary_contains. auto 10.
    + left. unfold consistency_err. rewrite not_boundary_contains. auto 10.
Qed.

(** [consistency_proof_between_sizes] gives, for two boundaries, a proof
    that verifies against the roots at the two sizes; sizes out of order, a
    first size of 0, sizes beyond the tree and sizes that are not boundaries
    are bad requests. *)
Theorem consistency_proof_between_sizes_correct D B s v w :
  inv s D B → is_u64 v → is_u64 w →
  spec (consistency_proof_between_sizes v w) s
    (λ pf s', inv s' D B ∧ view s' = view s ∧ (v = w ∨ (v ∈ B ∧ w ∈ B ∧ 0 < v < w)) ∧
       (0 < v → w ≤ zlen D →
         cverify pf (RootHash_new (mth (zslice 0 v D)) v) (RootHash_new (mth (zslice 0 w D)) w) = Ok tt))
    (proof_error s D B consistency_err (λ e,
       (w < v ∧ e = BadRequest "Old tree size cannot be larger than new tree size") ∨
       (v = 0 ∧ e = BadRequest "Cannot produce consistency proof starting from empty tree") ∨
       (zlen D < v ∧ e = BadRequest ("Old tree size " +:+ pretty v +:+
                           " exceeds current tree size " +:+ pretty (zlen D))) ∨
       (zlen D < w ∧ e = BadRequest ("New tree size " +:+ pretty w +:+
                           " exceeds current tree size " +:+ pretty (zlen D))) ∨
       ((v ∉ B) ∧ e = BadRequest (debug_tree_error (not_boundary "Old tree size " v))) ∨
       ((w ∉ B) ∧ e = BadRequest (debug_tree_error (not_boundary "New tree size " w))))).
Proof. apply consistency_proof_between_sizes_spec. Qed.

End Correct.
