(* ===== verification/CtStorage.v ===== *)
(** * The storage of the log

    [CtStorage] of src/src/storage/mod.rs: the records kept beside the tree
    (entries, the index by leaf hash, SCTs by certificate, the certificate
    store), the flush of a batch and the reads.  The tree and the storage
    share one database, which is the one in the state of the tree. *)

From S2P Require Import Prelude TreeMath Rfc6962 Inclusion Consistency KvStore TreeStore Types.
From S2P Require Import MerkleStorage.

(** ** Parameters *)

(** The unspecified iteration order of [HashSet] and [HashMap]. *)
Class HashOrder := {
  set_iter : gset bytes → list bytes;
  map_iter : gmap bytes bytes → list (bytes * bytes);
}.
Class HashOrderLaws `{HashOrder} := {
  set_iter_law X : set_iter X ≡ₚ elements X;
  map_iter_law m : map_iter m ≡ₚ map_to_list m;
}.

(** [TbsExtractor::extract_tbs_certificate], as the storage sees it: the
    error is displayed in a message. *)
Class TbsExtractor := extract_tbs_certificate : bytes → list bytes → res string bytes.

(** ** Keys *)

Definition ENTRY : bytes := str_bytes "entry:".
Definition HASH_INDEX : bytes := str_bytes "hash:".
Definition CERT_SCT : bytes := str_bytes "cert_sct:".
Definition CERT : bytes := str_bytes "cert:".

Definition entry_key (index : Z) : bytes := ENTRY ++ be_bytes 8 index.
Definition hash_key (hash : bytes) : bytes := HASH_INDEX ++ hash.
Definition cert_sct_key (cert_hash : bytes) : bytes := CERT_SCT ++ cert_hash.
Definition cert_key (hash : bytes) : bytes := CERT ++ hash.

(** ** Data *)

(** The callback that signs, given the index; it can panic.  The channel on
    which the caller waits is the position of the entry in the batch. *)
Record BatchEntry := {
  log_entry : LogEntry;
  cert_hash : bytes;
  sct_callback : Z → res Empty_set SignedCertificateTimestamp;
}.

Record CertificateSctEntry := {
  se_index : Z;
  se_sct : SignedCertificateTimestamp;
  se_timestamp : Z;
}.

Record BatchStats := {
  batches_flushed : Z;
  total_entries : Z;
  total_flush_time_ms : Z;
  min_batch_size : Z;
  max_batch_size_seen : Z;
  total_certs_checked : Z;
  total_certs_deduplicated : Z;
  total_bytes_saved : Z;
  total_dedup_check_time_ms : Z;
}.
Definition BatchStats_default : BatchStats :=
  {| batches_flushed := 0; total_entries := 0; total_flush_time_ms := 0; min_batch_size := 0;
     max_batch_size_seen := 0; total_certs_checked := 0; total_certs_deduplicated := 0;
     total_bytes_saved := 0; total_dedup_check_time_ms := 0 |}.

Record BatchConfig := { max_batch_size : Z; max_batch_timeout_ms : Z }.
Definition BatchConfig_default : BatchConfig :=
  {| max_batch_size := 2000; max_batch_timeout_ms := 50 |}.

(** What the blocking task makes of an entry it can serialize. *)
Record Processed := {
  p_leaf_data : bytes;
  p_entry_data : bytes;
  p_cert_hash : bytes;
  p_sct : SignedCertificateTimestamp;
  p_log_entry : LogEntry;
}.

(** What the caller of [add_entry_batched] finds on its channel: a result, or
    nothing when the sender was dropped. *)
Abbreviation answer DbErr := (option (StorageError DbErr + Z * SignedCertificateTimestamp)).

(** [impl Clone for StorageError]. *)
Definition clone_error {DbErr} (e : StorageError DbErr) : StorageError DbErr :=
  match e with
  | SlateDbErr _ => InvalidFormat "SlateDB error during batch processing"
  | InvalidFormat s => InvalidFormat s
  | QueueFull => QueueFull
  end.

(** A [Result] kept as a value. *)
Definition catch {E E' A} (r : res E A) : res E' (E + A) :=
  match r with
  | Ok a => Ok (inr a)
  | Err e => Ok (inl e)
  | Panic => Panic
  | Fuel => Fuel
  end.

Section Flush.
  Context `{SlateDb} `{!DebugDb} `{!Cache (Z * Z) bytes} `{!Cache (Z * Z) bool}.
  Context `{Digest} `{!Postcard bytes} `{!Postcard DeduplicatedLogEntry}.
  Context `{!Postcard CertificateSctEntry} `{HashOrder}.
  Abbreviation SErr := (StorageError SlateDBError).

(** ** The blocking task *)

(** A result that cannot be an error. *)
Definition never {E A} (r : res Empty_set A) : res E A :=
  map_err (λ e : Empty_set, match e with end) r.

(** The closure run for the entry at position [i] of the batch. *)
Definition process_entry (starting_index : Z) (i : nat) (entry : BatchEntry) :
    res SErr Processed :=
  let assigned_index := starting_index +! Z.of_nat i in
  let le := log_entry entry in
  sct ← never (sct_callback entry assigned_index);
  leaf_data_with_index ←
    compute_leaf_data_with_index (certificate le) (entry_type le) (issuer_key_hash le)
      (timestamp le) assigned_index;
  let le' := {| index := assigned_index; timestamp := timestamp le; entry_type := entry_type le;
                certificate := certificate le; chain := chain le;
                issuer_key_hash := issuer_key_hash le; original_precert := original_precert le;
                leaf_data := leaf_data_with_index |} in
  dedup_entry ← from_log_entry le';
  entry_data ← map_err InvalidFormat (to_stdvec dedup_entry);
  mret {| p_leaf_data := leaf_data_with_index; p_entry_data := entry_data;
          p_cert_hash := cert_hash entry; p_sct := sct; p_log_entry := le' |}.

(** The results in order of position; a panic of one is a panic of all. *)
Fixpoint process_entries (starting_index : Z) (i : nat) (entries : list BatchEntry) :
    res Empty_set (list (SErr + Processed)) :=
  match entries with
  | [] => Ok []
  | entry :: rest =>
      r ← catch (process_entry starting_index i entry);
      rs ← process_entries starting_index (S i) rest;
      mret (r :: rs)
  end.

(** The successful entries, the failed ones with their positions, and for each
    entry the SCT to send. *)
Record Separated := {
  leaf_data_vec : list bytes;
  entry_metadata : list Processed;
  completion_info : list (option SignedCertificateTimestamp);
  failed_entries : list (nat * SErr);
}.
Fixpoint separate (i : nat) (results : list (SErr + Processed)) : Separated :=
  match results with
  | [] => {| leaf_data_vec := []; entry_metadata := []; completion_info := [];
             failed_entries := [] |}
  | inr p :: rest =>
      let s := separate (S i) rest in
      {| leaf_data_vec := p_leaf_data p :: leaf_data_vec s;
         entry_metadata := p :: entry_metadata s;
         completion_info := Some (p_sct p) :: completion_info s;
         failed_entries := failed_entries s |}
  | inl error :: rest =>
      let s := separate (S i) rest in
      {| leaf_data_vec := leaf_data_vec s; entry_metadata := entry_metadata s;
         completion_info := None :: completion_info s;
         failed_entries := (i, clone_error error) :: failed_entries s |}
  end.

(** When the task panics its result is lost, with all the channels. *)
Definition process_batch (starting_index : Z) (entries : list BatchEntry) : Separated :=
  match process_entries starting_index 0 entries with
  | Ok results => separate 0 results
  | _ => {| leaf_data_vec := []; entry_metadata := []; completion_info := [];
            failed_entries := [] |}
  end.

(** ** Certificates of a batch *)

(** The certificates that an entry stores, in the order they are visited. *)
Definition entry_certs (e : LogEntry) : list bytes :=
  (if bool_decide (entry_type e = PrecertEntry) then [] else [certificate e])
  ++ match chain e with Some chain => chain | None => [] end
  ++ match original_precert e with Some precert => [precert] | None => [] end.

(** [cert_hashes_to_check] and [cert_data_map]. *)
Definition collect_cert (acc : gset bytes * gmap bytes bytes) (cert : bytes) :
    gset bytes * gmap bytes bytes :=
  let cert_hash := hash_certificate cert in
  if bool_decide (cert_hash ∈ acc.1) then acc
  else ({[ cert_hash ]} ∪ acc.1, <[cert_hash := cert]> acc.2).
Definition collect_certs (metadata : list Processed) : gset bytes * gmap bytes bytes :=
  fold_left (λ acc p, fold_left collect_cert (entry_certs (p_log_entry p)) acc) metadata (∅, ∅).

Definition total_certs_in_batch (metadata : list Processed) : Z :=
  zlen (concat (map (λ p, entry_certs (p_log_entry p)) metadata)).

(** [existing_certs]; a failed check counts every certificate as missing. *)
Definition existing_certs (hashes : gset bytes) :
    stM SlateDbBackedTree Empty_set (gset bytes) :=
  let keys_to_check := map cert_key (set_iter hashes) in
  r ← attempt (ms_check_keys_exist keys_to_check);
  let existence_results :=
    match r with inr results => results | inl _ => replicate (length keys_to_check) false end in
  mret (list_to_set (omap (λ '(hash, exists_), if (exists_ : bool) then Some hash else None)
                       (zip (set_iter hashes) existence_results))).

(** The certificates skipped and the bytes they save. *)
Definition count_skipped (existing : gset bytes) (metadata : list Processed) : Z * Z :=
  fold_left (λ acc cert,
               if bool_decide (hash_certificate cert ∈ existing)
               then (acc.1 +! 1, acc.2 +! zlen cert) else acc)
    (concat (map (λ p, entry_certs (p_log_entry p)) metadata)) (0, 0).

(** ** The data written with the leaves *)

Definition sct_entry (index : Z) (sct : SignedCertificateTimestamp) : CertificateSctEntry :=
  {| se_index := index; se_sct := sct; se_timestamp := sct_timestamp sct |}.

(** The iteration for position [vec_idx]; an SCT that cannot be serialized
    skips the records of the entry. *)
Definition entry_records (starting_index : Z) (leaves : list bytes) (vec_idx : nat)
    (p : Processed) : res Empty_set (list (bytes * bytes)) :=
  let index := starting_index +! Z.of_nat vec_idx in
  leaf ← expect (leaves !! vec_idx);
  let computed_leaf_hash := digest ([0] ++ leaf) in
  sct_data ← catch (to_stdvec (sct_entry index (p_sct p)));
  mret (match sct_data with
        | inr sct_data =>
            [(entry_key index, p_entry_data p);
             (hash_key computed_leaf_hash, be_bytes 8 index);
             (cert_sct_key (p_cert_hash p), sct_data)]
        | inl _ => []
        end).

Fixpoint batch_records (starting_index : Z) (leaves : list bytes) (vec_idx : nat)
    (metadata : list Processed) : res Empty_set (list (bytes * bytes)) :=
  match metadata with
  | [] => Ok []
  | p :: rest =>
      r ← entry_records starting_index leaves vec_idx p;
      rs ← batch_records starting_index leaves (S vec_idx) rest;
      mret (r ++ rs)
  end.

Definition new_certs (existing : gset bytes) (cert_data_map : gmap bytes bytes) :
    list (bytes * bytes) :=
  omap (λ '(hash, cert_data), if bool_decide (hash ∈ existing) then None
                              else Some (cert_key hash, cert_data))
    (map_iter cert_data_map).

(** ** Answers and statistics *)

Definition debug_storage_error (e : SErr) : string :=
  match e with
  | SlateDbErr d => "SlateDb(" +:+ debug_db d +:+ ")"
  | InvalidFormat s => "InvalidFormat(" +:+ debug_str s +:+ ")"
  | QueueFull => "QueueFull"
  end.
Definition debug_ct_error (e : CtError SlateDBError) : string :=
  match e with
  | InvalidCertificate s => "InvalidCertificate(" +:+ debug_str s +:+ ")"
  | Storage e => "Storage(" +:+ debug_storage_error e +:+ ")"
  | BadRequest s => "BadRequest(" +:+ debug_str s +:+ ")"
  | Internal s => "Internal(" +:+ debug_str s +:+ ")"
  end.

Definition find_failed (i : nat) (failed : list (nat * SErr)) : option SErr :=
  snd <$> List.find (λ f, bool_decide (f.1 = i)) failed.

(** The notification loop after a successful push. *)
Fixpoint notify_ok (starting_index valid_idx : Z) (i : nat) (failed : list (nat * SErr))
    (infos : list (option SignedCertificateTimestamp)) : list (answer SlateDBError) :=
  match infos with
  | [] => []
  | sct_opt :: rest =>
      match find_failed i failed with
      | Some error =>
          Some (inl (clone_error error)) :: notify_ok starting_index valid_idx (S i) failed rest
      | None =>
          match sct_opt with
          | Some sct =>
              Some (inr (starting_index +! valid_idx, sct))
                :: notify_ok starting_index (valid_idx +! 1) (S i) failed rest
          | None =>
              Some (inl (InvalidFormat "Unexpected error"))
                :: notify_ok starting_index valid_idx (S i) failed rest
          end
      end
  end.

(** The notification loop after a failed push. *)
Definition notify_err (e : SErr) (failed : list (nat * SErr))
    (infos : list (option SignedCertificateTimestamp)) : list (answer SlateDBError) :=
  imap (λ i _, Some (inl (match find_failed i failed with
                          | Some error => clone_error error
                          | None => clone_error e
                          end))) infos.

(** The channels of the entries that nobody notified are dropped. *)
Definition fill_dropped (n : nat) (l : list (answer SlateDBError)) : list (answer SlateDBError) :=
  l ++ replicate (n - length l) None.

Definition record_stats (batch_size flush_time_ms certs skipped bytes_saved dedup_ms : Z)
    (stats : BatchStats) : BatchStats :=
  let some_certs := 0 <? certs in
  {| batches_flushed := batches_flushed stats +! 1;
     total_entries := total_entries stats +! batch_size;
     total_flush_time_ms := total_flush_time_ms stats +! flush_time_ms;
     min_batch_size := if (min_batch_size stats =? 0) || (batch_size <? min_batch_size stats)
                       then batch_size else min_batch_size stats;
     max_batch_size_seen := if max_batch_size_seen stats <? batch_size then batch_size
                            else max_batch_size_seen stats;
     total_certs_checked := if some_certs then total_certs_checked stats +! certs
                            else total_certs_checked stats;
     total_certs_deduplicated := if some_certs then total_certs_deduplicated stats +! skipped
                                 else total_certs_deduplicated stats;
     total_bytes_saved := if some_certs then total_bytes_saved stats +! bytes_saved
                          else total_bytes_saved stats;
     total_dedup_check_time_ms := if some_certs then total_dedup_check_time_ms stats +! dedup_ms
                                  else total_dedup_check_time_ms stats |}.

(** ** [flush_batch] *)

(** The push of the separated entries, with the counters of the
    deduplication. *)
Definition push_batch (starting_index : Z) (sep : Separated) :
    stM SlateDbBackedTree Empty_set ((SErr + Z) * (Z * Z * Z)) :=
  match leaf_data_vec sep with
  | [] => mret (inl (InvalidFormat "No valid entries to flush"), (0, 0, 0))
  | _ =>
      let '(hashes, cert_data_map) := collect_certs (entry_metadata sep) in
      existing ← existing_certs hashes;
      let '(skipped, saved) := count_skipped existing (entry_metadata sep) in
      records ← lift (batch_records starting_index (leaf_data_vec sep) 0 (entry_metadata sep));
      let additional_data := records ++ new_certs existing cert_data_map in
      r ← attempt (ms_batch_push_with_data (leaf_data_vec sep) additional_data);
      mret (match r with
            | inr actual_starting_index => inr actual_starting_index
            | inl e => inl (InvalidFormat ("Merkle tree error: " +:+ debug_ct_error e))
            end, (total_certs_in_batch (entry_metadata sep), skipped, saved))
  end.

(** The answers, in the order of the entries, and the statistics; [flush_ms]
    and [dedup_ms] are the times measured. *)
Definition flush_batch (flush_ms dedup_ms : Z) (stats : BatchStats) (entries : list BatchEntry) :
    stM SlateDbBackedTree Empty_set (list (answer SlateDBError) * BatchStats) :=
  match entries with
  | [] => mret ([], stats)
  | _ =>
      let batch_size := zlen entries in
      r ← attempt size;
      match r with
      | inl e =>
          mret (map (λ _, Some (inl (InvalidFormat ("Failed to get tree size: " +:+
                                                    debug_ct_error e)))) entries, stats)
      | inr starting_index =>
          let sep := process_batch starting_index entries in
          '(push_result, (certs, skipped, saved)) ← push_batch starting_index sep;
          let answers :=
            match push_result with
            | inr _ => notify_ok starting_index 0 0 (failed_entries sep) (completion_info sep)
            | inl e => notify_err e (failed_entries sep) (completion_info sep)
            end in
          mret (fill_dropped (length entries) answers,
                record_stats batch_size flush_ms certs skipped saved dedup_ms stats)
      end
  end.

End Flush.

(** ** Reads *)

Record CtStorage `{SlateDb} `{!Cache (Z * Z) bytes} `{!Cache (Z * Z) bool}
    `{!Cache bytes bytes} `{!Cache Z LogEntry} := {
  ct_tree : SlateDbBackedTree;
  chain_cache : cache bytes bytes;
  entry_cache : cache Z LogEntry;
}.

Section Reads.
  Context `{SlateDb} `{!Cache (Z * Z) bytes} `{!Cache (Z * Z) bool}.
  Context `{!Cache bytes bytes} `{!Cache Z LogEntry}.
  Context `{!Postcard DeduplicatedLogEntry} `{!Postcard CertificateSctEntry} `{TbsExtractor}.
  Abbreviation SErr := (StorageError SlateDBError).
  Abbreviation M := (stM CtStorage SErr).

(** [self.db] is the database of the tree. *)
Definition ct_get (key : bytes) : M (option bytes) := λ s,
  let (r, d) := rl_get key (tree_db (ct_tree s)) in
  (map_err SlateDbErr r,
   {| ct_tree := with_db d (ct_tree s); chain_cache := chain_cache s;
      entry_cache := entry_cache s |}).

Definition chain_cache_get (k : bytes) : M (option bytes) := λ s,
  let (r, c) := cache_get k (chain_cache s) in
  (Ok r, {| ct_tree := ct_tree s; chain_cache := c; entry_cache := entry_cache s |}).
Definition chain_cache_insert (k v : bytes) : M unit :=
  modify (λ s, {| ct_tree := ct_tree s; chain_cache := cache_insert k v (chain_cache s);
                  entry_cache := entry_cache s |}).
Definition entry_cache_get (k : Z) : M (option LogEntry) := λ s,
  let (r, c) := cache_get k (entry_cache s) in
  (Ok r, {| ct_tree := ct_tree s; chain_cache := chain_cache s; entry_cache := c |}).
Definition entry_cache_insert (k : Z) (v : LogEntry) : M unit :=
  modify (λ s, {| ct_tree := ct_tree s; chain_cache := chain_cache s;
                  entry_cache := cache_insert k v (entry_cache s) |}).

Definition find_index_by_hash (hash : bytes) : M (option Z) :=
  v ← ct_get (hash_key hash);
  match v with
  | Some b => i ← lift (u64_from_bytes b (InvalidFormat "Invalid index format")); mret (Some i)
  | None => mret None
  end.

Definition get_sct_by_cert_hash (cert_hash : bytes) : M (option CertificateSctEntry) :=
  v ← ct_get (cert_sct_key cert_hash);
  match v with
  | Some b =>
      entry ← lift (map_err (λ e, InvalidFormat ("Failed to deserialize SCT entry: " +:+ e))
                      (from_bytes b));
      mret (Some entry)
  | None => mret None
  end.

Definition get_certificate (cert_hash : bytes) : M (option bytes) := ct_get (cert_key cert_hash).

Definition get_chain_certificate (cert_hash : bytes) : M (option bytes) :=
  entry ← chain_cache_get cert_hash;
  match entry with
  | Some cert => mret (Some cert)
  | None =>
      v ← get_certificate cert_hash;
      match v with
      | Some cert => chain_cache_insert cert_hash cert;; mret (Some cert)
      | None => mret None
      end
  end.

Definition get_deduplicated_entry (index : Z) : M (option DeduplicatedLogEntry) :=
  v ← ct_get (entry_key index);
  match v with
  | Some b =>
      entry ← lift (map_err (λ e, InvalidFormat ("Failed to deserialize deduplicated entry: "
                                                 +:+ e)) (from_bytes b));
      mret (Some entry)
  | None => mret None
  end.

(** [join_all] runs every lookup; the results are then taken in order, the
    first error or missing certificate ending the loop. *)
Definition get_chain (hashes : list bytes) : M (list bytes) :=
  results ← mapM (λ hash, attempt (get_chain_certificate hash)) hashes;
  lift (mapM (λ result : SErr + option bytes,
                match result with
                | inl e => Err e
                | inr None => Err (InvalidFormat "Chain certificate not found")
                | inr (Some cert) => Ok cert
                end) results).

(** The certificate and the original precertificate of an entry. *)
Definition reconstruct_certificate (dedup_entry : DeduplicatedLogEntry) :
    M (bytes * option bytes) :=
  if bool_decide (d_entry_type dedup_entry = PrecertEntry) then
    v ← get_certificate (certificate_hash dedup_entry);
    precert_result ← lift (ok_or v (InvalidFormat "Original precert not found"));
    chain ← match chain_hashes dedup_entry with
            | Some hashes => get_chain hashes
            | None => mret []
            end;
    tbs_certificate ←
      lift (map_err (λ e, InvalidFormat ("Failed to transform precert: " +:+ e))
              (extract_tbs_certificate precert_result chain));
    mret (tbs_certificate, Some precert_result)
  else
    v ← get_certificate (certificate_hash dedup_entry);
    certificate ← lift (ok_or v (InvalidFormat "Certificate not found"));
    mret (certificate, None).

Definition reconstruct_log_entry (dedup_entry : DeduplicatedLogEntry) : M LogEntry :=
  '(certificate, original_precert) ← reconstruct_certificate dedup_entry;
  chain ← match chain_hashes dedup_entry with
          | Some hashes => chain_certs ← get_chain hashes; mret (Some chain_certs)
          | None => mret None
          end;
  mret {| index := d_index dedup_entry; timestamp := d_timestamp dedup_entry;
          entry_type := d_entry_type dedup_entry; certificate := certificate; chain := chain;
          issuer_key_hash := d_issuer_key_hash dedup_entry;
          original_precert := original_precert; leaf_data := d_leaf_data dedup_entry |}.

Definition get_entry (index : Z) : M (option LogEntry) :=
  cached ← entry_cache_get index;
  match cached with
  | Some entry => mret (Some entry)
  | None =>
      v ← get_deduplicated_entry index;
      match v with
      | Some dedup_entry =>
          entry ← reconstruct_log_entry dedup_entry;
          entry_cache_insert index entry;;
          mret (Some entry)
      | None => mret None
      end
  end.

End Reads.
