(* ===== verification/CtInv.v ===== *)
(** * What the storage holds

    The records that the storage keeps beside the tree, as a function of the
    entries [P] logged so far: the keys, the invariant, and that the records of
    a batch extend it. *)

From S2P Require Import Prelude TreeMath Rfc6962 Inclusion Consistency KvStore TreeStore TreeInv.
From S2P Require Import TreeReads TreePush TreeTiles TreeBatch Types MerkleStorage CtStorage.

(** ** Keys *)

Inductive skey :=
  | SEntry (i : Z)
  | SHash (h : bytes)
  | SCertSct (h : bytes)
  | SCert (h : bytes).

Definition senc (k : skey) : bytes :=
  match k with
  | SEntry i => entry_key i
  | SHash h => hash_key h
  | SCertSct h => cert_sct_key h
  | SCert h => cert_key h
  end.
Definition skey_ok (k : skey) : Prop := match k with SEntry i => is_u64 i | _ => True end.

Lemma senc_inj k k' : skey_ok k → skey_ok k' → senc k = senc k' → k = k'.
Proof.
  destruct k, k'; intros H1 H2 He; try done; cbn [senc skey_ok] in *; apply app_inv_head in He.
  - f_equal. by apply be_8_inj.
  - by rewrite He.
  - by rewrite He.
  - by rewrite He.
Qed.

(** No record of the storage can be taken for a record of the tree. *)
Lemma senc_tree_key k : tree_key (senc k) = false.
Proof. by destruct k. Qed.

(** ** The invariant *)

Section Inv.
  Context `{Digest} `{!Postcard DeduplicatedLogEntry} `{!Postcard CertificateSctEntry}.
  Implicit Types (m : gmap bytes bytes) (P : list Processed).

Definition leaves P : list Certificate := map (λ p, {| data := p_leaf_data p |}) P.

(** What is logged at index [i] is the leaf of its entry, with that index. *)
Record made (i : Z) (p : Processed) : Prop := {
  made_index : index (p_log_entry p) = i;
  made_leaf : leaf_data (p_log_entry p) = p_leaf_data p;
  made_data : serialize_merkle_tree_leaf (E := Empty_set) (certificate (p_log_entry p))
      (entry_type (p_log_entry p)) (issuer_key_hash (p_log_entry p))
      (timestamp (p_log_entry p)) (Some i) = Ok (p_leaf_data p);
  made_dedup : ∃ d, from_log_entry (E := Empty_set) (p_log_entry p) = Ok d ∧
      to_stdvec d = Ok (p_entry_data p);
}.

Definition leaf_digest (p : Processed) : bytes := digest ([0] ++ p_leaf_data p).

Record ct_inv m P : Prop := {
  ci_made i p : P !! i = Some p → made (Z.of_nat i) p;
  ci_entry i : is_u64 i → m !! senc (SEntry i) = p_entry_data <$> P !! Z.to_nat i;
  ci_hash h b : m !! senc (SHash h) = Some b →
    ∃ i p, P !! i = Some p ∧ b = be_bytes 8 (Z.of_nat i) ∧ leaf_digest p = h;
  ci_hashed i p : P !! i = Some p → is_Some (m !! senc (SHash (leaf_digest p)));
  ci_sct h b : m !! senc (SCertSct h) = Some b →
    ∃ i p, P !! i = Some p ∧ p_cert_hash p = h ∧
      to_stdvec (sct_entry (Z.of_nat i) (p_sct p)) = Ok b;
  ci_scted i p : P !! i = Some p → is_Some (m !! senc (SCertSct (p_cert_hash p)));
  ci_cert h c : m !! senc (SCert h) = Some c →
    digest c = h ∧ ∃ i p, P !! i = Some p ∧ c ∈ entry_certs (p_log_entry p);
  ci_certs i p c : P !! i = Some p → c ∈ entry_certs (p_log_entry p) →
    is_Some (m !! senc (SCert (digest c)));
}.

Lemma ct_inv_empty m : (∀ k, m !! senc k = None) → ct_inv m [].
Proof.
  intros Hm. split; try done; intros; by rewrite Hm in *.
Qed.

Lemma ct_inv_local m m' P :
  (∀ k, m' !! senc k = m !! senc k) → ct_inv m P → ct_inv m' P.
Proof.
  intros Hm Hi. split.
  - by apply (ci_made m).
  - intros i. rewrite Hm. by apply ci_entry.
  - intros h b. rewrite Hm. by apply ci_hash.
  - intros i p. rewrite Hm. by apply ci_hashed.
  - intros h b. rewrite Hm. by apply ci_sct.
  - intros i p. rewrite Hm. by apply ci_scted.
  - intros h c. rewrite Hm. by apply ci_cert.
  - intros i p c. rewrite Hm. by apply ci_certs.
Qed.

(** ** Batches of puts *)

Lemma apply_batch_cases b m k v :
  apply_batch b m !! k = Some v → (k, v) ∈ b ∨ m !! k = Some v.
Proof.
  intros Hv. destruct (decide (k ∈ b.*1)) as [Hin|Hnin].
  - destruct (apply_batch_in b m k Hin) as (v' & ? & Hv'). left. congruence.
  - right. by rewrite apply_batch_notin in Hv.
Qed.

Lemma apply_batch_some b m k v : (k, v) ∈ b → is_Some (apply_batch b m !! k).
Proof.
  intros Hin. destruct (apply_batch_in b m k) as (v' & _ & ->); [|done].
  apply list_elem_of_fmap. by exists (k, v).
Qed.

Lemma apply_batch_mono b m k : is_Some (m !! k) → is_Some (apply_batch b m !! k).
Proof.
  intros Hk. destruct (decide (k ∈ b.*1)) as [Hin|Hnin].
  - destruct (apply_batch_in b m k Hin) as (v' & _ & ->). done.
  - by rewrite apply_batch_notin.
Qed.

(** ** The records of a batch *)

(** What the batch of the entries [P'], logged from index [n] on, writes. *)
Inductive record_of (n : Z) (P' : list Processed) : skey → bytes → Prop :=
  | rec_entry j p : P' !! j = Some p →
      record_of n P' (SEntry (n + Z.of_nat j)) (p_entry_data p)
  | rec_hash j p : P' !! j = Some p →
      record_of n P' (SHash (leaf_digest p)) (be_bytes 8 (n + Z.of_nat j))
  | rec_sct j p b : P' !! j = Some p →
      to_stdvec (sct_entry (n + Z.of_nat j) (p_sct p)) = Ok b →
      record_of n P' (SCertSct (p_cert_hash p)) b
  | rec_cert j p c : P' !! j = Some p → c ∈ entry_certs (p_log_entry p) →
      record_of n P' (SCert (digest c)) c.

(** A batch that writes records of [P'] only, all those of the entries and the
    certificates that are missing. *)
Record writes m (n : Z) (P' : list Processed) (b : list (bytes * bytes)) : Prop := {
  wr_sound k v : (k, v) ∈ b → ∃ sk, k = senc sk ∧ record_of n P' sk v;
  wr_entry j p : P' !! j = Some p →
    (senc (SEntry (n + Z.of_nat j)), p_entry_data p) ∈ b;
  wr_hash j p : P' !! j = Some p →
    (senc (SHash (leaf_digest p)), be_bytes 8 (n + Z.of_nat j)) ∈ b;
  wr_sct j p : P' !! j = Some p → ∃ v, (senc (SCertSct (p_cert_hash p)), v) ∈ b;
  wr_cert j p c : P' !! j = Some p → c ∈ entry_certs (p_log_entry p) →
    is_Some (m !! senc (SCert (digest c))) ∨ ∃ v, (senc (SCert (digest c)), v) ∈ b;
}.

Lemma writes_tree_key m n P' b : writes m n P' b → Forall (λ kv, tree_key kv.1 = false) b.
Proof.
  intros Hw. apply Forall_forall. intros [k v] Hk. cbn.
  destruct (wr_sound _ _ _ _ Hw k v Hk) as (sk & -> & _). apply senc_tree_key.
Qed.

Section Extend.
  Context (m : gmap bytes bytes) (P P' : list Processed) (b : list (bytes * bytes)).
  Context (Hinv : ct_inv m P) (Hw : writes m (zlen P) P' b).
  Context (Hsize : zlen (P ++ P') ≤ 2 ^ 63).
  Context (Hmade : ∀ j p, P' !! j = Some p → made (zlen P + Z.of_nat j) p).

Lemma record_u64 sk v : record_of (zlen P) P' sk v → skey_ok sk.
Proof.
  intros Hr. destruct Hr as [j p Hj| | |]; try done. apply lookup_lt_Some in Hj.
  rewrite length_app in Hsize. cbn. unfold is_u64. lia.
Qed.

(** What a key of the storage is bound to after the batch. *)
Lemma batch_lookup sk v :
  skey_ok sk → apply_batch b m !! senc sk = Some v → record_of (zlen P) P' sk v ∨ m !! senc sk = Some v.
Proof.
  intros Hok [Hin|Hm]%apply_batch_cases; [|by right]. left.
  destruct (wr_sound _ _ _ _ Hw _ _ Hin) as (sk' & He & Hr).
  apply senc_inj in He as ->; [done|done|by eapply record_u64].
Qed.

Lemma lookup_new j p : P' !! j = Some p → (P ++ P') !! (length P + j)%nat = Some p.
Proof. intros Hj. rewrite lookup_app_r by lia. by replace (length P + j - length P)%nat with j by lia. Qed.

Lemma lookup_split i p : (P ++ P') !! i = Some p →
  P !! i = Some p ∨ ∃ j, i = (length P + j)%nat ∧ P' !! j = Some p.
Proof.
  intros [Hi|[Hle Hi]]%lookup_app_Some; [by left|right]. exists (i - length P)%nat.
  split; [lia|done].
Qed.

Lemma entry_lookup i :
  is_u64 i → apply_batch b m !! senc (SEntry i) = p_entry_data <$> (P ++ P') !! Z.to_nat i.
Proof.
  intros Hi. unfold is_u64 in Hi. pose proof Hsize as Hs. rewrite length_app in Hs.
  destruct ((P ++ P') !! Z.to_nat i) as [p|] eqn:Hp; cbn [fmap option_fmap option_map].
  - apply lookup_split in Hp as [Hp|(j & Hj & Hp)].
    + destruct (apply_batch b m !! senc (SEntry i)) as [v|] eqn:Hv.
      * apply batch_lookup in Hv as [Hr|Hm]; [|rewrite (ci_entry _ _ Hinv i Hi), Hp in Hm; done|done].
        inversion Hr; subst. apply lookup_lt_Some in Hp. lia.
      * pose proof (apply_batch_mono b m (senc (SEntry i))) as Hmono.
        rewrite Hv, (ci_entry _ _ Hinv i Hi), Hp in Hmono. destruct Hmono; [by eexists|done].
    + replace i with (zlen P + Z.of_nat j) by lia.
      apply apply_batch_lookup; [by apply (wr_entry _ _ _ _ Hw)|]. intros v' Hv'.
      destruct (wr_sound _ _ _ _ Hw _ _ Hv') as (sk & He & Hr).
      apply senc_inj in He as <-; [|cbn; unfold is_u64; apply lookup_lt_Some in Hp; lia|by eapply record_u64].
      inversion Hr as [j' p' Hj' Heq| | |]; subst. assert (j' = j) as -> by lia. congruence.
  - destruct (apply_batch b m !! senc (SEntry i)) as [v|] eqn:Hv; [|done].
    rewrite lookup_ge_None, length_app in Hp.
    assert (P !! Z.to_nat i = None) as Hp1 by (apply lookup_ge_None; lia).
    apply batch_lookup in Hv as [Hr|Hm]; [|rewrite (ci_entry _ _ Hinv i Hi), Hp1 in Hm; done|done].
    inversion Hr as [j' p' Hj' Heq| | |]; subst. apply lookup_lt_Some in Hj'. lia.
Qed.

Lemma ct_inv_extend : ct_inv (apply_batch b m) (P ++ P').
Proof.
  split.
  - intros i p [Hp|(j & -> & Hp)]%lookup_split; [by eapply ci_made|].
    rewrite Nat2Z.inj_add. by apply Hmade.
  - apply entry_lookup.
  - intros h v [Hr|Hm]%batch_lookup; [..|done].
    + inversion Hr as [|j p Hj| |]; subst. exists (length P + j)%nat, p.
      rewrite Nat2Z.inj_add. split; [by apply lookup_new|done].
    + destruct (ci_hash _ _ Hinv _ _ Hm) as (i & p & ? & ? & ?). exists i, p.
      split; [by apply lookup_app_l_Some|done].
  - intros i p [Hp|(j & -> & Hp)]%lookup_split.
    + apply apply_batch_mono. by eapply ci_hashed.
    + eapply apply_batch_some. by eapply wr_hash.
  - intros h v [Hr|Hm]%batch_lookup; [..|done].
    + inversion Hr as [| |j p ? Hj|]; subst. exists (length P + j)%nat, p.
      rewrite Nat2Z.inj_add. split; [by apply lookup_new|done].
    + destruct (ci_sct _ _ Hinv _ _ Hm) as (i & p & ? & ? & ?). exists i, p.
      split; [by apply lookup_app_l_Some|done].
  - intros i p [Hp|(j & -> & Hp)]%lookup_split.
    + apply apply_batch_mono. by eapply ci_scted.
    + destruct (wr_sct _ _ _ _ Hw j p Hp) as [v Hv]. by eapply apply_batch_some.
  - intros h c [Hr|Hm]%batch_lookup; [..|done].
    + inversion Hr as [| | |j p ? Hj]; subst. split; [done|]. exists (length P + j)%nat, p.
      split; [by apply lookup_new|done].
    + destruct (ci_cert _ _ Hinv _ _ Hm) as (? & i & p & ? & ?). split; [done|]. exists i, p.
      split; [by apply lookup_app_l_Some|done].
  - intros i p c [Hp|(j & -> & Hp)]%lookup_split Hc.
    + apply apply_batch_mono. by eapply ci_certs.
    + destruct (wr_cert _ _ _ _ Hw j p c Hp Hc) as [Hm|[v Hv]];
        [by apply apply_batch_mono|by eapply apply_batch_some].
Qed.

End Extend.

End Inv.
