(* ===== verification/CtFlush.v ===== *)
(** * Flushing a batch

    [flush_batch] is atomic: the entries of the batch are logged together, each
    with the index and the SCT its caller is told, and with the records that
    the reads of the storage need; or none is. *)

From S2P Require Import Prelude TreeMath Rfc6962 Inclusion Consistency KvStore TreeStore TreeInv.
From S2P Require Import TreeReads TreePush TreeTiles TreeBatch Types MerkleStorage CtStorage.
From S2P Require Import CtInv.

Section Flush.
  Context `{SlateDb} `{!DebugDb} `{!Cache (Z * Z) bytes} `{!Cache (Z * Z) bool}.
  Context `{!SlateDbLaws} `{!CacheLaws (Z * Z) bytes} `{!CacheLaws (Z * Z) bool}.
  Context `{Digest} `{!Postcard bytes} `{!PostcardLaws bytes}.
  Context `{!Postcard DeduplicatedLogEntry} `{!Postcard CertificateSctEntry}.
  Context `{HashOrder} `{!HashOrderLaws}.
  Abbreviation SErr := (StorageError SlateDBError).
  Implicit Types (P : list Processed) (D : list Certificate) (B : gset Z) (m : gmap bytes bytes).

(** ** Certificates *)

Lemma collect_cert_inv (X : gset bytes) (M : gmap bytes bytes) (certs : list bytes) c :
  X = dom M → (∀ h c', M !! h = Some c' → digest c' = h ∧ c' ∈ certs) →
  let '(X', M') := collect_cert (X, M) c in
  X' = dom M' ∧ (∀ h c', M' !! h = Some c' → digest c' = h ∧ c' ∈ c :: certs) ∧
  digest c ∈ X' ∧ X ⊆ X'.
Proof.
  intros HX HM. unfold collect_cert, hash_certificate. cbn [fst snd]. case_bool_decide as Hin.
  - split; [done|]. split; [|done]. intros h c' Hc. apply HM in Hc. set_solver.
  - split; [rewrite dom_insert_L; set_solver|]. split; [|set_solver].
    intros h c' Hc. destruct (decide (h = digest c)) as [->|Hne].
    + rewrite lookup_insert_eq in Hc. injection Hc as <-. set_solver.
    + rewrite lookup_insert_ne in Hc by done. apply HM in Hc. set_solver.
Qed.

Lemma collect_list_inv (l : list bytes) (X : gset bytes) (M : gmap bytes bytes) (certs : list bytes) :
  X = dom M → (∀ h c', M !! h = Some c' → digest c' = h ∧ c' ∈ certs) →
  let '(X', M') := fold_left collect_cert l (X, M) in
  X' = dom M' ∧ (∀ h c', M' !! h = Some c' → digest c' = h ∧ c' ∈ certs ++ l) ∧
  (∀ c, c ∈ l → digest c ∈ X') ∧ X ⊆ X'.
Proof.
  revert X M certs. induction l as [|c l IH]; intros X M certs HX HM.
  { cbn [fold_left]. rewrite app_nil_r. split; [done|]. split; [done|]. split; [set_solver|done]. }
  cbn [fold_left]. pose proof (collect_cert_inv X M certs c HX HM) as Hc.
  destruct (collect_cert (X, M) c) as [X1 M1]. destruct Hc as (HX1 & HM1 & Hin & Hsub).
  specialize (IH X1 M1 _ HX1 HM1). destruct (fold_left collect_cert l (X1, M1)) as [X2 M2].
  destruct IH as (HX2 & HM2 & Hin2 & Hsub2). split; [done|]. split; [|split; [|set_solver]].
  - intros h c' Hc'. destruct (HM2 h c' Hc') as [? Hel]. split; [done|]. set_solver.
  - intros c' [->|Hc']%elem_of_cons; [set_solver|auto].
Qed.

Definition all_certs (P : list Processed) : list bytes :=
  concat (map (λ p, entry_certs (p_log_entry p)) P).

Lemma elem_of_all_certs P c :
  c ∈ all_certs P ↔ ∃ j p, P !! j = Some p ∧ c ∈ entry_certs (p_log_entry p).
Proof.
  unfold all_certs. rewrite elem_of_concat. split.
  - intros (l & Hc & (p & -> & Hp)%list_elem_of_fmap). apply list_elem_of_lookup in Hp as [j Hj]. eauto.
  - intros (j & p & Hj & Hc). exists (entry_certs (p_log_entry p)). split; [done|].
    apply list_elem_of_fmap. exists p. split; [done|]. by eapply list_elem_of_lookup_2.
Qed.

Lemma collect_certs_fold P : collect_certs P = fold_left collect_cert (all_certs P) (∅, ∅).
Proof.
  unfold collect_certs, all_certs. generalize (∅ : gset bytes, ∅ : gmap bytes bytes).
  induction P as [|p P IH]; intros acc; [done|]. cbn [map concat fold_left].
  by rewrite fold_left_app, IH.
Qed.

Lemma collect_certs_spec P (X : gset bytes) (M : gmap bytes bytes) :
  collect_certs P = (X, M) →
  X = dom M ∧ (∀ h c, M !! h = Some c → digest c = h ∧ c ∈ all_certs P) ∧
  ∀ c, c ∈ all_certs P → is_Some (M !! digest c).
Proof.
  rewrite collect_certs_fold. intros Hc.
  pose proof (collect_list_inv (all_certs P) ∅ ∅ []) as Hinv. rewrite Hc in Hinv.
  specialize (Hinv ltac:(by rewrite dom_empty_L) ltac:(done)). destruct Hinv as (-> & HM & Hin & _). split; [done|]. split; [done|].
  intros c Hc'. apply elem_of_dom. auto.
Qed.

(** The certificates found are in the store. *)
Lemma existing_certs_spec m D B (X : gset bytes) s :
  keeps m D B s →
  spec (existing_certs X) s
    (λ E s', keeps m D B s' ∧ ∀ h, h ∈ E → is_Some (m !! senc (SCert h))) (λ _ _, False).
Proof.
  intros Hk. unfold existing_certs, ms_check_keys_exist. apply spec_bind, spec_attempt, spec_map_err.
  unfold check_keys_exist. eapply spec_mono.
  { eapply (spec_mapM _ _ _ (λ k b, b = bool_decide (is_Some (m !! k))) (keeps m D B)); [done|].
    intros k s' _ Hk'. apply spec_bind. eapply spec_mono; [by apply get_spec| |intros e s'' Hf; exact Hf].
    intros v s'' [-> Hk'']. apply spec_ret. split; [|done]. destruct (m !! k); symmetry;
      [apply bool_decide_eq_true_2; eauto|by apply bool_decide_eq_false_2, is_Some_None]. }
  - intros bs s' [Hbs Hk']. apply spec_ret. split; [done|]. intros h Hh.
    apply elem_of_list_to_set, list_elem_of_omap in Hh as ((h' & b) & Hz & Hb).
    destruct b; [|done]. injection Hb as <-. apply elem_of_lookup_zip_with in Hz
      as (i & x & y & [= <- <-] & Hx & Hy).
    eapply Forall2_lookup_lr in Hbs; [|rewrite list_lookup_fmap, Hx; done|done].
    symmetry in Hbs. by apply bool_decide_eq_true in Hbs.
  - intros e s' [_ Hk']. apply spec_ret. split; [done|]. intros h Hh.
    apply elem_of_list_to_set, list_elem_of_omap in Hh as ((h' & b) & Hz & Hb).
    destruct b; [|done]. apply elem_of_lookup_zip_with in Hz as (i & x & y & [= <- <-] & Hx & Hy).
    by apply lookup_replicate in Hy as [? _].
Qed.

Lemma elem_of_new_certs (E : gset bytes) (M : gmap bytes bytes) k v :
  (k, v) ∈ new_certs E M ↔ ∃ h, k = senc (SCert h) ∧ (h ∉ E) ∧ M !! h = Some v.
Proof.
  unfold new_certs. rewrite list_elem_of_omap. split.
  - intros ((h & c) & Hin & Hb). rewrite map_iter_law, elem_of_map_to_list in Hin.
    case_bool_decide; [done|]. injection Hb as <- <-. eauto.
  - intros (h & -> & HE & HM). exists (h, v). rewrite map_iter_law, elem_of_map_to_list.
    split; [done|]. by rewrite bool_decide_eq_false_2.
Qed.

(** ** Records *)

(** [postcard] serializes every record. *)
Context (dedup_serializes : ∀ d : DeduplicatedLogEntry, ∃ b, to_stdvec d = Ok b).
Context (sct_serializes : ∀ e : CertificateSctEntry, ∃ b, to_stdvec e = Ok b).

Lemma batch_records_spec n k (P' L : list Processed) :
  0 ≤ n → n + Z.of_nat k + zlen P' ≤ 2 ^ 63 → drop k L = P' →
  ∃ rs, batch_records n (map p_leaf_data L) k P' = Ok rs ∧
    ∀ x v, (x, v) ∈ rs ↔ ∃ j p b, P' !! j = Some p ∧
      to_stdvec (sct_entry (n + Z.of_nat (k + j)) (p_sct p)) = Ok b ∧
      ((x, v) = (senc (SEntry (n + Z.of_nat (k + j))), p_entry_data p) ∨
       (x, v) = (senc (SHash (leaf_digest p)), be_bytes 8 (n + Z.of_nat (k + j))) ∨
       (x, v) = (senc (SCertSct (p_cert_hash p)), b)).
Proof.
  revert k. induction P' as [|p P' IH]; intros k Hn Hsz Hd.
  { exists []. split; [done|]. intros x v. split; [set_solver|]. intros (j & q & b & Hj & _). done. }
  cbn [length] in Hsz. assert (L !! k = Some p) as Hk.
  { rewrite <- (Nat.add_0_r k), <- lookup_drop, Hd. done. }
  destruct (IH (S k)) as (rs & Hrs & Hel); [done|lia| |].
  { rewrite (drop_S L p k Hk) in Hd. congruence. }
  destruct (sct_serializes (sct_entry (n + Z.of_nat k) (p_sct p))) as [b Hb].
  cbn [batch_records]. unfold entry_records. rewrite list_lookup_fmap, Hk.
  unwrap. cbn [fmap option_fmap option_map expect]. rewrite bind_Ok, Hb. cbn [catch].
  rewrite !bind_Ok, Hrs. eexists. split; [reflexivity|]. intros x v. rewrite elem_of_app, Hel. split.
  - intros [Hin|(j & q & b' & Hj & Hb' & Hx)].
    + exists 0%nat, p, b. rewrite Nat.add_0_r. split; [done|]. split; [done|]. set_solver.
    + exists (S j), q, b'. by rewrite Nat.add_succ_r.
  - intros ([|j] & q & b' & Hj & Hb' & Hx).
    + left. injection Hj as <-. rewrite Nat.add_0_r in *. assert (b' = b) as -> by congruence. set_solver.
    + right. exists j, q, b'. by rewrite Nat.add_succ_r in *.
Qed.

(** The data written with the leaves is what the invariant asks for. *)
Lemma batch_writes m (n : Z) (P' : list Processed) (X : gset bytes) (M : gmap bytes bytes) (E : gset bytes) rs :
  0 ≤ n → n + zlen P' ≤ 2 ^ 63 → collect_certs P' = (X, M) →
  (∀ h, h ∈ E → is_Some (m !! senc (SCert h))) →
  batch_records n (map p_leaf_data P') 0 P' = Ok rs →
  writes m n P' (rs ++ new_certs E M).
Proof.
  intros Hn Hsz Hc HE Hrs. destruct (collect_certs_spec P' X M Hc) as (_ & HM & Hin).
  destruct (batch_records_spec n 0 P' P') as (rs' & Hrs' & Hel); [done|lia|done|].
  assert (rs' = rs) as -> by congruence. clear Hrs Hrs'. split.
  - intros k v. rewrite elem_of_app, Hel, elem_of_new_certs.
    intros [(j & p & b & Hj & Hb & [[= -> ->]|[[= -> ->]|[= -> ->]]])|(h & -> & _ & Hh)].
    + eexists (SEntry _). split; [done|]. by constructor.
    + eexists (SHash _). split; [done|]. by constructor.
    + eexists (SCertSct _). split; [done|]. by econstructor.
    + exists (SCert h). split; [done|]. destruct (HM h v Hh) as [<- Hv].
      apply elem_of_all_certs in Hv as (j & p & ? & ?). by econstructor.
  - intros j p Hj. rewrite elem_of_app, Hel. left.
    destruct (sct_serializes (sct_entry (n + Z.of_nat (0 + j)) (p_sct p))) as [b Hb].
    exists j, p, b. auto.
  - intros j p Hj. rewrite elem_of_app, Hel. left.
    destruct (sct_serializes (sct_entry (n + Z.of_nat (0 + j)) (p_sct p))) as [b Hb].
    exists j, p, b. auto.
  - intros j p Hj. destruct (sct_serializes (sct_entry (n + Z.of_nat (0 + j)) (p_sct p))) as [b Hb].
    exists b. rewrite elem_of_app, Hel. left. exists j, p, b. auto.
  - intros j p c Hj Hc'. destruct (decide (digest c ∈ E)) as [?|HnE]; [left; auto|right].
    destruct (Hin c) as [v Hv]; [apply elem_of_all_certs; eauto|]. exists v.
    rewrite elem_of_app, elem_of_new_certs. right. eauto.
Qed.

(** ** The blocking task *)

Lemma from_log_entry_any {E E'} e d :
  from_log_entry (E := E) e = Ok d → from_log_entry (E := E') e = Ok d.
Proof.
  unfold from_log_entry. destruct (entry_type e), (original_precert e), (issuer_key_hash e) as [h|];
    unfold assert_that; try destruct (32 <=? zlen h); cbn; try done; intros [= <-]; done.
Qed.

Lemma from_log_entry_not_err {E} e (err : E) : from_log_entry e ≠ Err err.
Proof.
  unfold from_log_entry. destruct (entry_type e), (original_precert e), (issuer_key_hash e) as [h|];
    unfold assert_that; try destruct (32 <=? zlen h); done.
Qed.

(** An entry with its index and leaf filled in. *)
Definition with_index (i : Z) (leaf : bytes) (le : LogEntry) : LogEntry :=
  {| index := i; timestamp := timestamp le; entry_type := entry_type le;
     certificate := certificate le; chain := chain le; issuer_key_hash := issuer_key_hash le;
     original_precert := original_precert le; leaf_data := leaf |}.

Lemma process_entry_inv n j e p i :
  i = n + Z.of_nat j → 0 ≤ n → i < 2 ^ 64 → process_entry n j e = Ok p →
  sct_callback e i = Ok (p_sct p) ∧ p_cert_hash p = cert_hash e ∧
  serialize_merkle_tree_leaf (E := Empty_set) (certificate (log_entry e)) (entry_type (log_entry e))
    (issuer_key_hash (log_entry e)) (timestamp (log_entry e)) (Some i) = Ok (p_leaf_data p) ∧
  p_log_entry p = with_index i (p_leaf_data p) (log_entry e) ∧
  ∃ d, from_log_entry (E := Empty_set) (p_log_entry p) = Ok d ∧ to_stdvec d = Ok (p_entry_data p).
Proof.
  intros -> Hn Hj. unfold process_entry, compute_leaf_data_with_index. rewrite u64_small by lia.
  intros (sct & Hsct & (leaf & Hleaf & (d & Hd & (b & Hb & Hp)%bind_Ok_inv)%bind_Ok_inv)%bind_Ok_inv)%bind_Ok_inv.
  injection Hp as <-. cbn [p_sct p_cert_hash p_leaf_data p_log_entry p_entry_data]. split_and!.
  - destruct (sct_callback e _) as [?|[]| |]; cbn in Hsct; congruence.
  - done.
  - revert Hleaf. unfold serialize_merkle_tree_leaf. destruct (ext_leaf_index _); congruence.
  - done.
  - exists d. split; [by eapply from_log_entry_any|destruct (to_stdvec d); cbn in Hb; congruence].
Qed.

Lemma process_entry_made n j e p :
  0 ≤ n → n + Z.of_nat j < 2 ^ 64 → process_entry n j e = Ok p → made (n + Z.of_nat j) p.
Proof.
  intros Hn Hj Hp. destruct (process_entry_inv n j e p _ eq_refl Hn Hj Hp) as (_ & _ & Hleaf & He & Hd).
  split; [by rewrite He|by rewrite He|by rewrite He|done].
Qed.

Lemma bind_not_err {E A C} (c : res E A) (k : A → res E C) e :
  c ≠ Err e → (∀ a, k a ≠ Err e) → (c ≫= k) ≠ Err e.
Proof. destruct c; cbn; congruence. Qed.

Lemma process_entry_not_err n j e err : process_entry n j e ≠ Err err.
Proof.
  unfold process_entry. apply bind_not_err; [by destruct (sct_callback e _) as [sct|[]| |]|intros sct].
  apply bind_not_err; [|intros leaf].
  { unfold compute_leaf_data_with_index, serialize_merkle_tree_leaf. by destruct (ext_leaf_index _). }
  apply bind_not_err; [apply from_log_entry_not_err|intros d].
  apply bind_not_err; [|done]. by destruct (dedup_serializes d) as [b ->].
Qed.

(** [P'] is what the task makes of the entries of a batch logged from [n] on. *)
Definition processed (n : Z) (i : nat) (entries : list BatchEntry) (P' : list Processed) : Prop :=
  length P' = length entries ∧
  ∀ j e, entries !! j = Some e → ∃ p, P' !! j = Some p ∧ process_entry n (i + j) e = Ok p.

Lemma process_entries_cases n i entries :
  (∃ P', process_entries n i entries = Ok (map inr P') ∧ processed n i entries P') ∨
  (∀ rs, process_entries n i entries ≠ Ok rs).
Proof.
  revert i. induction entries as [|e entries IH]; intros i.
  { left. exists []. done. }
  cbn [process_entries]. destruct (process_entry n i e) as [p|err| |] eqn:He; cbn [catch].
  2: { by destruct (process_entry_not_err n i e err). }
  2, 3: right; intros rs; done.
  rewrite bind_Ok. destruct (IH (S i)) as [(P' & Hp & Hlen & Hall)|Hno]; [left|right].
  - exists (p :: P'). rewrite Hp, bind_Ok. split; [done|]. split; [cbn; lia|].
    intros [|j] e'; cbn [lookup list_lookup].
    + intros [= <-]. exists p. by rewrite Nat.add_0_r.
    + intros Hj. rewrite Nat.add_succ_r. by apply Hall.
  - intros rs Hrs. apply bind_Ok_inv in Hrs as (rs' & Hrs' & _). by destruct (Hno rs').
Qed.

Lemma separate_ok i (P' : list Processed) :
  separate i (map inr P') =
  {| leaf_data_vec := map p_leaf_data P'; entry_metadata := P';
     completion_info := map (λ p, Some (p_sct p)) P'; failed_entries := [] |}.
Proof.
  revert i. induction P' as [|p P' IH]; intros i; [done|]. cbn [map separate]. by rewrite IH.
Qed.

(** ** Answers *)

Definition accept (n : Z) (j : nat) (p : Processed) : answer SlateDBError :=
  Some (inr (n + Z.of_nat j, p_sct p)).
Definition refused (a : answer SlateDBError) : Prop :=
  match a with Some (inr _) => False | _ => True end.

Lemma notify_ok_all n v i (P' : list Processed) :
  0 ≤ n → 0 ≤ v → n + v + zlen P' < 2 ^ 64 →
  notify_ok n v i [] (map (λ p, Some (p_sct p)) P') =
  imap (λ j p, Some (inr (n + v + Z.of_nat j, p_sct p))) P'.
Proof.
  revert v i. induction P' as [|p P' IH]; intros v i Hn Hv Hsz; [done|].
  cbn [length] in Hsz. cbn [map notify_ok find_failed List.find fmap option_fmap option_map imap].
  unwrap. rewrite IH by lia. f_equal; [by rewrite Z.add_0_r|]. apply imap_ext.
  intros j p' _. unfold compose. by replace (n + v + Z.of_nat (S j)) with (n + (v + 1) + Z.of_nat j) by lia.
Qed.

Lemma notify_err_refused e failed infos : Forall refused (notify_err e failed infos).
Proof.
  apply Forall_forall. intros a Ha. apply list_elem_of_lookup in Ha as [i Hi]. unfold notify_err in Hi.
  rewrite list_lookup_imap in Hi. destruct (infos !! i); [|done]. by injection Hi as <-.
Qed.

Lemma length_notify_err e failed infos : length (notify_err e failed infos) = length infos.
Proof. apply length_imap. Qed.

(** ** The push *)

(** The state of a log with the entries [P]. *)
Definition log_inv (s : SlateDbBackedTree) P B : Prop :=
  inv s (leaves P) B ∧ ct_inv (view s) P.

Lemma length_leaves P : length (leaves P) = length P.
Proof. apply length_map. Qed.

Lemma leaves_app P P' : leaves (P ++ P') = leaves P ++ leaves P'.
Proof. apply map_app. Qed.

(** The entries of a batch were appended, or nothing changed. *)
Definition extended P B P' (s' : SlateDbBackedTree) : Prop :=
  log_inv s' (P ++ P') (new_bounds B (zlen (P ++ P'))).
Definition untouched s P B (s' : SlateDbBackedTree) : Prop :=
  log_inv s' P B ∧ view s' = view s.

Lemma appended_extended s P B P' additional s' :
  log_inv s P B → writes (view s) (zlen P) P' additional → zlen (P ++ P') ≤ 2 ^ 63 →
  (∀ j p, P' !! j = Some p → made (zlen P + Z.of_nat j) p) →
  appended s (leaves P) B (leaves P') additional s' → extended P B P' s'.
Proof.
  intros [_ Hc] Hw Hsz Hm [Hi Hv]. unfold extended, log_inv.
  rewrite <- leaves_app, length_leaves in Hi. split; [done|].
  eapply ct_inv_local; [|by eapply ct_inv_extend]. intros k. apply Hv, senc_tree_key.
Qed.

Lemma ms_push_spec s P B P' additional :
  output_size = 32%nat → log_inv s P B → zlen (P ++ P') ≤ 2 ^ 63 →
  writes (view s) (zlen P) P' additional →
  (∀ j p, P' !! j = Some p → made (zlen P + Z.of_nat j) p) →
  spec (ms_batch_push_with_data (map p_leaf_data P') additional) s
    (λ r s', r = zlen P ∧ extended P B P' s')
    (λ _ s', untouched s P B s' ∨ extended P B P' s').
Proof.
  intros Hash Hl Hsz Hw Hm. pose proof Hl as [Hi Hc]. unfold ms_batch_push_with_data.
  rewrite map_map. change (map _ P') with (leaves P'). apply spec_bind, spec_map_err.
  assert (zlen (leaves P ++ leaves P') ≤ 2 ^ 63) as Hsz' by (by rewrite <- leaves_app, length_leaves).
  eapply spec_mono; [eapply (batch_push_spec (leaves P) B); [done|done|done|by eapply writes_tree_key]|..].
  - intros r s1 [-> Ha]. assert (Hx := appended_extended _ _ _ _ _ _ Hl Hw Hsz Hm Ha).
    apply spec_bind, spec_attempt. destruct Hx as [Hi1 Hc1].
    eapply spec_mono; [by eapply size_spec|..].
    + intros n s2 (_ & Hi2 & Hv2). apply spec_ret. rewrite length_leaves. split; [done|].
      split; [done|by rewrite Hv2].
    + intros e s2 (Hi2 & Hv2 & _). apply spec_ret. rewrite length_leaves. split; [done|].
      split; [done|by rewrite Hv2].
  - intros e s1 [_ [[Hi1 Hv1]|Ha]].
    + left. split; [split; [done|by rewrite Hv1]|done].
    + right. by eapply appended_extended.
Qed.

Lemma push_batch_spec s P B P' :
  output_size = 32%nat → log_inv s P B → zlen (P ++ P') ≤ 2 ^ 63 → P' ≠ [] →
  (∀ j p, P' !! j = Some p → made (zlen P + Z.of_nat j) p) →
  spec (push_batch (zlen P) (separate 0 (map inr P'))) s
    (λ r s', match r.1 with
             | inr n => extended P B P' s'
             | inl _ => untouched s P B s' ∨ extended P B P' s'
             end) (λ _ _, False).
Proof.
  intros Hash Hl Hsz Hne Hm. rewrite separate_ok. unfold push_batch.
  cbn [leaf_data_vec entry_metadata]. pose proof Hsz as Hsz'. rewrite length_app in Hsz'.
  destruct (map p_leaf_data P') as [|l0 ls] eqn:Hmap; [by destruct P'|]. rewrite <- Hmap. clear Hmap.
  destruct (collect_certs P') as [X M] eqn:Hcc.
  pose proof Hl as [Hi Hc]. apply spec_bind.
  eapply spec_mono; [eapply existing_certs_spec; by apply inv_keeps|..|done].
  intros E s1 [Hk1 HE]. destruct (count_skipped E P') as [skipped saved].
  destruct (batch_records_spec (zlen P) 0 P' P') as (rs & Hrs & _); [lia|lia|done|].
  rewrite Hrs. apply spec_bind. eapply spec_lift_ok; [done|].
  assert (log_inv s1 P B) as Hl1.
  { split; [by eapply keeps_inv|]. destruct Hk1 as [-> _]. done. }
  assert (view s1 = view s) as Hv1 by apply Hk1.
  apply spec_bind, spec_attempt. eapply spec_mono.
  { eapply ms_push_spec; [done|exact Hl1|done| |done]. rewrite Hv1. eapply batch_writes; eauto; lia. }
  - intros r s2 [-> Hx]. by apply spec_ret.
  - intros e s2 Hx. apply spec_ret. cbn. unfold untouched in *. by rewrite Hv1 in Hx.
Qed.

(** ** The flush *)

Definition flush_post s P B (entries : list BatchEntry)
    (r : list (answer SlateDBError) * BatchStats) (s' : SlateDbBackedTree) : Prop :=
  length r.1 = length entries ∧
  ((untouched s P B s' ∧ Forall refused r.1) ∨
   ∃ P', processed (zlen P) 0 entries P' ∧ extended P B P' s' ∧
     (r.1 = imap (accept (zlen P)) P' ∨ Forall refused r.1)).

Lemma processed_made P P' entries :
  zlen P + zlen entries < 2 ^ 64 → processed (zlen P) 0 entries P' →
  ∀ j p, P' !! j = Some p → made (zlen P + Z.of_nat j) p.
Proof.
  intros Hsz [Hlen Hall] j p Hp. pose proof (lookup_lt_Some _ _ _ Hp) as Hlt.
  destruct (lookup_lt_is_Some_2 entries j) as [e He]; [lia|].
  destruct (Hall j e He) as (p' & Hp' & Hpe). assert (p' = p) as -> by congruence.
  eapply process_entry_made; [lia|lia|exact Hpe].
Qed.

Lemma flush_batch_spec s P B flush_ms dedup_ms stats entries :
  output_size = 32%nat → log_inv s P B → zlen P + zlen entries ≤ 2 ^ 63 →
  spec (flush_batch flush_ms dedup_ms stats entries) s (flush_post s P B entries) (λ _ _, False).
Proof.
  intros Hash Hl Hsz. unfold flush_batch. destruct entries as [|e0 es].
  { apply spec_ret. split; [done|]. left. split; [by split|done]. }
  set (entries := e0 :: es) in *. pose proof Hl as [Hi Hc]. apply spec_bind, spec_attempt.
  eapply spec_mono; [by eapply size_spec|..]; last first.
  { intros e s1 (Hi1 & Hv1 & _). apply spec_ret. split; [by cbn; rewrite length_map|].
    left. split; [split; [split; [done|by rewrite Hv1]|done]|].
    apply Forall_forall. intros a (? & -> & _)%list_elem_of_fmap. done. }
  intros n s1 (-> & Hi1 & Hv1). rewrite length_leaves. apply spec_bind.
  assert (log_inv s1 P B) as Hl1 by (split; [done|by rewrite Hv1]).
  unfold process_batch. destruct (process_entries_cases (zlen P) 0 entries) as [(P' & -> & Hp)|Hno].
  - assert (length P' = length entries) as Hlen by apply Hp. eapply spec_mono; [apply push_batch_spec| |done].
    + done.
    + done.
    + rewrite length_app. lia.
    + intros ->. done.
    + eapply processed_made; [|done]. lia.
    + intros [r [[certs skipped] saved]] s2 Hx. cbn [fst] in Hx. apply spec_ret.
      rewrite separate_ok. cbn [failed_entries completion_info]. destruct r as [e|k].
      * split; [unfold fill_dropped; cbn [fst]; rewrite length_app, length_replicate,
          length_notify_err, length_map; lia|]. cbn [fst].
        assert (Forall refused (fill_dropped (length entries) (notify_err e []
          (map (λ p, Some (p_sct p)) P')))) as Hr.
        { apply Forall_app. split; [apply notify_err_refused|by apply Forall_replicate]. }
        unfold untouched in *. rewrite Hv1 in Hx. destruct Hx; [left; done|right; eauto].
      * rewrite notify_ok_all by lia. unfold fill_dropped. rewrite length_imap, Hlen, Nat.sub_diag.
        cbn [replicate]. rewrite app_nil_r. split; [cbn [fst]; by rewrite length_imap|]. right.
        exists P'. split; [done|]. split; [done|]. left. cbn [fst]. apply imap_ext.
        intros j p _. unfold accept. by rewrite Z.add_0_r.
  - destruct (process_entries (zlen P) 0 entries) as [rs| | |]; [by destruct (Hno rs)|..];
      apply spec_ret, spec_ret; unfold flush_post, fill_dropped;
      cbn [fst snd failed_entries completion_info notify_err imap length app];
      rewrite Nat.sub_0_r;
      (split; [by rewrite length_replicate|left; split; [by split|by apply Forall_replicate]]).
Qed.




End Flush.
