(* ===== verification/CtReads.v ===== *)
(** * Reads of the storage

    What was flushed can be read back: entries by index, indices by leaf hash,
    SCTs and certificates by certificate hash.  The caches change nothing. *)

From S2P Require Import Prelude TreeMath Rfc6962 Inclusion Consistency KvStore TreeStore TreeInv.
From S2P Require Import TreeReads TreePush TreeTiles TreeBatch Types MerkleStorage CtStorage.
From S2P Require Import CtInv CtFlush.

Section Reads.
  Context `{SlateDb} `{!Cache (Z * Z) bytes} `{!Cache (Z * Z) bool}.
  Context `{!SlateDbLaws} `{!CacheLaws (Z * Z) bytes} `{!CacheLaws (Z * Z) bool}.
  Context `{!Cache bytes bytes} `{!CacheLaws bytes bytes}.
  Context `{!Cache Z LogEntry} `{!CacheLaws Z LogEntry}.
  Context `{Digest} `{!Postcard bytes} `{!PostcardLaws bytes}.
  Context `{!Postcard DeduplicatedLogEntry} `{!PostcardLaws DeduplicatedLogEntry}.
  Context `{!Postcard CertificateSctEntry} `{!PostcardLaws CertificateSctEntry} `{TbsExtractor}.
  Abbreviation SErr := (StorageError SlateDBError).
  Implicit Types (P : list Processed) (B : gset Z).

(** ** The invariant with the caches *)

Definition chain_ok P (c : cache bytes bytes) : Prop :=
  map_Forall (λ h cert, digest cert = h ∧ cert ∈ all_certs P) (cache_view c).
Definition entries_ok P (c : cache Z LogEntry) : Prop :=
  map_Forall (λ i e, 0 ≤ i ∧ ∃ p, P !! Z.to_nat i = Some p ∧ e = p_log_entry p) (cache_view c).

Record storage_inv (s : CtStorage) P B : Prop := {
  si_log : log_inv (ct_tree s) P B;
  si_chain : chain_ok P (chain_cache s);
  si_entries : entries_ok P (entry_cache s);
}.

(** A read keeps the invariant and the contents of the store, and fails only
    with an error of the database. *)
Definition kept P B m (s : CtStorage) : Prop := storage_inv s P B ∧ view (ct_tree s) = m.
Definition read_failure P B m (e : SErr) (s : CtStorage) : Prop :=
  (∃ d, e = SlateDbErr d) ∧ kept P B m s.

Lemma ct_get_spec P B m k s :
  kept P B m s → spec (ct_get k) s (λ v s', v = m !! k ∧ kept P B m s') (read_failure P B m).
Proof.
  intros [[[Hi Hc] Hch He] Hm]. unfold spec, ct_get.
  pose proof (rl_get_spec k (tree_db (ct_tree s))) as Hg. unfold spec in Hg.
  assert (∀ d, rl_view d = rl_view (tree_db (ct_tree s)) → kept P B m
    {| ct_tree := with_db d (ct_tree s); chain_cache := chain_cache s; entry_cache := entry_cache s |}) as Hkept.
  { intros d Hd. split; [|unfold view in *; cbn; congruence]. split; [|done|done]. cbn [ct_tree].
    unfold log_inv, inv, view in *. cbn. rewrite Hd. done. }
  destruct (rl_get k (tree_db (ct_tree s))) as [[v|e| |] d]; cbn [map_err]; try done.
  - destruct Hg as [-> Hd]. split; [by unfold view in Hm; rewrite <- Hm|auto].
  - split; [by eexists|auto].
Qed.

Lemma chain_cache_get_spec P B m k s :
  kept P B m s →
  spec (E := SErr) (chain_cache_get k) s
    (λ r s', (∀ c, r = Some c → digest c = k ∧ c ∈ all_certs P) ∧ kept P B m s') (read_failure P B m).
Proof.
  intros [[Hl Hch He] Hm]. unfold spec, chain_cache_get.
  pose proof (cache_get_law k (chain_cache s)) as [Hsub Hget].
  destruct (cache_get k (chain_cache s)) as [r c]. cbn [fst snd] in *. split.
  - intros cert ->. by apply (Hch k).
  - split; [|done]. split; [done| |done]. by eapply map_Forall_sub.
Qed.

Lemma chain_cache_insert_spec P B m k c s :
  digest c = k → c ∈ all_certs P → kept P B m s →
  spec (E := SErr) (chain_cache_insert k c) s (λ _ s', kept P B m s') (read_failure P B m).
Proof.
  intros Hk Hc [[Hl Hch He] Hm]. apply spec_modify. split; [|done]. split; [done| |done].
  eapply map_Forall_sub; [apply cache_insert_law|]. by apply map_Forall_insert_2.
Qed.

Lemma entry_cache_get_spec P B m i s :
  kept P B m s →
  spec (E := SErr) (entry_cache_get i) s
    (λ r s', (∀ e, r = Some e → ∃ p, P !! Z.to_nat i = Some p ∧ e = p_log_entry p) ∧ kept P B m s')
    (read_failure P B m).
Proof.
  intros [[Hl Hch He] Hm]. unfold spec, entry_cache_get.
  pose proof (cache_get_law i (entry_cache s)) as [Hsub Hget].
  destruct (cache_get i (entry_cache s)) as [r c]. cbn [fst snd] in *. split.
  - intros e ->. by apply (He i).
  - split; [|done]. split; [done|done|]. by eapply map_Forall_sub.
Qed.

Lemma entry_cache_insert_spec P B m i p s :
  0 ≤ i → P !! Z.to_nat i = Some p → kept P B m s →
  spec (E := SErr) (entry_cache_insert i (p_log_entry p)) s (λ _ s', kept P B m s') (read_failure P B m).
Proof.
  intros Hi Hp [[Hl Hch He] Hm]. apply spec_modify. split; [|done]. split; [done|done|].
  eapply map_Forall_sub; [apply cache_insert_law|]. apply map_Forall_insert_2; [|done]. eauto.
Qed.

(** ** Lookups by key *)

Section Lookups.
  Context (P : list Processed) (B : gset Z) (m : gmap bytes bytes).

Lemma find_index_by_hash_spec h s :
  kept P B m s →
  spec (find_index_by_hash h) s
    (λ r s', kept P B m s' ∧
       match r with
       | Some i => ∃ p, 0 ≤ i < zlen P ∧ P !! Z.to_nat i = Some p ∧ leaf_digest p = h
       | None => ∀ p, p ∈ P → leaf_digest p ≠ h
       end) (read_failure P B m).
Proof.
  intros Hk. pose proof Hk as [[[Hi Hc] _ _] Hm]. rewrite Hm in Hc. pose proof Hi as [Hti _].
  apply spec_bind. eapply spec_mono; [by apply ct_get_spec| |done]. intros v s1 [-> Hk1].
  change (hash_key h) with (senc (SHash h)). destruct (m !! senc (SHash h)) as [b|] eqn:Hb.
  - destruct (ci_hash _ _ Hc h b Hb) as (i & p & Hp & -> & Hh). pose proof (lookup_lt_Some _ _ _ Hp).
    pose proof (ti_size _ _ _ Hti) as Hsz. rewrite length_leaves in Hsz.
    apply spec_bind. eapply spec_lift_ok; [apply u64_from_be; lia|]. apply spec_ret. split; [done|].
    exists p. rewrite Nat2Z.id. split; [lia|done].
  - apply spec_ret. split; [done|]. intros p [i Hp]%list_elem_of_lookup Hh.
    pose proof (ci_hashed _ _ Hc i p Hp) as Hs. rewrite Hh, Hb in Hs. by destruct Hs.
Qed.

Lemma get_sct_by_cert_hash_spec h s :
  kept P B m s →
  spec (get_sct_by_cert_hash h) s
    (λ r s', kept P B m s' ∧
       match r with
       | Some e => ∃ p, 0 ≤ se_index e < zlen P ∧ P !! Z.to_nat (se_index e) = Some p ∧
           p_cert_hash p = h ∧ e = sct_entry (se_index e) (p_sct p)
       | None => ∀ p, p ∈ P → p_cert_hash p ≠ h
       end) (read_failure P B m).
Proof.
  intros Hk. pose proof Hk as [[[Hi Hc] _ _] Hm]. rewrite Hm in Hc.
  apply spec_bind. eapply spec_mono; [by apply ct_get_spec| |done]. intros v s1 [-> Hk1].
  change (cert_sct_key h) with (senc (SCertSct h)). destruct (m !! senc (SCertSct h)) as [b|] eqn:Hb.
  - destruct (ci_sct _ _ Hc h b Hb) as (i & p & Hp & Hh & Hs). pose proof (lookup_lt_Some _ _ _ Hp).
    apply spec_bind. eapply spec_lift_ok; [by rewrite (postcard_round _ _ Hs)|]. apply spec_ret.
    split; [done|]. exists p. cbn [se_index sct_entry]. rewrite Nat2Z.id. split; [lia|done].
  - apply spec_ret. split; [done|]. intros p [i Hp]%list_elem_of_lookup Hh.
    pose proof (ci_scted _ _ Hc i p Hp) as Hs. rewrite Hh, Hb in Hs. by destruct Hs.
Qed.

Lemma get_certificate_spec h s :
  kept P B m s →
  spec (get_certificate h) s
    (λ r s', kept P B m s' ∧
       match r with
       | Some c => digest c = h ∧ c ∈ all_certs P
       | None => ∀ c, c ∈ all_certs P → digest c ≠ h
       end) (read_failure P B m).
Proof.
  intros Hk. pose proof Hk as [[[Hi Hc] _ _] Hm]. rewrite Hm in Hc.
  eapply spec_mono; [by apply ct_get_spec| |done]. intros v s1 [-> Hk1]. split; [done|].
  change (cert_key h) with (senc (SCert h)). destruct (m !! senc (SCert h)) as [c|] eqn:Hb.
  - destruct (ci_cert _ _ Hc h c Hb) as (? & ?). split; [done|]. by apply elem_of_all_certs.
  - intros c (j & p & Hp & Hcp)%elem_of_all_certs Hh.
    pose proof (ci_certs _ _ Hc j p c Hp Hcp) as Hs. rewrite Hh, Hb in Hs. by destruct Hs.
Qed.

Lemma get_chain_certificate_spec c s :
  c ∈ all_certs P → kept P B m s →
  spec (get_chain_certificate (digest c)) s
    (λ r s', kept P B m s' ∧ ∃ c', r = Some c' ∧ digest c' = digest c ∧ c' ∈ all_certs P)
    (read_failure P B m).
Proof.
  intros Hc Hk. apply spec_bind. eapply spec_mono; [by apply chain_cache_get_spec| |done].
  intros [c'|] s1 [Hc' Hk1].
  { apply spec_ret. split; [done|]. exists c'. by destruct (Hc' c' eq_refl). }
  apply spec_bind. eapply spec_mono; [by apply get_certificate_spec| |done].
  intros [c'|] s2 [Hk2 Hv]; [|by destruct (Hv c Hc)]. destruct Hv as [Hd Hin].
  apply spec_bind. eapply spec_mono; [by apply chain_cache_insert_spec| |done].
  intros [] s3 Hk3. apply spec_ret. split; [done|]. eauto.
Qed.

Lemma get_deduplicated_entry_spec i s :
  is_u64 i → kept P B m s →
  spec (get_deduplicated_entry i) s
    (λ r s', kept P B m s' ∧
       match P !! Z.to_nat i with
       | Some p => ∃ d, r = Some d ∧ from_log_entry (E := Empty_set) (p_log_entry p) = Ok d
       | None => r = None
       end) (read_failure P B m).
Proof.
  intros Hi Hk. pose proof Hk as [[[_ Hc] _ _] Hm]. rewrite Hm in Hc.
  apply spec_bind. eapply spec_mono; [by apply ct_get_spec| |done]. intros v s1 [-> Hk1].
  change (entry_key i) with (senc (SEntry i)). rewrite (ci_entry _ _ Hc i Hi).
  destruct (P !! Z.to_nat i) as [p|] eqn:Hp; cbn [fmap option_fmap option_map]; [|by apply spec_ret].
  destruct (made_dedup _ _ (ci_made _ _ Hc _ _ Hp)) as (d & Hd & Hb).
  apply spec_bind. eapply spec_lift_ok; [by rewrite (postcard_round _ _ Hb)|].
  apply spec_ret. split; [done|]. eauto.
Qed.

(** ** Reconstruction *)

(** No two certificates of the log have the same hash, and the entries are as
    the submission handlers make them. *)
Definition entry_wf (e : LogEntry) : Prop :=
  match entry_type e with
  | X509Entry => original_precert e = None
  | PrecertEntry => is_Some (issuer_key_hash e) ∧ ∃ pc, original_precert e = Some pc ∧
      extract_tbs_certificate pc (default [] (chain e)) = Ok (certificate e)
  end ∧ ∀ h, issuer_key_hash e = Some h → length h = 32%nat.

Context (Hcf : collision_free (all_certs P)) (Hwf : Forall (λ p, entry_wf (p_log_entry p)) P).

Lemma same_cert c c' : c ∈ all_certs P → c' ∈ all_certs P → digest c = digest c' → c = c'.
Proof. intros. by apply (collision_free_eq (all_certs P)). Qed.

Lemma get_chain_spec cs s :
  (∀ c, c ∈ cs → c ∈ all_certs P) → kept P B m s →
  spec (get_chain (map digest cs)) s (λ r s', r = cs ∧ kept P B m s') (read_failure P B m).
Proof.
  intros Hcs Hk. apply spec_bind. eapply spec_mono.
  { eapply (spec_mapM _ _ _ (λ h r, (∃ d, r = inl (SlateDbErr d)) ∨
      ∃ c, r = inr (Some c) ∧ digest c = h ∧ c ∈ all_certs P) (kept P B m)); [done|].
    intros h s' (c & -> & Hc)%list_elem_of_fmap Hk'. apply spec_attempt.
    eapply spec_mono; [apply get_chain_certificate_spec; [by apply Hcs|done]|..].
    - intros r s'' [Hk'' (c' & -> & ?)]. eauto.
    - intros e s'' [[d ->] Hk'']. eauto. }
  2: { intros e s' He. exact He. }
  intros rs s' [Hrs Hk']. unfold spec, lift. revert rs Hrs.
  induction cs as [|c cs IH]; intros rs Hrs.
  { inversion Hrs; subst. done. }
  inversion Hrs as [|? r ? rs' Hr Hrs']; subst. cbn [mapM]. destruct Hr as [[d ->]|(c' & -> & Hd & Hc')].
  { split; [by eexists|done]. }
  rewrite bind_Ok. assert (c' = c) as -> by (apply same_cert; set_solver).
  specialize (IH ltac:(set_solver) rs' Hrs').
  destruct (mapM _ rs'); cbn; [by destruct IH as [-> ?]|done..].
Qed.

Lemma lookup_cert_spec {A} c (e : SErr) s (k : bytes → stM CtStorage SErr A) Q :
  c ∈ all_certs P → kept P B m s →
  (∀ s', kept P B m s' → spec (k c) s' Q (read_failure P B m)) →
  spec (v ← get_certificate (digest c); c' ← lift (ok_or v e); k c') s Q (read_failure P B m).
Proof.
  intros Hc Hk Hcont. apply spec_bind. eapply spec_mono; [by apply get_certificate_spec| |done].
  intros [c'|] s1 [Hk1 Hv]; [|by destruct (Hv c Hc)]. destruct Hv as [Hd Hin].
  apply spec_bind. eapply spec_lift_ok; [done|]. rewrite (same_cert c' c Hin Hc Hd). auto.
Qed.

Section Entry.
  Context (i : Z) (p : Processed) (d : DeduplicatedLogEntry).
  Context (Hp : P !! Z.to_nat i = Some p).
  Context (Hd : from_log_entry (E := Empty_set) (p_log_entry p) = Ok d).

Lemma entry_cert c : c ∈ entry_certs (p_log_entry p) → c ∈ all_certs P.
Proof. intros Hc. apply elem_of_all_certs. eauto. Qed.

Lemma this_entry_wf : entry_wf (p_log_entry p).
Proof. by eapply (Forall_lookup_1 (λ p, entry_wf (p_log_entry p))). Qed.

(** The deduplicated form of a well-formed entry. *)
Lemma dedup_fields :
  d_index d = index (p_log_entry p) ∧ d_timestamp d = timestamp (p_log_entry p) ∧
  d_entry_type d = entry_type (p_log_entry p) ∧
  chain_hashes d = map digest <$> chain (p_log_entry p) ∧
  d_issuer_key_hash d = issuer_key_hash (p_log_entry p) ∧
  d_leaf_data d = leaf_data (p_log_entry p) ∧
  certificate_hash d = digest match original_precert (p_log_entry p) with
                              | Some pc => pc | None => certificate (p_log_entry p) end.
Proof.
  destruct this_entry_wf as [Hw Hk]. revert Hd. unfold from_log_entry.
  destruct (entry_type (p_log_entry p)) eqn:Ht.
  - rewrite Hw. destruct (issuer_key_hash (p_log_entry p)) as [h|]; cbn; [|by intros [= <-]].
    specialize (Hk h eq_refl). rewrite Hk. unfold assert_that. cbn. intros [= <-]. cbn.
    by rewrite take_ge by lia.
  - destruct Hw as (_ & pc & -> & _). destruct (issuer_key_hash (p_log_entry p)) as [h|]; cbn;
      [|by intros [= <-]].
    specialize (Hk h eq_refl). rewrite Hk. unfold assert_that. cbn. intros [= <-]. cbn.
    by rewrite take_ge by lia.
Qed.

Lemma chain_certs c : c ∈ default [] (chain (p_log_entry p)) → c ∈ all_certs P.
Proof.
  intros Hc. apply entry_cert. unfold entry_certs. destruct (chain (p_log_entry p)); set_solver.
Qed.

Lemma reconstruct_certificate_spec s :
  kept P B m s →
  spec (reconstruct_certificate d) s
    (λ r s', r = (certificate (p_log_entry p), original_precert (p_log_entry p)) ∧ kept P B m s')
    (read_failure P B m).
Proof.
  intros Hk. unfold reconstruct_certificate.
  destruct dedup_fields as (_ & _ & -> & -> & _ & _ & ->). destruct this_entry_wf as [Hw _].
  pose proof entry_cert as Hin. unfold entry_certs in Hin.
  destruct (entry_type (p_log_entry p)) eqn:Ht; cbn [bool_decide decide] in *.
  - rewrite bool_decide_eq_false_2 in * by done. rewrite Hw. apply lookup_cert_spec.
    + apply Hin. set_solver.
    + done.
    + intros s1 Hk1. by apply spec_ret.
  - rewrite bool_decide_eq_true_2 in * by done. destruct Hw as (_ & pc & Hpc & Hx). rewrite Hpc in *.
    apply lookup_cert_spec; [apply Hin; set_solver|done|]. intros s1 Hk1. apply spec_bind.
    eapply (spec_mono _ _ (λ r s', r = default [] (chain (p_log_entry p)) ∧ kept P B m s')); [| |done].
    + pose proof chain_certs as Hcs. destruct (chain (p_log_entry p)); cbn [fmap option_fmap option_map default]; [|by apply spec_ret].
      by apply get_chain_spec.
    + intros r s2 [-> Hk2]. rewrite Hx. apply spec_bind. eapply spec_lift_ok; [done|].
      by apply spec_ret.
Qed.

Lemma reconstruct_log_entry_spec s :
  kept P B m s →
  spec (reconstruct_log_entry d) s (λ r s', r = p_log_entry p ∧ kept P B m s') (read_failure P B m).
Proof.
  intros Hk. unfold reconstruct_log_entry. apply spec_bind.
  eapply spec_mono; [by apply reconstruct_certificate_spec| |done]. intros r s1 [-> Hk1].
  destruct dedup_fields as (-> & -> & -> & -> & -> & -> & _). apply spec_bind.
  eapply (spec_mono _ _ (λ r s', r = chain (p_log_entry p) ∧ kept P B m s')); [| |done].
  - pose proof chain_certs as Hcs. destruct (chain (p_log_entry p)) as [cs|]; cbn [fmap option_fmap option_map]; [|by apply spec_ret].
    apply spec_bind. eapply spec_mono; [by apply get_chain_spec| |done]. intros r s2 [-> Hk2].
    by apply spec_ret.
  - intros r s2 [-> Hk2]. apply spec_ret. split; [by destruct (p_log_entry p)|done].
Qed.

End Entry.

Lemma get_entry_spec i s :
  is_u64 i → kept P B m s →
  spec (get_entry i) s (λ r s', r = p_log_entry <$> P !! Z.to_nat i ∧ kept P B m s')
    (read_failure P B m).
Proof.
  intros Hi Hk. apply spec_bind. eapply spec_mono; [by apply entry_cache_get_spec| |done].
  intros [e|] s1 [He Hk1].
  { apply spec_ret. split; [|done]. by destruct (He e eq_refl) as (p & -> & ->). }
  apply spec_bind. eapply spec_mono; [by apply get_deduplicated_entry_spec| |done].
  intros r s2 [Hk2 Hr]. destruct (P !! Z.to_nat i) as [p|] eqn:Hp; last first.
  { subst r. by apply spec_ret. }
  destruct Hr as (d & -> & Hd). apply spec_bind.
  eapply spec_mono; [by eapply reconstruct_log_entry_spec| |done]. intros r s3 [-> Hk3].
  apply spec_bind. eapply spec_mono; [apply entry_cache_insert_spec; [apply Hi|done|done]| |done].
  intros [] s4 Hk4. by apply spec_ret.
Qed.

End Lookups.

(** ** Properties *)

(** C18: an entry that was logged is read back by [get_entry] exactly as it was
    submitted, with its index and leaf, from the deduplicated record and the
    certificate store or from the caches; beyond the end of the log there is
    none.  It needs that no two certificates of the log have the same hash and
    that the entries have the shape the submission handlers give them. *)
Theorem get_entry_roundtrip s P B i :
  storage_inv s P B → collision_free (all_certs P) →
  Forall (λ p, entry_wf (p_log_entry p)) P → is_u64 i →
  spec (get_entry i) s
    (λ r s', r = p_log_entry <$> P !! Z.to_nat i ∧ kept P B (view (ct_tree s)) s')
    (read_failure P B (view (ct_tree s))).
Proof. intros Hs Hcf Hwf Hi. by apply get_entry_spec. Qed.

(** [find_index_by_hash] returns the index of a leaf whose hash is the one
    asked for, and nothing only when no leaf of the log has that hash. *)
Theorem find_index_by_hash_correct s P B h :
  storage_inv s P B →
  spec (find_index_by_hash h) s
    (λ r s', kept P B (view (ct_tree s)) s' ∧
       match r with
       | Some i => ∃ p, 0 ≤ i < zlen P ∧ P !! Z.to_nat i = Some p ∧ leaf_digest p = h
       | None => ∀ p, p ∈ P → leaf_digest p ≠ h
       end) (read_failure P B (view (ct_tree s))).
Proof. intros Hs. by apply find_index_by_hash_spec. Qed.

(** [get_sct_by_cert_hash] returns, for a certificate that was submitted,
    the index and the SCT of one of its entries, and nothing only when no entry
    of the log is for it. *)
Theorem get_sct_by_cert_hash_correct s P B h :
  storage_inv s P B →
  spec (get_sct_by_cert_hash h) s
    (λ r s', kept P B (view (ct_tree s)) s' ∧
       match r with
       | Some e => ∃ p, 0 ≤ se_index e < zlen P ∧ P !! Z.to_nat (se_index e) = Some p ∧
           p_cert_hash p = h ∧ e = sct_entry (se_index e) (p_sct p)
       | None => ∀ p, p ∈ P → p_cert_hash p ≠ h
       end) (read_failure P B (view (ct_tree s))).
Proof. intros Hs. by apply get_sct_by_cert_hash_spec. Qed.

End Reads.
