(* ===== verification/DataTiles.v ===== *)
(** * Data tiles

    The entries of a data tile (types/tiles.rs) read back: a parser of the
    TileLeaf structure of the static-ct API, and what it finds in the bytes that
    are made of a logged entry. *)

From S2P Require Import Prelude TreeMath Rfc6962 Inclusion Consistency KvStore TreeStore TreeInv.
From S2P Require Import TreeReads TreePush TreeTiles TreeBatch Types Tiles MerkleStorage CtStorage.
From S2P Require Import CtInv CtFlush CtReads.

(** ** The parser *)

(** The entry, the precertificate it was made of, the hashes of its chain. *)
Record tile_entry := {
  te_entry : parsed_leaf;
  te_precert : option bytes;
  te_chain : list bytes;
}.

(** Extensions, and a list of hashes, with two-byte lengths and what follows. *)
Definition parse_extensions_then (b : bytes) : option (option Z * bytes) :=
  let n := (2 + Z.to_nat (from_be (take 2 b)))%nat in
  idx ← parse_extensions (take n b); mret (idx, drop n b).
Definition parse_fingerprints (b : bytes) : option (list bytes * bytes) :=
  let n := from_be (take 2 b) in
  if n mod 32 =? 0 then parse_hashes (Z.to_nat (n / 32)) (drop 2 b) else None.

Definition parse_tile_leaf (b : bytes) : option (tile_entry * bytes) :=
  let ts := from_be (take 8 b) in
  match drop 8 b with
  | 0 :: 0 :: b2 =>
      '(cert, b3) ← parse_vec3 b2;
      '(idx, b4) ← parse_extensions_then b3;
      '(hs, rest) ← parse_fingerprints b4;
      mret ({| te_entry := {| p_timestamp := ts; p_entry_type := X509Entry; p_issuer_key_hash := None;
                              p_certificate := cert; p_index := idx |};
               te_precert := None; te_chain := hs |}, rest)
  | 0 :: 1 :: b2 =>
      '(cert, b3) ← parse_vec3 (drop 32 b2);
      '(idx, b4) ← parse_extensions_then b3;
      '(precert, b5) ← parse_vec3 b4;
      '(hs, rest) ← parse_fingerprints b5;
      mret ({| te_entry := {| p_timestamp := ts; p_entry_type := PrecertEntry;
                              p_issuer_key_hash := Some (take 32 b2); p_certificate := cert;
                              p_index := idx |};
               te_precert := Some precert; te_chain := hs |}, rest)
  | _ => None
  end.

(** A tile: its entries one after the other. *)
Fixpoint parse_data_tile (fuel : nat) (b : bytes) : option (list tile_entry) :=
  match b, fuel with
  | [], _ => Some []
  | _, O => None
  | _, S f => '(e, rest) ← parse_tile_leaf b; es ← parse_data_tile f rest; mret (e :: es)
  end.
Definition read_data_tile (b : bytes) : option (list tile_entry) := parse_data_tile (length b) b.

(** ** What is read back *)

Lemma parse_extensions_then_ok e i rest :
  0 ≤ i < 2 ^ 40 → ext_leaf_index i = Ok e →
  parse_extensions_then ((be_bytes 2 (u16 (zlen (ext_encode e))) ++ ext_encode e) ++ rest) =
    Some (Some i, rest).
Proof.
  intros Hi He. unfold parse_extensions_then. pose proof (parse_extensions_index i e Hi He) as Hp.
  assert (zlen (ext_encode e) = 8) as Hlen.
  { rewrite ext_leaf_index_ok in He by done. injection He as <-. done. }
  rewrite take_app_le by (rewrite length_app, length_be_bytes; lia).
  rewrite take_app_length' by (by rewrite length_be_bytes). unfold u16 in *. rewrite Hlen in *.
  change (Z.to_nat (from_be (be_bytes 2 (8 mod 2 ^ 16)))) with 8%nat.
  rewrite take_app_length', drop_app_length' by (rewrite length_app, length_be_bytes; lia).
  by rewrite Hp.
Qed.

Lemma parse_fingerprints_ok hs rest :
  zlen hs < 2048 → Forall (λ h, length h = 32%nat) hs →
  parse_fingerprints ((be_bytes 2 (u16 (zlen hs * 32)) ++ concat hs) ++ rest) = Some (hs, rest).
Proof.
  intros Hn Hh. unfold parse_fingerprints, u16. rewrite (Z.mod_small (zlen hs * 32)) by lia. rewrite <- app_assoc.
  rewrite take_app_length', drop_app_length' by (by rewrite length_be_bytes).
  rewrite from_be_2 by lia. rewrite Z.mod_mul, Z.div_mul by lia. cbn [Z.eqb]. rewrite Nat2Z.id.
  by apply parse_hashes_concat.
Qed.

(** The leaf bytes of an entry with an index, less version and leaf type. *)
Lemma leaf_body {E} cert ty ikh ts i b :
  leaf_fields_ok cert ty ikh ts (Some i) →
  serialize_merkle_tree_leaf (E := E) cert ty ikh ts (Some i) = Ok b →
  ∃ e, ext_leaf_index i = Ok e ∧ drop 2 b = be_bytes 8 ts ++ entry_bytes cert ty ikh ++
    be_bytes 2 (u16 (zlen (ext_encode e))) ++ ext_encode e.
Proof.
  intros (_ & Hts & _ & Hi) Hb. unfold serialize_merkle_tree_leaf in Hb.
  rewrite ext_leaf_index_ok in Hb by done. cbv zeta in Hb. rewrite ext_leaf_index_ok by done.
  eexists. split; [done|]. rewrite (u64_small ts) in Hb by done.
  assert (∀ x y : bytes, Ok (E := E) x = Ok y → x = y) as Hinj by congruence. apply Hinj in Hb as <-.
  by rewrite <- !app_assoc.
Qed.

Lemma parse_tile_leaf_ok {E} cert ty ikh ts i b pre hs rest :
  leaf_fields_ok cert ty ikh ts (Some i) →
  serialize_merkle_tree_leaf (E := E) cert ty ikh ts (Some i) = Ok b →
  match ty with X509Entry => pre = None | PrecertEntry => ∃ pc, pre = Some pc ∧ zlen pc < 2 ^ 24 end →
  zlen hs < 2048 → Forall (λ h, length h = 32%nat) hs →
  parse_tile_leaf (tile_leaf_to_bytes {| timestamped_entry_raw := drop 2 b; pre_certificate := pre;
                                         certificate_chain := hs |} ++ rest) =
    Some ({| te_entry := {| p_timestamp := ts; p_entry_type := ty; p_issuer_key_hash := ikh;
                            p_certificate := cert; p_index := Some i |};
             te_precert := pre; te_chain := hs |}, rest).
Proof.
  intros Hf Hb Hpre Hn Hh. destruct (leaf_body _ _ _ _ _ _ Hf Hb) as (e & He & Hd).
  destruct Hf as (Hc & Hts & Hty & Hi). unfold tile_leaf_to_bytes. cbn [timestamped_entry_raw pre_certificate certificate_chain].
  rewrite Hd. set (ext := be_bytes 2 (u16 (zlen (ext_encode e))) ++ ext_encode e).
  set (fp := be_bytes 2 (u16 (zlen hs * 32)) ++ concat hs). rewrite <- !app_assoc.
  unfold parse_tile_leaf. rewrite take_app_length', drop_app_length' by (by rewrite length_be_bytes).
  rewrite from_be_be_64 by done. cbv zeta. destruct ty, ikh as [h|]; try done.
  - rewrite entry_bytes_x509. cbv iota beta. rewrite parse_vec3_ok by done. cbn [mbind option_bind].
    rewrite Hpre. cbn [app]. unfold ext. rewrite (parse_extensions_then_ok e i) by done.
    cbn [mbind option_bind]. unfold fp. by rewrite parse_fingerprints_ok.
  - rewrite entry_bytes_precert. cbv iota beta. destruct Hpre as (pc & -> & Hpc).
    rewrite take_app_length', drop_app_length' by done.
    rewrite parse_vec3_ok by done. cbn [mbind option_bind]. unfold ext.
    rewrite (parse_extensions_then_ok e i) by done. cbn [mbind option_bind].
    rewrite <- (app_assoc (len3 pc)), parse_vec3_ok by done. cbn [mbind option_bind].
    unfold fp. by rewrite parse_fingerprints_ok.
Qed.

(** ** The entries of the log *)

Section Entries.
  Context `{Digest} `{!Postcard DeduplicatedLogEntry} `{TbsExtractor}.

(** What a data tile holds of an entry, and what a client reads in it. *)
Definition tile_leaf_of (p : Processed) : TileLeaf :=
  {| timestamped_entry_raw := drop 2 (p_leaf_data p);
     pre_certificate := original_precert (p_log_entry p);
     certificate_chain := default [] (map digest <$> chain (p_log_entry p)) |}.
Definition tile_entry_of (p : Processed) : tile_entry :=
  let e := p_log_entry p in
  {| te_entry := {| p_timestamp := timestamp e; p_entry_type := entry_type e;
                    p_issuer_key_hash := issuer_key_hash e; p_certificate := certificate e;
                    p_index := Some (index e) |};
     te_precert := original_precert e; te_chain := default [] (map digest <$> chain e) |}.

(** The parts of an entry fit into their length fields. *)
Definition tile_entry_fits (p : Processed) : Prop :=
  let e := p_log_entry p in
  leaf_fields_ok (certificate e) (entry_type e) (issuer_key_hash e) (timestamp e) (Some (index e)) ∧
  (∀ pc, original_precert e = Some pc → zlen pc < 2 ^ 24) ∧ zlen (default [] (chain e)) < 2048.

Lemma parse_tile_leaf_entry i p rest :
  output_size = 32%nat → made i p → entry_wf (p_log_entry p) → tile_entry_fits p →
  parse_tile_leaf (tile_leaf_to_bytes (tile_leaf_of p) ++ rest) = Some (tile_entry_of p, rest).
Proof.
  intros Hash Hm [Hw _] (Hf & Hpc & Hch). pose proof (made_data _ _ Hm) as Hb.
  rewrite <- (made_index _ _ Hm) in Hb. unfold tile_leaf_of, tile_entry_of. cbv zeta in *.
  apply (parse_tile_leaf_ok (E := Empty_set)); [done|done|..].
  - destruct (entry_type (p_log_entry p)); [done|]. destruct Hw as (_ & pc & Hx & _). eauto.
  - destruct (chain (p_log_entry p)); cbn in *; [by rewrite length_map|lia].
  - destruct (chain (p_log_entry p)) as [l|]; cbn; [|constructor]. apply Forall_map, Forall_true.
    intros c. cbn. by rewrite digest_length, Hash.
Qed.

Definition tile_bytes_of (ps : list Processed) : bytes :=
  concat (map (λ p, tile_leaf_to_bytes (tile_leaf_of p)) ps).

Lemma parse_data_tile_entries fuel ps :
  output_size = 32%nat → Forall (λ p, (∃ i, made i p) ∧ entry_wf (p_log_entry p) ∧ tile_entry_fits p) ps →
  (length (tile_bytes_of ps) ≤ fuel)%nat →
  parse_data_tile fuel (tile_bytes_of ps) = Some (map tile_entry_of ps).
Proof.
  intros Hash Hall. revert fuel.
  induction Hall as [|p ps ((i & Hm) & Hw & Hf) Hall IH]; intros fuel Hle; [by destruct fuel|].
  change (tile_bytes_of (p :: ps)) with (tile_leaf_to_bytes (tile_leaf_of p) ++ tile_bytes_of ps) in *.
  pose proof (parse_tile_leaf_entry i p (tile_bytes_of ps) Hash Hm Hw Hf) as Hp.
  assert (2 ≤ length (tile_leaf_to_bytes (tile_leaf_of p)))%nat as Hlen.
  { unfold tile_leaf_to_bytes. rewrite !length_app, length_be_bytes. lia. }
  rewrite length_app in Hle. destruct fuel as [|fuel]; [lia|].
  destruct (tile_leaf_to_bytes (tile_leaf_of p) ++ tile_bytes_of ps) as [|b bs] eqn:Heq.
  { apply app_nil in Heq as [Heq _]. rewrite Heq in Hlen. cbn in Hlen. lia. }
  cbn [parse_data_tile map]. rewrite Hp. cbn [mbind option_bind]. rewrite IH by lia. done.
Qed.

Lemma read_data_tile_entries ps :
  output_size = 32%nat → Forall (λ p, (∃ i, made i p) ∧ entry_wf (p_log_entry p) ∧ tile_entry_fits p) ps →
  read_data_tile (tile_bytes_of ps) = Some (map tile_entry_of ps).
Proof. intros. by apply parse_data_tile_entries. Qed.

End Entries.
