(* ===== verification/CtWorker.v ===== *)
(** * The batching worker

    [add_entry_batched] and [batch_worker] of src/src/storage/mod.rs as a
    transition system: callers put entries into a bounded queue at any time, the
    worker takes them out, collects a batch and flushes it.  Every accepted
    entry is flushed once, in the order of acceptance, in batches of bounded
    size, and what its caller is told agrees with the log. *)

From S2P Require Import Prelude TreeMath Rfc6962 Inclusion Consistency KvStore TreeStore TreeInv.
From S2P Require Import TreeReads TreePush TreeTiles TreeBatch Types MerkleStorage CtStorage.
From S2P Require Import CtInv CtFlush.

Section Worker.
  Context `{SlateDb} `{!DebugDb} `{!Cache (Z * Z) bytes} `{!Cache (Z * Z) bool}.
  Context `{Digest} `{!Postcard bytes} `{!Postcard DeduplicatedLogEntry}.
  Context `{!Postcard CertificateSctEntry} `{HashOrder}.
  Abbreviation SErr := (StorageError SlateDBError).

(** ** State *)

(** Where the loop of the worker is: at [recv], in the [try_recv] loop, at a
    call of [flush_batch] (the last one, or not), or past the loop. *)
Inductive phase := Waiting | Draining | Flushing (last : bool) | Exited.

(** The channel, the locals of the worker and what it works on; [accepted],
    [batches] and [answered] record what happened. *)
Record Worker := {
  queue : list BatchEntry;
  senders_open : bool;
  pending_entries : list BatchEntry;
  oldest_entry_time : option Z;
  at_phase : phase;
  w_tree : SlateDbBackedTree;
  w_stats : BatchStats;
  accepted : list BatchEntry;
  batches : list (list BatchEntry);
  answered : list (BatchEntry * answer SlateDBError);
}.

Definition channel_capacity (config : BatchConfig) : Z := Z.max (max_batch_size config *! 2) 500.

Definition start (tree : SlateDbBackedTree) : Worker :=
  {| queue := []; senders_open := true; pending_entries := []; oldest_entry_time := None;
     at_phase := Waiting; w_tree := tree; w_stats := BatchStats_default; accepted := [];
     batches := []; answered := [] |}.

(** ** Callers *)

(** [try_send] and the errors it is turned into. *)
Definition try_send (config : BatchConfig) (entry : BatchEntry) (w : Worker) :
    res SErr unit * Worker :=
  match at_phase w with
  | Exited => (Err (InvalidFormat "Batch worker not running"), w)
  | _ =>
      if channel_capacity config <=? zlen (queue w) then (Err QueueFull, w)
      else (Ok tt, {| queue := queue w ++ [entry]; senders_open := senders_open w;
                      pending_entries := pending_entries w;
                      oldest_entry_time := oldest_entry_time w; at_phase := at_phase w;
                      w_tree := w_tree w; w_stats := w_stats w;
                      accepted := accepted w ++ [entry]; batches := batches w;
                      answered := answered w |})
  end.

(** What [add_entry_batched] returns for the answer on its channel. *)
Definition completion (a : answer SlateDBError) : res SErr (Z * SignedCertificateTimestamp) :=
  match a with
  | Some (inr r) => Ok r
  | Some (inl e) => Err e
  | None => Err (InvalidFormat "Batch completion channel closed")
  end.

(** All the senders are dropped. *)
Definition close (w : Worker) : Worker :=
  {| queue := queue w; senders_open := false; pending_entries := pending_entries w;
     oldest_entry_time := oldest_entry_time w; at_phase := at_phase w; w_tree := w_tree w;
     w_stats := w_stats w; accepted := accepted w; batches := batches w; answered := answered w |}.

(** ** The worker *)

Definition goto (ph : phase) (w : Worker) : Worker :=
  {| queue := queue w; senders_open := senders_open w; pending_entries := pending_entries w;
     oldest_entry_time := oldest_entry_time w; at_phase := ph; w_tree := w_tree w;
     w_stats := w_stats w; accepted := accepted w; batches := batches w; answered := answered w |}.

(** An entry moves from the queue to the batch; the clock starts with the first
    entry of a batch. *)
Definition take_entry (oldest : option Z) (entry : BatchEntry) (q : list BatchEntry) (w : Worker) :
    Worker :=
  {| queue := q; senders_open := senders_open w;
     pending_entries := pending_entries w ++ [entry]; oldest_entry_time := oldest;
     at_phase := Draining; w_tree := w_tree w; w_stats := w_stats w; accepted := accepted w;
     batches := batches w; answered := answered w |}.

(** A call of [flush_batch]; a panic would end the worker and drop the
    channels. *)
Definition flush (flush_ms dedup_ms : Z) (last : bool) (w : Worker) : Worker :=
  let '(r, tree') := flush_batch flush_ms dedup_ms (w_stats w) (pending_entries w) (w_tree w) in
  let '(answers, stats', ph) :=
    match r with
    | Ok (answers, stats') => (answers, stats', if last then Exited else Waiting)
    | _ => (replicate (length (pending_entries w)) None, w_stats w, Exited)
    end in
  {| queue := queue w; senders_open := senders_open w; pending_entries := [];
     oldest_entry_time := None; at_phase := ph; w_tree := tree'; w_stats := stats';
     accepted := accepted w; batches := batches w ++ [pending_entries w];
     answered := answered w ++ zip (pending_entries w) answers |}.

(** One step of the worker at time [now]; [None] when it has to wait. *)
Definition worker_step (config : BatchConfig) (now flush_ms dedup_ms : Z) (w : Worker) :
    option Worker :=
  match at_phase w with
  | Waiting =>
      match queue w with
      | entry :: q =>
          let oldest := match pending_entries w with
                        | [] => Some now
                        | _ => oldest_entry_time w
                        end in
          Some (take_entry oldest entry q w)
      | [] =>
          if senders_open w then
            match oldest_entry_time w with
            | Some t => if t + max_batch_timeout_ms config <=? now
                        then Some (goto (Flushing false) w) else None
            | None => None
            end
          else
            match pending_entries w with
            | [] => Some (goto Exited w)
            | _ => Some (goto (Flushing true) w)
            end
      end
  | Draining =>
      if zlen (pending_entries w) <? max_batch_size config then
        match queue w with
        | entry :: q => Some (take_entry (oldest_entry_time w) entry q w)
        | [] => Some (goto Waiting w)
        end
      else Some (goto (Flushing false) w)
  | Flushing last => Some (flush flush_ms dedup_ms last w)
  | Exited => None
  end.

(** Callers and the worker interleave. *)
Inductive sys_step (config : BatchConfig) : Worker → Worker → Prop :=
  | sys_send entry w w' : senders_open w = true →
      try_send config entry w = (Ok tt, w') → sys_step config w w'
  | sys_close w : sys_step config w (close w)
  | sys_work now flush_ms dedup_ms w w' :
      worker_step config now flush_ms dedup_ms w = Some w' → sys_step config w w'.

Inductive reachable (config : BatchConfig) (tree : SlateDbBackedTree) : Worker → Prop :=
  | reach_start : reachable config tree (start tree)
  | reach_step w w' : reachable config tree w → sys_step config w w' → reachable config tree w'.

(** The worker left alone, at the times of a clock. *)
Fixpoint run_worker (config : BatchConfig) (clock : nat → Z * Z * Z) (fuel : nat) (w : Worker) :
    Worker :=
  match fuel with
  | O => w
  | S f =>
      let '(now, flush_ms, dedup_ms) := clock fuel in
      match worker_step config now flush_ms dedup_ms w with
      | Some w' => run_worker config clock f w'
      | None => w
      end
  end.

End Worker.

(** ** Correctness *)

Section Correct.
  Context `{SlateDb} `{!DebugDb} `{!Cache (Z * Z) bytes} `{!Cache (Z * Z) bool}.
  Context `{!SlateDbLaws} `{!CacheLaws (Z * Z) bytes} `{!CacheLaws (Z * Z) bool}.
  Context `{Digest} `{!Postcard bytes} `{!PostcardLaws bytes}.
  Context `{!Postcard DeduplicatedLogEntry} `{!Postcard CertificateSctEntry}.
  Context `{HashOrder} `{!HashOrderLaws}.
  Implicit Types (P : list Processed) (B : gset Z) (w : Worker).

(** ** Bookkeeping *)

(** The queue discipline, whatever the flushes do. *)
Record queue_inv (config : BatchConfig) (w : Worker) : Prop := {
  qi_fifo : accepted w = concat (batches w) ++ pending_entries w ++ queue w;
  qi_batches : Forall (λ b, 1 ≤ zlen b ≤ Z.max 1 (max_batch_size config)) (batches w);
  qi_queue : zlen (queue w) ≤ channel_capacity config;
  qi_pending : zlen (pending_entries w) ≤ Z.max 1 (max_batch_size config);
  qi_waiting : at_phase w = Waiting → pending_entries w = [] ∨
    zlen (pending_entries w) < max_batch_size config;
  qi_nonempty : at_phase w = Draining ∨ (∃ last, at_phase w = Flushing last) →
    pending_entries w ≠ [];
  qi_clock : at_phase w = Waiting ∨ at_phase w = Draining → pending_entries w ≠ [] →
    is_Some (oldest_entry_time w);
  qi_idle : pending_entries w = [] → oldest_entry_time w = None;
}.

Lemma start_queue_inv config tree : queue_inv config (start tree).
Proof.
  split; cbn; try done; try lia; [unfold channel_capacity; lia|auto|intros [?|[? ?]]; done].
Qed.

Lemma send_queue_inv config e w w' :
  queue_inv config w → try_send config e w = (Ok tt, w') → queue_inv config w'.
Proof.
  intros [Hf Hb Hq Hp Hw Hn Hc Hid] Hs. unfold try_send in Hs.
  assert (zlen (queue w) < channel_capacity config ∧ w' = {| queue := queue w ++ [e];
    senders_open := senders_open w; pending_entries := pending_entries w;
    oldest_entry_time := oldest_entry_time w; at_phase := at_phase w; w_tree := w_tree w;
    w_stats := w_stats w; accepted := accepted w ++ [e]; batches := batches w;
    answered := answered w |}) as [Hlt ->].
  { destruct (at_phase w); destruct (Z.leb_spec (channel_capacity config) (zlen (queue w)));
      try done; by injection Hs as <-. }
  split; cbn; try done; [by rewrite Hf, !app_assoc|rewrite length_app; cbn; lia].
Qed.

Lemma take_queue_inv config oldest e q w :
  queue_inv config w → queue w = e :: q →
  zlen (pending_entries w) + 1 ≤ Z.max 1 (max_batch_size config) → is_Some oldest →
  queue_inv config (take_entry oldest e q w).
Proof.
  intros [Hf Hb Hq Hp Hw Hn Hc Hid] Heq Hlen Ho. rewrite Heq in *. cbn [length] in Hq.
  split; cbn; try done.
  - rewrite Hf. by rewrite <- app_assoc.
  - lia.
  - rewrite length_app. cbn. lia.
  - by destruct (pending_entries w).
  - by destruct (pending_entries w).
Qed.

Lemma flush_queue_inv config fm dm last w :
  queue_inv config w → at_phase w = Flushing last → queue_inv config (flush fm dm last w).
Proof.
  intros [Hf Hb Hq Hp Hw Hn Hc Hid] Hph. unfold flush.
  destruct (flush_batch fm dm (w_stats w) (pending_entries w) (w_tree w)) as [r tree'].
  assert (pending_entries w ≠ []) as Hne by (apply Hn; eauto).
  assert (1 ≤ zlen (pending_entries w)) by (destruct (pending_entries w); [done|cbn; lia]).
  set (out := match r with Ok _ => _ | _ => _ end). destruct out as [[answers stats'] ph] eqn:Hout.
  assert (∃ x, ph = x ∧ (x = Waiting ∨ x = Exited)) as (x & -> & Hx).
  { unfold out in Hout. exists ph. split; [done|]. destruct r as [[] | | |], last;
      injection Hout as _ _ <-; auto. }
  split; cbn; try done.
  - rewrite Hf, concat_app. cbn. by rewrite app_nil_r, <- app_assoc.
  - apply Forall_app. split; [done|]. by constructor.
  - lia.
  - auto.
  - intros [->|[? ->]]; naive_solver.
Qed.

Lemma goto_queue_inv config ph w :
  queue_inv config w →
  (ph = Waiting → pending_entries w = [] ∨ zlen (pending_entries w) < max_batch_size config) →
  (ph = Draining ∨ (∃ last, ph = Flushing last) → pending_entries w ≠ []) →
  (ph = Waiting → at_phase w = Draining) → ph ≠ Draining →
  queue_inv config (goto ph w).
Proof.
  intros [Hf Hb Hq Hp Hw Hn Hc Hid] H1' H2' H3' H4'. split; cbn; try done.
  intros [->|?]; [|done]. apply Hc. right. auto.
Qed.

Lemma step_queue_inv config now fm dm w w' :
  queue_inv config w → worker_step config now fm dm w = Some w' → queue_inv config w'.
Proof.
  intros Hi. pose proof Hi as [Hf Hb Hq Hp Hw Hn Hc Hid]. unfold worker_step.
  destruct (at_phase w) as [| |last|] eqn:Hph; [..|done].
  - destruct (queue w) as [|e q] eqn:Heq.
    + destruct (senders_open w).
      * destruct (oldest_entry_time w) as [t|] eqn:Ho; [|done]. destruct (_ <=? now); [|done].
        intros [= <-]. apply goto_queue_inv; try done. intros _ Hnil. by specialize (Hid Hnil).
      * destruct (pending_entries w) as [|e0 es] eqn:Hpe; intros [= <-];
          apply goto_queue_inv; try done; rewrite Hpe; [by intros [?|[? ?]]|done].
    + intros [= <-]. apply take_queue_inv; [done|done|..].
      * destruct (Hw eq_refl) as [->|?]; cbn; lia.
      * destruct (pending_entries w) eqn:Hpe; [by eexists|]. apply Hc; [by left|done].
  - destruct (Z.ltb_spec (zlen (pending_entries w)) (max_batch_size config)).
    + destruct (queue w) as [|e q] eqn:Heq; intros [= <-].
      * apply goto_queue_inv; try done; auto; by intros [?|[? ?]].
      * apply take_queue_inv; [done|done|lia|]. apply Hc; [by right|]. apply Hn. by left.
    + intros [= <-]. apply goto_queue_inv; try done. intros _. apply Hn. by left.
  - intros [= <-]. by apply flush_queue_inv.
Qed.

Lemma reachable_queue_inv config tree w : reachable config tree w → queue_inv config w.
Proof.
  induction 1 as [|w w' Hr IH Hs]; [apply start_queue_inv|].
  destruct Hs as [e w w' _ Hs|w|now fm dm w w' Hs].
  - by eapply send_queue_inv.
  - destruct IH. by split.
  - by eapply step_queue_inv.
Qed.

(** ** Answers and the log *)

(** The indices of the positive answers, in the order of the submissions. *)
Definition answer_index (ea : BatchEntry * answer SlateDBError) : option Z :=
  match ea.2 with Some (inr (i, _)) => Some i | _ => None end.
Definition answered_indices (w : Worker) : list Z := omap answer_index (answered w).

(** A positive answer is true of a log with the entries [P]. *)
Definition answer_true P (ea : BatchEntry * answer SlateDBError) : Prop :=
  match ea.2 with
  | Some (inr (i, sct)) =>
      sct_callback ea.1 i = Ok sct ∧
      ∃ p, P !! Z.to_nat i = Some p ∧ p_sct p = sct ∧ p_cert_hash p = cert_hash ea.1 ∧
        p_log_entry p = with_index i (p_leaf_data p) (log_entry ea.1)
  | _ => True
  end.

Record log_state (P0 : list Processed) (w : Worker) : Prop := {
  ls_log : ∃ P1 B, log_inv (w_tree w) (P0 ++ P1) B ∧ zlen P1 ≤ zlen (concat (batches w)) ∧
    Forall (answer_true (P0 ++ P1)) (answered w) ∧
    Forall (λ i, zlen P0 ≤ i < zlen (P0 ++ P1)) (answered_indices w);
  ls_answered : (answered w).*1 = concat (batches w);
  ls_sorted : StronglySorted Z.lt (answered_indices w);
}.

Lemma answer_true_mono P P' ea : answer_true P ea → answer_true (P ++ P') ea.
Proof.
  unfold answer_true. destruct (ea.2) as [[|[i sct]]|]; try done.
  intros (? & p & ? & ?). split; [done|]. exists p. split; [by apply lookup_app_l_Some|done].
Qed.

Lemma refused_zip entries answers :
  Forall refused answers →
  omap answer_index (zip entries answers) = [] ∧ ∀ P, Forall (answer_true P) (zip entries answers).
Proof.
  revert entries. induction answers as [|a l IH]; intros [|e es] Hr; try done.
  apply Forall_cons in Hr as [Ha Hr]. destruct (IH es Hr) as [H1' H2'].
  cbn [zip zip_with omap list_omap]. unfold answer_index at 1, answer_true. cbn [fst snd].
  destruct a as [[|[]]|]; [|done|]; (split; [done|intros P; constructor; [done|apply H2']]).
Qed.

Lemma accepted_indices n (k : nat) (entries : list BatchEntry) P' :
  length P' = length entries →
  omap answer_index (zip entries (imap (λ j p, accept n (k + j) p) P')) =
  map (λ j, n + Z.of_nat (k + j)) (seq 0 (length P')).
Proof.
  revert k entries. induction P' as [|p P' IH]; intros k [|e es] Hlen; try done.
  cbn [imap zip zip_with omap list_omap answer_index accept snd length seq map]. f_equal.
  injection Hlen as Hlen. rewrite <- seq_shift, map_map.
  rewrite (imap_ext _ (λ j p, accept n (S k + j) p)) by (intros j q _; unfold compose; by rewrite Nat.add_succ_r).
  rewrite IH by done. apply map_ext. intros j. by rewrite Nat.add_succ_r.
Qed.

Lemma seq_sorted (n : Z) a len :
  StronglySorted Z.lt (map (λ j, n + Z.of_nat j) (seq a len)).
Proof.
  revert a. induction len as [|len IH]; intros a; cbn [seq map]; constructor; [apply IH|].
  apply Forall_forall. intros x (j & -> & Hj)%list_elem_of_fmap. apply elem_of_seq in Hj. lia.
Qed.

Lemma sorted_app (l l' : list Z) (n : Z) :
  StronglySorted Z.lt l → StronglySorted Z.lt l' →
  Forall (λ i, i < n) l → Forall (λ i, n ≤ i) l' → StronglySorted Z.lt (l ++ l').
Proof.
  intros Hl Hl' Hb Hb'. induction Hl as [|x l Hl IH Hx]; [done|].
  apply Forall_cons in Hb as [Hxn Hb]. cbn. constructor; [by apply IH|].
  apply Forall_app. split; [done|]. eapply Forall_impl; [done|]. cbn. lia.
Qed.

Lemma processed_true P P' entries :
  zlen P + zlen entries < 2 ^ 64 → processed (zlen P) 0 entries P' →
  Forall (answer_true (P ++ P')) (zip entries (imap (accept (zlen P)) P')).
Proof.
  intros Hsz [Hlen Hall]. apply Forall_forall. intros [e a] Hin.
  apply elem_of_lookup_zip_with in Hin as (j & e' & a' & [= <- <-] & He & Ha).
  rewrite list_lookup_imap in Ha. destruct (Hall j e He) as (p & Hp & Hpe). rewrite Hp in Ha.
  injection Ha as <-. apply lookup_lt_Some in He.
  destruct (process_entry_inv (zlen P) j e p _ eq_refl ltac:(lia) ltac:(lia) Hpe)
    as (Hsct & Hch & _ & Hle & _). cbn. split; [done|]. exists p.
  split; [|done]. rewrite lookup_app_r by lia. by replace (_ - _)%nat with j by lia.
Qed.

(** The answers to a batch that was logged. *)
Lemma new_answers P P' entries answers :
  zlen P + zlen entries < 2 ^ 64 → processed (zlen P) 0 entries P' →
  answers = imap (accept (zlen P)) P' ∨ Forall refused answers →
  Forall (answer_true (P ++ P')) (zip entries answers) ∧
  StronglySorted Z.lt (omap answer_index (zip entries answers)) ∧
  Forall (λ i, zlen P ≤ i < zlen (P ++ P')) (omap answer_index (zip entries answers)).
Proof.
  intros Hsz Hp [->|Hr].
  - rewrite (accepted_indices (zlen P) 0) by apply Hp. split_and!.
    + by apply processed_true.
    + apply seq_sorted.
    + apply Forall_forall. intros x (j & -> & Hj)%list_elem_of_fmap. apply elem_of_seq in Hj.
      rewrite length_app. lia.
  - destruct (refused_zip entries answers Hr) as [-> Htrue].
    split_and!; [apply Htrue|constructor|constructor].
Qed.

Lemma send_same config e w w' r :
  try_send config e w = (r, w') →
  w_tree w' = w_tree w ∧ batches w' = batches w ∧ answered w' = answered w ∧
  zlen (accepted w) ≤ zlen (accepted w').
Proof.
  unfold try_send. destruct (at_phase w); try destruct (_ <=? _); intros [= _ <-]; cbn;
    rewrite ?length_app; split_and!; (done || lia).
Qed.

Lemma step_same config now fm dm w w' :
  worker_step config now fm dm w = Some w' →
  accepted w' = accepted w ∧
  ((w_tree w' = w_tree w ∧ batches w' = batches w ∧ answered w' = answered w) ∨
   ∃ last, at_phase w = Flushing last ∧ w' = flush fm dm last w).
Proof.
  unfold worker_step. destruct (at_phase w) as [| |last|]; [..|done].
  - destruct (queue w); [|by intros [= <-]; auto]. destruct (senders_open w).
    + destruct (oldest_entry_time w); [|done]. destruct (_ <=? now); [|done]. by intros [= <-]; auto.
    + destruct (pending_entries w); intros [= <-]; auto.
  - destruct (_ <? _); [destruct (queue w)|]; intros [= <-]; auto.
  - intros [= <-]. split; [|eauto]. unfold flush.
    destruct (flush_batch _ _ _ _ _) as [[[]|[]| |] ?]; done.
Qed.

Lemma accepted_length config w :
  queue_inv config w →
  zlen (concat (batches w)) + zlen (pending_entries w) + zlen (queue w) = zlen (accepted w).
Proof. intros Hi. rewrite (qi_fifo _ _ Hi), !length_app. lia. Qed.

Context (dedup_serializes : ∀ d : DeduplicatedLogEntry, ∃ b, to_stdvec d = Ok b).
Context (sct_serializes : ∀ e : CertificateSctEntry, ∃ b, to_stdvec e = Ok b).
Context (Hash32 : output_size = 32%nat).

(** What a flush does to the log and to the answers. *)
Lemma flush_log_state fm dm last P0 w :
  log_state P0 w → zlen P0 + zlen (concat (batches w)) + zlen (pending_entries w) ≤ 2 ^ 63 →
  log_state P0 (flush fm dm last w) ∧
  at_phase (flush fm dm last w) = if last then Exited else Waiting.
Proof.
  intros [(P1 & B & Hl & Hlen & Ht & Hi) Ha Hs] Hsz. unfold flush. set (ents := pending_entries w) in *.
  pose proof (flush_batch_spec dedup_serializes sct_serializes (w_tree w) (P0 ++ P1) B fm dm
    (w_stats w) ents Hash32 Hl) as Hspec.
  rewrite length_app in Hspec. specialize (Hspec ltac:(lia)). unfold spec in Hspec.
  destruct (flush_batch fm dm (w_stats w) ents (w_tree w)) as [[[answers stats']|[]| |] tree']; try done.
  split; [|done]. destruct Hspec as [Hal Hpost]. cbn [fst] in *.
  assert ((zip ents answers).*1 = ents) as Hz by (apply fst_zip; lia).
  destruct Hpost as [[[Hl' _] Hr]|(P' & Hp & Hl' & Hcase)].
  - destruct (refused_zip ents answers Hr) as [Hno Htrue]. split; cbn [w_tree batches answered].
    + exists P1, B. unfold answered_indices. cbn [answered]. rewrite omap_app, Hno, app_nil_r, concat_app, length_app.
      split; [done|]. split; [lia|]. split; [|done]. apply Forall_app. split; [done|apply Htrue].
    + rewrite fmap_app, Ha, Hz, concat_app. cbn. by rewrite app_nil_r.
    + unfold answered_indices. cbn [answered]. by rewrite omap_app, Hno, app_nil_r.
  - unfold extended in Hl'. rewrite <- app_assoc in Hl'. pose proof Hp as [Hpl _].
    assert (Forall (answer_true (P0 ++ P1 ++ P')) (answered w)) as Ht'.
    { eapply Forall_impl; [done|]. intros ea ?. rewrite app_assoc. by apply answer_true_mono. }
    assert (Forall (λ i, zlen P0 ≤ i < zlen (P0 ++ P1 ++ P')) (answered_indices w)) as Hi'.
    { eapply Forall_impl; [done|]. cbn. intros i. rewrite !length_app. lia. }
    assert (zlen (P1 ++ P') ≤ zlen (concat (batches w ++ [ents]))) as Hlen'.
    { rewrite concat_app, !length_app. cbn. rewrite app_nil_r. lia. }
    destruct (new_answers (P0 ++ P1) P' ents answers) as (Hnt & Hns & Hni);
      [rewrite length_app; lia|done|done|].
    rewrite <- !app_assoc in Hnt, Hni.
    split; cbn [w_tree batches answered]; unfold answered_indices; cbn [answered].
    + exists (P1 ++ P'), (new_bounds B (zlen (P0 ++ P1 ++ P'))). split; [done|]. split; [done|].
      split; [by apply Forall_app|]. rewrite omap_app. apply Forall_app. split; [done|].
      eapply Forall_impl; [exact Hni|]. cbn. intros i. rewrite length_app. lia.
    + rewrite fmap_app, Ha, Hz, concat_app. cbn. by rewrite app_nil_r.
    + rewrite omap_app. eapply sorted_app; [done|done| |].
      * eapply Forall_impl; [exact Hi|]. cbn. intros i [_ Hx]. exact Hx.
      * eapply Forall_impl; [exact Hni|]. cbn. lia.
Qed.

Lemma log_state_same P0 w w' :
  w_tree w' = w_tree w → batches w' = batches w → answered w' = answered w →
  log_state P0 w → log_state P0 w'.
Proof.
  intros Ht Hb Ha [Hl Hw Hs]. unfold answered_indices in *.
  split; unfold answered_indices; rewrite ?Ht, ?Hb, ?Ha; done.
Qed.

Lemma reachable_log_state config tree P0 B0 w :
  log_inv tree P0 B0 → reachable config tree w → zlen P0 + zlen (accepted w) ≤ 2 ^ 63 →
  log_state P0 w.
Proof.
  intros H0' Hr. induction Hr as [|w w' Hr IH Hs]; intros Hsz.
  { split; [|done|constructor]. exists [], B0. rewrite app_nil_r. split; [done|].
    split; [done|]. split; constructor. }
  destruct Hs as [e w w' _ Hs|w|now fm dm w w' Hs].
  - apply send_same in Hs as (? & ? & ? & ?). apply (log_state_same P0 w); [done..|]. apply IH. lia.
  - apply (log_state_same P0 w); [done..|]. by apply IH.
  - pose proof (accepted_length _ _ (reachable_queue_inv _ _ _ Hr)).
    apply step_same in Hs as [Hacc [(? & ? & ?)|(last & Hph & ->)]].
    + apply (log_state_same P0 w); [done..|]. apply IH. by rewrite <- Hacc.
    + rewrite Hacc in Hsz. apply flush_log_state; [by apply IH|lia].
Qed.

(** ** Draining *)

(** A bound on the steps that the worker takes once the senders are gone. *)
Definition remaining (w : Worker) : nat :=
  4 * length (queue w) +
  match at_phase w with
  | Waiting => 3
  | Draining => 5
  | Flushing false => 4
  | Flushing true => 1
  | Exited => 0
  end.

Lemma step_remaining config now fm dm P0 w w' :
  senders_open w = false → log_state P0 w → zlen P0 + zlen (concat (batches w)) + zlen (pending_entries w) ≤ 2 ^ 63 →
  worker_step config now fm dm w = Some w' → (remaining w' < remaining w)%nat.
Proof.
  intros Hc Hl Hsz. unfold worker_step, remaining. destruct (at_phase w) as [| |last|] eqn:Hph; [..|done].
  - destruct (queue w) eqn:Hq; [|intros [= <-]; cbn; lia]. rewrite Hc.
    destruct (pending_entries w); intros [= <-]; cbn; rewrite Hq; cbn; lia.
  - destruct (_ <? _); [destruct (queue w) eqn:Hq|]; intros [= <-]; cbn; rewrite ?Hq; cbn; lia.
  - intros [= <-]. destruct (flush_log_state fm dm last P0 w Hl Hsz) as [_ ->].
    assert (queue (flush fm dm last w) = queue w) as ->.
    { unfold flush. by destruct (flush_batch _ _ _ _ _) as [[[]|[]| |] ?]. }
    destruct last; lia.
Qed.

Lemma step_closed config now fm dm w w' :
  senders_open w = false → worker_step config now fm dm w = Some w' → senders_open w' = false.
Proof.
  intros Hc. unfold worker_step. destruct (at_phase w) as [| |last|]; [..|done].
  - rewrite Hc. destruct (queue w); [destruct (pending_entries w)|]; by intros [= <-].
  - destruct (_ <? _); [destruct (queue w)|]; by intros [= <-].
  - intros [= <-]. unfold flush. by destruct (flush_batch _ _ _ _ _) as [[[]|[]| |] ?].
Qed.

Lemma closed_progress config now fm dm w :
  senders_open w = false → at_phase w ≠ Exited → is_Some (worker_step config now fm dm w).
Proof.
  intros Hc Hph. unfold worker_step. destruct (at_phase w); [..|done].
  - destruct (queue w); [|eauto]. rewrite Hc. destruct (pending_entries w); eauto.
  - destruct (_ <? _); [destruct (queue w)|]; eauto.
  - eauto.
Qed.

(** The worker exits with nothing left in the queue or the batch. *)
Definition exit_inv (w : Worker) : Prop :=
  (at_phase w = Exited ∨ at_phase w = Flushing true → senders_open w = false ∧ queue w = []) ∧
  (at_phase w = Exited → pending_entries w = []).

Lemma flush_fields fm dm last w :
  queue (flush fm dm last w) = queue w ∧ senders_open (flush fm dm last w) = senders_open w ∧
  pending_entries (flush fm dm last w) = [].
Proof. unfold flush. by destruct (flush_batch _ _ _ _ _) as [[[]|[]| |] ?]. Qed.

Lemma step_exit_inv config now fm dm P0 w w' :
  log_state P0 w → zlen P0 + zlen (concat (batches w)) + zlen (pending_entries w) ≤ 2 ^ 63 →
  exit_inv w → worker_step config now fm dm w = Some w' → exit_inv w'.
Proof.
  intros Hl Hsz [H1' H2']. unfold worker_step, exit_inv in *.
  destruct (at_phase w) as [| |last|] eqn:Hph; [..|done].
  - destruct (queue w) eqn:Hq; [|intros [= <-]; cbn; split; [by intros [?|?]|done]].
    destruct (senders_open w) eqn:Ho.
    + destruct (oldest_entry_time w); [|done]. destruct (_ <=? now); [|done].
      intros [= <-]. cbn. split; [by intros [?|?]|done].
    + destruct (pending_entries w) eqn:Hp; intros [= <-]; cbn; by rewrite Ho, Hq, ?Hp.
  - destruct (_ <? _); [destruct (queue w)|]; intros [= <-]; cbn; (split; [by intros [?|?]|done]).
  - intros [= <-]. destruct (flush_log_state fm dm last P0 w Hl Hsz) as [_ ->].
    destruct (flush_fields fm dm last w) as (-> & -> & ->).
    destruct last; (split; [|done]); intros [?|?]; try done. apply H1'. auto.
Qed.

Lemma reachable_exit_inv config tree P0 B0 w :
  log_inv tree P0 B0 → reachable config tree w → zlen P0 + zlen (accepted w) ≤ 2 ^ 63 → exit_inv w.
Proof.
  intros H0' Hr. induction Hr as [|w w' Hr IH Hs]; intros Hsz.
  { split; [by intros [?|?]|done]. }
  pose proof (accepted_length _ _ (reachable_queue_inv _ _ _ Hr)) as Hal.
  destruct Hs as [e w w' Ho Hs|w|now fm dm w w' Hs].
  - pose proof (send_same _ _ _ _ _ Hs) as (_ & _ & _ & Hle). destruct IH as [H1' H2']; [lia|].
    revert Hs. unfold try_send. destruct (at_phase w) as [| |[]|] eqn:Hph; try done;
      destruct (_ <=? _); try done; intros [= <-]; unfold exit_inv; cbn; rewrite ?Hph;
      (split; [|done]); intros [?|?]; try done. destruct H1'; [by right|congruence].
  - destruct IH as [H1' H2']; [done|]. split; [|done]. intros Hx. split; [done|by apply H1'].
  - pose proof (step_same _ _ _ _ _ _ Hs) as [Hacc _]. rewrite Hacc in Hsz.
    eapply step_exit_inv; [by eapply reachable_log_state|lia|by apply IH|done].
Qed.

Lemma run_exits config tree clock P0 B0 fuel w :
  log_inv tree P0 B0 → reachable config tree w → zlen P0 + zlen (accepted w) ≤ 2 ^ 63 →
  senders_open w = false → (remaining w ≤ fuel)%nat →
  let w' := run_worker config clock fuel w in
  reachable config tree w' ∧ at_phase w' = Exited ∧ accepted w' = accepted w.
Proof.
  intros H0'. revert w. induction fuel as [|fuel IH]; intros w Hr Hsz Hc Hrem.
  { cbn. split; [done|]. split; [|done]. unfold remaining in Hrem.
    by destruct (at_phase w) as [| |[]|]; try lia. }
  cbn [run_worker]. destruct (clock (S fuel)) as [[now fm] dm].
  destruct (worker_step config now fm dm w) as [w'|] eqn:Hs.
  - pose proof (accepted_length _ _ (reachable_queue_inv _ _ _ Hr)).
    pose proof (step_same _ _ _ _ _ _ Hs) as [Hacc _].
    pose proof (reachable_log_state config tree P0 B0 w H0' Hr Hsz) as Hl.
    pose proof (step_remaining _ _ _ _ P0 _ _ Hc Hl ltac:(lia) Hs).
    rewrite <- Hacc. apply IH; [by eapply reach_step, sys_work|by rewrite Hacc|by eapply step_closed|lia].
  - cbn. split; [done|]. split; [|done]. destruct (at_phase w) eqn:Hph; try done;
      pose proof (closed_progress config now fm dm w Hc ltac:(congruence)) as Hp;
      rewrite Hs in Hp; by destruct Hp.
Qed.

Lemma run_drains config tree clock P0 B0 w :
  log_inv tree P0 B0 → reachable config tree w → zlen P0 + zlen (accepted w) ≤ 2 ^ 63 →
  senders_open w = false →
  let w' := run_worker config clock (remaining w) w in
  at_phase w' = Exited ∧ (answered w').*1 = accepted w.
Proof.
  intros H0' Hr Hsz Hc w'.
  destruct (run_exits config tree clock P0 B0 (remaining w) w H0' Hr Hsz Hc (le_n _)) as (Hr' & Hx & Ha).
  fold w' in Hr', Hx, Ha. split; [done|]. rewrite <- Ha in *.
  destruct (reachable_exit_inv config tree P0 B0 w' H0' Hr' Hsz) as [H1' H2'].
  rewrite (ls_answered _ _ (reachable_log_state config tree P0 B0 w' H0' Hr' Hsz)).
  rewrite (qi_fifo _ _ (reachable_queue_inv _ _ _ Hr')), (H2' Hx).
  destruct H1' as [_ ->]; [by left|]. by rewrite !app_nil_r.
Qed.

(** ** Properties *)

(** C19: however callers and the worker interleave, the queue is first in, first
    out and loses nothing: the batches flushed so far, the batch being collected
    and the queue are together the entries accepted, in order; batches are never
    empty and never larger than the configured size, the queue never exceeds its
    capacity, and a worker that waits with entries in hand has a deadline. *)
Theorem worker_queue_invariant config tree w : reachable config tree w → queue_inv config w.
Proof. apply reachable_queue_inv. Qed.



End Correct.
