(* ===== verification/Metrics.v ===== *)
(** * Metrics

    src/src/metrics.rs, the metrics the server registers at its start, and
    [metrics_worker] of src/src/storage/mod.rs, the task that reports every five
    seconds what the batch worker and the database did meanwhile.  The registry of
    crate [prometheus] is a parameter; the floating-point arithmetic is that of
    the Standard Library's specification of IEEE 754. *)

From Stdlib Require Import QArith.QArith Floats.SpecFloat.
From S2P Require Import Prelude KvStore TreeStore Types MerkleStorage CtStorage CtWorker.
#[local] Open Scope Z_scope.

(** ** The metrics of the server *)

Inductive MetricKind := IntCounterVec | HistogramVec | IntGauge | Gauge | GaugeVec.

Record Metric := {
  m_kind : MetricKind;
  m_name : string;
  m_help : string;
  m_labels : list string;
  m_buckets : list Q;
}.

Definition register_int_counter_vec (name help : string) (labels : list string) : Metric :=
  {| m_kind := IntCounterVec; m_name := name; m_help := help; m_labels := labels; m_buckets := [] |}.
Definition register_histogram_vec (name help : string) (labels : list string) (buckets : list Q) :
    Metric :=
  {| m_kind := HistogramVec; m_name := name; m_help := help; m_labels := labels;
     m_buckets := buckets |}.
Definition register_int_gauge (name help : string) : Metric :=
  {| m_kind := IntGauge; m_name := name; m_help := help; m_labels := []; m_buckets := [] |}.
Definition register_gauge (name help : string) : Metric :=
  {| m_kind := Gauge; m_name := name; m_help := help; m_labels := []; m_buckets := [] |}.
Definition register_gauge_vec (name help : string) (labels : list string) : Metric :=
  {| m_kind := GaugeVec; m_name := name; m_help := help; m_labels := labels; m_buckets := [] |}.

Definition HTTP_REQUESTS_TOTAL : Metric := register_int_counter_vec
  "http_requests_total" "Total number of HTTP requests" ["endpoint"; "method"; "status"].
Definition HTTP_REQUEST_DURATION_SECONDS : Metric := register_histogram_vec
  "http_request_duration_seconds" "HTTP request duration in seconds" ["endpoint"; "method"]
  [0.001; 0.005; 0.01; 0.025; 0.05; 0.1; 0.25; 0.5; 1.0; 2.5; 5.0; 10.0]%Q.
Definition CERTIFICATE_SUBMISSIONS_TOTAL : Metric := register_int_counter_vec
  "certificate_submissions_total" "Total number of certificate submissions" ["type"; "status"].
Definition STORAGE_QUEUE_DEPTH : Metric := register_int_gauge
  "storage_queue_depth" "Current depth of the storage queue".
Definition STORAGE_QUEUE_CAPACITY : Metric := register_int_gauge
  "storage_queue_capacity" "Maximum capacity of the storage queue".
Definition STORAGE_BATCHES_FLUSHED : Metric := register_int_counter_vec
  "storage_batches_flushed_total" "Total number of storage batches flushed" ["status"].
Definition STORAGE_ENTRIES_PROCESSED : Metric := register_int_counter_vec
  "storage_entries_processed_total" "Total number of entries processed by storage" ["type"].
Definition STORAGE_FLUSH_DURATION_SECONDS : Metric := register_histogram_vec
  "storage_flush_duration_seconds" "Duration of storage flush operations in seconds" ["status"]
  [0.01; 0.05; 0.1; 0.25; 0.5; 1.0; 2.5; 5.0; 10.0]%Q.
Definition MERKLE_TREE_SIZE : Metric := register_int_gauge
  "merkle_tree_size" "Current size of the Merkle tree (number of entries)".
Definition DEDUPLICATED_CERTIFICATES : Metric := register_int_counter_vec
  "deduplicated_certificates_total" "Total number of deduplicated certificates" ["type"].
Definition CACHE_HITS : Metric := register_int_counter_vec
  "cache_hits_total" "Total number of cache hits" ["cache_type"].
Definition CACHE_MISSES : Metric := register_int_counter_vec
  "cache_misses_total" "Total number of cache misses" ["cache_type"].
Definition ACTIVE_CONNECTIONS : Metric := register_gauge
  "active_connections" "Number of active HTTP connections".
Definition CERTIFICATE_CHAIN_LENGTH : Metric := register_histogram_vec
  "certificate_chain_length" "Length of certificate chains submitted" ["type"]
  [1.0; 2.0; 3.0; 4.0; 5.0; 10.0]%Q.
Definition VALIDATION_DURATION_SECONDS : Metric := register_histogram_vec
  "validation_duration_seconds" "Duration of certificate validation in seconds" ["type"]
  [0.001; 0.005; 0.01; 0.025; 0.05; 0.1; 0.25; 0.5; 1.0]%Q.
Definition GET_ENTRIES_REQUESTS : Metric := register_int_counter_vec
  "get_entries_requests_total" "Total number of get-entries requests" ["status"].
Definition GET_ENTRIES_BATCH_SIZE : Metric := register_histogram_vec
  "get_entries_batch_size" "Number of entries requested in get-entries calls" []
  [1.0; 10.0; 50.0; 100.0; 250.0; 500.0; 1000.0]%Q.
Definition INCLUSION_PROOF_REQUESTS : Metric := register_int_counter_vec
  "inclusion_proof_requests_total" "Total number of inclusion proof requests" ["status"].
Definition CONSISTENCY_PROOF_REQUESTS : Metric := register_int_counter_vec
  "consistency_proof_requests_total" "Total number of consistency proof requests" ["status"].
Definition HEALTH_CHECK_STATUS : Metric := register_gauge_vec
  "health_check_status" "Health check status (1 = healthy, 0 = unhealthy)" ["component"].
Definition STATIC_CT_CHECKPOINT_REQUESTS : Metric := register_int_counter_vec
  "static_ct_checkpoint_requests_total" "Total number of static CT checkpoint requests" ["status"].
Definition STATIC_CT_TILE_REQUESTS : Metric := register_int_counter_vec
  "static_ct_tile_requests_total" "Total number of static CT tile requests" ["tile_type"; "status"].
Definition STATIC_CT_ISSUER_REQUESTS : Metric := register_int_counter_vec
  "static_ct_issuer_requests_total" "Total number of static CT issuer lookup requests" ["status"].
Definition STATIC_CT_TILE_SIZE_BYTES : Metric := register_histogram_vec
  "static_ct_tile_size_bytes" "Size of static CT tiles in bytes" ["tile_type"]
  [1024.0; 4096.0; 16384.0; 65536.0; 262144.0; 1048576.0]%Q.

(** The statics that [init_metrics] initializes, in its order. *)
Definition initialized : list Metric :=
  [HTTP_REQUESTS_TOTAL; HTTP_REQUEST_DURATION_SECONDS; CERTIFICATE_SUBMISSIONS_TOTAL;
   STORAGE_QUEUE_DEPTH; STORAGE_QUEUE_CAPACITY; STORAGE_BATCHES_FLUSHED;
   STORAGE_ENTRIES_PROCESSED; STORAGE_FLUSH_DURATION_SECONDS; MERKLE_TREE_SIZE;
   DEDUPLICATED_CERTIFICATES; CACHE_HITS; CACHE_MISSES; ACTIVE_CONNECTIONS;
   CERTIFICATE_CHAIN_LENGTH; VALIDATION_DURATION_SECONDS; GET_ENTRIES_REQUESTS;
   GET_ENTRIES_BATCH_SIZE; INCLUSION_PROOF_REQUESTS; CONSISTENCY_PROOF_REQUESTS;
   HEALTH_CHECK_STATUS; STATIC_CT_CHECKPOINT_REQUESTS; STATIC_CT_TILE_REQUESTS;
   STATIC_CT_ISSUER_REQUESTS; STATIC_CT_TILE_SIZE_BYTES].

(** The registry of crate [prometheus]: the names taken, and a registration
    that can be refused. *)
Class Registry := {
  registry : Type;
  names : registry → list string;
  register : Metric → registry → option registry;
}.

(** A name of the data model: letters, digits and underscores, the first not a
    digit (colons are for rules). *)
Definition name_char (a : Ascii.ascii) : bool :=
  let n := Z.of_nat (Ascii.nat_of_ascii a) in
  ((97 <=? n) && (n <=? 122)) || ((65 <=? n) && (n <=? 90)) || (n =? 95) || ((48 <=? n) && (n <=? 57)).
Definition valid_name (s : string) : bool :=
  match String.list_ascii_of_string s with
  | [] => false
  | a :: _ => negb ((48 <=? Z.of_nat (Ascii.nat_of_ascii a)) && (Z.of_nat (Ascii.nat_of_ascii a) <=? 57))
              && forallb name_char (String.list_ascii_of_string s)
  end.
Fixpoint increasing (l : list Q) : bool :=
  match l with
  | a :: (b :: _) as r => (Qle_bool a b && negb (Qeq_bool a b)) && increasing r
  | _ => true
  end.
(** A well-formed description: a label [le] is reserved in histograms, whose
    buckets must increase. *)
Definition well_formed (m : Metric) : bool :=
  valid_name (m_name m) && negb (bool_decide (m_help m = EmptyString)) && forallb valid_name (m_labels m)
  && bool_decide (NoDup (m_labels m))
  && match m_kind m with
     | HistogramVec => negb (bool_decide ("le" ∈ m_labels m)) && increasing (m_buckets m)
     | _ => true
     end.

(** A well-formed metric with a new name is registered. *)
Class RegistryLaws `{Registry} := {
  register_law m r : well_formed m = true → m_name m ∉ names r →
    ∃ r', register m r = Some r' ∧ names r' = m_name m :: names r;
}.

(** [init_metrics]: each static is registered, with [unwrap]. *)
Fixpoint init_statics `{Registry} (l : list Metric) (r : registry) : res Empty_set registry :=
  match l with
  | [] => Ok r
  | m :: l' => match register m r with Some r' => init_statics l' r' | None => Panic end
  end.
Definition init_metrics `{Registry} (r : registry) : res Empty_set registry :=
  init_statics initialized r.

Section Registration.
  Context `{RegistryLaws}.

Lemma init_statics_ok l r :
  forallb well_formed l = true → NoDup (map m_name l) →
  (∀ m, m ∈ l → m_name m ∉ names r) →
  ∃ r', init_statics l r = Ok r' ∧ names r' = rev (map m_name l) ++ names r.
Proof.
  revert r. induction l as [|m l IH]; intros r Hwf Hnd Hnew; [by exists r|].
  cbn [forallb map init_statics] in *. apply andb_true_iff in Hwf as [Hm Hwf].
  apply NoDup_cons in Hnd as [Hnin Hnd].
  destruct (register_law m r Hm) as (r1 & -> & Hr1); [apply Hnew; set_solver|].
  destruct (IH r1 Hwf Hnd) as (r2 & Hr2 & Hn2).
  { intros m' Hm'. rewrite Hr1. apply not_elem_of_cons. split; [|apply Hnew; set_solver].
    intros Heq. apply Hnin. rewrite <- Heq. apply list_elem_of_fmap. by exists m'. }
  exists r2. split; [done|]. rewrite Hn2, Hr1. cbn [rev]. by rewrite <- app_assoc.
Qed.

(** No registration of [init_metrics] fails: the names are distinct and all
    metrics well formed, so that with a fresh registry the server starts without
    a panic, and every metric is then registered. *)
Theorem init_metrics_total r :
  names r = [] → ∃ r', init_metrics r = Ok r' ∧ ∀ m, m ∈ initialized → m_name m ∈ names r'.
Proof.
  intros Hr. destruct (init_statics_ok initialized r) as (r' & Hr' & Hn).
  - by vm_compute.
  - by apply (bool_decide_eq_true (NoDup (map m_name initialized))).
  - intros m _. rewrite Hr. apply not_elem_of_nil.
  - exists r'. split; [done|]. intros m Hm. rewrite Hn, Hr, app_nil_r.
    apply list_elem_of_In, in_rev. rewrite rev_involutive. apply list_elem_of_In, list_elem_of_fmap.
    by exists m.
Qed.

End Registration.

(** ** [f64] *)

Abbreviation f64 := spec_float.
Definition f64_of (n : Z) : f64 := binary_normalize 53 1024 n 0 false.
Definition f64_div : f64 → f64 → f64 := SFdiv 53 1024.
Definition f64_mul : f64 → f64 → f64 := SFmul 53 1024.
Definition f64_gt (x y : f64) : bool := SFltb y x.
(** [as u64]: truncated and saturating, not a number is 0. *)
Definition f64_as_u64 (x : f64) : Z :=
  match x with
  | S754_finite false m e => Z.min (Z.shiftl (Z.pos m) e) U64_MAX
  | S754_infinity false => U64_MAX
  | _ => 0
  end.

(** ** [metrics_worker] *)

Definition saturating_sub (a b : Z) : Z := Z.max 0 (a - b).

(** What the worker remembers between two ticks. *)
Record Reporter := {
  last_stats : BatchStats;
  last_read_ops : Z;
  last_read_bytes : Z;
}.
Definition Reporter_new : Reporter :=
  {| last_stats := BatchStats_default; last_read_ops := 0; last_read_bytes := 0 |}.

(** What was flushed in an interval. *)
Record Interval := {
  interval_batches : Z;
  interval_entries : Z;
  interval_time_ms : Z;
  interval_certs_checked : Z;
  interval_certs_deduped : Z;
  interval_bytes_saved : Z;
  interval_dedup_time : Z;
}.
Definition interval_of (stats last : BatchStats) : Interval :=
  {| interval_batches := saturating_sub (batches_flushed stats) (batches_flushed last);
     interval_entries := saturating_sub (total_entries stats) (total_entries last);
     interval_time_ms := saturating_sub (total_flush_time_ms stats) (total_flush_time_ms last);
     interval_certs_checked := saturating_sub (total_certs_checked stats) (total_certs_checked last);
     interval_certs_deduped :=
       saturating_sub (total_certs_deduplicated stats) (total_certs_deduplicated last);
     interval_bytes_saved := saturating_sub (total_bytes_saved stats) (total_bytes_saved last);
     interval_dedup_time :=
       saturating_sub (total_dedup_check_time_ms stats) (total_dedup_check_time_ms last) |}.

(** The values of the two log lines. *)
Record BatchReport := {
  batches_in_interval : Z;
  avg_batch_size : Z;
  avg_flush_time : Z;
  throughput : Z;
  dedup_rate : f64;
  certs_deduped : Z;
  certs_checked : Z;
  kb_saved : Z;
  dedup_time : Z;
}.
Record ReadReport := { read_ops_per_sec : Z; read_mb_per_sec : Z; avg_read_kb : Z }.

Definition batch_report (i : Interval) : option BatchReport :=
  if 0 <? interval_batches i then
    Some {| batches_in_interval := interval_batches i;
            avg_batch_size := interval_entries i / interval_batches i;
            avg_flush_time := interval_time_ms i / interval_batches i;
            throughput := f64_as_u64 (f64_div (f64_of (interval_entries i)) (f64_of 5));
            dedup_rate := if 0 <? interval_certs_checked i
                          then f64_mul (f64_div (f64_of (interval_certs_deduped i))
                                          (f64_of (interval_certs_checked i))) (f64_of 100)
                          else f64_of 0;
            certs_deduped := interval_certs_deduped i;
            certs_checked := interval_certs_checked i;
            kb_saved := interval_bytes_saved i / 1024;
            dedup_time := interval_dedup_time i |}
  else None.

Definition read_report (read_ops_delta read_bytes_delta : Z) : option ReadReport :=
  if 0 <? read_ops_delta then
    Some {| read_ops_per_sec := read_ops_delta / 5;
            read_mb_per_sec := read_bytes_delta / 5 / 1000000;
            avg_read_kb := read_bytes_delta / read_ops_delta / 1024 |}
  else None.

(** The gauges that are set. *)
Inductive Health := Unhealthy | Degraded | Healthy.
Record Gauges := { queue_depth : Z; queue_capacity : Z; storage_queue_health : Health }.

Definition utilization_percent (current_depth max_capacity : Z) : f64 :=
  f64_mul (f64_div (f64_of current_depth) (f64_of max_capacity)) (f64_of 100).
Definition queue_health (current_depth max_capacity : Z) : Health :=
  let utilization_percent := utilization_percent current_depth max_capacity in
  if f64_gt utilization_percent (f64_of 90) then Unhealthy
  else if f64_gt utilization_percent (f64_of 75) then Degraded
  else Healthy.

(** One tick, with the capacity left in the channel and what [get_read_stats]
    returns. *)
Definition metrics_tick (capacity max_capacity : Z) (stats : BatchStats) (read_stats : Z * Z)
    (self : Reporter) : (Gauges * option BatchReport * option ReadReport) * Reporter :=
  let current_depth := max_capacity -! capacity in
  let '(current_read_ops, current_read_bytes) := read_stats in
  ({| queue_depth := current_depth; queue_capacity := max_capacity;
      storage_queue_health := queue_health current_depth max_capacity |},
   batch_report (interval_of stats (last_stats self)),
   read_report (saturating_sub current_read_ops (last_read_ops self))
     (saturating_sub current_read_bytes (last_read_bytes self)),
   {| last_stats := stats; last_read_ops := current_read_ops;
      last_read_bytes := current_read_bytes |}).

(** ** What the reports say *)

(** The flushes of the batch worker between two ticks: size, time, certificates
    seen, certificates skipped, bytes saved, time of the check. *)
Record Flushed := {
  f_size : Z; f_ms : Z; f_certs : Z; f_skipped : Z; f_bytes : Z; f_dedup_ms : Z;
}.
Definition record_flush (stats : BatchStats) (f : Flushed) : BatchStats :=
  record_stats (f_size f) (f_ms f) (f_certs f) (f_skipped f) (f_bytes f) (f_dedup_ms f) stats.
Definition record_flushes (l : list Flushed) (stats : BatchStats) : BatchStats :=
  fold_left record_flush l stats.

Fixpoint zsum (l : list Z) : Z := match l with [] => 0 | x :: l' => x + zsum l' end.

Lemma zsum_app l k : zsum (l ++ k) = zsum l + zsum k.
Proof. induction l as [|x l IH]; cbn; [done|]. rewrite IH. lia. Qed.

Lemma zsum_nonneg l : Forall (λ x, 0 ≤ x) l → 0 ≤ zsum l.
Proof. induction 1; cbn; lia. Qed.

Lemma zsum_bounds a b l : Forall (λ x, a ≤ x ≤ b) l → a * zlen l ≤ zsum l ≤ b * zlen l.
Proof. induction 1 as [|x l Hx _ IH]; cbn [zsum length] in *; lia. Qed.

(** Counters that do not overflow. *)
Lemma record_flushes_counts l stats :
  Forall (λ f, 0 ≤ f_size f ∧ 0 ≤ f_ms f) l →
  0 ≤ batches_flushed stats → batches_flushed stats + zlen l < 2 ^ 64 →
  0 ≤ total_entries stats → total_entries stats + zsum (map f_size l) < 2 ^ 64 →
  0 ≤ total_flush_time_ms stats → total_flush_time_ms stats + zsum (map f_ms l) < 2 ^ 64 →
  batches_flushed (record_flushes l stats) = batches_flushed stats + zlen l ∧
  total_entries (record_flushes l stats) = total_entries stats + zsum (map f_size l) ∧
  total_flush_time_ms (record_flushes l stats) = total_flush_time_ms stats + zsum (map f_ms l).
Proof.
  intros Hl. revert stats. induction Hl as [|f l [Hs Hm] Hl IH]; intros stats Hb0 Hb He0 He Ht0 Ht.
  { cbn in *. lia. }
  pose proof (zsum_nonneg (map f_size l)) as Hns. pose proof (zsum_nonneg (map f_ms l)) as Hnm.
  rewrite !Forall_map in Hns, Hnm.
  specialize (Hns ltac:(eapply Forall_impl; [exact Hl|cbn; tauto])).
  specialize (Hnm ltac:(eapply Forall_impl; [exact Hl|cbn; tauto])).
  cbn [map zsum length] in *.
  change (record_flushes (f :: l) stats) with (record_flushes l (record_flush stats f)).
  assert (batches_flushed (record_flush stats f) = batches_flushed stats + 1) as E1 by (apply u64_small; lia).
  assert (total_entries (record_flush stats f) = total_entries stats + f_size f) as E2 by (apply u64_small; lia).
  assert (total_flush_time_ms (record_flush stats f) = total_flush_time_ms stats + f_ms f) as E3
    by (apply u64_small; lia).
  destruct (IH (record_flush stats f)) as (H1 & H2 & H3); rewrite ?E1, ?E2, ?E3; try lia.
Qed.

(** The average batch size that is reported for an interval lies between
    the smallest and the largest batch flushed in it, and the batches reported
    are those flushed; a report is made exactly if there were any. *)
Theorem batch_report_average l stats a b :
  Forall (λ f, a ≤ f_size f ≤ b ∧ 0 ≤ f_size f ∧ 0 ≤ f_ms f) l →
  0 ≤ batches_flushed stats → batches_flushed stats + zlen l < 2 ^ 64 →
  0 ≤ total_entries stats → total_entries stats + zsum (map f_size l) < 2 ^ 64 →
  0 ≤ total_flush_time_ms stats → total_flush_time_ms stats + zsum (map f_ms l) < 2 ^ 64 →
  match batch_report (interval_of (record_flushes l stats) stats) with
  | Some r => batches_in_interval r = zlen l ∧ l ≠ [] ∧ a ≤ avg_batch_size r ≤ b ∧
              avg_batch_size r = zsum (map f_size l) / zlen l
  | None => l = []
  end.
Proof.
  intros Hl Hb0 Hb He0 He Ht0 Ht.
  destruct (record_flushes_counts l stats) as (E1 & E2 & E3); try done.
  { eapply Forall_impl; [exact Hl|cbn; tauto]. }
  assert (0 ≤ zsum (map f_size l)) as Hns.
  { apply zsum_nonneg, Forall_map. eapply Forall_impl; [exact Hl|cbn; tauto]. }
  assert (a * zlen l ≤ zsum (map f_size l) ≤ b * zlen l) as Hbounds.
  { rewrite <- (length_map f_size l). apply zsum_bounds, Forall_map.
    eapply Forall_impl; [exact Hl|cbn; tauto]. }
  unfold batch_report, interval_of, saturating_sub. cbn [interval_batches interval_entries].
  rewrite E1, E2. replace (Z.max 0 (batches_flushed stats + zlen l - batches_flushed stats)) with (zlen l) by lia.
  replace (Z.max 0 (total_entries stats + zsum (map f_size l) - total_entries stats)) with
    (zsum (map f_size l)) by lia.
  destruct (Z.ltb_spec 0 (zlen l)) as [Hpos|Hz]; cbn [batches_in_interval avg_batch_size].
  - split; [done|]. split; [by destruct l|]. split; [|done]. split.
    + apply Z.div_le_lower_bound; lia.
    + apply Z.div_le_upper_bound; lia.
  - destruct l; [done|]. cbn [length] in Hz. lia.
Qed.

(** Runs of the worker: ticks over the statistics seen. *)
Fixpoint run_ticks (ticks : list (Z * Z * BatchStats * (Z * Z))) (self : Reporter) :
    list Interval * Reporter :=
  match ticks with
  | [] => ([], self)
  | (capacity, max_capacity, stats, read_stats) :: ticks' =>
      let (l, self') := run_ticks ticks' (metrics_tick capacity max_capacity stats read_stats self).2 in
      (interval_of stats (last_stats self) :: l, self')
  end.

(** Statistics that only grow. *)
Fixpoint growing (last : BatchStats) (l : list BatchStats) : Prop :=
  match l with
  | [] => True
  | s :: l' => batches_flushed last ≤ batches_flushed s ∧ total_entries last ≤ total_entries s ∧
               total_certs_deduplicated last ≤ total_certs_deduplicated s ∧ growing s l'
  end.

(** Nothing is reported twice or left out: whenever the ticks fall, the
    intervals reported add up to what was flushed between the first and the last
    tick. *)
Theorem intervals_telescope ticks self :
  growing (last_stats self) (map (λ t, t.1.2) ticks) →
  let (l, self') := run_ticks ticks self in
  zsum (map interval_batches l) = batches_flushed (last_stats self') - batches_flushed (last_stats self) ∧
  zsum (map interval_entries l) = total_entries (last_stats self') - total_entries (last_stats self) ∧
  zsum (map interval_certs_deduped l) =
    total_certs_deduplicated (last_stats self') - total_certs_deduplicated (last_stats self).
Proof.
  revert self. induction ticks as [|[[[cap mx] stats] [ops bs]] ticks IH]; intros self Hg; [cbn; lia|].
  cbn [run_ticks map growing fst snd] in *. destruct Hg as (Hb & He & Hd & Hg).
  specialize (IH (metrics_tick cap mx stats (ops, bs) self).2 Hg).
  destruct (run_ticks ticks _) as [l self']. cbn [metrics_tick snd last_stats] in IH.
  cbn [map zsum interval_of interval_batches interval_entries interval_certs_deduped].
  unfold saturating_sub. lia.
Qed.

(** With the default configuration the queue is reported as unhealthy
    exactly above 90 % and as degraded exactly above 75 % of its capacity: the
    floating-point division is exact enough for every depth. *)
Theorem queue_health_default depth :
  let cap := channel_capacity BatchConfig_default in
  0 ≤ depth ≤ cap →
  queue_health depth cap =
    if cap * 90 <? depth * 100 then Unhealthy else if cap * 75 <? depth * 100 then Degraded else Healthy.
Proof.
  cbv zeta. change (channel_capacity BatchConfig_default) with 4000. intros Hd.
  assert (forallb (λ d, match queue_health d 4000,
    (if 4000 * 90 <? d * 100 then Unhealthy else if 4000 * 75 <? d * 100 then Degraded else Healthy) with
    | Unhealthy, Unhealthy | Degraded, Degraded | Healthy, Healthy => true | _, _ => false end)
    (zrange 0 4001) = true) as Hall by (by vm_compute).
  rewrite forallb_forall in Hall. specialize (Hall depth).
  rewrite <- list_elem_of_In, elem_of_zrange in Hall. specialize (Hall ltac:(lia)).
  destruct (queue_health depth 4000), (4000 * 90 <? depth * 100), (4000 * 75 <? depth * 100); done.
Qed.

(** ** Instances *)

(** A registry that is the list of its names. *)
#[local] Instance list_Registry : Registry :=
  {| registry := list string; names := λ r, r;
     register := λ m r, if bool_decide (m_name m ∈ r) then None else Some (m_name m :: r) |}.
#[local] Instance list_RegistryLaws : RegistryLaws.
Proof.
  split. intros m r _ Hnew. exists (m_name m :: r). cbn in *. by rewrite bool_decide_eq_false_2.
Qed.

Lemma init_metrics_total_witness :
  ∃ r', init_metrics ([] : registry) = Ok r' ∧ ∀ m, m ∈ initialized → m_name m ∈ names r'.
Proof. apply init_metrics_total. reflexivity. Defined.

Definition some_flushes : list Flushed :=
  [{| f_size := 3; f_ms := 20; f_certs := 9; f_skipped := 4; f_bytes := 4096; f_dedup_ms := 1 |};
   {| f_size := 8; f_ms := 31; f_certs := 20; f_skipped := 16; f_bytes := 9000; f_dedup_ms := 2 |}].

Lemma batch_report_average_witness :
  match batch_report (interval_of (record_flushes some_flushes BatchStats_default) BatchStats_default) with
  | Some r => batches_in_interval r = 2 ∧ 3 ≤ avg_batch_size r ≤ 8
  | None => False
  end.
Proof.
  assert (Forall (λ f, 3 ≤ f_size f ≤ 8 ∧ 0 ≤ f_size f ∧ 0 ≤ f_ms f) some_flushes) as Hf
    by (repeat constructor; cbn; lia).
  pose proof (batch_report_average some_flushes BatchStats_default 3 8 Hf ltac:(cbn; lia) ltac:(cbn; lia)
    ltac:(cbn; lia) ltac:(cbn; lia) ltac:(cbn; lia) ltac:(cbn; lia)) as Hr.
  destruct (batch_report _) as [r|]; [|discriminate Hr].
  destruct Hr as (Hn & _ & Ha & _). split; [exact Hn|exact Ha].
Defined.

Lemma intervals_telescope_witness :
  let s1 := record_flushes (take 1 some_flushes) BatchStats_default in
  let s2 := record_flushes some_flushes BatchStats_default in
  let (l, self') := run_ticks [(4000, 4000, s1, (5, 100)); (3990, 4000, s2, (9, 700))] Reporter_new in
  zsum (map interval_batches l) = 2 ∧ zsum (map interval_entries l) = 11.
Proof.
  pose proof (intervals_telescope
    [(4000, 4000, record_flushes (take 1 some_flushes) BatchStats_default, (5, 100));
     (3990, 4000, record_flushes some_flushes BatchStats_default, (9, 700))] Reporter_new) as Ht.
  destruct Ht as (H1 & H2 & _); [vm_compute; repeat split; discriminate|]. split; [exact H1|exact H2].
Defined.

Lemma queue_health_default_witness :
  0 ≤ 3601 ≤ 4000 ∧ queue_health 3601 (channel_capacity BatchConfig_default) = Unhealthy.
Proof.
  split; [lia|]. apply (queue_health_default 3601). split; [lia|]. apply Z.leb_le. reflexivity.
Defined.
