(* ===== verification/X509.v ===== *)
(** * Certificates

    What the log uses of the crates [x509_cert], [der] and [openssl], as
    parameters with their documented laws, and the object identifiers of
    src/src/oids.rs.  A certificate keeps the fields that the code reads or
    replaces; the others are abstract. *)

From S2P Require Import Prelude.

(** ** Data *)

(** An extension; object identifiers in dotted form. *)
Record X509Extension := { extn_id : string; critical : bool; extn_value : bytes }.
#[global] Instance X509Extension_eq_dec : EqDecision X509Extension.
Proof. solve_decision. Defined.

(** [Name], [SubjectPublicKeyInfo], the other fields of a TBS certificate
    (version, serial number, signature algorithm, start of the validity, unique
    identifiers) and those of a certificate (parameters of the algorithm,
    signature). *)
Class X509Types := {
  Name : Type;
  Name_eq_dec :: EqDecision Name;
  Spki : Type;
  TbsRest : Type;
  CertRest : Type;
}.

(** [TbsCertificate] and [Certificate] of [x509_cert]; the end of the validity
    in seconds. *)
Record TbsCertificate `{X509Types} := {
  issuer : Name;
  subject : Name;
  not_after : Z;
  subject_public_key_info : Spki;
  cert_extensions : option (list X509Extension);
  tbs_rest : TbsRest;
}.
Record X509Certificate `{X509Types} := {
  tbs_certificate : TbsCertificate;
  signature_algorithm : string;
  cert_rest : CertRest;
}.

(** The assignments [precert.tbs_certificate.issuer = _] and to the extensions. *)
Definition set_issuer `{X509Types} (name : Name) (t : TbsCertificate) : TbsCertificate :=
  {| issuer := name; subject := subject t; not_after := not_after t;
     subject_public_key_info := subject_public_key_info t;
     cert_extensions := cert_extensions t; tbs_rest := tbs_rest t |}.
Definition set_extensions `{X509Types} (exts : option (list X509Extension))
    (t : TbsCertificate) : TbsCertificate :=
  {| issuer := issuer t; subject := subject t; not_after := not_after t;
     subject_public_key_info := subject_public_key_info t;
     cert_extensions := exts; tbs_rest := tbs_rest t |}.

(** ** Parsing and encoding *)

(** [Certificate::from_der], [to_der] of the three structures, the parsers of
    the extensions the code looks into (an error is dropped, so an [option]: the
    [ca] flag of the basic constraints, the usages, the key identifier), the
    encoding of an authority key identifier that has only the key identifier,
    and [OctetString::new].  Errors are displayed. *)
Class X509 `{X509Types} := {
  from_der : bytes → res string X509Certificate;
  cert_to_der : X509Certificate → res string bytes;
  tbs_to_der : TbsCertificate → res string bytes;
  spki_to_der : Spki → res string bytes;
  basic_constraints_from_der : bytes → option bool;
  eku_from_der : bytes → option (list string);
  ski_from_der : bytes → option bytes;
  akid_to_der : bytes → res string bytes;
  octet_string_new : bytes → res string bytes;
  name_display : Name → string;
}.

(** None of them panics; [OctetString::new] wraps the bytes it is given. *)
Class X509Laws `{X509} := {
  from_der_total b : total (from_der b);
  cert_to_der_total c : total (cert_to_der c);
  tbs_to_der_total t : total (tbs_to_der t);
  spki_to_der_total k : total (spki_to_der k);
  akid_to_der_total b : total (akid_to_der b);
  octet_string_total b : total (octet_string_new b);
  octet_string_bytes b b' : octet_string_new b = Ok b' → b' = b;
}.

(** DER is canonical: a certificate that was parsed is encoded as it was, and
    an encoding parses as what was encoded. *)
Class X509Canonical `{X509} := {
  der_parse_encode b c : from_der b = Ok c → cert_to_der c = Ok b;
  der_encode_parse c b : cert_to_der c = Ok b → from_der b = Ok c;
}.

(** ** Object identifiers *)

Definition CT_POISON_EXTENSION_OID : string := "1.3.6.1.4.1.11129.2.4.3".
Definition CT_EKU_OID : string := "1.3.6.1.4.1.11129.2.4.4".
Definition AUTHORITY_KEY_IDENTIFIER_OID : string := "2.5.29.35".
Definition SUBJECT_KEY_IDENTIFIER_OID : string := "2.5.29.14".
Definition BASIC_CONSTRAINTS_OID : string := "2.5.29.19".
Definition EXTENDED_KEY_USAGE_OID : string := "2.5.29.37".
Definition ECDSA_WITH_SHA256_OID : string := "1.2.840.10045.4.3.2".
Definition ECDSA_WITH_SHA384_OID : string := "1.2.840.10045.4.3.3".
Definition ECDSA_WITH_SHA512_OID : string := "1.2.840.10045.4.3.4".
Definition SHA256_WITH_RSA_ENCRYPTION_OID : string := "1.2.840.113549.1.1.11".
Definition SHA384_WITH_RSA_ENCRYPTION_OID : string := "1.2.840.113549.1.1.12".
Definition SHA512_WITH_RSA_ENCRYPTION_OID : string := "1.2.840.113549.1.1.13".
Definition SHA1_WITH_RSA_ENCRYPTION_OID : string := "1.2.840.113549.1.1.5".
Definition ASN1_NULL : bytes := [5; 0].

#[export] Hint Resolve from_der_total cert_to_der_total tbs_to_der_total spki_to_der_total : ct.
#[export] Hint Resolve akid_to_der_total octet_string_total total_map_err : ct.
