(* ===== verification/TbsExtraction.v ===== *)
(** * Extraction of the TBS certificate of a precertificate

    src/src/validation/tbs_extractor.rs: the poison extension is removed and,
    when the precertificate was issued by a precertificate signing certificate,
    the issuer and the authority key identifier become those of the final
    issuer. *)

From S2P Require Import Prelude Types X509.

Module Extractor.
Section Extractor.
  Context `{X509} {DbErr : Type}.
  Abbreviation CErr := (CtError DbErr).
  Implicit Types (cert : X509Certificate) (ext : X509Extension).

Definition extensions_of cert : list X509Extension :=
  default [] (cert_extensions (tbs_certificate cert)).

(** The loop of [has_poison_extension]. *)
Fixpoint poison_loop (extensions : list X509Extension) : res CErr bool :=
  match extensions with
  | [] => Ok false
  | ext :: rest =>
      if bool_decide (extn_id ext = CT_POISON_EXTENSION_OID) then
        if negb (critical ext) then Err (BadRequest "Poison extension must be critical")
        else if negb (bool_decide (extn_value ext = ASN1_NULL)) then
          Err (BadRequest "Poison extension must contain ASN.1 NULL")
        else Ok true
      else poison_loop rest
  end.
Definition has_poison_extension cert : res CErr bool := poison_loop (extensions_of cert).

(** The loop of [is_precert_signing_cert] over its two flags. *)
Definition signing_step (flags : bool * bool) ext : bool * bool :=
  let '(has_ca_true, has_ct_eku) := flags in
  let has_ca_true :=
    if bool_decide (extn_id ext = BASIC_CONSTRAINTS_OID)
    then default has_ca_true (basic_constraints_from_der (extn_value ext))
    else has_ca_true in
  let has_ct_eku :=
    if bool_decide (extn_id ext = EXTENDED_KEY_USAGE_OID) then
      match eku_from_der (extn_value ext) with
      | Some usages => if existsb (λ oid, bool_decide (oid = CT_EKU_OID)) usages
                       then true else has_ct_eku
      | None => has_ct_eku
      end
    else has_ct_eku in
  (has_ca_true, has_ct_eku).
Definition is_precert_signing_cert cert : res CErr bool :=
  let '(has_ca_true, has_ct_eku) := fold_left signing_step (extensions_of cert) (false, false) in
  Ok (has_ca_true && has_ct_eku).

(** The first subject key identifier that parses. *)
Fixpoint ski_loop (extensions : list X509Extension) : option bytes :=
  match extensions with
  | [] => None
  | ext :: rest =>
      if bool_decide (extn_id ext = SUBJECT_KEY_IDENTIFIER_OID) then
        match ski_from_der (extn_value ext) with
        | Some ski => Some ski
        | None => ski_loop rest
        end
      else ski_loop rest
  end.
Definition extract_subject_key_identifier cert : res CErr (option bytes) :=
  Ok (ski_loop (extensions_of cert)).

Definition check_transform_needed (chain : list bytes) :
    res CErr (option (Name * option bytes)) :=
  match chain with
  | [] => Ok None
  | issuer_der :: rest =>
      immediate_issuer ← map_err (λ e, InvalidCertificate
        ("Failed to parse immediate issuer: " +:+ e)) (from_der issuer_der);
      is_signing ← is_precert_signing_cert immediate_issuer;
      if negb is_signing then Ok None
      else match rest with
      | [] => Err (BadRequest
                "Precertificate signed by signing cert requires real issuer in chain")
      | real_der :: _ =>
          real_issuer ← map_err (λ e, InvalidCertificate
            ("Failed to parse real issuer: " +:+ e)) (from_der real_der);
          real_issuer_key_id ← extract_subject_key_identifier real_issuer;
          mret (Some (subject (tbs_certificate real_issuer), real_issuer_key_id))
      end
  end.

(** The body of the loop over the extensions, which updates one in place. *)
Definition replace_akid (final_issuer_key_id : option bytes) ext : res CErr X509Extension :=
  if bool_decide (extn_id ext = AUTHORITY_KEY_IDENTIFIER_OID) then
    match final_issuer_key_id with
    | Some key_id =>
        key_identifier ← map_err (λ e, InvalidCertificate
          ("Failed to create OctetString for key identifier: " +:+ e)) (octet_string_new key_id);
        akid_der ← map_err (λ e, InvalidCertificate
          ("Failed to encode new Authority Key Identifier: " +:+ e)) (akid_to_der key_identifier);
        value ← map_err (λ e, InvalidCertificate
          ("Failed to encode Authority Key Identifier value: " +:+ e)) (octet_string_new akid_der);
        mret {| extn_id := extn_id ext; critical := critical ext; extn_value := value |}
    | None => Ok ext
    end
  else Ok ext.

Definition transform_issuer (final : Name * option bytes) (t : TbsCertificate) :
    res CErr TbsCertificate :=
  let t := set_issuer final.1 t in
  match cert_extensions t with
  | Some extensions =>
      extensions ← mapM (replace_akid final.2) extensions;
      mret (set_extensions (Some extensions) t)
  | None => Ok t
  end.

Definition not_poison ext : bool := negb (bool_decide (extn_id ext = CT_POISON_EXTENSION_OID)).

(** [extensions.retain]. *)
Definition remove_poison (t : TbsCertificate) : TbsCertificate :=
  match cert_extensions t with
  | Some extensions => set_extensions (Some (List.filter not_poison extensions)) t
  | None => t
  end.

Definition extract_tbs_certificate (precert_der : bytes) (chain : list bytes) : res CErr bytes :=
  precert ← map_err (λ e, InvalidCertificate ("Failed to parse precertificate: " +:+ e))
              (from_der precert_der);
  has_poison ← has_poison_extension precert;
  if negb has_poison then
    Err (BadRequest "Certificate is not a precertificate (missing poison extension)")
  else
    transform_needed ← check_transform_needed chain;
    tbs ← match transform_needed with
          | Some final => transform_issuer final (tbs_certificate precert)
          | None => Ok (tbs_certificate precert)
          end;
    map_err (λ e, InvalidCertificate ("Failed to encode TBSCertificate: " +:+ e))
      (tbs_to_der (remove_poison tbs)).

(** ** Specification *)

(** The poison extension as RFC 6962 has it, and what a precertificate has: the
    first extension with its identifier is one. *)
Definition poison ext : Prop := extn_id ext = CT_POISON_EXTENSION_OID.
Definition well_formed_poison ext : Prop :=
  poison ext ∧ critical ext = true ∧ extn_value ext = ASN1_NULL.

(** The final issuer of a chain: the subject of its second certificate and that
    one's key identifier, when the first is a signing certificate. *)
Definition signing_cert cert : bool :=
  let flags := fold_left signing_step (extensions_of cert) (false, false) in flags.1 && flags.2.

(** The extension [ext'] of the TBS certificate that stands for [ext]. *)
Definition akid_of (final_issuer_key_id : option bytes) ext ext' : Prop :=
  extn_id ext' = extn_id ext ∧ critical ext' = critical ext ∧
  match final_issuer_key_id with
  | Some key_id =>
      if bool_decide (extn_id ext = AUTHORITY_KEY_IDENTIFIER_OID)
      then akid_to_der key_id = Ok (extn_value ext') else ext' = ext
  | None => ext' = ext
  end.

Inductive final_issuer : list bytes → option (Name * option bytes) → Prop :=
  | final_none : final_issuer [] None
  | final_direct c chain cert :
      from_der c = Ok cert → signing_cert cert = false → final_issuer (c :: chain) None
  | final_signing c r chain cert real :
      from_der c = Ok cert → signing_cert cert = true → from_der r = Ok real →
      final_issuer (c :: r :: chain)
        (Some (subject (tbs_certificate real), ski_loop (extensions_of real))).

(** ** Lemmas *)

Lemma poison_loop_spec exts :
  match poison_loop exts with
  | Ok true => ∃ a ext b, exts = a ++ ext :: b ∧ well_formed_poison ext ∧ Forall (λ e, ¬ poison e) a
  | Ok false => Forall (λ e, ¬ poison e) exts
  | Err _ => ∃ a ext b, exts = a ++ ext :: b ∧ poison ext ∧ ¬ well_formed_poison ext ∧
                        Forall (λ e, ¬ poison e) a
  | _ => False
  end.
Proof.
  induction exts as [|ext exts IH]; cbn [poison_loop]; [done|].
  case_bool_decide as Hid.
  - destruct (critical ext) eqn:Hc; cbn [negb]; [case_bool_decide as Hv; cbn [negb]|].
    + exists [], ext, exts. by repeat split.
    + exists [], ext, exts. repeat split; [done| |done]. by intros (_ & _ & ?).
    + exists [], ext, exts. repeat split; [done| |done]. intros (_ & ? & _). congruence.
  - destruct (poison_loop exts) as [[]|e| |]; [| | |done|done].
    + destruct IH as (a & x & b & -> & Hx & Ha). exists (ext :: a), x, b.
      split; [done|]. split; [done|by constructor].
    + by constructor.
    + destruct IH as (a & x & b & -> & Hx & Hn & Ha). exists (ext :: a), x, b.
      split; [done|]. split; [done|]. split; [done|by constructor].
Qed.

Lemma is_precert_signing_cert_ok cert : is_precert_signing_cert cert = Ok (signing_cert cert).
Proof. unfold is_precert_signing_cert, signing_cert. by destruct (fold_left _ _ _). Qed.

Lemma check_transform_sound chain final :
  check_transform_needed chain = Ok final → final_issuer chain final.
Proof.
  unfold check_transform_needed. destruct chain as [|c rest].
  { intros [= <-]. constructor. }
  intros (cert & Hc%map_err_Ok_inv & Hk)%bind_Ok_inv.
  rewrite is_precert_signing_cert_ok, bind_Ok in Hk.
  destruct (signing_cert cert) eqn:Hs; cbn [negb] in Hk.
  - destruct rest as [|r rest]; [done|].
    apply bind_Ok_inv in Hk as (real & Hr%map_err_Ok_inv & Hk). injection Hk as <-.
    by econstructor.
  - injection Hk as <-. by econstructor.
Qed.

Context `{!X509Laws}.

Lemma replace_akid_spec key ext ext' :
  replace_akid key ext = Ok ext' → akid_of key ext ext'.
Proof.
  unfold replace_akid, akid_of. case_bool_decide as Hid; destruct key as [key_id|];
    try (intros [= <-]; by auto).
  intros (k & Hk%map_err_Ok_inv & Hr)%bind_Ok_inv.
  apply bind_Ok_inv in Hr as (a & Ha%map_err_Ok_inv & Hr).
  apply bind_Ok_inv in Hr as (v & Hv%map_err_Ok_inv & [= <-]).
  apply octet_string_bytes in Hk as ->. apply octet_string_bytes in Hv as ->. done.
Qed.

Lemma transform_issuer_spec final t t' :
  transform_issuer final t = Ok t' →
  ∃ exts', t' = set_extensions exts' (set_issuer final.1 t) ∧
    match cert_extensions t, exts' with
    | Some exts, Some exts' => Forall2 (akid_of final.2) exts exts'
    | None, None => True
    | _, _ => False
    end.
Proof.
  unfold transform_issuer. cbn [set_issuer cert_extensions].
  destruct (cert_extensions t) as [exts|] eqn:He.
  - intros (exts' & Hm%mapM_Forall2 & [= <-])%bind_Ok_inv. exists (Some exts'). split; [done|].
    eapply Forall2_impl; [exact Hm|]. apply replace_akid_spec.
  - intros [= <-]. exists None. split; [|done]. unfold set_issuer, set_extensions. cbn. by rewrite He.
Qed.

(** The TBS certificate of a precertificate: what it keeps, what it replaces and
    what it drops. *)
Definition is_tbs_of (t : TbsCertificate) (final : option (Name * option bytes)) (t' : TbsCertificate) : Prop :=
  subject t' = subject t ∧ not_after t' = not_after t ∧
  subject_public_key_info t' = subject_public_key_info t ∧ tbs_rest t' = tbs_rest t ∧
  issuer t' = (match final with Some (name, _) => name | None => issuer t end) ∧
  match cert_extensions t, cert_extensions t' with
  | Some exts, Some exts' =>
      Forall2 (akid_of (final ≫= snd)) (List.filter not_poison exts) exts'
  | None, None => True
  | _, _ => False
  end.

Lemma akid_of_refl ext : akid_of None ext ext.
Proof. done. Qed.

Lemma filter_akid key exts exts' :
  Forall2 (akid_of key) exts exts' →
  Forall2 (akid_of key) (List.filter not_poison exts) (List.filter not_poison exts').
Proof.
  induction 1 as [|x y xs ys Hxy Hxs IH]; [constructor|]. cbn [List.filter].
  assert (not_poison y = not_poison x) as -> by (unfold not_poison; by rewrite (proj1 Hxy)).
  destruct (not_poison x); [by constructor|done].
Qed.

Lemma remove_poison_spec t final t' :
  match final with
  | Some f => transform_issuer f t = Ok t'
  | None => t' = t
  end → is_tbs_of t final (remove_poison t').
Proof.
  destruct final as [[name key]|].
  - intros (exts' & -> & Hx)%transform_issuer_spec. unfold is_tbs_of, remove_poison.
    destruct (cert_extensions t) as [exts|] eqn:He, exts' as [exts'|]; try done; cbn.
    repeat split. by apply filter_akid.
  - intros ->. unfold is_tbs_of, remove_poison. destruct (cert_extensions t) as [exts|] eqn:He; cbn.
    + repeat split. induction (List.filter _ _); constructor; [apply akid_of_refl|done].
    + rewrite He. by repeat split.
Qed.

Lemma extract_total precert_der chain : total (extract_tbs_certificate precert_der chain).
Proof.
  apply total_bind; [auto with ct|]. intros cert _. apply total_bind.
  { unfold has_poison_extension. pose proof (poison_loop_spec (extensions_of cert)).
    by destruct (poison_loop _). }
  intros [] _; [|done]. cbn [negb]. apply total_bind.
  { unfold check_transform_needed. destruct chain as [|c [|r ?]]; [done|..];
      (apply total_bind; [auto with ct|intros ? _]); rewrite is_precert_signing_cert_ok, bind_Ok;
      destruct (signing_cert _); cbn [negb]; try done.
    apply total_bind; [auto with ct|done]. }
  intros final _. apply total_bind; [|auto with ct].
  destruct final as [[name key]|]; [|done]. unfold transform_issuer. cbn [set_issuer cert_extensions].
  destruct (cert_extensions _) as [exts|]; [|done]. apply total_bind; [|done].
  apply total_mapM. intros ext _. unfold replace_akid. destruct (bool_decide _), key; try done.
  repeat (apply total_bind; [auto with ct|intros ? _]). done.
Qed.

(** ** What the extraction answers *)

(** The first poison extension of a precertificate is well formed. *)
Definition precertificate cert : Prop :=
  ∃ a ext b, extensions_of cert = a ++ ext :: b ∧ well_formed_poison ext ∧
             Forall (λ e, ¬ poison e) a.

(** A certificate with a poison extension is no other certificate's TBS. *)
Lemma poison_loop_true cert : has_poison_extension cert = Ok true ↔ precertificate cert.
Proof.
  unfold has_poison_extension, precertificate. pose proof (poison_loop_spec (extensions_of cert)) as Hs.
  split; [by intros Ht; rewrite Ht in Hs|]. intros (a & x & b & Heq & (Hp & Hc & Hv) & Ha).
  rewrite Heq. clear Hs Heq. induction Ha as [|y a Hy Ha IH]; cbn [app poison_loop].
  - rewrite Hp, Hc, Hv. by rewrite !bool_decide_eq_true_2.
  - by rewrite bool_decide_eq_false_2.
Qed.

Definition unparsed (b : bytes) : Prop := ∃ e, from_der b = Err e.
(** An encoder refused the new key identifier or the result. *)
Definition unencoded : Prop :=
  (∃ b e, octet_string_new b = Err e) ∨ (∃ b e, akid_to_der b = Err e) ∨
  (∃ t e, tbs_to_der t = Err e).

Lemma check_transform_err chain e :
  check_transform_needed chain = Err e →
  match e with
  | BadRequest _ => ∃ c cert, chain = [c] ∧ from_der c = Ok cert ∧ signing_cert cert = true
  | InvalidCertificate _ => ∃ c, c ∈ chain ∧ unparsed c
  | _ => False
  end.
Proof.
  unfold check_transform_needed. destruct chain as [|c rest]; [done|].
  intros [(e' & He & ->)%map_err_Err_inv|(cert & Hc%map_err_Ok_inv & Hk)]%bind_Err_inv.
  { exists c. split; [left|by eexists]. }
  rewrite is_precert_signing_cert_ok, bind_Ok in Hk.
  destruct (signing_cert cert) eqn:Hs; [|done]. destruct rest as [|r rest].
  { injection Hk as <-. eauto. }
  apply bind_Err_inv in Hk as [(e' & He & ->)%map_err_Err_inv|(? & _ & [=])].
  exists r. split; [right; left|by eexists].
Qed.

Lemma replace_akid_err key ext e :
  replace_akid key ext = Err e → (∃ s, e = InvalidCertificate s) ∧ unencoded.
Proof.
  unfold replace_akid, unencoded. destruct (bool_decide _), key as [key|]; try done.
  intros [(? & ? & ->)%map_err_Err_inv|(? & _ & Hk)]%bind_Err_inv; [by split; eauto|].
  apply bind_Err_inv in Hk as [(? & ? & ->)%map_err_Err_inv|(? & _ & Hk)]; [by split; eauto|].
  apply bind_Err_inv in Hk as [(? & ? & ->)%map_err_Err_inv|(? & _ & [=])]. by split; eauto.
Qed.

Lemma transform_issuer_err final t e :
  transform_issuer final t = Err e → (∃ s, e = InvalidCertificate s) ∧ unencoded.
Proof.
  unfold transform_issuer. cbn [set_issuer cert_extensions].
  destruct (cert_extensions t) as [exts|]; [|done].
  intros [Hm|(? & _ & [=])]%bind_Err_inv. revert Hm.
  induction exts as [|x exts IH]; cbn [mapM]; [done|].
  intros [?%replace_akid_err|(? & _ & Hk)]%bind_Err_inv; [done|].
  apply bind_Err_inv in Hk as [?|(? & _ & [=])]. auto.
Qed.

(** The outcome of an extraction, on every branch. *)
Definition extraction_outcome (precert_der : bytes) (chain : list bytes) (r : res CErr bytes) : Prop :=
  match r with
  | Ok der => ∃ precert final t', from_der precert_der = Ok precert ∧ precertificate precert ∧
      final_issuer chain final ∧ is_tbs_of (tbs_certificate precert) final t' ∧
      Forall (λ e, ¬ poison e) (default [] (cert_extensions t')) ∧ tbs_to_der t' = Ok der
  | Err (BadRequest _) =>
      (∃ precert, from_der precert_der = Ok precert ∧ ¬ precertificate precert) ∨
      (∃ c cert, chain = [c] ∧ from_der c = Ok cert ∧ signing_cert cert = true)
  | Err (InvalidCertificate _) => unparsed precert_der ∨ (∃ c, c ∈ chain ∧ unparsed c) ∨ unencoded
  | _ => False
  end.

Lemma extract_ok precert_der chain der :
  extract_tbs_certificate precert_der chain = Ok der → extraction_outcome precert_der chain (Ok der).
Proof.
  intros (precert & Hp%map_err_Ok_inv & Hk)%bind_Ok_inv.
  apply bind_Ok_inv in Hk as (has & Hpo & Hk). destruct has; [|done]. cbn [negb] in Hk.
  apply bind_Ok_inv in Hk as (final & Hf%check_transform_sound & Hk).
  apply bind_Ok_inv in Hk as (t & Ht & Hd%map_err_Ok_inv).
  exists precert, final, (remove_poison t). apply poison_loop_true in Hpo. split_and!; try done.
  - apply remove_poison_spec. destruct final; [done|]. by injection Ht.
  - unfold remove_poison. destruct (cert_extensions t) as [exts|] eqn:He; cbn; [|by rewrite He].
    apply Forall_forall. intros e [_ Hn]%list_elem_of_In%filter_In. unfold not_poison in Hn.
    unfold poison. by case_bool_decide.
Qed.

Lemma has_poison_err cert e :
  has_poison_extension cert = Err e → (∃ s, e = BadRequest s) ∧ ¬ precertificate cert.
Proof.
  intros He. split; [|by intros Hp%poison_loop_true; congruence]. revert He. unfold has_poison_extension.
  induction (extensions_of cert) as [|x exts IH]; cbn [poison_loop]; [done|].
  destruct (bool_decide _), (critical x); cbn [negb]; try done; try (intros [= <-]; by eexists).
  destruct (bool_decide _); [done|]. intros [= <-]. by eexists.
Qed.

Lemma extract_err precert_der chain e :
  extract_tbs_certificate precert_der chain = Err e → extraction_outcome precert_der chain (Err e).
Proof.
  intros [(? & ? & ->)%map_err_Err_inv|(precert & Hp%map_err_Ok_inv & Hk)]%bind_Err_inv.
  { left. by eexists. }
  apply bind_Err_inv in Hk as [[[s ->] Hn]%has_poison_err|(has & Hpo & Hk)]; [left; by eexists|].
  destruct has; cbn [negb] in Hk.
  2: { injection Hk as <-. left. exists precert. split; [done|]. intros Hpc%poison_loop_true. congruence. }
  apply bind_Err_inv in Hk as [Hc%check_transform_err|(final & _ & Hk)].
  { destruct e; cbn; auto; done. }
  apply bind_Err_inv in Hk as [Ht|(t & _ & (e' & He & ->)%map_err_Err_inv)].
  - destruct final as [final|]; [|done]. apply transform_issuer_err in Ht as [[s ->] Hu]. by right; right.
  - right; right. right; right. by eexists _, _.
Qed.

(** C22: the extraction of a TBS certificate returns on every input.  It
    succeeds only for a precertificate, one whose first poison extension is
    critical and holds NULL; the TBS certificate has no poison extension and is
    the precertificate's in every other respect, except that, when the issuer is
    a precertificate signing certificate, the issuer is the subject of the next
    certificate of the chain and the authority key identifier that certificate's
    key.  A bad request means that it is not a precertificate or that the final
    issuer is missing from the chain. *)
Theorem extract_tbs_certificate_correct precert_der chain :
  extraction_outcome precert_der chain (extract_tbs_certificate precert_der chain).
Proof.
  pose proof (extract_total precert_der chain) as Ht.
  destruct (extract_tbs_certificate precert_der chain) eqn:He; try done.
  - by apply extract_ok.
  - by apply extract_err.
Qed.

End Extractor.
End Extractor.
