(* ===== verification/Validator.v ===== *)
(** * The certificate chain validator

    src/src/validation/rfc6962_validator.rs.  Signatures are verified by crate
    [openssl], on its own form of a certificate; the conversions are cached under
    the digest of the DER encoding, so a validation passes the validator along.
    Logging is left out. *)

From S2P Require Import Prelude Rfc6962 KvStore Types X509.

(** ** Parameters *)

(** [openssl::x509::X509]: parsing, the public key, the verification of a
    signature.  Errors are displayed. *)
Class OpenSsl := {
  OsslX509 : Type;
  PKey : Type;
  x509_from_der : bytes → res string OsslX509;
  public_key : OsslX509 → res string PKey;
  x509_verify : OsslX509 → PKey → res string bool;
}.
Class OpenSslLaws `{OpenSsl} := {
  x509_from_der_total b : total (x509_from_der b);
  public_key_total x : total (public_key x);
  x509_verify_total x k : total (x509_verify x k);
}.

(** [DateTime::format] of crate [chrono] for the messages; a [DateTime<Utc>] is
    its number of nanoseconds since the epoch. *)
Class TimeFormat := format_time : Z → string.

(** ** Configuration *)

Inductive CcadbEnvironment := Production | Test.
#[global] Instance CcadbEnvironment_eq_dec : EqDecision CcadbEnvironment.
Proof. solve_decision. Defined.

Definition CCADB_PRODUCTION_URL : string :=
  "https://ccadb.my.salesforce-sites.com/ccadb/RootCACertificatesIncludedByRSReportCSV".
Definition CCADB_TEST_URL : string :=
  "https://ccadb.my.salesforce-sites.com/ccadb/RootCACertificatesInclusionReportCSV".
Definition url (env : CcadbEnvironment) : string :=
  match env with Production => CCADB_PRODUCTION_URL | Test => CCADB_TEST_URL end.

Record TemporalWindow := { window_start : Z; window_end : Z }.

Record Rfc6962ValidationConfig := {
  trusted_roots_dir : string;
  max_chain_length : Z;
  allowed_signature_algorithms : gset string;
  temporal_window : option TemporalWindow;
  ccadb : CcadbEnvironment;
}.

Definition default_config : Rfc6962ValidationConfig :=
  {| trusted_roots_dir := "trusted_roots"; max_chain_length := 10;
     allowed_signature_algorithms := list_to_set
       [ECDSA_WITH_SHA256_OID; ECDSA_WITH_SHA384_OID; ECDSA_WITH_SHA512_OID;
        SHA256_WITH_RSA_ENCRYPTION_OID; SHA384_WITH_RSA_ENCRYPTION_OID;
        SHA512_WITH_RSA_ENCRYPTION_OID; SHA1_WITH_RSA_ENCRYPTION_OID];
     temporal_window := None; ccadb := Production |}.

Record Rfc6962Validator `{X509Types} `{OpenSsl} `{Cache bytes OsslX509} := {
  config : Rfc6962ValidationConfig;
  trusted_roots : list X509Certificate;
  trusted_root_hashes : gset bytes;
  x509_cache : cache bytes OsslX509;
}.

Record ChainValidationContext `{X509Types} := {
  is_precert : bool;
  has_signing_cert : bool;
  real_issuer_index : nat;
  parsed_chain : list X509Certificate;
}.

Section Validator.
  Context `{X509} `{OpenSsl} `{!Cache bytes OsslX509} `{Digest} `{TimeFormat} {DbErr : Type}.
  Abbreviation CErr := (CtError DbErr).
  Abbreviation M := (stM Rfc6962Validator CErr).
  Implicit Types (cert : X509Certificate) (ext : X509Extension) (self : Rfc6962Validator).

(** ** Construction *)

Definition certificate_to_der cert : res CErr bytes :=
  map_err (λ e, Internal ("Failed to encode certificate: " +:+ e)) (cert_to_der cert).

(** SHA-256 of the encoding. *)
Definition cert_digest cert : res CErr bytes :=
  cert_der ← certificate_to_der cert; mret (digest cert_der).

Definition with_trusted_roots (config : Rfc6962ValidationConfig)
    (trusted_roots : list X509Certificate) : res CErr Rfc6962Validator :=
  hashes ← mapM cert_digest trusted_roots;
  mret {| config := config; trusted_roots := trusted_roots;
          trusted_root_hashes := list_to_set hashes; x509_cache := cache_new |}.

(** ** Tests on one certificate *)

Definition cert_exts cert : list X509Extension :=
  default [] (cert_extensions (tbs_certificate cert)).

(** The first basic constraints that parse. *)
Fixpoint ca_loop (extensions : list X509Extension) : bool :=
  match extensions with
  | [] => false
  | ext :: rest =>
      if bool_decide (extn_id ext = BASIC_CONSTRAINTS_OID) then
        match basic_constraints_from_der (extn_value ext) with
        | Some ca => ca
        | None => ca_loop rest
        end
      else ca_loop rest
  end.
Definition is_ca_certificate cert : bool := ca_loop (cert_exts cert).

Fixpoint precert_loop (extensions : list X509Extension) : res CErr bool :=
  match extensions with
  | [] => Ok false
  | ext :: rest =>
      if bool_decide (extn_id ext = CT_POISON_EXTENSION_OID) then
        if negb (critical ext) then
          Err (BadRequest "Precertificate poison extension must be critical")
        else if negb (bool_decide (extn_value ext = ASN1_NULL)) then
          Err (BadRequest "Precertificate poison extension must contain ASN.1 NULL")
        else Ok true
      else precert_loop rest
  end.
Definition is_precertificate cert : res CErr bool := precert_loop (cert_exts cert).

(** One iteration of [is_precert_signing_certificate]; [continue] ends it. *)
Definition precert_signing_step (flags : bool * bool) ext : bool * bool :=
  let '(has_ca_true, has_ct_eku) := flags in
  let check_eku (has_ca_true : bool) : bool * bool :=
    if bool_decide (extn_id ext = EXTENDED_KEY_USAGE_OID) then
      match eku_from_der (extn_value ext) with
      | Some eku => (has_ca_true, if existsb (λ oid, bool_decide (oid = CT_EKU_OID)) eku
                                  then true else has_ct_eku)
      | None => (has_ca_true, has_ct_eku)
      end
    else (has_ca_true, has_ct_eku) in
  if bool_decide (extn_id ext = BASIC_CONSTRAINTS_OID) then
    match basic_constraints_from_der (extn_value ext) with
    | Some ca => check_eku ca
    | None => (has_ca_true, has_ct_eku)
    end
  else check_eku has_ca_true.
Definition is_precert_signing_certificate cert : res CErr bool :=
  let '(has_ca_true, has_ct_eku) :=
    fold_left precert_signing_step (cert_exts cert) (false, false) in
  Ok (has_ca_true && has_ct_eku).

Definition verify_precert_signing_cert signing_cert real_issuer : res CErr unit :=
  if bool_decide (issuer (tbs_certificate signing_cert) = subject (tbs_certificate real_issuer))
  then Ok tt
  else Err (BadRequest "Precertificate Signing Certificate must be directly issued by the CA").

(** [not_after.to_system_time().into()]. *)
Definition not_after_time cert : Z := not_after (tbs_certificate cert) * 1000000000.

Definition validate_certificate_basic (config : Rfc6962ValidationConfig) cert (index : Z) :
    res CErr unit :=
  let sig_alg_oid := signature_algorithm cert in
  if negb (bool_decide (sig_alg_oid ∈ allowed_signature_algorithms config)) then
    Err (BadRequest ("Certificate at index " +:+ pretty index +:+
                     " uses disallowed signature algorithm: " +:+ sig_alg_oid))
  else if index =? 0 then
    match temporal_window config with
    | Some window =>
        let not_after := not_after_time cert in
        if not_after <? window_start window then
          Err (BadRequest ("Certificate expires before log temporal window starts: " +:+
                           format_time not_after +:+ " < " +:+ format_time (window_start window)))
        else if window_end window <=? not_after then
          Err (BadRequest ("Certificate expires outside log temporal window: " +:+
                           format_time not_after +:+ " >= " +:+ format_time (window_end window)))
        else Ok tt
    | None => Ok tt
    end
  else Ok tt.

(** ** Analysis of a chain *)

Fixpoint parse_chain (i : Z) (chain : list bytes) : res CErr (list X509Certificate) :=
  match chain with
  | [] => Ok []
  | cert_der :: rest =>
      cert ← map_err (λ e, BadRequest ("Failed to parse certificate at index " +:+ pretty i +:+
                                       ": " +:+ e)) (from_der cert_der);
      certs ← parse_chain (i + 1) rest;
      mret (cert :: certs)
  end.

Definition analyze_chain self (chain : list bytes) : res CErr ChainValidationContext :=
  if bool_decide (chain = []) then Err (BadRequest "Certificate chain is empty")
  else if max_chain_length (config self) <? zlen chain then
    Err (BadRequest ("Certificate chain length " +:+ pretty (zlen chain) +:+ " exceeds maximum "
                     +:+ pretty (max_chain_length (config self))))
  else
    parsed_chain ← parse_chain 0 chain;
    first ← expect (parsed_chain !! 0%nat);
    is_precert ← is_precertificate first;
    '(has_signing_cert, real_issuer_index) ←
      (if is_precert && (2 <=? length parsed_chain)%nat then
         second ← expect (parsed_chain !! 1%nat);
         has_signing_cert ← is_precert_signing_certificate second;
         if has_signing_cert : bool then
           if (length parsed_chain <? 3)%nat then
             Err (BadRequest
               "Precertificate signed by signing certificate requires real issuer in chain")
           else mret (true, 2%nat)
         else mret (false, 1%nat)
       else mret (false, 1%nat));
    mret {| is_precert := is_precert; has_signing_cert := has_signing_cert;
            real_issuer_index := real_issuer_index; parsed_chain := parsed_chain |}.

(** ** Verification *)

(** The form of a certificate that [openssl] works on, from the cache or parsed
    again; only CA certificates are cached. *)
Definition with_cache self (c : cache bytes OsslX509) : Rfc6962Validator :=
  {| config := config self; trusted_roots := trusted_roots self;
     trusted_root_hashes := trusted_root_hashes self; x509_cache := c |}.
Definition cert_to_x509 cert : M OsslX509 :=
  cert_der ← lift (certificate_to_der cert);
  let der_hash := digest cert_der in
  entry ← (λ self, let (entry, c) := cache_get der_hash (x509_cache self) in
                   (Ok entry, with_cache self c));
  match entry with
  | Some x509 => mret x509
  | None =>
      x509 ← lift (map_err (λ e, Internal ("Failed to parse certificate: " +:+ e))
                     (x509_from_der cert_der));
      (if is_ca_certificate cert
       then modify (λ self, with_cache self (cache_insert der_hash x509 (x509_cache self)))
       else mret tt);;
      mret x509
  end.

(** The loop over the roots for one certificate: whether it returned. *)
Fixpoint issued_by_root cert (cert_x509 : OsslX509) (roots : list X509Certificate) : M bool :=
  match roots with
  | [] => mret false
  | root :: rest =>
      if bool_decide (issuer (tbs_certificate cert) = subject (tbs_certificate root)) then
        root_x509 ← cert_to_x509 root;
        root_pubkey ← lift (map_err (λ e, Internal ("Failed to extract root public key: " +:+ e))
                              (public_key root_x509));
        match x509_verify cert_x509 root_pubkey with
        | Ok true => lift (cert_digest root);; mret true
        | Ok false | Err _ => issued_by_root cert cert_x509 rest
        | Panic => lift Panic
        | Fuel => lift Fuel
        end
      else issued_by_root cert cert_x509 rest
  end.
Fixpoint any_issued_by_root (roots : list X509Certificate)
    (certs : list (X509Certificate * OsslX509)) : M bool :=
  match certs with
  | [] => mret false
  | (cert, cert_x509) :: rest =>
      found ← issued_by_root cert cert_x509 roots;
      if found : bool then mret true else any_issued_by_root roots rest
  end.

Definition verify_chain_to_root (chain : list X509Certificate) : M unit :=
  roots ← gets trusted_roots;
  hashes ← gets trusted_root_hashes;
  if bool_decide (length roots = 0%nat) then fail (BadRequest "No trusted roots configured")
  else
    last_cert ← lift (expect (last chain));
    last_cert_hash ← lift (cert_digest last_cert);
    if bool_decide (last_cert_hash ∈ hashes) then mret tt
    else
      chain_x509s ← mapM cert_to_x509 chain;
      found ← any_issued_by_root roots (zip chain chain_x509s);
      if found : bool then mret tt
      else fail (BadRequest "Certificate chain does not terminate in a trusted root").

(** Each certificate is signed by the next one. *)
Fixpoint verify_links (i : Z) (x509_chain : list OsslX509) : res CErr unit :=
  match x509_chain with
  | cert :: ((issuer :: _) as rest) =>
      issuer_pubkey ← map_err (λ e, Internal ("Failed to extract issuer public key at index " +:+
                                              pretty (i + 1) +:+ ": " +:+ e)) (public_key issuer);
      verified ← map_err (λ e, Internal ("Failed to verify signature at index " +:+ pretty i +:+
                                         ": " +:+ e)) (x509_verify cert issuer_pubkey);
      if negb verified
      then Err (BadRequest ("Certificate at index " +:+ pretty i +:+ " has invalid signature"))
      else verify_links (i + 1) rest
  | _ => Ok tt
  end.
Definition verify_self_signed (last_cert : OsslX509) original_last : res CErr unit :=
  if bool_decide (subject (tbs_certificate original_last)
                  = issuer (tbs_certificate original_last)) then
    pubkey ← map_err (λ e, Internal ("Failed to extract public key from self-signed cert: " +:+ e))
               (public_key last_cert);
    verified ← map_err (λ e, Internal ("Failed to verify self-signed certificate: " +:+ e))
                 (x509_verify last_cert pubkey);
    if negb verified then Err (BadRequest "Self-signed certificate has invalid signature")
    else Ok tt
  else Ok tt.
Definition verify_chain_signatures (chain : list X509Certificate) : M unit :=
  if bool_decide (length chain = 0%nat) then mret tt
  else
    x509_chain ← mapM cert_to_x509 chain;
    lift (verify_links 0 x509_chain);;
    last_cert ← lift (expect (last x509_chain));
    original_last ← lift (expect (last chain));
    lift (verify_self_signed last_cert original_last).

(** The loop over the parsed chain. *)
Fixpoint validate_basics (config : Rfc6962ValidationConfig) (i : Z)
    (certs : list X509Certificate) : res CErr unit :=
  match certs with
  | [] => Ok tt
  | cert :: rest => validate_certificate_basic config cert i;; validate_basics config (i + 1) rest
  end.

Definition validate_chain_with_context (context : ChainValidationContext) : M unit :=
  config ← gets config;
  lift (validate_basics config 0 (parsed_chain context));;
  lift (if is_precert context && has_signing_cert context then
          signing_cert ← expect (parsed_chain context !! 1%nat);
          real_issuer ← expect (parsed_chain context !! 2%nat);
          verify_precert_signing_cert signing_cert real_issuer
        else Ok tt);;
  verify_chain_to_root (parsed_chain context);;
  verify_chain_signatures (parsed_chain context).

Definition validate_chain (chain : list bytes) : M unit := λ self,
  (context ← lift (analyze_chain self chain); validate_chain_with_context context) self.

(** ** Reads *)

Definition get_accepted_roots self : res CErr (list bytes) :=
  mapM certificate_to_der (trusted_roots self).

Definition extract_issuer_key_hash self (chain : list bytes) : res CErr bytes :=
  context ← analyze_chain self chain;
  if negb (is_precert context) then
    Err (BadRequest "Can only extract issuer key hash for precertificate chains")
  else
    real_issuer ← expect (parsed_chain context !! real_issuer_index context);
    spki_der ← map_err (λ e, Internal ("Failed to encode SPKI: " +:+ e))
                 (spki_to_der (subject_public_key_info (tbs_certificate real_issuer)));
    mret (digest spki_der).

End Validator.
