(* ===== verification/ValidatorProofs.v ===== *)
(** * What the validator accepts

    The cache of converted certificates does not change any answer, so a
    validation is a function of the configuration, the roots and the chain; that
    function accepts exactly the chains of [chain_accepted].  The two tests for
    a precertificate signing certificate agree. *)

From S2P Require Import Prelude Rfc6962 KvStore Types X509 TbsExtraction Validator.

(** ** The two analyses of a precertificate agree *)

Section Agreement.
  Context `{X509} {DbErr : Type}.
  Abbreviation CErr := (CtError DbErr).

Lemma signing_step_agrees flags ext : precert_signing_step flags ext = Extractor.signing_step flags ext.
Proof.
  unfold precert_signing_step, Extractor.signing_step. destruct flags as [ca eku].
  destruct (bool_decide (extn_id ext = BASIC_CONSTRAINTS_OID)) eqn:Hb.
  - apply bool_decide_eq_true in Hb. rewrite !(bool_decide_eq_false_2 (extn_id ext = EXTENDED_KEY_USAGE_OID));
      [by destruct (basic_constraints_from_der _)|rewrite Hb; discriminate..].
  - destruct (bool_decide (extn_id ext = EXTENDED_KEY_USAGE_OID)); [|done].
    by destruct (eku_from_der _).
Qed.

Lemma signing_certificate_agrees cert :
  is_precert_signing_certificate (DbErr := DbErr) cert = Ok (Extractor.signing_cert cert).
Proof.
  unfold is_precert_signing_certificate, Extractor.signing_cert, Extractor.extensions_of, cert_exts.
  assert (∀ l f, fold_left precert_signing_step l f = fold_left Extractor.signing_step l f) as ->.
  { induction l as [|x l IH]; intros f; [done|]. cbn [fold_left]. by rewrite signing_step_agrees. }
  by destruct (fold_left _ _ _).
Qed.

Lemma is_precertificate_agrees cert :
  is_precertificate (DbErr := DbErr) cert = Ok true ↔ Extractor.precertificate cert.
Proof.
  rewrite <- (Extractor.poison_loop_true (DbErr := DbErr)).
  unfold is_precertificate, Extractor.has_poison_extension, cert_exts, Extractor.extensions_of.
  induction (default [] _) as [|x l IH]; cbn [precert_loop Extractor.poison_loop]; [done|].
  destruct (bool_decide _); [|done]. destruct (critical x); cbn [negb]; [|done].
  by destruct (bool_decide _).
Qed.

Lemma is_precertificate_total cert : total (is_precertificate (DbErr := DbErr) cert).
Proof.
  unfold is_precertificate. induction (cert_exts cert) as [|x l IH]; cbn [precert_loop]; [done|].
  by repeat apply total_if.
Qed.

End Agreement.

(** ** The validation without a cache *)

Section Reference.
  Context `{X509} `{OpenSsl} `{Digest} `{TimeFormat} {DbErr : Type}.
  Abbreviation CErr := (CtError DbErr).
  Implicit Types (cert : X509Certificate).

Definition x509_of cert : res CErr OsslX509 :=
  cert_der ← certificate_to_der cert;
  map_err (λ e, Internal ("Failed to parse certificate: " +:+ e)) (x509_from_der cert_der).

Fixpoint issued_by_root_ref cert (x : OsslX509) (roots : list X509Certificate) : res CErr bool :=
  match roots with
  | [] => Ok false
  | root :: rest =>
      if bool_decide (issuer (tbs_certificate cert) = subject (tbs_certificate root)) then
        root_x509 ← x509_of root;
        k ← map_err (λ e, Internal ("Failed to extract root public key: " +:+ e))
              (public_key root_x509);
        match x509_verify x k with
        | Ok true => cert_digest root;; mret true
        | Ok false | Err _ => issued_by_root_ref cert x rest
        | Panic => Panic
        | Fuel => Fuel
        end
      else issued_by_root_ref cert x rest
  end.
Fixpoint any_issued_ref (roots : list X509Certificate)
    (certs : list (X509Certificate * OsslX509)) : res CErr bool :=
  match certs with
  | [] => Ok false
  | (cert, x) :: rest =>
      found ← issued_by_root_ref cert x roots;
      if found : bool then Ok true else any_issued_ref roots rest
  end.

Definition to_root_ref (roots : list X509Certificate) (hashes : gset bytes)
    (chain : list X509Certificate) : res CErr unit :=
  if bool_decide (length roots = 0%nat) then Err (BadRequest "No trusted roots configured")
  else
    last_cert ← expect (last chain);
    h ← cert_digest last_cert;
    if bool_decide (h ∈ hashes) then Ok tt
    else
      xs ← mapM x509_of chain;
      found ← any_issued_ref roots (zip chain xs);
      if found : bool then Ok tt
      else Err (BadRequest "Certificate chain does not terminate in a trusted root").

Definition signatures_ref (chain : list X509Certificate) : res CErr unit :=
  if bool_decide (length chain = 0%nat) then Ok tt
  else
    xs ← mapM x509_of chain;
    verify_links 0 xs;;
    last_x ← expect (last xs);
    last_cert ← expect (last chain);
    verify_self_signed last_x last_cert.

Definition validate_context_ref (config : Rfc6962ValidationConfig)
    (roots : list X509Certificate) (hashes : gset bytes) (context : ChainValidationContext) :
    res CErr unit :=
  validate_basics config 0 (parsed_chain context);;
  (if is_precert context && has_signing_cert context then
     signing_cert ← expect (parsed_chain context !! 1%nat);
     real_issuer ← expect (parsed_chain context !! 2%nat);
     verify_precert_signing_cert signing_cert real_issuer
   else Ok tt);;
  to_root_ref roots hashes (parsed_chain context);;
  signatures_ref (parsed_chain context).

End Reference.

(** ** The cache is transparent *)

Section Transparency.
  Context `{X509} `{OpenSsl} `{!Cache bytes OsslX509} `{!CacheLaws bytes OsslX509}.
  Context `{Digest} `{TimeFormat} {DbErr : Type}.
  Abbreviation CErr := (CtError DbErr).
  Abbreviation M := (stM Rfc6962Validator CErr).
  Implicit Types (cert : X509Certificate) (v : Rfc6962Validator).
  (** The encodings that occur: the digest tells them apart. *)
  Context (D : bytes → Prop).
  Context (D_inj : ∀ b b', D b → D b' → digest b = digest b' → b = b').

Definition in_domain cert : Prop := ∀ b, cert_to_der cert = Ok b → D b.

(** Every cached certificate was parsed from the encoding with that digest. *)
Definition cache_inv v : Prop :=
  map_Forall (λ h x, ∃ b, D b ∧ h = digest b ∧ x509_from_der b = Ok x) (cache_view (x509_cache v)).

(** [v] differs from [v0] by its cache. *)
Definition same_validator v0 v : Prop :=
  config v = config v0 ∧ trusted_roots v = trusted_roots v0 ∧
  trusted_root_hashes v = trusted_root_hashes v0 ∧ cache_inv v.

Definition computes {A} v0 (m : M A) (r : res CErr A) : Prop :=
  ∀ v, same_validator v0 v → (m v).1 = r ∧ same_validator v0 (m v).2.

Lemma computes_lift {A} v0 (r : res CErr A) : computes v0 (lift r) r.
Proof. intros v Hv. done. Qed.

Lemma computes_ret {A} v0 (a : A) : computes v0 (mret a) (Ok a).
Proof. intros v Hv. done. Qed.

Lemma computes_fail {A} v0 (e : CErr) : computes v0 (fail (A := A) e) (Err e).
Proof. intros v Hv. done. Qed.

Lemma computes_bind {A C} v0 (m : M A) (k : A → M C) r f :
  computes v0 m r → (∀ a, r = Ok a → computes v0 (k a) (f a)) → computes v0 (m ≫= k) (r ≫= f).
Proof.
  intros Hm Hk v Hv. destruct (Hm v Hv) as [Hr Hv']. unfold mbind, stM_bind.
  destruct (m v) as [r' v'] eqn:Hmv. cbn in Hr, Hv'. subst r'.
  destruct r as [a|e| |]; cbn; try done. by apply Hk.
Qed.

Lemma computes_mapM {A C} v0 (f : A → M C) g l :
  (∀ x, x ∈ l → computes v0 (f x) (g x)) → computes v0 (mapM f l) (mapM g l).
Proof.
  induction l as [|x l IH]; intros Hl; [apply computes_ret|]. cbn [mapM].
  apply computes_bind; [apply Hl; set_solver|]. intros y _.
  apply computes_bind; [apply IH; set_solver|]. intros ys _. apply computes_ret.
Qed.

Lemma computes_if {A} v0 (b : bool) (m m' : M A) r r' :
  computes v0 m r → computes v0 m' r' → computes v0 (if b then m else m') (if b then r else r').
Proof. by destruct b. Qed.

Lemma computes_gets {A C} v0 (f : Rfc6962Validator → A) (k : A → M C) r :
  (∀ v, same_validator v0 v → f v = f v0) → computes v0 (k (f v0)) r → computes v0 (gets f ≫= k) r.
Proof.
  intros Hf Hk v Hv. unfold mbind, stM_bind, gets. rewrite (Hf v Hv). by apply Hk.
Qed.

Lemma cache_inv_sub v c :
  cache_inv v → cache_view c ⊆ cache_view (x509_cache v) → cache_inv (with_cache v c).
Proof. intros Hv Hc h x Hx. apply Hv. by eapply lookup_weaken. Qed.

Lemma cert_to_x509_computes v0 cert :
  in_domain cert → computes v0 (cert_to_x509 cert) (x509_of cert).
Proof.
  intros Hd. unfold cert_to_x509, x509_of. apply computes_bind; [apply computes_lift|].
  intros b Hb%map_err_Ok_inv. specialize (Hd b Hb). intros v (Hc & Hr & Hh & Hi).
  unfold mbind, stM_bind. pose proof (cache_get_law (digest b) (x509_cache v)) as [Hsub Hget].
  destruct (cache_get (digest b) (x509_cache v)) as [entry c]. cbn in Hsub, Hget.
  pose proof (cache_inv_sub v c Hi Hsub) as Hi'. destruct entry as [x|].
  - destruct (Hi _ _ Hget) as (b' & Hb' & Heq & Hx). apply D_inj in Heq as <-; [|done..].
    rewrite Hx. by repeat split.
  - unfold lift. destruct (x509_from_der b) as [x|e| |] eqn:Hx; cbn; try by repeat split.
    destruct (is_ca_certificate cert); cbn; [|by repeat split]. split; [done|]. split; [done|].
    split; [done|]. split; [done|]. intros h y Hy. cbn in Hy.
    pose proof (cache_insert_law (digest b) x c) as Hins.
    eapply lookup_weaken in Hy; [|exact Hins]. apply lookup_insert_Some in Hy as [[<- <-]|[_ Hy]].
    + by exists b.
    + by apply Hi'.
Qed.

Lemma issued_by_root_computes v0 cert x roots :
  Forall in_domain roots → computes v0 (issued_by_root cert x roots) (issued_by_root_ref cert x roots).
Proof.
  induction 1 as [|root roots Hd _ IH]; [apply computes_ret|].
  cbn [issued_by_root issued_by_root_ref]. apply computes_if; [|done].
  apply computes_bind; [by apply cert_to_x509_computes|]. intros rx _.
  apply computes_bind; [apply computes_lift|]. intros k _.
  destruct (x509_verify x k) as [[]|e| |]; try done.
  apply computes_bind; [apply computes_lift|]. intros _ _. apply computes_ret.
Qed.

Lemma any_issued_computes v0 roots certs :
  Forall in_domain roots → computes v0 (any_issued_by_root roots certs) (any_issued_ref roots certs).
Proof.
  intros Hd. induction certs as [|[cert x] certs IH]; [apply computes_ret|].
  cbn [any_issued_by_root any_issued_ref].
  apply computes_bind; [by apply issued_by_root_computes|]. intros [] _; [apply computes_ret|done].
Qed.

Lemma to_root_computes v0 chain :
  Forall in_domain (trusted_roots v0) → Forall in_domain chain →
  computes v0 (verify_chain_to_root chain) (to_root_ref (trusted_roots v0) (trusted_root_hashes v0) chain).
Proof.
  intros Hd Hch. unfold verify_chain_to_root, to_root_ref.
  apply computes_gets; [by intros v (_ & ? & _)|]. apply computes_gets; [by intros v (_ & _ & ? & _)|].
  apply computes_if; [apply computes_fail|].
  apply computes_bind; [apply computes_lift|]. intros lc _.
  apply computes_bind; [apply computes_lift|]. intros h _. apply computes_if; [apply computes_ret|].
  apply computes_bind.
  { apply computes_mapM. intros x Hx. apply cert_to_x509_computes. by eapply Forall_forall in Hch. }
  intros xs _. apply computes_bind; [by apply any_issued_computes|].
  intros [] _; [apply computes_ret|apply computes_fail].
Qed.

Lemma signatures_computes v0 chain :
  Forall in_domain chain → computes v0 (verify_chain_signatures chain) (signatures_ref chain).
Proof.
  intros Hch. unfold verify_chain_signatures, signatures_ref. apply computes_if; [apply computes_ret|].
  apply computes_bind.
  { apply computes_mapM. intros x Hx. apply cert_to_x509_computes. by eapply Forall_forall in Hch. }
  intros xs _. repeat (apply computes_bind; [apply computes_lift|]; intros ? _). apply computes_lift.
Qed.

Lemma validate_context_computes v0 context :
  Forall in_domain (trusted_roots v0) → Forall in_domain (parsed_chain context) →
  computes v0 (validate_chain_with_context context)
    (validate_context_ref (config v0) (trusted_roots v0) (trusted_root_hashes v0) context).
Proof.
  intros Hd Hch. unfold validate_chain_with_context.
  apply computes_gets; [by intros v (? & _)|].
  unfold validate_context_ref. apply computes_bind; [apply computes_lift|]. intros _ _.
  apply computes_bind; [apply computes_lift|]. intros _ _.
  apply computes_bind; [by apply to_root_computes|]. intros _ _. by apply signatures_computes.
Qed.

End Transparency.

(** ** Accepted chains *)

Section Accepted.
  Context `{X509} `{OpenSsl} `{Digest} `{TimeFormat} {DbErr : Type}.
  Abbreviation CErr := (CtError DbErr).
  Implicit Types (cert root : X509Certificate) (chain : list bytes).

Definition issued cert root : Prop :=
  issuer (tbs_certificate cert) = subject (tbs_certificate root).

(** [cert] carries a signature that the key of [by_cert] verifies. *)
Definition signature_by (x y : OsslX509) : Prop :=
  ∃ k, public_key y = Ok k ∧ x509_verify x k = Ok true.
Definition signed_by cert by_cert : Prop :=
  ∃ x y, x509_of (DbErr := DbErr) cert = Ok x ∧ x509_of (DbErr := DbErr) by_cert = Ok y ∧
         signature_by x y.

(** Each certificate is signed by the one after it. *)
Inductive linked : list X509Certificate → Prop :=
  | linked_one c x : x509_of (DbErr := DbErr) c = Ok x → linked [c]
  | linked_cons c d l : signed_by c d → linked (d :: l) → linked (c :: d :: l).

Definition in_window (config : Rfc6962ValidationConfig) cert : Prop :=
  ∀ w, temporal_window config = Some w → window_start w ≤ not_after_time cert < window_end w.

(** The last certificate is encoded as a trusted root is, or some certificate
    is issued and signed by one. *)
Definition anchored (roots : list X509Certificate) (certs : list X509Certificate) : Prop :=
  (∃ c root b, last certs = Some c ∧ root ∈ roots ∧ cert_to_der c = Ok b ∧ cert_to_der root = Ok b) ∨
  (∃ c root, c ∈ certs ∧ root ∈ roots ∧ issued c root ∧ signed_by c root).

(** The certificate next to a precertificate that signs it for another issuer
    is followed by that issuer. *)
Definition signing_issuer (certs : list X509Certificate) : Prop :=
  ∀ p s rest, certs = p :: s :: rest → Extractor.precertificate p → Extractor.signing_cert s = true →
    ∃ real rest', rest = real :: rest' ∧ issued s real.

Record chain_accepted (config : Rfc6962ValidationConfig) (roots : list X509Certificate)
    chain (certs : list X509Certificate) : Prop := {
  ca_parsed : Forall2 (λ b c, from_der b = Ok c) chain certs;
  ca_length : zlen chain ≤ max_chain_length config;
  ca_leaf : ∃ leaf rest, certs = leaf :: rest ∧ in_window config leaf ∧
              ∃ b, is_precertificate (DbErr := DbErr) leaf = Ok b;
  ca_algorithms : Forall (λ c, signature_algorithm c ∈ allowed_signature_algorithms config) certs;
  ca_signing : signing_issuer certs;
  ca_anchored : anchored roots certs;
  ca_linked : linked certs;
  ca_self_signed : ∀ c, last certs = Some c → issued c c → signed_by c c;
}.

(** *** Basics *)

Definition basic_ok (config : Rfc6962ValidationConfig) (i : Z) cert : Prop :=
  signature_algorithm cert ∈ allowed_signature_algorithms config ∧ (i = 0 → in_window config cert).

Lemma validate_basic_ok config cert i :
  validate_certificate_basic (DbErr := DbErr) config cert i = Ok tt ↔ basic_ok config i cert.
Proof.
  unfold validate_certificate_basic, basic_ok, in_window.
  case_bool_decide as Ha; cbn [negb]; [|split; [done|tauto]].
  destruct (Z.eqb_spec i 0); [|split; [done|done]].
  destruct (temporal_window config) as [w|]; [|split; [done|done]].
  destruct (Z.ltb_spec (not_after_time cert) (window_start w)); [|destruct (Z.leb_spec (window_end w) (not_after_time cert))];
    split; try done; try (intros [_ Hw]; specialize (Hw ltac:(done) w eq_refl); lia).
  intros _. split; [done|]. intros _ w' [= <-]. lia.
Qed.

Lemma validate_basics_ok config i certs :
  validate_basics (DbErr := DbErr) config i certs = Ok tt ↔
  ∀ j c, certs !! j = Some c → basic_ok config (i + Z.of_nat j) c.
Proof.
  revert i. induction certs as [|c certs IH]; intros i; cbn [validate_basics]; [by split|]. split.
  - intros ([] & Hc%validate_basic_ok & Hr)%bind_Ok_inv [|j] d Hj; cbn in Hj.
    + injection Hj as <-. by rewrite Z.add_0_r.
    + rewrite IH in Hr. replace (i + Z.of_nat (S j)) with (i + 1 + Z.of_nat j) by lia. auto.
  - intros Hj. rewrite (proj2 (validate_basic_ok config c i)), bind_Ok, IH.
    + intros j d Hd. specialize (Hj (S j) d Hd). by replace (i + 1 + Z.of_nat j) with (i + Z.of_nat (S j)) by lia.
    + specialize (Hj O c eq_refl). by rewrite Z.add_0_r in Hj.
Qed.

Lemma basics_accepted config leaf rest :
  validate_basics (DbErr := DbErr) config 0 (leaf :: rest) = Ok tt ↔
  Forall (λ c, signature_algorithm c ∈ allowed_signature_algorithms config) (leaf :: rest) ∧
  in_window config leaf.
Proof.
  rewrite validate_basics_ok. split.
  - intros Hj. split; [|by apply (Hj O)]. apply Forall_lookup. intros j c Hc. by apply (Hj j c Hc).
  - intros [Ha Hw] j c Hc. split; [by eapply Forall_lookup in Ha|]. intros Hj.
    destruct j; [|lia]. by injection Hc as <-.
Qed.

(** *** Signatures *)

Inductive links : list OsslX509 → Prop :=
  | links_one x : links [x]
  | links_cons x y l : signature_by x y → links (y :: l) → links (x :: y :: l).

Lemma verify_links_ok i xs : xs ≠ [] → verify_links (DbErr := DbErr) i xs = Ok tt ↔ links xs.
Proof.
  revert i. induction xs as [|x [|y xs] IH]; intros i Hne; [done|split; [constructor|done]|].
  cbn [verify_links]. split.
  - intros (k & Hk%map_err_Ok_inv & (b & Hb%map_err_Ok_inv & Hr)%bind_Ok_inv)%bind_Ok_inv.
    destruct b; [|done]. constructor; [by exists k|]. by apply (IH (i + 1)).
  - inversion 1 as [|? ? ? (k & Hk & Hv) Hl]; subst. rewrite Hk. cbn [map_err]. rewrite bind_Ok, Hv.
    cbn. by apply IH.
Qed.

Lemma links_linked certs xs :
  Forall2 (λ c x, x509_of (DbErr := DbErr) c = Ok x) certs xs → links xs ↔ linked certs.
Proof.
  intros Hx. split.
  - intros Hl. revert certs Hx. induction Hl as [x|x y l Hxy _ IH]; intros certs Hx.
    + inversion Hx as [|c ? ? ? Hc Hn]; subst. inversion Hn; subst. by econstructor.
    + inversion Hx as [|c ? cs ? Hc Hcs]; subst. inversion Hcs as [|d ? ds ? Hd Hds]; subst.
      constructor; [by exists x, y|]. by apply IH.
  - intros Hl. revert xs Hx. induction Hl as [c x Hc|c d l (x & y & Hc & Hd & Hs) _ IH]; intros xs Hx.
    + inversion Hx as [|? ? ? ? ? Hn]; subst. inversion Hn; subst. constructor.
    + inversion Hx as [|? x' ? ? Hx' Hy]; subst. inversion Hy as [|? y' ? ? Hy' ?]; subst.
      assert (x' = x) as -> by congruence. assert (y' = y) as -> by congruence. constructor; auto.
Qed.

Lemma linked_converts certs : linked certs → ∃ xs, Forall2 (λ c x, x509_of (DbErr := DbErr) c = Ok x) certs xs.
Proof.
  induction 1 as [c x Hc|c d l (x & y & Hc & _) _ [xs IH]]; [exists [x]; by repeat constructor|].
  exists (x :: xs). by constructor.
Qed.

Lemma self_signed_ok x cert :
  x509_of (DbErr := DbErr) cert = Ok x →
  verify_self_signed (DbErr := DbErr) x cert = Ok tt ↔ (issued cert cert → signed_by cert cert).
Proof.
  intros Hx. unfold verify_self_signed, issued. case_bool_decide as Hi.
  - split.
    + intros (k & Hk%map_err_Ok_inv & (b & Hb%map_err_Ok_inv & Hr)%bind_Ok_inv)%bind_Ok_inv _.
      destruct b; [|done]. exists x, x. split; [done|]. split; [done|]. by exists k.
    + intros Hs. destruct Hs as (x' & y & Hx' & Hy & k & Hk & Hv); [done|].
      assert (x' = x) as -> by congruence. assert (y = x) as -> by congruence.
      rewrite Hk. cbn [map_err]. by rewrite bind_Ok, Hv.
  - split; [by intros _ Heq|done].
Qed.

Lemma last_Forall2 {A B} (P : A → B → Prop) l k :
  Forall2 P l k → match last l, last k with Some a, Some b => P a b | None, None => True | _, _ => False end.
Proof.
  induction 1 as [|x y l k Hxy Hl IH]; [done|]. destruct Hl; [done|]. done.
Qed.

Lemma signatures_ok certs :
  certs ≠ [] →
  signatures_ref (DbErr := DbErr) certs = Ok tt ↔
  linked certs ∧ (∀ c, last certs = Some c → issued c c → signed_by c c).
Proof.
  intros Hne. unfold signatures_ref.
  rewrite bool_decide_eq_false_2 by (by destruct certs). split.
  - intros (xs & Hxs%mapM_Forall2 & ([] & Hl & Hk)%bind_Ok_inv)%bind_Ok_inv.
    apply bind_Ok_inv in Hk as (lx & Hlx & (lc & Hlc & Hs)%bind_Ok_inv).
    pose proof (last_Forall2 _ _ _ Hxs) as Hlast.
    destruct (last certs) as [c|]; [|done]. destruct (last xs) as [x|]; [|done].
    injection Hlx as <-. injection Hlc as <-. split.
    + eapply links_linked; [done|]. apply (verify_links_ok 0); [|done]. by destruct Hxs.
    + intros c' [= <-]. by apply (self_signed_ok x).
  - intros [Hl Hs]. destruct (linked_converts _ Hl) as [xs Hxs].
    rewrite (proj2 (mapM_Forall2 _ _ _) Hxs), bind_Ok.
    rewrite (proj2 (verify_links_ok 0 xs ltac:(by destruct Hxs))) by (by eapply links_linked).
    rewrite bind_Ok. pose proof (last_Forall2 _ _ _ Hxs) as Hlast.
    destruct (last xs) as [x|] eqn:Hx, (last certs) as [c|] eqn:Hc; try done.
    + cbn [expect]. rewrite !bind_Ok. apply (self_signed_ok x c Hlast), Hs. done.
    + apply last_None in Hc. done.
Qed.

(** *** Roots *)

Lemma issued_by_root_sound cert x roots :
  issued_by_root_ref (DbErr := DbErr) cert x roots = Ok true →
  ∃ root y, root ∈ roots ∧ issued cert root ∧ x509_of (DbErr := DbErr) root = Ok y ∧ signature_by x y.
Proof.
  induction roots as [|root roots IH]; cbn [issued_by_root_ref]; [done|].
  assert (issued_by_root_ref (DbErr := DbErr) cert x roots = Ok true →
    ∃ r y, r ∈ root :: roots ∧ issued cert r ∧ x509_of (DbErr := DbErr) r = Ok y ∧ signature_by x y) as IH'.
  { intros (r & y & Hr & ?)%IH. exists r, y. split; [by right|done]. }
  case_bool_decide as Hi; [|exact IH'].
  intros (y & Hy & (k & Hk%map_err_Ok_inv & Hv)%bind_Ok_inv)%bind_Ok_inv.
  destruct (x509_verify x k) as [[]|e| |] eqn:Hx; [|exact (IH' Hv)|exact (IH' Hv)|done|done].
  exists root, y. split; [left|]. split; [done|]. split; [done|by exists k].
Qed.

(** [openssl] can parse the root and read its key. *)
Definition usable root : Prop :=
  ∃ x k, x509_of (DbErr := DbErr) root = Ok x ∧ public_key x = Ok k.

Context `{!OpenSslLaws}.

Lemma cert_digest_converts cert x :
  x509_of (DbErr := DbErr) cert = Ok x → ∃ h, cert_digest (DbErr := DbErr) cert = Ok h.
Proof. intros (b & Hb & _)%bind_Ok_inv. unfold cert_digest. rewrite Hb. by eexists. Qed.

Lemma issued_by_root_complete cert x roots :
  Forall usable roots →
  ∃ b, issued_by_root_ref (DbErr := DbErr) cert x roots = Ok b ∧
    ((∃ root y, root ∈ roots ∧ issued cert root ∧ x509_of (DbErr := DbErr) root = Ok y ∧ signature_by x y) →
     b = true).
Proof.
  induction 1 as [|root roots (y & k & Hy & Hk) _ (b & IH & Hb)]; cbn [issued_by_root_ref].
  { exists false. split; [done|]. intros (r & _ & Hr & _). by apply not_elem_of_nil in Hr. }
  assert (x509_verify x k ≠ Ok true ∨ ¬ issued cert root →
    (∃ r y', r ∈ root :: roots ∧ issued cert r ∧ x509_of (DbErr := DbErr) r = Ok y' ∧ signature_by x y') → b = true) as Hno.
  { intros Hno (r & y' & [->|Hr]%elem_of_cons & Hi & Hy' & Hs); [|by apply Hb; exists r, y'].
    exfalso. destruct Hs as (k' & Hk' & Hv). assert (y' = y) as -> by congruence.
    assert (k' = k) as -> by congruence. by destruct Hno. }
  case_bool_decide as Hi; [|by exists b; split; [|apply Hno; right]].
  rewrite Hy, bind_Ok, Hk. cbn [map_err]. rewrite bind_Ok. pose proof (x509_verify_total x k) as Ht.
  destruct (x509_verify x k) as [[]|e| |] eqn:Hv; try done.
  - destruct (cert_digest_converts root y Hy) as [h ->]. by exists true.
  - exists b. split; [done|]. apply Hno. by left.
  - exists b. split; [done|]. apply Hno. by left.
Qed.

Lemma any_issued_ok roots certs xs :
  Forall2 (λ c x, x509_of (DbErr := DbErr) c = Ok x) certs xs →
  (any_issued_ref (DbErr := DbErr) roots (zip certs xs) = Ok true →
     ∃ c root, c ∈ certs ∧ root ∈ roots ∧ issued c root ∧ signed_by c root) ∧
  (Forall usable roots →
     (∃ c root, c ∈ certs ∧ root ∈ roots ∧ issued c root ∧ signed_by c root) →
     any_issued_ref (DbErr := DbErr) roots (zip certs xs) = Ok true).
Proof.
  induction 1 as [|c x certs xs Hx _ [IH1 IH2]]; cbn [zip zip_with any_issued_ref].
  { split; [done|]. intros _ (c & _ & Hc & _). by apply not_elem_of_nil in Hc. }
  split.
  - intros ([] & Hf & Hr)%bind_Ok_inv.
    + apply issued_by_root_sound in Hf as (root & y & Hroot & Hi & Hy & Hs).
      exists c, root. split; [left|]. split; [done|]. split; [done|]. by exists x, y.
    + destruct (IH1 Hr) as (d & root & Hd & ?). exists d, root. split; [by right|done].
  - intros Hu (d & root & Hd & Hroot & Hi & Hs).
    destruct (issued_by_root_complete c x roots Hu) as ([] & Hb & Hiff); rewrite Hb, bind_Ok; [done|].
    apply IH2; [done|]. apply elem_of_cons in Hd as [->|Hd]; [|by exists d, root].
    exfalso. destruct Hs as (x' & y & Hx' & Hy & Hs). assert (x' = x) as -> by congruence.
    by specialize (Hiff ltac:(by exists root, y)).
Qed.

(** The hashes are those of the roots. *)
Definition root_hashes_ok (roots : list X509Certificate) (hashes : gset bytes) : Prop :=
  ∀ h, h ∈ hashes ↔ ∃ root, root ∈ roots ∧ cert_digest (DbErr := DbErr) root = Ok h.

Context (D : bytes → Prop) (D_inj : ∀ b b', D b → D b' → digest b = digest b' → b = b').

Lemma trusted_last roots hashes c h :
  root_hashes_ok roots hashes → in_domain D c → Forall (in_domain D) roots →
  cert_digest (DbErr := DbErr) c = Ok h →
  h ∈ hashes ↔ ∃ root b, root ∈ roots ∧ cert_to_der c = Ok b ∧ cert_to_der root = Ok b.
Proof.
  intros Hh Hc Hroots (b & Hb%map_err_Ok_inv & [= <-])%bind_Ok_inv. pose proof (Hh (digest b)) as Hhb. rewrite Hhb. split.
  - intros (root & Hr & (b' & Hb'%map_err_Ok_inv & [= Heq])%bind_Ok_inv). exists root, b.
    split; [done|]. split; [done|]. apply D_inj in Heq as <-; [done| |by apply Hc].
    eapply Forall_forall in Hroots; [|done]. by apply Hroots.
  - intros (root & b' & Hr & Hb' & Hroot). exists root. split; [done|].
    unfold cert_digest, certificate_to_der. rewrite Hroot. cbn.
    assert (b' = b) as -> by congruence. done.
Qed.

Lemma to_root_sound roots hashes certs :
  root_hashes_ok roots hashes → Forall (in_domain D) certs → Forall (in_domain D) roots →
  to_root_ref (DbErr := DbErr) roots hashes certs = Ok tt → anchored roots certs.
Proof.
  intros Hh Hc Hr. unfold to_root_ref. destruct (bool_decide _); [done|].
  intros (c & Hl & (h & Hd & Hk)%bind_Ok_inv)%bind_Ok_inv.
  destruct (last certs) as [c'|] eqn:Hlast; [|done]. injection Hl as ->.
  case_bool_decide as Hin.
  - left. apply (trusted_last roots hashes c h) in Hin as (root & b & ? & ? & ?); [|done| |done|done].
    + by exists c, root, b.
    + eapply Forall_forall in Hc; [done|]. by apply last_Some_elem_of.
  - apply bind_Ok_inv in Hk as (xs & Hxs%mapM_Forall2 & (found & Hf & Hk)%bind_Ok_inv).
    destruct found; [|done]. right. by apply (any_issued_ok roots certs xs).
Qed.

Lemma to_root_complete roots hashes certs :
  root_hashes_ok roots hashes → Forall (in_domain D) certs → Forall (in_domain D) roots →
  Forall usable roots → linked certs → anchored roots certs →
  to_root_ref (DbErr := DbErr) roots hashes certs = Ok tt.
Proof.
  intros Hh Hc Hr Hu Hl Ha. destruct (linked_converts _ Hl) as [xs Hxs]. unfold to_root_ref.
  rewrite bool_decide_eq_false_2 by
    (destruct Ha as [(_ & r & _ & _ & Hroot & _)|(_ & r & _ & Hroot & _)]; by destruct roots; [apply not_elem_of_nil in Hroot|]).
  pose proof (last_Forall2 _ _ _ Hxs) as Hlast.
  destruct (last certs) as [c|] eqn:Hcl; [|by apply last_None in Hcl as ->; inversion Hl].
  destruct (last xs) as [x|]; [|done]. cbn [expect]. rewrite bind_Ok.
  destruct (cert_digest_converts c x Hlast) as [h Hd]. rewrite Hd, bind_Ok.
  case_bool_decide as Hin; [done|]. rewrite (proj2 (mapM_Forall2 _ _ _) Hxs), bind_Ok.
  assert (in_domain D c) as Hcd by (eapply Forall_forall in Hc; [done|by apply last_Some_elem_of]).
  destruct Ha as [(c' & root & b & Heq & Hroot & Hb & Hb')|Hs].
  - assert (c' = c) as -> by congruence. destruct Hin. apply (trusted_last roots hashes c h Hh Hcd Hr Hd). by exists root, b.
  - by rewrite (proj2 (any_issued_ok roots certs xs Hxs) Hu Hs), bind_Ok.
Qed.

End Accepted.

(** ** The theorems *)

Section Validation.
  Context `{X509} `{!X509Laws} `{OpenSsl} `{!OpenSslLaws}.
  Context `{!Cache bytes OsslX509} `{!CacheLaws bytes OsslX509} `{Digest} `{TimeFormat} {DbErr : Type}.
  Abbreviation CErr := (CtError DbErr).
  Implicit Types (v : Rfc6962Validator) (chain : list bytes) (context : ChainValidationContext).

Lemma parse_chain_ok i chain certs :
  parse_chain (DbErr := DbErr) i chain = Ok certs ↔ Forall2 (λ b c, from_der b = Ok c) chain certs.
Proof.
  revert i certs. induction chain as [|b chain IH]; intros i certs; cbn [parse_chain]; split.
  - intros [= <-]. constructor.
  - by inversion 1.
  - intros (c & Hc%map_err_Ok_inv & (cs & Hcs & [= <-])%bind_Ok_inv)%bind_Ok_inv.
    constructor; [done|]. by apply (IH (i + 1)).
  - inversion 1 as [|? c ? cs Hc Hcs]; subst. rewrite Hc. cbn [map_err]. rewrite bind_Ok.
    by rewrite (proj2 (IH (i + 1) cs) Hcs).
Qed.

(** What the analysis of a chain finds. *)
Definition signing_second (certs : list X509Certificate) : bool :=
  match certs with _ :: s :: _ => Extractor.signing_cert s | _ => false end.
Definition analyzed v chain context : Prop :=
  let certs := parsed_chain context in
  zlen chain ≤ max_chain_length (config v) ∧ Forall2 (λ b c, from_der b = Ok c) chain certs ∧
  (∃ leaf rest, certs = leaf :: rest ∧ is_precertificate (DbErr := DbErr) leaf = Ok (is_precert context)) ∧
  has_signing_cert context = is_precert context && signing_second certs ∧
  real_issuer_index context = (if has_signing_cert context then 2%nat else 1%nat) ∧
  (has_signing_cert context = true → (3 ≤ length certs)%nat).

Lemma analyze_chain_ok v chain context :
  analyze_chain (DbErr := DbErr) v chain = Ok context ↔ analyzed v chain context.
Proof.
  unfold analyze_chain, analyzed. split.
  - destruct (bool_decide (chain = [])); [done|]. destruct (Z.ltb_spec (max_chain_length (config v)) (zlen chain)); [done|].
    intros (certs & Hp%parse_chain_ok & (leaf & Hl & (pre & Hpre & Hk)%bind_Ok_inv)%bind_Ok_inv)%bind_Ok_inv.
    destruct certs as [|leaf' rest]; [done|]. injection Hl as ->.
    apply bind_Ok_inv in Hk as ([sg idx] & Hs & [= <-]). cbn [parsed_chain is_precert has_signing_cert real_issuer_index].
    split; [lia|]. split; [done|]. split; [by eexists _, _|].
    destruct pre; cbn [andb] in Hs |- *; [|injection Hs as <- <-; by repeat split].
    destruct rest as [|s rest]; cbn in Hs; [injection Hs as <- <-; by repeat split|].
    rewrite signing_certificate_agrees, bind_Ok in Hs. cbn [signing_second].
    destruct (Extractor.signing_cert s); [|injection Hs as <- <-; by repeat split].
    destruct rest; cbn in Hs; [done|]. injection Hs as <- <-. repeat split. cbn. lia.
  - intros (Hmax & Hp & (leaf & rest & Hcs & Hpre) & Hsg & Hidx & Hlen).
    destruct context as [pre sg idx certs]. cbn in *. subst certs sg idx.
    rewrite bool_decide_eq_false_2 by (by inversion Hp).
    rewrite (proj2 (Z.ltb_ge _ _)) by lia. rewrite (proj2 (parse_chain_ok 0 chain _) Hp), bind_Ok. cbn.
    rewrite Hpre. cbn. destruct pre; cbn; [|done]. destruct rest as [|s rest]; cbn; [done|].
    rewrite signing_certificate_agrees. cbn. cbn in Hlen. destruct (Extractor.signing_cert s); cbn; [|done].
    destruct rest; [cbn in Hlen; specialize (Hlen eq_refl); lia|done].
Qed.

Lemma analyze_chain_total v chain : total (analyze_chain (DbErr := DbErr) v chain).
Proof.
  unfold analyze_chain. case_bool_decide as Hne; [done|]. apply total_if; [done|]. apply total_bind.
  { clear Hne. generalize 0. induction chain as [|b chain IH]; intros i; cbn [parse_chain]; [done|].
    apply total_bind; [auto with ct|]. intros c _. apply total_bind; [by apply IH|done]. }
  intros certs Hp%parse_chain_ok. destruct certs as [|leaf rest]; [by inversion Hp; subst|]. cbn [lookup].
  apply total_bind; [done|]. intros x [= ->]. apply total_bind; [apply is_precertificate_total|].
  intros pre _. apply total_bind; [|by intros [? ?] _]. destruct pre, rest as [|s rest]; cbn; try done.
  rewrite signing_certificate_agrees. cbn. destruct (Extractor.signing_cert s); [|done]. by destruct rest.
Qed.

Lemma x509_of_total c : total (x509_of (DbErr := DbErr) c).
Proof.
  apply total_bind; [unfold certificate_to_der; auto with ct|]. intros b _.
  apply total_map_err, x509_from_der_total.
Qed.

Lemma verify_links_total i xs : total (verify_links (DbErr := DbErr) i xs).
Proof.
  revert i. induction xs as [|x [|y xs] IH]; intros i; [done|done|]. cbn [verify_links].
  apply total_bind; [apply total_map_err, public_key_total|]. intros k _.
  apply total_bind; [apply total_map_err, x509_verify_total|]. intros [] _; cbn [negb]; [apply IH|done].
Qed.

Lemma cert_digest_total c : total (cert_digest (DbErr := DbErr) c).
Proof. apply total_bind; [unfold certificate_to_der; auto with ct|done]. Qed.

Lemma issued_by_root_total c x roots : total (issued_by_root_ref (DbErr := DbErr) c x roots).
Proof.
  induction roots as [|root roots IH]; cbn [issued_by_root_ref]; [done|]. apply total_if; [|done].
  apply total_bind; [apply x509_of_total|]. intros y _.
  apply total_bind; [apply total_map_err, public_key_total|]. intros k _.
  pose proof (x509_verify_total x k). destruct (x509_verify x k) as [[]|e| |]; try done.
  apply total_bind; [apply cert_digest_total|done].
Qed.

Lemma any_issued_total roots certs : total (any_issued_ref (DbErr := DbErr) roots certs).
Proof.
  induction certs as [|[c x] certs IH]; cbn [any_issued_ref]; [done|].
  apply total_bind; [apply issued_by_root_total|]. by intros [] _.
Qed.

Lemma validate_basics_total cfg i certs : total (validate_basics (DbErr := DbErr) cfg i certs).
Proof.
  revert i. induction certs as [|c cs IH]; intros i; cbn [validate_basics]; [done|].
  apply total_bind; [|intros _ _; apply IH]. unfold validate_certificate_basic.
  repeat apply total_if; try done. destruct (temporal_window cfg); by repeat apply total_if.
Qed.

Lemma validate_context_total cfg roots hashes context :
  parsed_chain context ≠ [] → (has_signing_cert context = true → (3 ≤ length (parsed_chain context))%nat) →
  total (validate_context_ref (DbErr := DbErr) cfg roots hashes context).
Proof.
  intros Hne Hlen. unfold validate_context_ref. apply total_bind.
  { apply validate_basics_total. }
  intros _ _. assert (∃ l, last (parsed_chain context) = Some l) as [l Hl].
  { destruct (last (parsed_chain context)) eqn:E; [by eexists|]. by apply last_None in E. }
  apply total_bind.
  { destruct (has_signing_cert context); [|by rewrite andb_false_r]. specialize (Hlen eq_refl).
    apply total_if; [|done]. destruct (parsed_chain context) as [|? [|? [|? ?]]]; cbn in Hlen; try lia.
    cbn. unfold verify_precert_signing_cert. by apply total_if. }
  intros _ _. apply total_bind.
  - unfold to_root_ref. rewrite Hl. apply total_if; [done|]. cbn [expect]. rewrite bind_Ok.
    apply total_bind; [apply cert_digest_total|]. intros h _. apply total_if; [done|].
    apply total_bind; [apply total_mapM; intros; apply x509_of_total|]. intros xs _.
    apply total_bind; [apply any_issued_total|]. by intros [] _.
  - intros _ _. unfold signatures_ref. apply total_if; [done|].
    apply total_bind; [apply total_mapM; intros; apply x509_of_total|]. intros xs Hxs%mapM_Forall2.
    apply total_bind; [apply verify_links_total|]. intros _ _. apply last_Forall2 in Hxs. rewrite Hl in *.
    destruct (last xs) as [x|]; [|done]. cbn. unfold verify_self_signed. apply total_if; [|done].
    apply total_bind; [apply total_map_err, public_key_total|]. intros k _.
    apply total_bind; [apply total_map_err, x509_verify_total|]. by intros [] _.
Qed.

Context (D : bytes → Prop) (D_inj : ∀ b b', D b → D b' → digest b = digest b' → b = b').

(** The invariant of a validator, and the chains whose encodings are told apart. *)
Definition validator_inv v : Prop :=
  cache_inv D v ∧ root_hashes_ok (DbErr := DbErr) (trusted_roots v) (trusted_root_hashes v) ∧
  Forall (in_domain D) (trusted_roots v).
Definition chain_domain chain : Prop := ∀ b c, b ∈ chain → from_der b = Ok c → in_domain D c.

Lemma with_trusted_roots_inv cfg roots v :
  with_trusted_roots (DbErr := DbErr) cfg roots = Ok v → Forall (in_domain D) roots →
  validator_inv v ∧ config v = cfg ∧ trusted_roots v = roots.
Proof.
  unfold with_trusted_roots. intros (hs & Hhs%mapM_Forall2 & [= <-])%bind_Ok_inv Hd. split; [|done].
  split_and!; [|split|done]; cbn [x509_cache trusted_roots trusted_root_hashes].
  - unfold cache_inv. cbn. rewrite cache_new_law. apply map_Forall_empty.
  - rewrite elem_of_list_to_set. intros [i Hi]%list_elem_of_lookup.
    destruct (Forall2_lookup_r _ _ _ _ _ Hhs Hi) as (root & Hr & ?). exists root.
    split; [by eapply list_elem_of_lookup_2|done].
  - intros (root & [i Hi]%list_elem_of_lookup & Hr). destruct (Forall2_lookup_l _ _ _ _ _ Hhs Hi) as (h' & Hh' & Heq).
    rewrite elem_of_list_to_set. assert (h' = h) as -> by congruence. by eapply list_elem_of_lookup_2.
Qed.

Lemma same_validator_inv v v' : validator_inv v → same_validator D v v' → validator_inv v'.
Proof. intros (_ & Hh & Hd) (_ & Hr & Hhs & Hc). split; [done|]. by rewrite Hr, Hhs. Qed.

Lemma chain_domain_parsed chain certs :
  chain_domain chain → Forall2 (λ b c, from_der b = Ok c) chain certs → Forall (in_domain D) certs.
Proof.
  intros Hd Hp. apply Forall_lookup. intros i c Hc.
  destruct (Forall2_lookup_r _ _ _ _ _ Hp Hc) as (b & Hb & Hf). eapply Hd; [|exact Hf].
  by eapply list_elem_of_lookup_2.
Qed.

(** A validation is the one without a cache. *)
Lemma validate_chain_run v chain :
  validator_inv v → chain_domain chain →
  (validate_chain (DbErr := DbErr) chain v).1 =
    (context ← analyze_chain v chain;
     validate_context_ref (config v) (trusted_roots v) (trusted_root_hashes v) context) ∧
  same_validator D v (validate_chain (DbErr := DbErr) chain v).2.
Proof.
  intros (Hc & Hh & Hd) Hch. unfold validate_chain. apply computes_bind; [apply computes_lift| |by repeat split].
  intros context (_ & Hp & _)%analyze_chain_ok. apply validate_context_computes; [done..|].
  by eapply chain_domain_parsed.
Qed.

Lemma validate_context_accepts v chain context :
  validator_inv v → chain_domain chain → analyzed v chain context →
  (validate_context_ref (DbErr := DbErr) (config v) (trusted_roots v) (trusted_root_hashes v) context = Ok tt →
     chain_accepted (DbErr := DbErr) (config v) (trusted_roots v) chain (parsed_chain context)) ∧
  (Forall (usable (DbErr := DbErr)) (trusted_roots v) →
     chain_accepted (DbErr := DbErr) (config v) (trusted_roots v) chain (parsed_chain context) →
     validate_context_ref (DbErr := DbErr) (config v) (trusted_roots v) (trusted_root_hashes v) context = Ok tt).
Proof.
  intros (_ & Hh & Hroots) Hch (Hmax & Hp & (leaf & rest & Hcs & Hpre) & Hsg & _ & Hlen).
  pose proof (chain_domain_parsed _ _ Hch Hp) as Hd. unfold validate_context_ref.
  assert (parsed_chain context ≠ []) as Hne by (by rewrite Hcs). split.
  - intros ([] & Hb & ([] & Hs & ([] & Hr & Hsig)%bind_Ok_inv)%bind_Ok_inv)%bind_Ok_inv.
    apply signatures_ok in Hsig as [Hl Hself]; [|done]. apply (to_root_sound D D_inj) in Hr; [|done..].
    rewrite Hcs in Hb. apply basics_accepted in Hb as [Ha Hw]. rewrite <- Hcs in Ha.
    split; try done; [by eexists _, _; split; [|split; [|eexists]]|].
    intros p s rest' Heq Hpc Hsc. apply (is_precertificate_agrees (DbErr := DbErr)) in Hpc.
    assert (p = leaf) as -> by congruence. rewrite Heq in Hsg. cbn in Hsg.
    assert (is_precert context = true) as Hip by congruence. rewrite Hip, Hsc in Hsg.
    rewrite Hip, Hsg, Heq in Hs. cbn in Hs. destruct rest' as [|real rest']; [done|]. cbn in Hs.
    unfold verify_precert_signing_cert in Hs. case_bool_decide; [|done]. by eexists _, _.
  - intros Hu [_ _ (leaf' & rest' & Hcs' & Hw & _) Ha Hs Han Hl Hself].
    assert (leaf' = leaf) as -> by congruence. rewrite (proj2 (signatures_ok _ Hne)) by done.
    rewrite (to_root_complete D D_inj) by done. rewrite Hcs in Ha |- * at 1.
    rewrite (proj2 (basics_accepted _ _ _) (conj Ha Hw)), !bind_Ok.
    destruct (is_precert context) eqn:Hip; [|done]. destruct (has_signing_cert context) eqn:Hh'; [|done].
    symmetry in Hsg. cbn [andb] in Hsg |- *. destruct rest as [|s rest]; rewrite Hcs in Hsg; [done|].
    destruct (Hs leaf s rest Hcs) as (real & rest'' & -> & Hi); [by apply (is_precertificate_agrees (DbErr := DbErr))|done|].
    rewrite Hcs. cbn. unfold verify_precert_signing_cert. by rewrite bool_decide_eq_true_2.
Qed.

Lemma validate_chain_outcome v chain :
  validator_inv v → chain_domain chain →
  same_validator D v (validate_chain (DbErr := DbErr) chain v).2 ∧
  match (validate_chain (DbErr := DbErr) chain v).1 with
  | Ok _ => ∃ certs, chain_accepted (DbErr := DbErr) (config v) (trusted_roots v) chain certs
  | Err _ => True
  | _ => False
  end.
Proof.
  intros Hv Hch. destruct (validate_chain_run v chain Hv Hch) as [-> Hs]. split; [done|].
  pose proof (analyze_chain_total v chain) as Ht.
  destruct (analyze_chain v chain) as [context|e| |] eqn:Ha; try done.
  apply analyze_chain_ok in Ha. rewrite bind_Ok. destruct (validate_context_accepts v chain context) as [Hok _]; [done..|].
  destruct Ha as (_ & _ & (leaf & rest & Hcs & _) & _ & _ & Hlen).
  pose proof (validate_context_total (config v) (trusted_roots v) (trusted_root_hashes v) context
    ltac:(by rewrite Hcs) Hlen) as Hvt.
  destruct (validate_context_ref _ _ _ _) as [[]| | |]; try done. eexists. by apply Hok.
Qed.

(** C23: a validation returns, and a chain it accepts is one of
    [chain_accepted]: at most as long as configured, every certificate with an
    allowed signature algorithm and signed by the next one, the first expiring
    in the log's window and without a malformed poison extension, a
    precertificate signing certificate followed by its issuer, the last one
    self-signed correctly if its names say so, and the chain anchored in a
    trusted root.  Only the cache of the validator changes. *)
Theorem validate_chain_sound v chain :
  validator_inv v → chain_domain chain →
  same_validator D v (validate_chain (DbErr := DbErr) chain v).2 ∧
  match (validate_chain (DbErr := DbErr) chain v).1 with
  | Ok _ => ∃ certs, chain_accepted (DbErr := DbErr) (config v) (trusted_roots v) chain certs
  | Err _ => True
  | _ => False
  end.
Proof. apply validate_chain_outcome. Qed.


(** The cache of converted certificates changes no answer, error messages
    included: a validation answers as with an empty cache. *)
Theorem x509_cache_transparent v chain :
  validator_inv v → chain_domain chain →
  (validate_chain (DbErr := DbErr) chain v).1 =
  (validate_chain (DbErr := DbErr) chain (with_cache v cache_new)).1.
Proof.
  intros Hv Hch. destruct (validate_chain_run v chain Hv Hch) as [-> _].
  destruct (validate_chain_run (with_cache v cache_new) chain) as [-> _]; [|done|done].
  destruct Hv as (_ & ? & ?). split; [|done]. unfold cache_inv. cbn. rewrite cache_new_law.
  apply map_Forall_empty.
Qed.

(** ** The issuer of a precertificate *)

(** The CA that issues the certificate for a precertificate with the chain
    [rest]. *)
Inductive issuing_ca : list bytes → X509Certificate → Prop :=
  | issuing_direct c rest cert :
      from_der c = Ok cert → Extractor.signing_cert cert = false → issuing_ca (c :: rest) cert
  | issuing_signing c r rest cert real :
      from_der c = Ok cert → Extractor.signing_cert cert = true → from_der r = Ok real →
      issuing_ca (c :: r :: rest) real.

Lemma issuer_key_hash_outcome v p rest :
  match extract_issuer_key_hash (DbErr := DbErr) v (p :: rest) with
  | Ok h => ∃ real spki, issuing_ca rest real ∧
      spki_to_der (subject_public_key_info (tbs_certificate real)) = Ok spki ∧ h = digest spki ∧
      ∀ name key, Extractor.final_issuer rest (Some (name, key)) → name = subject (tbs_certificate real)
  | Err _ => True
  | Panic => rest = [] ∧ ∃ cert, from_der p = Ok cert ∧ Extractor.precertificate cert
  | Fuel => False
  end.
Proof.
  unfold extract_issuer_key_hash. pose proof (analyze_chain_total v (p :: rest)) as Ht.
  destruct (analyze_chain v (p :: rest)) as [context|e| |] eqn:Ha; try done. rewrite bind_Ok.
  apply analyze_chain_ok in Ha as (_ & Hp & (leaf & certs & Hcs & Hpre) & Hsg & Hidx & Hlen).
  destruct (is_precert context); [|done]. cbn [negb andb] in *. rewrite Hcs in *.
  inversion Hp as [|? ? ? ? Hleaf Hrest]; subst. apply (is_precertificate_agrees (DbErr := DbErr)) in Hpre.
  rewrite Hidx. destruct Hrest as [|c s rest certs Hs Hrest]; cbn [signing_second] in Hsg.
  { rewrite Hsg. cbn. eauto. }
  assert (∀ real, (leaf :: s :: certs) !! (if has_signing_cert context then 2%nat else 1%nat) = Some real →
    issuing_ca (c :: rest) real ∧
    ∀ name key, Extractor.final_issuer (c :: rest) (Some (name, key)) → name = subject (tbs_certificate real)) as Hreal.
  { intros real. destruct (has_signing_cert context).
    - cbn. destruct Hrest as [|r t rest certs Hr _]; [done|]. cbn. intros [= <-]. split; [by econstructor|].
      inversion 1; subst. congruence.
    - cbn. intros [= <-]. split; [by econstructor|]. inversion 1; subst. congruence. }
  destruct ((leaf :: s :: certs) !! _) as [real|] eqn:Hl; cbn [expect].
  - rewrite bind_Ok. destruct (Hreal real eq_refl) as [Hca Hname].
    pose proof (spki_to_der_total (subject_public_key_info (tbs_certificate real))) as Hst.
    destruct (spki_to_der _) as [spki|e| |] eqn:Hspki; try done. exists real, spki. done.
  - destruct (has_signing_cert context); [|done]. specialize (Hlen eq_refl). cbn in Hlen.
    apply lookup_ge_None in Hl. cbn in Hl. lia.
Qed.

(** A chain of which the issuer key hash can be asked. *)
Definition precert_chain v p rest : Prop :=
  zlen (p :: rest) ≤ max_chain_length (config v) ∧
  Forall (λ b, ∃ cert, from_der b = Ok cert) (p :: rest) ∧
  ∃ cert, from_der p = Ok cert ∧ Extractor.precertificate cert.

Lemma key_hash_precert_chain v p rest :
  match extract_issuer_key_hash (DbErr := DbErr) v (p :: rest) with
  | Ok _ | Panic => precert_chain v p rest
  | _ => True
  end.
Proof.
  unfold extract_issuer_key_hash. pose proof (analyze_chain_total v (p :: rest)) as Ht.
  destruct (analyze_chain v (p :: rest)) as [context|e| |] eqn:Ha; try done. rewrite bind_Ok.
  apply analyze_chain_ok in Ha as (Hmax & Hp & (leaf & certs & Hcs & Hpre) & _).
  destruct (is_precert context); [|done]. cbn [negb].
  assert (precert_chain v p rest) as Hc; [|by destruct (mbind _ _)].
  split; [done|]. rewrite Hcs in Hp. split.
  - clear -Hp. induction Hp; constructor; eauto.
  - inversion Hp as [|? ? ? ? Hleaf Hrest]; subst. exists leaf. split; [done|].
    by apply (is_precertificate_agrees (DbErr := DbErr)).
Qed.

(** On such a chain the hash is that of the certificate at the position of the
    issuer, unless the chain ends with a signing certificate. *)
Lemma key_hash_run v p rest :
  precert_chain v p rest →
  ∃ leaf certs, Forall2 (λ b c, from_der b = Ok c) (p :: rest) (leaf :: certs) ∧
    let sg := signing_second (leaf :: certs) in
    ((sg = true → 2 ≤ length certs)%nat →
     extract_issuer_key_hash (DbErr := DbErr) v (p :: rest) =
       (real_issuer ← expect ((leaf :: certs) !! (if sg then 2%nat else 1%nat));
        spki_der ← map_err (λ e, Internal ("Failed to encode SPKI: " +:+ e))
                     (spki_to_der (subject_public_key_info (tbs_certificate real_issuer)));
        mret (digest spki_der))).
Proof.
  intros (Hmax & Hall & leaf & Hleaf & Hpre).
  assert (∃ cs, Forall2 (λ b c, from_der b = Ok c) (p :: rest) cs) as [cs Hcs].
  { clear -Hall. induction Hall as [|b l [c Hb] _ [cs IH]]; [by exists []|]. exists (c :: cs). by constructor. }
  inversion Hcs as [|? leaf' ? certs Hl Hrest]; subst. assert (leaf' = leaf) as -> by congruence.
  exists leaf, certs. split; [done|]. cbn zeta. intros Hlen.
  set (sg := signing_second (leaf :: certs)) in *.
  set (context := {| is_precert := true; has_signing_cert := sg;
    real_issuer_index := if sg then 2%nat else 1%nat; parsed_chain := leaf :: certs |}).
  assert (analyzed v (p :: rest) context) as Han.
  { repeat split; [done|done| |intros Hs; specialize (Hlen Hs); cbn; lia].
    exists leaf, certs. split; [done|]. by apply is_precertificate_agrees. }
  unfold extract_issuer_key_hash. by rewrite (proj2 (analyze_chain_ok _ _ _) Han), bind_Ok.
Qed.

(** The certificate authority is at the position of the issuer. *)
Lemma issuing_ca_lookup p rest leaf certs real :
  Forall2 (λ b c, from_der b = Ok c) (p :: rest) (leaf :: certs) → issuing_ca rest real →
  (signing_second (leaf :: certs) = true → 2 ≤ length certs)%nat ∧
  (leaf :: certs) !! (if signing_second (leaf :: certs) then 2%nat else 1%nat) = Some real.
Proof.
  inversion 1 as [|? ? ? ? _ Hrest]; subst.
  inversion 1 as [c rest' cert Hc Hs|c r rest' cert real' Hc Hs Hr]; subst;
    inversion Hrest as [|? c1 ? cs1 Hc1 Hrest1]; subst; cbn [signing_second].
  - assert (c1 = real) as -> by congruence. by rewrite Hs.
  - assert (c1 = cert) as -> by congruence. inversion Hrest1 as [|? c2 ? cs2 Hc2 ?]; subst.
    assert (c2 = real) as -> by congruence. rewrite Hs. split; [cbn; lia|done].
Qed.

(** C26: the issuer key hash of a chain is given exactly for a parsable
    precertificate chain of allowed length that contains the certificate
    authority, the certificate after the precertificate or, when that one is a
    precertificate signing certificate, the next: it is the digest of the key of
    the authority.  The computation panics exactly on a chain of one
    precertificate, and returns an error in all other cases. *)
Theorem extract_issuer_key_hash_correct v p rest :
  let r := extract_issuer_key_hash (DbErr := DbErr) v (p :: rest) in
  r ≠ Fuel ∧ (r = Panic ↔ rest = [] ∧ precert_chain v p rest) ∧
  ∀ h, r = Ok h ↔ precert_chain v p rest ∧ ∃ real spki, issuing_ca rest real ∧
    spki_to_der (subject_public_key_info (tbs_certificate real)) = Ok spki ∧ h = digest spki.
Proof.
  cbn zeta. pose proof (issuer_key_hash_outcome v p rest) as Ho. pose proof (key_hash_precert_chain v p rest) as Hc.
  split_and!.
  - intros Hr. by rewrite Hr in Ho.
  - split; [intros Hr; rewrite Hr in Ho, Hc; by destruct Ho|]. intros [-> Hpc].
    destruct (key_hash_run v p [] Hpc) as (leaf & certs & Hp & Hrun). inversion Hp as [|? ? ? ? ? Hn]; subst.
    inversion Hn; subst. by rewrite Hrun.
  - intros h. split.
    + intros Hr. rewrite Hr in Ho, Hc. destruct Ho as (real & spki & ? & ? & ? & _). split; [done|]. by exists real, spki.
    + intros (Hpc & real & spki & Hca & Hs & ->).
      destruct (key_hash_run v p rest Hpc) as (leaf & certs & Hp & Hrun).
      destruct (issuing_ca_lookup _ _ _ _ _ Hp Hca) as [Hlen Hl]. rewrite (Hrun Hlen), Hl. cbn. by rewrite Hs.
Qed.

End Validation.
