(* ===== verification/Ccadb.v ===== *)
(** * The store of trusted roots

    src/src/ccadb.rs: root certificates are loaded from a directory of PEM files,
    added from the CSV report of the CCADB and written back; the periodic worker
    fetches the report and gives the validator its new roots.  Logging is left
    out. *)

From S2P Require Import Prelude Rfc6962 KvStore Types X509 Validator.

(** ** Parameters *)

(** Crates [csv] (the records after the header), [pem_rfc7468] and [hex], the
    Unicode upper case of [str::to_uppercase] and [Debug] of a path. *)
Class RootFormats := {
  csv_records : string → list (res string (list string));
  pem_decode : string → res string (string * bytes);
  pem_encode : string → bytes → res string string;
  hex_encode : bytes → string;
  to_uppercase : string → string;
  debug_path : string → string;
}.

(** The upper case of a text in ASCII. *)
Definition ascii_upper (a : Ascii.ascii) : Ascii.ascii :=
  let n := Ascii.nat_of_ascii a in
  if (97 <=? n)%nat && (n <=? 122)%nat then Ascii.ascii_of_nat (n - 32) else a.
Fixpoint string_map (f : Ascii.ascii → Ascii.ascii) (s : string) : string :=
  match s with EmptyString => EmptyString | String a s' => String (f a) (string_map f s') end.
Definition is_ascii (s : string) : Prop :=
  Forall (λ a, (Ascii.nat_of_ascii a < 128)%nat) (String.list_ascii_of_string s).

Class RootFormatsLaws `{RootFormats} := {
  csv_total s r : r ∈ csv_records s → total r;
  pem_decode_total s : total (pem_decode s);
  pem_encode_total label b : total (pem_encode label b);
  pem_round label b s : pem_encode label b = Ok s → pem_decode s = Ok (label, b);
  hex_encode_ascii b : is_ascii (hex_encode b);
  hex_encode_length b : String.length (hex_encode b) = (2 * length b)%nat;
  to_uppercase_ascii s : is_ascii s → to_uppercase s = string_map ascii_upper s;
}.

(** ** The directory *)

(** The files of the directory of roots by name, with their text; [Other] is
    anything else with a name there. *)
Inductive Node := File (contents : string) | Other.
Record Disk := { dir_exists : bool; nodes : gmap string Node }.

(** The calls of [std::fs] that can fail, with the displayed error; a failed
    write may leave a part of the file.  [read_dir] lists the names in an order
    of its own. *)
Inductive IoCall := ReadDir | ReadEntry (name : string) | Stat (name : string)
  | ReadFile (name : string) | CreateDir | WriteFile (name : string).
Record Io := {
  fault : IoCall → option string;
  left_by_write : string → option string;
  dir_order : gmap string Node → list string;
}.

Definition path_exists (io : Io) (disk : Disk) (name : string) : bool :=
  match fault io (Stat name) with
  | Some _ => false
  | None => bool_decide (is_Some (nodes disk !! name))
  end.
Definition is_file (io : Io) (disk : Disk) (name : string) : bool :=
  match fault io (Stat name), nodes disk !! name with
  | None, Some (File _) => true
  | _, _ => false
  end.
Definition read_to_string (io : Io) (disk : Disk) (name : string) : res string string :=
  match fault io (ReadFile name), nodes disk !! name with
  | Some e, _ => Err e
  | None, Some (File contents) => Ok contents
  | None, Some Other => Err "Is a directory (os error 21)"
  | None, None => Err "No such file or directory (os error 2)"
  end.

(** [Path::extension] of a file name: what follows the last dot, unless the dot
    comes first. *)
Fixpoint rsplit_dot (s : string) : option (string * string) :=
  match s with
  | EmptyString => None
  | String a s' =>
      match rsplit_dot s' with
      | Some (before, after) => Some (String a before, after)
      | None => if bool_decide (a = Ascii.ascii_of_nat 46) then Some (EmptyString, s') else None
      end
  end.
Definition extension (name : string) : option string :=
  match rsplit_dot name with
  | Some (EmptyString, _) | None => None
  | Some (_, after) => Some after
  end.

(** ** Text *)

Fixpoint str_filter (p : Ascii.ascii → bool) (s : string) : string :=
  match s with
  | EmptyString => EmptyString
  | String a s' => if p a then String a (str_filter p s') else str_filter p s'
  end.
(** [str::lines]: a line ends with a newline, before which a carriage return is
    dropped; nothing follows the last newline. *)
Definition chr (n : nat) : Ascii.ascii := Ascii.ascii_of_nat n.
Fixpoint strip_cr (s : string) : string :=
  match s with
  | EmptyString => EmptyString
  | String a EmptyString => if bool_decide (a = chr 13) then EmptyString else s
  | String a s' => String a (strip_cr s')
  end.
Fixpoint lines_from (line : string) (s : string) : list string :=
  match s with
  | EmptyString => if bool_decide (line = EmptyString) then [] else [line]
  | String a s' => if bool_decide (a = chr 10) then strip_cr line :: lines_from EmptyString s'
                   else lines_from (line +:+ String a EmptyString) s'
  end.
Definition lines (s : string) : list string := lines_from EmptyString s.

(** The white space of Unicode, in UTF-8, and [str::trim]. *)
Definition utf8 (bytes : list nat) : string := String.string_of_list_ascii (map chr bytes).
Definition whitespace : list string :=
  map utf8 ([[9]; [10]; [11]; [12]; [13]; [32]; [194; 133]; [194; 160]; [225; 154; 128];
             [226; 128; 128]; [226; 128; 129]; [226; 128; 130]; [226; 128; 131]; [226; 128; 132];
             [226; 128; 133]; [226; 128; 134]; [226; 128; 135]; [226; 128; 136]; [226; 128; 137];
             [226; 128; 138]; [226; 128; 168]; [226; 128; 169]; [226; 128; 175]; [226; 129; 159];
             [227; 128; 128]])%nat.
Fixpoint trim_while (fuel : nat) (ws : list string) (s : string) : string :=
  match fuel, List.find (λ w, str_prefix w s) ws with
  | S f, Some w => trim_while f ws (String.substring (String.length w) (String.length s) s)
  | _, _ => s
  end.
Definition trim (s : string) : string :=
  let s := trim_while (String.length s) whitespace s in
  String.rev (trim_while (String.length s) (map String.rev whitespace) (String.rev s)).

(** [&s[0..16]], which panics if it is not a prefix of whole characters. *)
Definition first16 {E} (s : string) : res E string :=
  if (String.length s <? 16)%nat then Panic
  else match String.get 16 s with
       | Some a => let n := Ascii.nat_of_ascii a in
                   if (128 <=? n)%nat && (n <? 192)%nat then Panic else Ok (String.substring 0 16 s)
       | None => Ok (String.substring 0 16 s)
       end.

(** ** The store *)

Record CcadbRootEntry `{X509Types} := {
  entry_subject : string;
  ca_owner : string;
  entry_certificate : X509Certificate;
  sha256_fingerprint : string;
}.

(** The iteration order of the map of the store. *)
Class StoreOrder `{X509Types} :=
  store_iter : gmap string CcadbRootEntry → list (string * CcadbRootEntry).
Class StoreOrderLaws `{StoreOrder} := store_iter_law m : store_iter m ≡ₚ map_to_list m.

(** [RootCertificateStore], with the directory it is loaded from. *)
Record World `{X509Types} := { certificates : gmap string CcadbRootEntry; disk : Disk }.

Section Ccadb.
  Context `{X509} `{OpenSsl} `{!Cache bytes OsslX509} `{Digest} `{RootFormats} `{!StoreOrder}.
  Context {DbErr : Type}.
  Abbreviation CErr := (CtError DbErr).
  Abbreviation M := (stM World CErr).

Definition new_store (disk : Disk) : World := {| certificates := ∅; disk := disk |}.

(** Upper case hex of SHA-256. *)
Definition fingerprint_of (der_bytes : bytes) : string := to_uppercase (hex_encode (digest der_bytes)).

(** An entry is only inserted if its fingerprint is new. *)
Definition insert_new (entry : CcadbRootEntry) (w : World) : World :=
  let fingerprint := sha256_fingerprint entry in
  match certificates w !! fingerprint with
  | Some _ => w
  | None => {| certificates := <[fingerprint := entry]> (certificates w); disk := disk w |}
  end.

Definition load_pem_certificate (io : Io) (disk : Disk) (dir name : string) :
    res CErr (X509Certificate * string) :=
  let dbg := debug_path (path_join dir name) in
  pem_data ← map_err (λ e, Internal ("Failed to read PEM file " +:+ dbg +:+ ": " +:+ e))
               (read_to_string io disk name);
  '(label, der_bytes) ← map_err (λ e, Internal ("Failed to parse PEM file " +:+ dbg +:+ ": " +:+ e))
                          (pem_decode pem_data);
  if negb (bool_decide (label = "CERTIFICATE")) then
    Err (Internal ("Invalid PEM label in " +:+ dbg +:+ ": expected CERTIFICATE, got " +:+ label))
  else
    cert ← map_err (λ e, Internal ("Failed to parse certificate from " +:+ dbg +:+ ": " +:+ e))
             (from_der der_bytes);
    mret (cert, fingerprint_of der_bytes).

(** One entry of the directory; a file that cannot be loaded is skipped. *)
Definition load_entry (io : Io) (dir name : string) : M unit :=
  match fault io (ReadEntry name) with
  | Some e => fail (Internal ("Failed to read directory entry: " +:+ e))
  | None =>
      disk ← gets disk;
      if is_file io disk name && bool_decide (extension name = Some "pem") then
        match load_pem_certificate io disk dir name with
        | Ok (cert, fingerprint) =>
            modify (insert_new {| entry_subject := name_display (subject (tbs_certificate cert));
                                  ca_owner := "Local"; entry_certificate := cert;
                                  sha256_fingerprint := fingerprint |})
        | Err _ => mret tt
        | Panic => lift Panic
        | Fuel => lift Fuel
        end
      else mret tt
  end.
Fixpoint load_loop (io : Io) (dir : string) (names : list string) : M unit :=
  match names with
  | [] => mret tt
  | name :: rest => load_entry io dir name;; load_loop io dir rest
  end.
Definition load_from_directory (io : Io) (dir : string) : M unit :=
  d ← gets disk;
  if negb (dir_exists d) then mret tt
  else match fault io ReadDir with
       | Some e => fail (Internal ("Failed to read directory " +:+ debug_path dir +:+ ": " +:+ e))
       | None => load_loop io dir (dir_order io (nodes d))
       end.

(** The PEM text of a record, without tabs, carriage returns, empty lines and
    space around the lines; a missing first line is put back. *)
Definition not_tab_cr (a : Ascii.ascii) : bool := negb (bool_decide (a = chr 9 ∨ a = chr 13)).
Definition clean_pem (pem_cert : string) : option string :=
  let cleaned_pem :=
    String.concat (String (chr 10) EmptyString)
      (List.filter (λ line, negb (bool_decide (line = EmptyString)))
         (map trim (lines (str_filter not_tab_cr pem_cert)))) in
  if negb (str_prefix "-----BEGIN" cleaned_pem) then
    if str_contains "-----END CERTIFICATE-----" cleaned_pem
    then Some ("-----BEGIN CERTIFICATE-----" +:+ String (chr 10) cleaned_pem)
    else None
  else Some cleaned_pem.

(** One record: the entry it adds, if it is usable and its fingerprint is that
    of the certificate. *)
Definition csv_entry (record : list string) : res CErr (option CcadbRootEntry) :=
  let subject := default "" (record !! 0%nat) in
  let ca_owner := default "" (record !! 1%nat) in
  let pem_cert := default "" (record !! 2%nat) in
  let sha256_fingerprint := default "" (record !! 3%nat) in
  if bool_decide (pem_cert = EmptyString) then Ok None
  else match clean_pem pem_cert with
  | None => Ok None
  | Some cleaned_pem =>
      match pem_decode cleaned_pem with
      | Ok (label, der_bytes) =>
          if bool_decide (label = "CERTIFICATE") then
            match from_der der_bytes with
            | Ok cert =>
                let calculated_fingerprint := fingerprint_of der_bytes in
                let provided_fingerprint :=
                  to_uppercase (str_filter (λ a, negb (bool_decide (a = chr 58)))
                                  sha256_fingerprint) in
                if negb (bool_decide (calculated_fingerprint = provided_fingerprint)) then Ok None
                else Ok (Some {| entry_subject := subject; ca_owner := ca_owner;
                                 entry_certificate := cert;
                                 sha256_fingerprint := calculated_fingerprint |})
            | Err _ => Ok None
            | Panic => Panic
            | Fuel => Fuel
            end
          else Ok None
      | Err _ => Ok None
      | Panic => Panic
      | Fuel => Fuel
      end
  end.

(** The first record that cannot be read ends the loop; what was added before
    stays. *)
Fixpoint csv_loop (records : list (res string (list string))) : M unit :=
  match records with
  | [] => mret tt
  | result :: rest =>
      record ← lift (map_err (λ e, Internal ("Failed to parse CSV record: " +:+ e)) result);
      entry ← lift (csv_entry record);
      (match entry with Some entry => modify (insert_new entry) | None => mret tt end);;
      csv_loop rest
  end.
Definition add_from_ccadb_csv (csv_data : string) : M unit := csv_loop (csv_records csv_data).

Definition get_all_certificates (w : World) : list X509Certificate :=
  map (λ p, entry_certificate p.2) (store_iter (certificates w)).
Definition count (w : World) : nat := size (certificates w).

Definition set_node (name : string) (n : Node) (w : World) : World :=
  {| certificates := certificates w;
     disk := {| dir_exists := dir_exists (disk w); nodes := <[name := n]> (nodes (disk w)) |} |}.

(** One certificate: written under the start of its fingerprint, unless there
    is a file with that name. *)
Definition persist_entry (io : Io) (dir fingerprint : string) (entry : CcadbRootEntry) : M unit :=
  prefix ← lift (first16 fingerprint);
  let filename := prefix +:+ ".pem" in
  d ← gets disk;
  if path_exists io d filename then mret tt
  else
    der_bytes ← lift (certificate_to_der (entry_certificate entry));
    pem ← lift (map_err (λ e, Internal ("Failed to encode PEM: " +:+ e))
                  (pem_encode "CERTIFICATE" der_bytes));
    match fault io (WriteFile filename) with
    | Some e =>
        (match left_by_write io filename with
         | Some part => modify (set_node filename (File part))
         | None => mret tt
         end);;
        fail (Internal ("Failed to write certificate to " +:+ debug_path (path_join dir filename) +:+
                        ": " +:+ e))
    | None => modify (set_node filename (File pem))
    end.
Fixpoint persist_loop (io : Io) (dir : string) (entries : list (string * CcadbRootEntry)) : M unit :=
  match entries with
  | [] => mret tt
  | (fingerprint, entry) :: rest => persist_entry io dir fingerprint entry;; persist_loop io dir rest
  end.
Definition persist_to_directory (io : Io) (dir : string) : M unit :=
  match fault io CreateDir with
  | Some e => fail (Internal ("Failed to create directory " +:+ debug_path dir +:+ ": " +:+ e))
  | None =>
      modify (λ w, {| certificates := certificates w;
                      disk := {| dir_exists := true; nodes := nodes (disk w) |} |});;
      w ← gets id;
      persist_loop io dir (store_iter (certificates w))
  end.

(** ** The worker *)

Record CcadbWorker := {
  environment : CcadbEnvironment;
  worker_dir : string;
  validation_config : option Rfc6962ValidationConfig;
}.

(** The store and the validator the worker shares with the handlers. *)
Record Shared := { world : World; shared_validator : option Rfc6962Validator }.

Definition CcadbWorker_new (environment : CcadbEnvironment) (dir : string) : CcadbWorker :=
  {| environment := environment; worker_dir := dir; validation_config := None |}.
Definition with_validator (config : Rfc6962ValidationConfig) (self : CcadbWorker) : CcadbWorker :=
  {| environment := environment self; worker_dir := worker_dir self;
     validation_config := Some config |}.

(** What the HTTP client returned for the URL of the report. *)
Inductive HttpResponse :=
  | FetchFailed (e : string)
  | NotSuccess (status : string)
  | BodyFailed (e : string)
  | Body (text : string).

Definition on_world {A} (m : M A) : stM Shared CErr A := λ s,
  let (r, w) := m (world s) in (r, {| world := w; shared_validator := shared_validator s |}).

Definition replace_validator (self : CcadbWorker) : stM Shared CErr unit := λ s,
  match shared_validator s, validation_config self with
  | Some _, Some config =>
      match with_trusted_roots (DbErr := DbErr) config (get_all_certificates (world s)) with
      | Ok new_validator =>
          (Ok tt, {| world := world s; shared_validator := Some new_validator |})
      | Err _ => (Ok tt, s)
      | Panic => (Panic, s)
      | Fuel => (Fuel, s)
      end
  | _, _ => (Ok tt, s)
  end.

Definition update (fetch : string → HttpResponse) (io : Io) (self : CcadbWorker) :
    stM Shared CErr unit :=
  match fetch (url (environment self)) with
  | FetchFailed e => fail (Internal ("Failed to fetch CCADB data: " +:+ e))
  | NotSuccess status => fail (Internal ("CCADB request failed with status: " +:+ status))
  | BodyFailed e => fail (Internal ("Failed to read CCADB response: " +:+ e))
  | Body csv_data =>
      on_world (add_from_ccadb_csv csv_data);;
      on_world (persist_to_directory io (worker_dir self));;
      replace_validator self
  end.

(** The ticks of [run_periodic], each with the answers it gets; a failed update
    is logged. *)
Fixpoint run_periodic (self : CcadbWorker) (ticks : list ((string → HttpResponse) * Io)) :
    stM Shared CErr unit :=
  match ticks with
  | [] => mret tt
  | (fetch, io) :: rest =>
      (attempt (update fetch io self) : stM Shared CErr (CErr + unit));;
      run_periodic self rest
  end.

End Ccadb.
