(* ===== verification/CcadbProofs.v ===== *)
(** * The roots only grow

    Every root of the store is filed under the fingerprint of an encoding of it;
    loading, the CCADB report and the updates of the worker only add roots; the
    directory gives back what was written to it; after an update the validator
    trusts exactly the roots of the store. *)

From S2P Require Import Prelude Rfc6962 KvStore Types X509 TbsExtraction Validator ValidatorProofs.
From S2P Require Import Ccadb.

Section Proofs.
  Context `{X509} `{!X509Laws} `{OpenSsl} `{!Cache bytes OsslX509} `{Digest}.
  Context `{RootFormats} `{!RootFormatsLaws} `{!StoreOrder} `{!StoreOrderLaws} {DbErr : Type}.
  Abbreviation CErr := (CtError DbErr).
  Implicit Types (w : World) (e : CcadbRootEntry) (io : Io).

(** ** Entries *)

(** An entry is filed under its fingerprint, that of an encoding of its
    certificate. *)
Definition entry_ok e : Prop :=
  ∃ der, from_der der = Ok (entry_certificate e) ∧ sha256_fingerprint e = fingerprint_of der.
Definition store_inv w : Prop :=
  map_Forall (λ fp e, fp = sha256_fingerprint e ∧ entry_ok e) (certificates w).

Fixpoint insert_all (es : list CcadbRootEntry) w : World :=
  match es with [] => w | e :: es => insert_all es (insert_new e w) end.

Lemma insert_new_sub e w : certificates w ⊆ certificates (insert_new e w).
Proof.
  unfold insert_new. destruct (certificates w !! sha256_fingerprint e) eqn:He; [done|].
  by apply insert_subseteq.
Qed.

Lemma insert_all_spec es w :
  disk (insert_all es w) = disk w ∧ certificates w ⊆ certificates (insert_all es w) ∧
  (∀ e, e ∈ es → is_Some (certificates (insert_all es w) !! sha256_fingerprint e)) ∧
  (∀ fp e, certificates (insert_all es w) !! fp = Some e →
     certificates w !! fp = Some e ∨ (e ∈ es ∧ fp = sha256_fingerprint e)).
Proof.
  revert w. induction es as [|e es IH]; intros w; cbn [insert_all].
  { split_and!; [done|done| |auto]. by intros e He%not_elem_of_nil. }
  destruct (IH (insert_new e w)) as (Hd & Hs & Hin & Hfrom).
  split_and!.
  - rewrite Hd. unfold insert_new. by destruct (certificates w !! _).
  - etrans; [apply insert_new_sub|exact Hs].
  - intros e' [->|He']%elem_of_cons; [|auto]. pose proof (insert_new_sub e w) as Hn.
    destruct (certificates w !! sha256_fingerprint e) as [x|] eqn:Hx.
    + exists x. eapply lookup_weaken; [|exact Hs]. by eapply lookup_weaken.
    + exists e. eapply lookup_weaken; [|exact Hs]. unfold insert_new. rewrite Hx. cbn.
      by rewrite lookup_insert_eq.
  - intros fp x [Hx|[Hx ->]]%Hfrom; [|by right; split; [right|]]. unfold insert_new in Hx.
    destruct (certificates w !! sha256_fingerprint e); [by left|]. cbn in Hx.
    apply lookup_insert_Some in Hx as [[<- <-]|[_ Hx]]; [right; by split; [left|]|by left].
Qed.

Lemma insert_all_inv es w : Forall entry_ok es → store_inv w → store_inv (insert_all es w).
Proof.
  intros Hes Hw fp e He. destruct (insert_all_spec es w) as (_ & _ & _ & Hfrom).
  apply Hfrom in He as [He|[He ->]]; [by apply Hw|]. split; [done|]. by eapply Forall_forall in Hes.
Qed.

(** ** Loading *)

(** The entry that a file of the directory gives. *)
Definition loads io dir (d : Disk) (name : string) e : Prop :=
  is_file io d name = true ∧ extension name = Some "pem" ∧ ca_owner e = "Local" ∧
  load_pem_certificate (DbErr := DbErr) io d dir name = Ok (entry_certificate e, sha256_fingerprint e).

Lemma load_pem_entry_ok io d dir name cert fp :
  load_pem_certificate (DbErr := DbErr) io d dir name = Ok (cert, fp) →
  ∃ der, from_der der = Ok cert ∧ fp = fingerprint_of der.
Proof.
  intros (pem & _ & ([label der] & _ & Hk)%bind_Ok_inv)%bind_Ok_inv. destruct (bool_decide _); [|done].
  cbn [negb] in Hk. apply bind_Ok_inv in Hk as (c & Hc%map_err_Ok_inv & [= <- <-]). eauto.
Qed.

Lemma load_pem_total io d dir name : total (load_pem_certificate (DbErr := DbErr) io d dir name).
Proof.
  apply total_bind. { apply total_map_err. unfold read_to_string. by destruct (fault io _), (nodes d !! name) as [[]|]. }
  intros pem _. apply total_bind; [apply total_map_err, pem_decode_total|]. intros [label der] _.
  apply total_if; [done|]. apply total_bind; [auto with ct|done].
Qed.

(** A loop that adds entries: those it added, and whether they are all. *)
Definition adds {A} (r : res CErr unit * World) (w : World) (items : list A) (gives : A → CcadbRootEntry → Prop) : Prop :=
  ∃ es, r.2 = insert_all es w ∧ (∀ e, e ∈ es → ∃ x, x ∈ items ∧ gives x e) ∧
    match r.1 with
    | Ok _ => ∀ x e, x ∈ items → gives x e → ∃ e', e' ∈ es ∧ sha256_fingerprint e' = sha256_fingerprint e
    | Err _ => True
    | _ => False
    end.

Lemma adds_skip {A} r w (x : A) items gives :
  (∀ e, ¬ gives x e) → adds r w items gives → adds r w (x :: items) gives.
Proof.
  intros Hx (es & Hr & Hes & Hall). exists es. split; [done|]. split.
  - intros e He. destruct (Hes e He) as (y & Hy & ?). exists y. split; [by right|done].
  - destruct (r.1); try done. intros y e [->|Hy]%elem_of_cons; [by intros ?%Hx|eauto].
Qed.

Lemma adds_entry {A} r w (x : A) items gives e :
  gives x e → (∀ e', gives x e' → sha256_fingerprint e' = sha256_fingerprint e) →
  adds r (insert_new e w) items gives → adds r w (x :: items) gives.
Proof.
  intros Hx Hu (es & Hr & Hes & Hall). exists (e :: es). split; [done|]. split.
  - intros e' [->|He]%elem_of_cons; [exists x; split; [left|done]|].
    destruct (Hes e' He) as (y & Hy & ?). exists y. split; [by right|done].
  - destruct (r.1); try done. intros y e' [->|Hy]%elem_of_cons Hg.
    + exists e. split; [left|]. symmetry. auto.
    + destruct (Hall y e' Hy Hg) as (e'' & ? & ?). exists e''. split; [by right|done].
Qed.

Lemma adds_stop {A} err w (items : list A) gives : adds (Err err, w) w items gives.
Proof. exists []. split; [done|]. split; [|done]. by intros e He%not_elem_of_nil. Qed.

Lemma adds_nil {A} w (gives : A → CcadbRootEntry → Prop) : adds (Ok tt, w) w [] gives.
Proof.
  exists []. split; [done|]. split; [by intros e He%not_elem_of_nil|]. by intros x e Hx%not_elem_of_nil.
Qed.

Lemma disk_insert_new e w : disk (insert_new e w) = disk w.
Proof. unfold insert_new. by destruct (certificates w !! _). Qed.

Lemma load_loop_adds io dir names w :
  adds (load_loop (DbErr := DbErr) io dir names w) w names (loads io dir (disk w)).
Proof.
  revert w. induction names as [|name names IH]; intros w; [apply adds_nil|].
  cbn [load_loop]. unfold mbind, stM_bind, load_entry.
  destruct (fault io (ReadEntry name)) as [err|]; [apply adds_stop|].
  unfold mbind, stM_bind, gets. destruct (is_file io (disk w) name) eqn:Hf; cbn [andb].
  2: { apply adds_skip; [|apply IH]. intros e (? & _). congruence. }
  case_bool_decide as Hx. 2: { apply adds_skip; [|apply IH]. by intros e (_ & ? & _). }
  pose proof (load_pem_total io (disk w) dir name) as Ht.
  destruct (load_pem_certificate io (disk w) dir name) as [[cert fp]|err| |] eqn:Hl; try done.
  - unfold modify. set (e := Build_CcadbRootEntry _ _ _ _ _). eapply (adds_entry _ _ _ _ _ e).
    + by split_and!.
    + intros e' (_ & _ & _ & He'). rewrite Hl in He'. by injection He' as _ <-.
    + specialize (IH (insert_new e w)). by rewrite disk_insert_new in IH.
  - apply adds_skip; [|apply IH]. intros e (_ & _ & _ & He). congruence.
Qed.

(** ** The CCADB report *)

Definition csv_gives (r : res string (list string)) e : Prop :=
  ∃ record, r = Ok record ∧ csv_entry (DbErr := DbErr) record = Ok (Some e).

Lemma csv_entry_total record : total (csv_entry (DbErr := DbErr) record).
Proof.
  unfold csv_entry. apply total_if; [done|]. destruct (clean_pem _) as [pem|]; [|done].
  pose proof (pem_decode_total pem). destruct (pem_decode pem) as [[label der]|e| |]; try done.
  apply total_if; [|done]. pose proof (from_der_total der). destruct (from_der der); try done.
  by apply total_if.
Qed.

Lemma csv_entry_ok record e : csv_entry (DbErr := DbErr) record = Ok (Some e) → entry_ok e.
Proof.
  unfold csv_entry. destruct (bool_decide _); [done|]. destruct (clean_pem _) as [pem|]; [|done].
  destruct (pem_decode pem) as [[label der]|err| |]; try done. destruct (bool_decide (label = _)); [|done].
  destruct (from_der der) as [cert|err| |] eqn:Hd; try done. destruct (negb _); [done|].
  intros [= <-]. exists der. done.
Qed.

Lemma csv_loop_adds records w :
  (∀ r, r ∈ records → total r) → adds (csv_loop (DbErr := DbErr) records w) w records csv_gives.
Proof.
  revert w. induction records as [|r records IH]; intros w Ht; [apply adds_nil|].
  cbn [csv_loop]. unfold mbind, stM_bind, lift. specialize (IH) as IH'.
  pose proof (Ht r ltac:(left)) as Hr. assert (∀ r', r' ∈ records → total r') as Ht' by (intros; apply Ht; by right).
  destruct r as [record|err| |]; try done; cbn [map_err]; [|apply adds_stop].
  pose proof (csv_entry_total record) as Hct. destruct (csv_entry record) as [[e|]|err| |] eqn:He; try done.
  - eapply (adds_entry _ _ _ _ _ e); [by exists record| |by apply IH].
    intros e' (record' & [= <-] & He'). congruence.
  - apply adds_skip; [|by apply IH]. intros e (record' & [= <-] & He'). congruence.
  - apply adds_stop.
Qed.

(** ** Growth *)

Definition grows w w' : Prop :=
  certificates w ⊆ certificates w' ∧ (store_inv w → store_inv w').

Lemma grows_trans w1 w2 w3 : grows w1 w2 → grows w2 w3 → grows w1 w3.
Proof. intros [? ?] [? ?]. split; [by etrans|auto]. Qed.

Lemma adds_grows {A} r w (items : list A) gives :
  adds r w items gives → (∀ x e, gives x e → entry_ok e) → grows w r.2 ∧ disk r.2 = disk w ∧ total r.1.
Proof.
  intros (es & Hr & Hes & Ht) Hok. rewrite Hr. destruct (insert_all_spec es w) as (Hd & Hs & _).
  split_and!; [|done|by destruct (r.1)]. split; [done|]. apply insert_all_inv.
  apply Forall_forall. intros e He. destruct (Hes e He) as (x & _ & Hx). eauto.
Qed.

Lemma load_from_directory_grows io dir w :
  let r := load_from_directory (DbErr := DbErr) io dir w in
  grows w r.2 ∧ disk r.2 = disk w ∧ total r.1.
Proof.
  unfold load_from_directory, mbind, stM_bind, gets. destruct (dir_exists (disk w)); cbn [negb]; [|done].
  destruct (fault io ReadDir); [done|]. eapply adds_grows; [apply load_loop_adds|].
  intros name e (_ & _ & _ & Hl). by apply load_pem_entry_ok in Hl.
Qed.

Lemma add_from_ccadb_csv_grows csv w :
  let r := add_from_ccadb_csv (DbErr := DbErr) csv w in
  grows w r.2 ∧ disk r.2 = disk w ∧ total r.1.
Proof.
  eapply adds_grows; [apply csv_loop_adds; intros; by eapply csv_total|].
  intros r e (record & _ & He). by eapply csv_entry_ok.
Qed.

(** ** What a report adds *)

(** A record publishes a root: its third field is the PEM form of a certificate
    whose fingerprint is the fourth, up to colons and case. *)
Definition published (record : list string) e : Prop :=
  entry_subject e = default "" (record !! 0%nat) ∧ ca_owner e = default "" (record !! 1%nat) ∧
  ∃ pem der, clean_pem (default "" (record !! 2%nat)) = Some pem ∧
    pem_decode pem = Ok ("CERTIFICATE", der) ∧ from_der der = Ok (entry_certificate e) ∧
    sha256_fingerprint e = fingerprint_of der ∧
    sha256_fingerprint e =
      to_uppercase (str_filter (λ a, negb (bool_decide (a = chr 58))) (default "" (record !! 3%nat))).

Lemma csv_entry_published record e : csv_entry (DbErr := DbErr) record = Ok (Some e) ↔ published record e.
Proof.
  unfold csv_entry, published. split.
  - destruct (bool_decide _); [done|]. destruct (clean_pem _) as [pem|]; [|done].
    destruct (pem_decode pem) as [[label der]|err| |] eqn:Hp; try done.
    destruct (bool_decide (label = _)) eqn:Hl; [|done]. apply bool_decide_eq_true in Hl as ->.
    destruct (from_der der) as [cert|err| |] eqn:Hd; try done.
    destruct (bool_decide (fingerprint_of der = _)) eqn:Hf; [|done]. apply bool_decide_eq_true in Hf.
    intros [= <-]. cbn. split; [done|]. split; [done|]. exists pem, der. done.
  - intros (Hs & Ho & pem & der & Hc & Hp & Hd & Hf & Hg).
    destruct (bool_decide _) eqn:He; [apply bool_decide_eq_true in He; rewrite He in Hc; done|].
    rewrite Hc, Hp, Hd, bool_decide_eq_true_2, bool_decide_eq_true_2 by congruence. cbn [negb].
    destruct e; cbn in *. by subst.
Qed.

Lemma adds_from {A} r w (items : list A) gives fp e :
  adds r w items gives → certificates r.2 !! fp = Some e →
  certificates w !! fp = Some e ∨ ∃ x, x ∈ items ∧ gives x e ∧ fp = sha256_fingerprint e.
Proof.
  intros (es & -> & Hes & _) He. destruct (insert_all_spec es w) as (_ & _ & _ & Hfrom).
  apply Hfrom in He as [?|[He ->]]; [by left|right]. destruct (Hes e He) as (x & ? & ?). by exists x.
Qed.

Lemma adds_all {A} r w (items : list A) gives u x e :
  adds r w items gives → r.1 = Ok u → x ∈ items → gives x e →
  is_Some (certificates r.2 !! sha256_fingerprint e).
Proof.
  intros (es & -> & _ & Hall) Hu Hx Hg. rewrite Hu in Hall. destruct (Hall x e Hx Hg) as (e' & He' & <-).
  by apply (insert_all_spec es w).
Qed.

(** What changes in the store from [m] to [m']: every new root was published,
    and after a success every published root is there. *)
Definition report_added (response : HttpResponse) (m m' : gmap string CcadbRootEntry) (r : res CErr unit) : Prop :=
  (∀ fp e, m' !! fp = Some e → m !! fp = Some e ∨
     ∃ csv record, response = Body csv ∧ Ok record ∈ csv_records csv ∧ published record e ∧
       fp = sha256_fingerprint e) ∧
  (∀ u, r = Ok u → ∃ csv, response = Body csv ∧
     ∀ record e, Ok record ∈ csv_records csv → published record e → is_Some (m' !! sha256_fingerprint e)).

Lemma csv_report csv w :
  let r := add_from_ccadb_csv (DbErr := DbErr) csv w in
  report_added (Body csv) (certificates w) (certificates r.2) r.1.
Proof.
  assert (adds (add_from_ccadb_csv (DbErr := DbErr) csv w) w (csv_records csv) csv_gives) as Ha
    by (apply csv_loop_adds; intros; by eapply csv_total).
  cbn zeta. split.
  - intros fp e [?|(r & Hr & (record & -> & Hp%csv_entry_published) & ->)]%(adds_from _ _ _ _ fp e Ha); [by left|].
    right. by exists csv, record.
  - intros u Hu. exists csv. split; [done|]. intros record e Hr Hp.
    eapply adds_all; [exact Ha|exact Hu|exact Hr|]. exists record. by rewrite csv_entry_published.
Qed.

(** ** File names *)

Lemma length_string_map f s : String.length (string_map f s) = String.length s.
Proof. induction s; cbn; congruence. Qed.

Lemma get_string_map f n s : String.get n (string_map f s) = f <$> String.get n s.
Proof. revert n. induction s as [|a s IH]; intros [|n]; cbn; auto. Qed.

Lemma is_ascii_get s n a : is_ascii s → String.get n s = Some a → (Ascii.nat_of_ascii a < 128)%nat.
Proof.
  unfold is_ascii. revert n. induction s as [|b s IH]; intros n Hs Hn; [done|].
  cbn in Hs. apply Forall_cons in Hs as [Hb Hs]. destruct n; cbn in Hn; [by injection Hn as <-|by eapply IH].
Qed.

Lemma ascii_upper_small a : (Ascii.nat_of_ascii a < 128)%nat → (Ascii.nat_of_ascii (ascii_upper a) < 128)%nat.
Proof.
  intros Ha. unfold ascii_upper. destruct (_ && _) eqn:Hb; [|done].
  apply andb_true_iff in Hb as [?%Nat.leb_le ?%Nat.leb_le]. rewrite Ascii.nat_ascii_embedding; lia.
Qed.

(** The name of the file of a root. *)
Definition pem_name (fp : string) : string := String.substring 0 16 fp +:+ ".pem".

Section Names.
  Context (Hash : output_size = 32%nat).

Lemma first16_fingerprint der : first16 (E := CErr) (fingerprint_of der) = Ok (String.substring 0 16 (fingerprint_of der)).
Proof.
  unfold first16, fingerprint_of. rewrite to_uppercase_ascii by apply hex_encode_ascii.
  rewrite length_string_map, hex_encode_length, digest_length, Hash, get_string_map.
  replace (2 * 32 <? 16)%nat with false by done.
  destruct (String.get 16 (hex_encode (digest der))) as [a|] eqn:Ha; [|done]. cbn [fmap option_fmap option_map].
  pose proof (ascii_upper_small a (is_ascii_get _ _ _ (hex_encode_ascii _) Ha)) as Hs.
  by rewrite (proj2 (Nat.leb_gt 128 _)) by lia.
Qed.

(** ** Writing *)

Lemma persist_entry_kept io dir fp e w :
  (∃ der, fp = fingerprint_of der) →
  let r := persist_entry (DbErr := DbErr) io dir fp e w in
  certificates r.2 = certificates w ∧ total r.1.
Proof.
  intros [der ->]. unfold persist_entry, mbind, stM_bind, lift, gets. rewrite first16_fingerprint.
  destruct (path_exists io _ _); [done|]. pose proof (cert_to_der_total (entry_certificate e)) as Ht.
  unfold certificate_to_der. destruct (cert_to_der _) as [b|err| |]; try done. cbn [map_err].
  pose proof (pem_encode_total "CERTIFICATE" b). destruct (pem_encode _ _) as [s|err| |]; try done. cbn [map_err].
  destruct (fault io _); [|done]. by destruct (left_by_write io _).
Qed.

Lemma persist_loop_kept io dir entries w :
  (∀ fp e, (fp, e) ∈ entries → ∃ der, fp = fingerprint_of der) →
  let r := persist_loop (DbErr := DbErr) io dir entries w in
  certificates r.2 = certificates w ∧ total r.1.
Proof.
  revert w. induction entries as [|[fp e] entries IH]; intros w Hfp; [done|].
  cbn [persist_loop]. unfold mbind, stM_bind.
  destruct (persist_entry_kept io dir fp e w) as [Hc Ht]; [apply (Hfp fp e); left|].
  destruct (persist_entry io dir fp e w) as [r w']. cbn in Hc, Ht. destruct r as [[]|err| |]; try done.
  cbn. rewrite <- Hc. apply IH. intros fp' e' Hin. apply (Hfp fp' e'). by right.
Qed.

Lemma store_inv_fingerprints w fp e :
  store_inv w → (fp, e) ∈ store_iter (certificates w) → ∃ der, fp = fingerprint_of der.
Proof.
  intros Hw. rewrite store_iter_law, elem_of_map_to_list. intros He.
  destruct (Hw _ _ He) as (-> & der & _ & ->). by exists der.
Qed.

Lemma persist_kept io dir w :
  store_inv w →
  let r := persist_to_directory (DbErr := DbErr) io dir w in
  certificates r.2 = certificates w ∧ total r.1.
Proof.
  intros Hw. unfold persist_to_directory. destruct (fault io CreateDir); [done|].
  unfold mbind, stM_bind, modify, gets. cbn. set (w0 := Build_World _ _ _).
  destruct (persist_loop_kept io dir (store_iter (certificates w0)) w0) as [Hc Ht]; [|done].
  intros fp e. by apply (store_inv_fingerprints w).
Qed.

(** ** The worker *)

Context `{!X509Canonical} `{!CacheLaws bytes OsslX509}.

Lemma entry_encodes e : entry_ok e → ∃ h, cert_digest (DbErr := DbErr) (entry_certificate e) = Ok h.
Proof.
  intros (der & Hd & _). unfold cert_digest, certificate_to_der.
  rewrite (der_parse_encode _ _ Hd). by eexists.
Qed.

Lemma with_trusted_roots_total cfg w :
  store_inv w → ∃ v, with_trusted_roots (DbErr := DbErr) cfg (get_all_certificates w) = Ok v ∧
    config v = cfg ∧ trusted_roots v = get_all_certificates w ∧
    root_hashes_ok (DbErr := DbErr) (trusted_roots v) (trusted_root_hashes v).
Proof.
  intros Hw. assert (∃ hs, mapM (cert_digest (DbErr := DbErr)) (get_all_certificates w) = Ok hs) as [hs Hhs].
  { assert (Forall (λ c, ∃ h, cert_digest (DbErr := DbErr) c = Ok h) (get_all_certificates w)) as Hall.
    { unfold get_all_certificates. apply Forall_map, Forall_forall. intros [fp e].
      rewrite store_iter_law, elem_of_map_to_list. intros He. by apply entry_encodes, (Hw fp e). }
    induction Hall as [|c cs [h Hh] _ [hs IH]]; [by exists []|]. exists (h :: hs). cbn [mapM]. by rewrite Hh, bind_Ok, IH. }
  assert (with_trusted_roots (DbErr := DbErr) cfg (get_all_certificates w)
    = Ok {| config := cfg; trusted_roots := get_all_certificates w;
            trusted_root_hashes := list_to_set hs; x509_cache := cache_new |}) as Hv
    by (unfold with_trusted_roots; by rewrite Hhs).
  eexists. split; [exact Hv|]. split; [done|]. split; [done|].
  apply (with_trusted_roots_inv (DbErr := DbErr) (λ _, True)) in Hv as [(_ & ? & _) _]; [done|].
  by apply Forall_forall.
Qed.

(** The validator after an update: with every root of the store, or as it was. *)
Definition validator_updated (self : CcadbWorker) (s s' : Shared) (r : res CErr unit) : Prop :=
  match shared_validator s, validation_config self, r with
  | Some _, Some cfg, Ok _ => ∃ v, shared_validator s' = Some v ∧ config v = cfg ∧
      trusted_roots v ≡ₚ entry_certificate <$> (map_to_list (certificates (world s'))).*2 ∧
      root_hashes_ok (DbErr := DbErr) (trusted_roots v) (trusted_root_hashes v)
  | _, _, _ => shared_validator s' = shared_validator s
  end.

Lemma get_all_perm w :
  get_all_certificates w ≡ₚ entry_certificate <$> (map_to_list (certificates w)).*2.
Proof.
  unfold get_all_certificates. rewrite store_iter_law.
  induction (map_to_list _) as [|[fp e] l IH]; [done|]. cbn. by rewrite IH.
Qed.

Lemma update_spec fetch io self s :
  store_inv (world s) →
  let r := update (DbErr := DbErr) fetch io self s in
  grows (world s) (world r.2) ∧ total r.1 ∧ validator_updated self s r.2 r.1.
Proof.
  intros Hw. unfold update. assert (∀ err, let r := fail (A := unit) err s : res CErr unit * Shared in
    grows (world s) (world r.2) ∧ total r.1 ∧ validator_updated self s r.2 r.1) as Hfail.
  { intros err. cbn. split; [done|]. split; [done|]. unfold validator_updated.
    by destruct (shared_validator s), (validation_config self). }
  destruct (fetch _) as [err|status|err|csv]; [apply Hfail..|].
  unfold mbind, stM_bind, on_world. destruct (add_from_ccadb_csv_grows csv (world s)) as (Hg & _ & Ht).
  destruct (add_from_ccadb_csv csv (world s)) as [r w1]. cbn in Hg, Ht. destruct Hg as [Hsub Hinv].
  destruct r as [[]|err| |]; try done; cbn.
  2: { split; [done|]. split; [done|]. unfold validator_updated. by destruct (shared_validator s), (validation_config self). }
  specialize (Hinv Hw). destruct (persist_kept io (worker_dir self) w1 Hinv) as [Hc Ht2].
  destruct (persist_to_directory io (worker_dir self) w1) as [r w2]. cbn in Hc, Ht2.
  assert (grows (world s) w2) as Hg2 by (split; [by rewrite Hc|unfold store_inv; by rewrite Hc]).
  assert (store_inv w2) as Hw2 by (unfold store_inv; by rewrite Hc).
  destruct r as [[]|err| |]; try done; cbn.
  2: { split; [done|]. split; [done|]. unfold validator_updated. by destruct (shared_validator s), (validation_config self). }
  unfold replace_validator, validator_updated. cbn.
  destruct (shared_validator s) as [v0|] eqn:Hs, (validation_config self) as [cfg|]; try done.
  destruct (with_trusted_roots_total cfg w2 Hw2) as (v & Hv & Hcfg & Hroots & Hh). rewrite Hv. cbn.
  split; [done|]. split; [done|]. exists v. split; [done|]. split; [done|]. split; [|done].
  rewrite Hroots. apply get_all_perm.
Qed.

Lemma update_report fetch io self s :
  store_inv (world s) →
  let r := update (DbErr := DbErr) fetch io self s in
  report_added (fetch (url (environment self))) (certificates (world s)) (certificates (world r.2)) r.1.
Proof.
  intros Hw. unfold update.
  assert (∀ m err response, report_added response m m (Err err : res CErr unit)) as Hsame
    by (intros; split; [by left|done]).
  destruct (fetch _) as [err|status|err|csv]; [apply Hsame..|].
  unfold mbind, stM_bind, on_world. pose proof (csv_report csv (world s)) as Hrep.
  destruct (add_from_ccadb_csv_grows csv (world s)) as ([_ Hinv] & _ & _).
  destruct (add_from_ccadb_csv csv (world s)) as [r w1]. cbn in Hrep, Hinv.
  destruct r as [[]|err| |]; try done. cbn.
  destruct (persist_kept io (worker_dir self) w1 (Hinv Hw)) as [Hc Ht].
  destruct (persist_to_directory io (worker_dir self) w1) as [r w2]. cbn in Hc, Ht. rewrite <- Hc in Hrep.
  assert (∀ r' : res CErr unit, report_added (Body csv) (certificates (world s)) (certificates w2) r') as Hany.
  { intros r'. destruct Hrep as [Hfrom Hall]. split; [done|]. intros _ _. by apply (Hall tt). }
  destruct r as [[]|err| |]; cbn; try apply Hany.
  unfold replace_validator. cbn. destruct (shared_validator s), (validation_config self); try apply Hany.
  destruct (with_trusted_roots _ _); apply Hany.
Qed.

(** C27: an update of the worker returns; whatever happens the store only grows,
    by roots that the report published with their fingerprint, and every root
    stays filed under the fingerprint of its encoding.  When it succeeds every
    root that the report published is in the store, and the validator has the
    configuration of the worker and trusts exactly the roots of the store, with
    their hashes; when it fails the validator is the one before. *)
Theorem update_correct fetch io self s :
  store_inv (world s) →
  let r := update (DbErr := DbErr) fetch io self s in
  certificates (world s) ⊆ certificates (world r.2) ∧ store_inv (world r.2) ∧ total r.1 ∧
  report_added (fetch (url (environment self))) (certificates (world s)) (certificates (world r.2)) r.1 ∧
  validator_updated self s r.2 r.1.
Proof.
  intros Hw. destruct (update_spec fetch io self s Hw) as ([? ?] & ? & ?).
  pose proof (update_report fetch io self s Hw). auto.
Qed.

(** ** The directory gives back the roots *)

Definition faultless io : Prop := ∀ c, fault io c = None.
Definition lists_names io : Prop := ∀ m name, name ∈ dir_order io m ↔ is_Some (m !! name).

Lemma rsplit_dot_pem p : rsplit_dot (p +:+ ".pem") = Some (p, "pem").
Proof. induction p as [|a p IH]; [done|]. change (String a p +:+ ".pem") with (String a (p +:+ ".pem")). cbn [rsplit_dot]. by rewrite IH. Qed.

Lemma extension_pem_name der : extension (pem_name (fingerprint_of der)) = Some "pem".
Proof.
  unfold extension, pem_name. rewrite rsplit_dot_pem.
  assert (String.length (fingerprint_of der) = 64%nat) as Hl.
  { unfold fingerprint_of. rewrite to_uppercase_ascii by apply hex_encode_ascii.
    by rewrite length_string_map, hex_encode_length, digest_length, Hash. }
  by destruct (fingerprint_of der).
Qed.

Definition pem_of e (n : Node) : Prop :=
  ∃ der pem, cert_to_der (entry_certificate e) = Ok der ∧ pem_encode "CERTIFICATE" der = Ok pem ∧ n = File pem.

Lemma persist_entry_writes io dir fp e w :
  faultless io → (∃ der, fp = fingerprint_of der) → (∃ n, pem_of e n) →
  nodes (disk w) !! pem_name fp = None →
  ∃ n, pem_of e n ∧ persist_entry (DbErr := DbErr) io dir fp e w = (Ok tt, set_node (pem_name fp) n w).
Proof.
  intros Hio [der ->] (n & der' & pem & Hd & Hp & ->) Hno. exists (File pem). split; [by exists der', pem|].
  unfold persist_entry, mbind, stM_bind, lift, gets. rewrite first16_fingerprint.
  unfold path_exists. rewrite Hio. fold (pem_name (fingerprint_of der)).
  rewrite Hno, bool_decide_eq_false_2 by (by intros [? ?]).
  unfold certificate_to_der. rewrite Hd. cbn [map_err]. rewrite Hp. cbn [map_err]. by rewrite Hio.
Qed.

Lemma persist_loop_writes io dir entries w :
  faultless io →
  (∀ fp e, (fp, e) ∈ entries → (∃ der, fp = fingerprint_of der) ∧ (∃ n, pem_of e n)) →
  NoDup (pem_name <$> entries.*1) → (∀ fp, fp ∈ entries.*1 → nodes (disk w) !! pem_name fp = None) →
  ∃ w', persist_loop (DbErr := DbErr) io dir entries w = (Ok tt, w') ∧ dir_exists (disk w') = dir_exists (disk w) ∧
    ∀ name n, nodes (disk w') !! name = Some n ↔
      nodes (disk w) !! name = Some n ∨
      ∃ fp e, (fp, e) ∈ entries ∧ name = pem_name fp ∧ pem_of e n.
Proof.
  intros Hio. revert w. induction entries as [|[fp e] entries IH]; intros w Hok Hnd Hno.
  { exists w. split; [done|]. split; [done|]. intros name n. split; [by left|].
    intros [?|(fp & e & Hin%not_elem_of_nil & _)]; done. }
  destruct (Hok fp e) as [Hfp Hpem]; [left|]. cbn in Hnd. apply NoDup_cons in Hnd as [Hni Hnd].
  destruct (persist_entry_writes io dir fp e w Hio Hfp Hpem) as (n & Hn & Hrun); [apply Hno; left|].
  cbn [persist_loop]. unfold mbind, stM_bind. rewrite Hrun.
  destruct (IH (set_node (pem_name fp) n w)) as (w' & Hr & Hde & Hnodes).
  - intros fp' e' Hin. apply Hok. by right.
  - done.
  - intros fp' Hin. cbn. rewrite lookup_insert_ne; [apply Hno; by right|].
    intros Heq. apply Hni. rewrite Heq. by apply list_elem_of_fmap_2.
  - exists w'. split; [done|]. split; [done|]. intros name m. rewrite Hnodes. cbn.
    rewrite lookup_insert_Some. split.
    + intros [[[<- <-]|[_ ?]]|(fp' & e' & Hin & ? & ?)]; [right; exists fp, e; by split; [left|]|by left|].
      right. exists fp', e'. by split; [right|].
    + intros [Hm|(fp' & e' & [[= -> ->]|Hin]%elem_of_cons & -> & Hp)].
      * left. right. split; [|done]. intros <-. rewrite Hno in Hm; [done|left].
      * left. left. split; [done|]. destruct Hn as (d1 & p1 & Hd1 & Hp1 & ->), Hp as (d2 & p2 & Hd2 & Hp2 & ->). congruence.
      * right. by exists fp', e'.
Qed.

Lemma load_loop_ok io dir names w : faultless io → (load_loop (DbErr := DbErr) io dir names w).1 = Ok tt.
Proof.
  intros Hio. revert w. induction names as [|name names IH]; intros w; [done|].
  cbn [load_loop]. unfold mbind, stM_bind, load_entry. rewrite Hio. unfold mbind, stM_bind, gets.
  destruct (_ && _); [|apply IH]. pose proof (load_pem_total io (disk w) dir name).
  destruct (load_pem_certificate io (disk w) dir name) as [[cert fp]|err| |]; try done; apply IH.
Qed.

Lemma loads_pem io dir d name e e' :
  faultless io → entry_ok e → (∃ n, nodes d !! name = Some n ∧ pem_of e n) →
  (loads io dir d name e' → entry_certificate e' = entry_certificate e ∧ sha256_fingerprint e' = sha256_fingerprint e) ∧
  (extension name = Some "pem" → ∃ x, loads io dir d name x ∧ sha256_fingerprint x = sha256_fingerprint e).
Proof.
  intros Hio (der & Hf & Hfp) (n & Hn & der' & pem & Hd & Hp & ->).
  assert (der' = der) as -> by (apply der_parse_encode in Hf; congruence).
  assert (load_pem_certificate (DbErr := DbErr) io d dir name = Ok (entry_certificate e, sha256_fingerprint e)) as Hl.
  { unfold load_pem_certificate, read_to_string. rewrite Hio, Hn. cbn [map_err]. rewrite bind_Ok.
    rewrite (pem_round _ _ _ Hp). cbn [map_err]. rewrite bind_Ok, bool_decide_eq_true_2 by done. cbn [negb].
    rewrite Hf. cbn. by rewrite Hfp. }
  split.
  - intros (_ & _ & _ & Hl'). rewrite Hl in Hl'. by injection Hl' as -> ->.
  - intros Hx. exists {| entry_subject := ""; ca_owner := "Local"; entry_certificate := entry_certificate e;
                         sha256_fingerprint := sha256_fingerprint e |}.
    split; [|done]. unfold loads, is_file. by rewrite Hio, Hn.
Qed.

(** The directory holds the roots of [w], each in its file, and nothing else. *)
Definition holds_roots w (d : Disk) : Prop :=
  dir_exists d = true ∧
  ∀ name n, nodes d !! name = Some n ↔
    ∃ fp e, certificates w !! fp = Some e ∧ name = pem_name fp ∧ pem_of e n.
Definition encodable w : Prop := ∀ fp e, certificates w !! fp = Some e → ∃ n, pem_of e n.

Lemma store_encodable w :
  store_inv w → (∀ b, ∃ pem, pem_encode "CERTIFICATE" b = Ok pem) → encodable w.
Proof.
  intros Hw Hpem fp e He. destruct (Hw _ _ He) as (_ & der & Hd & _).
  destruct (Hpem der) as [pem Hp]. exists (File pem), der, pem. split; [by apply der_parse_encode|done].
Qed.

Lemma persist_writes io dir w :
  faultless io → store_inv w → encodable w → nodes (disk w) = ∅ →
  (∀ fp fp', fp ∈ dom (certificates w) → fp' ∈ dom (certificates w) → pem_name fp = pem_name fp' → fp = fp') →
  ∃ w1, persist_to_directory (DbErr := DbErr) io dir w = (Ok tt, w1) ∧ holds_roots w (disk w1).
Proof.
  intros Hio Hw Hpem Hempty Hinj. unfold persist_to_directory. rewrite Hio.
  unfold mbind, stM_bind, modify, gets. cbn. set (w0 := Build_World _ _ _).
  assert (∀ fp e, (fp, e) ∈ store_iter (certificates w) ↔ certificates w !! fp = Some e) as Hiter
    by (intros; by rewrite store_iter_law, elem_of_map_to_list).
  destruct (persist_loop_writes io dir (store_iter (certificates w)) w0) as (w1 & Hr & Hde & Hnodes).
  - done.
  - intros fp e He%Hiter. split; [|by eapply Hpem]. destruct (Hw _ _ He) as (-> & der & _ & Hfp). by exists der.
  - apply NoDup_fmap_2_strong; [|rewrite store_iter_law; apply NoDup_fst_map_to_list].
    intros fp fp' Hfp Hfp'. apply list_elem_of_fmap in Hfp as ([? e] & -> & He%Hiter), Hfp' as ([? e'] & -> & He'%Hiter).
    apply Hinj; by apply elem_of_dom.
  - intros fp _. cbn. by rewrite Hempty.
  - exists w1. split; [done|]. split; [done|]. cbn [w0 disk nodes] in Hnodes. rewrite Hempty in Hnodes.
    intros name n. rewrite Hnodes. split.
    + intros [?|(fp & e & He%Hiter & ?)]; [done|]. by exists fp, e.
    + intros (fp & e & He%Hiter & ?). right. by exists fp, e.
Qed.

Lemma load_reads io dir w d :
  faultless io → lists_names io → store_inv w → encodable w → holds_roots w d →
  ∃ w2, load_from_directory (DbErr := DbErr) io dir (new_store d) = (Ok tt, w2) ∧
    entry_certificate <$> certificates w2 = entry_certificate <$> certificates w.
Proof.
  intros Hio Hlist Hw Hpem [Hde Hnodes].
  unfold load_from_directory, mbind, stM_bind, gets. cbn [new_store disk]. rewrite Hde. cbn [negb]. rewrite Hio.
  set (names := dir_order io (nodes d)). pose proof (load_loop_ok io dir names (new_store d) Hio) as Hok.
  destruct (load_loop_adds io dir names (new_store d)) as (es & Hes & Hfrom & Hall).
  destruct (load_loop io dir names (new_store d)) as [r w2]. cbn in Hok, Hes, Hall. subst r w2.
  eexists. split; [done|]. destruct (insert_all_spec es (new_store d)) as (_ & _ & Hin & Hout).
  assert (∀ fp e2, certificates (insert_all es (new_store d)) !! fp = Some e2 →
    ∃ e, certificates w !! fp = Some e ∧ entry_certificate e2 = entry_certificate e) as Hback.
  { intros fp e2 [?|[He2 ->]]%Hout; [done|]. destruct (Hfrom e2 He2) as (name & Hname & Hl).
    apply Hlist in Hname as [n Hn]. destruct (proj1 (Hnodes name n) Hn) as (fp & e & He & -> & Hp).
    destruct (Hw _ _ He) as [-> Heok].
    destruct (loads_pem io dir d _ e e2 Hio Heok ltac:(by exists n)) as [Hl' _].
    destruct (Hl' Hl) as [Hc ->]. by exists e. }
  apply map_eq. intros fp. rewrite !lookup_fmap.
  destruct (certificates (insert_all _ _) !! fp) as [e2|] eqn:He2.
  { destruct (Hback fp e2 He2) as (e & -> & Hc). cbn. by rewrite Hc. }
  destruct (certificates w !! fp) as [e|] eqn:He; [|done]. exfalso.
  destruct (Hw _ _ He) as (-> & Heok). destruct (Hpem _ _ He) as [n Hpo].
  assert (nodes d !! pem_name (sha256_fingerprint e) = Some n) as Hn by (apply Hnodes; by eexists _, e).
  destruct (loads_pem io dir d _ e e Hio Heok ltac:(by exists n)) as [_ Hl].
  destruct Hl as (x & Hx & Hfx); [destruct Heok as (der & _ & ->); apply extension_pem_name|].
  destruct (Hall _ x ltac:(by apply Hlist) Hx) as (e' & He' & Hfe').
  destruct (Hin e' He') as [y Hy]. rewrite Hfe', Hfx in Hy. congruence.
Qed.

(** C28: writing the store to an empty directory and loading that directory
    gives back every root under the same fingerprint, and nothing else, when no
    two fingerprints share their first 16 characters. *)
Theorem persist_load_roundtrip io dir w :
  faultless io → lists_names io → store_inv w → nodes (disk w) = ∅ →
  (∀ b, ∃ pem, pem_encode "CERTIFICATE" b = Ok pem) →
  (∀ fp fp', fp ∈ dom (certificates w) → fp' ∈ dom (certificates w) → pem_name fp = pem_name fp' → fp = fp') →
  ∃ w1 w2, persist_to_directory (DbErr := DbErr) io dir w = (Ok tt, w1) ∧
    load_from_directory (DbErr := DbErr) io dir (new_store (disk w1)) = (Ok tt, w2) ∧
    entry_certificate <$> certificates w2 = entry_certificate <$> certificates w.
Proof.
  intros Hio Hlist Hw Hempty Hpem Hinj. pose proof (store_encodable w Hw Hpem) as He.
  destruct (persist_writes io dir w Hio Hw He Hempty Hinj) as (w1 & Hp1 & Hh).
  destruct (load_reads io dir w (disk w1) Hio Hlist Hw He Hh) as (w2 & ? & ?). by exists w1, w2.
Qed.

End Names.

End Proofs.
