(* ===== verification/Startup.v ===== *)
(** * Program start

    The parts of src/src/main.rs that decide what runs: the configuration and its
    defaults, the choice of the object store, the construction of the validator
    from the directory of roots and the task of the CCADB worker. *)

From S2P Require Import Prelude Rfc6962 KvStore Types X509 TbsExtraction Validator ValidatorProofs.
From S2P Require Import Ccadb CcadbProofs.

(** ** Configuration *)

Record AzureConfig := { account : string; access_key : string; container_name : string }.
Record AwsConfig := {
  region : string;
  bucket : string;
  access_key_id : string;
  secret_access_key : string;
}.
Record LocalConfig := { path : string }.
Record StorageConfig := {
  provider : string;
  azure : option AzureConfig;
  aws : option AwsConfig;
  local : option LocalConfig;
}.
Record ServerConfig := {
  bind_addr : string;
  server_base_url : string;
  static_endpoint : option string;
}.
Record KeysConfig := { private_key_path : string; public_key_path : string }.
Record CacheConfig := {
  root_folder : option string;
  max_cache_size_gb : option Z;
  memory_block_cache_capacity_mb : Z;
}.
Record ValidationConfig := {
  enabled : bool;
  vc_ccadb : option string;
  vc_trusted_roots_dir : string;
  temporal_window_start : option string;
  temporal_window_end : option string;
  vc_max_chain_length : option Z;
  vc_allowed_signature_algorithms : option (list string);
}.
Record AppConfig := {
  server : ServerConfig;
  storage_config : StorageConfig;
  keys : KeysConfig;
  cache_config : option CacheConfig;
  validation : option ValidationConfig;
}.

(** What is written when there is no configuration file. *)
Definition initial_config : AppConfig :=
  {| server := {| bind_addr := "0.0.0.0:8080"; server_base_url := "http://localhost:8080/";
                  static_endpoint := None |};
     storage_config := {| provider := "local"; azure := None; aws := None;
                          local := Some {| path := "/tmp/ct-log-storage" |} |};
     keys := {| private_key_path := "keys/private_key.pem";
                public_key_path := "keys/public_key.pem" |};
     cache_config := None;
     validation := Some {| enabled := true; vc_ccadb := Some "Production";
                           vc_trusted_roots_dir := "trusted_roots"; temporal_window_start := None;
                           temporal_window_end := None; vc_max_chain_length := Some 10;
                           vc_allowed_signature_algorithms := None |} |}.

(** A boxed error: a message, or an error of the log. *)
Inductive BoxError (DbErr : Type) := ErrMsg (s : string) | ErrCt (e : CtError DbErr).
Arguments ErrMsg {_} s.
Arguments ErrCt {_} e.

(** ** The object store *)

Inductive ObjectStore :=
  | AzureStore (c : AzureConfig)
  | AwsStore (c : AwsConfig)
  | LocalStore (prefix : string).

Definition DEFAULT_MEMORY_BLOCK_CACHE_CAPACITY_MB : Z := 64.

(** The capacity of the block cache in bytes, a [u64]. *)
Definition cache_capacity_bytes (c : option CacheConfig) : Z :=
  let mb := match c with
            | Some c => memory_block_cache_capacity_mb c
            | None => DEFAULT_MEMORY_BLOCK_CACHE_CAPACITY_MB
            end in
  (mb *! 1024) *! 1024.

(** The folder and the size of the object store cache, where they are set. *)
Definition object_store_cache_options (c : option CacheConfig) : option string * option Z :=
  match c with
  | Some c =>
      match root_folder c, max_cache_size_gb c with
      | Some root_folder, Some gb => (Some root_folder, Some (((gb *! 1024) *! 1024) *! 1024))
      | Some root_folder, None => (Some root_folder, None)
      | None, _ => (None, None)
      end
  | None => (None, None)
  end.

(** Building the client of a store is left to crate [object_store]. *)
Definition select_store (c : StorageConfig) : res string ObjectStore :=
  if bool_decide (provider c = "azure") then
    azure_config ← ok_or (azure c) "Azure configuration is required when provider is 'azure'";
    mret (AzureStore azure_config)
  else if bool_decide (provider c = "aws") then
    aws_config ← ok_or (aws c) "AWS configuration is required when provider is 'aws'";
    mret (AwsStore aws_config)
  else if bool_decide (provider c = "local") then
    local_config ← ok_or (local c) "Local configuration is required when provider is 'local'";
    mret (LocalStore (path local_config))
  else Err ("Unsupported storage provider: " +:+ provider c).

(** ** Validation *)

(** [str::to_lowercase], compared with words in ASCII without a k: no other
    character of Unicode becomes one of their letters. *)
Definition ascii_lower (a : Ascii.ascii) : Ascii.ascii :=
  let n := Ascii.nat_of_ascii a in
  if (65 <=? n)%nat && (n <=? 90)%nat then Ascii.ascii_of_nat (n + 32) else a.

Definition parse_environment (o : option string) : res string CcadbEnvironment :=
  match o with
  | Some ccadb =>
      let lower := string_map ascii_lower ccadb in
      if bool_decide (lower = "production") then Ok Production
      else if bool_decide (lower = "test") then Ok Test
      else Err ("Invalid CCADB environment '" +:+ ccadb +:+ "'. Must be 'Production' or 'Test'")
  | None => Err "CCADB environment must be specified when validation is enabled"
  end.

(** [parse_from_rfc3339] is [DateTime::parse_from_rfc3339] of crate [chrono]. *)
Definition parse_window (parse_from_rfc3339 : string → res string Z) (start end_ : option string) :
    res string (option TemporalWindow) :=
  match start, end_ with
  | Some start, Some end_ =>
      start_dt ← map_err (λ e, "Failed to parse temporal_window_start: " +:+ e)
                   (parse_from_rfc3339 start);
      end_dt ← map_err (λ e, "Failed to parse temporal_window_end: " +:+ e)
                 (parse_from_rfc3339 end_);
      mret (Some {| window_start := start_dt; window_end := end_dt |})
  | _, _ => Ok None
  end.

Definition rfc6962_config_of (parse_from_rfc3339 : string → res string Z) (vc : ValidationConfig) :
    res string Rfc6962ValidationConfig :=
  ccadb_env ← parse_environment (vc_ccadb vc);
  temporal_window ← parse_window parse_from_rfc3339 (temporal_window_start vc) (temporal_window_end vc);
  mret {| trusted_roots_dir := vc_trusted_roots_dir vc;
          max_chain_length := default 10 (vc_max_chain_length vc);
          allowed_signature_algorithms := allowed_signature_algorithms default_config;
          temporal_window := temporal_window; ccadb := ccadb_env |}.

Section Startup.
  Context `{X509} `{OpenSsl} `{!Cache bytes OsslX509} `{Digest} `{RootFormats} `{!StoreOrder}.
  Context {DbErr : Type}.
  Abbreviation CErr := (CtError DbErr).

(** The validator, the store of roots and the worker that keeps it, when
    validation is configured and enabled. *)
Definition init_validation (parse_from_rfc3339 : string → res string Z) (io : Io) (d : Disk)
    (validation : option ValidationConfig) :
    res (BoxError DbErr) (option (CcadbWorker * Shared)) :=
  match validation with
  | None => Ok None
  | Some vc =>
      if negb (enabled vc) then Ok None
      else
        cfg ← map_err ErrMsg (rfc6962_config_of parse_from_rfc3339 vc);
        match load_from_directory (DbErr := DbErr) io (trusted_roots_dir cfg) (new_store d) with
        | (Ok _, w) =>
            v ← map_err ErrCt (with_trusted_roots cfg (get_all_certificates w));
            mret (Some (with_validator cfg (CcadbWorker_new (ccadb cfg) (trusted_roots_dir cfg)),
                        {| world := w; shared_validator := Some v |}))
        | (Err e, _) => Err (ErrCt e)
        | (Panic, _) => Panic
        | (Fuel, _) => Fuel
        end
  end.

(** The task of the worker: one update, then one per tick. *)
Definition ccadb_task (worker : CcadbWorker) (initial : (string → HttpResponse) * Io)
    (ticks : list ((string → HttpResponse) * Io)) : stM Shared CErr unit :=
  (attempt (update (DbErr := DbErr) initial.1 initial.2 worker) : stM Shared CErr (CErr + unit));;
  run_periodic worker ticks.

End Startup.

(** ** From the start on *)

Section Lifecycle.
  Context `{X509} `{!X509Laws} `{!X509Canonical} `{OpenSsl} `{!Cache bytes OsslX509} `{!CacheLaws bytes OsslX509}.
  Context `{Digest} `{RootFormats} `{!RootFormatsLaws} `{!StoreOrder} `{!StoreOrderLaws} {DbErr : Type}.
  Abbreviation CErr := (CtError DbErr).
  Context (Hash : output_size = 32%nat).
  Implicit Types (s : Shared) (w : World) (cfg : Rfc6962ValidationConfig).

(** The certificates of a store. *)
Definition in_store w (c : X509Certificate) : Prop :=
  ∃ fp e, certificates w !! fp = Some e ∧ entry_certificate e = c.

(** There is a validator with the configuration [cfg]; it trusts only roots of
    the store, and knows their hashes. *)
Definition shared_inv cfg s : Prop :=
  store_inv (world s) ∧
  ∃ v, shared_validator s = Some v ∧ config v = cfg ∧ Forall (in_store (world s)) (trusted_roots v) ∧
    root_hashes_ok (DbErr := DbErr) (trusted_roots v) (trusted_root_hashes v).

Lemma get_all_in_store w : Forall (in_store w) (get_all_certificates w).
Proof.
  unfold get_all_certificates. apply Forall_map, Forall_forall. intros [fp e].
  rewrite store_iter_law, elem_of_map_to_list. intros He. by exists fp, e.
Qed.

Lemma in_store_grows w w' c : certificates w ⊆ certificates w' → in_store w c → in_store w' c.
Proof. intros Hsub (fp & e & He & Hc). exists fp, e. split; [by eapply lookup_weaken|done]. Qed.

Lemma update_shared fetch io self cfg s :
  validation_config self = Some cfg → shared_inv cfg s →
  let r := update (DbErr := DbErr) fetch io self s in
  total r.1 ∧ certificates (world s) ⊆ certificates (world r.2) ∧ shared_inv cfg r.2.
Proof.
  intros Hcfg (Hw & v & Hv & Hvc & Hr & Hh). cbn zeta.
  destruct (update_spec (DbErr := DbErr) Hash fetch io self s Hw) as ([Hsub Hinv] & Ht & Hu).
  split; [done|]. split; [done|]. split; [auto|]. unfold validator_updated in Hu. rewrite Hv, Hcfg in Hu.
  assert (shared_validator (update (DbErr := DbErr) fetch io self s).2 = Some v →
    ∃ v', shared_validator (update (DbErr := DbErr) fetch io self s).2 = Some v' ∧ config v' = cfg ∧
      Forall (in_store (world (update (DbErr := DbErr) fetch io self s).2)) (trusted_roots v') ∧
      root_hashes_ok (DbErr := DbErr) (trusted_roots v') (trusted_root_hashes v')) as Hkeep.
  { intros Hs. exists v. split_and!; try done. eapply Forall_impl; [exact Hr|]. intros c. by apply in_store_grows. }
  destruct ((update (DbErr := DbErr) fetch io self s).1); try by apply Hkeep.
  destruct Hu as (v' & Hs' & Hc' & Hp & Hh'). exists v'. split_and!; try done. rewrite Hp.
  apply Forall_fmap, Forall_fmap, Forall_forall. intros [fp e] He%elem_of_map_to_list. by exists fp, e.
Qed.

Lemma attempt_update_shared fetch io self cfg s k :
  validation_config self = Some cfg → shared_inv cfg s →
  (∀ s', certificates (world s) ⊆ certificates (world s') → shared_inv cfg s' →
     let r : res CErr unit * Shared := k s' in
     r.1 = Ok tt ∧ certificates (world s) ⊆ certificates (world r.2) ∧ shared_inv cfg r.2) →
  let r := ((attempt (update (DbErr := DbErr) fetch io self) : stM Shared CErr (CErr + unit));; k) s in
  r.1 = Ok tt ∧ certificates (world s) ⊆ certificates (world r.2) ∧ shared_inv cfg r.2.
Proof.
  intros Hcfg Hs Hk. destruct (update_shared fetch io self cfg s Hcfg Hs) as (Ht & Hsub & Hinv).
  unfold mbind, stM_bind, attempt. destruct (update fetch io self s) as [r s']. cbn in Ht, Hsub, Hinv.
  destruct r as [[]|err| |]; try done; by apply Hk.
Qed.

Lemma run_periodic_shared self cfg ticks s :
  validation_config self = Some cfg → shared_inv cfg s →
  let r := run_periodic (DbErr := DbErr) self ticks s in
  r.1 = Ok tt ∧ certificates (world s) ⊆ certificates (world r.2) ∧ shared_inv cfg r.2.
Proof.
  intros Hcfg. revert s. induction ticks as [|[fetch io] ticks IH]; intros s Hs; [done|].
  cbn [run_periodic]. apply attempt_update_shared; [done|done|].
  intros s' Hsub Hs'. destruct (IH s' Hs') as (? & ? & ?). split; [done|]. split; [by etrans|done].
Qed.

Lemma init_validation_inv parse io d vc worker s :
  init_validation (DbErr := DbErr) parse io d (Some vc) = Ok (Some (worker, s)) →
  ∃ cfg, rfc6962_config_of parse vc = Ok cfg ∧ validation_config worker = Some cfg ∧ shared_inv cfg s.
Proof.
  unfold init_validation. destruct (enabled vc); [|done]. cbn [negb].
  intros (cfg & Hcfg%map_err_Ok_inv & Hk)%bind_Ok_inv. exists cfg. split; [done|].
  destruct (load_from_directory_grows (DbErr := DbErr) io (trusted_roots_dir cfg) (new_store d)) as ([_ Hinv] & _ & _).
  destruct (load_from_directory io (trusted_roots_dir cfg) (new_store d)) as [[[]|e| |] w]; try done.
  apply bind_Ok_inv in Hk as (v & Hv%map_err_Ok_inv & Hk). cbn in Hinv.
  assert (store_inv w) as Hw by (apply Hinv; intros fp e He; inversion He).
  destruct (with_trusted_roots_total (DbErr := DbErr) cfg w Hw) as (v' & Hv' & Hc & Hr & Hh).
  injection Hk as <- <-. split; [done|]. split; [done|]. exists v'. split; [cbn; congruence|].
  split; [done|]. split; [|done]. rewrite Hr. apply get_all_in_store.
Qed.

Lemma init_validation_total parse io d validation :
  (∀ t, total (parse t)) → total (init_validation (DbErr := DbErr) parse io d validation).
Proof.
  intros Hp. unfold init_validation. destruct validation as [vc|]; [|done]. apply total_if; [done|].
  apply total_bind.
  { apply total_map_err. unfold rfc6962_config_of. apply total_bind.
    - unfold parse_environment. destruct (vc_ccadb vc); [|done]. by repeat apply total_if.
    - intros env _. apply total_bind; [|done]. unfold parse_window.
      destruct (temporal_window_start vc), (temporal_window_end vc); try done.
      apply total_bind; [apply total_map_err, Hp|]. intros ? _. apply total_bind; [apply total_map_err, Hp|done]. }
  intros cfg _.
  destruct (load_from_directory_grows (DbErr := DbErr) io (trusted_roots_dir cfg) (new_store d)) as (_ & _ & Ht).
  destruct (load_from_directory io (trusted_roots_dir cfg) (new_store d)) as [[[]|e| |] w]; try done.
  apply total_bind; [|done]. apply total_map_err. unfold with_trusted_roots. apply total_bind; [|done].
  apply total_mapM. intros c _. apply cert_digest_total.
Qed.


End Lifecycle.
