(* ===== verification/Api.v ===== *)
(** * The HTTP handlers of the log

    The read endpoints of src/src/api/handlers.rs, src/src/api/static_handlers.rs
    and src/src/api/pages_handlers.rs over the storage: what each computes, the
    status and message of each error.  Metrics and logging are left out; the
    routing, the HTTP framing and the JSON encoding belong to the framework. *)

From S2P Require Import Prelude TreeMath Rfc6962 Inclusion Consistency KvStore TreeStore Types.
From S2P Require Import TreeHead Tiles MerkleStorage CtStorage.

(** ** State, errors and parameters *)

Inductive StatusCode := BAD_REQUEST | NOT_FOUND | INTERNAL_SERVER_ERROR | SERVICE_UNAVAILABLE.

(** A status with the [error] field of [ErrorResponse]. *)
Abbreviation ApiError := (StatusCode * string)%type.

(** [Display] of the errors of the database. *)
Class DisplayDb `{SlateDb} := display_db : SlateDBError → string.

(** The fields of [ApiState] that no handler changes; the storage and the
    validator, which sit behind locks, are the state the handlers pass along. *)
Record ApiState `{Signer} := {
  sct_builder : SctBuilder;
  sth_builder : SthBuilder;
  api_log_id : bytes;
  public_key_der : bytes;
  base_url : string;
}.

(** [trim_end_matches], with a character, and [trim_start_matches]. *)
Fixpoint trim_end_matches (c : Ascii.ascii) (s : string) : string :=
  match s with
  | EmptyString => EmptyString
  | String a s' =>
      match trim_end_matches c s' with
      | EmptyString => if bool_decide (a = c) then EmptyString else String a EmptyString
      | t => String a t
      end
  end.
Fixpoint trim_start_fuel (fuel : nat) (p s : string) : string :=
  match fuel with
  | O => s
  | S f => if str_prefix p s
           then trim_start_fuel f p (String.substring (String.length p) (String.length s) s)
           else s
  end.
Definition trim_start_matches (p s : string) : string := trim_start_fuel (String.length s) p s.

(** The origin line of the checkpoints. *)
Definition origin_of (base_url : string) : string :=
  trim_start_matches "https://" (trim_start_matches "http://" (trim_end_matches slash base_url)).

Definition ApiState_new `{Signer} {DbErr} (log_id private_key public_key_der : bytes)
    (base_url : string) : res (CtError DbErr) ApiState :=
  sct_builder ← from_private_key_bytes log_id private_key;
  let origin := origin_of base_url in
  sth_builder ← SthBuilder_new private_key origin log_id;
  mret {| sct_builder := sct_builder; sth_builder := sth_builder;
          api_log_id := log_id; public_key_der := public_key_der; base_url := base_url |}.

(** [parse_tile_path]: the last [".p/"] separates a width. *)
Fixpoint rfind_dot_p (s : string) : option (string * string) :=
  match s with
  | EmptyString => None
  | String a s' =>
      match rfind_dot_p s' with
      | Some (i, w) => Some (String a i, w)
      | None => if str_prefix ".p/" s
                then Some (EmptyString, String.substring 3 (String.length s) s)
                else None
      end
  end.
Definition parse_u16 (s : string) : option Z :=
  n ← parse_u64 s; if n <? 2 ^ 16 then Some n else None.
Definition parse_tile_path (path : string) : string * option Z :=
  match rfind_dot_p path with
  | Some (index, width_str) =>
      match parse_u16 width_str with
      | Some width => if (0 <? width) && (width <=? 256) then (index, Some width) else (path, None)
      | None => (path, None)
      end
  | None => (path, None)
  end.

Section Api.
  Context `{SlateDb} `{!DebugDb} `{!DisplayDb} `{!Cache (Z * Z) bytes} `{!Cache (Z * Z) bool}.
  Context `{!Cache bytes bytes} `{!Cache Z LogEntry}.
  Context `{Digest} `{!Postcard bytes} `{!Postcard DeduplicatedLogEntry}.
  Context `{!Postcard CertificateSctEntry} `{TbsExtractor} `{Signer} `{Base64}.
  Abbreviation SErr := (StorageError SlateDBError).
  Abbreviation CErr := (CtError SlateDBError).
  Abbreviation M := (stM CtStorage ApiError).
  Implicit Types state : ApiState.

Definition display_storage_error (e : SErr) : string :=
  match e with
  | SlateDbErr d => "SlateDB error: " +:+ display_db d
  | InvalidFormat s => "Invalid data format: " +:+ s
  | QueueFull => "Queue full - system at capacity"
  end.
Definition display_ct_error (e : CErr) : string :=
  match e with
  | InvalidCertificate s => "Invalid certificate format: " +:+ s
  | Storage e => "Storage error: " +:+ display_storage_error e
  | BadRequest s => "Bad request: " +:+ s
  | Internal s => "Internal error: " +:+ s
  end.

(** The two conversions into [ErrorResponse]. *)
Definition ct_error_response (e : CErr) : string := display_ct_error e.
Definition storage_error_response (e : SErr) : string :=
  "Storage error: " +:+ display_storage_error e.

(** A call on [state.merkle_tree] and one on [state.storage]. *)
Definition on_tree {A} (f : CErr → ApiError) (m : stM SlateDbBackedTree CErr A) : M A := λ s,
  let (r, t) := m (ct_tree s) in
  (map_err f r, {| ct_tree := t; chain_cache := chain_cache s; entry_cache := entry_cache s |}).
Definition on_storage {A} (f : SErr → ApiError) (m : stM CtStorage SErr A) : M A :=
  st_map_err f m.

Definition internal_ct (e : CErr) : ApiError := (INTERNAL_SERVER_ERROR, ct_error_response e).
Definition internal_storage (e : SErr) : ApiError :=
  (INTERNAL_SERVER_ERROR, storage_error_response e).
(** Bad requests of the proof methods are reported as such. *)
Definition proof_status (e : CErr) : ApiError :=
  match e with
  | BadRequest _ => (BAD_REQUEST, ct_error_response e)
  | _ => internal_ct e
  end.

(** ** [get-sth], [get-sth-consistency], [get-proof-by-hash] *)

Definition get_sth state (now : Z) : M SthResponse :=
  committed_root ← on_tree internal_ct committed_root;
  let tree_size := num_leaves committed_root in
  let root_hash := root_hash committed_root in
  let timestamp := u64 now in
  let sth := create_sth (sth_builder state) now tree_size root_hash (Some timestamp) in
  mret (to_api_response sth).

Definition get_sth_consistency (first second : Z) : M (list string) :=
  proof ← on_tree proof_status (consistency_proof_between_sizes first second);
  mret (consistency_proof_to_path proof).

Definition get_proof_by_hash (hash : string) (tree_size : Z) : M (Z * list string) :=
  hash ← lift (map_err (λ _, (BAD_REQUEST, "Invalid base64 hash")) (b64_decode hash));
  found ← on_storage internal_storage (find_index_by_hash hash);
  leaf_index ← lift (ok_or found (NOT_FOUND, "Leaf not found"));
  if tree_size <=? leaf_index then fail (NOT_FOUND, "Leaf not found in requested tree size")
  else
    proof ← on_tree proof_status (prove_inclusion_efficient tree_size leaf_index);
    mret (leaf_index, inclusion_proof_to_audit_path proof).

(** ** [get-entries], [get-entry-and-proof] *)

(** A [certificate_chain] as a TLS vector; the running total is a [u32]. *)
Definition chain_vector (chain : list bytes) : bytes :=
  let total := fold_left (λ acc c, u32 (acc + u32 (3 + u32 (zlen c)))) chain 0 in
  [u8 (Z.shiftr total 16); u8 (Z.shiftr total 8); u8 total]
    ++ concat (map (λ c, len3 c ++ c) chain).
Definition chain_data (e : LogEntry) : bytes :=
  match chain e with Some chain => chain_vector chain | None => [0; 0; 0] end.

Definition build_extra_data (e : LogEntry) : res ApiError bytes :=
  match entry_type e with
  | X509Entry => Ok (chain_data e)
  | PrecertEntry =>
      match original_precert e with
      | Some precert => Ok (len3 precert ++ precert ++ chain_data e)
      | None => Err (INTERNAL_SERVER_ERROR, "Missing original pre-certificate for PrecertEntry")
      end
  end.

Definition MAX_ENTRIES : Z := 1000.

(** The count and the last index of a request. *)
Definition entries_range (start end_ : Z) : Z * Z :=
  let count := Z.min ((end_ -! start) +! 1) MAX_ENTRIES in
  (count, (start +! count) -! 1).

(** One entry of the response; an entry that does not exist is left out. *)
Definition leaf_entry (result : SErr + option LogEntry) : res ApiError (option (string * string)) :=
  match result with
  | inl e => Err (internal_storage e)
  | inr None => Ok None
  | inr (Some log_entry) =>
      leaf_input ← map_err internal_ct (serialize log_entry);
      extra_data ← build_extra_data log_entry;
      mret (Some (b64_encode leaf_input, b64_encode extra_data))
  end.

Definition get_entries (start end_ : Z) : M (list (string * string)) :=
  if end_ <? start then fail (BAD_REQUEST, "Invalid range: start > end")
  else
    let '(count, last) := entries_range start end_ in
    results ← mapM (λ i, attempt (get_entry i)) (zrange start (last + 1));
    entries ← lift (mapM leaf_entry results);
    mret (omap id entries).

Definition get_entry_and_proof (leaf_index : Z) (tree_size : option Z) :
    M (string * string * list string) :=
  size ← on_tree internal_ct size;
  let tree_size := default size tree_size in
  if tree_size <=? leaf_index then fail (BAD_REQUEST, "Leaf index out of bounds")
  else
    found ← on_storage internal_storage (get_entry leaf_index);
    log_entry ← lift (ok_or found (NOT_FOUND, "Log entry not found"));
    leaf_input ← lift (map_err internal_ct (serialize log_entry));
    extra_data ← lift (build_extra_data log_entry);
    proof ← on_tree proof_status (prove_inclusion_efficient tree_size leaf_index);
    mret (b64_encode leaf_input, b64_encode extra_data, inclusion_proof_to_audit_path proof).

(** ** The static API *)

Record Response := { headers : list (string * string); body : bytes }.

Definition IMMUTABLE : string := "max-age=31536000, immutable".

Definition get_checkpoint state (now : Z) : M Response :=
  committed_root ← on_tree internal_ct committed_root;
  let tree_size := num_leaves committed_root in
  let root_hash := root_hash committed_root in
  let checkpoint := create_checkpoint (sth_builder state) now tree_size root_hash
                      (Some (u64 now)) in
  mret {| headers := [("content-type", "text/plain; charset=utf-8");
                      ("cache-control", "max-age=5, must-revalidate")];
          body := str_bytes (note_format checkpoint) |}.

(** The future for position [start_position + i] of a tile. *)
Definition tile_hash (subtree_size tree_size position : Z) : M (option bytes) :=
  let start_leaf := position *! subtree_size in
  if tree_size <=? start_leaf then mret None
  else
    let end_leaf := Z.min (start_leaf +! subtree_size) tree_size in
    subtree_root_idx ← lift (compute_subtree_root 64 start_leaf end_leaf);
    hash ← on_tree (λ e, (INTERNAL_SERVER_ERROR, "Failed to get node hash: " +:+
                                                 display_ct_error e))
             (ms_get_node_hash_at_version subtree_root_idx tree_size);
    lift (assert_that (bool_decide (length hash = 32%nat)));;
    mret (Some hash).

Definition generate_merkle_tile (level tile_index tree_size : Z) (requested_width : option Z) :
    M Tile :=
  let subtree_size := pow64 256 level in
  let full_subtrees := tree_size / subtree_size in
  let has_partial_subtree := 0 <? tree_size mod subtree_size in
  let total_positions := full_subtrees +! (if has_partial_subtree then 1 else 0) in
  let start_position := tile_index *! 256 in
  let end_position := Z.min (start_position +! 256) total_positions in
  if total_positions <=? start_position then fail (NOT_FOUND, "Tile not found")
  else
    let max_hashes :=
      match requested_width with
      | Some w => Z.min w (end_position -! start_position)
      | None => end_position -! start_position
      end in
    results ← mapM (λ i, tile_hash subtree_size tree_size (start_position +! i))
                (zrange 0 max_hashes);
    match omap id results with
    | [] => fail (NOT_FOUND, "Tile not found")
    | hashes => lift (Tile_new hashes)
    end.

(** The checks shared by the two kinds of tiles. *)
Definition check_tile_request (index_path : string) (width : option Z) : res ApiError Z :=
  tile_index ← map_err (λ e : CErr, (BAD_REQUEST, "Invalid tile index: " +:+ display_ct_error e))
                 (parse_tile_index index_path);
  match width with
  | Some w => if (w =? 0) || (256 <? w)
              then Err (BAD_REQUEST, "Invalid tile width, must be 1-256") else Ok tile_index
  | None => Ok tile_index
  end.

Definition get_tile_handler (level : Z) (index_path : string) (width : option Z) : M Response :=
  if 5 <? level then fail (BAD_REQUEST, "Invalid tile level, must be 0-5")
  else
    tile_index ← lift (check_tile_request index_path width);
    committed_root ← on_tree internal_ct committed_root;
    let tree_size := num_leaves committed_root in
    tile_data ←
      match width with
      | Some _ =>
          tile ← generate_merkle_tile level tile_index tree_size width;
          mret (tile_to_bytes tile)
      | None =>
          stored ← on_tree (λ _, (INTERNAL_SERVER_ERROR, "Failed to retrieve tile"))
                     (ms_get_tile level tile_index);
          match stored with
          | Some data => mret data
          | None =>
              tile ← generate_merkle_tile level tile_index tree_size None;
              mret (tile_to_bytes tile)
          end
      end;
    mret {| headers := [("content-type", "application/octet-stream");
                        ("cache-control", IMMUTABLE)]; body := tile_data |}.

(** The future for entry [entry_index] of a data tile. *)
Definition data_tile_error (e : CErr) : ApiError :=
  (INTERNAL_SERVER_ERROR, "Failed to get entry data: " +:+ display_ct_error e).
Definition data_tile_leaf (tree_size entry_index : Z) : M (option bytes) :=
  if tree_size <=? entry_index then mret None
  else
    found ← on_storage (λ e, data_tile_error (Storage e)) (get_deduplicated_entry entry_index);
    entry ← lift (ok_or found (data_tile_error
                                 (Internal ("Entry " +:+ pretty entry_index +:+ " not found"))));
    pre_certificate ←
      (if bool_decide (d_entry_type entry = PrecertEntry) then
         match original_precert_hash entry with
         | Some precert_hash =>
             on_storage (λ e, data_tile_error (Storage e)) (get_certificate precert_hash)
         | None => mret None
         end
       else mret None);
    tile_leaf ← lift (tile_leaf_from_entry entry pre_certificate);
    mret (Some (tile_leaf_to_bytes tile_leaf)).

Definition generate_data_tile (tile_index tree_size : Z) (requested_width : option Z) : M bytes :=
  let start_offset := tile_index *! 256 in
  let max_entries := default 256 requested_width in
  results ← mapM (λ i, data_tile_leaf tree_size (start_offset +! i)) (zrange 0 max_entries);
  match omap id results with
  | [] => fail (NOT_FOUND, "Data tile not found")
  | leaf_bytes_vec => mret (concat leaf_bytes_vec)
  end.

(** [gzip] is the encoder of crate [flate2], into a vector. *)
Definition get_data_tile (gzip : bytes → bytes) (index_path : string) (width : option Z) :
    M Response :=
  tile_index ← lift (check_tile_request index_path width);
  committed_root ← on_tree internal_ct committed_root;
  data ← generate_data_tile tile_index (num_leaves committed_root) width;
  mret {| headers := [("content-type", "application/octet-stream");
                      ("content-encoding", "gzip"); ("cache-control", IMMUTABLE)];
          body := gzip data |}.

(** The handlers of the two tile routes, which take the width from the path. *)
Definition handle_tile_request_with_path (level : Z) (index_path : string) : M Response :=
  let '(index, width) := parse_tile_path index_path in get_tile_handler level index width.
Definition handle_data_tile_request_with_path (gzip : bytes → bytes) (index_path : string) :
    M Response :=
  let '(index, width) := parse_tile_path index_path in get_data_tile gzip index width.

(** [hex_decode] is [hex::decode]. *)
Definition get_issuer (hex_decode : string → option bytes) (fingerprint : string) : M Response :=
  fingerprint_bytes ←
    lift (ok_or (hex_decode fingerprint)
            (BAD_REQUEST, "Invalid fingerprint format, must be hex-encoded"));
  if negb (bool_decide (length fingerprint_bytes = 32%nat)) then
    fail (BAD_REQUEST, "Invalid fingerprint length, must be 32 bytes (64 hex chars)")
  else
    found ← on_storage (λ e, (INTERNAL_SERVER_ERROR, "Failed to get certificate: " +:+
                                                     display_storage_error e))
              (get_certificate fingerprint_bytes);
    certificate ← lift (ok_or found (NOT_FOUND, "Certificate not found"));
    mret {| headers := [("content-type", "application/pkix-cert"); ("cache-control", IMMUTABLE)];
            body := certificate |}.

(** ** The pages extension *)

Definition PAGE_SIZE : Z := 1000.

(** The page size and the static endpoint. *)
Definition discover : Z * option string := (PAGE_SIZE, None).

Definition serialize_timestamped_entry (entry : DeduplicatedLogEntry) : res string bytes :=
  if zlen (d_leaf_data entry) <? 2
  then Err ("Invalid leaf data: too short (length: " +:+ pretty (zlen (d_leaf_data entry)) +:+ ")")
  else Ok (drop 2 (d_leaf_data entry)).

(** One iteration of the loop over the entries of a page. *)
Definition page_step (page : EntriesPage) (index : Z) : M EntriesPage :=
  found ← on_storage (λ e, (INTERNAL_SERVER_ERROR, "Failed to retrieve entry: " +:+
                                                   display_storage_error e))
            (get_deduplicated_entry index);
  match found with
  | Some entry =>
      timestamped_entry ← lift (map_err (λ e, (INTERNAL_SERVER_ERROR, e))
                                  (serialize_timestamped_entry entry));
      mret (page_add_entry page timestamped_entry (default [] (chain_hashes entry)))
  | None => fail (INTERNAL_SERVER_ERROR, "Missing entry in log at index: " +:+ pretty index)
  end.
Fixpoint page_loop (page : EntriesPage) (indices : list Z) : M EntriesPage :=
  match indices with
  | [] => mret page
  | i :: rest => page' ← page_step page i; page_loop page' rest
  end.

Definition get_page (page_number : Z) : M Response :=
  let start_index := page_number *! PAGE_SIZE in
  let end_index := start_index +! PAGE_SIZE in
  tree_size ← on_tree (λ e, (INTERNAL_SERVER_ERROR, "Failed to get tree size: " +:+
                                                    display_ct_error e)) size;
  if tree_size <=? start_index then
    fail (NOT_FOUND, "Page not found. Page number: " +:+ pretty page_number +:+ ", tree size: "
                     +:+ pretty tree_size +:+ ", max page: " +:+ pretty (tree_size / PAGE_SIZE))
  else
    let actual_end := Z.min end_index tree_size in
    page ← page_loop (page_new start_index) (zrange start_index actual_end);
    let cache_control := if (actual_end =? end_index) && (actual_end <? tree_size)
                         then "public, max-age=31536000, immutable" else "no-store" in
    mret {| headers := [("content-type", "application/octet-stream");
                        ("ct-page-size", pretty PAGE_SIZE);
                        ("ct-entry-range", pretty start_index +:+ "-" +:+
                                           pretty (actual_end -! 1));
                        ("cache-control", cache_control)];
            body := page_to_binary page |}.

Definition get_certificate_handler (b64url_decode : string → res string bytes)
    (hash_str : string) : M Response :=
  hash ← lift (map_err (λ e, (BAD_REQUEST, "Invalid certificate hash: " +:+ e))
                 (base64url_to_hash b64url_decode hash_str));
  found ← on_storage (λ e, (INTERNAL_SERVER_ERROR, "Failed to retrieve certificate: " +:+
                                                   display_storage_error e))
            (get_certificate hash);
  match found with
  | Some cert_data =>
      mret {| headers := [("content-type", "application/pkix-cert");
                          ("cache-control", "public, max-age=31536000, immutable")];
              body := cert_data |}
  | None => fail (NOT_FOUND, "Certificate not found for hash: " +:+ hash_str)
  end.

End Api.

(** ** The range of [get-entries] *)

(** C33: the range that [get-entries] reads is the one asked for, cut to a
    thousand entries, for every request but one: for all of [u64] the count wraps
    to 0, and the range is the whole of [u64] instead. *)
Theorem entries_range_bounds start end_ :
  0 ≤ start ≤ end_ → end_ < 2 ^ 64 →
  entries_range start end_ =
    if (start =? 0) && (end_ =? U64_MAX) then (0, U64_MAX)
    else (Z.min (end_ - start + 1) 1000, Z.min end_ (start + 999)).
Proof.
  intros Hs He. unfold entries_range, MAX_ENTRIES, U64_MAX, u64.
  destruct (Z.eqb_spec start 0) as [->|Hs0]; cbn [andb].
  - destruct (Z.eqb_spec end_ (2 ^ 64 - 1)) as [->|He0]; [reflexivity|].
    rewrite (Z.mod_small (end_ - 0)), (Z.mod_small (end_ - 0 + 1)) by lia. f_equal.
    rewrite Zminus_mod_idemp_l, Z.mod_small; lia.
  - rewrite (Z.mod_small (end_ - start)), (Z.mod_small (end_ - start + 1)) by lia. f_equal.
    rewrite Zminus_mod_idemp_l, Z.mod_small; lia.
Qed.
