(* ===== verification/Router.v ===== *)
(** * Routes

    [create_router] of src/src/api/mod.rs: the table of the endpoints, the
    wrappers of the tile routes seen from the path of a request, and the middleware
    that counts requests.  Matching a path against the table is done by crate
    [axum]; the class [AxumRouter] states what its documentation says of it. *)

From S2P Require Import Prelude KvStore TreeStore Types Tiles MerkleStorage CtStorage Api.

(** ** The table *)

Inductive Method := GET | POST.

(** The functions the routes name. *)
Inductive Handler :=
  | handlers_add_chain | handlers_add_pre_chain | handlers_get_sth | handlers_get_sth_consistency
  | handlers_get_proof_by_hash | handlers_get_entries | handlers_get_roots
  | handlers_get_entry_and_proof | static_handlers_get_checkpoint
  | tile_request_with_path | data_tile_request_with_path | static_handlers_get_issuer
  | handlers_inclusion_request | pages_handlers_discover | pages_handlers_get_page
  | pages_handlers_get_certificate | health_check_handler | metrics_handler.

Definition create_router : list (string * (Method * Handler)) :=
  [("/ct/v1/add-chain", (POST, handlers_add_chain));
   ("/ct/v1/add-pre-chain", (POST, handlers_add_pre_chain));
   ("/ct/v1/get-sth", (GET, handlers_get_sth));
   ("/ct/v1/get-sth-consistency", (GET, handlers_get_sth_consistency));
   ("/ct/v1/get-proof-by-hash", (GET, handlers_get_proof_by_hash));
   ("/ct/v1/get-entries", (GET, handlers_get_entries));
   ("/ct/v1/get-roots", (GET, handlers_get_roots));
   ("/ct/v1/get-entry-and-proof", (GET, handlers_get_entry_and_proof));
   ("/checkpoint", (GET, static_handlers_get_checkpoint));
   ("/tile/{level}/{*index}", (GET, tile_request_with_path));
   ("/tile/data/{*index}", (GET, data_tile_request_with_path));
   ("/issuer/{fingerprint}", (GET, static_handlers_get_issuer));
   ("/inclusion_request.json", (GET, handlers_inclusion_request));
   ("/ct-pages/v1/discover", (GET, pages_handlers_discover));
   ("/ct-pages/v1/page/{page_number}", (GET, pages_handlers_get_page));
   ("/ct-pages/v1/certificate/{hash}", (GET, pages_handlers_get_certificate));
   ("/health", (GET, health_check_handler));
   ("/metrics", (GET, metrics_handler))].

(** [env!(CARGO_PKG_VERSION)] is that of src/Cargo.toml. *)
Record HealthResponse := { status : string; version : string }.
Definition CARGO_PKG_VERSION : string := "0.1.0".
Definition health_check : HealthResponse := {| status := "healthy"; version := CARGO_PKG_VERSION |}.

(** ** Patterns, as documented by [axum] *)

Inductive Segment :=
  | Static (s : string)
  | Capture
  | Wildcard.

Definition segment_of (s : string) : Segment :=
  if str_prefix "{*" s then Wildcard else if str_prefix "{" s then Capture else Static s.
Definition pattern_of (s : string) : list Segment := map segment_of (split_on slash s).

(** What the captures of a pattern are bound to in a path: a capture to one
    segment, the wildcard to all that is left, neither to nothing. *)
Fixpoint match_segments (p : list Segment) (path : list string) : option (list string) :=
  match p, path with
  | [], [] => Some []
  | Static s :: p', t :: path' => if bool_decide (s = t) then match_segments p' path' else None
  | Capture :: p', t :: path' =>
      if bool_decide (t = EmptyString) then None else cons t <$> match_segments p' path'
  | [Wildcard], _ :: _ =>
      if bool_decide (join_slash path = EmptyString) then None else Some [join_slash path]
  | _, _ => None
  end.
Definition match_path (pattern path : string) : option (list string) :=
  match_segments (pattern_of pattern) (split_on slash path).

(** A static segment goes before a capture, and both before a wildcard: [p]
    has the stronger segment where it first differs from [q]. *)
Fixpoint stronger (p q : list Segment) : bool :=
  match p, q with
  | Static s :: p', Static t :: q' => bool_decide (s = t) && stronger p' q'
  | Capture :: p', Capture :: q' | Wildcard :: p', Wildcard :: q' => stronger p' q'
  | Static _ :: _, (Capture | Wildcard) :: _ | Capture :: _, Wildcard :: _ => true
  | _, _ => false
  end.

(** The route that is found for a path without percent-encoding, with the values
    of its captures. *)
Class AxumRouter := route_at : list string → string → option (string * list string).
Class AxumRouterLaws `{AxumRouter} := {
  route_match tbl path pat caps :
    route_at tbl path = Some (pat, caps) → pat ∈ tbl ∧ match_path pat path = Some caps;
  route_found tbl path pat caps :
    pat ∈ tbl → match_path pat path = Some caps → is_Some (route_at tbl path);
  route_priority tbl path pat caps pat' caps' :
    route_at tbl path = Some (pat, caps) → pat' ∈ tbl → match_path pat' path = Some caps' →
    stronger (pattern_of pat') (pattern_of pat) = false;
}.

(** What comes of a request: no route, a route with another method, or a call. *)
Inductive Dispatch := NotFound | MethodNotAllowed | Call (h : Handler) (captures : list string).

Definition dispatch `{AxumRouter} (m : Method) (path : string) : Dispatch :=
  match route_at (map fst create_router) path with
  | None => NotFound
  | Some (pat, caps) =>
      match list_find (λ r, r.1 = pat) create_router with
      | Some (_, (_, (m', h))) =>
          match m, m' with GET, GET | POST, POST => Call h caps | _, _ => MethodNotAllowed end
      | None => NotFound
      end
  end.

(** ** Routing *)

(** Whether some path could match both patterns, other than by the one being
    stronger than the other. *)
Fixpoint overlap (p q : list Segment) : bool :=
  match p, q with
  | [], [] => true
  | Static s :: p', Static t :: q' => bool_decide (s = t) && overlap p' q'
  | Wildcard :: _, _ :: _ | _ :: _, Wildcard :: _ => true
  | _ :: p', _ :: q' => overlap p' q'
  | _, _ => false
  end.

Lemma overlap_match p q path a b :
  match_segments p path = Some a → match_segments q path = Some b → overlap p q = true.
Proof.
  revert q path a b. induction p as [|s p IH]; intros q path a b Hp Hq.
  { destruct path; [|done]. destruct q as [|[]]; try done. by destruct q. }
  assert (∀ t path' a' b' q', path = t :: path' → match_segments p path' = Some a' →
    match_segments q' path' = Some b' → overlap p q' = true) as IH' by (intros; by eapply IH).
  destruct path as [|t path].
  { destruct s; [done|done|]. by destruct p. }
  destruct q as [|u q]; [done|]. cbn [match_segments] in Hp, Hq.
  destruct s as [s| |], u as [u| |]; cbn [overlap]; try done.
  - repeat case_bool_decide; simplify_eq; cbn [andb]; by eapply IH'.
  - repeat case_bool_decide; try done. apply fmap_Some in Hq as (b' & Hq & _). by eapply IH'.
  - repeat case_bool_decide; try done. apply fmap_Some in Hp as (a' & Hp & _). by eapply IH'.
  - repeat case_bool_decide; try done.
    apply fmap_Some in Hp as (a' & Hp & _), Hq as (b' & Hq & _). by eapply IH'.
Qed.

(** Of two routes that match the same path one is stronger, or they are the
    same. *)
Definition unambiguous (p q : string) : bool :=
  bool_decide (p = q) || negb (overlap (pattern_of p) (pattern_of q))
  || stronger (pattern_of p) (pattern_of q) || stronger (pattern_of q) (pattern_of p).

Lemma routes_unambiguous p q :
  p ∈ map fst create_router → q ∈ map fst create_router → unambiguous p q = true.
Proof.
  intros Hp Hq. assert (forallb (λ p, forallb (unambiguous p) (map fst create_router))
    (map fst create_router) = true) as Hall by (by vm_compute).
  rewrite forallb_forall in Hall. rewrite list_elem_of_In in Hp, Hq. specialize (Hall p Hp).
  rewrite forallb_forall in Hall. by apply Hall.
Qed.

Section Routing.
  Context `{AxumRouterLaws}.

(** A route that matches, and than which no other that matches is stronger, is
    the one found. *)
Lemma route_unique path pat caps :
  pat ∈ map fst create_router → match_path pat path = Some caps →
  (∀ q, q ∈ map fst create_router → q ≠ pat → is_Some (match_path q path) →
     stronger (pattern_of pat) (pattern_of q) = true) →
  route_at (map fst create_router) path = Some (pat, caps).
Proof.
  intros Hin Hm Hbest. destruct (route_found _ _ _ _ Hin Hm) as [[q caps'] Hq].
  destruct (route_match _ _ _ _ Hq) as [Hqin Hqm]. rewrite Hq. destruct (decide (q = pat)) as [->|Hne].
  { by simplify_eq. }
  pose proof (route_priority _ _ _ _ _ _ Hq Hin Hm) as Hpr.
  rewrite Hbest in Hpr; [done|done|done|by eexists].
Qed.

End Routing.

(** ** The paths of the tiles *)

(** The extraction of a [u8] from a capture. *)
Definition parse_u8 (s : string) : option Z :=
  n ← parse_u64 s; if n <? 2 ^ 8 then Some n else None.

(** The path of a tile below its level: the index, and the width of a partial
    tile. *)
Definition tile_index_path (i : Z) (width : option Z) : string :=
  format_tile_index i +:+ match width with Some w => ".p/" +:+ pretty w | None => EmptyString end.

Definition small_ok (n : Z) : bool :=
  bool_decide (parse_u8 (pretty n) = Some n) && no_slash (pretty n)
  && negb (bool_decide (pretty n = "data")) && negb (bool_decide (pretty n = EmptyString)).
Definition width_ok (w : Z) : bool :=
  bool_decide (parse_u16 (pretty w) = Some w) && no_char dot (pretty w).

Lemma small_spec n : 0 ≤ n < 256 →
  parse_u8 (pretty n) = Some n ∧ no_slash (pretty n) = true ∧ pretty n ≠ "data" ∧ pretty n ≠ EmptyString.
Proof.
  intros Hn. assert (forallb small_ok (zrange 0 256) = true) as Hall by (by vm_compute).
  rewrite forallb_forall in Hall. specialize (Hall n).
  rewrite <- list_elem_of_In, elem_of_zrange in Hall. specialize (Hall ltac:(lia)).
  unfold small_ok in Hall. rewrite !andb_true_iff, !negb_true_iff in Hall.
  destruct Hall as [[[Hp Hs] Hd] He]. apply bool_decide_eq_true in Hp. apply bool_decide_eq_false in Hd, He.
  done.
Qed.

Lemma width_spec w : 1 ≤ w ≤ 256 → parse_u16 (pretty w) = Some w ∧ no_char dot (pretty w) = true.
Proof.
  intros Hw. assert (forallb width_ok (zrange 1 257) = true) as Hall by (by vm_compute).
  rewrite forallb_forall in Hall. specialize (Hall w).
  rewrite <- list_elem_of_In, elem_of_zrange in Hall. specialize (Hall ltac:(lia)).
  unfold width_ok in Hall. rewrite andb_true_iff in Hall. destruct Hall as [Hp Hd].
  by apply bool_decide_eq_true in Hp.
Qed.

Lemma append_empty_r (s : string) : s +:+ EmptyString = s.
Proof. induction s as [|a s IH]; [done|]. change (String a s +:+ EmptyString) with (String a (s +:+ EmptyString)). by rewrite IH. Qed.

(** A path without a dot has no width. *)
Lemma rfind_none s : no_char dot s = true → rfind_dot_p s = None.
Proof.
  induction s as [|a s IH]; [done|]. cbn [no_char rfind_dot_p]. intros [Ha Hs]%andb_true_iff.
  rewrite IH by done. apply negb_true_iff, bool_decide_eq_false in Ha.
  cbn [str_prefix]. rewrite bool_decide_eq_false_2; [done|]. intros Heq. apply Ha. by rewrite <- Heq.
Qed.

Lemma substring_all s n : (String.length s ≤ n)%nat → String.substring 0 n s = s.
Proof.
  revert n. induction s as [|a s IH]; intros n Hn; [by destruct n|].
  destruct n as [|n]; cbn in Hn |- *; [lia|]. f_equal. apply IH. lia.
Qed.

Lemma rfind_width a w : no_char dot w = true → rfind_dot_p (a +:+ ".p/" +:+ w) = Some (a, w).
Proof.
  intros Hw. induction a as [|x a IH].
  - change (EmptyString +:+ ".p/" +:+ w) with (".p/" +:+ w).
    assert (rfind_dot_p ("p/" +:+ w) = None) as Hnone.
    { apply rfind_none. rewrite no_char_app. by rewrite Hw. }
    change (".p/" +:+ w) with (String dot ("p/" +:+ w)). cbn [rfind_dot_p]. rewrite Hnone.
    change (String dot ("p/" +:+ w)) with (".p/" +:+ w). rewrite str_prefix_app. do 2 f_equal.
    change (String.substring 3 (String.length (".p/" +:+ w)) (".p/" +:+ w)) with
      (String.substring 0 (S (S (S (String.length w)))) w).
    apply substring_all. lia.
  - change (String x a +:+ ".p/" +:+ w) with (String x (a +:+ ".p/" +:+ w)).
    cbn [rfind_dot_p]. by rewrite IH.
Qed.

(** [parse_tile_path] finds the index and the width. *)
Lemma parse_tile_path_ok i width :
  0 ≤ i < 2 ^ 64 → (∀ w, width = Some w → 1 ≤ w ≤ 256) →
  parse_tile_path (tile_index_path i width) = (format_tile_index i, width).
Proof.
  intros Hi Hw. unfold tile_index_path, parse_tile_path. destruct width as [w|].
  - destruct (width_spec w (Hw w eq_refl)) as [Hp Hd]. specialize (Hw w eq_refl).
    rewrite rfind_width by done. rewrite Hp. by zdecide.
  - rewrite rfind_none; [by rewrite append_empty_r|]. rewrite no_char_app.
    by rewrite format_tile_index_no_dot.
Qed.

(** *** Splitting at the slashes *)

Lemma split_not_nil s : split_on slash s ≠ [].
Proof.
  destruct s as [|a s]; [done|]. cbn [split_on]. case_bool_decide; [done|]. by destruct (split_on slash s).
Qed.

Lemma join_split s : join_slash (split_on slash s) = s.
Proof.
  induction s as [|a s IH]; [done|]. cbn [split_on]. pose proof (split_not_nil s) as Hne.
  case_bool_decide as Ha.
  - subst a. rewrite join_slash_cons by done. by rewrite IH.
  - destruct (split_on slash s) as [|p ps]; [done|]. destruct ps as [|q ps].
    + cbn [join_slash] in *. by rewrite IH.
    + rewrite join_slash_cons in IH |- * by done. by rewrite <- IH.
Qed.

Lemma tile_path_nonempty i width : 0 ≤ i < 2 ^ 64 → tile_index_path i width ≠ EmptyString.
Proof.
  intros Hi Heq. unfold tile_index_path in Heq. pose proof (tile_index_round (DbErr := unit) i Hi) as Hr.
  destruct (format_tile_index i); [|done]. by vm_compute in Hr.
Qed.

Section TileRoutes.
  Context `{AxumRouterLaws}.

(** The routes under [/tile/]. *)
Lemma tile_route_match lvl rest :
  no_slash lvl = true → lvl ≠ EmptyString → lvl ≠ "data" → rest ≠ EmptyString →
  route_at (map fst create_router) ("/tile/" +:+ lvl +:+ String slash rest) =
    Some ("/tile/{level}/{*index}", [lvl; rest]).
Proof.
  intros Hlvl Hne Hnd Hrest.
  assert (split_on slash ("/tile/" +:+ lvl +:+ String slash rest) =
    EmptyString :: "tile" :: lvl :: split_on slash rest) as Hsplit.
  { change ("/tile/" +:+ lvl +:+ String slash rest) with
      (EmptyString +:+ String slash ("tile" +:+ String slash (lvl +:+ String slash rest))).
    rewrite !split_join_one by done. done. }
  pose proof (split_not_nil rest) as Hnn. pose proof (join_split rest) as Hjoin.
  apply route_unique.
  - set_solver.
  - unfold match_path. rewrite Hsplit.
    change (pattern_of "/tile/{level}/{*index}") with [Static EmptyString; Static "tile"; Capture; Wildcard].
    cbn [match_segments]. rewrite !bool_decide_eq_true_2, bool_decide_eq_false_2 by done.
    destruct (split_on slash rest) as [|x xs]; [done|]. by rewrite Hjoin, bool_decide_eq_false_2.
  - intros q Hq Hne' [caps Hm]. unfold match_path in Hm. rewrite Hsplit in Hm. cbn [map fst create_router] in Hq.
    repeat (apply elem_of_cons in Hq as [->|Hq]; [try done|]); [..|by apply not_elem_of_nil in Hq].
    change (pattern_of "/tile/data/{*index}") with [Static EmptyString; Static "tile"; Static "data"; Wildcard] in Hm.
    cbn [match_segments] in Hm. rewrite !(bool_decide_eq_true_2 (_ = _)), bool_decide_eq_false_2 in Hm by congruence.
    done.
Qed.

(** The more specific route of the data tiles is found for their paths. *)
Lemma data_route_match rest :
  rest ≠ EmptyString →
  route_at (map fst create_router) ("/tile/data/" +:+ rest) = Some ("/tile/data/{*index}", [rest]).
Proof.
  intros Hrest.
  assert (split_on slash ("/tile/data/" +:+ rest) =
    EmptyString :: "tile" :: "data" :: split_on slash rest) as Hsplit.
  { change ("/tile/data/" +:+ rest) with
      (EmptyString +:+ String slash ("tile" +:+ String slash ("data" +:+ String slash rest))).
    by rewrite !split_join_one by done. }
  pose proof (split_not_nil rest) as Hnn. pose proof (join_split rest) as Hjoin.
  apply route_unique.
  - set_solver.
  - unfold match_path. rewrite Hsplit.
    change (pattern_of "/tile/data/{*index}") with [Static EmptyString; Static "tile"; Static "data"; Wildcard].
    cbn [match_segments]. rewrite !(bool_decide_eq_true_2 (_ = _)) by done.
    destruct (split_on slash rest) as [|x xs]; [done|]. by rewrite Hjoin, bool_decide_eq_false_2.
  - intros q Hq Hne' [caps Hm]. unfold match_path in Hm. rewrite Hsplit in Hm. cbn [map fst create_router] in Hq.
    by repeat (apply elem_of_cons in Hq as [->|Hq]; [try done|]); apply not_elem_of_nil in Hq.
Qed.

(** C13: a request for a tile reaches its handler with the level, index and
    width it asks for: the path made of them is routed to the tile wrapper, or
    to that of the data tiles, however [axum] resolves overlapping routes within its
    documentation, and what is parsed back from the captures are the very level, width
    and index. *)
Theorem tile_request_routed l i width :
  0 ≤ l < 256 → 0 ≤ i < 2 ^ 64 → (∀ w, width = Some w → 1 ≤ w ≤ 256) →
  let path := tile_index_path i width in
  dispatch GET ("/tile/" +:+ pretty l +:+ "/" +:+ path) = Call tile_request_with_path [pretty l; path] ∧
  dispatch GET ("/tile/data/" +:+ path) = Call data_tile_request_with_path [path] ∧
  parse_u8 (pretty l) = Some l ∧ parse_tile_path path = (format_tile_index i, width) ∧
  parse_tile_index (DbErr := unit) (format_tile_index i) = Ok i.
Proof.
  intros Hl Hi Hw path. destruct (small_spec l Hl) as (Hp & Hs & Hd & He).
  pose proof (tile_path_nonempty i width Hi) as Hne. fold path in Hne.
  split; [|split; [|split; [done|split; [by apply parse_tile_path_ok|by apply tile_index_round]]]].
  - unfold dispatch. change ("/tile/" +:+ pretty l +:+ "/" +:+ path) with
      ("/tile/" +:+ pretty l +:+ String slash path). by rewrite tile_route_match.
  - unfold dispatch. by rewrite data_route_match.
Qed.

End TileRoutes.

(** ** The request metrics *)

Definition is_static_ct_endpoint (path : string) : bool :=
  bool_decide (path = "/checkpoint") || str_prefix "/tile/" path || str_prefix "/issuer/" path.

Definition normalize_path_for_metrics (path : string) : string :=
  if bool_decide (path = "/checkpoint") then path
  else if str_prefix "/tile/" path then "/tile"
  else if str_prefix "/issuer/" path then "/issuer"
  else path.

(** The metrics the middleware changes, by their labels; a histogram is known by
    its observations. *)
Record RequestMetrics := {
  active_connections : Z;
  requests_total : gmap (string * string * string) Z;
  durations : gmap (string * string) (list Z);
}.

Definition add_active (n : Z) (m : RequestMetrics) : RequestMetrics :=
  {| active_connections := active_connections m + n; requests_total := requests_total m;
     durations := durations m |}.
Definition observe_request (path method status : string) (duration : Z) (m : RequestMetrics) :
    RequestMetrics :=
  {| active_connections := active_connections m;
     requests_total := <[(path, method, status) :=
       default 0 (requests_total m !! (path, method, status)) + 1]> (requests_total m);
     durations := <[(path, method) :=
       default [] (durations m !! (path, method)) ++ [duration]]> (durations m) |}.

(** [metrics_middleware] around the rest of the service, whose state is [S];
    [elapsed] is what the clock says of it. *)
Section Middleware.
  Context {S R : Type} (status_of : R → string).

Definition metrics_middleware (path method : string) (elapsed : Z)
    (next : RequestMetrics * S → R * (RequestMetrics * S)) (s : RequestMetrics * S) :
    R * (RequestMetrics * S) :=
  let s := (add_active 1 s.1, s.2) in
  let '(response, (m, st)) := next s in
  let status := status_of response in
  let m :=
    if str_prefix "/ct/v1/" path || is_static_ct_endpoint path then
      let normalized_path := normalize_path_for_metrics path in
      observe_request normalized_path method status elapsed m
    else m in
  (response, (add_active (-1) m, st)).

(** A service that leaves these metrics alone but may answer other requests,
    through the middleware, while it runs. *)
Definition balanced (next : RequestMetrics * S → R * (RequestMetrics * S)) : Prop :=
  ∀ s, active_connections (next s).2.1 = active_connections s.1.

(** The middleware hands on the response of the service, counts the request
    once if it is for an endpoint of the log, under a label that does not depend on
    the tile or issuer asked for, and leaves the number of active connections as it
    was. *)
Theorem metrics_middleware_transparent path method elapsed next s :
  balanced next →
  let '(r, (m, st)) := next (add_active 1 s.1, s.2) in
  let '(r', (m', st')) := metrics_middleware path method elapsed next s in
  r' = r ∧ st' = st ∧ active_connections m' = active_connections s.1 ∧
  (let label := (normalize_path_for_metrics path, method, status_of r) in
   requests_total m' !! label = if str_prefix "/ct/v1/" path || is_static_ct_endpoint path
     then Some (default 0 (requests_total m !! label) + 1) else requests_total m !! label) ∧
  (∀ label, label ≠ (normalize_path_for_metrics path, method, status_of r) →
     requests_total m' !! label = requests_total m !! label) ∧
  (is_static_ct_endpoint path = true →
     normalize_path_for_metrics path ∈ ["/checkpoint"; "/tile"; "/issuer"]).
Proof.
  intros Hb. specialize (Hb (add_active 1 s.1, s.2)). unfold metrics_middleware.
  destruct (next (add_active 1 s.1, s.2)) as [r [m st]]. cbn in Hb.
  split; [done|]. split; [done|]. split.
  { destruct (_ || _); cbn; lia. }
  split.
  { destruct (_ || _); cbn; [by rewrite lookup_insert_eq|done]. }
  split.
  { intros label Hne. destruct (_ || _); cbn; [by rewrite lookup_insert_ne|done]. }
  unfold is_static_ct_endpoint, normalize_path_for_metrics. intros Hs.
  destruct (bool_decide (path = "/checkpoint")) eqn:E; [apply bool_decide_eq_true in E; set_solver|].
  destruct (str_prefix "/tile/" path); [set_solver|].
  destruct (str_prefix "/issuer/" path); [set_solver|done].
Qed.

(** The middleware around a balanced service is balanced: it can be nested. *)
Lemma metrics_middleware_balanced path method elapsed next :
  balanced next → balanced (metrics_middleware path method elapsed next).
Proof.
  intros Hb s. specialize (Hb (add_active 1 s.1, s.2)). unfold metrics_middleware.
  destruct (next (add_active 1 s.1, s.2)) as [r [m st]]. cbn in Hb. destruct (_ || _); cbn; lia.
Qed.

End Middleware.

(** Paths below [/ct/v1/] that name no endpoint keep their own label. *)
Lemma unknown_paths_labelled s t :
  normalize_path_for_metrics ("/ct/v1/" +:+ s) = normalize_path_for_metrics ("/ct/v1/" +:+ t) → s = t.
Proof. by intros [= ?]. Qed.

(** ** Instances *)

(** A router that takes the strongest of the routes that match. *)
Definition strongest (l : list string) (b : string) : string :=
  fold_left (λ b p, if stronger (pattern_of p) (pattern_of b) then p else b) l b.
#[local] Instance strongest_Router : AxumRouter := λ tbl path,
  match List.filter (λ p, bool_decide (is_Some (match_path p path))) tbl with
  | [] => None
  | b :: l => let p := strongest l b in pair p <$> match_path p path
  end.

Lemma stronger_trans p q r : stronger p q = true → stronger q r = true → stronger p r = true.
Proof.
  revert q r. induction p as [|[s| |] p IH]; intros [|[t| |] q] [|[u| |] r]; cbn; try done;
    rewrite ?andb_true_iff, ?bool_decide_eq_true; try by eauto.
  intros [-> ?] [-> ?]. eauto.
Qed.

Lemma stronger_irrefl p : stronger p p = false.
Proof. induction p as [|[s| |] p IH]; cbn; try done. by rewrite IH, andb_false_r. Qed.

Lemma strongest_spec l b :
  strongest l b ∈ b :: l ∧
  (strongest l b = b ∨ stronger (pattern_of (strongest l b)) (pattern_of b) = true) ∧
  ∀ p, p ∈ b :: l → stronger (pattern_of p) (pattern_of (strongest l b)) = false.
Proof.
  revert b. induction l as [|x l IH]; intros b.
  { split; [set_solver|]. split; [by left|]. intros p Hp. assert (p = b) as -> by set_solver.
    apply stronger_irrefl. }
  cbn [strongest fold_left]. destruct (stronger (pattern_of x) (pattern_of b)) eqn:E.
  - destruct (IH x) as (Hin & Hge & Hbest). fold (strongest l x). split; [set_solver|]. split.
    { right. destruct Hge as [->|Hge]; [done|]. by eapply stronger_trans. }
    intros p Hp. destruct (decide (p ∈ x :: l)) as [Hpx|Hpx]; [by apply Hbest|].
    assert (p = b) as -> by set_solver. apply not_true_is_false. intros Hs.
    pose proof (stronger_trans _ _ _ E Hs) as Ht. rewrite Hbest in Ht; [done|set_solver].
  - destruct (IH b) as (Hin & Hge & Hbest). fold (strongest l b). split; [set_solver|]. split; [done|].
    intros p Hp. destruct (decide (p ∈ b :: l)) as [Hpx|Hpx]; [by apply Hbest|].
    assert (p = x) as -> by set_solver. apply not_true_is_false. intros Hs.
    destruct Hge as [Heq|Hge]; [by rewrite Heq, E in Hs|].
    pose proof (stronger_trans _ _ _ Hs Hge). congruence.
Qed.

#[local] Instance strongest_RouterLaws : AxumRouterLaws.
Proof.
  assert (∀ tbl path p, In p (List.filter (λ p, bool_decide (is_Some (match_path p path))) tbl) ↔
    p ∈ tbl ∧ is_Some (match_path p path)) as Hf.
  { intros tbl path p. by rewrite filter_In, bool_decide_eq_true, <- list_elem_of_In. }
  assert (∀ tbl path pat caps, route_at tbl path = Some (pat, caps) →
    pat ∈ tbl ∧ match_path pat path = Some caps ∧
    ∀ q, q ∈ tbl → is_Some (match_path q path) → stronger (pattern_of q) (pattern_of pat) = false) as Hr.
  { intros tbl path pat caps. unfold route_at, strongest_Router. specialize (Hf tbl path).
    destruct (List.filter _ tbl) as [|b l]; [done|]. destruct (strongest_spec l b) as (Hin & _ & Hbest). cbv zeta.
    intros (c & Hc & [= -> ->])%fmap_Some. apply list_elem_of_In, Hf in Hin as [Hin _].
    split; [done|]. split; [done|]. intros q Hq Hm. apply Hbest, list_elem_of_In, Hf. done. }
  split.
  - intros tbl path pat caps Ha. by destruct (Hr _ _ _ _ Ha) as (? & ? & _).
  - intros tbl path pat caps Hin Hm. unfold route_at, strongest_Router. pose proof (Hf tbl path) as Hf'.
    assert (In pat (List.filter (λ p, bool_decide (is_Some (match_path p path))) tbl)) as Hp
      by (apply Hf'; split; [done|by eexists]).
    destruct (List.filter _ tbl) as [|b l]; [done|]. destruct (strongest_spec l b) as (Hs & _).
    apply list_elem_of_In, Hf' in Hs as [_ [c Hc]]. cbv zeta. exists (strongest l b, c). by rewrite Hc.
  - intros tbl path pat caps pat' caps' Ha Hin Hm. destruct (Hr _ _ _ _ Ha) as (_ & _ & Hbest).
    apply Hbest; [done|by eexists].
Qed.

Lemma tile_request_routed_witness :
  dispatch GET "/tile/2/x001/067.p/12" = Call tile_request_with_path ["2"; "x001/067.p/12"] ∧
  dispatch GET "/tile/data/x001/067.p/12" = Call data_tile_request_with_path ["x001/067.p/12"] ∧
  parse_tile_path "x001/067.p/12" = ("x001/067", Some 12).
Proof.
  destruct (tile_request_routed 2 1067 (Some 12)) as (H1 & H2 & _ & H4 & _);
    [lia|lia|intros w [= <-]; lia|]. split; [exact H1|]. split; [exact H2|exact H4].
Defined.

Definition ok_service (s : RequestMetrics * unit) : string * (RequestMetrics * unit) := ("200", s).

Lemma metrics_middleware_transparent_witness :
  let m0 := {| active_connections := 0; requests_total := ∅; durations := ∅ |} in
  requests_total (metrics_middleware id "/tile/0/000" "GET" 3 ok_service (m0, tt)).2.1
    !! ("/tile", "GET", "200") = Some 1.
Proof.
  intros m0.
  pose proof (metrics_middleware_transparent id "/tile/0/000" "GET" 3 ok_service (m0, tt)) as Ht.
  assert (balanced ok_service) as Hb by (intros s; reflexivity).
  specialize (Ht Hb). destruct Ht as (_ & _ & _ & Ht & _). exact Ht.
Defined.
