(* ===== verification/ApiReads.v ===== *)
(** * What the read endpoints answer

    The handlers of [Api] against the invariant of the storage: tree heads,
    proofs, entries, tiles and pages are those of the entries logged. *)

From S2P Require Import Prelude TreeMath Rfc6962 Inclusion Consistency KvStore TreeStore TreeInv.
From S2P Require Import TreeReads TreePush TreeTiles TreeBatch Types TreeHead Tiles MerkleStorage.
From S2P Require Import CtStorage CtInv CtFlush CtReads Api.

(** What the documentation of crate [base64] promises. *)
Class Base64Laws `{Base64} := {
  b64_round b : b64_decode (b64_encode b) = Ok b;
  b64_total s : match b64_decode s with Ok _ | Err _ => True | _ => False end;
}.

(** ** Reading [extra_data] back *)

Fixpoint parse_certs (fuel : nat) (b : bytes) : option (list bytes) :=
  match b, fuel with
  | [], _ => Some []
  | _, O => None
  | _, S f => '(cert, rest) ← parse_vec3 b; certs ← parse_certs f rest; mret (cert :: certs)
  end.
Definition read_chain (b : bytes) : option (list bytes) :=
  '(certs, rest) ← parse_vec3 b;
  if bool_decide (rest = []) then parse_certs (length certs) certs else None.

(** The precertificate, for an entry of that type, and the chain. *)
Definition parse_extra_data (t : LogEntryType) (b : bytes) : option (option bytes * list bytes) :=
  match t with
  | X509Entry => chain ← read_chain b; mret (None, chain)
  | PrecertEntry =>
      '(precert, rest) ← parse_vec3 b; chain ← read_chain rest; mret (Some precert, chain)
  end.

Definition chain_bytes (chain : list bytes) : bytes := concat (map (λ c, len3 c ++ c) chain).

Lemma length_len3 c : length (len3 c) = 3%nat.
Proof. done. Qed.

Lemma chain_total_acc chain acc :
  0 ≤ acc → acc + zlen (chain_bytes chain) < 2 ^ 24 →
  fold_left (λ acc c, u32 (acc + u32 (3 + u32 (zlen c)))) chain acc = acc + zlen (chain_bytes chain).
Proof.
  revert acc. induction chain as [|c chain IH]; intros acc Ha Hb; [cbn; lia|].
  unfold chain_bytes in *. cbn [fold_left map concat] in *. rewrite !length_app, length_len3 in *.
  unfold u32 in *. rewrite (Z.mod_small (zlen c)), (Z.mod_small (3 + zlen c)), Z.mod_small by lia.
  rewrite IH by lia. lia.
Qed.

Lemma chain_vector_len3 chain :
  zlen (chain_bytes chain) < 2 ^ 24 →
  chain_vector chain = len3 (chain_bytes chain) ++ chain_bytes chain.
Proof.
  intros Hb. unfold chain_vector. rewrite chain_total_acc by lia. fold (chain_bytes chain).
  unfold len3, u32. by rewrite Z.add_0_l, (Z.mod_small (zlen _)) by lia.
Qed.

Lemma parse_certs_ok chain fuel :
  zlen (chain_bytes chain) < 2 ^ 24 → (length (chain_bytes chain) ≤ fuel)%nat →
  parse_certs fuel (chain_bytes chain) = Some chain.
Proof.
  revert fuel. induction chain as [|c chain IH]; intros fuel Hb Hf; [by destruct fuel|].
  unfold chain_bytes in *. cbn [map concat] in *. rewrite <- app_assoc. rewrite !length_app, length_len3 in Hb, Hf.
  destruct fuel as [|fuel]; [lia|].
  destruct (len3 c ++ c ++ concat (map (λ c, len3 c ++ c) chain)) as [|x l] eqn:Hx; [done|].
  cbn [parse_certs]. rewrite <- Hx, parse_vec3_ok by lia. cbn [mbind option_bind].
  by rewrite IH by lia.
Qed.

Lemma read_chain_ok chain :
  zlen (chain_bytes chain) < 2 ^ 24 → read_chain (chain_vector chain) = Some chain.
Proof.
  intros Hb. rewrite chain_vector_len3 by done. unfold read_chain.
  rewrite <- (app_nil_r (len3 _ ++ _)), <- app_assoc, parse_vec3_ok by done. cbn [mbind option_bind].
  rewrite bool_decide_eq_true_2 by done. by apply parse_certs_ok.
Qed.

Lemma chain_data_ok e :
  zlen (chain_bytes (default [] (chain e))) < 2 ^ 24 →
  read_chain (chain_data e) = Some (default [] (chain e)).
Proof. unfold chain_data. destruct (chain e); [apply read_chain_ok|done]. Qed.

Section Reads.
  Context `{SlateDb} `{!DebugDb} `{!DisplayDb} `{!Cache (Z * Z) bytes} `{!Cache (Z * Z) bool}.
  Context `{!SlateDbLaws} `{!CacheLaws (Z * Z) bytes} `{!CacheLaws (Z * Z) bool}.
  Context `{!Cache bytes bytes} `{!CacheLaws bytes bytes}.
  Context `{!Cache Z LogEntry} `{!CacheLaws Z LogEntry}.
  Context `{Digest} `{!Postcard bytes} `{!PostcardLaws bytes}.
  Context `{!Postcard DeduplicatedLogEntry} `{!PostcardLaws DeduplicatedLogEntry}.
  Context `{!Postcard CertificateSctEntry} `{!PostcardLaws CertificateSctEntry}.
  Context `{TbsExtractor} `{Signer} `{Base64} `{!Base64Laws}.
  Abbreviation CErr := (CtError SlateDBError).
  Implicit Types (P : list Processed) (B : gset Z) (m : gmap bytes bytes).

(** ** Calls on the tree and on the storage *)

Lemma on_tree_spec {A} (f : CErr → ApiError) (c : stM SlateDbBackedTree CErr A) P B m s
    (Q : A → Prop) (R : CErr → Prop) :
  kept P B m s →
  spec c (ct_tree s) (λ a t, inv t (leaves P) B ∧ view t = view (ct_tree s) ∧ Q a)
    (λ e t, inv t (leaves P) B ∧ view t = view (ct_tree s) ∧ R e) →
  spec (on_tree f c) s (λ a s', kept P B m s' ∧ Q a)
    (λ e s', kept P B m s' ∧ ∃ e0, e = f e0 ∧ R e0).
Proof.
  intros [[[Hi Hc] Hch He] Hm]. unfold spec, on_tree. destruct (c (ct_tree s)) as [r t].
  assert (inv t (leaves P) B → view t = view (ct_tree s) → kept P B m
    {| ct_tree := t; chain_cache := chain_cache s; entry_cache := entry_cache s |}) as Hk.
  { intros Hi' Hv'. split; [|cbn; congruence]. split; [|done|done]. split; [done|].
    cbn. by rewrite Hv'. }
  destruct r; cbn [map_err]; try done; intros (Hi' & Hv' & Hq); split; eauto.
Qed.

Lemma on_storage_spec {A} (f : StorageError SlateDBError → ApiError)
    (c : stM CtStorage (StorageError SlateDBError) A) P B m s (Q : A → CtStorage → Prop) :
  spec c s Q (read_failure P B m) →
  spec (on_storage f c) s Q (λ e s', kept P B m s' ∧ ∃ d, e = f (SlateDbErr d)).
Proof.
  intros Hc. apply spec_map_err. eapply spec_mono; [done|done|]. intros e s' [[d ->] Hk]. eauto.
Qed.

(** The handlers fail in no other way than the code says. *)
Definition answers P B m (refusal : ApiError → Prop) (e : ApiError) (s : CtStorage) : Prop :=
  kept P B m s ∧ (refusal e ∨ e.1 = INTERNAL_SERVER_ERROR).

Lemma committed_root_spec P B m s :
  kept P B m s →
  spec (on_tree internal_ct committed_root) s
    (λ r s', kept P B m s' ∧ r = RootHash_new (mth (leaves P)) (zlen P))
    (λ e s', kept P B m s' ∧ e.1 = INTERNAL_SERVER_ERROR).
Proof.
  intros Hk. pose proof Hk as [[[Hi _] _ _] _]. pose proof Hi as [Hti _].
  eapply spec_mono; [eapply (on_tree_spec _ _ P B m s (λ r, r = RootHash_new (mth (leaves P)) (zlen P))
    (λ _, True)); [done|]| |].
  - unfold committed_root, committed_size. apply spec_bind, spec_map_err.
    eapply spec_mono; [eapply get_committed_size_spec; [done|by apply inv_keeps]|..].
    + intros n t1 [-> Hk1]. assert (inv t1 (leaves P) B) as Hi1 by (by eapply keeps_inv).
      assert (view t1 = view (ct_tree s)) as Hv1 by apply Hk1. apply spec_map_err.
      eapply spec_mono; [apply (root_at_size_spec (leaves P) B); [done|by eapply zlen_u64]|..].
      * intros r t2 (Hi2 & Hv2 & _ & ->). split; [done|]. split; [congruence|].
        by rewrite zslice_full, length_leaves.
      * intros e t2 (Hi2 & Hv2 & _). split; [done|]. split; [congruence|done].
    + intros e t1 [_ Hk1]. split; [by eapply keeps_inv|]. split; [apply Hk1|done].
  - done.
  - intros e s' [Hk' (e0 & -> & _)]. done.
Qed.

(** ** Tree heads *)

Definition sth_of state (now : Z) P : SthResponse :=
  to_api_response {| tree_size := zlen P; sth_timestamp := u64 now;
    sth_root_hash := mth (leaves P);
    sth_signature := sign (sth_key (sth_builder state))
      (build_signature_input (u64 now) (zlen P) (mth (leaves P))) |}.

Lemma get_sth_spec (state : ApiState) now P B m s :
  kept P B m s →
  spec (get_sth state now) s (λ r s', kept P B m s' ∧ r = sth_of state now P)
    (λ e s', kept P B m s' ∧ e.1 = INTERNAL_SERVER_ERROR).
Proof.
  intros Hk. apply spec_bind. eapply spec_mono; [by apply committed_root_spec| |done].
  intros r s1 [Hk1 ->]. by apply spec_ret.
Qed.

(** ** Proofs *)

Lemma audit_path_of (digests : list bytes) :
  output_size = 32%nat → Forall (λ h, length h = output_size) digests →
  inclusion_proof_to_audit_path (from_digests digests) = map b64_encode digests.
Proof.
  intros Hash Hd. unfold inclusion_proof_to_audit_path. f_equal.
  apply (chunks_concat 32); [lia|]. by rewrite <- Hash.
Qed.

Lemma path_lengths P n i :
  size_ok n → n ≤ zlen (leaves P) → 0 ≤ i < n →
  Forall (λ h, length h = output_size) (path i (zslice 0 n (leaves P))).
Proof.
  intros Hn Hl Hi. destruct (inclusion_up (leaves P) n i) as (out & _ & _ & Hmap); [done..|].
  rewrite <- Hmap. apply Forall_subtree_length.
Qed.

Lemma leaves_lookup P i p : P !! i = Some p → leaves P !! i = Some {| data := p_leaf_data p |}.
Proof. intros Hp. unfold leaves. by rewrite list_lookup_fmap, Hp. Qed.

(** A proof that was asked for through the API. *)
Definition audit_ok P B (v i : Z) (audit : list string) : Prop :=
  v ∈ B ∧ 0 ≤ i < v ∧ v ≤ zlen P ∧ audit = map b64_encode (path i (zslice 0 v (leaves P))) ∧
  ∀ p, P !! Z.to_nat i = Some p →
    verify (from_digests (path i (zslice 0 v (leaves P)))) {| data := p_leaf_data p |} i
      (RootHash_new (mth (zslice 0 v (leaves P))) v) = Ok tt.

Lemma prove_inclusion_api {A} (g : list string → A) P B m s v i :
  output_size = 32%nat → kept P B m s → is_u64 v → is_u64 i →
  spec (pf ← on_tree proof_status (prove_inclusion_efficient v i);
        mret (g (inclusion_proof_to_audit_path pf))) s
    (λ r s', kept P B m s' ∧ ∃ audit, r = g audit ∧ audit_ok P B v i audit)
    (answers P B m (λ e, (e.1 = BAD_REQUEST ∧ (v ≤ i ∨ zlen P < v ∨ (v ∉ B))) ∨
       ∃ d, e = proof_status (inclusion_err v (DbError d)))).
Proof.
  intros Hash Hk Hv Hi. pose proof Hk as [[[Hinv _] _ _] _]. pose proof Hinv as [Hti _].
  pose proof (ti_size _ _ _ Hti) as Hsz. apply spec_bind.
  eapply spec_mono; [eapply (on_tree_spec _ _ P B m s
    (λ pf, v ∈ B ∧ i < v ∧ pf = from_digests (path i (zslice 0 v (leaves P))))
    (λ e, (v ≤ i ∨ zlen P < v ∨ (v ∉ B)) ∧ (∃ msg, e = BadRequest msg) ∨
       (∃ d, e = inclusion_err v (DbError d)) ∨
       ∃ d, e = tree_err "Failed to get tree size" (DbError d))); [done|]| |].
  - eapply spec_mono; [by apply (prove_inclusion_efficient_spec (leaves P) B)|..].
    + intros pf t (Hi' & Hv' & HB & Hlt & ->). done.
    + intros e t (Hi' & Hv' & [Href|(d & Hd)]); (split; [done|]; split; [done|]).
      * rewrite length_leaves in Href. left. naive_solver.
      * destruct Hd as [-> | ->]; eauto.
  - intros pf s1 (Hk1 & HB & Hlt & ->). pose proof (ti_bound _ _ _ Hti v HB) as Hb.
    rewrite length_leaves in *. unfold is_u64 in *.
    assert (size_ok v) as Hok by (unfold size_ok; lia). apply spec_ret. split; [done|].
    eexists. split; [done|]. split; [done|]. split; [lia|]. split; [lia|]. split.
    + apply audit_path_of; [done|]. apply path_lengths; [done|by rewrite length_leaves; lia|lia].
    + intros p Hp. apply verify_path; [done|rewrite length_leaves; lia|lia|by apply leaves_lookup].
  - intros e s1 [Hk1 (e0 & -> & He)]. split; [done|].
    destruct He as [[He [msg ->]]|[[d ->]|[d ->]]]; [by left; left|left; right; by eexists|by right].
Qed.

Lemma get_proof_by_hash_spec hs v P B m s :
  output_size = 32%nat → kept P B m s → is_u64 v →
  spec (get_proof_by_hash hs v) s
    (λ r s', kept P B m s' ∧ audit_ok P B v r.1 r.2 ∧
       ∃ p, P !! Z.to_nat r.1 = Some p ∧ b64_decode hs = Ok (leaf_digest p))
    (answers P B m (λ e,
       (e.1 = BAD_REQUEST ∧ ((∃ msg, b64_decode hs = Err msg) ∨ zlen P < v ∨ (v ∉ B))) ∨
       (e = (NOT_FOUND, "Leaf not found") ∧ ∀ p, p ∈ P → b64_decode hs ≠ Ok (leaf_digest p)) ∨
       (e = (NOT_FOUND, "Leaf not found in requested tree size") ∧
        ∃ i p, P !! Z.to_nat i = Some p ∧ b64_decode hs = Ok (leaf_digest p) ∧ v ≤ i) ∨
       (∃ d, e = proof_status (inclusion_err v (DbError d))))).
Proof.
  intros Hash Hk Hv. unfold get_proof_by_hash. pose proof (b64_total hs) as Ht.
  destruct (b64_decode hs) as [h|msg| |] eqn:Hh; try done; cbn [map_err]; last first.
  { apply spec_bind. unfold spec, lift. split; [done|]. left. left. eauto. }
  apply spec_bind. eapply spec_lift_ok; [done|]. apply spec_bind.
  eapply spec_mono; [by eapply on_storage_spec, find_index_by_hash_spec|..].
  2: { intros e s' [Hk' (d & ->)]. split; [done|]. by right. }
  intros [i|] s1 [Hk1 Hi]; cbn [ok_or]; last first.
  { apply spec_bind. unfold spec, lift. split; [done|]. left. right. left. split; [done|].
    intros p Hp [= ->]. by destruct (Hi p Hp). }
  destruct Hi as (p & Hib & Hp & <-). apply spec_bind. eapply spec_lift_ok; [done|].
  pose proof Hk as [[[[Hti _] _] _ _] _]. pose proof (ti_size _ _ _ Hti) as Hsz.
  rewrite length_leaves in Hsz. destruct (Z.leb_spec v i).
  { apply spec_fail. split; [done|]. left. right. right. left. eauto 10. }
  eapply spec_mono; [eapply (prove_inclusion_api (pair i)); [done|done|done|unfold is_u64; lia]|..].
  - intros r s2 (Hk2 & audit & -> & Ha). cbn [fst snd]. eauto 10.
  - intros e s2 [Hk2 He]. split; [done|]. destruct He as [[[He Hc]|[d ->]]|?]; [|eauto 10|auto].
    left. left. split; [done|]. destruct Hc as [?|[?|?]]; [lia|auto|auto].
Qed.

(** ** Entries *)

(** What is served for an entry: the leaf that is hashed into the tree, and the
    chain. *)
Definition served (p : Processed) (r : string * string) : Prop :=
  ∃ extra, build_extra_data (p_log_entry p) = Ok extra ∧
    r = (b64_encode (p_leaf_data p), b64_encode extra).

Lemma serialize_leaf i p :
  made i p → entry_wf (p_log_entry p) →
  serialize (DbErr := SlateDBError) (p_log_entry p) = Ok (p_leaf_data p).
Proof.
  intros [Hidx _ Hd _] [Hw _]. unfold serialize. rewrite Hidx.
  destruct (entry_type (p_log_entry p)) eqn:Ht; rewrite ?Ht in Hd.
  - rewrite bind_Ok. revert Hd. unfold serialize_merkle_tree_leaf. cbn [entry_bytes].
    destruct (ext_leaf_index i); try done. by intros [= <-].
  - destruct Hw as [[h Hh] _]. rewrite Hh in *. rewrite bind_Ok. revert Hd. unfold serialize_merkle_tree_leaf.
    destruct (ext_leaf_index i); try done. by intros [= <-].
Qed.

Lemma build_extra_data_ok p :
  entry_wf (p_log_entry p) → ∃ extra, build_extra_data (p_log_entry p) = Ok extra.
Proof.
  intros [Hw _]. unfold build_extra_data. destruct (entry_type (p_log_entry p)); [by eexists|].
  destruct Hw as (_ & pc & -> & _). by eexists.
Qed.

Lemma leaf_entry_ok i p :
  made i p → entry_wf (p_log_entry p) →
  ∃ r, served p r ∧ leaf_entry (inr (Some (p_log_entry p))) = Ok (Some r).
Proof.
  intros Hm Hw. destruct (build_extra_data_ok p Hw) as [extra Hx].
  eexists. split; [by exists extra|]. unfold leaf_entry. rewrite (serialize_leaf i p Hm Hw). cbn [map_err].
  by rewrite bind_Ok, Hx.
Qed.

(** The requested range without the wrap-around. *)
Lemma entries_range_ok start end_ :
  0 ≤ start ≤ end_ → end_ < 2 ^ 64 → end_ - start < 2 ^ 64 - 1 →
  entries_range start end_ = (Z.min (end_ - start + 1) 1000, Z.min end_ (start + 999)).
Proof.
  intros Hs He Hr. unfold entries_range, MAX_ENTRIES. cbv zeta.
  rewrite (u64_small (end_ - start)), (u64_small (end_ - start + 1)) by lia.
  f_equal. unfold u64. rewrite Zminus_mod_idemp_l, Z.mod_small by lia. lia.
Qed.

Lemma omap_zrange {A} (l : list A) a b :
  0 ≤ a → omap (λ i, l !! Z.to_nat i) (zrange a b) = zslice a b l.
Proof.
  intros Ha. unfold zrange, zslice. remember (Z.to_nat (b - a)) as k eqn:Hk.
  assert (seqZ a (b - a) = seqZ a (Z.of_nat k)) as ->.
  { destruct (decide (0 ≤ b - a)); [f_equal; lia|]. rewrite !seqZ_nil by lia. done. }
  clear Hk b. revert a Ha. induction k as [|k IH]; intros a Ha; [by rewrite take_0|].
  rewrite seqZ_cons by lia. cbn [omap list_omap].
  replace (Z.pred (Z.of_nat (S k))) with (Z.of_nat k) by lia.
  rewrite IH by lia. replace (Z.to_nat (Z.succ a)) with (S (Z.to_nat a)) by lia.
  destruct (l !! Z.to_nat a) as [x|] eqn:Hx.
  - by rewrite (drop_S l x _ Hx).
  - apply lookup_ge_None in Hx. by rewrite !drop_ge, !take_nil by lia.
Qed.

(** What [join_all] returned for the indices. *)
Definition fetched P (i : Z) (r : StorageError SlateDBError + option LogEntry) : Prop :=
  (∃ d, r = inl (SlateDbErr d)) ∨ r = inr (p_log_entry <$> P !! Z.to_nat i).

Lemma leaf_entries_ok m P idxs rs :
  ct_inv m P → Forall (λ p, entry_wf (p_log_entry p)) P → Forall2 (fetched P) idxs rs →
  match mapM leaf_entry rs with
  | Ok l => Forall2 served (omap (λ i, P !! Z.to_nat i) idxs) (omap id l)
  | Err e => e.1 = INTERNAL_SERVER_ERROR
  | _ => False
  end.
Proof.
  intros Hc Hwf. induction 1 as [|i r idxs rs Hr Hrs IH]; [constructor|].
  cbn [mapM omap list_omap]. destruct Hr as [[d ->] | ->]; [done|].
  destruct (P !! Z.to_nat i) as [p|] eqn:Hp; cbn [fmap option_fmap option_map].
  - destruct (leaf_entry_ok _ p (ci_made _ _ Hc _ _ Hp)) as (e & He & ->);
      [by eapply (Forall_lookup_1 (λ p, entry_wf (p_log_entry p)))|].
    rewrite bind_Ok. destruct (mapM leaf_entry rs) as [l| | |]; cbn; try done. by constructor.
  - cbn [leaf_entry]. rewrite bind_Ok. by destruct (mapM leaf_entry rs).
Qed.

Lemma get_entries_spec start end_ P B m s :
  kept P B m s → collision_free (all_certs P) → Forall (λ p, entry_wf (p_log_entry p)) P →
  0 ≤ start ≤ end_ → end_ < 2 ^ 64 → end_ - start < 2 ^ 64 - 1 →
  spec (get_entries start end_) s
    (λ r s', kept P B m s' ∧ Forall2 served (zslice start (Z.min end_ (start + 999) + 1) P) r)
    (λ e s', kept P B m s' ∧ e.1 = INTERNAL_SERVER_ERROR).
Proof.
  intros Hk Hcf Hwf Hs He Hr. unfold get_entries. zdecide. rewrite entries_range_ok by done.
  pose proof Hk as [[[_ Hc] _ _] Hm]. rewrite Hm in Hc. apply spec_bind. eapply spec_mono.
  { eapply (spec_mapM _ _ _ (fetched P) (kept P B m)); [done|].
    intros i s' Hi%elem_of_zrange Hk'. apply spec_attempt.
    eapply spec_mono; [eapply (get_entry_spec P B m Hcf Hwf i); [unfold is_u64; lia|done]|..].
    - intros r s'' [-> Hk'']. split; [by right|done].
    - intros e s'' [[d ->] Hk'']. split; [left; by eexists|done]. }
  2: { intros e s' He'. exact He'. }
  intros rs s' [Hrs Hk']. pose proof (leaf_entries_ok _ _ _ _ Hc Hwf Hrs) as Hl.
  rewrite omap_zrange in Hl by lia. unfold spec, lift, mbind, stM_bind.
  destruct (mapM leaf_entry rs); cbn; naive_solver.
Qed.

Lemma get_entry_and_proof_spec i v P B m s :
  output_size = 32%nat → kept P B m s → collision_free (all_certs P) →
  Forall (λ p, entry_wf (p_log_entry p)) P → is_u64 i → (∀ n, v = Some n → is_u64 n) →
  spec (get_entry_and_proof i v) s
    (λ r s', kept P B m s' ∧ audit_ok P B (default (zlen P) v) i r.2 ∧
       ∃ p, P !! Z.to_nat i = Some p ∧ served p r.1)
    (answers P B m (λ e,
       (e.1 = BAD_REQUEST ∧ (default (zlen P) v ≤ i ∨ zlen P < default (zlen P) v ∨
                             (default (zlen P) v ∉ B))) ∨
       (e = (NOT_FOUND, "Log entry not found") ∧ zlen P ≤ i) ∨
       (∃ d, e = proof_status (inclusion_err (default (zlen P) v) (DbError d))))).
Proof.
  intros Hash Hk Hcf Hwf Hi Hv. unfold get_entry_and_proof.
  pose proof Hk as [[[Hinv Hc] _ _] Hm]. rewrite Hm in Hc. apply spec_bind. eapply spec_mono.
  { eapply (on_tree_spec _ _ P B m s (λ n, n = zlen P) (λ _, True)); [done|].
    eapply spec_mono; [by eapply size_spec|..]; [|intros e t (? & ? & _); done].
    intros n t (-> & ? & ?). by rewrite length_leaves. }
  2: { intros e s' [Hk' (e0 & -> & _)]. split; [done|by right]. }
  intros n s1 [Hk1 ->]. destruct (Z.leb_spec (default (zlen P) v) i).
  { apply spec_fail. split; [done|left; left; auto]. }
  apply spec_bind. eapply spec_mono; [by eapply on_storage_spec, get_entry_spec|..].
  2: { intros e s' [Hk' (d & ->)]. split; [done|by right]. }
  intros r s2 [-> Hk2]. destruct (P !! Z.to_nat i) as [p|] eqn:Hp; cbn [fmap option_fmap option_map ok_or];
    last first.
  { apply spec_bind. unfold spec, lift. split; [done|]. left. right. left. split; [done|].
    apply lookup_ge_None in Hp. unfold is_u64 in *. lia. }
  assert (entry_wf (p_log_entry p)) as Hw by (by eapply (Forall_lookup_1 (λ p, entry_wf (p_log_entry p)))).
  destruct (build_extra_data_ok p Hw) as [extra Hx].
  apply spec_bind. eapply spec_lift_ok; [done|]. apply spec_bind.
  rewrite (serialize_leaf _ p (ci_made _ _ Hc _ _ Hp) Hw). eapply spec_lift_ok; [done|].
  apply spec_bind. rewrite Hx. eapply spec_lift_ok; [done|].
  assert (is_u64 (default (zlen P) v)) as Hv'.
  { destruct v as [n|]; [by apply Hv|]. pose proof Hinv as [Hti _]. pose proof (zlen_u64 _ _ _ Hti) as Hz.
    by rewrite length_leaves in Hz. }
  eapply spec_mono; [eapply (prove_inclusion_api (pair (b64_encode (p_leaf_data p), b64_encode extra))); done|..].
  - intros r s3 (Hk3 & audit & -> & Ha). cbn [fst snd]. split; [done|]. split; [done|].
    exists p. split; [done|]. by exists extra.
  - intros e s3 [Hk3 He]. split; [done|]. destruct He as [[[He Hc']|[d ->]]|?]; [auto|eauto 10|auto].
Qed.

(** ** Tiles *)

(** The hash over the leaves of a position, complete or not, and the hashes of
    a run of complete positions. *)
Definition position_hash P (l p : Z) : bytes :=
  mth (zslice (p * tile_width l) (Z.min (zlen P) ((p + 1) * tile_width l)) (leaves P)).
Definition tile_prefix (D : list Certificate) (l i w : Z) : bytes :=
  concat (map (λ p, mth (zslice (p * tile_width l) ((p + 1) * tile_width l) D))
              (zrange (i * 256) (i * 256 + w))).

Lemma tile_hash_spec l p P B m s :
  output_size = 32%nat → 0 ≤ l ≤ 5 → 0 ≤ p → p * tile_width l < zlen P → kept P B m s →
  spec (tile_hash (tile_width l) (zlen P) p) s
    (λ r s', r = Some (position_hash P l p) ∧ kept P B m s')
    (λ e s', kept P B m s' ∧ e.1 = INTERNAL_SERVER_ERROR).
Proof.
  intros Hash Hl Hp Hlt Hk. pose proof Hk as [[[Hinv _] _ _] _]. pose proof Hinv as [Hti _].
  pose proof (ti_size _ _ _ Hti) as Hsz. pose proof (tile_width_bound l Hl) as Hw.
  pose proof (ti_top _ _ _ Hti) as HB. rewrite length_leaves in *. specialize (HB ltac:(nia)).
  assert (size_ok (zlen P)) as Hok by (unfold size_ok; nia).
  destruct (tile_node_spec (zlen P) l p) as (Hv & Hlo & Hhi); [lia|done|done|].
  unfold tile_hash. rewrite (u64_small (p * tile_width l)) by nia.
  rewrite (proj2 (Z.leb_gt _ _)) by lia. rewrite u64_small by nia.
  replace (Z.min (p * tile_width l + tile_width l) (zlen P)) with (hi (zlen P) (tile_node (zlen P) l p)) by lia.
  rewrite <- Hlo at 1. apply spec_bind. eapply spec_lift_ok.
  { apply compute_subtree_root_node; [done|done|]. pose proof (valid_range_level _ _ Hok Hv). lia. }
  apply spec_bind. eapply spec_mono.
  { eapply (on_tree_spec _ _ P B m s (λ h, h = position_hash P l p) (λ _, True)); [done|].
    apply spec_map_err. eapply spec_mono.
    { apply (get_node_hash_at_version_spec (view (ct_tree s)) (leaves P) B Hti); [|by apply inv_keeps].
      split; [by eapply valid_u64|]. split; [by eapply bound_u64|]. rewrite length_leaves. lia. }
    - intros h t [[Hh _] Hkt]. split; [by eapply keeps_inv|]. split; [apply Hkt|].
      rewrite Hh by done. unfold subtree_hash, position_hash. by rewrite Hlo, Hhi.
    - intros e t [_ Hkt]. split; [by eapply keeps_inv|]. split; [apply Hkt|done]. }
  - intros h s1 [Hk1 ->]. apply spec_bind. unfold position_hash.
    rewrite bool_decide_eq_true_2 by (by rewrite mth_length). eapply spec_lift_ok; [done|]. by apply spec_ret.
  - intros e s1 [Hk1 (e0 & -> & _)]. done.
Qed.

Lemma total_positions n w : 0 ≤ n → 1 ≤ w →
  let total := n / w + (if 0 <? n mod w then 1 else 0) in ∀ p, 0 ≤ p → p < total ↔ p * w < n.
Proof.
  intros Hn Hw total p Hp. unfold total. destruct (decide (n = 0)) as [->|].
  { rewrite Z.div_0_l, Z.mod_0_l by lia. cbn. nia. }
  rewrite tile_total by lia. pose proof (Z.div_mod (n - 1) w ltac:(lia)).
  pose proof (Z.mod_pos_bound (n - 1) w ltac:(lia)). nia.
Qed.

Lemma total_bound n w : 0 ≤ n → 1 ≤ w → 0 ≤ n / w + (if 0 <? n mod w then 1 else 0) ≤ n.
Proof.
  intros Hn Hw. pose proof (Z.div_pos n w ltac:(lia) ltac:(lia)).
  pose proof (total_positions n w Hn Hw n Hn) as Ht. cbv zeta in Ht.
  destruct (0 <? n mod w); (split; [lia|]);
    match goal with |- ?t ≤ n => destruct (decide (t ≤ n)); [done|] end;
    pose proof (proj1 Ht ltac:(lia)); nia.
Qed.

Lemma omap_shift {A} (f : Z → A) a k rs :
  Forall2 (λ j r, r = Some (f (a + j))) (zrange 0 k) rs → omap id rs = map f (zrange a (a + k)).
Proof.
  intros Hrs. transitivity (map (λ j, f (a + j)) (zrange 0 k)).
  - induction Hrs as [|j r js rs -> Hrs IH]; [done|]. cbn. by f_equal.
  - unfold zrange. rewrite Z.sub_0_r. replace (a + k - a) with k by lia.
    pose proof (fmap_add_seqZ a 0 k) as Hf. rewrite Z.add_0_r in Hf. rewrite <- Hf.
    symmetry. apply map_map.
Qed.

(** The positions that a request for [w] hashes of tile [i] gets: as many as the
    tree has, at least one. *)
Definition tile_positions (n l i w : Z) (ps : list Z) : Prop :=
  ∃ stop, ps = zrange (i * 256) stop ∧ i * 256 < stop ≤ i * 256 + w ∧
    (stop - 1) * tile_width l < n ∧ (stop = i * 256 + w ∨ n ≤ stop * tile_width l).

(** [generate_merkle_tile] in a state that keeps [I], if each hash is that of its
    position in a tree of [n] leaves. *)
Lemma generate_merkle_tile_gen (I : CtStorage → Prop) (h : Z → bytes) l i width n s :
  0 ≤ l ≤ 5 → 0 ≤ i → i * 256 + 256 < 2 ^ 64 → 1 ≤ default 256 width ≤ 256 → 0 ≤ n ≤ 2 ^ 63 → I s →
  (∀ p s', 0 ≤ p → p * tile_width l < n → I s' →
    spec (tile_hash (tile_width l) n p) s' (λ r s'', r = Some (h p) ∧ I s'')
      (λ e s'', I s'' ∧ e.1 = INTERNAL_SERVER_ERROR)) →
  spec (generate_merkle_tile l i n width) s
    (λ t s', I s' ∧ ∃ ps, tile_positions n l i (default 256 width) ps ∧ hashes t = map h ps)
    (λ e s', I s' ∧ (e.1 = INTERNAL_SERVER_ERROR ∨
       (e = (NOT_FOUND, "Tile not found") ∧ n ≤ i * 256 * tile_width l))).
Proof.
  intros Hl Hi Hb Hw Hsz Hk Hhash. unfold generate_merkle_tile. rewrite pow64_width by done.
  pose proof (tile_width_bound l Hl) as Htw. cbv zeta.
  pose proof (total_positions n (tile_width l) ltac:(lia) ltac:(lia)) as Htot. cbv zeta in Htot.
  set (total := n / tile_width l + _) in *.
  pose proof (total_bound n (tile_width l) ltac:(lia) ltac:(lia)) as Htb. fold total in Htb.
  clearbody total. rewrite (u64_small total) by lia. rewrite (u64_small (i * 256)), (u64_small (i * 256 + 256)) by lia.
  destruct (Z.leb_spec total (i * 256)) as [Hge|Hlt].
  { apply spec_fail. split; [done|]. right. split; [done|].
    destruct (decide (n ≤ i * 256 * tile_width l)); [done|].
    pose proof (proj2 (Htot (i * 256) ltac:(lia)) ltac:(lia)). lia. }
  set (k := match width with Some w => _ | None => _ end).
  assert (k = Z.min (default 256 width) (Z.min 256 (total - i * 256))) as Hkk.
  { unfold k. rewrite u64_small by lia. destruct width; cbn [default from_option id] in Hw |- *; lia. }
  assert (1 ≤ k ≤ 256) as Hkb by lia. clearbody k.
  set (ps := zrange (i * 256) (i * 256 + k)).
  apply spec_bind. eapply spec_mono.
  { eapply (spec_mapM _ _ _ (λ j r, r = Some (h (i * 256 + j))) I); [done|].
    intros j s' Hj%elem_of_zrange Hk'. rewrite u64_small by lia.
    apply Hhash; [lia|apply Htot; lia|done]. }
  2: { intros e s' [? ?]. auto. }
  intros rs s1 [Hrs Hk1].
  rewrite (omap_shift _ _ _ _ Hrs). fold ps.
  assert (length (map h ps) = Z.to_nat k) as Hlen.
  { rewrite length_map. unfold ps. rewrite length_zrange. lia. }
  destruct (map h ps) as [|h0 hs] eqn:Hps; [cbn in Hlen; lia|]. rewrite <- Hps in *.
  eapply spec_lift_ok.
  { unfold Tile_new, assert_that. rewrite Hlen, Z2Nat.id by lia. unfold u16. rewrite Z.mod_small by lia.
    zdecide. cbn. done. }
  split; [done|]. exists ps. split; [|done]. exists (i * 256 + k). split; [done|]. split; [lia|]. split.
  - apply Htot; lia.
  - destruct (decide (k = default 256 width)) as [->|Hne]; [by left|right].
    destruct (decide (n ≤ (i * 256 + k) * tile_width l)); [done|].
    pose proof (proj2 (Htot (i * 256 + k) ltac:(lia)) ltac:(lia)). lia.
Qed.

Lemma generate_merkle_tile_spec l i width P B m s :
  output_size = 32%nat → 0 ≤ l ≤ 5 → 0 ≤ i → i * 256 + 256 < 2 ^ 64 →
  1 ≤ default 256 width ≤ 256 → kept P B m s →
  spec (generate_merkle_tile l i (zlen P) width) s
    (λ t s', kept P B m s' ∧ ∃ ps, tile_positions (zlen P) l i (default 256 width) ps ∧
       hashes t = map (position_hash P l) ps)
    (λ e s', kept P B m s' ∧ (e.1 = INTERNAL_SERVER_ERROR ∨
       (e = (NOT_FOUND, "Tile not found") ∧ zlen P ≤ i * 256 * tile_width l))).
Proof.
  intros Hash Hl Hi Hb Hw Hk. pose proof Hk as [[[[Hti _] _] _ _] _].
  pose proof (ti_size _ _ _ Hti) as Hsz. rewrite length_leaves in Hsz.
  apply (generate_merkle_tile_gen (kept P B m)); [done|done|done|done|lia|done|].
  intros p s' Hp Hlt Hk'. by apply (tile_hash_spec l p P B m s').
Qed.

Lemma position_hash_complete P l p :
  (p + 1) * tile_width l ≤ zlen P →
  position_hash P l p = mth (zslice (p * tile_width l) ((p + 1) * tile_width l) (leaves P)).
Proof. intros Hp. unfold position_hash. do 2 f_equal. lia. Qed.

(** The hashes of complete positions do not change when the log grows. *)
Lemma tile_prefix_app D D' l i w :
  0 ≤ l ≤ 5 → 0 ≤ i → (i * 256 + w) * tile_width l ≤ zlen D → tile_prefix (D ++ D') l i w = tile_prefix D l i w.
Proof.
  intros Hl Hi Hw. pose proof (tile_width_bound l Hl). unfold tile_prefix. f_equal.
  apply map_ext_in. intros p Hp%list_elem_of_In%elem_of_zrange.
  rewrite zslice_app_l; [done|nia|]. transitivity ((i * 256 + w) * tile_width l); [|done]. nia.
Qed.

Lemma generate_complete l i width P B m s :
  output_size = 32%nat → 0 ≤ l ≤ 5 → 0 ≤ i → i * 256 + default 256 width ≤ 2 ^ 63 →
  1 ≤ default 256 width ≤ 256 → (i * 256 + default 256 width) * tile_width l ≤ zlen P →
  kept P B m s →
  spec (tile ← generate_merkle_tile l i (zlen P) width; mret (tile_to_bytes tile)) s
    (λ r s', kept P B m s' ∧ r = tile_prefix (leaves P) l i (default 256 width))
    (λ e s', kept P B m s' ∧ e.1 = INTERNAL_SERVER_ERROR).
Proof.
  intros Hash Hl Hi Hib Hw Hfull Hk. pose proof (tile_width_bound l Hl) as Htw. apply spec_bind.
  eapply spec_mono; [eapply generate_merkle_tile_spec; [done|done|done|lia|done|done]|..].
  - intros t s2 (Hk2 & ps & (stop & -> & Hst & Hlast & Hstop) & Hhs). apply spec_ret. split; [done|].
    assert (stop = i * 256 + default 256 width) as -> by (destruct Hstop as [?|?]; [done|nia]).
    unfold tile_to_bytes, tile_prefix. rewrite Hhs. f_equal. apply map_ext_in.
    intros p Hp%list_elem_of_In%elem_of_zrange. apply position_hash_complete.
    transitivity ((i * 256 + default 256 width) * tile_width l); [nia|done].
  - intros e s2 [Hk2 [He|[_ He]]]; [done|nia].
Qed.

Lemma get_tile_handler_spec l path i width P B m s :
  output_size = 32%nat → 0 ≤ l ≤ 5 → parse_tile_index (DbErr := SlateDBError) path = Ok i →
  0 ≤ i → 1 ≤ default 256 width ≤ 256 →
  (i * 256 + default 256 width) * tile_width l ≤ zlen P → kept P B m s →
  spec (get_tile_handler l path width) s
    (λ r s', kept P B m s' ∧ body r = tile_prefix (leaves P) l i (default 256 width))
    (λ e s', kept P B m s' ∧ e.1 = INTERNAL_SERVER_ERROR).
Proof.
  intros Hash Hl Hpath Hi Hw Hfull Hk. pose proof (tile_width_bound l Hl) as Htw.
  pose proof Hk as [[[Hinv _] _ _] _]. pose proof Hinv as [Hti _].
  pose proof (ti_size _ _ _ Hti) as Hsz. rewrite length_leaves in Hsz.
  assert (i * 256 + default 256 width ≤ 2 ^ 63) as Hib by nia.
  pose proof (λ s, generate_complete l i width P B m s Hash Hl Hi Hib Hw Hfull) as Hgen.
  unfold get_tile_handler. zdecide. unfold check_tile_request. rewrite Hpath. cbn [map_err]. rewrite bind_Ok.
  apply spec_bind. eapply (spec_lift_ok _ i).
  { destruct width as [w|]; [|done]. cbn [default from_option id] in Hw. by zdecide. }
  apply spec_bind. eapply spec_mono; [by apply committed_root_spec| |done]. intros r s1 [Hk1 ->].
  cbn [num_leaves]. apply spec_bind.
  eapply (spec_mono _ _ (λ r s', kept P B m s' ∧ r = tile_prefix (leaves P) l i (default 256 width)) _
    (λ e s', kept P B m s' ∧ e.1 = INTERNAL_SERVER_ERROR));
    [|intros r s2 [Hk2 ->]; by apply spec_ret|done].
  destruct width as [w|]; [by apply Hgen|]. apply spec_bind. eapply spec_mono.
  { eapply (on_tree_spec _ _ P B m s1 (λ r, ∀ b, r = Some b → b = tile_prefix (leaves P) l i 256) (λ _, True)); [done|].
    destruct Hk1 as [[[Hinv1 _] _ _] _]. pose proof Hinv1 as [Hti1 _]. apply spec_map_err.
    unfold get_tile. eapply spec_mono; [by apply get_spec, inv_keeps|..].
    - intros v t [-> Hkt]. split; [by eapply keeps_inv|]. split; [apply Hkt|]. intros b Hb.
      destruct (ti_tile _ _ _ Hti1 l i Hl ltac:(unfold is_u64; lia)) as [Hf Hnf]. cbn [enc] in *.
      rewrite Hf in Hb; [by injection Hb as <-|]. unfold tile_full. rewrite length_leaves.
      cbn [default from_option id] in Hfull. lia.
    - intros e t [_ Hkt]. split; [by eapply keeps_inv|]. split; [apply Hkt|done]. }
  - intros [b|] s2 [Hk2 Hb]; [|by apply Hgen]. apply spec_ret. split; [done|by apply Hb].
  - intros e s2 [Hk2 (e0 & -> & _)]. done.
Qed.

(** ** Pages *)

Definition page_entry_of (p : Processed) : PageEntry :=
  {| timestamped_entry := drop 2 (p_leaf_data p);
     issuer_hashes := default [] (map digest <$> chain (p_log_entry p)) |}.

Lemma dedup_chain {E} e d :
  from_log_entry (E := E) e = Ok d →
  chain_hashes d = map digest <$> chain e ∧ d_leaf_data d = leaf_data e.
Proof.
  unfold from_log_entry. destruct (entry_type e), (original_precert e), (issuer_key_hash e) as [h|];
    unfold assert_that; try destruct (32 <=? zlen h); cbn; try done; by intros [= <-].
Qed.

Lemma made_leaf_length i p : made i p → 2 ≤ zlen (p_leaf_data p).
Proof.
  intros [_ _ Hd _]. revert Hd. unfold serialize_merkle_tree_leaf.
  destruct (ext_leaf_index i); try done. intros [= <-]. cbn [length]. lia.
Qed.

Lemma page_step_spec page i p P B m s :
  kept P B m s → is_u64 i → P !! Z.to_nat i = Some p →
  spec (page_step page i) s
    (λ r s', kept P B m s' ∧ r = page_add_entry page (timestamped_entry (page_entry_of p))
                                   (issuer_hashes (page_entry_of p)))
    (λ e s', kept P B m s' ∧ e.1 = INTERNAL_SERVER_ERROR).
Proof.
  intros Hk Hi Hp. pose proof Hk as [[[_ Hc] _ _] Hm]. rewrite Hm in Hc.
  pose proof (ci_made _ _ Hc _ _ Hp) as Hmade.
  apply spec_bind. eapply spec_mono; [by eapply on_storage_spec, get_deduplicated_entry_spec|..].
  2: { intros e s' [Hk' (d & ->)]. done. }
  intros r s1 [Hk1 Hr]. rewrite Hp in Hr. destruct Hr as (d & -> & Hd).
  destruct (dedup_chain _ _ Hd) as [Hch Hl]. rewrite (made_leaf _ _ Hmade) in Hl.
  pose proof (made_leaf_length _ _ Hmade). apply spec_bind. unfold serialize_timestamped_entry.
  rewrite Hl. rewrite (proj2 (Z.ltb_ge _ _)) by lia. eapply spec_lift_ok; [done|].
  apply spec_ret. split; [done|]. by rewrite Hch.
Qed.

Definition add_entry_of (page : EntriesPage) (p : Processed) : EntriesPage :=
  page_add_entry page (timestamped_entry (page_entry_of p)) (issuer_hashes (page_entry_of p)).

Lemma page_of_entries first ps :
  fold_left add_entry_of ps (page_new first) = page_of first (map page_entry_of ps).
Proof. unfold page_of. generalize (page_new first). induction ps as [|p ps IH]; intros pg; [done|apply IH]. Qed.

(** [page_loop] in a state that keeps [I], if each step adds the entry of [P]. *)
Lemma page_loop_gen (I : CtStorage → Prop) P idxs page s :
  I s → Forall (λ i, 0 ≤ i < zlen P) idxs →
  (∀ i p page s', i ∈ idxs → P !! Z.to_nat i = Some p → I s' →
    spec (page_step page i) s' (λ r s'', I s'' ∧ r = add_entry_of page p)
      (λ e s'', I s'' ∧ e.1 = INTERNAL_SERVER_ERROR)) →
  spec (page_loop page idxs) s
    (λ r s', I s' ∧ r = fold_left add_entry_of (omap (λ i, P !! Z.to_nat i) idxs) page)
    (λ e s', I s' ∧ e.1 = INTERNAL_SERVER_ERROR).
Proof.
  intros Hk Hall Hstep. revert page s Hk.
  induction Hall as [|i idxs Hi Hall IH]; intros page s Hk; [by apply spec_ret|].
  cbn [page_loop omap list_omap]. destruct (lookup_lt_is_Some_2 P (Z.to_nat i)) as [p Hp]; [lia|].
  rewrite Hp. apply spec_bind. eapply spec_mono; [eapply Hstep; [by left|done|done]| |done].
  intros r s1 [Hk1 ->]. apply IH; [|done]. intros j q pg s' Hj. apply Hstep. by right.
Qed.

Lemma page_loop_spec idxs page P B m s :
  kept P B m s → Forall (λ i, 0 ≤ i < zlen P) idxs →
  spec (page_loop page idxs) s
    (λ r s', kept P B m s' ∧ r = fold_left add_entry_of (omap (λ i, P !! Z.to_nat i) idxs) page)
    (λ e s', kept P B m s' ∧ e.1 = INTERNAL_SERVER_ERROR).
Proof.
  intros Hk Hall. pose proof Hk as [[[[Hti _] _] _ _] _]. pose proof (ti_size _ _ _ Hti) as Hsz.
  rewrite length_leaves in Hsz. clear Hti. apply (page_loop_gen (kept P B m)); [done|done|].
  intros i p pg s' Hi Hp Hk'. pose proof (proj1 (Forall_forall _ _) Hall i Hi) as Hb. cbn in Hb.
  apply page_step_spec; [done|unfold is_u64; lia|done].
Qed.

Lemma get_page_spec n P B m s :
  kept P B m s → 0 ≤ n → n * 1000 + 1000 < 2 ^ 64 →
  spec (get_page n) s
    (λ r s', kept P B m s' ∧ n * 1000 < zlen P ∧
       body r = page_to_binary (page_of (n * 1000)
         (map page_entry_of (zslice (n * 1000) (Z.min (n * 1000 + 1000) (zlen P)) P))) ∧
       (("cache-control", "public, max-age=31536000, immutable") ∈ headers r →
        n * 1000 + 1000 ≤ zlen P))
    (answers P B m (λ e, e.1 = NOT_FOUND ∧ zlen P ≤ n * 1000)).
Proof.
  intros Hk Hn Hb. unfold get_page, PAGE_SIZE. rewrite (u64_small (n * 1000)), u64_small by lia.
  pose proof Hk as [[[Hinv _] _ _] _]. apply spec_bind. eapply spec_mono.
  { eapply (on_tree_spec _ _ P B m s (λ k, k = zlen P) (λ _, True)); [done|].
    eapply spec_mono; [by eapply size_spec|..]; [|intros e t (? & ? & _); done].
    intros k t (-> & ? & ?). by rewrite length_leaves. }
  2: { intros e s' [Hk' (e0 & -> & _)]. split; [done|by right]. }
  intros k s1 [Hk1 ->]. destruct (Z.leb_spec (zlen P) (n * 1000)).
  { apply spec_fail. split; [done|by left]. }
  apply spec_bind. eapply spec_mono; [apply page_loop_spec; [done|]|..].
  - apply Forall_forall. intros i Hi%elem_of_zrange. lia.
  - intros r s2 [Hk2 ->]. apply spec_ret. split; [done|]. split; [done|]. split.
    + cbn [body]. by rewrite omap_zrange, page_of_entries by lia.
    + cbn [headers]. intros Hin. destruct (Z.eqb_spec (Z.min (n * 1000 + 1000) (zlen P)) (n * 1000 + 1000));
        [lia|]. cbn [andb] in Hin. set_solver.
  - intros e s2 [Hk2 He]. split; [done|by right].
Qed.

(** ** Properties *)

(** [get-sth] serves the tree head of the whole log: its size, its RFC 6962
    root, the current time, and the signature of exactly these. *)
Theorem get_sth_correct (state : ApiState) now s P B :
  storage_inv s P B →
  spec (get_sth state now) s
    (λ r s', kept P B (view (ct_tree s)) s' ∧ r = sth_of state now P)
    (λ e s', kept P B (view (ct_tree s)) s' ∧ e.1 = INTERNAL_SERVER_ERROR).
Proof. intros Hs. by apply get_sth_spec. Qed.

(** C31: [get-proof-by-hash] answers with the index of a leaf that has the hash
    asked for and its RFC 6962 audit path in the tree of the size asked for,
    which verifies against the root of that size; the refusals are exactly those
    listed, with their status. *)
Theorem get_proof_by_hash_correct hs v s P B :
  output_size = 32%nat → storage_inv s P B → is_u64 v →
  spec (get_proof_by_hash hs v) s
    (λ r s', kept P B (view (ct_tree s)) s' ∧ audit_ok P B v r.1 r.2 ∧
       ∃ p, P !! Z.to_nat r.1 = Some p ∧ b64_decode hs = Ok (leaf_digest p))
    (answers P B (view (ct_tree s)) (λ e,
       (e.1 = BAD_REQUEST ∧ ((∃ msg, b64_decode hs = Err msg) ∨ zlen P < v ∨ (v ∉ B))) ∨
       (e = (NOT_FOUND, "Leaf not found") ∧ ∀ p, p ∈ P → b64_decode hs ≠ Ok (leaf_digest p)) ∨
       (e = (NOT_FOUND, "Leaf not found in requested tree size") ∧
        ∃ i p, P !! Z.to_nat i = Some p ∧ b64_decode hs = Ok (leaf_digest p) ∧ v ≤ i) ∨
       (∃ d, e = proof_status (inclusion_err v (DbError d))))).
Proof. intros Hash Hs Hv. by apply get_proof_by_hash_spec. Qed.

(** [get-entries] serves the entries from [start] to [end], at most a
    thousand and not beyond the log, in order: for each the very leaf that is
    hashed into the tree, and its chain.  (A request for the whole range of
    [u64] is excluded: there the count wraps around.) *)
Theorem get_entries_correct start end_ s P B :
  storage_inv s P B → collision_free (all_certs P) → Forall (λ p, entry_wf (p_log_entry p)) P →
  0 ≤ start ≤ end_ → end_ < 2 ^ 64 → end_ - start < 2 ^ 64 - 1 →
  spec (get_entries start end_) s
    (λ r s', kept P B (view (ct_tree s)) s' ∧
       Forall2 served (zslice start (Z.min end_ (start + 999) + 1) P) r)
    (λ e s', kept P B (view (ct_tree s)) s' ∧ e.1 = INTERNAL_SERVER_ERROR).
Proof. intros. by apply get_entries_spec. Qed.

(** [get-entry-and-proof] serves an entry with its audit path in the tree
    of the size asked for, or of the whole log. *)
Theorem get_entry_and_proof_correct i v s P B :
  output_size = 32%nat → storage_inv s P B → collision_free (all_certs P) →
  Forall (λ p, entry_wf (p_log_entry p)) P → is_u64 i → (∀ n, v = Some n → is_u64 n) →
  spec (get_entry_and_proof i v) s
    (λ r s', kept P B (view (ct_tree s)) s' ∧ audit_ok P B (default (zlen P) v) i r.2 ∧
       ∃ p, P !! Z.to_nat i = Some p ∧ served p r.1)
    (answers P B (view (ct_tree s)) (λ e,
       (e.1 = BAD_REQUEST ∧ (default (zlen P) v ≤ i ∨ zlen P < default (zlen P) v ∨
                             (default (zlen P) v ∉ B))) ∨
       (e = (NOT_FOUND, "Log entry not found") ∧ zlen P ≤ i) ∨
       (∃ d, e = proof_status (inclusion_err (default (zlen P) v) (DbError d))))).
Proof. intros Hash Hs Hcf Hwf Hi Hv. by apply get_entry_and_proof_spec. Qed.

(** A tile request whose positions are all complete is answered with the
    hashes of these positions, whether the tile was precomputed or is generated,
    and they are the same however much the log grows, as the cache lifetime
    claims. *)
Theorem get_tile_immutable l path i width s P B :
  output_size = 32%nat → 0 ≤ l ≤ 5 → parse_tile_index (DbErr := SlateDBError) path = Ok i →
  0 ≤ i → 1 ≤ default 256 width ≤ 256 →
  (i * 256 + default 256 width) * tile_width l ≤ zlen P → storage_inv s P B →
  spec (get_tile_handler l path width) s
    (λ r s', kept P B (view (ct_tree s)) s' ∧
       ∀ P', body r = tile_prefix (leaves (P ++ P')) l i (default 256 width))
    (λ e s', kept P B (view (ct_tree s)) s' ∧ e.1 = INTERNAL_SERVER_ERROR).
Proof.
  intros Hash Hl Hp Hi Hw Hfull Hs.
  eapply spec_mono; [by eapply (get_tile_handler_spec l path i width P B)| |done].
  intros r s' [Hk ->]. split; [done|]. intros P'. rewrite leaves_app. symmetry.
  apply tile_prefix_app; [done|done|by rewrite length_leaves].
Qed.

(** [get_page] serves the entries of a page in order, each with its leaf
    and the hashes of its chain, and calls a page immutable only if it is
    complete. *)
Theorem get_page_correct n s P B :
  storage_inv s P B → 0 ≤ n → n * 1000 + 1000 < 2 ^ 64 →
  spec (get_page n) s
    (λ r s', kept P B (view (ct_tree s)) s' ∧ n * 1000 < zlen P ∧
       body r = page_to_binary (page_of (n * 1000)
         (map page_entry_of (zslice (n * 1000) (Z.min (n * 1000 + 1000) (zlen P)) P))) ∧
       (("cache-control", "public, max-age=31536000, immutable") ∈ headers r →
        n * 1000 + 1000 ≤ zlen P))
    (answers P B (view (ct_tree s)) (λ e, e.1 = NOT_FOUND ∧ zlen P ≤ n * 1000)).
Proof. intros Hs Hn Hb. by apply get_page_spec. Qed.

End Reads.

(** The [extra_data] of an entry can be read back: the precertificate, for
    a precertificate entry, and the chain, as long as they fit their three-byte
    lengths. *)
Theorem extra_data_roundtrip e :
  zlen (chain_bytes (default [] (chain e))) < 2 ^ 24 →
  (∀ pc, original_precert e = Some pc → zlen pc < 2 ^ 24) →
  match build_extra_data e with
  | Ok b => parse_extra_data (entry_type e) b =
      Some (match entry_type e with X509Entry => None | PrecertEntry => original_precert e end,
            default [] (chain e))
  | Err _ => entry_type e = PrecertEntry ∧ original_precert e = None
  | _ => False
  end.
Proof.
  intros Hch Hpc. unfold build_extra_data. destruct (entry_type e); cbn [parse_extra_data].
  - by rewrite chain_data_ok.
  - destruct (original_precert e) as [pc|]; [|done]. rewrite parse_vec3_ok by auto. cbn.
    by rewrite chain_data_ok.
Qed.

(** ** Bytes *)

Lemma bytes_ok_app a b : bytes_ok (a ++ b) ↔ bytes_ok a ∧ bytes_ok b.
Proof. apply Forall_app. Qed.

Lemma bytes_ok_concat ls : Forall bytes_ok ls → bytes_ok (concat ls).
Proof. induction 1; [constructor|]. cbn. by apply bytes_ok_app. Qed.

Lemma len3_bytes l : bytes_ok (len3 l).
Proof. repeat constructor; apply u8_range. Qed.

Lemma entry_bytes_ok cert t ikh :
  bytes_ok cert → (∀ h, ikh = Some h → bytes_ok h) → bytes_ok (entry_bytes cert t ikh).
Proof.
  intros Hc Hi. pose proof (len3_bytes cert). unfold entry_bytes. destruct t.
  - repeat (apply bytes_ok_app; split); try done. by repeat constructor.
  - repeat (apply bytes_ok_app; split); try done; [by repeat constructor|].
    destruct ikh; [by apply Hi|]. apply Forall_replicate. lia.
Qed.

Lemma serialize_leaf_bytes {E} cert t ikh ts i b :
  serialize_merkle_tree_leaf (E := E) cert t ikh ts i = Ok b → bytes_ok cert →
  (∀ h, ikh = Some h → bytes_ok h) → bytes_ok b.
Proof.
  intros Hs Hc Hi. pose proof (entry_bytes_ok cert t ikh Hc Hi) as He.
  assert (bytes_ok ([0] ++ [0] ++ be_bytes 8 (u64 ts) ++ entry_bytes cert t ikh)) as Hd.
  { repeat (apply bytes_ok_app; split); try done; [by repeat constructor..|apply be_bytes_ok]. }
  assert (∀ x y : bytes, Ok (E := E) x = Ok y → x = y) as Hinj by congruence.
  unfold serialize_merkle_tree_leaf in Hs. destruct i as [i|].
  - destruct (ext_leaf_index i) as [x| | |] eqn:Hx; try done. apply Hinj in Hs as <-.
    apply bytes_ok_app. split; [done|]. apply bytes_ok_app. split; [apply be_bytes_ok|].
    unfold ext_leaf_index in Hx. apply bind_Ok_inv in Hx as (j & _ & [= <-]). unfold ext_encode. cbn [extension_type extension_data].
    repeat (apply bytes_ok_app; split); [by repeat constructor|apply be_bytes_ok|].
    rewrite leaf_index_as_bytes_be. apply be_bytes_ok.
  - apply Hinj in Hs as <-. apply bytes_ok_app. split; [done|by repeat constructor].
Qed.

Lemma chain_data_bytes e : Forall bytes_ok (default [] (chain e)) → bytes_ok (chain_data e).
Proof.
  intros Hc. unfold chain_data, chain_vector. destruct (chain e) as [l|]; [|by repeat constructor].
  apply bytes_ok_app. split; [repeat constructor; apply u8_range|]. apply bytes_ok_concat, Forall_map.
  eapply Forall_impl; [exact Hc|]. intros c Hcc. apply bytes_ok_app. split; [apply len3_bytes|done].
Qed.

(** The certificates of an entry are byte strings. *)
Definition entry_bytes_typed (e : LogEntry) : Prop :=
  bytes_ok (certificate e) ∧ Forall bytes_ok (default [] (chain e)) ∧
  (∀ h, issuer_key_hash e = Some h → bytes_ok h) ∧ (∀ p, original_precert e = Some p → bytes_ok p).

