(* ===== verification/SharedApi.v ===== *)
(** * Requests served while others append

    The read endpoints beside the batch worker, in the setting of [Shared]:
    tree heads, proofs and entries that are served while batches become visible
    between the reads of a request. *)

From S2P Require Import Prelude TreeMath Rfc6962 Inclusion Consistency KvStore TreeStore TreeInv.
From S2P Require Import TreeReads TreePush TreeTiles TreeBatch Types TreeHead Tiles MerkleStorage.
From S2P Require Import CtStorage CtInv CtFlush CtReads Api ApiReads Shared.

Section SharedApi.
  Context `{SlateDb} `{!DebugDb} `{!DisplayDb} `{!Cache (Z * Z) bytes} `{!Cache (Z * Z) bool}.
  Context `{!Cache bytes bytes} `{!Cache Z LogEntry}.
  Context `{Digest} `{!Postcard bytes} `{!PostcardLaws bytes}.
  Context `{!Postcard DeduplicatedLogEntry} `{!PostcardLaws DeduplicatedLogEntry}.
  Context `{!Postcard CertificateSctEntry} `{!PostcardLaws CertificateSctEntry}.
  Context `{TbsExtractor} `{Signer} `{Base64} `{!Base64Laws}.
  Context (P : list Processed) (B : gset Z).
  Abbreviation CErr := (CtError SlateDBError).
  Abbreviation SErr := (StorageError SlateDBError).

(** ** What is shared *)

(** The store when the first [n] entries of [P] are logged. *)
Definition log_snapshot (n : Z) (m : gmap bytes bytes) : Prop :=
  snapshot (leaves P) B n m ∧ ct_inv m (take (Z.to_nat n) P).

Definition chain_right (h cert : bytes) : Prop := digest cert = h ∧ cert ∈ all_certs P.
Definition entry_right (i : Z) (e : LogEntry) : Prop :=
  0 ≤ i ∧ ∃ p, P !! Z.to_nat i = Some p ∧ e = p_log_entry p.

Context `{!SharedDbLaws log_snapshot} `{!SharedCacheLaws (Z * Z) bytes (node_right (leaves P) B)}.
Context `{!SharedCacheLaws bytes bytes chain_right} `{!SharedCacheLaws Z LogEntry entry_right}.

Lemma log_snapshot_tree n m : log_snapshot n m → snapshot (leaves P) B n m.
Proof. by intros [? _]. Qed.

(** At least the first [n] entries are logged, and the caches are right. *)
Definition ct_since (n : Z) (s : CtStorage) : Prop :=
  since (leaves P) B log_snapshot n (ct_tree s) ∧ cache_at (chain_cache s) ∧ cache_at (entry_cache s).

Lemma ct_since_mono n n' s : n ≤ n' → ct_since n' s → ct_since n s.
Proof. intros Hn [Ht ?]. split; [by eapply since_mono|done]. Qed.

(** The handlers fail with a status of their own or because of the database. *)
Definition shared_answer (n : Z) (refusal : ApiError → Prop) (e : ApiError) (s : CtStorage) : Prop :=
  ct_since n s ∧ (refusal e ∨ e.1 = INTERNAL_SERVER_ERROR).
Definition db_answer (n : Z) (e : ApiError) (s : CtStorage) : Prop :=
  ct_since n s ∧ e.1 = INTERNAL_SERVER_ERROR.
Definition shared_read_failure (n : Z) (e : SErr) (s : CtStorage) : Prop :=
  (∃ d, e = SlateDbErr d) ∧ ct_since n s.

Lemma on_tree_shared {A} (f : CErr → ApiError) (c : stM SlateDbBackedTree CErr A) n s
    (Q : A → Z → Prop) (R : CErr → Prop) :
  ct_since n s →
  spec c (ct_tree s) (λ a t, ∃ n', n ≤ n' ∧ Q a n' ∧ since (leaves P) B log_snapshot n' t)
    (λ e t, R e ∧ since (leaves P) B log_snapshot n t) →
  spec (on_tree f c) s (λ a s', ∃ n', n ≤ n' ∧ Q a n' ∧ ct_since n' s')
    (λ e s', (∃ e0, e = f e0 ∧ R e0) ∧ ct_since n s').
Proof.
  intros [_ Hc]. unfold spec, on_tree. destruct (c (ct_tree s)) as [r t].
  destruct r; cbn [map_err]; try done.
  - intros (n' & Hn & Hq & Ht). exists n'. done.
  - intros [Hr Ht]. split; [by eexists|done].
Qed.

Lemma on_storage_shared {A} (f : SErr → ApiError) (c : stM CtStorage SErr A) n s (Q : A → CtStorage → Prop) :
  (∀ e, (f e).1 = INTERNAL_SERVER_ERROR) →
  spec c s Q (shared_read_failure n) → spec (on_storage f c) s Q (db_answer n).
Proof.
  intros Hf Hc. apply spec_map_err. eapply spec_mono; [done|done|]. intros e s' [_ Hs]. by split.
Qed.

Lemma length_leaves_upto n : 0 ≤ n ≤ zlen P → zlen (upto (leaves P) n) = n.
Proof. intros. apply length_upto. by rewrite length_leaves. Qed.

(** ** Tree heads *)

(** A size that the log published. *)
Definition published (v : Z) : Prop := (v = 0 ∨ v ∈ B) ∧ v ≤ 2 ^ 63.

Lemma shared_committed_root_spec n s :
  0 ≤ n → ct_since n s →
  spec (on_tree internal_ct committed_root) s
    (λ r s', ∃ v, n ≤ v ≤ zlen P ∧ published v ∧ r = RootHash_new (mth (zslice 0 v (leaves P))) v ∧ ct_since v s')
    (db_answer n).
Proof.
  intros Hn Hs. eapply spec_mono.
  { eapply (on_tree_shared _ _ n s (λ r v, v ≤ zlen P ∧ published v ∧ r = RootHash_new (mth (zslice 0 v (leaves P))) v) (λ _, True)); [done|].
    unfold committed_root, committed_size. apply spec_bind, spec_map_err.
    eapply spec_mono; [apply (shared_committed_size_spec _ _ _ log_snapshot_tree n), (proj1 Hs)|..].
    - intros v t1 (Hv & HvB & Hv63 & Ht1). apply spec_map_err. rewrite length_leaves in Hv.
      eapply spec_mono; [apply (shared_root_spec _ _ _ log_snapshot_tree v v); [unfold is_u64; lia|lia|done]|..].
      + intros r t2 (-> & _ & _ & Ht2). exists v. rewrite Z.max_id in Ht2. split; [lia|].
        split; [|done]. split; [lia|done].
      + intros e t2 (n' & Hn' & Ht2 & _). split; [done|]. eapply since_mono; [|done]. lia.
    - intros e t1 [_ Ht1]. done. }
  - intros r s' (v & Hn' & (Hv & Hp & ->) & Hs'). exists v. done.
  - intros e s' [(e0 & -> & _) Hs']. done.
Qed.

Lemma shared_sth_spec (state : ApiState) now n s :
  0 ≤ n → ct_since n s →
  spec (get_sth state now) s
    (λ r s', ∃ v, n ≤ v ≤ zlen P ∧ published v ∧ r = sth_of state now (take (Z.to_nat v) P) ∧ ct_since v s')
    (db_answer n).
Proof.
  intros Hn Hs. apply spec_bind. eapply spec_mono; [by apply shared_committed_root_spec| |done].
  intros r s1 (v & Hv & Hp & -> & Hs1). apply spec_ret. exists v. split; [done|]. split; [done|]. split; [|done].
  unfold sth_of. cbn [num_leaves root_hash]. rewrite length_take.
  replace (Z.of_nat (Z.to_nat v `min` length P)) with v by lia.
  unfold zslice, leaves. rewrite drop_0, Z.sub_0_r, !firstn_map. done.
Qed.

(** ** Proofs *)

Lemma size_shared n t :
  since (leaves P) B log_snapshot n t →
  spec size t (λ r t', n ≤ r ≤ zlen P ∧ published r ∧ since (leaves P) B log_snapshot r t')
    (λ e t', (∃ d, e = tree_err "Failed to get tree size" (DbError d)) ∧ since (leaves P) B log_snapshot n t').
Proof.
  intros Ht. apply spec_map_err. eapply spec_mono; [by apply (shared_len_spec _ _ _ log_snapshot_tree n)|..].
  - intros r t1 (Hr & HB & H63 & Ht1). rewrite length_leaves in Hr. done.
  - intros e t1 [[d ->] ?]. split; [by eexists|done].
Qed.

(** The proof of consistency that is served verifies. *)
Definition consistency_ok (v w : Z) (path : list string) : Prop :=
  ∃ pf, path = consistency_proof_to_path pf ∧
    cverify pf (RootHash_new (mth (zslice 0 v (leaves P))) v) (RootHash_new (mth (zslice 0 w (leaves P))) w) = Ok tt.

Lemma consistency_between_shared v w n t :
  is_u64 v → is_u64 w → since (leaves P) B log_snapshot n t →
  spec (consistency_proof_between_sizes v w) t
    (λ pf t', ∃ n', n ≤ n' ∧
       ((v = w ∧ pf = consistency_from_digests []) ∨ (v ∈ B ∧ w ∈ B ∧ 0 < v < w ∧ w ≤ zlen P ∧
         cverify pf (RootHash_new (mth (zslice 0 v (leaves P))) v) (RootHash_new (mth (zslice 0 w (leaves P))) w) = Ok tt)) ∧
       since (leaves P) B log_snapshot n' t')
    (λ e t', (((w < v ∨ v = 0 ∨ n < w ∨ (v ∉ B) ∨ (w ∉ B)) ∧ (∃ msg, e = BadRequest msg)) ∨
         (∃ d, e = consistency_err (DbError d)) ∨ ∃ d, e = tree_err "Failed to get tree size" (DbError d)) ∧
       since (leaves P) B log_snapshot n t').
Proof.
  intros Hv Hw Ht. unfold consistency_proof_between_sizes, is_u64 in *.
  destruct (Z.ltb_spec w v).
  { apply spec_fail. split; [|done]. left. split; [by left|by eexists]. }
  destruct (Z.eqb_spec v w) as [<-|].
  { apply spec_ret. exists n. split; [lia|]. split; [by left|done]. }
  destruct (Z.eqb_spec v 0) as [->|].
  { apply spec_fail. split; [|done]. left. split; [by right; left|by eexists]. }
  apply spec_bind. eapply spec_mono; [by apply (size_shared n)|..].
  2: { intros e t1 [He ?]. auto. }
  intros c t1 (Hc & _ & Ht1). destruct (Z.ltb_spec c v).
  { apply spec_fail. split; [|by eapply since_mono; [|done]; lia]. left. split; [right; right; left; lia|by eexists]. }
  destruct (Z.ltb_spec c w).
  { apply spec_fail. split; [|by eapply since_mono; [|done]; lia]. left. split; [right; right; left; lia|by eexists]. }
  apply spec_map_err. eapply spec_mono;
    [apply (shared_consistency_spec _ _ _ log_snapshot_tree v w c); [unfold is_u64; lia|unfold is_u64; lia|lia|done|done]|..].
  - intros pf t2 (HvB & HwB & Hle & Hver & Ht2). rewrite length_leaves in Hle. exists c. split; [lia|].
    split; [right; split_and!; done || lia|]. eapply since_mono; [|done]. lia.
  - intros e t2 (n' & Hn' & Ht2 & He). split; [|by eapply since_mono; [|done]; lia].
    destruct He as [[d ->]|[[? _]|[[HB ->]|[HB ->]]]]; [right; left; by eexists|lia|..];
      left; unfold consistency_err; rewrite not_boundary_contains; split; auto; by eexists.
Qed.

Lemma shared_consistency_api v w n s :
  is_u64 v → is_u64 w → ct_since n s →
  spec (get_sth_consistency v w) s
    (λ r s', ct_since n s' ∧ ((v = w ∧ r = consistency_proof_to_path (consistency_from_digests [])) ∨
       (v ∈ B ∧ w ∈ B ∧ 0 < v < w ∧ w ≤ zlen P ∧ consistency_ok v w r)))
    (shared_answer n (λ e, (e.1 = BAD_REQUEST ∧ (w < v ∨ v = 0 ∨ n < w ∨ (v ∉ B) ∨ (w ∉ B))) ∨
       ∃ d, e = proof_status (consistency_err (DbError d)))).
Proof.
  intros Hv Hw Hs. unfold get_sth_consistency. apply spec_bind. eapply spec_mono.
  { eapply (on_tree_shared proof_status _ n s (λ pf _, _)); [done|].
    apply (consistency_between_shared v w n); [done|done|apply Hs]. }
  - cbv beta. intros pf s1 (n' & Hn' & Hpf & Hs1). apply spec_ret. split; [by eapply ct_since_mono|].
    destruct Hpf as [[-> ->]|(? & ? & ? & ? & ?)]; [by left|right]. split_and!; try done; try lia. by exists pf.
  - intros e s1 [(e0 & -> & He) Hs1]. split; [done|]. destruct He as [[Hc [msg ->]]|[[d ->]|[d ->]]].
    + left. left. by split.
    + left. right. by exists d.
    + by right.
Qed.

Lemma inclusion_shared v i n t :
  is_u64 v → is_u64 i → since (leaves P) B log_snapshot n t →
  spec (prove_inclusion_efficient v i) t
    (λ pf t', ∃ n', n ≤ n' ∧ (v ∈ B ∧ size_ok v ∧ i < v ≤ zlen P ∧ pf = from_digests (path i (zslice 0 v (leaves P)))) ∧
       since (leaves P) B log_snapshot n' t')
    (λ e t', (((v ≤ i ∨ n < v ∨ (v ∉ B)) ∧ (∃ msg, e = BadRequest msg)) ∨
         (∃ d, e = inclusion_err v (DbError d)) ∨ ∃ d, e = tree_err "Failed to get tree size" (DbError d)) ∧
       since (leaves P) B log_snapshot n t').
Proof.
  intros Hv Hi Ht. unfold prove_inclusion_efficient. destruct (Z.leb_spec v i).
  { apply spec_fail. split; [|done]. left. split; [by left|by eexists]. }
  apply spec_bind. eapply spec_mono; [by apply (size_shared n)|..].
  2: { intros e t1 [He ?]. auto. }
  intros c t1 (Hc & _ & Ht1). destruct (Z.ltb_spec c v).
  { apply spec_fail. split; [|by eapply since_mono; [|done]; lia]. left. split; [right; left; lia|by eexists]. }
  apply spec_map_err. eapply spec_mono; [by apply (shared_inclusion_spec _ _ _ log_snapshot_tree i v c)|..].
  - intros pf t2 (HB & Hok & Hlt & -> & _ & Ht2). rewrite length_leaves in Hlt. exists c. split; [lia|].
    split; [done|]. eapply since_mono; [|done]. lia.
  - intros e t2 (n' & Hn' & Ht2 & He). split; [|by eapply since_mono; [|done]; lia].
    destruct He as [[d ->]|[[? _]|[[? _]|[HB ->]]]]; [right; left; by eexists|lia|lia|].
    left. unfold inclusion_err. rewrite not_boundary_contains. split; auto. by eexists.
Qed.

Lemma shared_audit_spec {A} (g : list string → A) v i n s :
  output_size = 32%nat → is_u64 v → is_u64 i → ct_since n s →
  spec (pf ← on_tree proof_status (prove_inclusion_efficient v i);
        mret (g (inclusion_proof_to_audit_path pf))) s
    (λ r s', ct_since n s' ∧ ∃ audit, r = g audit ∧ audit_ok P B v i audit)
    (shared_answer n (λ e, (e.1 = BAD_REQUEST ∧ (v ≤ i ∨ n < v ∨ (v ∉ B))) ∨
       ∃ d, e = proof_status (inclusion_err v (DbError d)))).
Proof.
  intros Hash Hv Hi Hs. apply spec_bind. eapply spec_mono.
  { eapply (on_tree_shared proof_status _ n s (λ pf _, _)); [done|].
    apply (inclusion_shared v i n); [done|done|apply Hs]. }
  - cbv beta. intros pf s1 (n' & Hn' & (HB & Hok & Hle & ->) & Hs1). unfold is_u64 in *.
    apply spec_ret. split; [by eapply ct_since_mono|]. eexists. split; [done|].
    split; [done|]. split; [lia|]. split; [lia|]. split.
    + apply audit_path_of; [done|]. apply path_lengths; [done|by rewrite length_leaves; lia|lia].
    + intros p Hp. apply verify_path; [done|rewrite length_leaves; lia|lia|by apply leaves_lookup].
  - intros e s1 [(e0 & -> & He) Hs1]. split; [done|]. destruct He as [[Hc [msg ->]]|[[d ->]|[d ->]]].
    + left. left. by split.
    + left. right. by exists d.
    + by right.
Qed.

(** ** Lookups by key *)

Lemma shared_ct_get_spec n k s :
  ct_since n s →
  spec (ct_get k) s (λ v s', ∃ n' m, n ≤ n' ∧ log_snapshot n' m ∧ v = m !! k ∧ ct_since n' s')
    (shared_read_failure n).
Proof.
  intros [Ht Hc]. pose proof (shared_get_spec (leaves P) B log_snapshot n k (ct_tree s) Ht) as Hg.
  unfold spec, get, on_db, ct_get in *. destruct (rl_get k (tree_db (ct_tree s))) as [[v|e| |] d];
    cbn [map_err] in *; try done.
  - destruct Hg as (n' & m & ? & ? & ? & ?). exists n', m. done.
  - destruct Hg as [_ ?]. split; [by eexists|done].
Qed.

Lemma snapshot_lookup n m i p :
  log_snapshot n m → take (Z.to_nat n) P !! i = Some p →
  P !! i = Some p ∧ Z.of_nat i < n ∧ n ≤ zlen P ∧ n ≤ 2 ^ 63 ∧ p ∈ P.
Proof.
  intros [[Hr Hti] _] Hp. rewrite length_leaves in Hr. apply lookup_take_Some in Hp as [Hp Hlt].
  pose proof (ti_size _ _ _ Hti) as Hsz. rewrite length_leaves_upto in Hsz by done.
  split; [done|]. split; [lia|]. split; [lia|]. split; [done|]. by eapply list_elem_of_lookup_2.
Qed.

Lemma snapshot_old n m i p :
  log_snapshot n m → P !! i = Some p → Z.of_nat i < n → take (Z.to_nat n) P !! i = Some p.
Proof. intros _ Hp Hlt. apply lookup_take_Some. split; [done|lia]. Qed.

(** An index that is found is that of an entry with the hash; an entry logged
    before the request is found. *)
Lemma shared_find_index_spec h n s :
  ct_since n s →
  spec (find_index_by_hash h) s
    (λ r s', ct_since n s' ∧
       match r with
       | Some i => ∃ p, 0 ≤ i < zlen P ∧ i < 2 ^ 63 ∧ P !! Z.to_nat i = Some p ∧ leaf_digest p = h
       | None => ∀ i p, P !! i = Some p → Z.of_nat i < n → leaf_digest p ≠ h
       end) (shared_read_failure n).
Proof.
  intros Hs. apply spec_bind. eapply spec_mono; [by apply shared_ct_get_spec| |done].
  intros v s1 (n1 & m & Hn1 & Hm & -> & Hs1). apply (ct_since_mono n) in Hs1; [|done].
  pose proof Hm as [_ Hc]. change (hash_key h) with (senc (SHash h)).
  destruct (m !! senc (SHash h)) as [b|] eqn:Hb.
  - destruct (ci_hash _ _ Hc h b Hb) as (i & p & Hp & -> & Hh).
    destruct (snapshot_lookup _ _ _ _ Hm Hp) as (Hp' & Hi & ? & ? & _).
    apply spec_bind. eapply spec_lift_ok; [apply u64_from_be; lia|]. apply spec_ret. split; [done|].
    exists p. rewrite Nat2Z.id. split; [lia|]. split; [lia|]. done.
  - apply spec_ret. split; [done|]. intros i p Hp Hi Hh.
    pose proof (ci_hashed _ _ Hc i p (snapshot_old _ _ _ _ Hm Hp ltac:(lia))) as Hsome.
    rewrite Hh, Hb in Hsome. by destruct Hsome.
Qed.

Lemma all_certs_upto n c : c ∈ all_certs (take (Z.to_nat n) P) → c ∈ all_certs P.
Proof.
  intros (j & p & Hp & Hc)%elem_of_all_certs. apply lookup_take_Some in Hp as [Hp _].
  apply elem_of_all_certs. eauto.
Qed.

(** A certificate of an entry logged before the request is found. *)
Lemma shared_get_certificate_spec h n s :
  ct_since n s →
  spec (get_certificate h) s
    (λ r s', ct_since n s' ∧
       match r with
       | Some c => digest c = h ∧ c ∈ all_certs P
       | None => ∀ c, c ∈ all_certs (take (Z.to_nat n) P) → digest c ≠ h
       end) (shared_read_failure n).
Proof.
  intros Hs. eapply spec_mono; [by apply shared_ct_get_spec| |done].
  intros v s1 (n1 & m & Hn1 & Hm & -> & Hs1). apply (ct_since_mono n) in Hs1; [|done].
  split; [done|]. pose proof Hm as [_ Hc].
  change (cert_key h) with (senc (SCert h)). destruct (m !! senc (SCert h)) as [c|] eqn:Hb.
  - destruct (ci_cert _ _ Hc h c Hb) as (? & Hex). split; [done|].
    apply (all_certs_upto n1). by apply elem_of_all_certs.
  - intros c (j & p & Hp & Hcp)%elem_of_all_certs Hh. apply lookup_take_Some in Hp as [Hp Hj].
    pose proof (ci_certs _ _ Hc j p c (snapshot_old _ _ _ _ Hm Hp ltac:(lia)) Hcp) as Hsome.
    rewrite Hh, Hb in Hsome. by destruct Hsome.
Qed.

Lemma shared_chain_cache_get_spec k n s :
  ct_since n s →
  spec (E := SErr) (chain_cache_get k) s
    (λ r s', (∀ c, r = Some c → chain_right k c) ∧ ct_since n s') (shared_read_failure n).
Proof.
  intros (Ht & Hch & He). unfold spec, chain_cache_get.
  pose proof (shared_cache_get_law k (chain_cache s) Hch) as [Hch' Hget].
  destruct (cache_get k (chain_cache s)) as [r c]. cbn [fst snd] in *. split; [|done].
  intros cert ->. exact Hget.
Qed.

Lemma shared_entry_cache_get_spec i n s :
  ct_since n s →
  spec (E := SErr) (entry_cache_get i) s
    (λ r s', (∀ e, r = Some e → entry_right i e) ∧ ct_since n s') (shared_read_failure n).
Proof.
  intros (Ht & Hch & He). unfold spec, entry_cache_get.
  pose proof (shared_cache_get_law i (entry_cache s) He) as [He' Hget].
  destruct (cache_get i (entry_cache s)) as [r c]. cbn [fst snd] in *. split; [|done].
  intros e ->. exact Hget.
Qed.

Lemma shared_chain_cache_insert_spec k c n s :
  chain_right k c → ct_since n s →
  spec (E := SErr) (chain_cache_insert k c) s (λ _ s', ct_since n s') (shared_read_failure n).
Proof.
  intros Hr (Ht & Hch & He). apply spec_modify. split; [done|]. split; [|done].
  by apply shared_cache_insert_law.
Qed.

Lemma shared_entry_cache_insert_spec i e n s :
  entry_right i e → ct_since n s →
  spec (E := SErr) (entry_cache_insert i e) s (λ _ s', ct_since n s') (shared_read_failure n).
Proof.
  intros Hr (Ht & Hch & He). apply spec_modify. split; [done|]. split; [done|].
  by apply shared_cache_insert_law.
Qed.

Lemma shared_chain_certificate_spec c n s :
  c ∈ all_certs (take (Z.to_nat n) P) → ct_since n s →
  spec (get_chain_certificate (digest c)) s
    (λ r s', ct_since n s' ∧ ∃ c', r = Some c' ∧ chain_right (digest c) c') (shared_read_failure n).
Proof.
  intros Hc Hs. apply spec_bind. eapply spec_mono; [by apply shared_chain_cache_get_spec| |done].
  intros [c'|] s1 [Hc' Hs1].
  { apply spec_ret. split; [done|]. exists c'. auto. }
  apply spec_bind. eapply spec_mono; [by apply shared_get_certificate_spec| |done].
  intros [c'|] s2 [Hs2 Hv]; [|by destruct (Hv c Hc)].
  apply spec_bind. eapply spec_mono; [by apply shared_chain_cache_insert_spec| |done].
  intros [] s3 Hs3. apply spec_ret. split; [done|]. eauto.
Qed.

(** The deduplicated record of an entry: there for the entries logged before the
    request, perhaps for later ones. *)
Lemma shared_deduplicated_spec i n s :
  is_u64 i → ct_since n s →
  spec (get_deduplicated_entry i) s
    (λ r s',
       match r with
       | Some d => ∃ p, P !! Z.to_nat i = Some p ∧ from_log_entry (E := Empty_set) (p_log_entry p) = Ok d ∧
           ct_since (Z.max n (i + 1)) s'
       | None => n ≤ i ∧ ct_since n s'
       end) (shared_read_failure n).
Proof.
  intros Hi Hs. apply spec_bind. eapply spec_mono; [by apply shared_ct_get_spec| |done].
  intros v s1 (n1 & m & Hn1 & Hm & -> & Hs1). pose proof Hm as [[Hr _] Hc]. rewrite length_leaves in Hr.
  unfold is_u64 in *.
  change (entry_key i) with (senc (SEntry i)). rewrite (ci_entry _ _ Hc i Hi).
  destruct (take (Z.to_nat n1) P !! Z.to_nat i) as [p|] eqn:Hp; cbn [fmap option_fmap option_map].
  - destruct (made_dedup _ _ (ci_made _ _ Hc _ _ Hp)) as (d & Hd & Hb).
    destruct (snapshot_lookup _ _ _ _ Hm Hp) as (Hp' & Hlt & _).
    apply spec_bind. eapply spec_lift_ok; [by rewrite (postcard_round _ _ Hb)|]. apply spec_ret.
    exists p. split; [done|]. split; [done|]. eapply ct_since_mono; [|done]. lia.
  - apply spec_ret. split; [|by eapply ct_since_mono].
    apply lookup_ge_None in Hp. rewrite length_take in Hp. lia.
Qed.

(** ** Entries *)

Section Entries.
  Context (Hcf : collision_free (all_certs P)) (Hwf : Forall (λ p, entry_wf (p_log_entry p)) P).
  Context (Hmade : ∀ i p, P !! i = Some p → made (Z.of_nat i) p).

Lemma shared_get_chain_spec cs n s :
  (∀ c, c ∈ cs → c ∈ all_certs (take (Z.to_nat n) P)) → ct_since n s →
  spec (get_chain (map digest cs)) s (λ r s', r = cs ∧ ct_since n s') (shared_read_failure n).
Proof.
  intros Hcs Hs. apply spec_bind. eapply spec_mono.
  { eapply (spec_mapM _ _ _ (λ h r, (∃ d, r = inl (SlateDbErr d)) ∨
      ∃ c, r = inr (Some c) ∧ chain_right h c) (ct_since n)); [done|].
    intros h s' (c & -> & Hc)%list_elem_of_fmap Hs'. apply spec_attempt.
    eapply spec_mono; [apply shared_chain_certificate_spec; [by apply Hcs|done]|..].
    - intros r s'' [Hs'' (c' & -> & ?)]. eauto.
    - intros e s'' [[d ->] Hs'']. eauto. }
  2: { intros e s' He. exact He. }
  intros rs s' [Hrs Hs']. unfold spec, lift. revert rs Hrs.
  induction cs as [|c cs IH]; intros rs Hrs.
  { inversion Hrs; subst. done. }
  inversion Hrs as [|? r ? rs' Hr Hrs']; subst. cbn [mapM]. destruct Hr as [[d ->]|(c' & -> & Hd & Hc')].
  { split; [by eexists|done]. }
  rewrite bind_Ok. assert (c' = c) as ->.
  { apply (same_cert P Hcf); [done| |done]. apply (all_certs_upto n). set_solver. }
  specialize (IH ltac:(set_solver) rs' Hrs').
  destruct (mapM _ rs'); cbn; [by destruct IH as [-> ?]|done..].
Qed.

Section Entry.
  Context (i n : Z) (p : Processed) (d : DeduplicatedLogEntry).
  Context (Hi : 0 ≤ i < n) (Hp : P !! Z.to_nat i = Some p).
  Context (Hd : from_log_entry (E := Empty_set) (p_log_entry p) = Ok d).

Lemma shared_entry_cert c : c ∈ entry_certs (p_log_entry p) → c ∈ all_certs (take (Z.to_nat n) P).
Proof.
  intros Hc. apply (entry_cert _ i p); [|done]. apply lookup_take_Some. split; [done|lia].
Qed.

Lemma shared_chain_certs c :
  c ∈ default [] (chain (p_log_entry p)) → c ∈ all_certs (take (Z.to_nat n) P).
Proof.
  intros Hc. apply shared_entry_cert. unfold entry_certs. destruct (chain (p_log_entry p)); set_solver.
Qed.

Lemma shared_lookup_cert_spec {A} c (e : SErr) s (k : bytes → stM CtStorage SErr A) Q :
  c ∈ all_certs (take (Z.to_nat n) P) → ct_since n s →
  (∀ s', ct_since n s' → spec (k c) s' Q (shared_read_failure n)) →
  spec (v ← get_certificate (digest c); c' ← lift (ok_or v e); k c') s Q (shared_read_failure n).
Proof.
  intros Hc Hs Hcont. apply spec_bind. eapply spec_mono; [by apply shared_get_certificate_spec| |done].
  intros [c'|] s1 [Hs1 Hv]; [|by destruct (Hv c Hc)]. destruct Hv as [Hdg Hin].
  apply spec_bind. eapply spec_lift_ok; [done|].
  rewrite (same_cert P Hcf c' c Hin (all_certs_upto _ _ Hc) Hdg). auto.
Qed.

Lemma shared_reconstruct_certificate_spec s :
  ct_since n s →
  spec (reconstruct_certificate d) s
    (λ r s', r = (certificate (p_log_entry p), original_precert (p_log_entry p)) ∧ ct_since n s')
    (shared_read_failure n).
Proof.
  intros Hs. unfold reconstruct_certificate.
  destruct (dedup_fields P Hwf i p d Hp Hd) as (_ & _ & -> & -> & _ & _ & ->).
  destruct (this_entry_wf P Hwf i p Hp) as [Hw _].
  pose proof shared_entry_cert as Hin. unfold entry_certs in Hin.
  destruct (entry_type (p_log_entry p)) eqn:Ht; cbn [bool_decide decide] in *.
  - rewrite bool_decide_eq_false_2 in * by done. rewrite Hw. apply shared_lookup_cert_spec.
    + apply Hin. set_solver.
    + done.
    + intros s1 Hs1. by apply spec_ret.
  - rewrite bool_decide_eq_true_2 in * by done. destruct Hw as (_ & pc & Hpc & Hx). rewrite Hpc in *.
    apply shared_lookup_cert_spec; [apply Hin; set_solver|done|]. intros s1 Hs1. apply spec_bind.
    eapply (spec_mono _ _ (λ r s', r = default [] (chain (p_log_entry p)) ∧ ct_since n s')); [| |done].
    + pose proof shared_chain_certs as Hcs.
      destruct (chain (p_log_entry p)); cbn [fmap option_fmap option_map default]; [|by apply spec_ret].
      by apply shared_get_chain_spec.
    + intros r s2 [-> Hs2]. rewrite Hx. apply spec_bind. eapply spec_lift_ok; [done|].
      by apply spec_ret.
Qed.

Lemma shared_reconstruct_entry_spec s :
  ct_since n s →
  spec (reconstruct_log_entry d) s (λ r s', r = p_log_entry p ∧ ct_since n s') (shared_read_failure n).
Proof.
  intros Hs. unfold reconstruct_log_entry. apply spec_bind.
  eapply spec_mono; [by apply shared_reconstruct_certificate_spec| |done]. intros r s1 [-> Hs1].
  destruct (dedup_fields P Hwf i p d Hp Hd) as (-> & -> & -> & -> & -> & -> & _). apply spec_bind.
  eapply (spec_mono _ _ (λ r s', r = chain (p_log_entry p) ∧ ct_since n s')); [| |done].
  - pose proof shared_chain_certs as Hcs.
    destruct (chain (p_log_entry p)) as [cs|]; cbn [fmap option_fmap option_map]; [|by apply spec_ret].
    apply spec_bind. eapply spec_mono; [by apply shared_get_chain_spec| |done]. intros r s2 [-> Hs2].
    by apply spec_ret.
  - intros r s2 [-> Hs2]. apply spec_ret. split; [by destruct (p_log_entry p)|done].
Qed.

End Entry.

(** An entry that is returned is the one of that index; one that was logged
    before the request is returned. *)
Definition entry_read (n i : Z) (r : option LogEntry) : Prop :=
  match r with Some e => entry_right i e | None => n ≤ i end.

Lemma shared_read_failure_mono n n' e s :
  n ≤ n' → shared_read_failure n' e s → shared_read_failure n e s.
Proof. intros Hn [? ?]. split; [done|]. by eapply ct_since_mono. Qed.

Lemma shared_get_entry_spec i n s :
  is_u64 i → ct_since n s →
  spec (get_entry i) s (λ r s', entry_read n i r ∧ ct_since n s') (shared_read_failure n).
Proof.
  intros Hi Hs. apply spec_bind. eapply spec_mono; [by apply shared_entry_cache_get_spec| |done].
  intros [e|] s1 [He Hs1].
  { apply spec_ret. split; [by apply He|done]. }
  apply spec_bind. eapply spec_mono; [by apply shared_deduplicated_spec| |done].
  intros [d|] s2 Hr; [|by apply spec_ret]. destruct Hr as (p & Hp & Hd & Hs2).
  assert (0 ≤ i) by apply Hi. apply spec_bind.
  eapply spec_mono; [eapply (shared_reconstruct_entry_spec i (Z.max n (i + 1)) p d); [lia|done..]|
    |intros e s3; apply shared_read_failure_mono; lia].
  intros r s3 [-> Hs3]. apply (ct_since_mono n) in Hs3; [|lia].
  assert (entry_right i (p_log_entry p)) as Hright by (split; [done|]; by exists p).
  apply spec_bind. eapply spec_mono; [by apply shared_entry_cache_insert_spec| |done].
  intros [] s4 Hs4. by apply spec_ret.
Qed.

(** What [join_all] returned for the indices. *)
Definition shared_fetched (n i : Z) (r : SErr + option LogEntry) : Prop :=
  (∃ d, r = inl (SlateDbErr d)) ∨ ∃ o, r = inr o ∧ entry_read n i o.

(** The entries that were there when their index was read: all of those logged
    before the request. *)
Inductive seen (n : Z) : list Z → list Processed → Prop :=
  | seen_nil : seen n [] []
  | seen_entry i l p ps : P !! Z.to_nat i = Some p → seen n l ps → seen n (i :: l) (p :: ps)
  | seen_missing i l ps : n ≤ i → seen n l ps → seen n (i :: l) ps.

Lemma seen_old n idxs ps :
  seen n idxs ps → Forall (λ i, i < n) idxs → ps = omap (λ i, P !! Z.to_nat i) idxs.
Proof.
  induction 1 as [|i l p ps Hp _ IH|i l ps Hi _ IH]; intros Hall; [done|..];
    apply Forall_cons in Hall as [Hlt Hall]; [|lia].
  cbn [omap list_omap]. rewrite Hp. f_equal. auto.
Qed.

Lemma shared_leaf_entries n idxs rs :
  Forall (λ i, 0 ≤ i) idxs → Forall2 (shared_fetched n) idxs rs →
  match mapM leaf_entry rs with
  | Ok l => ∃ ps, seen n idxs ps ∧ Forall2 served ps (omap id l)
  | Err e => e.1 = INTERNAL_SERVER_ERROR
  | _ => False
  end.
Proof.
  intros Hpos Hrs. induction Hrs as [|i r idxs rs Hr Hrs IH]; [exists []; split; constructor|].
  apply Forall_cons in Hpos as [Hi Hpos]. specialize (IH Hpos).
  cbn [mapM]. destruct Hr as [[d ->]|([e|] & -> & Hr)]; [done|..].
  - destruct Hr as [_ (p & Hp & ->)]. pose proof (Hmade _ _ Hp) as Hm.
    destruct (leaf_entry_ok _ p Hm) as (x & Hx & ->); [by eapply (Forall_lookup_1 (λ p, entry_wf (p_log_entry p)))|].
    rewrite bind_Ok. destruct (mapM leaf_entry rs) as [l| | |]; cbn; try done.
    destruct IH as (ps & Hps & Hl). exists (p :: ps). split; by constructor.
  - cbn [leaf_entry]. rewrite bind_Ok. destruct (mapM leaf_entry rs) as [l| | |]; cbn; try done.
    destruct IH as (ps & Hps & Hl). exists ps. split; [by constructor|done].
Qed.

Lemma shared_entries_spec start end_ n s :
  ct_since n s → 0 ≤ start ≤ end_ → end_ < 2 ^ 64 → end_ - start < 2 ^ 64 - 1 →
  spec (get_entries start end_) s
    (λ r s', ct_since n s' ∧ ∃ ps, seen n (zrange start (Z.min end_ (start + 999) + 1)) ps ∧ Forall2 served ps r)
    (db_answer n).
Proof.
  intros Hs Hse He Hr. unfold get_entries. zdecide. rewrite entries_range_ok by done.
  apply spec_bind. eapply spec_mono.
  { eapply (spec_mapM _ _ _ (shared_fetched n) (ct_since n)); [done|].
    intros i s' Hi%elem_of_zrange Hs'. apply spec_attempt.
    eapply spec_mono; [eapply (shared_get_entry_spec i n); [unfold is_u64; lia|done]|..].
    - intros r s'' [Hrd Hs'']. split; [right; by eexists|done].
    - intros e s'' [[d ->] Hs'']. split; [left; by eexists|done]. }
  2: { intros e s' He'. exact He'. }
  intros rs s' [Hrs Hs'].
  assert (Forall (λ i, 0 ≤ i) (zrange start (Z.min end_ (start + 999) + 1))) as Hpos.
  { apply Forall_forall. intros i Hi%elem_of_zrange. lia. }
  pose proof (shared_leaf_entries n _ _ Hpos Hrs) as Hl. unfold spec, lift, mbind, stM_bind.
  destruct (mapM leaf_entry rs); cbn in Hl |- *; try done; by split.
Qed.

End Entries.

(** ** Requests by clients *)

Lemma internal_storage_status (e : SErr) : (internal_storage e).1 = INTERNAL_SERVER_ERROR.
Proof. done. Qed.

(** [get-proof-by-hash] for a leaf that was logged before the request and whose
    hash no other leaf has. *)
Lemma shared_proof_by_hash_spec hs v i p n s :
  output_size = 32%nat → NoDup (map leaf_digest P) → is_u64 v → ct_since n s →
  P !! Z.to_nat i = Some p → 0 ≤ i < n → b64_decode hs = Ok (leaf_digest p) →
  spec (get_proof_by_hash hs v) s
    (λ r s', ct_since n s' ∧ r.1 = i ∧ audit_ok P B v i r.2)
    (shared_answer n (λ e,
       (e = (NOT_FOUND, "Leaf not found in requested tree size") ∧ v ≤ i) ∨
       (e.1 = BAD_REQUEST ∧ (n < v ∨ (v ∉ B))) ∨ ∃ d, e = proof_status (inclusion_err v (DbError d)))).
Proof.
  intros Hash Hnd Hv Hs Hp Hi Hhs. unfold get_proof_by_hash. rewrite Hhs. cbn [map_err].
  apply spec_bind. eapply spec_lift_ok; [done|]. apply spec_bind.
  eapply spec_mono; [eapply on_storage_shared; [exact internal_storage_status|by apply shared_find_index_spec]|..].
  2: { intros e s' [Hs' He]. split; [done|by right]. }
  intros [j|] s1 [Hs1 Hj]; last by destruct (Hj (Z.to_nat i) p Hp ltac:(lia)).
  destruct Hj as (p' & Hj & Hj63 & Hp' & Hdig).
  assert (Z.to_nat j = Z.to_nat i) as Hji.
  { eapply (NoDup_lookup (map leaf_digest P)); [done|..]; rewrite list_lookup_fmap.
    - rewrite Hp'. cbn. by rewrite Hdig.
    - by rewrite Hp. }
  assert (j = i) as -> by lia. apply spec_bind. eapply spec_lift_ok; [done|].
  destruct (Z.leb_spec v i).
  { apply spec_fail. split; [done|]. left. left. done. }
  eapply spec_mono; [eapply (shared_audit_spec (pair i) v i n); [done|done|unfold is_u64 in *; lia|done]|..].
  - intros r s2 (Hs2 & audit & -> & Ha). done.
  - intros e s2 [Hs2 He]. split; [done|]. destruct He as [[[He Hc]|?]|?]; [|auto|auto].
    left. right. left. split; [done|]. destruct Hc as [?|?]; [lia|done].
Qed.

(** A monitor: two tree heads and the proof of consistency between them. *)
Definition monitor (state : ApiState) (now1 now2 : Z) :
    stM CtStorage ApiError (SthResponse * SthResponse * list string) :=
  sth1 ← get_sth state now1;
  sth2 ← get_sth state now2;
  proof ← get_sth_consistency (resp_tree_size sth1) (resp_tree_size sth2);
  mret (sth1, sth2, proof).

(** An auditor: a tree head and the proof that a leaf is in it. *)
Definition auditor (state : ApiState) (now : Z) (hash : string) :
    stM CtStorage ApiError (SthResponse * (Z * list string)) :=
  sth ← get_sth state now;
  proof ← get_proof_by_hash hash (resp_tree_size sth);
  mret (sth, proof).

Lemma sth_size (state : ApiState) now v :
  0 ≤ v ≤ zlen P → resp_tree_size (sth_of state now (take (Z.to_nat v) P)) = v.
Proof. intros Hv. unfold sth_of, to_api_response. cbn. rewrite length_take. lia. Qed.

(** Whatever the batch worker appends meanwhile, two tree heads fetched one
    after the other are those of two prefixes of the log, the second not the
    shorter one, and the proof of consistency fetched for their sizes is not
    refused and verifies.  Only an empty first tree has no proof. *)
Theorem monitor_consistent (state : ApiState) now1 now2 n s :
  0 ≤ n → ct_since n s →
  spec (monitor state now1 now2) s
    (λ r s', ∃ v w, n ≤ v ≤ w ∧ w ≤ zlen P ∧ ct_since w s' ∧
       r.1 = (sth_of state now1 (take (Z.to_nat v) P), sth_of state now2 (take (Z.to_nat w) P)) ∧
       (v = w ∨ consistency_ok v w r.2))
    (λ e s', ct_since n s' ∧ (e.1 = INTERNAL_SERVER_ERROR ∨
       (e.1 = BAD_REQUEST ∧ n = 0) ∨ ∃ d, e = proof_status (consistency_err (DbError d)))).
Proof.
  intros Hn Hs. unfold monitor. apply spec_bind.
  eapply spec_mono; [by apply shared_sth_spec| |intros e s' [? ?]; auto].
  intros r1 s1 (v & Hv & Hpv & -> & Hs1). apply spec_bind.
  eapply spec_mono; [apply (shared_sth_spec state now2 v); [lia|done]|
    |intros e s' [He ?]; split; [by eapply ct_since_mono; [|done]; lia|auto]].
  intros r2 s2 (w & Hw & Hpw & -> & Hs2). rewrite !sth_size by lia. apply spec_bind.
  destruct Hpv as [Hpv Hv63], Hpw as [Hpw Hw63].
  eapply spec_mono; [apply (shared_consistency_api v w w); [unfold is_u64; lia|unfold is_u64; lia|done]|..].
  - intros r s3 (Hs3 & Hr). apply spec_ret. exists v, w. split; [lia|]. split; [lia|]. split; [done|].
    split; [done|]. destruct Hr as [[-> _]|(_ & _ & _ & _ & Hr)]; [by left|by right].
  - intros e s3 [Hs3 He]. split; [by eapply ct_since_mono; [|done]; lia|].
    destruct He as [[[He Hc]|[d ->]]|He]; [|by right; right; exists d|by left].
    destruct (decide (v = 0)) as [->|Hv0]; [right; left; split; [done|lia]|].
    destruct Hpv as [?|HvB]; [done|]. destruct Hpw as [?|HwB]; [lia|].
    destruct Hc as [?|[?|[?|[?|?]]]]; [lia|done|lia|done|done].
Qed.

(** Whatever the batch worker appends meanwhile, a leaf that was logged
    before the request is in the tree head that is fetched, and the proof
    fetched for its hash and that size is not refused, names its index and
    verifies against the root of that head. *)
Theorem auditor_inclusion (state : ApiState) now hash i p n s :
  output_size = 32%nat → NoDup (map leaf_digest P) → ct_since n s →
  P !! Z.to_nat i = Some p → 0 ≤ i < n → b64_decode hash = Ok (leaf_digest p) →
  spec (auditor state now hash) s
    (λ r s', ∃ v, n ≤ v ≤ zlen P ∧ r.1 = sth_of state now (take (Z.to_nat v) P) ∧ r.2.1 = i ∧
       audit_ok P B v i r.2.2)
    (λ e s', ct_since n s' ∧ (e.1 = INTERNAL_SERVER_ERROR ∨
       ∃ v d, e = proof_status (inclusion_err v (DbError d)))).
Proof.
  intros Hash Hnd Hs Hp Hi Hhash. unfold auditor. apply spec_bind.
  eapply spec_mono; [apply (shared_sth_spec state now n); [lia|done]| |intros e s' [? ?]; auto].
  intros r1 s1 (v & Hv & [Hpv Hv63] & -> & Hs1). rewrite sth_size by lia. apply spec_bind.
  eapply spec_mono; [eapply (shared_proof_by_hash_spec hash v i p v); try done; [unfold is_u64; lia|lia]|..].
  - intros r s2 (Hs2 & Hr & Ha). apply spec_ret. exists v. done.
  - intros e s2 [Hs2 He]. split; [by eapply ct_since_mono; [|done]; lia|].
    destruct He as [[[_ ?]|[[_ Hc]|[d ->]]]|He]; [lia| |right; by exists v, d|by left].
    destruct Hpv as [?|HvB]; [lia|]. destruct Hc as [?|?]; [lia|done].
Qed.

(** C32: [get-entries] while the batch worker appends: what is served is, in
    order, entries of the range asked for with their leaf and chain, all of them
    if they were logged before the request.  (Entries that become visible during
    the request may be served although an earlier one is not.) *)
Theorem get_entries_shared start end_ n s :
  collision_free (all_certs P) → Forall (λ p, entry_wf (p_log_entry p)) P →
  (∀ i p, P !! i = Some p → made (Z.of_nat i) p) → ct_since n s →
  0 ≤ start ≤ end_ → end_ < 2 ^ 64 → end_ - start < 2 ^ 64 - 1 →
  spec (get_entries start end_) s
    (λ r s', ∃ ps, seen n (zrange start (Z.min end_ (start + 999) + 1)) ps ∧ Forall2 served ps r ∧
       (end_ < n → ps = zslice start (Z.min end_ (start + 999) + 1) P))
    (db_answer n).
Proof.
  intros Hcf Hwf Hmade Hs Hse He Hr.
  eapply spec_mono; [by apply (shared_entries_spec Hcf Hwf Hmade start end_ n)| |done].
  intros r s' (Hs' & ps & Hps & Hserved). exists ps. split; [done|]. split; [done|]. intros Hlt.
  rewrite <- omap_zrange by lia. eapply seen_old; [done|]. apply Forall_forall. intros i Hi%elem_of_zrange. lia.
Qed.

End SharedApi.
