(* ===== verification/SharedReads.v ===== *)
(** * The other read endpoints while others append

    Checkpoints, entries with their proof, tiles, data tiles, issuers and pages,
    in the setting of [SharedApi]: each answer is that of the log at some moment
    of the request. *)

From S2P Require Import Prelude TreeMath Rfc6962 Inclusion Consistency KvStore TreeStore TreeInv.
From S2P Require Import TreeReads TreePush TreeTiles TreeBatch Types TreeHead Tiles MerkleStorage.
From S2P Require Import CtStorage CtInv CtFlush CtReads DataTiles Api ApiReads Shared SharedApi.

Section SharedReads.
  Context `{SlateDb} `{!DebugDb} `{!DisplayDb} `{!Cache (Z * Z) bytes} `{!Cache (Z * Z) bool}.
  Context `{!Cache bytes bytes} `{!Cache Z LogEntry}.
  Context `{Digest} `{!Postcard bytes} `{!PostcardLaws bytes}.
  Context `{!Postcard DeduplicatedLogEntry} `{!PostcardLaws DeduplicatedLogEntry}.
  Context `{!Postcard CertificateSctEntry} `{!PostcardLaws CertificateSctEntry}.
  Context `{TbsExtractor} `{Signer} `{Base64} `{!Base64Laws}.
  Context (P : list Processed) (B : gset Z).
  Context `{!SharedDbLaws (log_snapshot P B)} `{!SharedCacheLaws (Z * Z) bytes (node_right (leaves P) B)}.
  Context `{!SharedCacheLaws bytes bytes (chain_right P)} `{!SharedCacheLaws Z LogEntry (entry_right P)}.
  Abbreviation CErr := (CtError SlateDBError).
  Abbreviation SErr := (StorageError SlateDBError).
  Abbreviation ct_since := (ct_since P B).
  Abbreviation published := (published B).
  Abbreviation db_answer := (db_answer P B).
  Abbreviation shared_answer := (shared_answer P B).

(** The log when it had [v] entries. *)
Definition log_at (v : Z) : list Processed := take (Z.to_nat v) P.

Lemma leaves_log_at v : leaves (log_at v) = zslice 0 v (leaves P).
Proof. unfold log_at, leaves, zslice. by rewrite drop_0, Z.sub_0_r, !firstn_map. Qed.

Lemma length_log_at v : 0 ≤ v ≤ zlen P → zlen (log_at v) = v.
Proof. intros Hv. unfold log_at. rewrite length_take. lia. Qed.

(** ** Checkpoints *)

Definition checkpoint_of (state : ApiState) (now : Z) (Q : list Processed) : bytes :=
  str_bytes (note_format (create_checkpoint (sth_builder state) now (zlen Q) (mth (leaves Q)) (Some (u64 now)))).

Lemma shared_checkpoint_spec (state : ApiState) now n s :
  0 ≤ n → ct_since n s →
  spec (get_checkpoint state now) s
    (λ r s', ∃ v, n ≤ v ≤ zlen P ∧ published v ∧ body r = checkpoint_of state now (log_at v) ∧ ct_since v s')
    (db_answer n).
Proof.
  intros Hn Hs. apply spec_bind. eapply spec_mono; [by apply shared_committed_root_spec| |done].
  intros r s1 (v & Hv & Hp & -> & Hs1). apply spec_ret. exists v. split; [done|]. split; [done|]. split; [|done].
  unfold checkpoint_of. cbn [body num_leaves root_hash]. by rewrite leaves_log_at, length_log_at by lia.
Qed.

(** ** The size of the log *)

Lemma shared_size_api (f : CErr → ApiError) n s :
  (∀ e, (f e).1 = INTERNAL_SERVER_ERROR) → ct_since n s →
  spec (on_tree f size) s (λ r s', n ≤ r ≤ zlen P ∧ published r ∧ ct_since r s') (db_answer n).
Proof.
  intros Hf Hs. eapply spec_mono.
  - eapply (on_tree_shared P B f size n s (λ r v, r = v ∧ r ≤ zlen P ∧ published r) (λ _, True)); [done|].
    eapply spec_mono; [by apply (size_shared P B n), Hs|..].
    + intros r t (Hr & Hp & Ht). exists r. split; [lia|]. split; [|done]. split; [done|]. split; [lia|done].
    + intros e t [_ Ht]. done.
  - intros r s' (v & Hv & (-> & ? & ?) & Hs'). done.
  - intros e s' [(e0 & -> & _) Hs']. split; [done|apply Hf].
Qed.

(** ** Entries with their proof *)

Section Entries.
  Context (Hcf : collision_free (all_certs P)) (Hwf : Forall (λ p, entry_wf (p_log_entry p)) P).
  Context (Hmade : ∀ i p, P !! i = Some p → made (Z.of_nat i) p).

Lemma wf_lookup i p : P !! i = Some p → entry_wf (p_log_entry p).
Proof. intros Hp. by eapply (Forall_lookup_1 (λ p, entry_wf (p_log_entry p))). Qed.

(** The tree size asked for, or that of a moment of the request. *)
Definition size_asked (n : Z) (tree_size : option Z) (v : Z) : Prop :=
  match tree_size with Some v' => v = v' | None => n ≤ v end.

(** Why an entry is refused with its proof. *)
Definition entry_refused (i : Z) (tree_size : option Z) (n : Z) (e : ApiError) : Prop :=
  (e.1 = BAD_REQUEST ∧ match tree_size with Some v => v ≤ i ∨ n < v ∨ (v ∉ B) | None => n ≤ i end) ∨
  (e = (NOT_FOUND, "Log entry not found") ∧ n ≤ i) ∨
  ∃ v d, size_asked n tree_size v ∧ e = proof_status (inclusion_err v (DbError d)).

Lemma shared_answer_later n n' refusal e s :
  n ≤ n' → ct_since n' s → refusal e ∨ e.1 = INTERNAL_SERVER_ERROR → shared_answer n refusal e s.
Proof. intros Hn Hs He. split; [by eapply ct_since_mono|done]. Qed.

Lemma shared_entry_and_proof_spec i tree_size n s :
  output_size = 32%nat → is_u64 i → (∀ v, tree_size = Some v → is_u64 v) → 0 ≤ n → ct_since n s →
  spec (get_entry_and_proof i tree_size) s
    (λ r s', ct_since n s' ∧ ∃ v, size_asked n tree_size v ∧ audit_ok P B v i r.2 ∧
       ∃ p, P !! Z.to_nat i = Some p ∧ served p r.1)
    (shared_answer n (entry_refused i tree_size n)).
Proof.
  intros Hash Hi Hts Hn Hs. unfold get_entry_and_proof. apply spec_bind.
  eapply spec_mono; [by apply shared_size_api| |intros e s' [? ?]; split; [done|by right]].
  intros v0 s1 (Hv0 & [HB0 H63] & Hs1). set (v := default v0 tree_size).
  assert (is_u64 v ∧ size_asked n tree_size v) as [Hv Hask].
  { unfold v. destruct tree_size as [v'|]; cbn; [by split; [apply Hts|]|]. unfold is_u64. split; lia. }
  destruct (Z.leb_spec v i) as [Hvi|Hvi].
  { apply spec_fail, (shared_answer_later n v0); [lia|done|]. left. left. split; [done|]. unfold v in Hvi.
    destruct tree_size; cbn in *; [by left|lia]. }
  apply spec_bind. eapply spec_mono;
    [eapply (on_storage_shared P B internal_storage _ v0); [done|by apply shared_get_entry_spec]|..].
  2: { intros e s' [Hs' He]. apply (shared_answer_later n v0); [lia|done|by right]. }
  intros [e|] s2 [Hr Hs2]; cbn [ok_or]; apply spec_bind; last first.
  { apply (shared_answer_later n v0); [lia|done|]. left. right. left. cbn in Hr. split; [done|lia]. }
  destruct Hr as [_ (p & Hp & ->)]. pose proof (wf_lookup _ _ Hp) as Hw.
  pose proof (Hmade _ _ Hp) as Hm. destruct (build_extra_data_ok p Hw) as [extra Hx].
  eapply spec_lift_ok; [done|]. apply spec_bind.
  rewrite (serialize_leaf _ p Hm Hw). eapply spec_lift_ok; [done|].
  apply spec_bind. rewrite Hx. eapply spec_lift_ok; [done|].
  eapply spec_mono; [eapply (shared_audit_spec P B (pair (b64_encode (p_leaf_data p), b64_encode extra)) v i v0); done|..].
  - intros r s3 (Hs3 & audit & -> & Ha). cbn [fst snd]. split; [by eapply ct_since_mono; [|done]; lia|].
    exists v. split; [done|]. split; [done|]. exists p. split; [done|]. by exists extra.
  - intros e s3 [Hs3 He]. apply (shared_answer_later n v0); [lia|done|].
    destruct He as [[[He Hc]|[d ->]]|?]; [|left; right; right; by exists v, d|by right].
    left. left. split; [done|]. unfold v, is_u64 in *. destruct tree_size; cbn in *.
    + destruct Hc as [?|[?|?]]; [by left|right; left; lia|auto].
    + destruct Hc as [?|[?|HB]]; [lia|lia|]. destruct HB0 as [?|?]; [lia|done].
Qed.

(** ** Data tiles *)

Lemma shared_read_dedup (f : SErr → ApiError) i p n s :
  (∀ e, (f e).1 = INTERNAL_SERVER_ERROR) → is_u64 i → P !! Z.to_nat i = Some p → i < n → ct_since n s →
  spec (on_storage f (get_deduplicated_entry i)) s
    (λ r s', ∃ d, r = Some d ∧ from_log_entry (E := Empty_set) (p_log_entry p) = Ok d ∧ ct_since n s')
    (db_answer n).
Proof.
  intros Hf Hi Hp Hlt Hs.
  eapply spec_mono; [eapply (on_storage_shared P B f _ n); [done|by apply shared_deduplicated_spec]|..].
  2: { intros e s' He. exact He. }
  intros [d|] s' Hr; [|lia]. destruct Hr as (p' & Hp' & Hd & Hs'). assert (p' = p) as -> by congruence.
  exists d. split; [done|]. split; [done|]. eapply ct_since_mono; [|done]. lia.
Qed.

(** The hash of the original precertificate is that of a stored certificate. *)
Lemma dedup_precert i p d :
  P !! i = Some p → from_log_entry (E := Empty_set) (p_log_entry p) = Ok d →
  d_entry_type d = entry_type (p_log_entry p) ∧
  original_precert_hash d = digest <$> original_precert (p_log_entry p).
Proof.
  intros Hp Hd. destruct (wf_lookup _ _ Hp) as [Hw _]. revert Hd. unfold from_log_entry.
  destruct (entry_type (p_log_entry p)).
  - rewrite Hw. destruct (issuer_key_hash (p_log_entry p)) as [h|]; [|by intros [= <-]].
    unfold assert_that. destruct (32 <=? zlen h); cbn; [|done]. by intros [= <-].
  - destruct Hw as (_ & pc & -> & _). destruct (issuer_key_hash (p_log_entry p)) as [h|]; [|by intros [= <-]].
    unfold assert_that. destruct (32 <=? zlen h); cbn; [|done]. by intros [= <-].
Qed.

Lemma shared_data_tile_leaf v n k p s :
  k < v → v ≤ n → is_u64 k → P !! Z.to_nat k = Some p → ct_since n s →
  spec (data_tile_leaf v k) s
    (λ r s', r = Some (tile_leaf_to_bytes (tile_leaf_of p)) ∧ ct_since n s') (db_answer n).
Proof.
  intros Hkv Hvn Hk Hp Hs. unfold data_tile_leaf. rewrite (proj2 (Z.leb_gt _ _)) by lia.
  apply spec_bind. eapply spec_mono; [eapply (shared_read_dedup _ k p n); [done|done|done|lia|done]| |done].
  intros r s1 (d & -> & Hd & Hs1). cbn [ok_or]. apply spec_bind. eapply spec_lift_ok; [done|].
  destruct (dedup_precert _ _ _ Hp Hd) as [Hty Hph]. destruct (dedup_chain _ _ Hd) as [Hch Hl].
  destruct (wf_lookup _ _ Hp) as [Hw _]. pose proof (Hmade _ _ Hp) as Hm.
  rewrite (made_leaf _ _ Hm) in Hl. pose proof (made_leaf_length _ _ Hm) as Hlen.
  rewrite Hty. apply spec_bind.
  eapply (spec_mono _ _ (λ r s', match entry_type (p_log_entry p) with X509Entry => True
      | PrecertEntry => r = original_precert (p_log_entry p) end ∧ ct_since n s') _ (db_answer n)); [| |done].
  - destruct (entry_type (p_log_entry p)) eqn:Ht; cbn [bool_decide decide]; [by apply spec_ret|].
    destruct Hw as (_ & pc & Hpc & _). rewrite bool_decide_eq_true_2 by done. rewrite Hph, Hpc. cbn [fmap option_fmap option_map].
    eapply spec_mono; [eapply (on_storage_shared P B _ _ n); [done|by apply shared_get_certificate_spec]| |done].
    assert (pc ∈ all_certs (take (Z.to_nat n) P)) as Hin.
    { apply (shared_entry_cert P k n p); [unfold is_u64 in *; lia|done|]. unfold entry_certs. rewrite Hpc. set_solver. }
    intros [c|] s2 [Hs2 Hc]; [|by destruct (Hc pc Hin)]. split; [|done]. destruct Hc as [Hdig Hc]. f_equal.
    by apply (same_cert P Hcf); [|apply (all_certs_upto P n)|].
  - intros r s2 [Hr Hs2]. apply spec_bind. unfold tile_leaf_from_entry, assert_that. rewrite Hl.
    rewrite (proj2 (Z.leb_le _ _)) by lia. eapply spec_lift_ok; [done|]. apply spec_ret. split; [|done].
    unfold tile_leaf_of. rewrite Hty, Hch. destruct (entry_type (p_log_entry p)); [by rewrite Hw|by subst r].
Qed.

Lemma omap_shifted {A} (f : Z → option A) a k rs :
  Forall2 (λ j r, r = f (a + j)) (zrange 0 k) rs → omap id rs = omap f (zrange a (a + k)).
Proof.
  intros Hrs. transitivity (omap f (map (λ j, a + j) (zrange 0 k))).
  - induction Hrs as [|j r js rs -> Hrs IH]; [done|]. cbn. rewrite IH. by destruct (f (a + j)).
  - f_equal. unfold zrange. rewrite Z.sub_0_r. replace (a + k - a) with k by lia.
    pose proof (fmap_add_seqZ a 0 k) as Hf. rewrite Z.add_0_r in Hf. exact Hf.
Qed.

Lemma omap_fmap {A C D} (f : A → option C) (g : C → D) (l : list A) :
  omap (λ x, g <$> f x) l = map g (omap f l).
Proof.
  induction l as [|x l IH]; [done|]. cbn [omap list_omap].
  destruct (f x); cbn; [by f_equal|done].
Qed.

Lemma log_at_lookup v k : 0 ≤ k < v → log_at v !! Z.to_nat k = P !! Z.to_nat k.
Proof. intros Hk. unfold log_at. rewrite lookup_take_lt; [done|lia]. Qed.

Lemma log_at_end v k : v ≤ k → log_at v !! Z.to_nat k = None.
Proof. intros Hk. apply lookup_ge_None. unfold log_at. rewrite length_take. lia. Qed.

(** The entries of a tile, as many as are asked for and as there are. *)
Definition tile_entries (v i w : Z) : list Processed := zslice (i * 256) (i * 256 + w) (log_at v).

Lemma shared_generate_data_tile v n i width s :
  0 ≤ i → i * 256 + 256 < 2 ^ 64 → 1 ≤ default 256 width ≤ 256 → v ≤ n → 0 ≤ v ≤ zlen P → ct_since n s →
  spec (generate_data_tile i v width) s
    (λ r s', ct_since n s' ∧ r = tile_bytes_of (tile_entries v i (default 256 width)) ∧ i * 256 < v)
    (λ e s', ct_since n s' ∧ (e.1 = INTERNAL_SERVER_ERROR ∨
       (e = (NOT_FOUND, "Data tile not found") ∧ v ≤ i * 256))).
Proof.
  intros Hi Hb Hw Hvn Hv Hs. unfold generate_data_tile. rewrite u64_small by lia.
  set (w := default 256 width) in *. set (g := λ p, tile_leaf_to_bytes (tile_leaf_of p)).
  apply spec_bind. eapply spec_mono.
  { eapply (spec_mapM _ _ _ (λ j r, r = g <$> log_at v !! Z.to_nat (i * 256 + j)) (ct_since n)); [done|].
    intros j s' Hj%elem_of_zrange Hs'. rewrite u64_small by lia.
    destruct (decide (v ≤ i * 256 + j)) as [Hge|Hlt].
    { unfold data_tile_leaf. rewrite log_at_end, (proj2 (Z.leb_le _ _)) by lia. by apply spec_ret. }
    rewrite log_at_lookup by lia.
    destruct (lookup_lt_is_Some_2 P (Z.to_nat (i * 256 + j))) as [p Hp]; [lia|]. rewrite Hp. cbn.
    apply (shared_data_tile_leaf v n); [lia|done|unfold is_u64; lia|done|done]. }
  2: { intros e s' [? ?]. auto. }
  intros rs s1 [Hrs Hs1]. rewrite (omap_shifted (λ k, g <$> log_at v !! Z.to_nat k) _ _ _ Hrs).
  rewrite (omap_fmap (λ k, log_at v !! Z.to_nat k)), omap_zrange by lia. fold (tile_entries v i w).
  assert (length (tile_entries v i w) = Z.to_nat (Z.min w (v - i * 256))) as Hlen.
  { unfold tile_entries, zslice. rewrite length_take, length_drop.
    pose proof (length_log_at v Hv). lia. }
  unfold tile_bytes_of. destruct (map g (tile_entries v i w)) as [|b bs] eqn:Hm.
  - apply spec_fail. split; [done|]. right. split; [done|]. apply (f_equal length) in Hm.
    rewrite length_map in Hm. cbn in Hm. lia.
  - fold g. rewrite Hm. apply spec_ret. split; [done|]. split; [done|]. apply (f_equal length) in Hm.
    rewrite length_map in Hm. cbn in Hm. lia.
Qed.

(** The body of a data tile is the compressed form of entries that can be read
    back; entries that were there before the request are among them. *)
Lemma shared_data_tile_spec (gzip : bytes → bytes) path i width n s :
  parse_tile_index (DbErr := SlateDBError) path = Ok i →
  0 ≤ i → i * 256 + 256 < 2 ^ 64 → 1 ≤ default 256 width ≤ 256 → 0 ≤ n → ct_since n s →
  spec (get_data_tile gzip path width) s
    (λ r s', ct_since n s' ∧ ∃ v, n ≤ v ≤ zlen P ∧ i * 256 < v ∧
       body r = gzip (tile_bytes_of (tile_entries v i (default 256 width))))
    (shared_answer n (λ e, e = (NOT_FOUND, "Data tile not found") ∧ n ≤ i * 256)).
Proof.
  intros Hpath Hi Hb Hw Hn Hs. unfold get_data_tile, check_tile_request. rewrite Hpath. cbn [map_err].
  rewrite bind_Ok. apply spec_bind. eapply (spec_lift_ok _ i).
  { destruct width as [w|]; [|done]. cbn [default from_option id] in Hw. by zdecide. }
  apply spec_bind. eapply spec_mono; [by apply shared_committed_root_spec|
    |intros e s' [? ?]; split; [done|by right]].
  intros r s1 (v & Hv & _ & -> & Hs1). cbn [num_leaves]. apply spec_bind.
  eapply spec_mono; [apply (shared_generate_data_tile v v); try done; lia|..].
  - intros b s2 (Hs2 & -> & Hlt). apply spec_ret. split; [by eapply ct_since_mono; [|done]; lia|].
    exists v. done.
  - intros e s2 [Hs2 He]. apply (shared_answer_later n v); [lia|done|].
    destruct He as [?|[? ?]]; [by right|left; split; [done|lia]].
Qed.

(** ** Pages *)

Lemma shared_page_step page i p n s :
  i < n → is_u64 i → P !! Z.to_nat i = Some p → ct_since n s →
  spec (page_step page i) s (λ r s', ct_since n s' ∧ r = add_entry_of page p)
    (λ e s', ct_since n s' ∧ e.1 = INTERNAL_SERVER_ERROR).
Proof.
  intros Hlt Hi Hp Hs. unfold page_step. apply spec_bind.
  eapply spec_mono; [eapply (shared_read_dedup _ i p n); done| |intros e s' He; exact He].
  intros r s1 (d & -> & Hd & Hs1). destruct (dedup_chain _ _ Hd) as [Hch Hl].
  pose proof (Hmade _ _ Hp) as Hm. rewrite (made_leaf _ _ Hm) in Hl.
  pose proof (made_leaf_length _ _ Hm). apply spec_bind. unfold serialize_timestamped_entry.
  rewrite Hl. rewrite (proj2 (Z.ltb_ge _ _)) by lia. eapply spec_lift_ok; [done|].
  apply spec_ret. split; [done|]. by rewrite Hch.
Qed.

(** The page that has the number [k] when the log has [v] entries. *)
Definition page_at (v k : Z) : EntriesPage :=
  page_of (k * 1000) (map page_entry_of (zslice (k * 1000) (Z.min (k * 1000 + 1000) v) P)).

Lemma shared_page_spec k n s :
  0 ≤ k → k * 1000 + 1000 < 2 ^ 64 → 0 ≤ n → ct_since n s →
  spec (get_page k) s
    (λ r s', ct_since n s' ∧ ∃ v, n ≤ v ≤ zlen P ∧ k * 1000 < v ∧ body r = page_to_binary (page_at v k) ∧
       (("cache-control", "public, max-age=31536000, immutable") ∈ headers r → k * 1000 + 1000 ≤ v))
    (shared_answer n (λ e, e.1 = NOT_FOUND ∧ n ≤ k * 1000)).
Proof.
  intros Hk Hb Hn Hs. unfold get_page, PAGE_SIZE. rewrite (u64_small (k * 1000)), u64_small by lia.
  apply spec_bind. eapply spec_mono; [by apply shared_size_api| |intros e s' [? ?]; split; [done|by right]].
  intros v s1 (Hv & [_ H63] & Hs1). destruct (Z.leb_spec v (k * 1000)).
  { apply spec_fail, (shared_answer_later n v); [lia|done|]. left. split; [done|lia]. }
  apply spec_bind. eapply spec_mono; [apply (page_loop_gen (ct_since v) P); [done|..]|..].
  - apply Forall_forall. intros i Hi%elem_of_zrange. lia.
  - intros i p pg s' Hi%elem_of_zrange Hp Hs'. apply shared_page_step; [lia|unfold is_u64; lia|done|done].
  - intros r s2 [Hs2 ->]. apply spec_ret. split; [by eapply ct_since_mono; [|done]; lia|].
    exists v. split; [done|]. split; [done|]. split.
    + cbn [body]. by rewrite omap_zrange, page_of_entries by lia.
    + cbn [headers]. intros Hin. destruct (Z.eqb_spec (Z.min (k * 1000 + 1000) v) (k * 1000 + 1000));
        [lia|]. cbn [andb] in Hin. set_solver.
  - intros e s2 [Hs2 He]. apply (shared_answer_later n v); [lia|done|by right].
Qed.

End Entries.

(** ** Certificates by their hash *)

(** What both endpoints answer for a hash: a certificate of the log with that
    hash; one of an entry logged before the request is found. *)
Definition certificate_served (h cert : bytes) : Prop := digest cert = h ∧ cert ∈ all_certs P.
Definition not_logged (n : Z) (h : bytes) : Prop := ∀ c, c ∈ all_certs (log_at n) → digest c ≠ h.

Lemma shared_certificate_spec (f : SErr → ApiError) h n s :
  (∀ e, (f e).1 = INTERNAL_SERVER_ERROR) → ct_since n s →
  spec (on_storage f (get_certificate h)) s
    (λ r s', ct_since n s' ∧
       match r with Some c => certificate_served h c | None => not_logged n h end) (db_answer n).
Proof.
  intros Hf Hs. eapply (on_storage_shared P B f _ n); [done|]. by apply shared_get_certificate_spec.
Qed.

Lemma shared_issuer_spec (hex_decode : string → option bytes) fingerprint n s :
  ct_since n s →
  spec (get_issuer hex_decode fingerprint) s
    (λ r s', ct_since n s' ∧ ∃ h, hex_decode fingerprint = Some h ∧ certificate_served h (body r))
    (shared_answer n (λ e,
       (e.1 = BAD_REQUEST ∧ ∀ h, hex_decode fingerprint = Some h → length h ≠ 32%nat) ∨
       (e.1 = NOT_FOUND ∧ ∃ h, hex_decode fingerprint = Some h ∧ not_logged n h))).
Proof.
  intros Hs. unfold get_issuer. destruct (hex_decode fingerprint) as [h|]; apply spec_bind; last first.
  { split; [done|]. left. left. done. }
  eapply spec_lift_ok; [done|]. case_bool_decide as Hlen; cbn [negb]; last first.
  { apply spec_fail. split; [done|]. left. left. split; [done|]. by intros h' [= <-]. }
  apply spec_bind. eapply spec_mono; [by eapply (shared_certificate_spec _ h n)|..].
  2: { intros e s' [? ?]. split; [done|by right]. }
  intros [c|] s1 [Hs1 Hc]; apply spec_bind.
  - eapply spec_lift_ok; [done|]. apply spec_ret. split; [done|]. by exists h.
  - split; [done|]. left. right. split; [done|]. by exists h.
Qed.

Lemma shared_certificate_handler_spec (b64url_decode : string → res string bytes) hash_str n s :
  (∀ x, total (b64url_decode x)) → ct_since n s →
  spec (get_certificate_handler b64url_decode hash_str) s
    (λ r s', ct_since n s' ∧ ∃ h, b64url_decode hash_str = Ok h ∧ certificate_served h (body r))
    (shared_answer n (λ e,
       (e.1 = BAD_REQUEST ∧ ∀ h, b64url_decode hash_str = Ok h → length h ≠ 32%nat) ∨
       (e.1 = NOT_FOUND ∧ ∃ h, b64url_decode hash_str = Ok h ∧ not_logged n h))).
Proof.
  intros Htot Hs. unfold get_certificate_handler, base64url_to_hash. pose proof (Htot hash_str) as Ht.
  destruct (b64url_decode hash_str) as [h|msg| |]; try done; cbn [map_err]; last first.
  { apply spec_bind. split; [done|]. left. left. done. }
  rewrite bind_Ok. case_bool_decide as Hlen; cbn [negb map_err]; apply spec_bind; last first.
  { split; [done|]. left. left. split; [done|]. by intros h' [= <-]. }
  eapply spec_lift_ok; [done|]. apply spec_bind.
  eapply spec_mono; [by eapply (shared_certificate_spec _ h n)|..].
  2: { intros e s' [? ?]. split; [done|by right]. }
  intros [c|] s1 [Hs1 Hc].
  - apply spec_ret. split; [done|]. by exists h.
  - apply spec_fail. split; [done|]. left. right. split; [done|]. by exists h.
Qed.

(** ** Tiles *)

Lemma subtree_position v l p :
  0 ≤ v ≤ zlen P → 0 ≤ l ≤ 5 → 0 ≤ p → p * tile_width l < v →
  subtree_hash (leaves P) v (tile_node v l p) = position_hash (log_at v) l p.
Proof.
  intros Hv Hl Hp Hlt. pose proof (tile_width_bound l Hl) as Hw.
  destruct (tile_node_spec v l p) as (Hval & Hlo & Hhi); [lia|done|done|].
  rewrite <- (subtree_hash_upto (leaves P) v v) by (rewrite ?length_leaves; lia || apply Hval).
  unfold subtree_hash, position_hash. rewrite Hlo, Hhi, length_log_at by done.
  f_equal. f_equal. unfold upto, log_at, leaves. apply firstn_map.
Qed.

Lemma shared_tile_hash l p v s :
  output_size = 32%nat → 0 ≤ l ≤ 5 → 0 ≤ p → p * tile_width l < v → v ≤ zlen P → published v → ct_since v s →
  spec (tile_hash (tile_width l) v p) s
    (λ r s', r = Some (position_hash (log_at v) l p) ∧ ct_since v s')
    (λ e s', ct_since v s' ∧ e.1 = INTERNAL_SERVER_ERROR).
Proof.
  intros Hash Hl Hp Hlt Hv [HvB H63] Hs. pose proof (tile_width_bound l Hl) as Hw.
  destruct HvB as [->|HvB]; [nia|].
  assert (size_ok v) as Hok by (unfold size_ok; nia).
  destruct (tile_node_spec v l p) as (Hval & Hlo & Hhi); [lia|done|done|].
  unfold tile_hash. rewrite (u64_small (p * tile_width l)) by nia.
  rewrite (proj2 (Z.leb_gt _ _)) by lia. rewrite u64_small by nia.
  replace (Z.min (p * tile_width l + tile_width l) v) with (hi v (tile_node v l p)) by lia.
  rewrite <- Hlo at 1. apply spec_bind. eapply spec_lift_ok.
  { apply compute_subtree_root_node; [done|done|]. pose proof (valid_range_level _ _ Hok Hval). lia. }
  apply spec_bind. eapply spec_mono.
  { eapply (on_tree_shared P B _ _ v s (λ h n', h = position_hash (log_at v) l p) (λ _, True)); [done|].
    apply spec_map_err. eapply spec_mono.
    { apply (shared_node_spec _ _ _ (log_snapshot_tree P B) (tile_node v l p) v HvB Hval) with (n := v);
        [|lia|apply Hs]. by eapply valid_u64. }
    - intros h t [-> Ht]. exists v. split; [lia|]. split; [|done]. apply subtree_position; (done || lia || nia).
    - intros e t [_ Ht]. done. }
  - intros h s1 (n' & Hn' & -> & Hs1). apply spec_bind. unfold position_hash.
    rewrite bool_decide_eq_true_2 by (by rewrite mth_length). eapply spec_lift_ok; [done|].
    apply spec_ret. split; [done|]. by eapply ct_since_mono.
  - intros e s1 [(e0 & -> & _) Hs1]. done.
Qed.

(** What a request for [w] hashes of tile [i] at level [l] is answered with when
    the log has [v] entries: the hashes over as many positions as there are, the
    last one perhaps incomplete. *)
Definition tile_served (l i w v : Z) (b : bytes) : Prop :=
  ∃ ps, tile_positions v l i w ps ∧ b = concat (map (position_hash (log_at v) l) ps).

(** A stored tile is what is served when it is complete. *)
Lemma stored_tile_served l i n m b :
  0 ≤ l ≤ 5 → is_u64 i → log_snapshot P B n m → m !! tile_key l i = Some b → tile_served l i 256 n b.
Proof.
  intros Hl Hi [[Hn Ht] _] Hb. rewrite length_leaves in Hn. pose proof (tile_width_bound l Hl) as Hw.
  destruct (ti_tile _ _ _ Ht l i Hl Hi) as [Hf Hnf]. cbn [enc] in *.
  rewrite length_upto in Hf, Hnf by (rewrite length_leaves; lia).
  destruct (decide (tile_full n l i)) as [Hfull|Hno]; [|by rewrite Hnf in Hb].
  rewrite Hf in Hb by done. injection Hb as <-. unfold tile_full, is_u64 in *.
  exists (zrange (i * 256) (i * 256 + 256)). split.
  - exists (i * 256 + 256). split; [done|]. split; [lia|]. split; [nia|by left].
  - unfold tile_bytes. f_equal. apply map_ext_in. intros p Hp%list_elem_of_In%elem_of_zrange.
    assert ((p + 1) * tile_width l ≤ n) by nia.
    rewrite position_hash_complete by (rewrite length_log_at by lia; done).
    unfold upto, log_at, leaves. by rewrite firstn_map.
Qed.

Lemma shared_generated_tile l i width v s :
  output_size = 32%nat → 0 ≤ l ≤ 5 → 0 ≤ i → i * 256 + 256 < 2 ^ 64 → 1 ≤ default 256 width ≤ 256 →
  0 ≤ v ≤ zlen P → published v → ct_since v s →
  spec (tile ← generate_merkle_tile l i v width; mret (tile_to_bytes tile)) s
    (λ r s', ct_since v s' ∧ tile_served l i (default 256 width) v r)
    (λ e s', ct_since v s' ∧ (e.1 = INTERNAL_SERVER_ERROR ∨
       (e = (NOT_FOUND, "Tile not found") ∧ v ≤ i * 256 * tile_width l))).
Proof.
  intros Hash Hl Hi Hb Hw Hv Hp Hs. pose proof Hp as [_ H63]. apply spec_bind.
  eapply spec_mono; [apply (generate_merkle_tile_gen (ct_since v) (position_hash (log_at v) l)); try done|..].
  - lia.
  - intros p s' Hp0 Hlt Hs'. apply shared_tile_hash; (done || lia).
  - intros t s1 (Hs1 & ps & Hps & Hh). apply spec_ret. split; [done|]. exists ps. split; [done|].
    unfold tile_to_bytes. by rewrite Hh.
  - done.
Qed.

Lemma shared_tile_spec l path i width n s :
  output_size = 32%nat → 0 ≤ l ≤ 5 → parse_tile_index (DbErr := SlateDBError) path = Ok i →
  0 ≤ i → i * 256 + 256 < 2 ^ 64 → 1 ≤ default 256 width ≤ 256 → 0 ≤ n → ct_since n s →
  spec (get_tile_handler l path width) s
    (λ r s', ct_since n s' ∧ ∃ v, n ≤ v ≤ zlen P ∧ tile_served l i (default 256 width) v (body r))
    (shared_answer n (λ e, e = (NOT_FOUND, "Tile not found") ∧ n ≤ i * 256 * tile_width l)).
Proof.
  intros Hash Hl Hpath Hi Hb Hw Hn Hs.
  unfold get_tile_handler. zdecide. unfold check_tile_request. rewrite Hpath. cbn [map_err]. rewrite bind_Ok.
  apply spec_bind. eapply (spec_lift_ok _ i).
  { destruct width as [w|]; [|done]. cbn [default from_option id] in Hw. by zdecide. }
  apply spec_bind. eapply spec_mono; [by apply shared_committed_root_spec|
    |intros e s' [? ?]; split; [done|by right]].
  intros r s1 (v & Hv & Hp & -> & Hs1). cbn [num_leaves]. apply spec_bind.
  assert (∀ s', ct_since v s' →
    spec (tile ← generate_merkle_tile l i v width; mret (tile_to_bytes tile)) s'
      (λ b s'', ct_since n s'' ∧ ∃ v, n ≤ v ≤ zlen P ∧ tile_served l i (default 256 width) v b)
      (shared_answer n (λ e, e = (NOT_FOUND, "Tile not found") ∧ n ≤ i * 256 * tile_width l))) as Hgen.
  { intros s' Hs'. eapply spec_mono; [apply (shared_generated_tile l i width v); (done || lia)|..].
    - intros b s'' [Hs'' Hb']. split; [by eapply ct_since_mono; [|done]; lia|]. by exists v.
    - intros e s'' [Hs'' He]. apply (shared_answer_later n v); [lia|done|].
      destruct He as [?|[? ?]]; [by right|left; split; [done|lia]]. }
  eapply (spec_mono _ _ (λ b s'', ct_since n s'' ∧ ∃ v, n ≤ v ≤ zlen P ∧
    tile_served l i (default 256 width) v b) _ (shared_answer n _));
    [|intros b s2 Hb2; by apply spec_ret|intros e s' He; exact He].
  destruct width as [w|]; [by apply Hgen|]. apply spec_bind. eapply spec_mono.
  { eapply (on_tree_shared P B _ _ v s1 (λ r n', ∀ b, r = Some b → n' ≤ zlen P ∧ tile_served l i 256 n' b)
      (λ _, True)); [done|].
    apply spec_map_err. unfold get_tile. eapply spec_mono; [apply (shared_get_spec _ _ _ v), Hs1|..].
    - intros r t (n' & m & Hn' & Hm & -> & Ht). exists n'. split; [done|]. split; [|done]. intros b Hb'.
      split; [|by eapply stored_tile_served; [|unfold is_u64; lia|done..]].
      destruct Hm as [[Hr _] _]. rewrite length_leaves in Hr. lia.
    - intros e t [_ Ht]. done. }
  - intros [b|] s2 (n' & Hn' & Hb' & Hs2).
    + apply spec_ret. split; [by eapply ct_since_mono; [|done]; lia|]. destruct (Hb' b eq_refl).
      exists n'. split; [lia|done].
    + apply Hgen. by eapply ct_since_mono.
  - intros e s2 [(e0 & -> & _) Hs2]. apply (shared_answer_later n v); [lia|done|by right].
Qed.

(** A tile whose positions are complete is always the same. *)
Lemma tile_served_complete l i w n v b :
  0 ≤ l ≤ 5 → 0 ≤ i → 1 ≤ w ≤ 256 → (i * 256 + w) * tile_width l ≤ n → n ≤ v ≤ zlen P →
  tile_served l i w v b → b = tile_prefix (leaves P) l i w.
Proof.
  intros Hl Hi Hw Hfull Hv (ps & (stop & -> & Hst & Hlast & Hstop) & ->).
  pose proof (tile_width_bound l Hl) as Htw.
  assert (stop = i * 256 + w) as -> by (destruct Hstop as [?|?]; [done|nia]).
  unfold tile_prefix. f_equal. apply map_ext_in. intros p Hp%list_elem_of_In%elem_of_zrange.
  assert ((p + 1) * tile_width l ≤ v) by nia.
  rewrite position_hash_complete by (rewrite length_log_at by lia; done).
  f_equal. rewrite leaves_log_at. unfold zslice at 2. rewrite drop_0, Z.sub_0_r.
  rewrite <- (take_drop (Z.to_nat v) (leaves P)) at 2. symmetry.
  apply zslice_app_l; [nia|]. rewrite length_take, length_leaves. lia.
Qed.

(** ** A client of the tiles *)

(** The hashes of a level 0 tile, and the entries they are for. *)
Definition tile_client (gzip : bytes → bytes) (index_path : string) (width : option Z) :
    stM CtStorage ApiError (bytes * bytes) :=
  tile ← get_tile_handler 0 index_path width;
  data ← get_data_tile gzip index_path width;
  mret (body tile, body data).

Lemma tile_prefix_leaves i w :
  0 ≤ i → 0 ≤ w → i * 256 + w ≤ zlen P →
  tile_prefix (leaves P) 0 i w = concat (map leaf_digest (zslice (i * 256) (i * 256 + w) P)).
Proof.
  intros Hi Hw Hn. unfold tile_prefix. f_equal. change (tile_width 0) with 1.
  rewrite <- (omap_zrange P) by lia. assert (Forall (λ k, 0 ≤ k < zlen P) (zrange (i * 256) (i * 256 + w))) as Hall.
  { apply Forall_forall. intros k Hk%elem_of_zrange. lia. }
  induction Hall as [|k ks Hk Hall IH]; [done|]. cbn [map omap list_omap].
  destruct (lookup_lt_is_Some_2 P (Z.to_nat k)) as [p Hp]; [lia|]. rewrite Hp. cbn [map]. rewrite IH. f_equal.
  rewrite !Z.mul_1_r, (zslice_one _ _ {| data := p_leaf_data p |}); [done|lia|by apply leaves_lookup].
Qed.

Lemma zslice_log_at v a b : 0 ≤ a → b ≤ v → v ≤ zlen P → zslice a b (log_at v) = zslice a b P.
Proof.
  intros Ha Hb Hv. destruct (decide (v < 0)).
  { unfold zslice. replace (Z.to_nat (b - a)) with 0%nat by lia. by rewrite !take_0. }
  rewrite <- (take_drop (Z.to_nat v) P) at 1. symmetry. apply zslice_app_l; [done|].
  fold (log_at v). rewrite length_log_at; lia.
Qed.

(** ** Properties *)


Section EntryClaims.
  Context (Hash : output_size = 32%nat).
  Context (Hcf : collision_free (all_certs P)) (Hwf : Forall (λ p, entry_wf (p_log_entry p)) P).
  Context (Hmade : ∀ i p, P !! i = Some p → made (Z.of_nat i) p) (Hfits : Forall tile_entry_fits P).

Lemma slice_entries a b :
  Forall (λ p, (∃ i, made i p) ∧ entry_wf (p_log_entry p) ∧ tile_entry_fits p) (zslice a b P).
Proof.
  unfold zslice. apply Forall_take, Forall_drop, Forall_lookup. intros i p Hp. split; [by eexists; eapply Hmade|].
  split; [by eapply wf_lookup|]. by eapply (Forall_lookup_1 tile_entry_fits).
Qed.

(** C25: a client of the static API that fetches the hash tile and the data tile
    of the same entries, complete when it began, while the batch worker appends:
    the data tile is the compressed form of bytes in which the parser of the
    TileLeaf structure finds exactly these entries of the log, with timestamp,
    type, certificate, index, precertificate and chain, and the hash tile holds
    the RFC 6962 leaf hashes of the same entries. *)
Theorem tile_client_entries (gzip : bytes → bytes) path i width n s :
  parse_tile_index (DbErr := SlateDBError) path = Ok i → 0 ≤ i → i * 256 + 256 < 2 ^ 64 →
  1 ≤ default 256 width ≤ 256 → i * 256 + default 256 width ≤ n → ct_since n s →
  spec (tile_client gzip path width) s
    (λ r s', let ps := zslice (i * 256) (i * 256 + default 256 width) P in
       r.1 = concat (map leaf_digest ps) ∧
       ∃ b, r.2 = gzip b ∧ read_data_tile b = Some (map tile_entry_of ps))
    (db_answer n).
Proof.
  intros Hpath Hi Hb Hw Hn Hs. unfold tile_client. set (w := default 256 width) in *. apply spec_bind.
  eapply spec_mono; [apply (shared_tile_spec 0 path i width n s); (done || lia)|..].
  2: { intros e s' [Hs' [[_ He]|He]]; [|by split]. change (tile_width 0) with 1 in He. lia. }
  intros r s1 (Hs1 & v & Hv & Ht).
  apply (tile_served_complete 0 i w n) in Ht; [|lia|done|done|change (tile_width 0) with 1; lia|lia].
  apply spec_bind.
  eapply spec_mono; [apply (shared_data_tile_spec Hcf Hwf Hmade gzip path i width n s1); (done || lia)|..].
  2: { intros e s' [Hs' [[_ He]|He]]; [lia|by split]. }
  intros d s2 (Hs2 & v' & Hv' & _ & Hd). apply spec_ret. cbn [fst snd]. rewrite Ht, Hd, tile_prefix_leaves by lia.
  split; [done|]. eexists. split; [done|]. fold w. unfold tile_entries. rewrite zslice_log_at by lia.
  apply read_data_tile_entries; [done|]. apply slice_entries.
Qed.

Lemma page_entry_fits p : p ∈ P → page_entry_ok (page_entry_of p).
Proof.
  intros Hp. pose proof (proj1 (Forall_forall _ _) Hfits p Hp) as (Hf & _ & Hch).
  apply list_elem_of_lookup_1 in Hp as [i Hp]. pose proof (Hmade _ _ Hp) as Hm.
  pose proof (made_data _ _ Hm) as Hd. rewrite <- (made_index _ _ Hm) in Hd.
  destruct (leaf_body _ _ _ _ _ _ Hf Hd) as (e & He & Hb).
  pose proof Hf as (Hc & _ & Hty & Hi). rewrite ext_leaf_index_ok in He by done. injection He as <-.
  unfold page_entry_of. split; [|split]; cbn [timestamped_entry issuer_hashes].
  - rewrite Hb. unfold entry_bytes.
    destruct (entry_type (p_log_entry p)), (issuer_key_hash (p_log_entry p)) as [h|]; try done;
      rewrite !length_app, !length_be_bytes, length_len3; cbn; lia.
  - destruct (chain (p_log_entry p)); cbn in *; rewrite ?length_map; lia.
  - destruct (chain (p_log_entry p)) as [l|]; cbn; [|constructor]. apply Forall_map, Forall_true.
    intros c. cbn. by rewrite digest_length.
Qed.


End EntryClaims.

End SharedReads.
