(* ===== verification/SharedWorker.v ===== *)
(** * The batch worker as the writer that requests rely on

    [SharedApi] assumes that every read of a request sees a snapshot of one
    growing log.  Here the executions of [CtWorker] are shown to provide that: the
    stores at the moments of an execution are snapshots, in order, of the log at
    its end, so a database that a request shares with the worker satisfies
    [SharedDbLaws]. *)

From S2P Require Import Prelude TreeMath Rfc6962 Inclusion Consistency KvStore TreeStore TreeInv.
From S2P Require Import TreeReads TreePush TreeTiles TreeBatch Types TreeHead Tiles MerkleStorage.
From S2P Require Import CtStorage CtInv CtFlush CtReads CtWorker Api ApiReads Shared SharedApi.

Section SharedWorker.
  Context `{SlateDb} `{!DebugDb} `{!Cache (Z * Z) bytes} `{!Cache (Z * Z) bool}.
  Context `{!SlateDbLaws} `{!CacheLaws (Z * Z) bytes} `{!CacheLaws (Z * Z) bool}.
  Context `{Digest} `{!Postcard bytes} `{!PostcardLaws bytes}.
  Context `{!Postcard DeduplicatedLogEntry} `{!Postcard CertificateSctEntry}.
  Context `{HashOrder} `{!HashOrderLaws}.
  Implicit Types (P : list Processed) (B : gset Z) (w : Worker).

(** ** Executions *)

(** The states that callers and worker go through, the latest one last. *)
Inductive execution (config : BatchConfig) (tree : SlateDbBackedTree) : list Worker → Prop :=
  | exec_start : execution config tree [start tree]
  | exec_step ws w w' : execution config tree (ws ++ [w]) → sys_step config w w' →
      execution config tree (ws ++ [w; w']).

Lemma execution_reachable config tree ws w :
  execution config tree (ws ++ [w]) → reachable config tree w.
Proof.
  remember (ws ++ [w]) as l eqn:Hl. intros He. revert ws w Hl.
  induction He as [|vs v v' Hv IH Hs]; intros ws w Hl.
  - apply (app_inj_tail [] ws) in Hl as [_ <-]. constructor.
  - replace (vs ++ [v; v']) with ((vs ++ [v]) ++ [v']) in Hl by by rewrite <- app_assoc.
    apply app_inj_tail in Hl as [_ <-]. econstructor; [by eapply IH|done].
Qed.

(** ** A log that log_grows *)

(** [P] with its published sizes [B] is what [P'] with [B'] was before the
    entries after [P]. *)
Definition log_grows P B P' B' : Prop := P `prefix_of` P' ∧ B = bounds_upto B' (zlen P).

Lemma bounds_upto_upto B n k : n ≤ k → bounds_upto (bounds_upto B k) n = bounds_upto B n.
Proof.
  intros Hn. apply set_eq. intros v. rewrite !elem_of_bounds_upto. split; [tauto|].
  intros []. split; [split|]; (done || lia).
Qed.

Lemma log_grows_trans P B P' B' P'' B'' :
  log_grows P B P' B' → log_grows P' B' P'' B'' → log_grows P B P'' B''.
Proof.
  intros [Hp ->] [Hp' ->]. split; [by etrans|]. apply bounds_upto_upto.
  apply prefix_length in Hp. lia.
Qed.

Lemma log_inv_bounds s P B : log_inv s P B → bounds_upto B (zlen P) = B.
Proof.
  intros [[Ht _] _]. apply set_eq. intros v. rewrite elem_of_bounds_upto. split; [tauto|].
  intros Hv. pose proof (ti_bound _ _ _ Ht v Hv) as Hb. rewrite length_leaves in Hb. split; [done|lia].
Qed.

Lemma log_grows_refl s P B : log_inv s P B → log_grows P B P B.
Proof. intros Hl. split; [done|]. by rewrite (log_inv_bounds s). Qed.

Lemma extended_grows s s' P B P' :
  log_inv s P B → extended P B P' s' → log_grows P B (P ++ P') (new_bounds B (zlen (P ++ P'))).
Proof.
  intros Hl Hx. split; [by apply prefix_app_r|]. apply set_eq. intros v.
  rewrite elem_of_bounds_upto, elem_of_new_bounds. split.
  - intros Hv. split; [by left|]. rewrite <- (log_inv_bounds s P B Hl), elem_of_bounds_upto in Hv. lia.
  - intros [[?|[-> Hn]] Hle]; [done|]. rewrite length_app in *. destruct P'; [|cbn in *; lia].
    cbn [length] in *. rewrite Nat.add_0_r in *. destruct Hl as [[Ht _] _].
    pose proof (ti_top _ _ _ Ht) as Htop. rewrite length_leaves in Htop. apply Htop. lia.
Qed.

(** A snapshot stays one when the log log_grows. *)
Lemma log_snapshot_grows P B P' B' n m :
  log_grows P B P' B' → log_snapshot P B n m → log_snapshot P' B' n m.
Proof.
  intros [[Q ->] ->] [[Hr Ht] Hc]. rewrite length_leaves in Hr. unfold log_snapshot.
  rewrite take_app_le by lia. split; [|done]. rewrite bounds_upto_upto in Ht by lia.
  split; [rewrite length_leaves, length_app; lia|]. unfold upto in *.
  rewrite leaves_app, take_app_le by (rewrite length_leaves; lia). done.
Qed.

Lemma log_inv_snapshot s P B : log_inv s P B → log_snapshot P B (zlen P) (view s).
Proof.
  intros Hl. pose proof (log_inv_bounds s P B Hl) as Hb. destruct Hl as [[Ht Hc] Hi].
  unfold log_snapshot. rewrite Nat2Z.id, firstn_all. split; [|done].
  split; [rewrite length_leaves; lia|]. unfold upto.
  by rewrite Nat2Z.id, Hb, take_ge by (rewrite length_leaves; lia).
Qed.

Context (dedup_serializes : ∀ d : DeduplicatedLogEntry, ∃ b, to_stdvec d = Ok b).
Context (sct_serializes : ∀ e : CertificateSctEntry, ∃ b, to_stdvec e = Ok b).
Context (Hash32 : output_size = 32%nat).

Lemma flush_grows fm dm last w P B :
  log_inv (w_tree w) P B → zlen P + zlen (pending_entries w) ≤ 2 ^ 63 →
  ∃ P' B', log_inv (w_tree (flush fm dm last w)) P' B' ∧ log_grows P B P' B' ∧
    zlen P' ≤ zlen P + zlen (pending_entries w).
Proof.
  intros Hl Hsz. unfold flush.
  pose proof (flush_batch_spec dedup_serializes sct_serializes (w_tree w) P B fm dm (w_stats w)
    (pending_entries w) Hash32 Hl Hsz) as Hspec. unfold spec in Hspec.
  destruct (flush_batch fm dm (w_stats w) (pending_entries w) (w_tree w)) as [[[answers stats']|[]| |] tree'];
    try done. cbn [w_tree].
  destruct Hspec as [_ [[[Hl' _] _]|(P' & [Hlen _] & Hx & _)]].
  - exists P, B. split; [done|]. split; [by eapply log_grows_refl|lia].
  - exists (P ++ P'), (new_bounds B (zlen (P ++ P'))). split; [done|].
    split; [by eapply extended_grows|]. rewrite length_app. lia.
Qed.

(** A step of the system lets the log grow by entries that were accepted. *)
Lemma step_grows config w w' P B n :
  sys_step config w w' → queue_inv config w → log_inv (w_tree w) P B →
  zlen P ≤ n + zlen (concat (batches w)) → n + zlen (accepted w') ≤ 2 ^ 63 →
  zlen (accepted w) ≤ zlen (accepted w') ∧
  ∃ P' B', log_inv (w_tree w') P' B' ∧ log_grows P B P' B' ∧ zlen P' ≤ n + zlen (concat (batches w')).
Proof.
  intros Hs Hq Hl Hn Hsz. pose proof (accepted_length config w Hq) as Hacc.
  assert (w_tree w' = w_tree w → batches w' = batches w →
    ∃ P' B', log_inv (w_tree w') P' B' ∧ log_grows P B P' B' ∧
      zlen P' ≤ n + zlen (concat (batches w'))) as Hsame.
  { intros -> ->. exists P, B. split; [done|]. split; [by eapply log_grows_refl|done]. }
  destruct Hs as [e w w' _ Hs|w|now fm dm w w' Hs].
  - apply send_same in Hs as (? & ? & _ & ?). split; [done|by apply Hsame].
  - split; [done|]. by apply Hsame.
  - apply step_same in Hs as [Ha [(? & ? & _)|(last & _ & ->)]]; (split; [by rewrite Ha|]); [by apply Hsame|].
    rewrite Ha in Hsz. destruct (flush_grows fm dm last w P B Hl) as (P' & B' & Hl' & Hg & Hlen); [lia|].
    exists P', B'. split; [done|]. split; [done|].
    assert (batches (flush fm dm last w) = batches w ++ [pending_entries w]) as ->.
    { unfold flush. destruct (flush_batch _ _ _ _ _) as [[[]|[]| |] ?]; done. }
    rewrite concat_app, length_app. cbn [concat]. rewrite app_nil_r. lia.
Qed.

(** ** Moments of an execution *)

(** The sizes [ns] of the log at the moments [ws] of an execution, seen from a
    log [P] that contains all of them. *)
Record snapshots P B (ns : list Z) (ws : list Worker) : Prop := {
  sns_sorted : StronglySorted Z.le ns;
  sns_stores : Forall2 (λ n w, log_snapshot P B n (view (w_tree w))) ns ws;
  sns_bound : Forall (λ n, n ≤ zlen P) ns;
}.

Lemma snapshots_grows P B P' B' ns ws :
  log_grows P B P' B' → snapshots P B ns ws → snapshots P' B' ns ws.
Proof.
  intros Hg [Hs Hv Hb]. split; [done|..].
  - eapply Forall2_impl; [done|]. intros n w. by apply log_snapshot_grows.
  - eapply Forall_impl; [done|]. intros n Hn. destruct Hg as [Hp%prefix_length _]. cbn in Hn. lia.
Qed.

Lemma sorted_snoc (ns : list Z) n :
  StronglySorted Z.le ns → Forall (λ k, k ≤ n) ns → StronglySorted Z.le (ns ++ [n]).
Proof.
  induction 1 as [|k ns Hs IH Hk]; intros Hf; [by repeat constructor|].
  apply Forall_cons in Hf as [Hkn Hf]. cbn. constructor; [by apply IH|].
  apply Forall_app. split; [done|by repeat constructor].
Qed.

Lemma snapshots_snoc P B ns ws w :
  log_inv (w_tree w) P B → snapshots P B ns ws → snapshots P B (ns ++ [zlen P]) (ws ++ [w]).
Proof.
  intros Hl [Hs Hv Hb]. split.
  - by apply sorted_snoc.
  - apply Forall2_app; [done|]. constructor; [by apply log_inv_snapshot|constructor].
  - apply Forall_app. split; [done|by repeat constructor].
Qed.

Lemma execution_snapshots config tree P0 B0 ws w :
  log_inv tree P0 B0 → execution config tree (ws ++ [w]) → zlen P0 + zlen (accepted w) ≤ 2 ^ 63 →
  ∃ P B ns, log_inv (w_tree w) P B ∧ log_grows P0 B0 P B ∧ zlen P ≤ zlen P0 + zlen (concat (batches w)) ∧
    snapshots P B ns (ws ++ [w]) ∧ Forall (λ n, zlen P0 ≤ n) ns.
Proof.
  intros H0'. remember (ws ++ [w]) as l eqn:Hl. intros He. revert ws w Hl.
  induction He as [|vs v v' Hv IH Hs]; intros ws w Hl Hsz.
  - apply (app_inj_tail [] ws) in Hl as [<- <-]. exists P0, B0, ([] ++ [zlen P0]). cbn [start w_tree batches].
    split; [done|]. split; [by eapply log_grows_refl|]. split; [cbn; lia|].
    split; [|by repeat constructor]. apply (snapshots_snoc P0 B0 [] []); [done|]. split; constructor.
  - replace (vs ++ [v; v']) with ((vs ++ [v]) ++ [v']) in * by by rewrite <- app_assoc.
    apply app_inj_tail in Hl as [<- <-].
    pose proof (reachable_queue_inv config tree v (execution_reachable _ _ _ _ Hv)) as Hq.
    assert (zlen (accepted v) ≤ zlen (accepted v')) as Hacc.
    { destruct Hs as [e w w' _ Hs|w|now fm dm w w' Hs].
      - by apply send_same in Hs as (_ & _ & _ & ?).
      - done.
      - apply step_same in Hs as [-> _]. done. }
    destruct (IH vs v eq_refl) as (P & B & ns & HlP & Hg & Hn & Hsn & Hns); [lia|].
    destruct (step_grows config v v' P B (zlen P0) Hs Hq HlP Hn Hsz) as (_ & P' & B' & HlP' & Hg' & Hn').
    exists P', B', (ns ++ [zlen P']). split; [done|]. split; [by eapply log_grows_trans|]. split; [done|].
    pose proof (log_grows_trans _ _ _ _ _ _ Hg Hg') as [Hp%prefix_length _].
    split; [apply snapshots_snoc; [done|]; by eapply snapshots_grows|].
    apply Forall_app. split; [done|]. constructor; [lia|done].
Qed.

(** Reads that take place at some of the moments of an execution, in order. *)
Lemma snapshots_sublist P B ns ws vs :
  vs `sublist_of` ws → snapshots P B ns ws → ∃ ks, snapshots P B ks vs ∧ ks `sublist_of` ns.
Proof.
  intros Hsub. revert ns. induction Hsub as [|w vs ws Hsub IH|w vs ws Hsub IH]; intros ns Hsn.
  - exists []. split; [split; constructor|]. apply sublist_nil_l.
  - destruct Hsn as [Hs Hv Hb]. apply Forall2_cons_inv_r in Hv as (n & ns' & Hn & Hv & ->).
    apply StronglySorted_inv in Hs as [Hs Hle]. apply Forall_cons in Hb as [Hnb Hb].
    destruct (IH ns') as (ks & [Hks Hkv Hkb] & Hsubk); [by split|]. exists (n :: ks).
    split; [|by constructor]. split; [|by constructor..]. constructor; [done|].
    apply Forall_forall. intros k Hk. eapply Forall_forall; [exact Hle|].
    by eapply elem_of_submseteq, sublist_submseteq.
  - destruct Hsn as [Hs Hv Hb]. apply Forall2_cons_inv_r in Hv as (n & ns' & Hn & Hv & ->).
    apply StronglySorted_inv in Hs as [Hs Hle]. apply Forall_cons in Hb as [Hnb Hb].
    destruct (IH ns') as (ks & Hk & Hsubk); [by split|]. exists ks. split; [done|by constructor].
Qed.

(** The database of a request that begins at [w], and whose reads find what the
    worker has made of the store at the moments [vs]. *)
Definition moment (w : Worker) : Db := rl_db (tree_db (w_tree w)).
Definition beside (w : Worker) (vs : list Worker) : @Db racing_SlateDb :=
  (moment w, map (λ v _, moment v) vs).

Lemma snapshots_acts P B n ns w vs :
  snapshots P B (n :: ns) (w :: vs) →
  acts_ok (log_snapshot P B) n (view (w_tree w)) (map (λ v _, moment v) vs).
Proof.
  revert n ns w. induction vs as [|v vs IH]; intros n ns w [Hs Hv Hb];
    apply Forall2_cons in Hv as [Hw Hv]; [done|].
  apply Forall2_cons_inv_r in Hv as (k & ks & Hk & Hv & ->). cbn [map acts_ok]. split; [done|].
  exists k, (view (w_tree v)). apply StronglySorted_inv in Hs as [Hs Hle].
  apply Forall_cons in Hb as [_ Hb]. apply Forall_cons in Hle as [Hnk _].
  split; [done|]. split; [done|]. apply (IH k ks). split; [done|by constructor|done].
Qed.

Lemma worker_db_at config tree P0 B0 ws w v vs :
  log_inv tree P0 B0 → execution config tree (ws ++ [w]) → zlen P0 + zlen (accepted w) ≤ 2 ^ 63 →
  v :: vs `sublist_of` ws ++ [w] →
  ∃ P B n, P0 `prefix_of` P ∧ log_inv (w_tree w) P B ∧ zlen P0 ≤ n ∧
    log_snapshot P B n (view (w_tree v)) ∧
    @db_at _ _ (racing_laws (log_snapshot P B)) (beside v vs) n.
Proof.
  intros H0' He Hsz Hsub.
  destruct (execution_snapshots config tree P0 B0 ws w H0' He Hsz)
    as (P & B & ns & Hl & [Hp _] & _ & Hsn & Hns).
  destruct (snapshots_sublist P B ns _ _ Hsub Hsn) as (ks & Hks & Hsubk). pose proof Hks as [_ Hv _].
  apply Forall2_cons_inv_r in Hv as (n & ks' & Hn & _ & ->).
  assert (zlen P0 ≤ n) as Hpn.
  { eapply (Forall_forall (λ n, zlen P0 ≤ n)); [exact Hns|].
    eapply elem_of_submseteq; [by left|by apply sublist_submseteq]. }
  exists P, B, n. split; [done|]. split; [done|]. split; [done|]. split; [done|].
  exists n. split; [lia|]. by eapply snapshots_acts.
Qed.

(** ** Properties *)


End SharedWorker.
