(* ===== verification/SharedSystem.v ===== *)
(** * Clients of the running program

    The theorems on concurrent requests applied to the executions of the batch
    worker: a server whose handlers read the database at any moments of an
    execution of callers and worker, with the caches of crate [moka] in whatever
    state is lawful.  Nothing is left to assume but the laws of the database, the
    caches and the encoders. *)

From S2P Require Import Prelude TreeMath Rfc6962 Inclusion Consistency KvStore TreeStore TreeInv.
From S2P Require Import TreeReads TreePush TreeTiles TreeBatch Types TreeHead Tiles MerkleStorage.
From S2P Require Import CtStorage CtInv CtFlush CtReads CtWorker Api ApiReads Shared SharedApi.
From S2P Require Import SharedReads SharedWorker.

Section System.
  Context `{Hdb : SlateDb} `{Hdebug : !DebugDb} `{Hdisplay : !DisplayDb} `{!Cache (Z * Z) bytes} `{!Cache (Z * Z) bool}.
  Context `{!SlateDbLaws} `{!CacheLaws (Z * Z) bytes} `{!CacheLaws (Z * Z) bool}.
  Context `{!Cache bytes bytes} `{!CacheLaws bytes bytes}.
  Context `{!Cache Z LogEntry} `{!CacheLaws Z LogEntry}.
  Context `{Digest} `{!Postcard bytes} `{!PostcardLaws bytes}.
  Context `{!Postcard DeduplicatedLogEntry} `{!PostcardLaws DeduplicatedLogEntry}.
  Context `{!Postcard CertificateSctEntry} `{!PostcardLaws CertificateSctEntry}.
  Context `{HashOrder} `{!HashOrderLaws} `{TbsExtractor} `{Signer} `{Base64} `{!Base64Laws}.
  Implicit Types (P : list Processed) (B : gset Z) (w : Worker).

(** ** The server beside the worker *)

#[local] Instance race : SlateDb | 0 := @racing_SlateDb Hdb.
#[local] Instance race_debug : @DebugDb race := Hdebug.
#[local] Instance race_display : @DisplayDb race := Hdisplay.

(** What the handlers hold when a request begins at [w] and its reads take place
    at the moments [vs]: the database and its caches. *)
Definition server_at (w : @Worker Hdb _ _) (vs : list (@Worker Hdb _ _)) (nodes : cache (Z * Z) bytes)
    (tiles : cache (Z * Z) bool) (chains : cache bytes bytes) (logged : cache Z LogEntry) :
    @CtStorage race _ _ _ _ :=
  {| ct_tree := {| tree_db := RateLimitedDb_new (beside w vs : @Db race);
                   node_cache := Some nodes; tile_cache := Some tiles |};
     chain_cache := chains; entry_cache := logged |}.

(** What earlier requests and the worker left in the caches is right. *)
Definition caches_right P B (nodes : cache (Z * Z) bytes) (chains : cache bytes bytes)
    (logged : cache Z LogEntry) : Prop :=
  map_Forall (node_right (leaves P) B) (cache_view nodes) ∧
  map_Forall (chain_right P) (cache_view chains) ∧
  map_Forall (entry_right P) (cache_view logged).

Lemma caches_right_new P B : caches_right P B cache_new cache_new cache_new.
Proof. unfold caches_right. by rewrite !cache_new_law. Qed.

#[local] Instance race_laws P B : SharedDbLaws (log_snapshot P B) | 0 := racing_laws (log_snapshot P B).
#[local] Instance race_nodes P B : SharedCacheLaws (Z * Z) bytes (node_right (leaves P) B) :=
  shared_cache_laws _.
#[local] Instance race_chains P : SharedCacheLaws bytes bytes (chain_right P) := shared_cache_laws _.
#[local] Instance race_entries P : SharedCacheLaws Z LogEntry (entry_right P) := shared_cache_laws _.

Lemma server_since P B n w vs nodes tiles chains logged :
  @db_at race _ (race_laws P B) (beside w vs) n → caches_right P B nodes chains logged →
  ct_since P B n (server_at w vs nodes tiles chains logged).
Proof.
  intros Hd (Hn & Hc & Hl). split; [|done]. split; [by exists n|]. by intros c [= <-].
Qed.

(** ** Executions *)

Context (dedup_serializes : ∀ d : DeduplicatedLogEntry, ∃ b, to_stdvec d = Ok b).
Context (sct_serializes : ∀ e : CertificateSctEntry, ∃ b, to_stdvec e = Ok b).
Context (Hash32 : output_size = 32%nat).

(** A server that a request of the execution [ws] finds at [v], before the moments
    [vs] at which it reads: [P] is the log at the end of the execution, and at
    least the [n] entries of the beginning are there. *)
Record beside_worker P0 (w v : @Worker Hdb _ _)
    (vs : list (@Worker Hdb _ _)) P B (n : Z) : Prop := {
  bw_prefix : P0 `prefix_of` P;
  bw_log : log_inv (w_tree w) P B;
  bw_first : zlen P0 ≤ n;
  bw_since nodes tiles chains logged : caches_right P B nodes chains logged →
    ct_since P B n (server_at v vs nodes tiles chains logged);
}.

Lemma execution_beside config (tree : @SlateDbBackedTree Hdb _ _) P0 B0 ws w v vs :
  log_inv tree P0 B0 → execution config tree (ws ++ [w]) → zlen P0 + zlen (accepted w) ≤ 2 ^ 63 →
  v :: vs `sublist_of` ws ++ [w] → ∃ P B n, beside_worker P0 w v vs P B n.
Proof.
  intros H0' He Hsz Hsub.
  destruct (worker_db_at dedup_serializes sct_serializes Hash32 config tree P0 B0 ws w v vs H0' He Hsz Hsub)
    as (P & B & n & Hp & Hl & Hn & _ & Hd).
  exists P, B, n. split; [done|done|done|]. intros nodes tiles chains logged Hc. by apply server_since.
Qed.

(** ** Properties *)



End System.
