(* ===== verification/Submit.v ===== *)
(** * Submissions

    [add_chain] and [add_pre_chain] of src/src/api/handlers.rs, with the parts of
    src/src/types/mod.rs and src/src/validation/issuer_key_hash.rs they use, and
    the handlers that read the validator.  What the handlers need of the batching
    storage is the class [Batcher]. *)

From S2P Require Import Prelude TreeMath Rfc6962 Inclusion Consistency KvStore TreeStore TreeInv.
From S2P Require Import TreeReads TreePush TreeTiles TreeBatch Types TreeHead Tiles MerkleStorage.
From S2P Require Import CtStorage CtInv CtFlush CtReads CtWorker Api ApiReads.
From S2P Require Import X509 TbsExtraction Validator.

(** ** The extraction, as the storage sees it *)

#[global] Instance tbs_extractor `{SlateDb} `{!DisplayDb} `{X509} : TbsExtractor :=
  λ precert_der chain,
    map_err display_ct_error
      (Extractor.extract_tbs_certificate (DbErr := SlateDBError) precert_der chain).

(** ** The state of the server *)

(** The storage, and the validator behind its lock. *)
Record Server `{SlateDb} `{!Cache (Z * Z) bytes} `{!Cache (Z * Z) bool} `{!Cache bytes bytes}
    `{!Cache Z LogEntry} `{X509Types} `{OpenSsl} `{!Cache bytes OsslX509} := {
  storage : CtStorage;
  validator : option Rfc6962Validator;
}.

(** ** The interface of the storage *)

(** [CtStorage::add_entry_batched]. *)
Class Batcher `{SlateDb} `{!Cache (Z * Z) bytes} `{!Cache (Z * Z) bool} `{!Cache bytes bytes}
    `{!Cache Z LogEntry} :=
  add_entry_batched : BatchEntry → stM CtStorage (StorageError SlateDBError)
                                       (Z * SignedCertificateTimestamp).

(** What a submission is promised: the log may grow, by this entry and by those
    of other callers; the answer, if it is not an error, is true and about a new
    entry. *)
Class BatcherLaws `{SlateDb} `{!DebugDb} `{!Cache (Z * Z) bytes} `{!Cache (Z * Z) bool}
    `{!SlateDbLaws} `{!CacheLaws (Z * Z) bytes} `{!CacheLaws (Z * Z) bool}
    `{!Cache bytes bytes} `{!CacheLaws bytes bytes} `{!Cache Z LogEntry} `{!CacheLaws Z LogEntry}
    `{Digest} `{!Postcard bytes} `{!Postcard DeduplicatedLogEntry}
    `{!Postcard CertificateSctEntry} {batcher : Batcher} :=
  add_entry_law e s P B :
    storage_inv s P B → zlen P < 2 ^ 63 →
    spec (add_entry_batched e) s
      (λ r s', ∃ P' B', storage_inv s' (P ++ P') B' ∧ zlen P ≤ r.1 ∧
         answer_true (P ++ P') (e, Some (inr r)))
      (λ _ s', ∃ P' B', storage_inv s' (P ++ P') B').

Section Submit.
  Context `{SlateDb} `{!DebugDb} `{!DisplayDb} `{!Cache (Z * Z) bytes} `{!Cache (Z * Z) bool}.
  Context `{!Cache bytes bytes} `{!Cache Z LogEntry}.
  Context `{Digest} `{!Postcard bytes} `{!Postcard DeduplicatedLogEntry}.
  Context `{!Postcard CertificateSctEntry} `{Signer} `{Base64} `{X509} `{OpenSsl}.
  Context `{!Cache bytes OsslX509} `{TimeFormat} `{!Batcher}.
  Abbreviation SErr := (StorageError SlateDBError).
  Abbreviation CErr := (CtError SlateDBError).
  Abbreviation M := (stM Server ApiError).
  Implicit Types state : ApiState.

(** A call on the storage. *)
Definition on_server {A} (m : stM CtStorage ApiError A) : M A := λ s,
  let (r, t) := m (storage s) in (r, {| storage := t; validator := validator s |}).

(** [LogEntry::is_precertificate]. *)
Definition is_precertificate (certificate_der : bytes) : res CErr bool :=
  cert ← map_err (λ e, InvalidCertificate ("Failed to parse certificate: " +:+ e))
           (from_der certificate_der);
  mret (match cert_extensions (tbs_certificate cert) with
        | Some extensions =>
            existsb (λ ext, bool_decide (extn_id ext = CT_POISON_EXTENSION_OID)) extensions
        | None => false
        end).

(** The search of an extension by its identifier. *)
Definition find_extension (oid : string) (cert : X509Certificate) : option X509Extension :=
  exts ← cert_extensions (tbs_certificate cert); List.find (λ ext, bool_decide (extn_id ext = oid)) exts.

Definition is_signing_cert (cert : X509Certificate) : bool :=
  match (ext ← find_extension EXTENDED_KEY_USAGE_OID cert; eku_from_der (extn_value ext)) with
  | Some usages => existsb (λ usage, bool_decide (usage = CT_EKU_OID)) usages
  | None => false
  end.

Definition parse_cert (b : bytes) : res CErr X509Certificate :=
  map_err (λ e, BadRequest ("Failed to parse certificate: " +:+ e)) (from_der b).

Definition extract_issuer_key_hash_minimal (chain : list bytes) : res CErr bytes :=
  match chain with
  | [] => Err (BadRequest "Certificate chain is empty")
  | c0 :: rest =>
      first_cert ← parse_cert c0;
      if bool_decide (find_extension CT_POISON_EXTENSION_OID first_cert = None) then
        Err (BadRequest "Can only extract issuer key hash for precertificate chains")
      else
        real_issuer_index ←
          match rest with
          | c1 :: _ =>
              second_cert ← parse_cert c1;
              if is_signing_cert second_cert then
                if (length chain <? 3)%nat then
                  Err (BadRequest
                    "Precertificate with signing certificate requires issuer certificate")
                else Ok 2%nat
              else Ok 1%nat
          | [] => Err (BadRequest "Precertificate chain must include issuer certificate")
          end;
        issuer_der ← ok_or (chain !! real_issuer_index)
                       (BadRequest "Missing issuer certificate in chain");
        real_issuer ← map_err (λ e, BadRequest ("Failed to parse issuer certificate: " +:+ e))
                        (from_der issuer_der);
        spki_der ← map_err (λ e, Internal ("Failed to encode SPKI: " +:+ e))
                     (spki_to_der (subject_public_key_info (tbs_certificate real_issuer)));
        mret (digest spki_der)
  end.

(** ** Responses *)

Record AddChainResponse := {
  sct_version : Z;
  resp_id : string;
  sct_response_timestamp : Z;
  resp_extensions : string;
  resp_signature : string;
}.

Definition sct_response (sct : SignedCertificateTimestamp) : AddChainResponse :=
  {| sct_version := sct_version_code (version sct); resp_id := b64_encode (log_id sct);
     sct_response_timestamp := sct_timestamp sct; resp_extensions := b64_encode (extensions sct);
     resp_signature := b64_encode (signature sct) |}.

(** The random delay of a full queue is left out. *)
Definition handle_storage_error (e : SErr) : ApiError :=
  match e with
  | QueueFull => (SERVICE_UNAVAILABLE, "Service temporarily unavailable - system at capacity")
  | _ => internal_storage e
  end.

(** ** The handlers *)

Definition bad_request {A} (s : string) : res ApiError A := Err (BAD_REQUEST, s).

Definition decode_chain (chain : list string) : res ApiError (list bytes) :=
  map_err (λ _, (BAD_REQUEST, "Invalid base64 in certificate chain")) (mapM b64_decode chain).

(** The certificates after the first, each of which must parse. *)
Definition process_chain (rest : list bytes) : res ApiError (list bytes) :=
  mapM (λ c, _ ← map_err (λ e, (BAD_REQUEST, "Invalid X.509 certificate in chain " +:+ e))
                   (from_der c);
             mret c) rest.

Definition validate (chain : list bytes) : M unit := λ s,
  match validator s with
  | Some v =>
      let (r, v') := validate_chain (DbErr := SlateDBError) chain v in
      (map_err (λ e, (BAD_REQUEST, "Certificate validation failed: " +:+ display_ct_error e)) r,
       {| storage := storage s; validator := Some v' |})
  | None => (Ok tt, s)
  end.

Definition nonempty_chain (chain : list bytes) : option (list bytes) :=
  match chain with [] => None | _ => Some chain end.

(** The closures given to [add_entry_batched]: [expect] panics on an error. *)
Definition sct_closure state (certificate : bytes) (entry_type : LogEntryType)
    (issuer_key_hash : option bytes) (timestamp_ms : Z) (index : Z) :
    res Empty_set SignedCertificateTimestamp :=
  match create_sct_with_timestamp_and_index (DbErr := SlateDBError) (sct_builder state)
          certificate entry_type issuer_key_hash timestamp_ms (Some index) with
  | Ok sct => Ok sct
  | Err _ | Panic => Panic
  | Fuel => Fuel
  end.

Definition submit (entry : BatchEntry) : M AddChainResponse :=
  '(_, sct) ← on_server (on_storage handle_storage_error (add_entry_batched entry));
  mret (sct_response sct).

(** [add_chain] up to the submission: the response of an earlier submission, or
    the entry. *)
Definition prepare_chain state (now : Z) (request : list string) :
    M (AddChainResponse + BatchEntry) :=
  match request with
  | [] => fail (BAD_REQUEST, "Chain cannot be empty")
  | _ =>
      chain ← lift (decode_chain request);
      cert_der ← lift (expect (head chain));
      lift (map_err (λ e, (BAD_REQUEST, "Invalid certificate format: Failed to parse certificate: "
                                        +:+ e)) (from_der cert_der));;
      validate chain;;
      let cert_hash := digest cert_der in
      existing ← on_server (on_storage internal_storage (get_sct_by_cert_hash cert_hash));
      match existing with
      | Some e => mret (inl (sct_response (se_sct e)))
      | None =>
          is_precert ← lift (map_err (λ e, (BAD_REQUEST, display_ct_error e))
                               (is_precertificate cert_der));
          if is_precert : bool then
            fail (BAD_REQUEST, "Pre-certificates should be submitted to /ct/v1/add-pre-chain")
          else
            processed_chain ← lift (process_chain (tail chain));
            log_entry ← lift (new_with_timestamp 0 cert_der (nonempty_chain processed_chain) now);
            mret (inr {| log_entry := log_entry; cert_hash := cert_hash;
                         sct_callback := sct_closure state cert_der X509Entry None (u64 now) |})
      end
  end.

Definition add_chain state (now : Z) (request : list string) : M AddChainResponse :=
  r ← prepare_chain state now request;
  match r with inl response => mret response | inr entry => submit entry end.

Definition issuer_key_hash_of (complete_chain : list bytes) : M bytes :=
  v ← gets validator;
  lift match v with
       | Some v => map_err (λ e, (BAD_REQUEST, display_ct_error e))
                     (extract_issuer_key_hash (DbErr := SlateDBError) v complete_chain)
       | None => map_err (λ e, (BAD_REQUEST, display_ct_error e))
                   (extract_issuer_key_hash_minimal complete_chain)
       end.

Definition prepare_pre_chain state (now : Z) (request : list string) :
    M (AddChainResponse + BatchEntry) :=
  match request with
  | [] => fail (BAD_REQUEST, "Chain cannot be empty")
  | _ =>
      chain ← lift (decode_chain request);
      precert_der ← lift (expect (head chain));
      is_precert ← lift (map_err (λ e, (BAD_REQUEST, display_ct_error e))
                           (is_precertificate precert_der));
      if negb is_precert then
        fail (BAD_REQUEST, "Certificate is not a pre-certificate (missing poison extension)")
      else
        processed_chain ← lift (process_chain (tail chain));
        let complete_chain := precert_der :: processed_chain in
        validate complete_chain;;
        issuer_key_hash ← issuer_key_hash_of complete_chain;
        tbs_certificate ← lift (map_err (λ e, (BAD_REQUEST, e))
                                  (extract_tbs_certificate precert_der processed_chain));
        let cert_hash := digest (tbs_certificate ++ issuer_key_hash) in
        existing ← on_server (on_storage internal_storage (get_sct_by_cert_hash cert_hash));
        match existing with
        | Some e => mret (inl (sct_response (se_sct e)))
        | None =>
            log_entry ← lift (new_precert_with_timestamp 0 tbs_certificate
                                (nonempty_chain processed_chain) issuer_key_hash precert_der now);
            mret (inr {| log_entry := log_entry; cert_hash := cert_hash;
                         sct_callback := sct_closure state tbs_certificate PrecertEntry
                                           (Some issuer_key_hash) (u64 now) |})
        end
  end.

Definition add_pre_chain state (now : Z) (request : list string) : M AddChainResponse :=
  r ← prepare_pre_chain state now request;
  match r with inl response => mret response | inr entry => submit entry end.

(** ** [get-roots], [inclusion_request.json] *)

Definition get_roots : M (list string) :=
  v ← gets validator;
  lift match v with
       | Some v =>
           root_certs ← map_err internal_ct (get_accepted_roots v);
           mret (map b64_encode root_certs)
       | None => Ok []
       end.

Record InclusionRequestResponse := {
  ir_key : string;
  ir_log_id : string;
  ir_mmd : Z;
  ir_start_inclusive : string;
  ir_end_exclusive : string;
  ir_url : string;
}.

(** [to_rfc3339] is a method of crate [chrono]. *)
Definition inclusion_request (to_rfc3339 : Z → string) state (v : option Rfc6962Validator) :
    InclusionRequestResponse :=
  let '(start_inclusive, end_exclusive) :=
    match v with
    | Some v =>
        match temporal_window (config v) with
        | Some window => (to_rfc3339 (window_start window), to_rfc3339 (window_end window))
        | None => ("2000-01-01T00:00:00Z", "2100-01-01T00:00:00Z")
        end
    | None => ("2000-01-01T00:00:00Z", "2100-01-01T00:00:00Z")
    end in
  {| ir_key := b64_encode (public_key_der state); ir_log_id := b64_encode (api_log_id state);
     ir_mmd := 0; ir_start_inclusive := start_inclusive; ir_end_exclusive := end_exclusive;
     ir_url := base_url state |}.

End Submit.
