(* ===== verification/SubmitProofs.v ===== *)
(** * What a submission gets

    The SCT that [add_chain] and [add_pre_chain] answer with is that of an entry
    of the log for the submitted certificate; a certificate that is already
    logged gets the SCT it had and does not grow the log.  The theorems are
    proved against [Batcher]; the worker of [CtWorker] is an instance of it. *)

From S2P Require Import Prelude TreeMath Rfc6962 Inclusion Consistency KvStore TreeStore TreeInv.
From S2P Require Import TreeReads TreePush TreeTiles TreeBatch Types TreeHead Tiles MerkleStorage.
From S2P Require Import CtStorage CtInv CtFlush CtReads CtWorker Api ApiReads.
From S2P Require Import X509 TbsExtraction Validator ValidatorProofs Submit.

Lemma spec_lift_total {S E A C} (r : res E A) (k : A → stM S E C) s Q R :
  total r → (∀ a, r = Ok a → spec (k a) s Q R) → (∀ e, R e s) → spec (lift r ≫= k) s Q R.
Proof. intros Ht Hk HR. apply spec_bind. unfold spec at 1, lift. destruct r; try done; auto. Qed.

Section Proofs.
  Context `{SlateDb} `{!DebugDb} `{!DisplayDb} `{!Cache (Z * Z) bytes} `{!Cache (Z * Z) bool}.
  Context `{!SlateDbLaws} `{!CacheLaws (Z * Z) bytes} `{!CacheLaws (Z * Z) bool}.
  Context `{!Cache bytes bytes} `{!CacheLaws bytes bytes}.
  Context `{!Cache Z LogEntry} `{!CacheLaws Z LogEntry}.
  Context `{Digest} `{!Postcard bytes} `{!PostcardLaws bytes}.
  Context `{!Postcard DeduplicatedLogEntry} `{!PostcardLaws DeduplicatedLogEntry}.
  Context `{!Postcard CertificateSctEntry} `{!PostcardLaws CertificateSctEntry}.
  Context `{Signer} `{Base64} `{!Base64Laws} `{X509} `{!X509Laws} `{OpenSsl} `{!OpenSslLaws}.
  Context `{!Cache bytes OsslX509} `{!CacheLaws bytes OsslX509} `{TimeFormat}.
  Implicit Types (P : list Processed) (B : gset Z) (m : gmap bytes bytes) (state : ApiState).
  (** The encodings of certificates that occur: the digest tells them apart. *)
  Context (D : bytes → Prop) (D_inj : ∀ b b', D b → D b' → digest b = digest b' → b = b').

(** ** The parts of a request *)

Lemma decode_chain_total l : total (decode_chain l).
Proof. apply total_map_err, total_mapM. intros x _. apply b64_total. Qed.

Lemma decode_chain_head (s0 : string) l chain :
  decode_chain (s0 :: l) = Ok chain → ∃ c0 rest, chain = c0 :: rest ∧ b64_decode s0 = Ok c0.
Proof.
  unfold decode_chain. cbn [mapM]. destruct (b64_decode s0) as [c0| | |]; try done.
  rewrite bind_Ok. destruct (mapM b64_decode l) as [cs| | |]; try done. cbn. intros [= <-]. eauto.
Qed.

Lemma decode_chain_length l chain : decode_chain l = Ok chain → length l = length chain.
Proof. intros Hm%map_err_Ok_inv%mapM_Forall2. by eapply Forall2_length. Qed.

Lemma process_chain_total l : total (process_chain l).
Proof. apply total_mapM. intros c _. apply total_bind; [auto with ct|done]. Qed.

Lemma process_chain_id l l' : process_chain l = Ok l' → l' = l.
Proof.
  intros Hm%mapM_Forall2. induction Hm as [|c c' l l' (? & _ & [= ->])%bind_Ok_inv _ IH]; congruence.
Qed.

Lemma is_precert_total c : total (is_precertificate c).
Proof. apply total_bind; [auto with ct|done]. Qed.

Lemma minimal_total chain : total (extract_issuer_key_hash_minimal chain).
Proof.
  unfold extract_issuer_key_hash_minimal. destruct chain as [|c0 rest]; [done|].
  unfold parse_cert. apply total_bind; [auto with ct|intros c _]. case_bool_decide; [done|].
  apply total_bind.
  - destruct rest as [|c1 rest]; [done|].
    apply total_bind; [auto with ct|intros c' _]. destruct (is_signing_cert c'); [|done].
    by destruct (_ <? _)%nat.
  - intros k _. apply total_bind; [by destruct (_ !! k)|intros d _].
    apply total_bind; [auto with ct|intros i _]. apply total_bind; [auto with ct|done].
Qed.

(** The issuer behind a precertificate for a log without a validator: it goes
    by the extended key usage alone. *)
Inductive nominal_ca : list bytes → X509Certificate → Prop :=
  | nominal_direct c rest cert :
      from_der c = Ok cert → is_signing_cert cert = false → nominal_ca (c :: rest) cert
  | nominal_signing c r rest cert real :
      from_der c = Ok cert → is_signing_cert cert = true → from_der r = Ok real →
      nominal_ca (c :: r :: rest) real.

(** The hash is given exactly for a precertificate with such an issuer. *)
Lemma minimal_hash p rest h :
  extract_issuer_key_hash_minimal (p :: rest) = Ok h ↔
  ∃ leaf real spki, from_der p = Ok leaf ∧ find_extension CT_POISON_EXTENSION_OID leaf ≠ None ∧
    nominal_ca rest real ∧ spki_to_der (subject_public_key_info (tbs_certificate real)) = Ok spki ∧
    h = digest spki.
Proof.
  unfold extract_issuer_key_hash_minimal, parse_cert. split.
  - intros (leaf & Hleaf%map_err_Ok_inv & Hh)%bind_Ok_inv. case_bool_decide as Hp; [done|].
    apply bind_Ok_inv in Hh as (k & Hk & (d & Hd & (real & Hr%map_err_Ok_inv &
      (spki & Hs%map_err_Ok_inv & [= <-])%bind_Ok_inv)%bind_Ok_inv)%bind_Ok_inv).
    exists leaf, real, spki. split_and!; try done.
    destruct rest as [|c1 rest]; [done|]. apply bind_Ok_inv in Hk as (c & Hc%map_err_Ok_inv & Hk).
    destruct (is_signing_cert c) eqn:Hsc; [destruct rest as [|c2 rest]; [done|]|]; injection Hk as <-;
      injection Hd as <-; [by econstructor|]. assert (real = c) as -> by congruence. by constructor.
  - intros (leaf & real & spki & Hleaf & Hp & Hca & Hs & ->). rewrite Hleaf. cbn [map_err]. rewrite bind_Ok.
    rewrite bool_decide_eq_false_2 by done.
    destruct Hca as [c rest cert Hc Hsc|c r rest cert real Hc Hsc Hr]; rewrite Hc; cbn [map_err];
      rewrite bind_Ok, Hsc; cbn; [rewrite Hc|rewrite Hr]; cbn; by rewrite Hs.
Qed.

(** ** The validator of the server *)

Definition vinv (o : option Rfc6962Validator) : Prop :=
  match o with Some v => validator_inv (DbErr := SlateDBError) D v | None => True end.
(** Only the cache of the validator differs. *)
Definition vsame (o o' : option Rfc6962Validator) : Prop :=
  match o, o' with
  | Some v, Some v' => same_validator D v v'
  | None, None => True
  | _, _ => False
  end.
(** The chain is one that the validator accepts, where there is one. *)
Definition vetted (o : option Rfc6962Validator) (chain : list bytes) : Prop :=
  match o with
  | Some v => ∃ certs, chain_accepted (DbErr := SlateDBError) (config v) (trusted_roots v) chain certs
  | None => True
  end.

Lemma vinv_same o o' : vinv o → vsame o o' → vinv o'.
Proof.
  destruct o as [v|], o' as [v'|]; cbn; try done. apply same_validator_inv.
Qed.

(** The storage and the validator that a request has not changed, but for the
    caches. *)
Definition server_kept P B m (o : option Rfc6962Validator) s : Prop :=
  kept P B m (storage s) ∧ vsame o (validator s).

Lemma on_server_spec {A} (c : stM CtStorage ApiError A) s (Q : A → Server → Prop) R :
  spec c (storage s) (λ a t, Q a {| storage := t; validator := validator s |})
    (λ e t, R e {| storage := t; validator := validator s |}) → spec (on_server c) s Q R.
Proof. unfold spec, on_server. by destruct (c (storage s)) as [[]]. Qed.

Lemma validate_spec chain P B m o s :
  vinv o → chain_domain D chain → server_kept P B m o s →
  spec (validate chain) s (λ _ s', server_kept P B m o s' ∧ vetted o chain)
    (λ _ s', server_kept P B m o s').
Proof.
  intros Ho Hd [Hk Hv]. unfold spec, validate.
  destruct o as [v0|], (validator s) as [v|] eqn:Hs; try done.
  2: { split; [|done]. split; [done|]. by rewrite Hs. }
  pose proof (vinv_same (Some v0) (Some v) Ho Hv) as Hi. destruct Hv as (Hc & Hr & Hh & _).
  destruct (validate_chain_outcome D D_inj v chain Hi Hd) as [Hsame Hres].
  destruct (validate_chain chain v) as [r v'] eqn:Hrun. cbn in Hsame, Hres.
  assert (same_validator D v0 v') as Hv' by (destruct Hsame as (? & ? & ? & ?); unfold same_validator; split_and!; congruence || done).
  destruct r as [u|e| |]; try done; cbn.
  split; [done|]. rewrite <- Hc, <- Hr. done.
Qed.

(** The hash is that of the key of the certificate authority of the chain
    [rest], which without a validator goes by the extended key usage. *)
Definition hash_of_issuer (o : option Rfc6962Validator) (rest : list bytes) (h : bytes) : Prop :=
  ∃ real spki, match o with Some _ => issuing_ca rest real | None => nominal_ca rest real end ∧
    spki_to_der (subject_public_key_info (tbs_certificate real)) = Ok spki ∧ h = digest spki.
(** Where there is a validator, a chain of one precertificate is not handled. *)
Definition has_issuer {A} (o : option Rfc6962Validator) (request : list A) : Prop :=
  match o with Some _ => (2 ≤ length request)%nat | None => True end.

Lemma issuer_key_hash_spec p rest P B m o s :
  output_size = 32%nat → server_kept P B m o s → has_issuer o (p :: rest) →
  spec (issuer_key_hash_of (p :: rest)) s
    (λ h s', s' = s ∧ length h = 32%nat ∧ hash_of_issuer o rest h) (λ _ s', s' = s).
Proof.
  intros Hash [_ Hv] Hl. unfold issuer_key_hash_of. apply spec_bind, spec_gets. unfold spec, lift.
  destruct o as [v0|], (validator s) as [v|]; try done.
  - pose proof (issuer_key_hash_outcome (DbErr := SlateDBError) v p rest) as Ho.
    destruct (extract_issuer_key_hash v (p :: rest)) as [h|e| |]; try done; cbn.
    + destruct Ho as (real & spki & Hca & Hsp & -> & _). split; [done|].
      split; [by rewrite digest_length|]. by exists real, spki.
    + destruct Ho as [-> _]. cbn in Hl. lia.
  - pose proof (minimal_total (p :: rest)) as Ht. pose proof (minimal_hash p rest) as Hm.
    destruct (extract_issuer_key_hash_minimal (p :: rest)) as [h|e| |]; try done; cbn.
    destruct (proj1 (Hm h) eq_refl) as (leaf & real & spki & _ & _ & Hca & Hsp & ->). split; [done|].
    split; [by rewrite digest_length|]. by exists real, spki.
Qed.

(** ** Preparation *)

(** The entry made for a certificate, and for a precertificate. *)
Definition x509_entry state (now : Z) (cert : bytes) (e : BatchEntry) : Prop :=
  cert_hash e = digest cert ∧ entry_wf (log_entry e) ∧ certificate (log_entry e) = cert ∧
  entry_type (log_entry e) = X509Entry ∧ timestamp (log_entry e) = now ∧
  sct_callback e = sct_closure state cert X509Entry None (u64 now).
Definition precert_entry state (now : Z) (precert tbs ikh : bytes) (e : BatchEntry) : Prop :=
  cert_hash e = digest (tbs ++ ikh) ∧ entry_wf (log_entry e) ∧ certificate (log_entry e) = tbs ∧
  entry_type (log_entry e) = PrecertEntry ∧ issuer_key_hash (log_entry e) = Some ikh ∧
  original_precert (log_entry e) = Some precert ∧ timestamp (log_entry e) = now ∧
  sct_callback e = sct_closure state tbs PrecertEntry (Some ikh) (u64 now).

(** What the preparation of a submission leads to, for the hash [h] of the
    certificate: the SCT it has already, or a new entry. *)
Definition prepared P (h : bytes) (shape : BatchEntry → Prop) (r : AddChainResponse + BatchEntry) : Prop :=
  match r with
  | inl resp => ∃ i p, P !! i = Some p ∧ p_cert_hash p = h ∧ resp = sct_response (p_sct p)
  | inr e => shape e ∧ ∀ p, p ∈ P → p_cert_hash p ≠ h
  end.

Lemma existing_spec {A} h (k : option CertificateSctEntry → stM Server ApiError A) P B m o s
    (Q : A → Server → Prop) :
  server_kept P B m o s →
  (∀ e s' i p, server_kept P B m o s' → P !! i = Some p → p_cert_hash p = h → se_sct e = p_sct p →
     spec (k (Some e)) s' Q (λ _ s', server_kept P B m o s')) →
  (∀ s', server_kept P B m o s' → (∀ p, p ∈ P → p_cert_hash p ≠ h) →
     spec (k None) s' Q (λ _ s', server_kept P B m o s')) →
  spec (v ← on_server (on_storage internal_storage (get_sct_by_cert_hash h)); k v) s Q
    (λ _ s', server_kept P B m o s').
Proof.
  intros [Hk Hv] Hsome Hnone. apply spec_bind, on_server_spec.
  eapply spec_mono; [by eapply on_storage_spec, get_sct_by_cert_hash_spec|..].
  - intros [e|] s1 [Hk1 He]; [|by apply Hnone]. destruct He as (p & _ & Hp & Hh & He).
    eapply Hsome; [done|done|done|]. by rewrite He.
  - intros e s1 [Hk1 _]. done.
Qed.

(** Every certificate of the request is in the domain. *)
Definition request_domain (request : list string) : Prop :=
  ∀ chain, decode_chain request = Ok chain → chain_domain D chain.

Lemma prepare_chain_spec state now request P B m o s :
  vinv o → request_domain request → server_kept P B m o s →
  spec (prepare_chain state now request) s
    (λ r s', server_kept P B m o s' ∧ ∃ cert rest, decode_chain request = Ok (cert :: rest) ∧
       vetted o (cert :: rest) ∧ prepared P (digest cert) (x509_entry state now cert) r)
    (λ _ s', server_kept P B m o s').
Proof.
  intros Ho Hd Hk. unfold prepare_chain. destruct request as [|s0 l]; [by apply spec_fail|].
  apply spec_lift_total; [apply decode_chain_total| |done]. intros chain Hch.
  pose proof (Hd _ Hch) as Hdom. destruct (decode_chain_head _ _ _ Hch) as (cert & rest & -> & Hs0).
  apply spec_bind. eapply spec_lift_ok; [done|].
  apply spec_lift_total; [auto with ct| |done]. intros _ _.
  apply spec_bind. eapply spec_mono; [by apply (validate_spec _ P B m o)| |done].
  intros _ s1 [Hk1 Hvet]. apply existing_spec; [done|..].
  { intros e s2 i p Hk2 Hp Hh He. apply spec_ret. split; [done|]. exists cert, rest.
    split; [done|]. split; [done|]. rewrite He. cbn. eauto. }
  intros s2 Hk2 Hno. apply spec_lift_total; [apply total_map_err, is_precert_total| |done].
  intros [] _; [by apply spec_fail|].
  apply spec_lift_total; [apply process_chain_total| |done]. intros ch _.
  apply spec_bind. eapply spec_lift_ok; [done|]. apply spec_ret. split; [done|].
  exists cert, rest. split; [done|]. split; [done|]. split; [|done]. split_and!; done.
Qed.

Lemma default_nonempty chain : default [] (nonempty_chain chain) = chain.
Proof. by destruct chain. Qed.

Lemma prepare_pre_chain_spec state now request P B m o s :
  output_size = 32%nat → vinv o → request_domain request → has_issuer o request → server_kept P B m o s →
  spec (prepare_pre_chain state now request) s
    (λ r s', server_kept P B m o s' ∧ ∃ precert rest tbs ikh, decode_chain request = Ok (precert :: rest) ∧
       vetted o (precert :: rest) ∧ hash_of_issuer o rest ikh ∧
       Extractor.extract_tbs_certificate (DbErr := SlateDBError) precert rest = Ok tbs ∧
       prepared P (digest (tbs ++ ikh)) (precert_entry state now precert tbs ikh) r)
    (λ _ s', server_kept P B m o s').
Proof.
  intros Hash Ho Hd Hiss Hk. unfold prepare_pre_chain. destruct request as [|s0 l]; [by apply spec_fail|].
  apply spec_lift_total; [apply decode_chain_total| |done]. intros chain Hch.
  pose proof (Hd _ Hch) as Hdom. pose proof (decode_chain_length _ _ Hch) as Hlen.
  destruct (decode_chain_head _ _ _ Hch) as (cert & rest & -> & Hs0).
  apply spec_bind. eapply spec_lift_ok; [done|].
  apply spec_lift_total; [apply total_map_err, is_precert_total| |done].
  intros [] _; [|by apply spec_fail]. cbn [negb].
  apply spec_lift_total; [apply process_chain_total| |done]. intros ch ->%process_chain_id. cbn [tail].
  apply spec_bind. eapply spec_mono; [by apply (validate_spec _ P B m o)| |done].
  intros _ s1 [Hk1 Hvet]. apply spec_bind.
  eapply spec_mono; [apply (issuer_key_hash_spec _ _ P B m o); [done|done|]|..].
  { unfold has_issuer in *. destruct o; [|done]. by rewrite <- Hlen. }
  2: { by intros e s2 ->. }
  intros ikh s2 (-> & Hil & Hih).
  apply spec_lift_total; [apply total_map_err, total_map_err, Extractor.extract_total| |done].
  intros tbs Htbs%map_err_Ok_inv. pose proof (map_err_Ok_inv _ _ _ Htbs) as Hx.
  apply existing_spec; [done|..].
  { intros e s2 i p Hk2 Hp Hh He. apply spec_ret. split; [done|]. exists cert, rest, tbs, ikh.
    split_and!; [done..|]. rewrite He. cbn. eauto. }
  intros s2 Hk2 Hno. apply spec_bind. eapply spec_lift_ok; [done|]. apply spec_ret. split; [done|].
  exists cert, rest, tbs, ikh. split_and!; [done..|]. split; [|done].
  split_and!; try done. split; cbn.
  - split; [by eexists|]. exists cert. split; [done|]. by rewrite default_nonempty.
  - intros h [= <-]. done.
Qed.

(** ** Submission *)

Section Batched.
  Context `{!Batcher} `{!BatcherLaws}.

(** An entry of the log for the hash [h], whose SCT is the response: one that
    was there already, the log being as it was; or a new one, with the data of
    the submission. *)
Definition submitted P m (h : bytes) (fresh : Z → Processed → Prop) (r : AddChainResponse)
    (t : CtStorage) : Prop :=
  ∃ P' B' i p, storage_inv t (P ++ P') B' ∧ (P ++ P') !! Z.to_nat i = Some p ∧
    p_cert_hash p = h ∧ r = sct_response (p_sct p) ∧
    ((P' = [] ∧ view (ct_tree t) = m) ∨
     (zlen P ≤ i ∧ (∀ q, q ∈ P → p_cert_hash q ≠ h) ∧ entry_wf (p_log_entry p) ∧ fresh i p)).
(** The log is the one before, extended; the validator changed its cache. *)
Definition grown P (o : option Rfc6962Validator) s' : Prop :=
  (∃ P' B', storage_inv (storage s') (P ++ P') B') ∧ vsame o (validator s').

Lemma entry_wf_index i leaf e : entry_wf e → entry_wf (with_index i leaf e).
Proof. done. Qed.

Lemma submit_spec {X} P B m o (C : X → Prop) (h : X → bytes) (shape : X → BatchEntry → Prop)
    (fresh : X → Z → Processed → Prop) s c :
  zlen P < 2 ^ 63 →
  (∀ x e i p, shape x e → sct_callback e i = Ok (p_sct p) →
     p_log_entry p = with_index i (p_leaf_data p) (log_entry e) → fresh x i p) →
  (∀ x e, shape x e → cert_hash e = h x ∧ entry_wf (log_entry e)) →
  spec c s (λ r s', server_kept P B m o s' ∧ ∃ x, C x ∧ prepared P (h x) (shape x) r)
    (λ _ s', server_kept P B m o s') →
  spec (r ← c; match r with inl response => mret response | inr entry => submit entry end) s
    (λ r s', grown P o s' ∧ ∃ x, C x ∧ submitted P m (h x) (fresh x) r (storage s')) (λ _ s', grown P o s').
Proof.
  intros Hsz Hfresh Hshape Hc. apply spec_bind. eapply spec_mono; [exact Hc|..].
  - intros [resp|e] s1 ([Hk1 Hv1] & x & Hx & Hr).
    + destruct Hr as (i & p & Hp & Hh & ->). apply spec_ret. split.
      { split; [|done]. exists [], B. rewrite app_nil_r. apply Hk1. }
      exists x. split; [done|]. exists [], B, (Z.of_nat i), p. rewrite app_nil_r, Nat2Z.id. destruct Hk1. eauto 10.
    + destruct Hr as [Hs Hno]. destruct (Hshape x e Hs) as [Hh Hw]. unfold submit, on_storage.
      apply spec_bind, on_server_spec, spec_map_err. eapply spec_mono; [eapply add_entry_law; [apply Hk1|done]|..].
      * intros [i sct] s2 (P' & B' & Hi & Hle & Hcb & p & Hp & Hsct & Hch & Hle').
        cbn [fst snd] in *. apply spec_ret. split; [by split; [exists P', B'|]|].
        exists x. split; [done|]. exists P', B', i, p. split; [done|]. split; [done|].
        split; [congruence|]. split; [by rewrite Hsct|]. right. split; [done|]. split; [done|].
        split; [rewrite Hle'; exact (entry_wf_index _ _ _ Hw)|].
        eapply Hfresh; [exact Hs| |exact Hle']. congruence.
      * intros err s2 (P' & B' & Hi). split; [|done]. by exists P', B'.
  - intros e s1 [[Hi _] Hv]. split; [|done]. exists [], B. by rewrite app_nil_r.
Qed.

(** The SCT of an entry is the one the builder makes for it. *)
Definition fresh_x509 state (now : Z) (cert : bytes) (i : Z) (p : Processed) : Prop :=
  certificate (p_log_entry p) = cert ∧ entry_type (p_log_entry p) = X509Entry ∧
  timestamp (p_log_entry p) = now ∧
  create_sct_with_timestamp_and_index (DbErr := SlateDBError) (sct_builder state) cert X509Entry
    None (u64 now) (Some i) = Ok (p_sct p).
Definition fresh_precert state (now : Z) (precert tbs ikh : bytes) (i : Z) (p : Processed) : Prop :=
  certificate (p_log_entry p) = tbs ∧ entry_type (p_log_entry p) = PrecertEntry ∧
  issuer_key_hash (p_log_entry p) = Some ikh ∧ original_precert (p_log_entry p) = Some precert ∧
  timestamp (p_log_entry p) = now ∧
  create_sct_with_timestamp_and_index (DbErr := SlateDBError) (sct_builder state) tbs PrecertEntry
    (Some ikh) (u64 now) (Some i) = Ok (p_sct p).

Lemma sct_closure_ok state cert t ikh ts i sct :
  sct_closure state cert t ikh ts i = Ok sct →
  create_sct_with_timestamp_and_index (DbErr := SlateDBError) (sct_builder state) cert t ikh ts (Some i) = Ok sct.
Proof. unfold sct_closure. destruct (create_sct_with_timestamp_and_index _ _ _ _ _ _); congruence. Qed.

Lemma server_start s P B :
  storage_inv (storage s) P B → vinv (validator s) →
  server_kept P B (view (ct_tree (storage s))) (validator s) s.
Proof.
  intros Hs Hv. split; [by split|]. destruct (validator s) as [v|]; [|done]. cbn in *.
  destruct Hv as (? & _ & _). by repeat split.
Qed.



End Batched.

(** ** A batcher *)

(** The caller of an idle worker: its entry is sent and the worker runs, at the
    times of [clock], until it has answered. *)
Definition worker_batcher `{HashOrder} (config : BatchConfig) (clock : nat → Z * Z * Z) :
    Batcher := λ e s,
  match try_send config e (start (ct_tree s)) with
  | (Err err, _) => (Err err, s)
  | (_, w) =>
      let w' := run_worker config clock (remaining (close w)) (close w) in
      (completion (default None (snd <$> last (answered w'))),
       {| ct_tree := w_tree w'; chain_cache := chain_cache s; entry_cache := entry_cache s |})
  end.

Lemma storage_inv_grow (s : CtStorage) P B P' B' tree' :
  storage_inv s P B → log_inv tree' (P ++ P') B' →
  storage_inv {| ct_tree := tree'; chain_cache := chain_cache s; entry_cache := entry_cache s |} (P ++ P') B'.
Proof.
  intros [_ Hch He] Hl. split; [done|..].
  - eapply map_Forall_impl; [exact Hch|]. cbn. intros h c [? Hc]. split; [done|].
    apply elem_of_all_certs in Hc as (j & p & Hj & ?). apply elem_of_all_certs. exists j, p.
    split; [by apply lookup_app_l_Some|done].
  - eapply map_Forall_impl; [exact He|]. cbn. intros i e [? (p & Hp & ->)]. split; [done|].
    exists p. split; [by apply lookup_app_l_Some|done].
Qed.

(** The worker discharges what the handlers need. *)
Lemma worker_batcher_law `{HashOrder} `{!HashOrderLaws} config clock :
  output_size = 32%nat →
  (∀ d : DeduplicatedLogEntry, ∃ b, to_stdvec d = Ok b) →
  (∀ e : CertificateSctEntry, ∃ b, to_stdvec e = Ok b) →
  BatcherLaws (batcher := worker_batcher config clock).
Proof.
  intros Hash Hd Hc e s P B Hs Hsz. unfold spec, add_entry_batched, worker_batcher.
  destruct (try_send config e (start (ct_tree s))) as [r w] eqn:Hw.
  assert (r = Ok tt ∧ accepted w = [e]) as [-> Hacc].
  { revert Hw. unfold try_send. cbn [at_phase start queue].
    destruct (Z.leb_spec (channel_capacity config) (zlen (@nil BatchEntry))) as [Hx|_].
    - unfold channel_capacity in Hx. cbn in Hx. lia.
    - intros Hw. split; congruence || (injection Hw; by intros <-). }
  assert (reachable config (ct_tree s) (close w)) as Hr.
  { eapply reach_step; [|apply sys_close]. eapply reach_step; [apply reach_start|]. by eapply sys_send. }
  pose proof (si_log _ _ _ Hs) as Hl. change (accepted w) with (accepted (close w)) in Hacc.
  assert (zlen P + zlen (accepted (close w)) ≤ 2 ^ 63) as Hb by (rewrite Hacc; cbn; lia).
  destruct (run_exits Hd Hc Hash config _ clock P B _ _ Hl Hr Hb eq_refl (le_n _)) as (Hr' & _ & Hacc').
  destruct (run_drains Hd Hc Hash config _ clock P B _ Hl Hr Hb eq_refl) as [_ Hans].
  set (w' := run_worker config clock (remaining (close w)) (close w)) in *.
  destruct (reachable_log_state Hd Hc Hash config _ P B w' Hl Hr') as [(P' & B' & Hl' & _ & Ht & Hi) _ _];
    [by rewrite Hacc'|].
  rewrite Hacc in Hans. unfold answered_indices in Hi.
  destruct (answered w') as [|[e' a] [|]]; [done| |done]. injection Hans as ->.
  pose proof (storage_inv_grow s P B P' B' _ Hs Hl') as Hs'.
  destruct a as [[|[i sct]]|]; cbn; [by eexists P', _| |by eexists P', _].
  exists P', B'. split; [done|]. split.
  - cbn in Hi. by apply Forall_cons in Hi as [[? _] _].
  - by apply Forall_cons in Ht as [? _].
Qed.

End Proofs.
