(* ===== verification/Main.v ===== *)
(** * Starting the server

    [main] of src/src/main.rs from the configuration file to the state that the
    handlers serve from: the configuration and the keys are read, or made and
    written on the first start, the database is opened, and tree, storage, batch
    worker, validator and root worker are put together.  A start on the database
    of a log gives a server of that log, and a restart keeps its identity. *)

From S2P Require Import Prelude TreeMath Rfc6962 Inclusion Consistency KvStore TreeStore TreeInv.
From S2P Require Import TreeReads TreePush TreeTiles TreeBatch Types TreeHead Tiles MerkleStorage.
From S2P Require Import CtStorage CtInv CtFlush CtReads CtWorker X509 TbsExtraction Validator.
From S2P Require Import ValidatorProofs Ccadb CcadbProofs Startup Api ApiReads Submit SubmitProofs.

(** ** Parameters *)

(** What is used of crate [p256]. *)
Class P256 := {
  SecretKey : Type;
  to_pkcs8_pem : SecretKey → res string string;
  from_pkcs8_pem : string → res string SecretKey;
  to_public_key_pem : SecretKey → res string string;
  to_public_key_der : SecretKey → res string bytes;
  key_to_bytes : SecretKey → bytes;
}.
Class P256Laws `{P256} := {
  to_pkcs8_pem_total k : total (to_pkcs8_pem k);
  from_pkcs8_pem_total s : total (from_pkcs8_pem s);
  to_public_key_pem_total k : total (to_public_key_pem k);
  (** A public key has a DER encoding. *)
  to_public_key_der_ok k : ∃ der, to_public_key_der k = Ok der;
}.

(** Crates [toml] and [config]: [config_build] reads the source [Config], which
    is whatever file of that name is there in a known format, and deserializes
    it. *)
Class ConfigFormat := {
  toml_to_string : AppConfig → res string string;
  config_build : gmap string Node → res string AppConfig;
}.
(** The files that [config] may look at. *)
Definition config_path (p : string) : bool := str_prefix "Config" p.
Class ConfigFormatLaws `{ConfigFormat} := {
  toml_total c : total (toml_to_string c);
  config_build_total m : total (config_build m);
  config_build_local m m' :
    (∀ p, config_path p = true → m !! p = m' !! p) → config_build m = config_build m';
  (** What was written is read, if no other format is there. *)
  config_roundtrip m c text :
    toml_to_string c = Ok text → m !! "Config.toml" = Some (File text) →
    (∀ p, config_path p = true → is_Some (m !! p) → p = "Config.toml") → config_build m = Ok c;
}.

(** ** Files *)

(** [Path::parent], for paths without a component [.] or a doubled separator. *)
Fixpoint rsplit_slash (s : string) : option string :=
  match s with
  | EmptyString => None
  | String a s' =>
      match rsplit_slash s' with
      | Some dir => Some (String a dir)
      | None => if bool_decide (a = chr 47) then Some EmptyString else None
      end
  end.
Definition parent_dir (path : string) : option string :=
  if bool_decide (path = EmptyString) || bool_decide (path = String (chr 47) EmptyString) then None
  else match rsplit_slash path with
       | Some EmptyString => Some (String (chr 47) EmptyString)
       | Some dir => Some dir
       | None => Some EmptyString
       end.

Section Main.
  Context `{SlateDb} `{!DebugDb} `{!Cache (Z * Z) bytes} `{!Cache (Z * Z) bool}.
  Context `{!Cache bytes bytes} `{!Cache Z LogEntry} `{Digest} `{!Postcard bytes} `{Signer}.
  Context `{X509} `{OpenSsl} `{!Cache bytes OsslX509} `{RootFormats} `{!StoreOrder}.
  Context `{P256} `{ConfigFormat}.
  Abbreviation BErr := (BoxError SlateDBError).
  (** The files of the working directory by path. *)
  Abbreviation M := (stM Disk BErr).

Definition fs_write (io : Io) (path contents : string) : M unit :=
  let put text := modify (λ d, {| dir_exists := dir_exists d; nodes := <[path := File text]> (nodes d) |}) in
  match fault io (WriteFile path) with
  | Some e =>
      (match left_by_write io path with Some part => put part | None => mret tt end);; fail (ErrMsg e)
  | None => put contents
  end.
Definition create_dir_all (io : Io) : M unit :=
  match fault io CreateDir with Some e => fail (ErrMsg e) | None => mret tt end.

(** ** Keys and configuration *)

(** [private_key] is the key drawn at random. *)
Definition generate_and_save_keys (io : Io) (private_key : SecretKey) (keys_config : KeysConfig) : M unit :=
  private_key_pem ← lift (map_err ErrMsg (to_pkcs8_pem private_key));
  public_key_pem ← lift (map_err ErrMsg (to_public_key_pem private_key));
  fs_write io (private_key_path keys_config) private_key_pem;;
  fs_write io (public_key_path keys_config) public_key_pem.

Definition ensure_keys_exist (io : Io) (random : SecretKey) (keys_config : KeysConfig) : M unit :=
  d ← gets id;
  if negb (path_exists io d (private_key_path keys_config))
     || negb (path_exists io d (public_key_path keys_config)) then
    (match parent_dir (private_key_path keys_config) with
     | Some _ => create_dir_all io
     | None => mret tt
     end);;
    generate_and_save_keys io random keys_config
  else mret tt.

Definition initialize_config (io : Io) (random : SecretKey) : M AppConfig :=
  create_dir_all io;;
  generate_and_save_keys io random (keys initial_config);;
  config_content ← lift (map_err ErrMsg (toml_to_string initial_config));
  fs_write io "Config.toml" config_content;;
  mret initial_config.

Definition load_config (io : Io) (random : SecretKey) : M AppConfig :=
  d ← gets id;
  if negb (path_exists io d "Config.toml") then initialize_config io random
  else
    app_config ← lift (map_err ErrMsg (config_build (nodes d)));
    ensure_keys_exist io random (keys app_config);;
    mret app_config.

Definition load_private_key (io : Io) (path : string) : M SecretKey :=
  d ← gets id;
  pem_content ← lift (map_err ErrMsg (read_to_string io d path));
  lift (map_err ErrMsg (from_pkcs8_pem pem_content)).

Definition derive_public_key_der_from_p256 (private_key : SecretKey) : res BErr bytes :=
  match to_public_key_der private_key with
  | Ok der => Ok der
  | Err _ | Panic => Panic
  | Fuel => Fuel
  end.

(** ** The parts *)

(** Building the client of the object store and opening the database, with the
    capacity of the block cache and the options of the file cache, is left to
    crates [object_store] and [slatedb]. *)
Definition initialize_storage (open_db : ObjectStore → Z → option string * option Z → res string Db)
    (storage : StorageConfig) (cache : option CacheConfig) : res BErr Db :=
  blob_store ← map_err ErrMsg (select_store storage);
  map_err ErrMsg (open_db blob_store (cache_capacity_bytes cache) (object_store_cache_options cache)).

(** [CtStorage::new]: the caches start empty. *)
Definition CtStorage_new (tree : SlateDbBackedTree) : CtStorage :=
  {| ct_tree := tree; chain_cache := cache_new; entry_cache := cache_new |}.

(** What runs when [main] begins to serve. *)
Record Running := {
  api_state : ApiState;
  server_state : Server;
  batch_worker : Worker;
  ccadb_worker : option (CcadbWorker * Shared);
}.

Definition main (parse_from_rfc3339 : string → res string Z)
    (open_db : ObjectStore → Z → option string * option Z → res string Db)
    (io roots_io : Io) (roots : Disk) (random : SecretKey) : M Running :=
  config ← load_config io random;
  db ← lift (initialize_storage open_db (storage_config config) (cache_config config));
  private_key ← load_private_key io (private_key_path (keys config));
  public_key_der ← lift (derive_public_key_der_from_p256 private_key);
  let log_id := LogId_new public_key_der in
  merkle_tree ← lift (map_err ErrCt (ms_new (RateLimitedDb_new db)));
  let ct_storage := CtStorage_new merkle_tree in
  ccadb ← lift (init_validation parse_from_rfc3339 roots_io roots (validation config));
  let validator := match ccadb with Some (_, shared) => shared_validator shared | None => None end in
  api_state ← lift (map_err ErrCt (ApiState_new log_id (key_to_bytes private_key) public_key_der
                                     (server_base_url (server config))));
  mret {| api_state := api_state;
          server_state := {| storage := ct_storage; validator := validator |};
          batch_worker := start merkle_tree; ccadb_worker := ccadb |}.

End Main.
