(* ===== verification/MainProofs.v ===== *)
(** * What a start gives

    The configuration, the log ID and the signing key of a server survive a
    restart; a start on the database of a log gives a server in the state that
    the theorems on the handlers ask for. *)

From S2P Require Import Prelude TreeMath Rfc6962 Inclusion Consistency KvStore TreeStore TreeInv.
From S2P Require Import TreeReads TreePush TreeTiles TreeBatch Types TreeHead Tiles MerkleStorage.
From S2P Require Import CtStorage CtInv CtFlush CtReads CtWorker X509 TbsExtraction Validator.
From S2P Require Import ValidatorProofs Ccadb CcadbProofs Startup Api ApiReads Submit SubmitProofs.
From S2P Require Import Main.

(** ** Successful runs *)

Lemma st_bind_Ok_inv {S E A B} (m : stM S E A) (k : A → stM S E B) s b s' :
  (m ≫= k) s = (Ok b, s') → ∃ a s1, m s = (Ok a, s1) ∧ k a s1 = (Ok b, s').
Proof. unfold mbind, stM_bind. destruct (m s) as [[]]; try done. eauto. Qed.
Lemma lift_Ok_inv {S E A} (r : res E A) (s : S) a s' :
  lift r s = (Ok a, s') → r = Ok a ∧ s' = s.
Proof. unfold lift. intros Hl. split; congruence. Qed.
Lemma gets_Ok_inv {S E A} (f : S → A) (s : S) a s' :
  gets f s = (Ok a : res E A, s') → a = f s ∧ s' = s.
Proof. unfold gets. intros Hl. split; congruence. Qed.
Lemma ret_Ok_inv {S E A} (a : A) (s : S) b s' :
  (mret a : stM S E A) s = (Ok b, s') → b = a ∧ s' = s.
Proof. unfold mret, stM_ret. intros Hl. split; congruence. Qed.
(** The first step of a run that succeeded. *)
Ltac run_step H x s Hx := apply st_bind_Ok_inv in H as (x & s & Hx & H).

Section Restart.
  Context `{SlateDb} `{!DebugDb} `{!Cache (Z * Z) bytes} `{!Cache (Z * Z) bool}.
  Context `{!Cache bytes bytes} `{!Cache Z LogEntry} `{Digest} `{!Postcard bytes} `{Signer}.
  Context `{X509} `{OpenSsl} `{!Cache bytes OsslX509} `{RootFormats} `{!StoreOrder}.
  Context `{P256} `{ConfigFormat} `{!ConfigFormatLaws}.
  Abbreviation BErr := (BoxError SlateDBError).
  Implicit Types (io : Io) (d : Disk) (cfg : AppConfig) (random : SecretKey).

(** ** Files *)

Lemma fs_write_ok io path c d u d' :
  fs_write io path c d = (Ok u : res BErr unit, d') → nodes d' = <[path := File c]> (nodes d).
Proof.
  unfold fs_write. destruct (fault io _).
  - by destruct (left_by_write io path).
  - unfold modify. intros Hw. assert (d' = {| dir_exists := dir_exists d; nodes := <[path := File c]> (nodes d) |})
      as -> by congruence. done.
Qed.

Lemma generate_ok io random kc d u d' :
  generate_and_save_keys io random kc d = (Ok u : res BErr unit, d') →
  ∃ a b, nodes d' = <[public_key_path kc := File b]> (<[private_key_path kc := File a]> (nodes d)).
Proof.
  unfold generate_and_save_keys. intros Hg. run_step Hg a s1 Ha. apply lift_Ok_inv in Ha as [_ ->].
  run_step Hg b s2 Hb. apply lift_Ok_inv in Hb as [_ ->]. run_step Hg u1 s3 Hw.
  apply fs_write_ok in Hw. apply fs_write_ok in Hg. exists a, b. by rewrite Hg, Hw.
Qed.

Definition keys_present cfg d : Prop :=
  is_Some (nodes d !! private_key_path (keys cfg)) ∧ is_Some (nodes d !! public_key_path (keys cfg)).
(** The keys are not among the files that may hold the configuration. *)
Definition keys_apart cfg : Prop :=
  config_path (private_key_path (keys cfg)) = false ∧ config_path (public_key_path (keys cfg)) = false.
(** The configuration [cfg] and its keys are on disk. *)
Definition configured cfg d : Prop :=
  config_build (nodes d) = Ok cfg ∧ is_Some (nodes d !! "Config.toml") ∧ keys_present cfg d.

Lemma path_exists_some io d p : path_exists io d p = true → is_Some (nodes d !! p).
Proof. unfold path_exists. destruct (fault io _); [done|]. apply bool_decide_eq_true. Qed.
Lemma some_path_exists io d p : fault io (Stat p) = None → is_Some (nodes d !! p) → path_exists io d p = true.
Proof. unfold path_exists. intros ->. apply bool_decide_eq_true. Qed.

Lemma generate_present io random cfg d u d' :
  generate_and_save_keys io random (keys cfg) d = (Ok u : res BErr unit, d') →
  keys_present cfg d' ∧
  ∀ p, p ≠ private_key_path (keys cfg) → p ≠ public_key_path (keys cfg) → nodes d' !! p = nodes d !! p.
Proof.
  intros (a & b & Hd)%generate_ok. unfold keys_present. rewrite Hd. split.
  - rewrite lookup_insert_eq. split; [|done]. apply lookup_insert_is_Some'. right. by rewrite lookup_insert_eq.
  - intros p Hp Hq. by rewrite !lookup_insert_ne.
Qed.

Lemma create_dir_ok io d u d' : create_dir_all io d = (Ok u : res BErr unit, d') → d' = d.
Proof. unfold create_dir_all, fail, mret, stM_ret. destruct (fault io CreateDir); congruence. Qed.

Lemma ensure_keys_ok io random cfg d u d' :
  ensure_keys_exist io random (keys cfg) d = (Ok u : res BErr unit, d') →
  keys_present cfg d' ∧
  ∀ p, p ≠ private_key_path (keys cfg) → p ≠ public_key_path (keys cfg) → nodes d' !! p = nodes d !! p.
Proof.
  unfold ensure_keys_exist. intros He. run_step He d0 s1 Hg. apply gets_Ok_inv in Hg as [-> ->].
  destruct (_ || _) eqn:Hb.
  - run_step He u1 s1 Hc. apply generate_present in He. assert (s1 = d) as ->; [|done].
    destruct (parent_dir _); [by eapply create_dir_ok|]. by apply ret_Ok_inv in Hc as [_ ->].
  - apply orb_false_iff in Hb as [Hp%negb_false_iff Hq%negb_false_iff].
    apply ret_Ok_inv in He as [_ ->]. split; [|done]. split; by eapply path_exists_some.
Qed.

Lemma load_config_ok io random d cfg d' :
  load_config io random d = (Ok cfg : res BErr AppConfig, d') → keys_apart cfg →
  (∀ p, config_path p = true → is_Some (nodes d !! p) → p = "Config.toml") → configured cfg d'.
Proof.
  unfold load_config. intros Hl [Hpr Hpu] Honly. run_step Hl d0 s1 Hg. apply gets_Ok_inv in Hg as [-> ->].
  destruct (path_exists io (id d) "Config.toml") eqn:Hex; cbn [negb] in Hl.
  - run_step Hl c s1 Hc. apply lift_Ok_inv in Hc as [Hc%map_err_Ok_inv ->]. run_step Hl u s1 Hk.
    apply ret_Ok_inv in Hl as [<- <-]. apply ensure_keys_ok in Hk as [Hkeys Hrest].
    assert (∀ p, config_path p = true → nodes d' !! p = nodes d !! p) as Hsame
      by (intros p Hp; apply Hrest; congruence).
    split; [|split; [|done]].
    + rewrite <- Hc. by apply config_build_local.
    + rewrite Hsame by reflexivity. by eapply path_exists_some.
  - unfold initialize_config in Hl. run_step Hl u1 s1 Hd. apply create_dir_ok in Hd as ->.
    run_step Hl u2 s2 Hk. run_step Hl pem s3 Ht. apply lift_Ok_inv in Ht as [Ht%map_err_Ok_inv ->].
    run_step Hl u3 s3 Hw. apply ret_Ok_inv in Hl as [-> <-].
    apply generate_present in Hk as [[Hk1 Hk2] Hrest]. apply fs_write_ok in Hw.
    unfold configured, keys_present. rewrite Hw. split; [|split; [by rewrite lookup_insert_eq|]].
    + eapply config_roundtrip; [exact Ht|by rewrite lookup_insert_eq|]. intros p Hp Hs.
      apply lookup_insert_is_Some' in Hs as [<-|Hs]; [done|].
      rewrite Hrest in Hs by (intros ->; done). by apply Honly.
    + split; apply lookup_insert_is_Some'; by right.
Qed.

Lemma load_config_again io random d cfg :
  (∀ p, fault io (Stat p) = None) → configured cfg d → load_config io random d = (Ok cfg : res BErr AppConfig, d).
Proof.
  intros Hio (Hc & Hex & Hpr & Hpu). unfold load_config, ensure_keys_exist, mbind, stM_bind, gets, lift. cbn [id].
  rewrite some_path_exists by done. cbn [negb]. rewrite Hc. cbn [map_err]. rewrite !some_path_exists by done. done.
Qed.

(** ** The identity of a log *)

Lemma load_private_key_ok io path d key d' :
  load_private_key io path d = (Ok key : res BErr SecretKey, d') →
  d' = d ∧ ∃ text, nodes d !! path = Some (File text) ∧ from_pkcs8_pem text = Ok key.
Proof.
  unfold load_private_key. intros Hl. run_step Hl d0 s1 Hg. apply gets_Ok_inv in Hg as [-> ->].
  run_step Hl pem s1 Ht. apply lift_Ok_inv in Ht as [Ht%map_err_Ok_inv ->].
  apply lift_Ok_inv in Hl as [Hk%map_err_Ok_inv ->]. split; [done|]. exists pem. split; [|done].
  revert Ht. unfold read_to_string. destruct (fault io _); [done|]. cbn.
  destruct (nodes d !! path) as [[]|]; try done. by intros [= ->].
Qed.

(** The state of the API that the files give. *)
Definition identity cfg d (state : ApiState) : Prop :=
  ∃ text key der, nodes d !! private_key_path (keys cfg) = Some (File text) ∧ from_pkcs8_pem text = Ok key ∧
    to_public_key_der key = Ok der ∧
    ApiState_new (DbErr := SlateDBError) (LogId_new der) (key_to_bytes key) der (server_base_url (server cfg)) = Ok state.

Lemma identity_unique cfg d state state' : identity cfg d state → identity cfg d state' → state' = state.
Proof.
  intros (text & key & der & Ht & Hk & Hd & Hs) (text' & key' & der' & Ht' & Hk' & Hd' & Hs'). congruence.
Qed.

Lemma main_inv parse open_db io roots_io roots random d r d' :
  main parse open_db io roots_io roots random d = (Ok r, d') →
  ∃ cfg, load_config io random d = (Ok cfg : res BErr AppConfig, d') ∧ identity cfg d' (api_state r).
Proof.
  unfold main. intros Hm. run_step Hm cfg d1 Hcfg. run_step Hm db d2 Hdb. apply lift_Ok_inv in Hdb as [_ ->].
  run_step Hm key d2 Hkey. apply load_private_key_ok in Hkey as (-> & text & Ht & Hk).
  run_step Hm der d2 Hder. apply lift_Ok_inv in Hder as [Hder ->].
  run_step Hm tree d2 Htree. apply lift_Ok_inv in Htree as [_ ->].
  run_step Hm cc d2 Hcc. apply lift_Ok_inv in Hcc as [_ ->].
  run_step Hm state d2 Hst. apply lift_Ok_inv in Hst as [Hst%map_err_Ok_inv ->].
  apply ret_Ok_inv in Hm as [-> <-]. cbn [api_state].
  exists cfg. split; [done|]. exists text, key, der. split_and!; try done.
  revert Hder. unfold derive_public_key_der_from_p256. destruct (to_public_key_der key); congruence.
Qed.

(** C14: a server that has started once keeps its configuration and its identity:
    a later start, with other answers of the system but without an error in
    asking whether a file exists, finds the same configuration and writes
    nothing, and if it serves, then with the same log ID, signing keys and
    origin. *)
Theorem restart_identity parse open_db io roots_io roots random d r d1 :
  main parse open_db io roots_io roots random d = (Ok r, d1) →
  (∀ cfg, load_config io random d = (Ok cfg : res BErr AppConfig, d1) → keys_apart cfg) →
  (∀ p, config_path p = true → is_Some (nodes d !! p) → p = "Config.toml") →
  ∃ cfg, load_config io random d = (Ok cfg : res BErr AppConfig, d1) ∧
    ∀ parse' open_db' io' roots_io' roots' random', (∀ p, fault io' (Stat p) = None) →
      load_config io' random' d1 = (Ok cfg : res BErr AppConfig, d1) ∧
      ∀ r' d2, main parse' open_db' io' roots_io' roots' random' d1 = (Ok r', d2) →
        d2 = d1 ∧ api_state r' = api_state r.
Proof.
  intros (cfg & Hcfg & Hid)%main_inv Hap Honly. exists cfg. split; [done|].
  pose proof (load_config_ok _ _ _ _ _ Hcfg (Hap cfg Hcfg) Honly) as Hconf.
  intros parse' open_db' io' roots_io' roots' random' Hio.
  pose proof (load_config_again io' random' d1 cfg Hio Hconf) as Hagain. split; [done|].
  intros r' d2 (cfg' & Hcfg' & Hid')%main_inv. assert (cfg' = cfg ∧ d2 = d1) as [-> ->] by (split; congruence).
  split; [done|]. by eapply identity_unique.
Qed.

End Restart.

(** ** The log behind a server *)

Section Serving.
  Context `{SlateDb} `{!DebugDb} `{!DisplayDb} `{!Cache (Z * Z) bytes} `{!Cache (Z * Z) bool}.
  Context `{!SlateDbLaws} `{!CacheLaws (Z * Z) bytes} `{!CacheLaws (Z * Z) bool}.
  Context `{!Cache bytes bytes} `{!CacheLaws bytes bytes} `{!Cache Z LogEntry} `{!CacheLaws Z LogEntry}.
  Context `{Digest} `{!Postcard bytes} `{!PostcardLaws bytes}.
  Context `{!Postcard DeduplicatedLogEntry} `{!Postcard CertificateSctEntry} `{Signer}.
  Context `{X509} `{!X509Laws} `{!X509Canonical} `{OpenSsl} `{!Cache bytes OsslX509}.
  Context `{!CacheLaws bytes OsslX509} `{RootFormats} `{!RootFormatsLaws} `{!StoreOrder} `{!StoreOrderLaws}.
  Context `{P256} `{!P256Laws} `{ConfigFormat} `{!ConfigFormatLaws}.
  Abbreviation BErr := (BoxError SlateDBError).
  Implicit Types (P : list Processed) (B : gset Z).

(** Opening a tree writes no record of the storage. *)
Lemma get_view k s v s' : get k s = (Ok v, s') → view s' = view s.
Proof.
  intros Hg. assert (spec (get k) s (λ _ s', view s' = view s) (λ _ _, True)) as Hs.
  { apply spec_on_db. eapply spec_mono; [apply rl_get_spec| |done]. by intros ? ? [_ ?]. }
  unfold spec in Hs. by rewrite Hg in Hs.
Qed.
Lemma put_view k v s u s' :
  on_db (rl_put k v) s = (Ok u, s') → view s' = <[k := v]> (view s).
Proof.
  intros Hg. assert (spec (on_db (rl_put k v)) s (λ _ s', view s' = <[k := v]> (view s)) (λ _ _, True)) as Hs.
  { apply spec_on_db. eapply spec_mono; [apply rl_put_spec| |done]. done. }
  unfold spec in Hs. by rewrite Hg in Hs.
Qed.

Lemma new_records (db : RateLimitedDb) tree :
  new db = Ok tree → ∀ k, tree_key k = false → view tree !! k = rl_view db !! k.
Proof.
  unfold new. set (t0 := {| tree_db := db |}). change (rl_view db) with (view t0).
  destruct (new_init t0) as [r t1] eqn:Hn. destruct r as [u| | |]; try done. cbn. intros [= <-] k Hk.
  unfold new_init in Hn. run_step Hn o s1 Ho. unfold get_num_leaves in Ho. run_step Ho v s2 Hg.
  apply get_view in Hg. assert (s2 = s1) as ->.
  { destruct v; [run_step Ho x s3 Hx; apply lift_Ok_inv in Hx as [_ ->]|]; by apply ret_Ok_inv in Ho as [_ ->]. }
  destruct o as [z|]; [apply ret_Ok_inv in Hn as [_ ->]; by rewrite Hg|].
  run_step Hn u1 s3 Hp. apply put_view in Hp. apply put_view in Hn. rewrite Hn, Hp, Hg.
  rewrite !lookup_insert_ne; [done|..]; by intros <-.
Qed.

Lemma new_log (db : RateLimitedDb) P B :
  tree_inv (rl_view db) (leaves P) B → ct_inv (rl_view db) P →
  match new db with Ok tree => log_inv tree P B | Err _ => True | _ => False end.
Proof.
  intros Ht Hc. pose proof (new_spec db (leaves P) B Ht) as Hn. pose proof (new_records db) as Hr.
  destruct (new db) as [tree| | |]; try done. split; [done|].
  eapply ct_inv_local; [|exact Hc]. intros k. apply Hr; [done|]. apply senc_tree_key.
Qed.

(** ** The validator of a server *)

(** The certificates in the directory of roots, and that the digest tells the
    encodings of those in it apart. *)
Definition roots_domain (D : bytes → Prop) (roots : Disk) : Prop :=
  ∀ name text der c, nodes roots !! name = Some (File text) →
    pem_decode text = Ok ("CERTIFICATE", der) → from_der der = Ok c → in_domain D c.

Lemma loads_from io dir d name e :
  loads (DbErr := SlateDBError) io dir d name e →
  ∃ text der, nodes d !! name = Some (File text) ∧ pem_decode text = Ok ("CERTIFICATE", der) ∧
    from_der der = Ok (entry_certificate e).
Proof.
  intros (_ & _ & _ & Hl). unfold load_pem_certificate in Hl.
  apply bind_Ok_inv in Hl as (text & Ht%map_err_Ok_inv & Hl).
  apply bind_Ok_inv in Hl as ([label der] & Hd%map_err_Ok_inv & Hl).
  destruct (bool_decide (label = "CERTIFICATE")) eqn:Hlab; [|done]. apply bool_decide_eq_true in Hlab as ->.
  cbn [negb] in Hl. apply bind_Ok_inv in Hl as (c & Hc%map_err_Ok_inv & Hl).
  assert (c = entry_certificate e) as -> by (unfold mret, res_ret in Hl; congruence).
  exists text, der. split_and!; try done.
  revert Ht. unfold read_to_string. destruct (fault io _), (nodes d !! name) as [[]|]; try done. by intros [= ->].
Qed.

Lemma load_domain D io dir roots w u :
  load_from_directory (DbErr := SlateDBError) io dir (new_store roots) = (Ok u, w) → roots_domain D roots →
  Forall (in_domain D) (get_all_certificates w).
Proof.
  intros Hl Hd. unfold get_all_certificates. apply Forall_map, Forall_forall. intros [fp e].
  rewrite store_iter_law, elem_of_map_to_list. intros He. cbn.
  revert Hl. unfold load_from_directory, mbind, stM_bind, gets.
  destruct (dir_exists _); cbn [negb]; [|intros [_ ->]%ret_Ok_inv; cbn in He; by inversion He].
  destruct (fault io ReadDir); [done|]. intros Hl.
  pose proof (load_loop_adds (DbErr := SlateDBError) io dir
    (dir_order io (nodes (disk (new_store roots)))) (new_store roots)) as Ha. rewrite Hl in Ha.
  destruct (adds_from _ _ _ _ fp e Ha He) as [Hn|(name & _ & (text & der & Hn & Hp & Hc)%loads_from & _)].
  - by inversion Hn.
  - by eapply Hd.
Qed.

Lemma init_validation_domain D parse io roots vc worker s :
  init_validation (DbErr := SlateDBError) parse io roots vc = Ok (Some (worker, s)) → roots_domain D roots →
  vinv D (shared_validator s).
Proof.
  unfold init_validation. destruct vc as [vc|]; [|done]. destruct (enabled vc); [|done]. cbn [negb].
  intros (cfg & _ & Hk)%bind_Ok_inv Hd.
  destruct (load_from_directory _ _ _) as [[u|e| |] w] eqn:Hl; try done.
  apply bind_Ok_inv in Hk as (v & Hv%map_err_Ok_inv & Hk).
  assert (shared_validator s = Some v) as -> by (unfold mret, res_ret in Hk; by injection Hk as _ <-).
  by eapply with_trusted_roots_inv in Hv as [? _]; [|by eapply load_domain].
Qed.

(** Validation runs exactly when it is configured and enabled, with the
    configuration that was read, and the handlers share its validator with the
    worker of the roots. *)
Definition validation_as_configured (parse : string → res string Z) (cfg : AppConfig) (r : Running) : Prop :=
  match validation cfg, ccadb_worker r with
  | Some vc, Some (worker, s) => enabled vc = true ∧ validator (server_state r) = shared_validator s ∧
      ∃ c, rfc6962_config_of parse vc = Ok c ∧ validation_config worker = Some c ∧
        shared_inv (DbErr := SlateDBError) c s
  | Some vc, None => enabled vc = false ∧ validator (server_state r) = None
  | None, Some _ => False
  | None, None => validator (server_state r) = None
  end.

Lemma init_validation_configured parse io roots cfg o state tree :
  init_validation (DbErr := SlateDBError) parse io roots (validation cfg) = Ok o →
  validation_as_configured parse cfg
    {| api_state := state;
       server_state := {| storage := CtStorage_new tree;
         validator := match o with Some (_, shared) => shared_validator shared | None => None end |};
       batch_worker := start tree; ccadb_worker := o |}.
Proof.
  intros Hi. unfold validation_as_configured. cbn [ccadb_worker server_state validator].
  destruct (validation cfg) as [vc|] eqn:Hvc, o as [[worker s]|]; try done.
  - destruct (init_validation_inv parse io roots vc worker s Hi) as (c & ? & ? & ?).
    split; [|split; [done|by exists c]]. unfold init_validation in Hi. by destruct (enabled vc).
  - split; [|done]. unfold init_validation in Hi. destruct (enabled vc); [|done]. cbn [negb] in Hi.
    apply bind_Ok_inv in Hi as (c & _ & Hk). destruct (load_from_directory _ _ _) as [[] w]; try done.
    by apply bind_Ok_inv in Hk as (v & _ & Hk).
Qed.

(** The start returns. *)
Lemma fs_write_total io path c d : total (fs_write io path c d : res BErr unit * Disk).1.
Proof. unfold fs_write. destruct (fault io _); [|done]. by destruct (left_by_write io path). Qed.

Lemma st_total_bind {S E A C} (m : stM S E A) (k : A → stM S E C) s :
  total (m s).1 → (∀ a s', m s = (Ok a, s') → total (k a s').1) → total ((m ≫= k) s).1.
Proof. unfold mbind, stM_bind. destruct (m s) as [[]]; try done. intros _ Hk. by apply Hk. Qed.
Lemma create_dir_total io d : total (create_dir_all io d : res BErr unit * Disk).1.
Proof. unfold create_dir_all. by destruct (fault io CreateDir). Qed.

Lemma generate_total io random kc d : total (generate_and_save_keys io random kc d : res BErr unit * Disk).1.
Proof.
  unfold generate_and_save_keys. apply st_total_bind; [apply total_map_err, to_pkcs8_pem_total|intros ? ? _].
  apply st_total_bind; [apply total_map_err, to_public_key_pem_total|intros ? ? _].
  apply st_total_bind; [apply fs_write_total|intros ? ? _]. apply fs_write_total.
Qed.

Lemma load_config_total io random d : total (load_config io random d : res BErr AppConfig * Disk).1.
Proof.
  unfold load_config. apply st_total_bind; [done|intros d0 s _]. destruct (negb _).
  - unfold initialize_config. apply st_total_bind; [apply create_dir_total|intros ? ? _].
    apply st_total_bind; [apply generate_total|intros ? ? _].
    apply st_total_bind; [apply total_map_err, toml_total|intros ? ? _].
    apply st_total_bind; [apply fs_write_total|done].
  - apply st_total_bind; [apply total_map_err, config_build_total|intros cfg ? _].
    apply st_total_bind; [|done]. unfold ensure_keys_exist. apply st_total_bind; [done|intros ? ? _].
    destruct (_ || _); [|done]. apply st_total_bind; [|intros ? ? _; apply generate_total].
    destruct (parent_dir _); [apply create_dir_total|done].
Qed.

Lemma load_private_key_total io path d : total (load_private_key io path d : res BErr SecretKey * Disk).1.
Proof.
  unfold load_private_key. apply st_total_bind; [done|intros d0 ? _]. apply st_total_bind.
  - apply total_map_err. unfold read_to_string. by destruct (fault io _), (nodes d0 !! path) as [[]|].
  - intros ? ? _. apply total_map_err, from_pkcs8_pem_total.
Qed.

Lemma api_state_total log_id key der url :
  total (ApiState_new (DbErr := SlateDBError) log_id key der url).
Proof. unfold ApiState_new, from_private_key_bytes, SthBuilder_new. by destruct (key_from_slice key). Qed.

Lemma select_store_total c : total (select_store c).
Proof. unfold select_store. repeat apply total_if; try done; (apply total_bind; [by destruct (_ c)|done]). Qed.

(** What the database of a log holds when it is opened. *)
Definition holds_log (open_db : ObjectStore → Z → option string * option Z → res string Db) P B : Prop :=
  ∀ store capacity options, total (open_db store capacity options) ∧
    ∀ db : Db, open_db store capacity options = Ok db →
      tree_inv (rl_view (RateLimitedDb_new db)) (leaves P) B ∧ ct_inv (rl_view (RateLimitedDb_new db)) P.

Lemma fresh_storage tree P B : log_inv tree P B → storage_inv (CtStorage_new tree) P B.
Proof.
  intros Hl. split; [done|..]; cbn; unfold chain_ok, entries_ok; rewrite cache_new_law; apply map_Forall_empty.
Qed.

Lemma opened_log open_db P B sc cc db :
  holds_log open_db P B → initialize_storage open_db sc cc = Ok db →
  match ms_new (RateLimitedDb_new db) with Ok tree => log_inv tree P B | Err _ => True | _ => False end.
Proof.
  intros Hdb (st & _ & Hopen%map_err_Ok_inv)%bind_Ok_inv. apply Hdb in Hopen as [Hti Hci].
  unfold ms_new. pose proof (new_log _ _ _ Hti Hci) as Hl. by destruct (new _).
Qed.

Lemma main_total parse open_db io roots_io roots random d P B :
  (∀ t, total (parse t)) → holds_log open_db P B →
  total (main parse open_db io roots_io roots random d).1.
Proof.
  intros Hparse Hdb. unfold main. apply st_total_bind; [apply load_config_total|intros cfg ? _].
  apply st_total_bind; [|intros db ? [Hopen _]%lift_Ok_inv].
  { apply total_bind; [apply total_map_err, select_store_total|]. intros st _. apply total_map_err, Hdb. }
  apply st_total_bind; [apply load_private_key_total|intros key ? _]. apply st_total_bind; [|intros der ? _].
  { unfold lift, derive_public_key_der_from_p256. by destruct (to_public_key_der_ok key) as [der ->]. }
  apply st_total_bind; [|intros tree ? _].
  { apply total_map_err. pose proof (opened_log _ _ _ _ _ _ Hdb Hopen). by destruct (ms_new _). }
  apply st_total_bind; [by apply init_validation_total|intros cc ? _].
  apply st_total_bind; [apply total_map_err, api_state_total|done].
Qed.

Lemma main_parts parse open_db io roots_io roots random d r d' :
  main parse open_db io roots_io roots random d = (Ok r, d') →
  ∃ cfg db tree cc, load_config io random d = (Ok cfg : res BErr AppConfig, d') ∧
    initialize_storage open_db (storage_config cfg) (cache_config cfg) = Ok db ∧
    ms_new (RateLimitedDb_new db) = Ok tree ∧
    init_validation (DbErr := SlateDBError) parse roots_io roots (validation cfg) = Ok cc ∧
    r = {| api_state := api_state r;
           server_state := {| storage := CtStorage_new tree;
             validator := match cc with Some (_, shared) => shared_validator shared | None => None end |};
           batch_worker := start tree; ccadb_worker := cc |}.
Proof.
  unfold main. intros Hm. run_step Hm cfg d1 Hcfg. run_step Hm db d2 Hopen. apply lift_Ok_inv in Hopen as [Hopen ->].
  run_step Hm key d2 Hkey. apply load_private_key_ok in Hkey as [-> _].
  run_step Hm der d2 Hder. apply lift_Ok_inv in Hder as [_ ->].
  run_step Hm tree d2 Htree. apply lift_Ok_inv in Htree as [Htree%map_err_Ok_inv ->].
  run_step Hm cc d2 Hcc. apply lift_Ok_inv in Hcc as [Hcc ->].
  run_step Hm state d2 Hst. apply lift_Ok_inv in Hst as [_ ->]. apply ret_Ok_inv in Hm as [-> ->].
  by exists cfg, db, tree, cc.
Qed.

(** C40: the program starts or fails with an error.  When the database holds a
    log, the server that [main] starts serves that log, as the theorems on the
    handlers require; validation runs exactly when it is configured and enabled,
    with the configuration that was read; the batch worker begins with an empty
    queue on the same tree; and log ID and keys are those of the key file. *)
Theorem main_correct D parse open_db io roots_io roots random d P B :
  (∀ t, total (parse t)) → holds_log open_db P B → roots_domain D roots →
  spec (main parse open_db io roots_io roots random) d
    (λ r d', storage_inv (storage (server_state r)) P B ∧ vinv D (validator (server_state r)) ∧
       batch_worker r = start (ct_tree (storage (server_state r))) ∧
       ∃ cfg, load_config io random d = (Ok cfg : res BErr AppConfig, d') ∧
         identity cfg d' (api_state r) ∧ validation_as_configured parse cfg r)
    (λ _ _, True).
Proof.
  intros Hparse Hdb Hroots. unfold spec. pose proof (main_total parse open_db io roots_io roots random d P B Hparse Hdb) as Ht.
  destruct (main parse open_db io roots_io roots random d) as [[r|e| |] d'] eqn:Hm; try done. clear Ht.
  pose proof (main_inv _ _ _ _ _ _ _ _ _ Hm) as (cfg & Hcfg & Hid).
  destruct (main_parts _ _ _ _ _ _ _ _ _ Hm) as (cfg' & db & tree & cc & Hcfg' & Hopen & Htree & Hcc & Hr).
  assert (cfg' = cfg) as -> by congruence. pose proof (opened_log _ _ _ _ _ _ Hdb Hopen) as Hl. rewrite Htree in Hl.
  rewrite Hr in Hid |- *. clear Hr. cbn [server_state storage validator batch_worker].
  split; [by apply fresh_storage|]. split; [|split; [done|]].
  - destruct cc as [[worker s]|]; [|done]. by eapply init_validation_domain.
  - exists cfg. split; [done|]. split; [done|]. by eapply init_validation_configured.
Qed.

End Serving.
