(* ===== verification/GenCerts.v ===== *)
(** * The certificates of the load test

    src/benchmark/src/gen_certs.rs: a certificate authority, and as many leaf
    certificates as asked for, spread over one file for each of ten threads.  The
    keys, the random numbers and the signatures of crate [openssl] are
    parameters. *)

From S2P Require Import Prelude KvStore TreeStore Types Tiles.

(** ** Certificates *)

Abbreviation RelativeName := (list (string * string)).

(** The extensions that are added, in the order of the builder. *)
Inductive RequestExtension :=
  | BasicConstraints (critical ca : bool)
  | KeyUsage (critical key_cert_sign crl_sign : bool)
  | ExtendedKeyUsage (server_auth : bool)
  | SubjectAlternativeName (dns : string).

(** What the [X509Builder] was given; the validity in days from now. *)
Record CertRequest (Key : Type) := {
  r_version : Z;
  r_serial : Z;
  r_subject : RelativeName;
  r_issuer : RelativeName;
  r_pubkey : Key;
  r_not_before : Z;
  r_not_after : Z;
  r_extensions : list RequestExtension;
}.
Arguments r_version {Key}.
Arguments r_serial {Key}.
Arguments r_subject {Key}.
Arguments r_issuer {Key}.
Arguments r_pubkey {Key}.
Arguments r_not_before {Key}.
Arguments r_not_after {Key}.
Arguments r_extensions {Key}.

(** [EcKey::generate], [rand::thread_rng], [sign] and [build], and the
    encodings; any of them may fail. *)
Class CertBuilder := {
  Key : Type;
  Cert : Type;
  Random : Type;
  new_key : Random → res string Key * Random;
  random_u32 : Random → Z * Random;
  sign_and_build : CertRequest Key → Key → res string Cert;
  issuer_of : Cert → RelativeName;
  pem_of_cert : Cert → res string bytes;
  pem_of_key : Key → res string bytes;
}.

(** They return, and a certificate names its issuer. *)
Class CertBuilderLaws `{CertBuilder} := {
  new_key_total r : total (new_key r).1;
  sign_total q k : total (sign_and_build q k);
  pem_of_cert_total c : total (pem_of_cert c);
  pem_of_key_total k : total (pem_of_key k);
  issuer_law q k c : sign_and_build q k = Ok c → issuer_of c = r_issuer q;
}.

(** ** Files *)

(** Why a call fails, if it does, and what a failed write leaves in the file. *)
Inductive FileCall := CreateDirAll (path : string) | WriteAll (path : string)
  | CreateFile (path : string) | AppendTo (path : string) (written : nat).
Record FileIo := {
  file_fault : FileCall → option string;
  partly_written : FileCall → option bytes;
}.

Inductive GenError := ExitCode (code : Z) | Boxed (msg : string).

Section GenCerts.
  Context `{CertBuilder}.

(** Randomness and the files by path. *)
Record GenState := { randomness : Random; files : gmap string bytes }.
Abbreviation M := (stM GenState GenError).

Definition set_file (path : string) (content : bytes) (s : GenState) : GenState :=
  {| randomness := randomness s; files := <[path := content]> (files s) |}.

Definition draw_key : M Key := λ s,
  let (r, rng) := new_key (randomness s) in
  (map_err Boxed r, {| randomness := rng; files := files s |}).
Definition draw_u32 : M Z := λ s,
  let (n, rng) := random_u32 (randomness s) in (Ok n, {| randomness := rng; files := files s |}).

Definition fs_create_dir_all (io : FileIo) (path : string) : M unit :=
  match file_fault io (CreateDirAll path) with Some e => fail (Boxed e) | None => mret tt end.

(** A call that makes [content] the content of [path]. *)
Definition put_file (io : FileIo) (call : FileCall) (path : string) (content : bytes) : M unit :=
  match file_fault io call with
  | Some e =>
      match partly_written io call with Some part => modify (set_file path part) | None => mret tt end;;
      fail (Boxed e)
  | None => modify (set_file path content)
  end.
Definition write_file (io : FileIo) (path : string) (content : bytes) : M unit :=
  put_file io (WriteAll path) path content.
Definition create_file (io : FileIo) (path : string) : M unit :=
  put_file io (CreateFile path) path [].
(** [write_all] on a file that was created. *)
Definition append_file (io : FileIo) (path : string) (content : bytes) : M unit :=
  old ← gets (λ s, default [] (files s !! path));
  put_file io (AppendTo path (length old)) path (old ++ content).

(** ** [create_ca] and [generate_certificate] *)

Definition ca_name : RelativeName := [("C", "US"); ("O", "CT Benchmark"); ("CN", "Benchmark CA")].
Definition ca_request (key : Key) (serial : Z) : CertRequest Key :=
  {| r_version := 2; r_serial := serial; r_subject := ca_name; r_issuer := ca_name; r_pubkey := key;
     r_not_before := 0; r_not_after := 30;
     r_extensions := [BasicConstraints true true; KeyUsage true true true] |}.

Definition create_ca : M (Key * Cert) :=
  private_key ← draw_key;
  serial_number ← draw_u32;
  certificate ← lift (map_err Boxed (sign_and_build (ca_request private_key serial_number) private_key));
  mret (private_key, certificate).

Definition leaf_host (index : Z) : string := "bench-" +:+ pretty index +:+ ".example.com".
Definition leaf_request (issuer : RelativeName) (key : Key) (serial index : Z) : CertRequest Key :=
  {| r_version := 2; r_serial := serial;
     r_subject := [("C", "US"); ("O", "CT Benchmark"); ("CN", leaf_host index)];
     r_issuer := issuer; r_pubkey := key; r_not_before := 0; r_not_after := 90;
     r_extensions := [ExtendedKeyUsage true; SubjectAlternativeName (leaf_host index)] |}.

Definition generate_certificate (ca_key : Key) (ca_cert : Cert) (index : Z) : M Cert :=
  pkey ← draw_key;
  serial_number ← draw_u32;
  lift (map_err Boxed (sign_and_build (leaf_request (issuer_of ca_cert) pkey serial_number index) ca_key)).

(** ** [main] *)

Definition num_threads : Z := 10.

(** The loop over the certificates of a thread, and that over the threads. *)
Fixpoint cert_loop (io : FileIo) (ca_key : Key) (ca_cert : Cert) (pem_path : string) (n : nat)
    (cert_index : Z) : M Z :=
  match n with
  | O => mret cert_index
  | S n' =>
      cert ← generate_certificate ca_key ca_cert cert_index;
      cert_pem ← lift (map_err Boxed (pem_of_cert cert));
      append_file io pem_path cert_pem;;
      cert_loop io ca_key ca_cert pem_path n' (cert_index +! 1)
  end.

Definition thread_file (thread_id : Z) : string := "leafs_thread_" +:+ pretty thread_id +:+ ".pem".
Definition thread_path (output_dir : string) (thread_id : Z) : string :=
  path_join output_dir (thread_file thread_id).
Definition thread_certs (num_certs thread_id : Z) : Z :=
  if thread_id <? num_certs mod num_threads then num_certs / num_threads +! 1
  else num_certs / num_threads.

Fixpoint thread_loop (io : FileIo) (ca_key : Key) (ca_cert : Cert) (output_dir : string) (num_certs : Z)
    (thread_ids : list Z) (cert_index : Z) : M Z :=
  match thread_ids with
  | [] => mret cert_index
  | thread_id :: rest =>
      let pem_path := thread_path output_dir thread_id in
      create_file io pem_path;;
      cert_index ← cert_loop io ca_key ca_cert pem_path (Z.to_nat (thread_certs num_certs thread_id))
                     cert_index;
      thread_loop io ca_key ca_cert output_dir num_certs rest cert_index
  end.

Definition gen_main (io : FileIo) (args : list string) : M unit :=
  match args with
  | [_; number; output_dir] =>
      num_certs ← lift (ok_or (parse_u64 number) (Boxed "invalid digit found in string"));
      fs_create_dir_all io output_dir;;
      '(ca_key, ca_cert) ← create_ca;
      ca_pem ← lift (map_err Boxed (pem_of_cert ca_cert));
      write_file io (path_join output_dir "ca.crt") ca_pem;;
      key_pem ← lift (map_err Boxed (pem_of_key ca_key));
      write_file io (path_join output_dir "ca.key") key_pem;;
      ca_pem ← lift (map_err Boxed (pem_of_cert ca_cert));
      write_file io (path_join output_dir "ca.pem") ca_pem;;
      thread_loop io ca_key ca_cert output_dir num_certs (zrange 0 num_threads) 0;;
      mret tt
  | [] => lift Panic
  | _ => fail (ExitCode 1)
  end.

(** ** What a run leaves *)

(** [pem] is the certificate of [index], under the key of the authority. *)
Definition issued_leaf (ca_key : Key) (index : Z) (pem : bytes) : Prop :=
  ∃ key serial cert, sign_and_build (leaf_request ca_name key serial index) ca_key = Ok cert ∧
    pem_of_cert cert = Ok pem.
Definition issued_from (ca_key : Key) (index : Z) (pems : list bytes) : Prop :=
  ∀ i pem, pems !! i = Some pem → issued_leaf ca_key (index + Z.of_nat i) pem.

(** The first index of a thread: the remainder goes to the first threads. *)
Definition first_cert (num_certs thread_id : Z) : Z :=
  thread_id * (num_certs / num_threads) + thread_id `min` (num_certs mod num_threads).

(** The first [threads] files hold [pems], each thread its indices. *)
Definition threads_hold (dir : string) (num_certs threads : Z) (pems : list bytes)
    (fs : gmap string bytes) : Prop :=
  zlen pems = first_cert num_certs threads ∧
  ∀ t, 0 ≤ t < threads →
    fs !! thread_path dir t = Some (concat (zslice (first_cert num_certs t) (first_cert num_certs (t + 1)) pems)).

(** The files of a load test with [num_certs] certificates. *)
Definition holds_load (dir : string) (num_certs : Z) (fs : gmap string bytes) : Prop :=
  ∃ ca_key ca_cert serial ca_pem key_pem pems,
    sign_and_build (ca_request ca_key serial) ca_key = Ok ca_cert ∧
    pem_of_cert ca_cert = Ok ca_pem ∧ pem_of_key ca_key = Ok key_pem ∧
    fs !! path_join dir "ca.crt" = Some ca_pem ∧ fs !! path_join dir "ca.pem" = Some ca_pem ∧
    fs !! path_join dir "ca.key" = Some key_pem ∧
    zlen pems = num_certs ∧ issued_from ca_key 0 pems ∧
    threads_hold dir num_certs num_threads pems fs.

(** ** Paths and indices *)

Definition output_files : list string :=
  ["ca.crt"; "ca.key"; "ca.pem"] ++ (thread_file <$> zrange 0 num_threads).
Lemma output_files_nodup : NoDup output_files.
Proof. apply (bool_decide_unpack _). by vm_compute. Qed.

Lemma thread_file_inj t u :
  0 ≤ t < num_threads → 0 ≤ u < num_threads → thread_file t = thread_file u → t = u.
Proof.
  intros Ht Hu Heq. pose proof output_files_nodup as (_ & _ & Hnd)%NoDup_app.
  assert (∀ v, 0 ≤ v < num_threads → (thread_file <$> zrange 0 num_threads) !! Z.to_nat v = Some (thread_file v)) as Hat.
  { intros v Hv. rewrite list_lookup_fmap. unfold zrange. rewrite lookup_seqZ_lt by lia. cbn. do 2 f_equal. lia. }
  assert (Z.to_nat t = Z.to_nat u); [|lia].
  eapply NoDup_lookup; [exact Hnd|by apply Hat|]. rewrite Heq. by apply Hat.
Qed.

Lemma thread_file_not_ca t name :
  0 ≤ t < num_threads → name ∈ ["ca.crt"; "ca.key"; "ca.pem"] → thread_file t ≠ name.
Proof.
  intros Ht Hname <-. pose proof output_files_nodup as (_ & Hnd & _)%NoDup_app.
  apply (Hnd _ Hname), list_elem_of_fmap. exists t. by rewrite elem_of_zrange.
Qed.

Lemma first_cert_step n t :
  0 ≤ n < 2 ^ 64 → 0 ≤ t < num_threads → first_cert n t + thread_certs n t = first_cert n (t + 1).
Proof.
  unfold first_cert, thread_certs, num_threads. intros Hn Ht.
  pose proof (Z.div_mod n 10). pose proof (Z.mod_pos_bound n 10).
  zbool; [rewrite u64_small by (split; Z.div_mod_to_equations; lia)|]; lia.
Qed.
Lemma thread_certs_nonneg n t : 0 ≤ n < 2 ^ 64 → 0 ≤ thread_certs n t.
Proof.
  unfold thread_certs, num_threads. intros Hn.
  zbool; [rewrite u64_small|]; try split; Z.div_mod_to_equations; lia.
Qed.
Lemma first_cert_all n : first_cert n num_threads = n.
Proof. unfold first_cert, num_threads. Z.div_mod_to_equations. lia. Qed.

Lemma first_cert_bounds n t : 0 ≤ n → 0 ≤ t ≤ num_threads → 0 ≤ first_cert n t ≤ n.
Proof.
  unfold first_cert, num_threads. intros Hn Ht. pose proof (Z.div_mod n 10). pose proof (Z.mod_pos_bound n 10).
  pose proof (Z.div_pos n 10). nia.
Qed.

Lemma parse_digits_range s acc n :
  0 ≤ acc < 2 ^ 64 → parse_digits s acc = Some n → 0 ≤ n < 2 ^ 64.
Proof.
  revert acc. induction s as [|a s IH]; intros acc Hacc; cbn [parse_digits]; [by intros [= <-]|].
  destruct (digit_value a) as [d|] eqn:Hd; [|done]. cbn [mbind option_bind].
  unfold digit_value in Hd. destruct (_ && _) eqn:Hr in Hd; [|done]. injection Hd as <-.
  apply andb_true_iff in Hr as [Hlo%Z.leb_le Hhi%Z.leb_le].
  unfold U64_MAX. zbool; [done|]. intros Hp. eapply IH; [|exact Hp]. lia.
Qed.
Lemma parse_u64_range s n : parse_u64 s = Some n → 0 ≤ n < 2 ^ 64.
Proof.
  destruct s as [|a s]; [done|]. unfold parse_u64.
  destruct (bool_decide _); [destruct s; [done|]|]; apply parse_digits_range; lia.
Qed.

(** ** Specifications *)

Context `{!CertBuilderLaws}.

Definition boxed (e : GenError) (_ : GenState) : Prop := ∃ msg, e = Boxed msg.
#[local] Hint Unfold boxed : core.

Lemma lift_boxed_spec {A} (r : res string A) s (Q : A → GenState → Prop) :
  total r → (∀ a, r = Ok a → Q a s) → spec (lift (map_err Boxed r)) s Q boxed.
Proof. destruct r; cbn; eauto. Qed.

Lemma draw_key_spec s :
  spec draw_key s (λ _ s', files s' = files s) boxed.
Proof.
  unfold spec, draw_key. pose proof (new_key_total (randomness s)) as Ht.
  destruct (new_key _) as [[] rng]; cbn in *; eauto.
Qed.
Lemma draw_u32_spec s : spec draw_u32 s (λ _ s', files s' = files s) boxed.
Proof. unfold spec, draw_u32. by destruct (random_u32 _). Qed.

Lemma put_file_spec io call path content s :
  spec (put_file io call path content) s (λ _ s', files s' = <[path := content]> (files s)) boxed.
Proof.
  unfold put_file. destruct (file_fault io call) as [e|].
  - apply spec_bind. destruct (partly_written io call); [apply spec_modify|apply spec_ret];
      apply spec_fail; eauto.
  - by apply spec_modify.
Qed.
Lemma append_file_spec io path content old s :
  files s !! path = Some old →
  spec (append_file io path content) s (λ _ s', files s' = <[path := old ++ content]> (files s)) boxed.
Proof.
  intros Hold. unfold append_file. apply spec_bind, spec_gets. rewrite Hold. apply put_file_spec.
Qed.

(** The next step of the computation, by the specification [lem]. *)
Ltac next_step lem := apply spec_bind; eapply spec_mono; [apply lem| |by auto].

Lemma create_ca_spec s :
  spec create_ca s (λ '(key, cert) s', files s' = files s ∧
    ∃ serial, sign_and_build (ca_request key serial) key = Ok cert) boxed.
Proof.
  unfold create_ca. next_step draw_key_spec. intros key s1 H1. next_step draw_u32_spec. intros serial s2 H2.
  apply spec_bind, lift_boxed_spec; [apply sign_total|]. intros cert Hc. apply spec_ret.
  split; [congruence|eauto].
Qed.

Lemma generate_certificate_spec ca_key ca_cert index s :
  issuer_of ca_cert = ca_name →
  spec (generate_certificate ca_key ca_cert index) s (λ cert s', files s' = files s ∧
    ∃ key serial, sign_and_build (leaf_request ca_name key serial index) ca_key = Ok cert) boxed.
Proof.
  intros Hi. unfold generate_certificate. next_step draw_key_spec. intros key s1 H1.
  next_step draw_u32_spec. intros serial s2 H2. apply lift_boxed_spec; [apply sign_total|].
  rewrite Hi. intros cert Hc. split; [congruence|eauto].
Qed.

Lemma issued_from_cons ca_key index pem pems :
  issued_leaf ca_key index pem → issued_from ca_key (index + 1) pems → issued_from ca_key index (pem :: pems).
Proof.
  intros Hpem Hpems [|i] p; cbn [lookup list_lookup].
  - intros [= <-]. by rewrite Z.add_0_r.
  - intros Hp. replace (index + Z.of_nat (S i)) with (index + 1 + Z.of_nat i) by lia. by apply Hpems.
Qed.
Lemma issued_from_app ca_key index pems more :
  issued_from ca_key index pems → issued_from ca_key (index + zlen pems) more →
  issued_from ca_key index (pems ++ more).
Proof.
  intros H1 H2 i p [Hp|[Hlen Hp]]%lookup_app_Some; [by apply H1|].
  replace (index + Z.of_nat i) with (index + zlen pems + Z.of_nat (i - length pems)) by lia. by apply H2.
Qed.

Lemma cert_loop_spec io ca_key ca_cert path n index old s :
  issuer_of ca_cert = ca_name → 0 ≤ index → index + Z.of_nat n < 2 ^ 64 → files s !! path = Some old →
  spec (cert_loop io ca_key ca_cert path n index) s (λ index' s', index' = index + Z.of_nat n ∧
    ∃ pems, length pems = n ∧ issued_from ca_key index pems ∧
      files s' = <[path := old ++ concat pems]> (files s)) boxed.
Proof.
  intros Hi. revert index old s. induction n as [|n IH]; intros index old s Hpos Hn Hold; cbn [cert_loop].
  - apply spec_ret. split; [lia|]. exists []. split_and!; [done|by intros i p|].
    cbn. rewrite app_nil_r. by rewrite insert_id.
  - apply spec_bind. eapply spec_mono; [by apply generate_certificate_spec| |by auto].
    intros cert s1 (H1 & key & serial & Hc). apply spec_bind, lift_boxed_spec; [apply pem_of_cert_total|].
    intros pem Hpem. apply spec_bind. eapply spec_mono; [apply append_file_spec; by rewrite H1| |by auto].
    intros ? s2 H2. rewrite u64_small by lia.
    eapply spec_mono; [apply (IH _ (old ++ pem)); [lia|lia|by rewrite H2, lookup_insert_eq]| |by auto].
    intros index' s3 (-> & pems & Hlen & Hpems & H3). split; [lia|]. exists (pem :: pems).
    split_and!; [by rewrite <- Hlen|apply issued_from_cons; [by exists key, serial, cert|done]|].
    rewrite H3, H2, H1, insert_insert_eq. cbn [concat]. by rewrite <- app_assoc.
Qed.

(** A path that no thread writes. *)
Definition other_path (dir p : string) : Prop :=
  ∀ t, 0 ≤ t < num_threads → p ≠ thread_path dir t.
Lemma ca_other_path dir name : name ∈ ["ca.crt"; "ca.key"; "ca.pem"] → other_path dir (path_join dir name).
Proof. intros Hname t Ht Heq%path_join_inj. by eapply thread_file_not_ca. Qed.

(** One more thread. *)
Lemma threads_hold_step dir n t pems more fs :
  0 ≤ n < 2 ^ 64 → 0 ≤ t < num_threads → threads_hold dir n t pems fs → zlen more = thread_certs n t →
  threads_hold dir n (t + 1) (pems ++ more) (<[thread_path dir t := concat more]> fs).
Proof.
  intros Hn Ht [Hlen Hfs] Hmore. pose proof (first_cert_step n t Hn Ht) as Hstep. split.
  { rewrite length_app. lia. }
  intros u Hu. destruct (decide (u = t)) as [->|Hut].
  - rewrite lookup_insert_eq. do 2 f_equal. unfold zslice. rewrite drop_app_length' by lia.
    rewrite take_ge; [done|lia].
  - rewrite lookup_insert_ne by (intros Heq%path_join_inj%thread_file_inj; lia).
    rewrite Hfs by lia. do 2 f_equal. symmetry. apply zslice_app_l.
    + apply first_cert_bounds; lia.
    + rewrite Hlen. unfold first_cert, num_threads in *. Z.div_mod_to_equations. nia.
Qed.

Lemma thread_loop_spec io ca_key ca_cert dir n (k : nat) t pems s :
  issuer_of ca_cert = ca_name → 0 ≤ n < 2 ^ 64 → 0 ≤ t → t + Z.of_nat k = num_threads →
  threads_hold dir n t pems (files s) → issued_from ca_key 0 pems →
  spec (thread_loop io ca_key ca_cert dir n (zrange t num_threads) (first_cert n t)) s
    (λ _ s', ∃ all, threads_hold dir n num_threads all (files s') ∧ issued_from ca_key 0 all ∧
      ∀ p, other_path dir p → files s' !! p = files s !! p) boxed.
Proof.
  intros Hi Hn. revert t pems s. induction k as [|k IH]; intros t pems s Ht Hk Hfs Hpems.
  { replace t with num_threads in * by lia. apply spec_ret. by exists pems. }
  assert (zrange t num_threads = t :: zrange (t + 1) num_threads) as ->.
  { unfold zrange. rewrite seqZ_cons by lia. f_equal. f_equal; lia. }
  assert (0 ≤ t < num_threads) as Hin by lia.
  pose proof (first_cert_step n t Hn Hin) as Hstep. pose proof (thread_certs_nonneg n t Hn) as Hpos.
  pose proof Hfs as [Hlen _]. cbn [thread_loop].
  next_step put_file_spec. intros ? s1 H1. apply spec_bind. eapply spec_mono; [eapply cert_loop_spec| |by auto].
  { done. } { lia. } { pose proof (first_cert_bounds n (t + 1)). lia. } { rewrite H1. apply lookup_insert_eq. }
  intros index s2 (-> & more & Hmore & Hiss & H2). cbn [app] in H2. rewrite H1, insert_insert_eq in H2.
  replace (first_cert n t + _) with (first_cert n (t + 1)) by lia.
  eapply spec_mono; [eapply (IH _ (pems ++ more))| |by auto]; [lia|lia| | |].
  - rewrite H2. apply threads_hold_step; [done|done|done|lia].
  - apply issued_from_app; [done|]. by rewrite Hlen.
  - intros _ s3 (all & Hall & Hissued & Hother). exists all. split_and!; [done|done|].
    intros p Hp. rewrite Hother, H2 by done. apply lookup_insert_ne. intros Heq. by eapply Hp.
Qed.

(** The last write to a path of the authority counts. *)
Lemma lookup_ca_file dir a b (v w : bytes) (fs : gmap string bytes) :
  a ≠ b → fs !! path_join dir a = Some v → <[path_join dir b := w]> fs !! path_join dir a = Some v.
Proof. intros Hab Ha. rewrite lookup_insert_ne; [done|]. by intros ->%path_join_inj. Qed.

Lemma run_spec io prog number dir s :
  spec (gen_main io [prog; number; dir]) s
    (λ _ s', ∃ n, parse_u64 number = Some n ∧ holds_load dir n (files s')) boxed.
Proof.
  unfold gen_main. destruct (parse_u64 number) as [n|] eqn:Hn; [|by eexists].
  pose proof (parse_u64_range _ _ Hn) as Hrange. apply spec_bind. eapply spec_lift_ok; [done|].
  apply spec_bind. eapply (spec_mono _ _ (λ _ s', s' = s)); [|intros ? s1 ->|by auto].
  { unfold fs_create_dir_all. destruct (file_fault io _); [by eexists|done]. }
  next_step create_ca_spec. intros [ca_key ca_cert] s1 (H1 & serial & Hca).
  apply spec_bind, lift_boxed_spec; [apply pem_of_cert_total|]. intros ca_pem Hpem.
  next_step put_file_spec. intros ? s2 H2.
  apply spec_bind, lift_boxed_spec; [apply pem_of_key_total|]. intros key_pem Hkey.
  next_step put_file_spec. intros ? s3 H3.
  apply spec_bind, lift_boxed_spec; [apply pem_of_cert_total|]. intros ca_pem' Hpem'.
  assert (ca_pem' = ca_pem) as -> by congruence. next_step put_file_spec. intros ? s4 H4.
  assert (first_cert n 0 = 0) as Hfirst by (unfold first_cert, num_threads; Z.div_mod_to_equations; lia).
  apply spec_bind. pose proof (thread_loop_spec io ca_key ca_cert dir n 10 0 [] s4) as Hloop.
  rewrite Hfirst in Hloop. eapply spec_mono; [apply Hloop| |by auto].
  { by apply issuer_law in Hca. } { done. } { done. } { done. }
  { split; [done|lia]. } { by intros i p. }
  intros ? s5 (pems & Hthreads & Hissued & Hother). apply spec_ret. exists n. split; [done|].
  exists ca_key, ca_cert, serial, ca_pem, key_pem, pems. destruct Hthreads as [Hlen Hfs].
  rewrite !Hother by (apply ca_other_path; set_solver). rewrite H4, H3, H2.
  split_and!; try done.
  - do 2 (apply lookup_ca_file; [done|]). apply lookup_insert_eq.
  - apply lookup_insert_eq.
  - apply lookup_ca_file; [done|]. apply lookup_insert_eq.
  - by rewrite Hlen, first_cert_all.
Qed.

(** Ten files in an output directory, from the arguments of the program: when
    [gen_main] succeeds, the directory named by the second argument holds the
    certificate of a self-signed authority twice and its key, and the threads'
    files hold, one after the other, a certificate signed by that authority for
    each index below the first argument, the indices of a thread being
    consecutive and the shares of two threads differing by at most one; it
    neither panics nor wraps, a wrong number of arguments ends it with code 1
    before it writes anything, and every other failure is reported. *)
Theorem gen_main_correct io args s :
  args ≠ [] →
  spec (gen_main io args) s
    (λ _ s', ∃ prog number dir n, args = [prog; number; dir] ∧ parse_u64 number = Some n ∧
      holds_load dir n (files s'))
    (λ e s', if decide (length args = 3%nat) then ∃ msg, e = Boxed msg else e = ExitCode 1 ∧ s' = s).
Proof.
  intros Hargs. destruct args as [|prog [|number [|dir [|]]]]; try done.
  eapply spec_mono; [apply run_spec| |by intros e s' [msg ->]; exists msg].
  intros _ s' (n & Hn & Hs'). by exists prog, number, dir, n.
Qed.

End GenCerts.

(** ** A builder that numbers its keys and serial numbers *)

Module Counting.

#[export] Instance counting_builder : CertBuilder := {|
  Key := Z; Cert := CertRequest Z; Random := Z;
  new_key r := (Ok r, r + 1);
  random_u32 r := (u32 r, r + 1);
  sign_and_build q _ := Ok q;
  issuer_of := r_issuer;
  pem_of_cert c := Ok [r_serial c];
  pem_of_key k := Ok [k];
|}.
#[export] Instance counting_laws : CertBuilderLaws.
Proof. split; try done. by intros q k c [= <-]. Qed.

Definition no_faults : FileIo := {| file_fault _ := None; partly_written _ := None |}.
Definition disk_full : FileIo :=
  {| file_fault c := match c with AppendTo _ 1 => Some "No space left" | _ => None end;
     partly_written _ := Some [] |}.
Definition run (io : FileIo) (args : list string) := gen_main io args {| randomness := 0; files := ∅ |}.
Definition file_of (r : res GenError unit * GenState) (path : string) : option bytes := files r.2 !! path.

(** Twelve certificates: two for each of the first two threads, one for the others. *)
Lemma run_twelve :
  let r := run no_faults ["gen_certs"; "12"; "out"] in
  r.1 = Ok tt ∧ file_of r "out/ca.crt" = Some [1] ∧ file_of r "out/ca.key" = Some [0] ∧
  file_of r "out/leafs_thread_0.pem" = Some [3; 5] ∧ file_of r "out/leafs_thread_1.pem" = Some [7; 9] ∧
  file_of r "out/leafs_thread_9.pem" = Some [25].
Proof. by vm_compute. Qed.
Lemma run_disk_full :
  let r := run disk_full ["gen_certs"; "12"; "out"] in
  r.1 = Err (Boxed "No space left") ∧ file_of r "out/leafs_thread_1.pem" = None.
Proof. by vm_compute. Qed.
Lemma run_usage : (run no_faults ["gen_certs"; "12"]).1 = Err (ExitCode 1).
Proof. done. Qed.

End Counting.
