(* ===== verification/TestUtils.v ===== *)
(** * The certificates of the tests

    src/src/test_utils.rs: the fixed certificates and precertificates of the unit
    tests, and the issuer key hash that they expect.  The theorems are the unit
    tests of validation/issuer_key_hash.rs for every key and serial number: on
    these certificates the code of the log answers what the helpers say. *)

From S2P Require Import Prelude TreeMath Rfc6962 Inclusion Consistency KvStore TreeStore TreeInv.
From S2P Require Import TreeReads TreePush TreeTiles TreeBatch Types TreeHead Tiles MerkleStorage.
From S2P Require Import CtStorage CtInv CtFlush CtReads CtWorker Api ApiReads.
From S2P Require Import X509 TbsExtraction Validator ValidatorProofs Submit SubmitProofs.

(** What the tests use of the crates [p256], [der] and [x509_cert] to make
    certificates: the key of a seed and its DER encoding, [SubjectPublicKeyInfo::
    from_der], [SerialNumber::new], a name that is one common name, the fields of
    a TBS certificate of version 3 that are not modelled (serial number,
    ECDSA with SHA-256, start of the validity) and [BitString::from_bytes]. *)
Class TestMaterial `{X509Types} := {
  SigningKey : Type;
  SerialNumber : Type;
  signing_key_from_bytes : bytes → res string SigningKey;
  verifying_key_to_der : SigningKey → res string bytes;
  spki_from_der : bytes → res string Spki;
  serial_number_new : bytes → res string SerialNumber;
  common_name : string → res string Name;
  rest_of_tbs : SerialNumber → Z → TbsRest;
  bit_string : bytes → res string CertRest;
}.

(** [Result::unwrap]. *)
Definition unwrapped {E E' A} (r : res E A) : res E' A :=
  match r with Ok a => Ok a | Fuel => Fuel | _ => Panic end.

Lemma unwrapped_Ok {E E' A} (r : res E A) a : unwrapped (E' := E') r = Ok a → r = Ok a.
Proof. destruct r; cbn; congruence. Qed.
(** The next step of a helper that succeeded. *)
Ltac unwrap_step H x Hx :=
  let Hu := fresh in apply bind_Ok_inv in H as (x & Hu & H); pose proof (unwrapped_Ok _ _ Hu) as Hx; clear Hu.

Section TestUtils.
  Context `{SlateDb} `{!DebugDb} `{!DisplayDb} `{Digest} `{X509} `{!TestMaterial}.
  Abbreviation CErr := (CtError SlateDBError).
  Abbreviation R := (res string).

(** ** The helpers *)

Definition create_test_public_key : R bytes :=
  signing_key ← unwrapped (signing_key_from_bytes (repeat 42 32));
  unwrapped (verifying_key_to_der signing_key).

(** Midnight of the first of January, in seconds since 1970. *)
Definition JAN_2023 : Z := 1672531200.
Definition JAN_2024 : Z := 1704067200.
Definition JAN_2025 : Z := 1735689600.

Definition create_test_certificate_with_serial (serial : Z) : R bytes :=
  name ← unwrapped (common_name "Test CA");
  serial_number ← unwrapped (serial_number_new [serial]);
  public_key ← create_test_public_key;
  spki ← unwrapped (spki_from_der public_key);
  let tbs := {| issuer := name; subject := name; not_after := JAN_2025;
                subject_public_key_info := spki; cert_extensions := None;
                tbs_rest := rest_of_tbs serial_number JAN_2023 |} in
  signature ← unwrapped (bit_string (repeat 0 64));
  unwrapped (cert_to_der {| tbs_certificate := tbs; signature_algorithm := ECDSA_WITH_SHA256_OID;
                            cert_rest := signature |}).
Definition create_test_certificate : R bytes := create_test_certificate_with_serial 1.

Definition create_precertificate_with_poison_and_serial (serial : Z) : R bytes :=
  name ← unwrapped (common_name "Test Entity");
  issuer_name ← unwrapped (common_name "Test CA");
  null ← unwrapped (octet_string_new [5; 0]);
  let poison_ext := {| extn_id := CT_POISON_EXTENSION_OID; critical := true; extn_value := null |} in
  serial_number ← unwrapped (serial_number_new [serial]);
  public_key ← create_test_public_key;
  spki ← unwrapped (spki_from_der public_key);
  let tbs := {| issuer := issuer_name; subject := name; not_after := JAN_2025;
                subject_public_key_info := spki; cert_extensions := Some [poison_ext];
                tbs_rest := rest_of_tbs serial_number JAN_2024 |} in
  signature ← unwrapped (bit_string (repeat 0 64));
  unwrapped (cert_to_der {| tbs_certificate := tbs; signature_algorithm := ECDSA_WITH_SHA256_OID;
                            cert_rest := signature |}).
(** The source repeats the code, with serial number 2. *)
Definition create_precertificate_with_poison : R bytes :=
  create_precertificate_with_poison_and_serial 2.

Definition extract_test_issuer_key_hash (chain : list bytes) : R bytes :=
  assert_that (2 <=? length chain)%nat;;
  issuer_der ← expect (chain !! 1%nat);
  issuer_cert ← unwrapped (from_der issuer_der);
  spki_der ← unwrapped (spki_to_der (subject_public_key_info (tbs_certificate issuer_cert)));
  mret (digest spki_der).

(** ** What they make *)

Context `{!X509Laws} `{!X509Canonical}.

Lemma test_certificate_parses serial b :
  create_test_certificate_with_serial serial = Ok b →
  ∃ cert, from_der b = Ok cert ∧ cert_extensions (tbs_certificate cert) = None.
Proof.
  unfold create_test_certificate_with_serial. intros Hb. unwrap_step Hb name Hn. unwrap_step Hb number Hnumber.
  apply bind_Ok_inv in Hb as (key & Hk & Hb). unwrap_step Hb spki Hsp. cbv zeta in Hb. unwrap_step Hb sg Hsg.
  apply unwrapped_Ok, der_encode_parse in Hb. by eexists.
Qed.

Definition poison_of_tests : X509Extension :=
  {| extn_id := CT_POISON_EXTENSION_OID; critical := true; extn_value := ASN1_NULL |}.
Lemma test_precert_parses serial b :
  create_precertificate_with_poison_and_serial serial = Ok b →
  ∃ cert, from_der b = Ok cert ∧ cert_extensions (tbs_certificate cert) = Some [poison_of_tests].
Proof.
  unfold create_precertificate_with_poison_and_serial. intros Hb.
  unwrap_step Hb name Hn. unwrap_step Hb iname Hin. unwrap_step Hb null Hnull. cbv zeta in Hb.
  unwrap_step Hb number Hnumber. apply bind_Ok_inv in Hb as (key & Hk & Hb). unwrap_step Hb spki Hsp.
  unwrap_step Hb sg Hsg. apply octet_string_bytes in Hnull as ->.
  apply unwrapped_Ok, der_encode_parse in Hb. by eexists.
Qed.

(** The helper is right, as its comment says, for a chain whose issuer is at
    index 1, that is, without a precertificate signing certificate. *)
Lemma test_hash_minimal p c rest leaf cert h :
  from_der p = Ok leaf → find_extension CT_POISON_EXTENSION_OID leaf ≠ None →
  from_der c = Ok cert → is_signing_cert cert = false →
  extract_test_issuer_key_hash (p :: c :: rest) = Ok h ↔
  extract_issuer_key_hash_minimal (p :: c :: rest) = Ok h.
Proof.
  intros Hp Hpo Hc Hs. rewrite minimal_hash. unfold extract_test_issuer_key_hash. cbn.
  rewrite Hc. cbn. split.
  - intros Hh. unwrap_step Hh spki Hsp. injection Hh as <-. exists leaf, cert, spki.
    split_and!; try done. by constructor.
  - intros (leaf' & real & spki & _ & _ & Hca & Hsp & ->).
    inversion Hca as [? ? ? Hc'|? ? ? ? ? Hc']; subst; [|congruence].
    assert (real = cert) as -> by congruence. by rewrite Hsp.
Qed.

(** The unit tests of issuer_key_hash.rs: the hash behind a precertificate of
    the tests that is followed by a test certificate is the expected one, and
    only such a chain has one: the messages are those that the tests look for. *)
Theorem test_chain_issuer_key_hash serial serial' p c :
  create_precertificate_with_poison_and_serial serial = Ok p →
  create_test_certificate_with_serial serial' = Ok c →
  (∀ h, extract_test_issuer_key_hash [p; c] = Ok h ↔ extract_issuer_key_hash_minimal [p; c] = Ok h) ∧
  extract_issuer_key_hash_minimal [c; c] =
    Err (BadRequest "Can only extract issuer key hash for precertificate chains") ∧
  extract_issuer_key_hash_minimal [] = Err (BadRequest "Certificate chain is empty") ∧
  extract_issuer_key_hash_minimal [p] =
    Err (BadRequest "Precertificate chain must include issuer certificate").
Proof.
  intros (leaf & Hp & Hpx)%test_precert_parses (cert & Hc & Hcx)%test_certificate_parses.
  assert (find_extension CT_POISON_EXTENSION_OID leaf ≠ None) as Hpo
    by (unfold find_extension; by rewrite Hpx).
  assert (is_signing_cert cert = false) as Hs by (unfold is_signing_cert, find_extension; by rewrite Hcx).
  split_and!.
  - intros h. by eapply test_hash_minimal.
  - unfold extract_issuer_key_hash_minimal, parse_cert. rewrite Hc. cbn [map_err]. rewrite bind_Ok.
    unfold find_extension. by rewrite Hcx.
  - done.
  - unfold extract_issuer_key_hash_minimal, parse_cert. rewrite Hp. cbn [map_err]. rewrite bind_Ok.
    by rewrite bool_decide_eq_false_2.
Qed.

(** The entry made for a test chain: the precertificate is one, the certificate is
    not, and the TBS certificate that is logged is that of the precertificate
    with no extension left. *)
Theorem test_precert_tbs serial serial' p c :
  create_precertificate_with_poison_and_serial serial = Ok p →
  create_test_certificate_with_serial serial' = Ok c →
  is_precertificate p = Ok true ∧ is_precertificate c = Ok false ∧
  ∃ leaf, from_der p = Ok leaf ∧ ∀ tbs,
    Extractor.extract_tbs_certificate (DbErr := SlateDBError) p [c] = Ok tbs ↔
    tbs_to_der (set_extensions (Some []) (tbs_certificate leaf)) = Ok tbs.
Proof.
  intros (leaf & Hp & Hpx)%test_precert_parses (cert & Hc & Hcx)%test_certificate_parses.
  unfold is_precertificate. rewrite Hp, Hc. cbn. rewrite Hpx, Hcx. split_and!; [done|done|].
  exists leaf. split; [done|]. intros tbs.
  assert (Extractor.has_poison_extension (DbErr := SlateDBError) leaf = Ok true) as Hpo
    by (unfold Extractor.has_poison_extension, Extractor.extensions_of; by rewrite Hpx).
  assert (Extractor.is_precert_signing_cert (DbErr := SlateDBError) cert = Ok false) as Hs
    by (unfold Extractor.is_precert_signing_cert, Extractor.extensions_of; by rewrite Hcx).
  unfold Extractor.extract_tbs_certificate, Extractor.check_transform_needed. rewrite Hp, Hc. cbn [map_err].
  rewrite bind_Ok, Hpo, bind_Ok. cbn [negb]. rewrite bind_Ok, Hs, bind_Ok. cbn [negb]. rewrite !bind_Ok.
  assert (Extractor.remove_poison (tbs_certificate leaf) = set_extensions (Some []) (tbs_certificate leaf)) as ->
    by (unfold Extractor.remove_poison; by rewrite Hpx).
  split; [by intros Hm%map_err_Ok_inv|by intros ->].
Qed.

End TestUtils.
