(* ===== verification/WitnessTree.v ===== *)
(** * Instances of the theorems on trees and encodings

    Each theorem on a concrete input: trees of a few leaves in an in-memory
    store, a proof, a leaf, a page. *)

From S2P Require Import Prelude TreeMath Rfc6962 Inclusion Consistency KvStore TreeStore.
From S2P Require Import Instances TreeInv TreeReads TreePush TreeTiles TreeBatch TreeHistory.
From S2P Require Import Types TreeHead Tiles MerkleStorage Shared TreeSingle.

(** ** Proofs without a store *)

Definition seven : list bytes := map (λ i, [i; i + 1]) [10; 20; 30; 40; 50; 60; 70].

Definition no_collision (l : list bytes) : bool :=
  let ds := map (λ x, (x, digest x)) l in
  forallb (λ x, forallb (λ y, negb (bool_decide (x.2 = y.2)) || bool_decide (x.1 = y.1)) ds) ds.

Lemma collision_free_dec l : no_collision l = true → collision_free l.
Proof.
  unfold no_collision. intros Hl. rewrite forallb_forall in Hl. apply Forall_forall. intros x Hx.
  apply Forall_forall. intros y Hy Heq. specialize (Hl (x, digest x)).
  rewrite forallb_forall in Hl. specialize (Hl ltac:(apply list_elem_of_In, list_elem_of_fmap; eauto) (y, digest y)
    ltac:(apply list_elem_of_In, list_elem_of_fmap; eauto)).
  cbn [fst snd] in Hl. rewrite bool_decide_eq_true_2 in Hl by done. by apply bool_decide_eq_true in Hl.
Qed.

Lemma indices_for_inclusion_proof_path_witness :
  ∃ out, indices_for_inclusion_proof (E := string) 7 5 = Ok out ∧ Forall (valid 7) out ∧
    map (subtree_hash seven 7) out = path 5 (zslice 0 7 seven).
Proof. apply (indices_for_inclusion_proof_path seven 7 5); [unfold size_ok; lia|cbn; lia|lia]. Defined.

Lemma verify_complete_witness :
  verify (from_digests (path 5 (zslice 0 7 seven))) [60; 61] 5
    (RootHash_new (mth (zslice 0 7 seven)) 7) = Ok tt.
Proof. apply (verify_complete seven 7 5 [60; 61]); [unfold size_ok; lia|cbn; lia|lia|done]. Defined.

Lemma verify_sound_witness :
  let pf := from_digests (path 5 (zslice 0 7 seven)) in
  verify pf [60; 61] 5 (RootHash_new (mth (zslice 0 7 seven)) 7) = Ok tt ∧
  as_ref [60; 61] = as_ref [60; 61].
Proof.
  split; [by vm_compute|].
  apply (verify_sound seven 7 5 [60; 61] [60; 61] (from_digests (path 5 (zslice 0 7 seven))));
    [unfold size_ok; lia|cbn; lia|lia|done|by apply collision_free_dec; vm_compute|by vm_compute].
Defined.


Lemma cverify_complete_witness :
  cverify (consistency_from_digests (rfc_proof 3 (zslice 0 7 seven)))
    (RootHash_new (mth (zslice 0 3 seven)) 3) (RootHash_new (mth (zslice 0 7 seven)) 7) = Ok tt.
Proof. apply (cverify_complete seven 7 3); [unfold size_ok; lia|cbn; lia|lia]. Defined.

Lemma cverify_sound_witness :
  let pf := consistency_from_digests (rfc_proof 3 (zslice 0 7 seven)) in
  let h := mth (zslice 0 3 seven) in
  cverify pf (RootHash_new h 3) (RootHash_new (mth (zslice 0 7 seven)) 7) = Ok tt ∧
  h = mth (zslice 0 3 seven).
Proof.
  split; [by vm_compute|].
  apply (cverify_sound seven 7 3 (consistency_from_digests (rfc_proof 3 (zslice 0 7 seven))));
    [unfold size_ok; lia|cbn; lia|lia|by vm_compute|by apply collision_free_dec; vm_compute|by vm_compute].
Defined.

(** ** Stored trees: three leaves, then four more *)

Definition push (items : list bytes) (s : SlateDbBackedTree) : SlateDbBackedTree :=
  run_st (batch_push_with_data items []) s.
Definition tree3 : SlateDbBackedTree := push (take 3 seven) mem_tree.
Definition tree7 : SlateDbBackedTree := push (drop 3 seven) tree3.
Definition bounds7 : gset Z := new_bounds (new_bounds ∅ 3) 7.

Lemma mem_tree_inv {T} `{HashableLeaf T} `{Postcard T} : inv mem_tree ([] : list T) ∅.
Proof.
  split; [by apply tree_inv_empty|]. intros c [= <-] k v Hk. by inversion Hk.
Qed.

Lemma push_inv items s (D : list bytes) B :
  inv s D B → zlen (D ++ items) ≤ 2 ^ 63 → is_ok (batch_push_with_data items [] s).1 = true →
  inv (push items s) (D ++ items) (new_bounds B (zlen (D ++ items))).
Proof.
  intros Hi Hsz Hok. pose proof (batch_push_spec D B s items [] eq_refl Hi Hsz ltac:(constructor)) as Hs.
  unfold spec in Hs. unfold push, run_st. destruct (batch_push_with_data items [] s) as [[] s']; try done.
  apply Hs.
Qed.

Lemma tree3_inv : inv tree3 (take 3 seven) (new_bounds ∅ 3).
Proof. apply (push_inv (take 3 seven) mem_tree []); [apply mem_tree_inv|done|by vm_compute]. Qed.

Lemma tree7_inv : inv tree7 seven bounds7.
Proof. apply (push_inv (drop 3 seven) tree3 (take 3 seven)); [apply tree3_inv|done|by vm_compute]. Qed.

Lemma run_pair {S E A} (m : stM S E A) (s : S) (r : res E A) : (m s).1 = r → m s = (r, (m s).2).
Proof. intros <-. apply surjective_pairing. Qed.

Lemma push_is_batch_witness :
  view (TreeSingle.push [99; 100] tree3).2 = view (batch_push_with_data [[99; 100]] [] tree3).2.
Proof.
  apply (push_is_batch (take 3 seven) (new_bounds ∅ 3) tree3 [99; 100]
    (TreeSingle.push [99; 100] tree3).2 (batch_push_with_data [[99; 100]] [] tree3).2 3).
  - reflexivity.
  - exact tree3_inv.
  - reflexivity.
  - apply run_pair. vm_compute. reflexivity.
  - apply run_pair. vm_compute. reflexivity.
Defined.

Lemma append_snapshots_witness :
  spec (batch_push_with_data (drop 3 seven) []) tree3
    (λ r s', r = 3 ∧ snapshot seven bounds7 7 (view s')) (λ e s', True).
Proof.
  eapply spec_mono.
  - apply (append_snapshots seven bounds7 3 7 tree3 (drop 3 seven) []).
    + reflexivity.
    + split; [lia|]. apply Z.leb_le. reflexivity.
    + change (upto seven 3) with (take 3 seven).
      replace (bounds_upto bounds7 3) with (new_bounds ∅ 3) by (by vm_compute). exact tree3_inv.
    + reflexivity.
    + apply Z.leb_le. reflexivity.
    + reflexivity.
    + by vm_compute.
    + intros v Hv. apply elem_of_new_bounds in Hv as [Hv|[-> _]]; [|by vm_compute].
      apply elem_of_new_bounds in Hv as [Hv|[-> _]]; [|by vm_compute]. by apply not_elem_of_empty in Hv.
    + constructor.
    + apply Z.leb_le. reflexivity.
  - intros r s (Hr & Hs & _). split; [exact Hr|exact Hs].
  - intros e s _. exact I.
Defined.

Lemma root_at_size_witness :
  spec (root_at_size 3) tree7 (λ r _, r = RootHash_new (mth (zslice 0 3 seven)) 3) (λ _ _, True).
Proof.
  eapply spec_mono; [apply (root_at_size_correct seven bounds7 tree7 3)| |done].
  - apply tree7_inv.
  - unfold is_u64. lia.
  - intros r s (_ & _ & _ & Hr). exact Hr.
Defined.

Lemma prove_inclusion_at_size_witness :
  spec (prove_inclusion_at_size 5 7) tree7
    (λ pf _, pf = from_digests (path 5 (zslice 0 7 seven))) (λ _ _, True).
Proof.
  eapply spec_mono; [apply (prove_inclusion_at_size_correct seven bounds7 tree7 5 7)| |done].
  - apply tree7_inv.
  - unfold is_u64. lia.
  - unfold is_u64. lia.
  - intros r s (_ & _ & _ & _ & Hr & _). exact Hr.
Defined.

Lemma prove_consistency_between_witness :
  spec (prove_consistency_between 3 7) tree7
    (λ pf _, cverify pf (RootHash_new (mth (zslice 0 3 seven)) 3)
               (RootHash_new (mth (zslice 0 7 seven)) 7) = Ok tt) (λ _ _, True).
Proof.
  eapply spec_mono; [apply (prove_consistency_between_correct seven bounds7 tree7 3 7)| |done].
  - apply tree7_inv.
  - unfold is_u64. lia.
  - unfold is_u64. lia.
  - intros r s (_ & _ & _ & _ & Hr). apply Hr. done.
Defined.

Lemma batch_push_with_data_witness :
  spec (batch_push_with_data (drop 3 seven) [([1; 2], [3])]) tree3
    (λ r s', r = 3 ∧ inv s' seven bounds7 ∧ view s' !! [1; 2] = Some [3]) (λ _ _, True).
Proof.
  eapply spec_mono; [apply (batch_push_with_data_correct (take 3 seven) (new_bounds ∅ 3) tree3)| |done].
  - reflexivity.
  - apply tree3_inv.
  - done.
  - by repeat constructor.
  - intros r s' [-> [Hi Hv]]. split; [done|]. split; [exact Hi|]. rewrite Hv by done.
    apply lookup_insert_eq.
Defined.

(** A history: opening an empty store, an append, a read. *)
Definition opened : SlateDbBackedTree :=
  match new (RateLimitedDb_new ∅) with Ok tree => tree | _ => mem_tree end.

Lemma opened_reach : reach (read_state (ReadRoot 3) (push (take 3 seven) opened)) [(take 3 seven, true)].
Proof.
  apply reach_read; [|unfold read_op_ok, is_u64; lia].
  apply (reach_push opened [] (take 3 seven) [] (Ok 0)).
  - apply (reach_new (RateLimitedDb_new ∅)); done.
  - done.
  - constructor.
  - unfold push, run_st. rewrite (surjective_pairing (batch_push_with_data (take 3 seven) [] opened)) at 1.
    apply pair_equal_spec. split; [by vm_compute|done].
Qed.


Lemma new_correct_witness :
  match new (tree_db tree7) with Ok tree => inv tree seven bounds7 | _ => False end.
Proof.
  pose proof (new_correct (T := bytes) (tree_db tree7) seven bounds7 (proj1 tree7_inv)) as Hn.
  assert (is_ok (new (tree_db tree7)) = true) as Hok by (by vm_compute).
  destruct (new (tree_db tree7)); [exact Hn|done..].
Defined.

Lemma get_tile_correct_witness :
  spec (get_tile 0 0) tree7 (λ r _, r = None) (λ _ _, True).
Proof.
  eapply spec_mono; [apply (get_tile_correct tree7 seven bounds7 0 0)| |done].
  - apply tree7_inv.
  - lia.
  - unfold is_u64. lia.
  - intros r s [_ Hr]. exact Hr.
Defined.

(** ** Encodings *)

#[export] Instance toy_Signer : Signer :=
  {| SigningKey := bytes; key_from_slice := Some; sign := λ key msg, digest (key ++ msg) |}.

Definition toy_builder : SctBuilder := @Build_SctBuilder toy_Signer (replicate 32 1) [42].

Lemma merkle_tree_leaf_roundtrip_witness :
  ∃ b, serialize_merkle_tree_leaf (E := unit) [5; 6; 7] PrecertEntry (Some (replicate 32 9)) 1700000000000
         (Some 12) = Ok b ∧
    parse_leaf b = Some {| p_timestamp := 1700000000000; p_entry_type := PrecertEntry;
      p_issuer_key_hash := Some (replicate 32 9); p_certificate := [5; 6; 7]; p_index := Some 12 |}.
Proof.
  apply (merkle_tree_leaf_roundtrip [5; 6; 7] PrecertEntry (Some (replicate 32 9)) 1700000000000 (Some 12)).
  unfold leaf_fields_ok. cbn. split_and!; try done; lia.
Defined.

Lemma extensions_roundtrip_witness :
  ct_extensions_decode (ct_extensions_encode [{| extension_type := ExtLeafIndex; extension_data := [0; 0; 0; 1; 2] |}])
    = Ok [{| extension_type := ExtLeafIndex; extension_data := [0; 0; 0; 1; 2] |}] ∧
  leaf_index_from_bytes (leaf_index_as_bytes 258) = Ok 258 ∧
  with_leaf_index (2 ^ 40) = Err "Index exceeds 40-bit range".
Proof.
  destruct extensions_roundtrip as (H1 & H2 & H3).
  split; [apply H1; [by repeat constructor|done]|]. split; [apply H2; lia|apply H3; lia].
Defined.

Lemma sct_signs_leaf_witness :
  let b := toy_builder in
  ∃ sct leaf,
    create_sct_with_timestamp_and_index (DbErr := unit) b [5; 6; 7] X509Entry None 1700000000000 (Some 3) = Ok sct ∧
    compute_leaf_data_with_index (E := CtError unit) [5; 6; 7] X509Entry None 1700000000000 3 = Ok leaf ∧
    get_signature_input sct [5; 6; 7] X509Entry None = leaf ∧
    log_id sct = sct_log_id b ∧ sct_timestamp sct = 1700000000000 ∧
    signature sct = digitally_signed (sign (sct_key b) leaf).
Proof.
  apply (sct_signs_leaf (DbErr := unit) toy_builder [5; 6; 7] X509Entry None 1700000000000 3); lia.
Defined.

Lemma tile_index_roundtrip_witness :
  parse_tile_index (DbErr := unit) (format_tile_index 1234067) = Ok 1234067 ∧
  format_tile_index 1234067 = "x001/x234/067".
Proof. split; [apply (tile_index_roundtrip 1234067); lia|by vm_compute]. Defined.

Lemma page_roundtrip_witness :
  let es := [{| timestamped_entry := [1; 2; 3]; issuer_hashes := [replicate 32 7] |};
             {| timestamped_entry := [4]; issuer_hashes := [] |}] in
  entry_count (page_of 2000 es) = zlen es ∧ entries (page_of 2000 es) = es ∧
  parse_page (page_to_binary (page_of 2000 es)) = Some (page_of 2000 es).
Proof.
  apply page_roundtrip; [lia|cbn; lia|].
  repeat constructor; cbn; lia.
Defined.
