(* ===== verification/LogInstances.v ===== *)
(** * Concrete instances of the parameters of the log

    Serialization of the records through the countable encoding of [stdpp], a
    binary text encoding in the place of base64, a hash order, certificates with
    a canonical encoding and signatures, the formats of the root store, with
    their laws. *)

From S2P Require Import Prelude Rfc6962 KvStore TreeStore Instances Types MerkleStorage CtStorage.
From S2P Require Import Api ApiReads X509 TbsExtraction Validator Ccadb Submit.

(** ** Records *)

#[export] Instance LogEntryType_countable : Countable LogEntryType.
Proof.
  apply (inj_countable' (λ t, match t with X509Entry => true | PrecertEntry => false end)
           (λ b : bool, if b then X509Entry else PrecertEntry)). by intros [].
Defined.

Definition dedup_tuple (d : DeduplicatedLogEntry) :=
  (d_index d, d_timestamp d, d_entry_type d, certificate_hash d, chain_hashes d,
   d_issuer_key_hash d, original_precert_hash d, d_leaf_data d).
Definition tuple_dedup x : DeduplicatedLogEntry :=
  let '(i, t, ty, ch, chs, ikh, oph, l) := x in Build_DeduplicatedLogEntry i t ty ch chs ikh oph l.

Definition sct_tuple (e : CertificateSctEntry) :=
  (se_index e, log_id (se_sct e), sct_timestamp (se_sct e), extensions (se_sct e),
   signature (se_sct e), se_timestamp e).
Definition tuple_sct x : CertificateSctEntry :=
  let '(i, lid, t, ext, sg, ts) := x in
  {| se_index := i; se_sct := Build_SignedCertificateTimestamp V1 lid t ext sg; se_timestamp := ts |}.

(** A serialization from an encoding into [positive]. *)
Definition pos_bytes (p : positive) : bytes := [Z.pos p].
Definition bytes_pos {A} `{Countable A} (b : bytes) : res string A :=
  match b with
  | [Z.pos p] => match decode p with Some x => Ok x | None => Err "invalid encoding" end
  | _ => Err "invalid encoding"
  end.

#[export] Instance dedup_Postcard : Postcard DeduplicatedLogEntry :=
  {| to_stdvec := λ d, Ok (pos_bytes (encode (dedup_tuple d)));
     from_bytes := λ b, tuple_dedup <$> bytes_pos b |}.
#[export] Instance sct_Postcard : Postcard CertificateSctEntry :=
  {| to_stdvec := λ e, Ok (pos_bytes (encode (sct_tuple e)));
     from_bytes := λ b, tuple_sct <$> bytes_pos b |}.

Lemma bytes_pos_total {A} `{Countable A} (b : bytes) :
  match bytes_pos (A := A) b with Ok _ | Err _ => True | _ => False end.
Proof. destruct b as [|[] [|]]; cbn; try done. by destruct (decode _). Qed.

Lemma bytes_pos_encode {A} `{Countable A} (x : A) : bytes_pos (pos_bytes (encode x)) = Ok x.
Proof. cbn. by rewrite decode_encode. Qed.

#[export] Instance dedup_PostcardLaws : PostcardLaws DeduplicatedLogEntry.
Proof.
  split.
  - intros d b [= <-]. cbn [from_bytes dedup_Postcard]. rewrite bytes_pos_encode. by destruct d.
  - done.
  - intros b. cbn [from_bytes dedup_Postcard].
    pose proof (bytes_pos_total (A := Z * Z * LogEntryType * bytes * option (list bytes) * option bytes * option bytes * bytes) b).
    by destruct (bytes_pos b).
Qed.

#[export] Instance sct_PostcardLaws : PostcardLaws CertificateSctEntry.
Proof.
  split.
  - intros e b [= <-]. cbn [from_bytes sct_Postcard]. rewrite bytes_pos_encode.
    by destruct e as [i [[] ? ? ? ?] ts].
  - done.
  - intros b. cbn [from_bytes sct_Postcard].
    pose proof (bytes_pos_total (A := Z * bytes * Z * bytes * bytes * Z) b).
    by destruct (bytes_pos b).
Qed.

(** ** Text *)

Fixpoint pos_string (p : positive) : string :=
  match p with
  | xH => "A"
  | xO p' => String (Ascii.ascii_of_nat 66) (pos_string p')
  | xI p' => String (Ascii.ascii_of_nat 67) (pos_string p')
  end.
Fixpoint string_pos (s : string) : option positive :=
  match s with
  | String a EmptyString => if bool_decide (a = (Ascii.ascii_of_nat 65)) then Some xH else None
  | String a s' => if bool_decide (a = (Ascii.ascii_of_nat 66)) then xO <$> string_pos s'
                   else if bool_decide (a = (Ascii.ascii_of_nat 67)) then xI <$> string_pos s' else None
  | EmptyString => None
  end.

Lemma string_pos_string p : string_pos (pos_string p) = Some p.
Proof.
  induction p as [p IH|p IH|]; [..|done]; cbn [pos_string string_pos];
    destruct (pos_string p) eqn:E; try (by destruct p); rewrite IH; done.
Qed.

#[export] Instance toy_Base64 : Base64 :=
  {| b64_encode := λ b, pos_string (encode b);
     b64_decode := λ s, match p ← string_pos s; decode p with
                        | Some b => Ok b | None => Err "Invalid symbol" end |}.

#[export] Instance toy_Base64Laws : Base64Laws.
Proof.
  split.
  - intros b. cbn. rewrite string_pos_string. cbn. by rewrite decode_encode.
  - intros s. cbn. by destruct (p ← string_pos s; decode p).
Qed.

(** ** Orders and messages *)

#[export] Instance toy_HashOrder : HashOrder := {| set_iter := elements; map_iter := map_to_list |}.
#[export] Instance toy_HashOrderLaws : HashOrderLaws.
Proof. by split. Qed.

#[export] Instance toy_DebugDb : DebugDb := λ e : string, e.
#[export] Instance toy_DisplayDb : DisplayDb := λ e : string, e.

(** ** Certificates *)

(** Names and keys are byte strings, the signature names the key that made it.
    A certificate is the sequence of its fields, each with its length; an
    encoding that is not the canonical one does not parse. *)
#[export] Instance toy_X509Types : X509Types :=
  {| Name := bytes; Name_eq_dec := _; Spki := bytes; TbsRest := unit; CertRest := bytes |}.

(** A parser returns what follows. *)
Abbreviation parser A := (bytes → option (A * bytes)).
Definition reads {A} (put : A → bytes) (get : parser A) : Prop :=
  ∀ x rest, get (put x ++ rest) = Some (x, rest).

Definition put_bytes (b : bytes) : bytes := zlen b :: b.
Definition get_bytes : parser bytes := λ b,
  match b with n :: r => Some (take (Z.to_nat n) r, drop (Z.to_nat n) r) | [] => None end.
Definition codes_str (l : bytes) : string :=
  String.string_of_list_ascii (map (λ n, Ascii.ascii_of_nat (Z.to_nat n)) l).
Definition put_str (s : string) : bytes := put_bytes (str_bytes s).
Definition get_str : parser string := λ b, '(l, r) ← get_bytes b; Some (codes_str l, r).

Definition put_ext (e : X509Extension) : bytes :=
  put_str (extn_id e) ++ put_bytes (if critical e then [1] else []) ++ put_bytes (extn_value e).
Definition get_ext : parser X509Extension := λ b,
  '(i, r) ← get_str b; '(c, r) ← get_bytes r; '(v, r) ← get_bytes r;
  Some ({| extn_id := i; critical := bool_decide (c = [1]); extn_value := v |}, r).
Fixpoint get_exts (n : nat) : parser (list X509Extension) := λ b,
  match n with
  | O => Some ([], b)
  | S n' => '(e, r) ← get_ext b; '(es, r) ← get_exts n' r; Some (e :: es, r)
  end.
Definition put_exts (o : option (list X509Extension)) : bytes :=
  match o with None => [0] | Some es => (1 + zlen es) :: concat (map put_ext es) end.
Definition get_opt_exts : parser (option (list X509Extension)) := λ b,
  match b with
  | 0 :: r => Some (None, r)
  | n :: r => '(es, r) ← get_exts (Z.to_nat (n - 1)) r; Some (Some es, r)
  | [] => None
  end.

Definition put_tbs (t : TbsCertificate) : bytes :=
  put_bytes (issuer t) ++ put_bytes (subject t) ++ [not_after t] ++
  put_bytes (subject_public_key_info t) ++ put_exts (cert_extensions t).
Definition get_tbs : parser TbsCertificate := λ b,
  '(i, r) ← get_bytes b; '(s, r) ← get_bytes r;
  match r with
  | n :: r =>
      '(k, r) ← get_bytes r; '(e, r) ← get_opt_exts r;
      Some ({| issuer := (i : Name); subject := (s : Name); not_after := n;
               subject_public_key_info := (k : Spki); cert_extensions := e; tbs_rest := tt |}, r)
  | [] => None
  end.
Definition toy_cert_to_der (c : X509Certificate) : bytes :=
  put_tbs (tbs_certificate c) ++ put_str (signature_algorithm c) ++ put_bytes (cert_rest c).
Definition get_cert : parser X509Certificate := λ b,
  '(t, r) ← get_tbs b; '(a, r) ← get_str r; '(s, r) ← get_bytes r;
  Some (@Build_X509Certificate toy_X509Types t a s, r).
Definition toy_from_der (b : bytes) : res string X509Certificate :=
  match get_cert b with
  | Some (c, _) => if bool_decide (toy_cert_to_der c = b) then Ok c else Err "not canonical"
  | None => Err "truncated"
  end.

Lemma reads_bytes : reads put_bytes get_bytes.
Proof.
  intros b rest. unfold put_bytes, get_bytes. cbn [app]. rewrite Nat2Z.id.
  by rewrite take_app_length, drop_app_length.
Qed.
Lemma codes_str_bytes s : codes_str (str_bytes s) = s.
Proof.
  unfold codes_str, str_bytes. rewrite map_map. induction s as [|a s IH]; [done|]. cbn.
  by rewrite Nat2Z.id, Ascii.ascii_nat_embedding, IH.
Qed.
Lemma reads_str : reads put_str get_str.
Proof. intros s rest. unfold put_str, get_str. rewrite reads_bytes. cbn. by rewrite codes_str_bytes. Qed.
Lemma reads_ext : reads put_ext get_ext.
Proof.
  intros e rest. unfold put_ext, get_ext. rewrite <- !app_assoc, reads_str. cbn [mbind option_bind].
  rewrite reads_bytes. cbn [mbind option_bind]. rewrite reads_bytes. cbn. by destruct e as [i [] v].
Qed.
Lemma reads_exts es rest : get_exts (length es) (concat (map put_ext es) ++ rest) = Some (es, rest).
Proof.
  induction es as [|e es IH]; [done|]. cbn [length map concat get_exts]. rewrite <- app_assoc, reads_ext.
  cbn [mbind option_bind]. by rewrite IH.
Qed.
Lemma reads_opt_exts : reads put_exts get_opt_exts.
Proof.
  intros [es|] rest; [|done]. cbn [put_exts get_opt_exts app].
  destruct (1 + zlen es) as [|p|p] eqn:Hp; [lia| |lia]. rewrite <- Hp.
  replace (Z.to_nat (1 + zlen es - 1)) with (length es) by lia. by rewrite reads_exts.
Qed.
Lemma reads_tbs : reads put_tbs get_tbs.
Proof.
  intros [i s n k e []] rest. unfold put_tbs, get_tbs. cbn [issuer subject not_after subject_public_key_info cert_extensions].
  rewrite <- !app_assoc, reads_bytes. cbn [mbind option_bind]. rewrite reads_bytes. cbn [mbind option_bind app].
  rewrite reads_bytes. cbn [mbind option_bind]. by rewrite reads_opt_exts.
Qed.
Lemma get_cert_der c : get_cert (toy_cert_to_der c) = Some (c, []).
Proof.
  destruct c as [t a r]. unfold get_cert, toy_cert_to_der. cbn [tbs_certificate signature_algorithm cert_rest].
  rewrite reads_tbs. cbn [mbind option_bind]. rewrite reads_str. cbn [mbind option_bind].
  rewrite <- (app_nil_r (put_bytes r)), reads_bytes. done.
Qed.

#[export] Instance toy_X509 : X509 :=
  {| from_der := toy_from_der;
     cert_to_der := λ c, Ok (toy_cert_to_der c);
     tbs_to_der := λ t, Ok (put_tbs t);
     spki_to_der := λ k, Ok k;
     basic_constraints_from_der := λ b, match b with [255] => Some true | [0] => Some false | _ => None end;
     eku_from_der := λ b, match b with [3] => Some ["1.3.6.1.5.5.7.3.1"; CT_EKU_OID] | _ => None end;
     ski_from_der := λ b, Some b;
     akid_to_der := λ b, Ok (4 :: b);
     octet_string_new := λ b, Ok b;
     name_display := codes_str |}.

#[export] Instance toy_X509Laws : X509Laws.
Proof.
  split; try done.
  - intros b. cbn. unfold toy_from_der. destruct (get_cert b) as [[c r]|]; [|done]. by case_bool_decide.
  - intros b b' [= <-]. done.
Qed.

#[export] Instance toy_X509Canonical : X509Canonical.
Proof.
  split.
  - intros b c. cbn [from_der toy_X509]. unfold toy_from_der. destruct (get_cert b) as [[x r]|]; [|done].
    case_bool_decide as Hc; [|done]. intros [= <-]. cbn [cert_to_der toy_X509]. by rewrite Hc.
  - intros c b [= <-]. cbn [from_der toy_X509]. unfold toy_from_der. rewrite get_cert_der. by rewrite bool_decide_eq_true_2.
Qed.

#[export] Instance toy_OpenSsl : OpenSsl :=
  {| OsslX509 := X509Certificate; PKey := bytes;
     x509_from_der := toy_from_der;
     public_key := λ x, Ok (subject_public_key_info (tbs_certificate x));
     x509_verify := λ x k, Ok (bool_decide ((cert_rest x : bytes) = k)) |}.
#[export] Instance toy_OpenSslLaws : OpenSslLaws.
Proof. split; [intros b; exact (from_der_total b)|done|done]. Qed.

#[export] Instance toy_TimeFormat : TimeFormat := λ t, pretty t.

(** ** Formats of the root store *)

Definition hex_digit (n : Z) : Ascii.ascii :=
  let d := n mod 16 in Ascii.ascii_of_nat (Z.to_nat (if d <? 10 then 48 + d else 87 + d)).
Fixpoint toy_hex (b : bytes) : string :=
  match b with
  | [] => EmptyString
  | x :: b' => String (hex_digit (x / 16)) (String (hex_digit x) (toy_hex b'))
  end.

Fixpoint strip (p s : string) : option string :=
  match p, s with
  | EmptyString, _ => Some s
  | String a p', String b s' => if bool_decide (a = b) then strip p' s' else None
  | _, _ => None
  end.
Definition PEM_START : string := "-----BEGIN ".

Definition toy_pem (label : string) (b : bytes) : string :=
  PEM_START +:+ pos_string (encode (label, b)).

(** The report has the records it is given. *)
Definition toy_RootFormats (report : list (list string)) : RootFormats :=
  {| csv_records := λ s, if bool_decide (s = "report") then map Ok report
                         else [Err "invalid record"];
     pem_decode := λ s, match p ← strip PEM_START s ≫= string_pos; decode (A := string * bytes) p with
                        | Some x => Ok x | None => Err "invalid PEM" end;
     pem_encode := λ label b, Ok (toy_pem label b);
     hex_encode := toy_hex;
     to_uppercase := string_map ascii_upper;
     debug_path := λ p, p |}.

Lemma hex_digit_small n : (Ascii.nat_of_ascii (hex_digit n) < 128)%nat.
Proof.
  unfold hex_digit. pose proof (Z.mod_pos_bound n 16 ltac:(lia)).
  rewrite Ascii.nat_ascii_embedding; destruct (Z.ltb_spec (n mod 16) 10); lia.
Qed.
Lemma strip_app p s : strip p (p +:+ s) = Some s.
Proof.
  induction p as [|a p IH]; [done|]. change (String a p +:+ s) with (String a (p +:+ s)). cbn [strip].
  by rewrite bool_decide_eq_true_2.
Qed.

Lemma toy_RootFormatsLaws report : @RootFormatsLaws (toy_RootFormats report).
Proof.
  split; try done.
  - intros s r. cbn. case_bool_decide.
    + by intros (? & <- & _)%list_elem_of_In%in_map_iff.
    + by intros ->%list_elem_of_singleton.
  - intros s. cbn [pem_decode toy_RootFormats]. destruct (strip PEM_START s ≫= string_pos) as [p|]; [|done].
    cbn [mbind option_bind]. match goal with |- context [decode ?q] => by destruct (decode q) end.
  - intros label b s [= <-]. cbn [pem_decode toy_RootFormats]. unfold toy_pem. rewrite strip_app. cbn [mbind option_bind].
    rewrite string_pos_string. cbn [mbind option_bind]. by rewrite decode_encode.
  - intros b. cbn. unfold is_ascii. induction b as [|x b IH]; cbn; [constructor|].
    constructor; [apply hex_digit_small|]. constructor; [apply hex_digit_small|done].
  - intros b. cbn. induction b as [|x b IH]; cbn; lia.
Qed.

#[export] Instance toy_StoreOrder : StoreOrder := map_to_list.
#[export] Instance toy_StoreOrderLaws : StoreOrderLaws.
Proof. by intros m. Qed.
