(* ===== verification/WitnessLog.v ===== *)
(** * Instances of the theorems on the log

    Each theorem on a concrete log: two entries, a certificate and a
    precertificate, flushed into an empty store. *)

From S2P Require Import Prelude TreeMath Rfc6962 Inclusion Consistency KvStore TreeStore.
From S2P Require Import Instances TreeInv TreeReads TreePush TreeTiles TreeBatch TreeHistory.
From S2P Require Import Types TreeHead Tiles MerkleStorage CtStorage CtInv CtFlush CtReads.
From S2P Require Import CtWorker Api ApiReads X509 TbsExtraction Validator ValidatorProofs Ccadb.
From S2P Require Import CcadbProofs Submit SubmitProofs WitnessTree LogInstances.

(** ** The log *)

Definition toy_state : ApiState :=
  {| sct_builder := toy_builder;
     sth_builder := @Build_SthBuilder toy_Signer [42] "log.example/2025" (replicate 32 1);
     api_log_id := replicate 32 1; public_key_der := [4; 2];
     base_url := "https://log.example/2025/" |}.

(** A root, a precertificate signing certificate it issued, a certificate and a
    precertificate. *)
Definition mk_cert (issuer subject : string) (spki : bytes) (exts : option (list X509Extension))
    (signer : bytes) : X509Certificate :=
  {| tbs_certificate := {| X509.issuer := (str_bytes issuer : Name);
       X509.subject := (str_bytes subject : Name);
       not_after := 1800000000; subject_public_key_info := (spki : Spki);
       cert_extensions := exts; tbs_rest := tt |};
     signature_algorithm := ECDSA_WITH_SHA256_OID; cert_rest := (signer : CertRest) |}.
Definition ca_ext : X509Extension := Build_X509Extension BASIC_CONSTRAINTS_OID true [255].
Definition poison_ext : X509Extension :=
  Build_X509Extension CT_POISON_EXTENSION_OID true [5; 0].
Definition root_cert : X509Certificate :=
  mk_cert "Root" "Root" [10]
    (Some [ca_ext; Build_X509Extension SUBJECT_KEY_IDENTIFIER_OID false [10; 10]]) [10].
Definition signer_cert : X509Certificate :=
  mk_cert "Root" "Signer" [11]
    (Some [ca_ext; Build_X509Extension EXTENDED_KEY_USAGE_OID false [3]]) [10].
Definition leaf_cert (subject : string) : X509Certificate := mk_cert "Root" subject [20] None [10].
Definition pre_cert (subject : string) : X509Certificate :=
  mk_cert "Signer" subject [21]
    (Some [Build_X509Extension AUTHORITY_KEY_IDENTIFIER_OID false [4; 11; 11]; poison_ext;
           Build_X509Extension BASIC_CONSTRAINTS_OID true [0]]) [11].

Definition cert0 : bytes := Eval vm_compute in toy_cert_to_der (leaf_cert "a").
Definition precert1 : bytes := Eval vm_compute in toy_cert_to_der (pre_cert "b").
Definition root_der : bytes := Eval vm_compute in toy_cert_to_der root_cert.
Definition signer_der : bytes := Eval vm_compute in toy_cert_to_der signer_cert.
Definition tbs1 : bytes := Eval vm_compute in
  match extract_tbs_certificate precert1 [signer_der; root_der] with Ok b => b | _ => [] end.
Definition key1 : bytes := digest [10].
Definition time0 : Z := 1700000000000.

Definition entry0 : BatchEntry :=
  {| log_entry := {| index := 0; timestamp := time0; entry_type := X509Entry; certificate := cert0;
                     chain := Some [root_der]; issuer_key_hash := None; original_precert := None;
                     leaf_data := [] |};
     cert_hash := digest cert0;
     sct_callback := sct_closure toy_state cert0 X509Entry None time0 |}.
Definition entry1 : BatchEntry :=
  {| log_entry := {| index := 0; timestamp := time0; entry_type := PrecertEntry;
                     certificate := tbs1; chain := Some [signer_der; root_der];
                     issuer_key_hash := Some key1; original_precert := Some precert1;
                     leaf_data := [] |};
     cert_hash := digest (tbs1 ++ key1);
     sct_callback := sct_closure toy_state tbs1 PrecertEntry (Some key1) time0 |}.

Definition batch2 : list BatchEntry := [entry0; entry1].
Definition logged2 : list Processed := entry_metadata (process_batch 0 batch2).
Definition flushed2 := flush_batch 5 1 BatchStats_default batch2 mem_tree.
Definition log2 : SlateDbBackedTree := flushed2.2.
Definition bounds2 : gset Z := new_bounds ∅ 2.

Definition all_accepted (l : list (answer SlateDBError)) : bool :=
  forallb (λ a, match a with Some (inr _) => true | _ => false end) l.

Lemma dedup_total (d : DeduplicatedLogEntry) : ∃ b, to_stdvec d = Ok b.
Proof. by eexists. Qed.
Lemma sct_total (e : CertificateSctEntry) : ∃ b, to_stdvec e = Ok b.
Proof. by eexists. Qed.

Lemma hash32 : output_size = 32%nat.
Proof. reflexivity. Qed.

Lemma mem_log_inv : log_inv mem_tree [] ∅.
Proof. split; [apply mem_tree_inv|by apply ct_inv_empty]. Qed.

Lemma processed_unique n i entries P P' :
  processed n i entries P → processed n i entries P' → P = P'.
Proof.
  intros [Hl Hp] [Hl' Hp']. apply list_eq_same_length with (length P); [lia|lia|].
  intros j x y _ Hx Hy. pose proof (lookup_lt_Some _ _ _ Hx).
  destruct (lookup_lt_is_Some_2 entries j) as [e He]; [lia|].
  destruct (Hp j e He) as (p & ? & Hpe), (Hp' j e He) as (p' & ? & Hpe'). congruence.
Qed.

Lemma logged2_processed : processed 0 0 batch2 logged2.
Proof.
  split; [by vm_compute|]. intros [|[|j]] e; [intros [= <-]..|done]; eexists; (split; [done|by vm_compute]).
Qed.

Lemma flush_inv s P B entries P' :
  log_inv s P B → zlen P + zlen entries ≤ 2 ^ 63 → processed (zlen P) 0 entries P' →
  match (flush_batch 5 1 BatchStats_default entries s).1 with
  | Ok (a, _) => negb (bool_decide (a = [])) && all_accepted a | _ => false end = true →
  log_inv (flush_batch 5 1 BatchStats_default entries s).2 (P ++ P') (new_bounds B (zlen (P ++ P'))).
Proof.
  intros Hl Hsz Hp Hok.
  pose proof (flush_batch_spec dedup_total sct_total s P B 5 1 BatchStats_default entries eq_refl Hl Hsz) as Hf.
  unfold spec in Hf. destruct (flush_batch 5 1 BatchStats_default entries s) as [[[answers st]|[]| |] tree']; try done.
  cbn [fst snd] in *. destruct Hf as [Hlen Hpost]. cbn [fst] in *. destruct answers as [|[[|a]|] l]; try done.
  destruct Hpost as [[_ Hr]|(P1 & Hp1 & Hx & _)]; [by apply Forall_cons in Hr as [[] _]|].
  by rewrite (processed_unique _ _ _ _ _ Hp1 Hp) in Hx.
Qed.

Lemma log2_inv : log_inv log2 logged2 bounds2.
Proof.
  apply (flush_inv mem_tree [] ∅ batch2 logged2); [apply mem_log_inv|done|apply logged2_processed|by vm_compute].
Qed.

(** The same entries in two batches: sizes 1 and 2 are both boundaries. *)
Definition logged1 : list Processed := take 1 logged2.
Definition log1 : SlateDbBackedTree := (flush_batch 5 1 BatchStats_default [entry0] mem_tree).2.
Definition log12 : SlateDbBackedTree := (flush_batch 5 1 BatchStats_default [entry1] log1).2.

Lemma log12_inv : log_inv log12 logged2 (new_bounds (new_bounds ∅ 1) 2).
Proof.
  apply (flush_inv log1 logged1 (new_bounds ∅ 1) [entry1] (drop 1 logged2)); [|done| |by vm_compute].
  - apply (flush_inv mem_tree [] ∅ [entry0] logged1); [apply mem_log_inv|done| |by vm_compute].
    split; [by vm_compute|]. intros [|j] e; [intros [= <-]|done]. eexists. split; [done|by vm_compute].
  - split; [by vm_compute|]. intros [|j] e; [intros [= <-]|done]. eexists. split; [done|by vm_compute].
Qed.

Definition storage2 : CtStorage := {| ct_tree := log2; chain_cache := ∅; entry_cache := ∅ |}.

Lemma storage2_inv : storage_inv storage2 logged2 bounds2.
Proof. split; [apply log2_inv|by intros k v Hk; inversion Hk|by intros k v Hk; inversion Hk]. Qed.

Lemma logged2_certs : collision_free (all_certs logged2).
Proof. apply collision_free_dec. by vm_compute. Qed.

Lemma logged2_wf : Forall (λ p, entry_wf (p_log_entry p)) logged2.
Proof.
  repeat constructor.
  - done.
  - by eexists.
  - by exists precert1.
  - intros h [= <-]. apply toy_digest_length.
Qed.

(** ** Tree heads and the tree of the log *)

Lemma tree_head_signatures_witness :
  let b := sth_builder toy_state in
  sth_signature (create_sth b 0 7 (digest []) (Some time0)) =
    sign (sth_key b) (build_signature_input time0 7 (digest [])) ∧
  (build_signature_input time0 7 (digest []) = build_signature_input time0 7 (digest []) →
   time0 = time0 ∧ 7 = 7 ∧ digest [] = digest []).
Proof.
  destruct (tree_head_signatures (sth_builder toy_state) 0 7 (digest []) time0) as (H1 & _ & H3).
  split; [exact H1|]. apply H3; unfold time0; lia.
Defined.

Lemma prove_inclusion_efficient_witness :
  spec (prove_inclusion_efficient 2 1) log2
    (λ pf _, pf = from_digests (path 1 (zslice 0 2 (leaves logged2)))) (λ _ _, True).
Proof.
  eapply spec_mono; [apply (prove_inclusion_efficient_correct (leaves logged2) bounds2 log2 2 1)| |done].
  - apply log2_inv.
  - unfold is_u64. lia.
  - unfold is_u64. lia.
  - intros r s (_ & _ & _ & _ & Hr). exact Hr.
Defined.

Lemma consistency_proof_between_sizes_witness :
  spec (consistency_proof_between_sizes 1 2) log12
    (λ pf _, cverify pf (RootHash_new (mth (zslice 0 1 (leaves logged2))) 1)
               (RootHash_new (mth (zslice 0 2 (leaves logged2))) 2) = Ok tt) (λ _ _, True).
Proof.
  eapply spec_mono; [apply (consistency_proof_between_sizes_correct (leaves logged2) (new_bounds (new_bounds ∅ 1) 2)
    log12 1 2)| |done].
  - apply log12_inv.
  - unfold is_u64. lia.
  - unfold is_u64. lia.
  - intros pf s (_ & _ & _ & Hr). apply Hr; [lia|done].
Defined.

(** ** Flushes *)


Definition sct1 : SignedCertificateTimestamp :=
  match sct_callback entry1 1 with Ok sct => sct | _ => sct_new [] 0 end.


(** ** Reads *)

Lemma get_entry_roundtrip_witness :
  spec (get_entry 1) storage2 (λ r _, option_map certificate r = Some tbs1) (λ _ _, True).
Proof.
  eapply spec_mono; [apply (get_entry_roundtrip storage2 logged2 bounds2 1)| |done].
  - apply storage2_inv.
  - apply logged2_certs.
  - apply logged2_wf.
  - unfold is_u64. lia.
  - intros r s [-> _]. done.
Defined.

Definition hash1 : bytes := default [] (leaf_digest <$> logged2 !! 1%nat).

Lemma find_index_by_hash_witness :
  spec (find_index_by_hash hash1) storage2 (λ r _, r ≠ None) (λ _ _, True).
Proof.
  eapply spec_mono; [apply (find_index_by_hash_correct storage2 logged2 bounds2 hash1)| |done].
  - apply storage2_inv.
  - intros [i|] s [_ Hr]; [done|]. destruct (logged2 !! 1%nat) as [p|] eqn:Hp; [|by vm_compute in Hp].
    destruct (Hr p); [by eapply list_elem_of_lookup_2|]. unfold hash1. by rewrite Hp.
Defined.

Lemma get_sct_by_cert_hash_witness :
  spec (get_sct_by_cert_hash (digest cert0)) storage2 (λ r _, r ≠ None) (λ _ _, True).
Proof.
  eapply spec_mono; [apply (get_sct_by_cert_hash_correct storage2 logged2 bounds2 (digest cert0))| |done].
  - apply storage2_inv.
  - intros [i|] s [_ Hr]; [done|]. destruct (logged2 !! 0%nat) as [p|] eqn:Hp; [|by vm_compute in Hp].
    destruct (Hr p); [by eapply list_elem_of_lookup_2|]. by injection Hp as <-.
Defined.

(** ** The worker *)

Definition config2 : BatchConfig := {| max_batch_size := 2; max_batch_timeout_ms := 50 |}.
Definition clock2 (fuel : nat) : Z * Z * Z := (time0 + Z.of_nat (20 - fuel), 5, 1).
Definition sent (l : list BatchEntry) (w : Worker) : Worker :=
  fold_left (λ w e, (try_send config2 e w).2) l w.
Definition worker1 : Worker := sent [entry0] (start mem_tree).
Definition worker2 : Worker := close (sent [entry1; entry0] (run_worker config2 clock2 3 worker1)).
Definition worker3 : Worker := run_worker config2 clock2 6 worker2.

Lemma reachable_run tree clock fuel w :
  reachable config2 tree w → reachable config2 tree (run_worker config2 clock fuel w).
Proof.
  revert w. induction fuel as [|f IH]; intros w Hw; [exact Hw|]. cbn [run_worker].
  destruct (clock (S f)) as [[now fm] dm].
  destruct (worker_step config2 now fm dm w) as [w'|] eqn:Hs; [|exact Hw].
  apply IH. eapply reach_step; [exact Hw|]. eapply sys_work, Hs.
Qed.

Lemma reachable_sent tree l w :
  reachable config2 tree w → senders_open w = true →
  zlen (queue w) + zlen l < 500 → at_phase w ≠ Exited →
  reachable config2 tree (sent l w).
Proof.
  revert w. induction l as [|e l IH]; intros w Hw Ho Hq Hp; [exact Hw|].
  cbn [length] in *.
  assert (∃ w', try_send config2 e w = (Ok tt, w') ∧ senders_open w' = true ∧
    queue w' = queue w ++ [e] ∧ at_phase w' ≠ Exited) as (w' & Hs & Ho' & Hq' & Hp').
  { unfold try_send. destruct (Z.leb_spec (channel_capacity config2) (zlen (queue w))) as [Hle|_].
    - unfold channel_capacity in Hle. lia.
    - destruct (at_phase w) eqn:Hph; [..|done]; eexists; (split; [done|]); cbn; done. }
  unfold sent. cbn [fold_left]. rewrite Hs. cbn [snd]. apply IH; [|done| |done].
  - eapply reach_step; [exact Hw|]. by eapply sys_send.
  - rewrite Hq', length_app. cbn [length]. lia.
Qed.

Lemma worker2_reachable : reachable config2 mem_tree worker2.
Proof.
  eapply reach_step; [|apply sys_close]. apply reachable_sent; [|by vm_compute..].
  apply reachable_run, reachable_sent; [apply reach_start|by vm_compute..].
Qed.

Lemma worker_queue_invariant_witness : queue_inv config2 worker2 ∧ length (accepted worker2) = 3%nat.
Proof. split; [apply (worker_queue_invariant config2 mem_tree), worker2_reachable|by vm_compute]. Defined.



(** ** The endpoints *)

Lemma get_sth_witness :
  spec (get_sth toy_state time0) storage2
    (λ r _, r = sth_of toy_state time0 logged2) (λ e _, e.1 = INTERNAL_SERVER_ERROR).
Proof.
  eapply spec_mono; [apply (get_sth_correct toy_state time0 storage2 logged2 bounds2 storage2_inv)|..].
  - intros r s [_ Hr]. exact Hr.
  - intros e s [_ He]. exact He.
Defined.

Lemma get_proof_by_hash_witness :
  spec (get_proof_by_hash (b64_encode hash1) 2) storage2
    (λ r _, audit_ok logged2 bounds2 2 r.1 r.2) (λ _ _, True).
Proof.
  eapply spec_mono; [apply (get_proof_by_hash_correct (b64_encode hash1) 2 storage2 logged2 bounds2
    hash32 storage2_inv); unfold is_u64; lia| |].
  - intros r s (_ & Hr & _). exact Hr.
  - intros e s _. exact I.
Defined.

Lemma get_entries_witness :
  spec (get_entries 0 5) storage2
    (λ r _, Forall2 served (zslice 0 6 logged2) r) (λ e _, e.1 = INTERNAL_SERVER_ERROR).
Proof.
  eapply spec_mono; [apply (get_entries_correct 0 5 storage2 logged2 bounds2 storage2_inv
    logged2_certs logged2_wf); lia|..].
  - intros r s [_ Hr]. exact Hr.
  - intros e s [_ He]. exact He.
Defined.

Lemma get_entry_and_proof_witness :
  spec (get_entry_and_proof 1 None) storage2
    (λ r _, audit_ok logged2 bounds2 2 1 r.2) (λ _ _, True).
Proof.
  eapply spec_mono; [apply (get_entry_and_proof_correct 1 None storage2 logged2 bounds2 hash32
    storage2_inv logged2_certs logged2_wf); [unfold is_u64; lia|discriminate]| |].
  - intros r s (_ & Hr & _). exact Hr.
  - intros e s _. exact I.
Defined.

Lemma get_tile_immutable_witness :
  spec (get_tile_handler 0 "000" (Some 2)) storage2
    (λ r _, ∀ P', body r = tile_prefix (leaves (logged2 ++ P')) 0 0 2)
    (λ e _, e.1 = INTERNAL_SERVER_ERROR).
Proof.
  eapply spec_mono; [apply (get_tile_immutable 0 "000" 0 (Some 2) storage2 logged2 bounds2 hash32
    ltac:(lia) eq_refl ltac:(lia) ltac:(cbn; lia) ltac:(by vm_compute) storage2_inv)|..].
  - intros r s [_ Hr]. exact Hr.
  - intros e s [_ He]. exact He.
Defined.

Lemma get_page_witness :
  spec (get_page 0) storage2
    (λ r _, body r = page_to_binary (page_of 0 (map page_entry_of logged2))) (λ _ _, True).
Proof.
  eapply spec_mono; [apply (get_page_correct 0 storage2 logged2 bounds2 storage2_inv); lia| |].
  - intros r s (_ & _ & Hr & _). exact Hr.
  - intros e s _. exact I.
Defined.

Lemma extra_data_roundtrip_witness :
  match build_extra_data (log_entry entry1) with
  | Ok b => parse_extra_data PrecertEntry b = Some (Some precert1, [signer_der; root_der])
  | _ => False
  end.
Proof.
  assert (match build_extra_data (log_entry entry1) with Ok _ => true | _ => false end = true) as Ho
    by reflexivity.
  pose proof (extra_data_roundtrip (log_entry entry1)
    ltac:(by vm_compute) ltac:(by intros pc [= <-])) as Hx.
  destruct (build_extra_data (log_entry entry1)) as [b| | |]; [exact Hx|discriminate Ho..].
Defined.

(** The last thousand indices, and one that is cut. *)
Lemma entries_range_bounds_witness :
  entries_range (U64_MAX - 999) U64_MAX = (1000, U64_MAX) ∧ entries_range 5 5000 = (1000, 1004).
Proof.
  split.
  - exact (entries_range_bounds (U64_MAX - 999) U64_MAX ltac:(unfold U64_MAX; lia) ltac:(unfold U64_MAX; lia)).
  - exact (entries_range_bounds 5 5000 ltac:(lia) ltac:(lia)).
Defined.

Definition small_entry : LogEntry :=
  {| index := 7; timestamp := time0; entry_type := PrecertEntry; certificate := [48; 3; 1];
     chain := Some [[48; 0]; [48; 255]]; issuer_key_hash := Some (replicate 32 9);
     original_precert := Some [48; 5]; leaf_data := [] |}.

Lemma small_entry_typed : entry_bytes_typed small_entry.
Proof.
  assert (∀ l, forallb (λ b, (0 <=? b) && (b <? 256)) l = true → bytes_ok l) as Hb.
  { intros l Hl. apply Forall_forall. intros b Hb%list_elem_of_In. rewrite forallb_forall in Hl.
    specialize (Hl b Hb). lia. }
  split_and!; [by apply Hb| |intros ? [= <-]; by apply Hb..].
  apply Forall_cons. split; [by apply Hb|]. apply Forall_cons. split; [by apply Hb|constructor].
Qed.

