(* ===== verification/WitnessShared.v ===== *)
(** * Instances of the theorems on concurrent reads

    A store that the batch worker appends to between two reads: the first of
    two entries is logged when a request begins, the second becomes visible
    after its first read. *)

From S2P Require Import Prelude TreeMath Rfc6962 Inclusion Consistency KvStore TreeStore.
From S2P Require Import Instances TreeInv TreeReads TreePush TreeTiles TreeBatch TreeHistory.
From S2P Require Import Types TreeHead Tiles MerkleStorage CtStorage CtInv CtFlush CtReads.
From S2P Require Import CtWorker DataTiles Api ApiReads Shared SharedApi SharedReads WitnessTree.
From S2P Require Import LogInstances.
From S2P Require Import WitnessLog.

(** ** The execution *)

Definition bounds12 : gset Z := new_bounds (new_bounds ∅ 1) 2.

Lemma log1_inv : log_inv log1 logged1 (new_bounds ∅ 1).
Proof.
  apply (flush_inv mem_tree [] ∅ [entry0] logged1); [apply mem_log_inv|done| |by vm_compute].
  split; [by vm_compute|]. intros [|j] e; [intros [= <-]|done]. eexists. split; [done|by vm_compute].
Qed.

Lemma snapshot1 : log_snapshot logged2 bounds12 1 (view log1).
Proof.
  destruct log1_inv as [[Hti _] Hc]. split; [|exact Hc]. split; [split; [lia|]|].
  - by vm_compute.
  - replace (upto (leaves logged2) 1) with (leaves logged1) by (by vm_compute).
    replace (bounds_upto bounds12 1) with (new_bounds ∅ 1) by (by vm_compute). exact Hti.
Qed.

Lemma snapshot2 : log_snapshot logged2 bounds12 2 (view log12).
Proof.
  destruct log12_inv as [[Hti _] Hc]. split; [|exact Hc]. split; [split; [lia|]|].
  - by vm_compute.
  - replace (upto (leaves logged2) 2) with (leaves logged2) by (by vm_compute).
    replace (bounds_upto bounds12 2) with bounds12 by (by vm_compute). exact Hti.
Qed.

(** The flush of the second entry, as another task makes it. *)
Definition flush_second (db : gmap bytes bytes) : gmap bytes bytes :=
  view (flush_batch 5 1 BatchStats_default [entry1] (with_db (RateLimitedDb_new db) log1)).2.

Lemma flush_second_view : flush_second (view log1) = view log12.
Proof. apply (bool_decide_eq_true (flush_second (view log1) = view log12)). vm_compute. reflexivity. Qed.

Definition race : SlateDb := @racing_SlateDb mem_SlateDb.
Definition race_laws : @SharedDbLaws race (log_snapshot logged2 bounds12) :=
  racing_laws (log_snapshot logged2 bounds12).

(** Nothing happens before the first read; the flush before the second. *)
Definition race_db : @Db race := (view log1, [λ d, d; flush_second]).

Lemma race_acts : acts_ok (log_snapshot logged2 bounds12) 1 (view log1) [λ d, d; flush_second].
Proof.
  split; [apply snapshot1|]. exists 1, (view log1). split; [lia|]. split; [done|].
  split; [apply snapshot1|]. exists 2, (view log12). split; [lia|]. split; [|apply snapshot2].
  intros db Hdb. change (db = view log1) in Hdb. rewrite Hdb. apply flush_second_view.
Qed.

#[local] Existing Instance race | 0.
#[local] Existing Instance race_laws.
#[local] Instance race_DebugDb : DebugDb := λ e : string, e.
#[local] Instance race_DisplayDb : DisplayDb := λ e : string, e.
#[local] Instance race_cache_laws K V `{Countable K} (right : K → V → Prop) : SharedCacheLaws K V right :=
  shared_cache_laws right.

Definition race_tree : SlateDbBackedTree :=
  {| tree_db := RateLimitedDb_new (race_db : Db); node_cache := Some ∅; tile_cache := Some ∅ |}.
Definition race_storage : CtStorage :=
  {| ct_tree := race_tree; chain_cache := (∅ : gmap bytes bytes); entry_cache := (∅ : gmap Z LogEntry) |}.

Lemma race_tree_since : since (leaves logged2) bounds12 (log_snapshot logged2 bounds12) 1 race_tree.
Proof.
  split.
  - exists 1. split; [lia|]. exists 1. split; [lia|]. exact race_acts.
  - intros c [= <-] k v Hk. by inversion Hk.
Qed.

Lemma race_since : ct_since logged2 bounds12 1 race_storage.
Proof. split; [apply race_tree_since|]. split; intros k v Hk; by inversion Hk. Qed.

(** The request does see the second entry: the flush falls between its reads. *)
Example race_monitor_sizes :
  match (monitor toy_state time0 time0 race_storage).1 with
  | Ok (sth1, sth2, _) => (resp_tree_size sth1, resp_tree_size sth2) | _ => (0, 0) end = (1, 2).
Proof. by vm_compute. Qed.

(** ** Reads of the tree *)

Lemma race_bound1 : 1 ∈ bounds12.
Proof. by apply (bool_decide_eq_true (1 ∈ bounds12)). Qed.

Lemma root_at_size_shared_witness :
  spec (root_at_size 1) race_tree (λ r _, r = RootHash_new (mth (zslice 0 1 (leaves logged2))) 1)
    (λ e _, ∃ d, e = DbError d).
Proof.
  eapply spec_mono.
  - apply (root_at_size_shared (leaves logged2) bounds12 (log_snapshot logged2 bounds12)
      (log_snapshot_tree logged2 bounds12) 1 1 race_tree); [unfold is_u64; lia|lia|exact race_tree_since].
  - intros r s (Hr & _). exact Hr.
  - intros e s (n' & Hn & _ & [Hd|[[Hlt _]|(_ & _ & Hb & _)]]); [exact Hd|lia|].
    destruct (Hb race_bound1).
Defined.

Lemma prove_inclusion_shared_witness :
  spec (prove_inclusion_at_size 0 1) race_tree
    (λ pf _, pf = from_digests (path 0 (zslice 0 1 (leaves logged2)))) (λ e _, ∃ d, e = DbError d).
Proof.
  eapply spec_mono.
  - apply (prove_inclusion_shared (leaves logged2) bounds12 (log_snapshot logged2 bounds12)
      (log_snapshot_tree logged2 bounds12) 0 1 1 race_tree);
      [unfold is_u64; lia|unfold is_u64; lia|exact race_tree_since].
  - intros r s (_ & _ & _ & Hr & _). exact Hr.
  - intros e s (n' & Hn & _ & [Hd|[[Hlt _]|[[Hle _]|[Hb _]]]]); [exact Hd|lia|lia|].
    destruct (Hb race_bound1).
Defined.

(** ** Requests *)

Lemma monitor_consistent_witness :
  spec (monitor toy_state time0 time0) race_storage
    (λ r _, ∃ v w, 1 ≤ v ≤ w ∧ w ≤ 2 ∧ (v = w ∨ consistency_ok logged2 v w r.2))
    (λ e _, e.1 = INTERNAL_SERVER_ERROR ∨ ∃ d, e = proof_status (consistency_err (DbError d))).
Proof.
  eapply spec_mono; [apply (monitor_consistent logged2 bounds12 toy_state time0 time0 1); [lia|exact race_since]|..].
  - intros r s (v & w & Hv & Hw & _ & _ & Hr). exists v, w. split; [exact Hv|]. split; [exact Hw|exact Hr].
  - intros e s [_ [He|[[_ He]|He]]]; [left; exact He|lia|right; exact He].
Defined.

Lemma logged2_digests : NoDup (map leaf_digest logged2).
Proof. apply (bool_decide_eq_true (NoDup (map leaf_digest logged2))). by vm_compute. Qed.

(** The first entry is looked up while the second is logged. *)
Lemma auditor_inclusion_witness :
  ∃ p, logged2 !! 0%nat = Some p ∧
  spec (auditor toy_state time0 (b64_encode (leaf_digest p))) race_storage
    (λ r _, ∃ v, 1 ≤ v ≤ 2 ∧ r.2.1 = 0 ∧ audit_ok logged2 bounds12 v 0 r.2.2)
    (λ e _, e.1 = INTERNAL_SERVER_ERROR ∨ ∃ v d, e = proof_status (inclusion_err v (DbError d))).
Proof.
  destruct logged2_processed as [Hlen _]. destruct (logged2 !! 0%nat) as [p|] eqn:Hp; last first.
  { apply lookup_ge_None in Hp. rewrite Hlen in Hp. cbn in Hp. lia. }
  exists p. split; [reflexivity|]. eapply spec_mono.
  - apply (auditor_inclusion logged2 bounds12 toy_state time0 (b64_encode (leaf_digest p)) 0 p 1 race_storage).
    + exact hash32.
    + exact logged2_digests.
    + exact race_since.
    + exact Hp.
    + lia.
    + apply b64_round.
  - intros r s (v & Hv & _ & Hr & Ha). exists v. split; [|split; [exact Hr|exact Ha]].
    split; [lia|]. exact (proj2 Hv).
  - intros e s [_ He]. exact He.
Defined.

Lemma logged2_made i p : logged2 !! i = Some p → made (Z.of_nat i) p.
Proof. destruct log2_inv as [_ Hc]. apply (ci_made _ _ Hc). Qed.

Lemma get_entries_shared_witness :
  spec (get_entries 0 0) race_storage (λ r _, Forall2 served (zslice 0 1 logged2) r)
    (λ e _, e.1 = INTERNAL_SERVER_ERROR).
Proof.
  eapply spec_mono.
  - apply (get_entries_shared logged2 bounds12 0 0 1 race_storage).
    + exact logged2_certs.
    + exact logged2_wf.
    + exact logged2_made.
    + exact race_since.
    + lia.
    + lia.
    + lia.
  - intros r s (ps & _ & Hs & Hps). rewrite (Hps ltac:(lia)) in Hs. exact Hs.
  - intros e s [_ He]. exact He.
Defined.


Lemma logged2_fits : Forall tile_entry_fits logged2.
Proof.
  assert (∃ p q, logged2 = [p; q] ∧ tile_entry_fits p ∧ tile_entry_fits q) as (p & q & -> & Hp & Hq);
    [|by apply Forall_cons; split; [|apply Forall_singleton]].
  eexists _, _. split; [vm_compute; reflexivity|].
  split; (split; [|split]).
  - split; [vm_compute; reflexivity|]. split; [vm_compute; split; [discriminate|reflexivity]|].
    split; [exact I|]. vm_compute. split; [discriminate|reflexivity].
  - discriminate.
  - vm_compute. reflexivity.
  - split; [vm_compute; reflexivity|]. split; [vm_compute; split; [discriminate|reflexivity]|].
    split; [reflexivity|]. vm_compute. split; [discriminate|reflexivity].
  - intros pc [= <-]. vm_compute. reflexivity.
  - vm_compute. reflexivity.
Qed.

(** Both tiles hold the first entry. *)
Definition no_gzip (b : bytes) : bytes := b.

Lemma tile_client_entries_witness :
  spec (tile_client no_gzip "000" (Some 1)) race_storage
    (λ r _, r.1 = concat (map leaf_digest (zslice 0 1 logged2)) ∧
       read_data_tile r.2 = Some (map tile_entry_of (zslice 0 1 logged2)))
    (λ e _, e.1 = INTERNAL_SERVER_ERROR).
Proof.
  eapply spec_mono.
  - apply (tile_client_entries logged2 bounds12 hash32 logged2_certs logged2_wf logged2_made logged2_fits
      no_gzip "000" 0 (Some 1) 1 race_storage); [reflexivity|lia|lia|cbn; lia|cbn; lia|exact race_since].
  - intros r s (Hr & b & Hb & He). split; [exact Hr|]. rewrite Hb. exact He.
  - intros e s [_ He]. exact He.
Defined.


(** A request for both entries of a log to which they are flushed together,
    between the two reads: the response holds the second entry only. *)
Definition empty_race : CtStorage :=
  {| ct_tree := {| tree_db := RateLimitedDb_new ((∅, [λ d, d; λ _, view log2]) : Db);
                   node_cache := Some ∅; tile_cache := Some ∅ |};
     chain_cache := (∅ : gmap bytes bytes); entry_cache := (∅ : gmap Z LogEntry) |}.

Definition response_leaves (r : res ApiError (list (string * string))) : option (list string) :=
  match r with Ok l => Some l.*1 | _ => None end.

Example get_entries_hole :
  response_leaves (get_entries 0 1 empty_race).1 =
    Some (map (λ p, b64_encode (p_leaf_data p)) (drop 1 logged2)).
Proof. apply (bool_decide_eq_true (_ = _)). vm_compute. reflexivity. Qed.

