(* ===== verification/WitnessSystem.v ===== *)
(** * Instances of the theorems on executions

    A log of one entry, to which the batch worker adds a second one while clients
    make their requests. *)

From S2P Require Import Prelude TreeMath Rfc6962 Inclusion Consistency KvStore TreeStore.
From S2P Require Import Instances TreeInv TreeReads TreePush TreeTiles TreeBatch TreeHistory.
From S2P Require Import Types TreeHead Tiles MerkleStorage CtStorage CtInv CtFlush CtReads.
From S2P Require Import CtWorker Api ApiReads Shared SharedApi SharedReads SharedWorker SharedSystem.
From S2P Require Import WitnessTree LogInstances WitnessLog WitnessShared.

(** ** An execution *)

(** The worker left alone, with the states it passes. *)
Fixpoint run_trace (fuel : nat) (w : Worker) : list Worker :=
  match fuel with
  | O => [w]
  | S f =>
      let '(now, flush_ms, dedup_ms) := clock2 fuel in
      match worker_step config2 now flush_ms dedup_ms w with
      | Some w' => w :: run_trace f w'
      | None => [w]
      end
  end.

Lemma execution_run tree fuel ws w :
  execution config2 tree (ws ++ [w]) → execution config2 tree (ws ++ run_trace fuel w).
Proof.
  revert ws w. induction fuel as [|f IH]; intros ws w Hw; [exact Hw|]. cbn [run_trace].
  destruct (clock2 (S f)) as [[now fm] dm].
  destruct (worker_step config2 now fm dm w) as [w'|] eqn:Hs; [|exact Hw].
  replace (ws ++ w :: run_trace f w') with ((ws ++ [w]) ++ run_trace f w') by by rewrite <- app_assoc.
  apply IH. rewrite <- app_assoc. apply exec_step; [exact Hw|]. eapply sys_work, Hs.
Qed.

(** The second entry is sent, the senders go, and the worker runs to its end. *)
Definition sending : Worker := (try_send config2 entry1 (start log1)).2.
Definition trace1 : list Worker := [start log1; sending] ++ run_trace 6 (close sending).
Definition final1 : Worker := List.last trace1 sending.

Lemma sent1 : try_send config2 entry1 (start log1) = (Ok tt, sending).
Proof. reflexivity. Qed.

Lemma prefix1_execution : execution config2 log1 ([start log1; sending] ++ [close sending]).
Proof.
  apply (exec_step config2 log1 [start log1] sending (close sending)); [|apply sys_close].
  apply (exec_step config2 log1 [] (start log1) sending); [apply exec_start|].
  apply (sys_send config2 entry1); [reflexivity|exact sent1].
Qed.

Lemma trace1_execution : execution config2 log1 (removelast trace1 ++ [final1]).
Proof.
  pose proof (execution_run log1 6 _ _ prefix1_execution) as He. fold trace1 in He.
  unfold final1. rewrite <- app_removelast_last; [exact He|].
  unfold trace1. discriminate.
Qed.

Lemma moments1 : start log1 :: [final1] `sublist_of` removelast trace1 ++ [final1].
Proof.
  change (start log1 :: [final1] `sublist_of` start log1 :: removelast (tail trace1) ++ [final1]).
  apply sublist_skip, sublist_inserts_l. reflexivity.
Qed.

Lemma accepted1 : zlen logged1 + zlen (accepted final1) ≤ 2 ^ 63.
Proof. by vm_compute. Qed.


(** ** Clients *)

#[local] Existing Instance SharedSystem.race_debug.
#[local] Existing Instance SharedSystem.race_display.

Definition fresh_server := server_at (start log1) [final1] cache_new cache_new cache_new cache_new.


Lemma final1_view : view (w_tree final1) = view log12.
Proof. apply (bool_decide_eq_true (view (w_tree final1) = view log12)). vm_compute. reflexivity. Qed.

Lemma final1_digests P B : log_inv (w_tree final1) P B → NoDup (map leaf_digest P).
Proof.
  intros [[Ht _] _]. rewrite final1_view in Ht. destruct log12_inv as [[Ht' _] _].
  pose proof (tree_inv_determines _ _ _ _ _ Ht Ht') as Hl.
  assert (∀ Q, map leaf_digest Q = map (λ c, digest ([0] ++ data c)) (leaves Q)) as Hd.
  { intros Q. unfold leaves. by rewrite map_map. }
  rewrite Hd, Hl, <- Hd. exact logged2_digests.
Qed.

