(* ===== verification/WitnessRoots.v ===== *)
(** * Instances of the theorems on certificates, roots and submissions

    A root, a signing certificate it issued and a precertificate: extraction,
    validation, the root store and its worker, and submissions to the log. *)

From S2P Require Import Prelude TreeMath Rfc6962 Inclusion Consistency KvStore TreeStore.
From S2P Require Import Instances TreeInv TreeReads TreePush TreeTiles TreeBatch TreeHistory.
From S2P Require Import Types TreeHead Tiles MerkleStorage CtStorage CtInv CtFlush CtReads.
From S2P Require Import CtWorker Api ApiReads X509 TbsExtraction Validator ValidatorProofs Ccadb.
From S2P Require Import CcadbProofs Startup Submit SubmitProofs TestUtils WitnessTree LogInstances.
From S2P Require Import WitnessLog.

(** ** Certificates *)

Lemma extract_tbs_certificate_witness :
  Extractor.extraction_outcome (DbErr := string) precert1 [signer_der; root_der] (Ok tbs1).
Proof.
  pose proof (Extractor.extract_tbs_certificate_correct (DbErr := string) precert1 [signer_der; root_der]) as Hx.
  assert (Extractor.extract_tbs_certificate (DbErr := string) precert1 [signer_der; root_der] = Ok tbs1) as He
    by (by vm_compute).
  rewrite He in Hx. exact Hx.
Defined.

(** The encodings that occur. *)
Definition toy_domain : list bytes :=
  Eval vm_compute in
    [root_der; signer_der; cert0; precert1; toy_cert_to_der (leaf_cert "c");
     toy_cert_to_der (pre_cert "d")].
Definition toy_D (b : bytes) : Prop := b ∈ toy_domain.

Lemma toy_D_inj b b' : toy_D b → toy_D b' → digest b = digest b' → b = b'.
Proof.
  assert (Forall (λ b, Forall (λ b', digest b = digest b' → b = b') toy_domain) toy_domain) as Hall
    by (apply (bool_decide_eq_true_1 _); by vm_compute).
  intros Hb Hb'. eapply Forall_forall in Hall; [|exact Hb]. eapply Forall_forall in Hall; [|exact Hb'].
  exact Hall.
Qed.

Lemma toy_in_domain c b : from_der b = Ok c → toy_D b → in_domain toy_D c.
Proof. intros Hc Hb b' Hb'. apply der_parse_encode in Hc. congruence. Qed.

Lemma toy_chain_domain chain : Forall toy_D chain → chain_domain toy_D chain.
Proof. intros Hc b c Hb Hf. eapply Forall_forall in Hc; [|exact Hb]. by eapply toy_in_domain. Qed.

Definition toy_config : Rfc6962ValidationConfig :=
  {| trusted_roots_dir := "trusted_roots"; max_chain_length := 10;
     allowed_signature_algorithms := allowed_signature_algorithms default_config;
     temporal_window := Some {| window_start := 1700000000000000000;
                                window_end := 1900000000000000000 |};
     ccadb := Production |}.
Definition toy_validator : Rfc6962Validator :=
  {| config := toy_config; trusted_roots := [root_cert];
     trusted_root_hashes := list_to_set [digest root_der]; x509_cache := ∅ |}.

Lemma root_encoded : toy_cert_to_der root_cert = root_der.
Proof. by vm_compute. Qed.
Lemma root_digest : cert_digest (DbErr := string) root_cert = Ok (digest root_der).
Proof.
  unfold cert_digest, certificate_to_der. cbn [cert_to_der toy_X509]. by rewrite root_encoded.
Qed.

Lemma toy_validator_inv : validator_inv (DbErr := string) toy_D toy_validator.
Proof.
  split_and!.
  - intros h x Hx. inversion Hx.
  - intros h. unfold toy_validator. cbn [trusted_root_hashes trusted_roots].
    rewrite elem_of_list_to_set, list_elem_of_singleton. split.
    + intros ->. exists root_cert. split; [left|apply root_digest].
    + intros (r & ->%list_elem_of_singleton & Hr). rewrite root_digest in Hr. by injection Hr.
  - constructor; [|constructor]. apply (toy_in_domain _ root_der).
    + apply der_encode_parse. cbn [cert_to_der toy_X509]. by rewrite root_encoded.
    + left.
Qed.

Definition toy_chain : list bytes := [precert1; signer_der; root_der].
Lemma toy_chain_ok : chain_domain toy_D toy_chain.
Proof. apply toy_chain_domain, (bool_decide_eq_true_1 _). by vm_compute. Qed.

(** The chain is accepted, as its evaluation says. *)
Lemma toy_validates :
  match (validate_chain (DbErr := string) toy_chain toy_validator).1 with Ok _ => true | _ => false end = true.
Proof. vm_compute. reflexivity. Qed.

Lemma validate_chain_sound_witness :
  ∃ certs, chain_accepted (DbErr := string) toy_config [root_cert] toy_chain certs.
Proof.
  pose proof (validate_chain_sound (DbErr := string) toy_D toy_D_inj toy_validator toy_chain
    toy_validator_inv toy_chain_ok) as [_ Hx].
  pose proof toy_validates as Ho.
  destruct ((validate_chain (DbErr := string) toy_chain toy_validator).1); [exact Hx|discriminate Ho..].
Defined.

Lemma toy_accepted : ∃ certs, chain_accepted (DbErr := string) toy_config [root_cert] toy_chain certs.
Proof.
  pose proof (validate_chain_outcome (DbErr := string) toy_D toy_D_inj toy_validator toy_chain
    toy_validator_inv toy_chain_ok) as [_ Hx].
  pose proof toy_validates as Ho.
  destruct ((validate_chain (DbErr := string) toy_chain toy_validator).1); [exact Hx|discriminate Ho..].
Qed.

Lemma toy_usable : Forall (usable (DbErr := string)) [root_cert].
Proof.
  constructor; [|constructor]. exists root_cert, [10]. split; [|done].
  unfold x509_of, certificate_to_der. cbn [cert_to_der toy_X509 map_err mbind res_bind].
  rewrite root_encoded. assert (x509_from_der root_der = Ok root_cert) as -> by (by vm_compute). done.
Qed.


(** A validator whose cache holds the root. *)
Definition warm_validator : Rfc6962Validator :=
  (validate_chain (DbErr := string) toy_chain toy_validator).2.

Lemma warm_validator_inv : validator_inv (DbErr := string) toy_D warm_validator.
Proof.
  unfold warm_validator.
  pose proof (validate_chain_outcome (DbErr := string) toy_D toy_D_inj toy_validator toy_chain
    toy_validator_inv toy_chain_ok) as [Hs _].
  eapply (same_validator_inv (DbErr := string)); [exact toy_validator_inv|exact Hs].
Qed.

Lemma x509_cache_transparent_witness :
  (validate_chain (DbErr := string) toy_chain warm_validator).1 =
  (validate_chain (DbErr := string) toy_chain (with_cache warm_validator ∅)).1 ∧
  (0 < base.size (x509_cache warm_validator : gmap bytes X509Certificate))%nat.
Proof.
  split.
  - exact (x509_cache_transparent (DbErr := string) toy_D toy_D_inj warm_validator toy_chain
      warm_validator_inv toy_chain_ok).
  - apply (bool_decide_eq_true_1 _). by vm_compute.
Defined.

(** The precertificate with its signing certificate and the root, and alone. *)
Lemma extract_issuer_key_hash_witness :
  (∃ h real spki, extract_issuer_key_hash (DbErr := string) toy_validator toy_chain = Ok h ∧
     issuing_ca [signer_der; root_der] real ∧
     spki_to_der (subject_public_key_info (tbs_certificate real)) = Ok spki ∧ h = digest spki) ∧
  precert_chain toy_validator precert1 [].
Proof.
  split.
  - pose proof (extract_issuer_key_hash_correct (DbErr := string) toy_validator precert1 [signer_der; root_der])
      as (_ & _ & Hx).
    assert (match extract_issuer_key_hash (DbErr := string) toy_validator toy_chain with Ok _ => true | _ => false end = true)
      as Ho by (by vm_compute).
    fold toy_chain in Hx.
    destruct (extract_issuer_key_hash (DbErr := string) toy_validator toy_chain) as [h| | |]; [|discriminate Ho..].
    destruct (proj1 (Hx h) eq_refl) as (_ & real & spki & ? & ? & ?). exists h, real, spki. auto.
  - apply (extract_issuer_key_hash_correct (DbErr := string) toy_validator precert1 []). vm_compute. reflexivity.
Defined.

(** ** The root store *)

Definition hexes (b : bytes) : string := string_map ascii_upper (toy_hex (digest b)).
(** The report of the CCADB: the root, a record without a certificate, the
    signing certificate with a wrong fingerprint. *)
Definition toy_report : list (list string) :=
  [["Root CA"; "Owner"; toy_pem "CERTIFICATE" root_der; hexes root_der];
   ["Nothing"; "Owner"];
   ["Signer"; "Owner"; toy_pem "CERTIFICATE" signer_der; hexes root_der]].
#[local] Instance report_formats : RootFormats := toy_RootFormats toy_report.
#[local] Instance report_formats_laws : RootFormatsLaws := toy_RootFormatsLaws toy_report.

Definition toy_io : Io :=
  {| fault := λ _, None; left_by_write := λ _, None; dir_order := λ m, (map_to_list m).*1 |}.
Definition toy_worker : CcadbWorker :=
  with_validator toy_config (CcadbWorker_new Production "trusted_roots").
Definition toy_shared : Shared :=
  {| world := new_store {| dir_exists := false; nodes := ∅ |}; shared_validator := Some toy_validator |}.
Definition toy_fetch (_ : string) : HttpResponse := Body "report".

Lemma toy_store_empty : store_inv (world toy_shared).
Proof. intros fp e He. inversion He. Qed.

Lemma toy_updates :
  match update (DbErr := string) toy_fetch toy_io toy_worker toy_shared with
  | (Ok _, s') => bool_decide (base.size (certificates (world s')) = 1%nat)
  | _ => false
  end = true.
Proof. vm_compute. reflexivity. Qed.

Lemma update_correct_witness :
  ∃ v, shared_validator (update (DbErr := string) toy_fetch toy_io toy_worker toy_shared).2 = Some v ∧
    config v = toy_config ∧ length (trusted_roots v) = 1%nat.
Proof.
  pose proof (update_correct (DbErr := string) hash32 toy_fetch toy_io toy_worker toy_shared toy_store_empty)
    as (_ & _ & _ & _ & Hv).
  pose proof toy_updates as Ho.
  destruct (update (DbErr := string) toy_fetch toy_io toy_worker toy_shared) as [[u|e| |] s']; try discriminate Ho.
  destruct Hv as (v & Hs & Hc & Hr & _). exists v. split; [exact Hs|]. split; [exact Hc|].
  rewrite Hr, length_fmap, length_fmap, length_map_to_list.
  exact (bool_decide_eq_true_1 _ Ho).
Defined.

(** The directory holds the signing certificate; validation as configured when
    the program first runs. *)
Definition start_disk : Disk :=
  {| dir_exists := true; nodes := {["s.pem" := File (toy_pem "CERTIFICATE" signer_der)]} |}.
Definition start_validation : ValidationConfig :=
  {| enabled := true; vc_ccadb := Some "Production"; vc_trusted_roots_dir := "trusted_roots";
     temporal_window_start := None; temporal_window_end := None; vc_max_chain_length := Some 10;
     vc_allowed_signature_algorithms := None |}.
Definition no_time (_ : string) : res string Z := Err "unused".

Lemma toy_starts :
  match init_validation (DbErr := string) no_time toy_io start_disk (Some start_validation) with
  | Ok (Some (_, s)) => bool_decide (base.size (certificates (world s)) = 1%nat)
  | _ => false
  end = true.
Proof. vm_compute. reflexivity. Qed.


Definition entry_of (c : X509Certificate) (der : bytes) : CcadbRootEntry :=
  {| entry_subject := "root"; ca_owner := "Owner"; entry_certificate := c; sha256_fingerprint := fingerprint_of der |}.
Definition toy_world : World :=
  {| certificates := list_to_map [(fingerprint_of root_der, entry_of root_cert root_der);
                                  (fingerprint_of signer_der, entry_of signer_cert signer_der)];
     disk := {| dir_exists := false; nodes := ∅ |} |}.

Lemma toy_world_inv : store_inv toy_world.
Proof.
  intros fp e He. apply elem_of_list_to_map_2 in He.
  apply elem_of_cons in He as [He|He%list_elem_of_singleton]; apply pair_equal_spec in He as [-> ->]; (split; [done|]).
  - exists root_der. split; [by vm_compute|done].
  - exists signer_der. split; [by vm_compute|done].
Qed.

Lemma toy_names fp fp' :
  fp ∈ dom (certificates toy_world) → fp' ∈ dom (certificates toy_world) → pem_name fp = pem_name fp' → fp = fp'.
Proof.
  intros [e He%elem_of_list_to_map_2]%elem_of_dom [e' He'%elem_of_list_to_map_2]%elem_of_dom.
  assert (bool_decide (pem_name (fingerprint_of root_der) = pem_name (fingerprint_of signer_der)) = false) as Hn
    by (by vm_compute). apply bool_decide_eq_false in Hn.
  apply elem_of_cons in He as [He|He%list_elem_of_singleton], He' as [He'|He'%list_elem_of_singleton];
    apply pair_equal_spec in He as [-> _], He' as [-> _]; intros Heq.
  - reflexivity.
  - destruct (Hn Heq).
  - destruct (Hn (eq_sym Heq)).
  - reflexivity.
Qed.

Lemma persist_load_roundtrip_witness :
  ∃ w1 w2, persist_to_directory (DbErr := string) toy_io "roots" toy_world = (Ok tt, w1) ∧
    load_from_directory (DbErr := string) toy_io "roots" (new_store (disk w1)) = (Ok tt, w2) ∧
    entry_certificate <$> certificates w2 = entry_certificate <$> certificates toy_world.
Proof.
  refine (persist_load_roundtrip (DbErr := string) hash32 toy_io "roots" toy_world _ _ toy_world_inv eq_refl _ toy_names).
  - intros c. reflexivity.
  - intros m name. cbn [dir_order toy_io]. rewrite list_elem_of_fmap. split.
    + intros ([n x] & -> & Hx%elem_of_map_to_list). by exists x.
    + intros [x Hx]. exists (name, x). split; [reflexivity|]. by apply elem_of_map_to_list.
  - intros b. eexists. reflexivity.
Defined.

(** ** Submissions *)

#[local] Instance toy_Batcher : Batcher := worker_batcher config2 clock2.
#[local] Instance toy_BatcherLaws : BatcherLaws :=
  worker_batcher_law config2 clock2 hash32 dedup_total sct_total.

Definition toy_server : Server := {| storage := storage2; validator := Some toy_validator |}.

Lemma toy_request_domain chain :
  Forall toy_D chain → request_domain toy_D (map b64_encode chain).
Proof.
  intros Hd chain' Hc%map_err_Ok_inv%mapM_Forall2. apply toy_chain_domain. revert chain' Hc.
  induction Hd as [|b chain Hb _ IH]; cbn [map]; intros chain' Hc.
  - apply Forall2_nil_inv_l in Hc as ->. constructor.
  - apply Forall2_cons_inv_l in Hc as (b' & l & Hb' & Hc' & ->).
    assert (b' = b) as -> by (pose proof (b64_round b); congruence). constructor; [done|by apply IH].
Qed.

Definition cert_chain : list bytes := [toy_cert_to_der (leaf_cert "c"); root_der].
Definition pre_chain : list bytes := [toy_cert_to_der (pre_cert "d"); signer_der; root_der].
Lemma cert_chain_domain : Forall toy_D cert_chain.
Proof. apply (bool_decide_eq_true_1 _). vm_compute. reflexivity. Qed.
Lemma pre_chain_domain : Forall toy_D pre_chain.
Proof. apply (bool_decide_eq_true_1 _). vm_compute. reflexivity. Qed.



(** ** The certificates of the tests *)

#[export] Instance toy_TestMaterial : TestMaterial :=
  {| SigningKey := bytes; SerialNumber := bytes; signing_key_from_bytes := Ok; verifying_key_to_der := Ok;
     spki_from_der := Ok; serial_number_new := Ok; common_name := λ s, Ok (str_bytes s);
     rest_of_tbs := λ _ _, tt; bit_string := Ok |}.

(** The first unit test of issuer_key_hash.rs. *)
Example test_extract_issuer_key_hash_minimal :
  match create_precertificate_with_poison, create_test_certificate with
  | Ok p, Ok c =>
      extract_issuer_key_hash_minimal [p; c] = Ok (digest (repeat 42 32)) ∧
      extract_test_issuer_key_hash [p; c] = Ok (digest (repeat 42 32))
  | _, _ => False
  end.
Proof. by vm_compute. Qed.
