(* ===== verification/WitnessMain.v ===== *)
(** * Instances of the theorems on the start of the server

    A first start in an empty directory, a restart, and a start on the database
    of the log of two entries. *)

From S2P Require Import Prelude TreeMath Rfc6962 Inclusion Consistency KvStore TreeStore.
From S2P Require Import Instances TreeInv TreeReads TreePush TreeTiles TreeBatch TreeHistory.
From S2P Require Import Types TreeHead Tiles MerkleStorage CtStorage CtInv CtFlush CtReads.
From S2P Require Import CtWorker Api ApiReads X509 TbsExtraction Validator ValidatorProofs Ccadb.
From S2P Require Import CcadbProofs Startup Submit SubmitProofs Main MainProofs.
From S2P Require Import WitnessTree LogInstances WitnessLog WitnessRoots.

#[local] Instance main_formats : RootFormats := toy_RootFormats toy_report.
#[local] Instance main_formats_laws : RootFormatsLaws := toy_RootFormatsLaws toy_report.

(** A key is a list of bytes. *)
#[local] Instance toy_P256 : P256 :=
  {| SecretKey := bytes; to_pkcs8_pem := λ k, Ok (toy_pem "PRIVATE KEY" k);
     from_pkcs8_pem := λ s, '(label, k) ← pem_decode s; Ok k;
     to_public_key_pem := λ k, Ok (toy_pem "PUBLIC KEY" (digest k));
     to_public_key_der := λ k, Ok (0 :: digest k); key_to_bytes := λ k, k |}.
#[local] Instance toy_P256Laws : P256Laws.
Proof.
  split; try done.
  - intros s. apply total_bind; [apply pem_decode_total|by intros []].
  - intros k. by eexists.
Qed.

#[local] Instance AppConfig_eq_dec : EqDecision AppConfig.
Proof.
  assert (EqDecision AzureConfig) by solve_decision. assert (EqDecision AwsConfig) by solve_decision.
  assert (EqDecision LocalConfig) by solve_decision. assert (EqDecision StorageConfig) by solve_decision.
  assert (EqDecision ServerConfig) by solve_decision. assert (EqDecision KeysConfig) by solve_decision.
  assert (EqDecision CacheConfig) by solve_decision. assert (EqDecision ValidationConfig) by solve_decision.
  solve_decision.
Defined.

(** A format that can only express the initial configuration. *)
#[local] Instance toy_ConfigFormat : ConfigFormat :=
  {| toml_to_string := λ c, if bool_decide (c = initial_config) then Ok "initial" else Err "unsupported";
     config_build := λ m, match m !! "Config.toml" with
                          | Some (File text) => if bool_decide (text = "initial") then Ok initial_config
                                                else Err "syntax error"
                          | _ => Err "not found"
                          end |}.
#[local] Instance toy_ConfigFormatLaws : ConfigFormatLaws.
Proof.
  split; cbn [toml_to_string config_build toy_ConfigFormat].
  - intros c. by destruct (bool_decide _).
  - intros m. destruct (m !! _) as [[text|]|]; [by destruct (bool_decide _)|done..].
  - intros m m' Hm. by rewrite Hm.
  - intros m c text Ht Hm _. rewrite Hm. destruct (bool_decide (c = initial_config)) eqn:Hc; [|done].
    apply bool_decide_eq_true in Hc as ->. by injection Ht as <-.
Qed.

Definition empty_disk : Disk := {| dir_exists := true; nodes := ∅ |}.
Definition open2 (_ : ObjectStore) (_ : Z) (_ : option string * option Z) : res string Db :=
  Ok (rl_db (tree_db log2)).

Definition first_start : res (BoxError SlateDBError) Running * Disk :=
  main no_time open2 toy_io toy_io start_disk [42] empty_disk.

Lemma first_starts : match first_start.1 with Ok _ => true | _ => false end = true.
Proof. vm_compute. reflexivity. Qed.

Lemma loads_initial cfg d d1 :
  load_config toy_io [42] d = (Ok cfg : res (BoxError SlateDBError) AppConfig, d1) → cfg = initial_config.
Proof.
  unfold load_config. intros Hl. run_step Hl d0 s1 Hg. destruct (negb _).
  - unfold initialize_config in Hl. run_step Hl u1 s2 H1'. run_step Hl u2 s3 H2'. run_step Hl u3 s4 H3'.
    run_step Hl u4 s5 H4'. by apply ret_Ok_inv in Hl as [-> _].
  - run_step Hl c s2 Hc. apply lift_Ok_inv in Hc as [Hc%map_err_Ok_inv _]. run_step Hl u s3 Hk.
    apply ret_Ok_inv in Hl as [-> _]. revert Hc. cbn [config_build toy_ConfigFormat].
    destruct (_ !! _) as [[t|]|]; [destruct (bool_decide _)|..]; try done. by intros [= <-].
Qed.

Lemma Ok_inj {E A} (a b : A) : (Ok a : res E A) = Ok b → b = a.
Proof. congruence. Qed.

Lemma log2_held : holds_log open2 logged2 bounds2.
Proof.
  intros st cap opts. split; [exact I|]. intros db Hdb%Ok_inj. rewrite Hdb.
  exact (conj (proj1 (proj1 log2_inv)) (proj2 log2_inv)).
Qed.

Lemma start_roots : roots_domain toy_D start_disk.
Proof.
  intros name text der c Hn Hp Hc. cbn [nodes start_disk] in Hn. apply lookup_singleton_Some in Hn as [_ Ht].
  pose proof (pem_round "CERTIFICATE" signer_der _ eq_refl) as Hr.
  assert (der = signer_der) as -> by congruence.
  eapply toy_in_domain; [exact Hc|]. apply (bool_decide_eq_true_1 _). vm_compute. reflexivity.
Qed.

(** The second start draws another key; it
    serves with the key of the first. *)
Lemma restart_identity_witness :
  ∃ r d1, first_start = (Ok r, d1) ∧
    ∀ (r' : Running) (d2 : Disk), main no_time open2 toy_io toy_io start_disk [77] d1 = (Ok r', d2) →
      d2 = d1 ∧ api_log_id (api_state r') = api_log_id (api_state r).
Proof.
  pose proof first_starts as Ho. destruct first_start as [[r|e| |] d1] eqn:Hf; try discriminate Ho.
  exists r, d1. split; [reflexivity|]. unfold first_start in Hf.
  destruct (restart_identity no_time open2 toy_io toy_io start_disk ([42] : SecretKey (P256 := toy_P256)) empty_disk r d1 Hf) as (cfg & _ & Hx).
  - intros cfg Hc. rewrite (loads_initial _ _ _ Hc). split; reflexivity.
  - intros p _ [x Hp]. inversion Hp.
  - intros r' d2 Hm. destruct (Hx no_time open2 toy_io toy_io start_disk [77] (λ _, eq_refl)) as [_ Hy].
    destruct (Hy r' d2 Hm) as [Hd Hs]. split; [exact Hd|]. rewrite Hs. reflexivity.
Defined.

(** The server has the log of two entries and validates. *)
Lemma main_correct_witness :
  ∃ r d1, first_start = (Ok r, d1) ∧ storage_inv (storage (server_state r)) logged2 bounds2 ∧
    vinv toy_D (validator (server_state r)) ∧
    ∃ worker s, ccadb_worker r = Some (worker, s) ∧ validator (server_state r) = shared_validator s.
Proof.
  pose proof (main_correct toy_D no_time open2 toy_io toy_io start_disk [42] empty_disk logged2 bounds2
    (λ _, I) log2_held start_roots) as Hm. pose proof first_starts as Ho.
  unfold spec in Hm. unfold first_start in Ho |- *.
  destruct (main _ _ _ _ _ _ _) as [[r|e| |] d1]; try discriminate Ho.
  destruct Hm as (Hs & Hv & _ & cfg & Hcfg & _ & Hc). exists r, d1. split; [reflexivity|].
  split; [exact Hs|]. split; [exact Hv|].
  rewrite (loads_initial _ _ _ Hcfg) in Hc. unfold validation_as_configured in Hc. cbn [validation initial_config] in Hc.
  destruct (ccadb_worker r) as [[worker s]|]; [|destruct Hc as [Hc _]; discriminate Hc].
  destruct Hc as (_ & Hsame & _). exists worker, s. split; [reflexivity|exact Hsame].
Defined.
